(* ===== verification/_CoqProject ===== *)
-Q . S2P
Prelude.v
Bytes.v
WireTypes.v
FrameCodec.v
Replay.v
CryptoTypes.v
Session.v
Wire.v
TransferMsg.v
DhtMsg.v
PeerId.v
Identity.v
Noise.v
Float64.v
PeerInfo.v
Routing.v
Lookup.v
Bootstrap.v
Transfer.v
Storage.v
SuperNode.v
Stun.v
Relay.v
Connection.v
Display.v
Transport.v
TransportConc.v
Node.v
NodeLaws.v
Network.v
EndToEnd.v
FileNodes.v
NodeLookup.v
NodeSafety.v
Authentic.v
Agreement.v
NodeRuns.v
Telemetry.v
Ui.v
Config.v
Process.v
Chaos.v
