(* ===== verification/Prelude.v ===== *)
(** * cekyP2P: a verification development

    cekyP2P is a peer-to-peer network stack in Rust, a workspace of crates under
    src/crates. This library models the crates' logic as executable definitions
    and proves what makes them correct. All files are under the library root of
    _CoqProject, whose order is the order of dependencies; a definition has the
    name of the Rust item it translates, inside a Module with the name of the
    Rust type.

    ** The program and the files

    - Language: [Prelude] (outcomes [Ok]/[Err]/[Panic] of a call, [&mut self]
      methods that can fail as [method], machine integers as [Z] with [wrap]),
      [Bytes] (byte strings, big- and little-endian integers, slices that panic out
      of range, the reading cursor of the crate bytes), [Float64] ([f64] as IEEE
      binary64), [Wire] (the interface [Wire]/[WireOk] between a message encoder
      and its decoder, with the tactics that discharge it).
    - ceky-protocol: [WireTypes] (lib.rs, types.rs, error.rs), [FrameCodec]
      (codec.rs), [TransferMsg] (transfer.rs), [DhtMsg] (dht.rs).
    - ceky-crypto: [CryptoTypes] (error.rs and the interfaces of the primitives:
      [Aead], [Sha256], [X25519], [Ed25519], each with its laws and a toy instance
      that satisfies them), [Replay] and [Session] (session.rs), [PeerId] and
      [Identity] (identity.rs), [Noise] (noise.rs).
    - ceky-dht: [PeerInfo] (peer_info.rs), [Routing] (routing.rs), [Lookup]
      (operations.rs), [Bootstrap] (bootstrap.rs), [Storage] (storage.rs),
      [SuperNode] (supernode.rs).
    - ceky-transfer: [Transfer] (manager.rs, state.rs, merkle.rs).
    - ceky-nat: [Stun] (stun.rs, detection.rs, hole_punch.rs), [Relay] (relay.rs).
    - ceky-transport: [Connection] (connection.rs, pool.rs), [Transport] (tcp.rs,
      udp.rs, the events of lib.rs), [TransportConc] (the tasks of tcp.rs
      interleaved), [Chaos] (chaos.rs).
    - ceky-node: [Node] (node.rs: the state and every handler of the event loop),
      with its theorems in [NodeLaws] (what one node sends another, frame by
      frame), [Network] (two nodes joined by the tasks of the transport and the
      codec), [EndToEnd] (handshake and messages over that connection),
      [FileNodes] (a file over it), [NodeLookup] (three nodes: finding a peer
      through another and connecting to it),
      [NodeSafety] (invariants of all runs), [Authentic] and [Agreement] (two
      nodes and a hostile network) and [NodeRuns] (concrete runs); [Config]
      (config.rs, main.rs, api.rs); [Process] (main.rs and the startup and
      shutdown of node.rs).
    - ceky-telemetry: [Telemetry] (metrics.rs, logger.rs, app.rs, and the task of
      node.rs that refreshes the metrics), [Ui] (ui.rs).
    - All crates: [Display] (the texts of messages, identifiers, tiers and
      statistics).

    How they interact: a frame carries the messages of [TransferMsg] and [DhtMsg];
    [Noise] turns two identities into [SessionKeys], from which [Session] builds
    the two ends of an encrypted channel behind the window of [Replay]; [PeerId]
    gives the metric and the bucket that [Routing], [Lookup] and [Bootstrap] use;
    [Transfer] exchanges the messages of [TransferMsg] in frames; [Relay] takes
    its errors from [Stun]. [Transport] runs the codec over the sockets, keeps
    the pool of [Connection] and hands frames and events to [Node], whose state
    holds an [Identity], a [TcpTransport], a handshake or a [SecureSession] per
    peer address, a [RoutingTable] and a [TransferManager], and which answers the
    commands of [Config]'s interface.

    ** How code becomes definitions

    - A function is a function; a fallible one returns [result], and a method that
      changes its object returns the new state with its result, so that what was
      written before an error stays written.
    - A panic (slice or index out of range, [copy_from_slice] on different
      lengths) is the outcome [Panic]. As in the release profile of the workspace,
      integer arithmetic wraps and a panic aborts the process ([Process]).
    - Random draws, readings of the clock, what a socket delivers and whether an
      operating system call succeeds are arguments.
    - Crates that are not part of the workspace are classes of operations with
      the laws the code relies on: crc32c, ChaCha20-Poly1305, SHA-256, X25519,
      Ed25519, redb, hex, toml, the layout of ratatui, and [log2] of the platform. Every law has an instance, so
      that no theorem rests on assumptions that cannot hold together.
    - HashMap and DashMap are finite maps. A DashMap guard held across a second
      access to the same entry is the outcome [Blocks] of [Transfer].
    - A loop is a Fixpoint. Where the recursion is not structural it has fuel:
      [FrameCodec.decode_loop] two turns (Header, then Payload), [Transfer]'s
      [pump_loop] one turn per remaining chunk, [Merkle.chunk_hashes] one per byte
      of the file, [Stun.parse_attributes] one per byte of the response,
      [rounds], the caller of a lookup that [lookup_terminates] speaks
      of, one per round. The theorems show that the fuel is
      never what ends the loop ([decode_total], [pump_paced], [stun_parse_safe],
      [lookup_terminates]).
    - Concurrency: [SessionConc] interleaves the calls on one session at the
      atomic operations of the code; [PoolConc] the insertions and removals of the
      pool, each at its check, its change of the map and its counter;
      [TcpConc] the opening of connections, their readers with their cleanup,
      writers, senders and disconnections, one operation on the shared maps,
      channels or events at a time; [Storage] has the background tasks as steps of
      their own. [TcpTransport.step] is the coarser view the nodes are built on, in
      which a handler of the accept loop, of a caller, or of the reader or writer
      of a connection is one step (its runs are runs of [TcpConc], lemma
      [atomic_runs]), and [NodeSafety.sys_step] adds the
      turns of the event loop to it; [Process.act] is what [main] and the
      tasks of [start_node] may do next, also after an interrupt, until
      dropping the runtime has ended each. A channel is the list of all it was sent, with the number its
      receiver has taken. [Network], [FileNodes] and [NodeLookup] fix a schedule
      for two nodes, and for a third the first one dials afterwards: each writes all
      that waits, the other reads and handles it; the pieces in which bytes arrive
      are arbitrary.

    ** What the theorems show

    - Wire: frames survive any fragmentation of the stream ([stream_reassembly]),
      the decoder accepts nothing but encodings ([decode_sound]), never panics and
      fails for good ([decode_total]); every message comes back from its encoding
      and no decoder panics ([transfer_messages_roundtrip],
      [transfer_decoders_safe], [stun_response_parsed], [stun_parse_safe], with the
      lemmas [codec_roundtrip], [find_node_resp_decoded], [dht_decoders_safe]).
    - Security: the replay window refines the filter that remembers every nonce
      ([window_refines_filter]); a lossy, repeating and reordering channel delivers
      as that filter says ([channel_delivery]); under every interleaving no nonce
      seals twice and none is delivered twice ([sealing_nonces_unique],
      [deliveries_unique]); the handshake ends with both sides agreeing
      ([handshake_agreement]); its initiator is total, an identity survives being
      saved and a node keeps its own (lemmas [initiator_total],
      [identity_save_load], [identity_stable]).
    - DHT: the routing table keeps its invariant and refines a finite map
      ([table_invariant], [insert_refines], lemma [table_ops_refine]), and finds the
      closest peers ([find_closest_correct]); a lookup ends and keeps the closest
      peers heard of ([lookup_terminates], [lookup_keeps_closest]); lookup targets
      hit their buckets ([bootstrap_targets_hit]); the store refines a map with a
      durable part, across restarts, for reads that do not fall between a removal
      and its deletion task ([store_refines_map]). Lemmas: XOR is a metric
      whose buckets partition the identifiers ([xor_metric],
      [bucket_index_partition]); tiers and pruning follow their rules
      ([evaluate_all_ladder], [prune_correct]).
    - Transfers and relays: a file arrives unchanged in whatever order its chunks
      do ([file_transfer_delivers]), the sender keeps to its credits and to the
      chunks asked for ([pump_paced]); relay sessions keep their accounts and limits, have identifiers
      of their own and end for good ([relay_invariant], [closed_session_stays_closed]).
    - Transport: what is queued for a connection reaches the other end's events,
      complete and in order, however the stream is cut ([tcp_delivery]); however
      the tasks interleave, the Connected and Disconnected events of a peer count
      its connections, nothing is reported of a peer that is not connected, and no
      sender or pool entry outlives its connections ([tcp_lifecycle]); a Ping is
      answered and a Pong counted without the upper layer (lemma [ping_pong]); datagrams ([udp_datagrams]); the missed heartbeats of a
      connection are those since its last PONG ([heartbeat_history]), and
      insertions that overlap pass the limit of the pool by less than their number
      ([pool_bound]).
    - Two and three nodes over TCP: a node that dials another ends with a secure session on
      both sides, each knowing the key of the other ([session_over_tcp]); a
      conversation arrives complete and in order on both interfaces
      ([conversation_over_tcp]); a file of up to 50000 bytes arrives on the other
      disk, of a larger one 50 chunks do, and the acknowledgement then stops the
      sender's loop unless the file is empty ([file_over_tcp]). Whatever
      one side seals the other handles as if it had been handed the plain payload
      ([secure_hop]). A peer known to a common neighbour is found, dialled and gets
      a session, whoever it is ([introduction_over_tcp]). Below them are the lemmas [handshake_messages],
      [nodes_handshake], [messages_delivered], [crossing] and [pass_joined].
    - Every run of a node: nothing was ever sent but the messages of its own
      handshakes, payloads sealed under the key of a session it concluded, and
      empty PONGs ([nothing_in_clear]); the loop survives every input but those the theorem
      lists ([loop_survives]); frames that no session authenticates change nothing
      but the replay window of their sender ([unauthenticated_inert]); against a
      network that does what it likes, short of forging a ciphertext, every
      message a node is told of answers to one frame of its peer, and no two to
      the same ([messages_agree]; for one node the lemma [messages_authentic]).
    - The process: after an interrupt every fair run ends, unless it is a daemon or
      its loop blocks, and then it never does ([interrupt_exits]); a panic of the loop ends it at once
      (lemma [panic_aborts]).
    - Configuration, interface and display: every setting comes from the command
      line, the file or the default, in this order ([resolve_layers]); no request
      without the key is obeyed or answered ([api_guarded]); the display holds
      the last hundred messages and readings and the screen shows them (lemmas
      [display_current], [screen_current]); a printed frame or statistic can be read
      back (lemmas [frame_read], [flags_read], [pool_stats_read]).
    - Where the code does not do what it means to, a lemma or a concrete run
      states what it does: [forged_nonce_blocks_genuine],
      [message3_length_panics], [duplicate_completes], [ack_blocks],
      [root_never_checked], [large_offset_wraps], [absolute_name_escapes],
      [refresh_never_recorded], [republished_key_collected],
      [removed_key_returns], [read_undoes_removal], [racing_get_hides_put],
      [first_second_unlimited], [empty_file_stays_open], [short_offer_kills],
      [pool_limit_passed], [counters_lag], [filed_not_pooled], [frame_counted_twice], [reconnect_loses_peer],
      [disconnect_keeps_reading], [ack_stops_sender], [complete_ignored],
      [own_address_answered], [broken_config_opens_api],
      [lagging_client_cut_off], [percent_overflows], [record_debug_panics],
      [message_lowers_rate], [dht_counters_unused], [failed_draw_keeps_raw],
      [reported_id_unusable], [reported_alike], [retyped_frame_accepted],
      [quit_waits], [daemon_never_exits], [short_id_aborts].

    ** What is not modelled

    How ratatui divides and paints the screen, and the terminal itself; the HTTP
    server (what axum makes of a request before a handler sees it, a body or a
    rejection with its status, is an argument of [Api.route]); argument parsing
    and the setup of logging in main.rs; the texts of errors and of log messages;
    sockets being bound and closed; constructors that only forward ([Default]
    implementations, accessors, re-exports); code without a caller
    ([KBucket::closest_peers], [NoiseHandshake::mix_key], the enums
    [HandshakeState] and [FindValueResult]). A page of a mapped file has 4096
    bytes; the length of a DashMap is read at one moment; a signal handler is
    always installed. The theorems on nodes over TCP hold
    for the schedule of [Network], over the coarse steps of [Transport]; other schedules of a file transfer, in which an
    acknowledgement arrives before all chunks are out, stop the sender earlier and
    are not treated. What is left of the sources is one of these, or a test. *)
From stdpp Require Export base numbers list gmap sorting.
From Stdlib Require Export ZArith Lia.

Set Default Goal Selector "!".

(** ** Outcomes of a Rust computation

    A function with return type [Result<T, E>] returns [Ok] or [Err]; any
    function may also panic (slice index out of range, [copy_from_slice] on
    different lengths, ...), which is the third outcome. *)
Inductive result (E A : Type) : Type :=
| Ok (a : A)
| Err (e : E)
| Panic.
Arguments Ok {E A} a.
Arguments Err {E A} e.
Arguments Panic {E A}.

#[export] Instance result_ret E : MRet (result E) := λ A a, Ok a.
#[export] Instance result_bind E : MBind (result E) := λ A B f m,
  match m with
  | Ok a => f a
  | Err e => Err e
  | Panic => Panic
  end.
#[export] Instance result_fmap E : FMap (result E) := λ A B f m,
  match m with
  | Ok a => Ok (f a)
  | Err e => Err e
  | Panic => Panic
  end.

(** [r.map_err(f)] *)
Definition map_err {E F A} (f : E → F) (r : result E A) : result F A :=
  match r with
  | Ok a => Ok a
  | Err e => Err (f e)
  | Panic => Panic
  end.

(** [o.ok_or(e)] *)
Definition ok_or {E A} (o : option A) (e : E) : result E A :=
  match o with
  | Some a => Ok a
  | None => Err e
  end.

(** [if c { return Err(e) }] *)
Definition guard_err {E} (bad : bool) (e : E) : result E unit :=
  if bad then Err e else Ok tt.

Definition is_ok {E A} (r : result E A) : bool :=
  match r with Ok _ => true | _ => false end.

Definition is_panic {E A} (r : result E A) : bool :=
  match r with Panic => true | _ => false end.

Lemma bind_Ok {E A B} (m : result E A) (f : A → result E B) b :
  m ≫= f = Ok b ↔ ∃ a, m = Ok a ∧ f a = Ok b.
Proof. destruct m; simpl; naive_solver. Qed.

Lemma bind_not_Panic {E A B} (m : result E A) (f : A → result E B) :
  m ≠ Panic → (∀ a, m = Ok a → f a ≠ Panic) → m ≫= f ≠ Panic.
Proof. destruct m; simpl; naive_solver. Qed.

Lemma guard_err_Ok {E} b (e : E) u : guard_err b e = Ok u ↔ b = false.
Proof. destruct b, u; simpl; naive_solver. Qed.

Lemma guard_err_not_Panic {E} b (e : E) : guard_err b e ≠ Panic.
Proof. by destruct b. Qed.

Lemma ok_or_Ok {E A} (o : option A) (e : E) a : ok_or o e = Ok a ↔ o = Some a.
Proof. destruct o; simpl; naive_solver. Qed.

Lemma ok_or_not_Panic {E A} (o : option A) (e : E) : ok_or o e ≠ Panic.
Proof. by destruct o. Qed.

Create HintDb rust.
#[export] Hint Resolve guard_err_not_Panic ok_or_not_Panic : rust.

(** Decompose a hypothesis stating that a monadic computation returned [Ok]. *)
Ltac inv_ok :=
  repeat match goal with
  | H : _ ≫= _ = Ok _ |- _ =>
      let a := fresh "a" in let H1 := fresh "H" in let H2 := fresh "H" in
      apply bind_Ok in H as (a & H1 & H2)
  | H : guard_err _ _ = Ok _ |- _ => apply guard_err_Ok in H
  | H : ok_or _ _ = Ok _ |- _ => apply ok_or_Ok in H
  | H : Ok _ = Ok _ |- _ => injection H as H
  | H : Err _ = Ok _ |- _ => discriminate H
  | H : Panic = Ok _ |- _ => discriminate H
  end.

(** ** [&mut self] methods that can fail

    A method takes the state and returns the new state with its outcome; what it
    wrote before failing stays written. *)
Definition method (S E A : Type) : Type := S → S * result E A.

Definition mdone {S E A} (a : A) : method S E A := λ s, (s, Ok a).
Definition mthen {S E A B} (m : method S E A) (k : A → method S E B) : method S E B := λ s,
  match m s with
  | (s', Ok a) => k a s'
  | (s', Err e) => (s', Err e)
  | (s', Panic) => (s', Panic)
  end.
(** A call that does not touch the state, with [?]. *)
Definition mtry {S E A} (r : result E A) : method S E A := λ s, (s, r).
Definition mself {S E} : method S E S := λ s, (s, Ok s).
Definition mset {S E} (f : S → S) : method S E unit := λ s, (f s, Ok tt).

Declare Scope method_scope.
Delimit Scope method_scope with method.
Notation "'let?' x ':=' m 'in' k" := (mthen m (λ x, k))
  (at level 10, x pattern, m at level 200, k at level 200) : method_scope.
Notation "m ';?' k" := (mthen m (λ _, k))
  (at level 199, right associativity) : method_scope.

Lemma mthen_ok {S E A B} (m : method S E A) (k : A → method S E B) s s' a :
  m s = (s', Ok a) → mthen m k s = k a s'.
Proof. intros H. unfold mthen. by rewrite H. Qed.

Lemma mthen_try_ok {S E A B} (a : A) (k : A → method S E B) : mthen (mtry (Ok a)) k = k a.
Proof. done. Qed.

Lemma mthen_not_Panic {S E A B} (m : method S E A) (k : A → method S E B) s :
  (m s).2 ≠ Panic → (∀ s' a, m s = (s', Ok a) → (k a s').2 ≠ Panic) → (mthen m k s).2 ≠ Panic.
Proof. unfold mthen. intros Hm Hk. destruct (m s) as [s' [a|e|]]; simpl in *; auto. Qed.

(** ** Machine integers: an unsigned [w]-bit integer is a [Z] in range *)
Definition is_uint (w z : Z) : Prop := (0 ≤ z < 2 ^ w)%Z.
Definition wrap (w z : Z) : Z := (z mod 2 ^ w)%Z.

#[export] Instance is_uint_dec w z : Decision (is_uint w z).
Proof. unfold is_uint. apply _. Defined.

Abbreviation is_u8 := (is_uint 8).
Abbreviation is_u16 := (is_uint 16).
Abbreviation is_u32 := (is_uint 32).
Abbreviation is_u64 := (is_uint 64).

Lemma wrap_range w z : (0 ≤ w)%Z → is_uint w (wrap w z).
Proof. intros Hw. apply Z.mod_pos_bound. by apply Z.pow_pos_nonneg. Qed.

Lemma wrap_small w z : is_uint w z → wrap w z = z.
Proof. intros H. by apply Z.mod_small. Qed.
#[export] Hint Resolve wrap_range : rust.

Lemma wrap_add_l w a b : wrap w (wrap w a + b) = wrap w (a + b).
Proof. unfold wrap. apply Zplus_mod_idemp_l. Qed.

(** Bits of a [w]-bit integer above [w] are zero. *)
Lemma is_uint_testbit w z :
  (0 ≤ w)%Z → is_uint w z ↔ (0 ≤ z)%Z ∧ ∀ i, (w ≤ i)%Z → Z.testbit z i = false.
Proof.
  intros Hw. split.
  - intros [H0 H1]. split; [done|]. intros i Hi.
    rewrite <- (Z.mod_small z (2 ^ w)) by lia. by apply Z.mod_pow2_bits_high.
  - intros [H0 Hb]. split; [done|].
    destruct (Z.eq_dec z 0) as [->|Hz]; [by apply Z.pow_pos_nonneg|].
    apply Z.log2_lt_pow2; [lia|].
    destruct (Z.lt_ge_cases (Z.log2 z) w) as [|Hge]; [done|].
    specialize (Hb _ Hge). rewrite Z.bit_log2 in Hb by lia. done.
Qed.

Lemma is_uint_lxor w a b :
  (0 ≤ w)%Z → is_uint w a → is_uint w b → is_uint w (Z.lxor a b).
Proof.
  intros Hw Ha Hb. apply is_uint_testbit in Ha as [Ha0 Ha]; [|done].
  apply is_uint_testbit in Hb as [Hb0 Hb]; [|done].
  apply is_uint_testbit; [done|]. split; [by apply Z.lxor_nonneg; split|].
  intros i Hi. by rewrite Z.lxor_spec, Ha, Hb.
Qed.

Lemma is_uint_lor w a b :
  (0 ≤ w)%Z → is_uint w a → is_uint w b → is_uint w (Z.lor a b).
Proof.
  intros Hw Ha Hb. apply is_uint_testbit in Ha as [Ha0 Ha]; [|done].
  apply is_uint_testbit in Hb as [Hb0 Hb]; [|done].
  apply is_uint_testbit; [done|]. split; [by apply Z.lor_nonneg|].
  intros i Hi. by rewrite Z.lor_spec, Ha, Hb.
Qed.

Lemma is_uint_land_l w a b :
  (0 ≤ w)%Z → is_uint w a → is_uint w (Z.land a b).
Proof.
  intros Hw Ha. apply is_uint_testbit in Ha as [Ha0 Ha]; [|done].
  apply is_uint_testbit; [done|]. split; [apply Z.land_nonneg; by left|].
  intros i Hi. by rewrite Z.land_spec, Ha.
Qed.

Lemma is_uint_mono w w' z : (0 ≤ w ≤ w')%Z → is_uint w z → is_uint w' z.
Proof.
  intros Hw [H0 H1]. split; [done|].
  eapply Z.lt_le_trans; [done|]. by apply Z.pow_le_mono_r; lia.
Qed.
#[export] Hint Resolve is_uint_lxor is_uint_lor is_uint_land_l : rust.

(** [x & (1 << k) != 0] reads bit [k]. *)
Lemma bit_of_byte byte k : (0 ≤ k)%Z →
  negb (Z.land byte (Z.shiftl 1 k) =? 0)%Z = Z.testbit byte k.
Proof.
  intros Hk. rewrite Z.shiftl_1_l.
  destruct (Z.eqb_spec (Z.land byte (2 ^ k)) 0)%Z as [E|E]; simpl.
  - apply (f_equal (λ z, Z.testbit z k)) in E.
    by rewrite Z.land_spec, Z.pow2_bits_true, andb_true_r, Z.testbit_0_l in E.
  - symmetry. apply not_false_iff_true. intros Hx. apply E, Z.bits_inj'. intros n Hn.
    rewrite Z.land_spec, Z.pow2_bits_eqb, Z.testbit_0_l by lia.
    destruct (Z.eqb_spec k n) as [<-|]; [by rewrite Hx|apply andb_false_r].
Qed.

(** A number split at bit [n]. *)
Lemma testbit_split n x r i :
  (0 ≤ n)%Z → (0 ≤ r < 2 ^ n)%Z → (0 ≤ i)%Z →
  Z.testbit (x * 2 ^ n + r) i = if (i <? n)%Z then Z.testbit r i else Z.testbit x (i - n).
Proof.
  intros Hn Hr Hi. assert (2 ^ n ≠ 0)%Z by lia. destruct (Z.ltb_spec i n).
  - rewrite <- (Z.mod_pow2_bits_low _ n) by lia.
    by rewrite Z.add_comm, Z.mod_add, Z.mod_small by lia.
  - replace x with ((x * 2 ^ n + r) / 2 ^ n)%Z at 2
      by (rewrite Z.div_add_l, Z.div_small by lia; lia).
    rewrite Z.div_pow2_bits by lia. f_equal. lia.
Qed.

Lemma lxor_split n x y r s :
  (0 ≤ n)%Z → (0 ≤ r < 2 ^ n)%Z → (0 ≤ s < 2 ^ n)%Z →
  Z.lxor (x * 2 ^ n + r) (y * 2 ^ n + s) = (Z.lxor x y * 2 ^ n + Z.lxor r s)%Z.
Proof.
  intros Hn Hr Hs. pose proof (is_uint_lxor n r s Hn Hr Hs) as Hl.
  apply Z.bits_inj'. intros i Hi. rewrite Z.lxor_spec, !testbit_split by done.
  destruct (i <? n)%Z; by rewrite Z.lxor_spec.
Qed.

Lemma lxor_le_add a b : (0 ≤ a)%Z → (0 ≤ b)%Z → (Z.lxor a b ≤ a + b)%Z.
Proof.
  intros Ha Hb. rewrite <- Z.add_lxor_2land.
  assert (0 ≤ Z.land a b)%Z by (apply Z.land_nonneg; by left). lia.
Qed.

(** ** Lists *)

(** [v.remove(i)] on a vector (the caller knows [i] is in range). *)
Definition vec_remove {A} (i : nat) (l : list A) : list A := take i l ++ drop (S i) l.

(** [iter().position(p)] *)
Fixpoint position {A} (p : A → bool) (l : list A) : option nat :=
  match l with
  | [] => None
  | x :: l => if p x then Some 0 else S <$> position p l
  end.

Lemma position_Some {A} (p : A → bool) l i :
  position p l = Some i ↔
  ∃ x, l !! i = Some x ∧ p x = true ∧ ∀ j y, j < i → l !! j = Some y → p y = false.
Proof.
  revert i. induction l as [|x l IH]; intros i; simpl.
  { naive_solver. }
  destruct (p x) eqn:Hp.
  - split.
    + intros [= <-]. exists x. naive_solver lia.
    + intros (y & Hy & Hpy & Hbefore). destruct i as [|i]; [done|].
      specialize (Hbefore 0 x ltac:(lia) eq_refl). congruence.
  - rewrite fmap_Some. split.
    + intros (k & Hk & ->). apply IH in Hk as (y & Hy & Hpy & Hb).
      exists y. split_and!; [done..|]. intros [|j] z Hj Hz; simplify_eq/=; [done|].
      apply (Hb j); [lia|done].
    + intros (y & Hy & Hpy & Hb). destruct i as [|i]; simplify_eq/=; [congruence|].
      exists i. split; [|done]. apply IH. exists y. split_and!; [done..|].
      intros j z Hj Hz. apply (Hb (S j)); [lia|done].
Qed.

Lemma position_None {A} (p : A → bool) l :
  position p l = None ↔ ∀ x, x ∈ l → p x = false.
Proof.
  induction l as [|x l IH]; simpl.
  { split; [|done]. intros _ x Hx. by apply elem_of_nil in Hx. }
  destruct (p x) eqn:Hp.
  - split; [done|]. intros H. specialize (H x (list_elem_of_here _ _)). congruence.
  - rewrite fmap_None, IH. split.
    + intros H y [->|Hy]%elem_of_cons; auto.
    + intros H y Hy. apply H. by constructor.
Qed.

(** Boolean equality of lists of integers ([slice == slice]). *)
Definition bytes_eqb (a b : list Z) : bool := bool_decide (a = b).

Lemma bytes_eqb_spec a b : bytes_eqb a b = true ↔ a = b.
Proof. apply bool_decide_eq_true. Qed.

Lemma take_drop_slice {A} (i j : nat) (l : list A) :
  i ≤ j → take i l ++ take (j - i) (drop i l) = take j l.
Proof.
  intros Hij. rewrite take_drop_commute.
  replace (i + (j - i)) with j by lia.
  rewrite <- (take_drop i (take j l)) at 2. by rewrite take_take, Nat.min_l by lia.
Qed.

(** Two ways to cut a list: the longer prefix extends the shorter one. *)
Lemma app_eq_longer {A} (a b c d : list A) :
  a ++ b = c ++ d → length c ≤ length a → ∃ k, a = c ++ k ∧ d = k ++ b.
Proof.
  intros H Hlen. apply app_eq_inv in H as [(k & -> & ->)|(k & -> & ->)]; [eauto|].
  rewrite length_app in Hlen. destruct k; [|simpl in Hlen; lia].
  exists []. by rewrite !app_nil_r.
Qed.

(** Elements with distinct images are determined by them. *)
Lemma NoDup_map_unique {A B} (f : A → B) (l : list A) x y :
  NoDup (map f l) → x ∈ l → y ∈ l → f x = f y → x = y.
Proof.
  intros Hnd [i Hi]%list_elem_of_lookup [j Hj]%list_elem_of_lookup Heq.
  assert (i = j) as ->; [|congruence].
  apply (NoDup_lookup (map f l) i j (f x)); [done|..]; change (map f l) with (f <$> l);
    rewrite list_lookup_fmap, ?Hi, ?Hj; simpl; congruence.
Qed.

(** ** Maps *)
Lemma size_alter `{Countable K} {A} (f : A → A) (i : K) (m : gmap K A) : size (alter f i m) = size m.
Proof. by rewrite <- !(size_dom (D:=gset K)), dom_alter. Qed.

(** Prove a decidable closed proposition by evaluating its decision procedure. *)
Ltac decide_now := refine (bool_decide_unpack _ _); vm_compute; exact I.
