(* ===== verification/Bytes.v ===== *)
(** Byte strings: integers in network and little-endian byte order
    ([to_be_bytes], [from_be_bytes], [to_le_bytes], [from_le_bytes] of the
    language), slices, and the reading cursor of [bytes::Buf] as a parser
    monad whose reads panic when the buffer is too short. *)
From S2P Require Import Prelude.

Local Open Scope Z_scope.

(** A byte string: every element is a [u8] (see [bytes_wf]). *)
Abbreviation bytes := (list Z).
Abbreviation bytes_wf := (Forall is_u8).

(** [b.len()] *)
Definition blen {A} (b : list A) : Z := Z.of_nat (length b).

Fixpoint le_bytes (n : nat) (z : Z) : bytes :=
  match n with
  | O => []
  | S n => z mod 256 :: le_bytes n (z / 256)
  end.

Fixpoint of_le (b : bytes) : Z :=
  match b with
  | [] => 0
  | x :: b => x + 256 * of_le b
  end.

Definition be_bytes (n : nat) (z : Z) : bytes := rev (le_bytes n z).
Definition of_be (b : bytes) : Z := of_le (rev b).

(** [&b[i..j]] *)
Definition slice {E} (i j : Z) (b : bytes) : result E bytes :=
  if (0 <=? i) && (i <=? j) && (j <=? blen b)
  then Ok (take (Z.to_nat (j - i)) (drop (Z.to_nat i) b))
  else Panic.

(** ** The reading cursor *)
Definition parser (E A : Type) : Type := bytes → result E (A * bytes).

Definition pret {E A} (a : A) : parser E A := λ b, Ok (a, b).
Definition pbind {E A B} (p : parser E A) (f : A → parser E B) : parser E B :=
  λ b, match p b with
       | Ok (a, b') => f a b'
       | Err e => Err e
       | Panic => Panic
       end.
Definition plift {E A} (r : result E A) : parser E A := λ b,
  match r with
  | Ok a => Ok (a, b)
  | Err e => Err e
  | Panic => Panic
  end.

Declare Scope parser_scope.
Delimit Scope parser_scope with parser.
Notation "x <-- p ;; q" := (pbind p (λ x, q))
  (at level 100, p at next level, right associativity) : parser_scope.
Notation "p ;;; q" := (pbind p (λ _, q))
  (at level 100, right associativity) : parser_scope.

(** [buf.remaining()] *)
Definition remaining {E} : parser E Z := λ b, Ok (blen b, b).

(** [buf.get_u8()], [get_u16()], [get_u32()], [get_u64()]: [n] bytes, big endian *)
Definition get_uint {E} (n : nat) : parser E Z := λ b,
  if (length b <? n)%nat then Panic else Ok (of_be (take n b), drop n b).

(** [buf.copy_to_slice(&mut [0u8; n])] and [buf.copy_to_bytes(n)] *)
Definition get_slice {E} (n : Z) : parser E bytes := λ b,
  if blen b <? n then Panic else Ok (take (Z.to_nat n) b, drop (Z.to_nat n) b).

(** [ensure_remaining(buf, needed)?] with the caller's error *)
Definition ensure {E} (short : Z → Z → E) (needed : Z) : parser E unit := λ b,
  if blen b <? needed then Err (short needed (blen b)) else Ok (tt, b).

(** The result of running a decoder on a whole payload. *)
Definition run {E A} (p : parser E A) (b : bytes) : result E A := fst <$> p b.

(** ** Integers and bytes *)
Lemma length_le_bytes n z : length (le_bytes n z) = n.
Proof. revert z. induction n; intros; simpl; auto. Qed.

Lemma length_be_bytes n z : length (be_bytes n z) = n.
Proof. unfold be_bytes. by rewrite length_rev, length_le_bytes. Qed.

Lemma le_bytes_wf n z : bytes_wf (le_bytes n z).
Proof.
  revert z. induction n; intros z; simpl; constructor; auto.
  apply Z.mod_pos_bound. lia.
Qed.

Lemma be_bytes_wf n z : bytes_wf (be_bytes n z).
Proof. apply Forall_rev, le_bytes_wf. Qed.
#[export] Hint Resolve le_bytes_wf be_bytes_wf : rust.

Lemma of_le_le_bytes n z : is_uint (8 * Z.of_nat n) z → of_le (le_bytes n z) = z.
Proof.
  revert z. induction n as [|n IH]; intros z; simpl.
  { unfold is_uint. simpl. lia. }
  intros [H0 H1]. rewrite IH.
  - pose proof (Z.div_mod z 256 ltac:(lia)). lia.
  - split; [apply Z.div_pos; lia|]. apply Z.div_lt_upper_bound; [lia|].
    replace (8 * Z.of_nat (S n)) with (8 + 8 * Z.of_nat n) in H1 by lia.
    rewrite Z.pow_add_r in H1 by lia. lia.
Qed.

Lemma le_bytes_of_le b : bytes_wf b → le_bytes (length b) (of_le b) = b.
Proof.
  induction 1 as [|x b Hx Hb IH]; simpl; [done|].
  assert (0 ≤ x < 256) by exact Hx.
  rewrite (Z.mul_comm 256), Z.mod_add, Z.div_add by lia.
  by rewrite Z.mod_small, Z.div_small, Z.add_0_l, IH by lia.
Qed.

Lemma of_le_range b : bytes_wf b → is_uint (8 * blen b) (of_le b).
Proof.
  induction 1 as [|x b Hx Hb IH]; [by compute|].
  assert (0 ≤ x < 256) by exact Hx. unfold blen in *. simpl length. simpl of_le.
  replace (8 * Z.of_nat (S (length b))) with (8 + 8 * Z.of_nat (length b)) by lia.
  destruct IH as [? ?]. split; [lia|]. rewrite Z.pow_add_r by lia. lia.
Qed.

Lemma of_be_be_bytes n z : is_uint (8 * Z.of_nat n) z → of_be (be_bytes n z) = z.
Proof. intros. unfold of_be, be_bytes. rewrite rev_involutive. by apply of_le_le_bytes. Qed.

Lemma be_bytes_of_be n b : length b = n → bytes_wf b → be_bytes n (of_be b) = b.
Proof.
  intros <- Hb. unfold of_be, be_bytes. rewrite <- length_rev.
  rewrite le_bytes_of_le by by apply Forall_rev. apply rev_involutive.
Qed.

Lemma of_be_range b : bytes_wf b → is_uint (8 * blen b) (of_be b).
Proof.
  intros Hb. unfold of_be, blen. rewrite <- length_rev.
  by apply of_le_range, Forall_rev.
Qed.

Lemma of_le_app a b : of_le (a ++ b) = of_le a + 2 ^ (8 * blen a) * of_le b.
Proof.
  induction a as [|x a IH]; simpl; [unfold blen; simpl; lia|]. rewrite IH. unfold blen. simpl length.
  replace (8 * Z.of_nat (S (length a))) with (8 + 8 * Z.of_nat (length a)) by lia.
  rewrite Z.pow_add_r by lia. change (2 ^ 8) with 256. lia.
Qed.

(** The first byte is the most significant one. *)
Lemma of_be_cons x b : of_be (x :: b) = x * 2 ^ (8 * blen b) + of_be b.
Proof.
  unfold of_be. simpl rev. rewrite of_le_app. simpl. unfold blen. rewrite length_rev. lia.
Qed.

(** Only the low bytes of an integer are written: [z as u32] before [to_be_bytes]
    is implicit in the number of bytes. *)
Lemma le_bytes_wrap n z : le_bytes n (wrap (8 * Z.of_nat n) z) = le_bytes n z.
Proof.
  unfold wrap. revert z. induction n as [|n IH]; intros z; [done|].
  simpl le_bytes.
  replace (8 * Z.of_nat (S n)) with (8 + 8 * Z.of_nat n) by lia.
  rewrite Z.pow_add_r by lia. change (2 ^ 8) with 256.
  rewrite Z.rem_mul_r by lia. f_equal.
  - rewrite Z.mul_comm, Z.mod_add by lia. apply Z.mod_mod. lia.
  - rewrite <- (IH (z / 256)). f_equal.
    rewrite Z.mul_comm, Z.div_add by lia.
    rewrite (Z.div_small (z mod 256)) by (apply Z.mod_pos_bound; lia). lia.
Qed.

Lemma blen_app {A} (a b : list A) : blen (a ++ b) = blen a + blen b.
Proof. unfold blen. rewrite length_app. lia. Qed.

Lemma blen_nonneg {A} (a : list A) : 0 ≤ blen a.
Proof. unfold blen. lia. Qed.

Lemma blen_zero {A} (a : list A) : blen a = 0 → a = [].
Proof. unfold blen. destruct a; [done|simpl; lia]. Qed.

Lemma blen_be_bytes n z : blen (be_bytes n z) = Z.of_nat n.
Proof. unfold blen. by rewrite length_be_bytes. Qed.

(** ** Laws of the cursor *)
Lemma get_uint_be {E} n z rest :
  is_uint (8 * Z.of_nat n) z →
  get_uint (E:=E) n (be_bytes n z ++ rest) = Ok (z, rest).
Proof.
  intros Hz. unfold get_uint.
  destruct (Nat.ltb_spec (length (be_bytes n z ++ rest)) n) as [Hlt|_].
  { rewrite length_app, length_be_bytes in Hlt. lia. }
  rewrite take_app_length', drop_app_length' by by rewrite length_be_bytes.
  by rewrite of_be_be_bytes.
Qed.

Lemma get_slice_app {E} n s rest :
  blen s = n → get_slice (E:=E) n (s ++ rest) = Ok (s, rest).
Proof.
  intros <-. unfold get_slice. rewrite blen_app.
  destruct (Z.ltb_spec (blen s + blen rest) (blen s)).
  { pose proof (blen_nonneg rest). lia. }
  unfold blen. rewrite Nat2Z.id. by rewrite take_app_length, drop_app_length.
Qed.

Lemma get_slice_all {E} s : get_slice (E:=E) (blen s) s = Ok (s, []).
Proof. rewrite <- (app_nil_r s) at 2. by apply get_slice_app. Qed.

Lemma ensure_ok {E} (short : Z → Z → E) n b :
  n ≤ blen b → ensure short n b = Ok (tt, b).
Proof. intros. unfold ensure. by destruct (Z.ltb_spec (blen b) n); [lia|]. Qed.

Lemma ensure_short {E} (short : Z → Z → E) n b :
  blen b < n → ensure short n b = Err (short n (blen b)).
Proof. intros. unfold ensure. by destruct (Z.ltb_spec (blen b) n); [|lia]. Qed.

(** [pbind] steps with a known first result. *)
Lemma pbind_ok {E A B} (p : parser E A) (f : A → parser E B) b a b' :
  p b = Ok (a, b') → pbind p f b = f a b'.
Proof. intros H. unfold pbind. by rewrite H. Qed.

Lemma pbind_err {E A B} (p : parser E A) (f : A → parser E B) b e :
  p b = Err e → pbind p f b = Err e.
Proof. intros H. unfold pbind. by rewrite H. Qed.

(** ** Panic freedom: [psafe k p] says that [p] does not panic on a buffer with
    at least [k] bytes left. *)
Definition psafe {E A} (k : Z) (p : parser E A) : Prop :=
  ∀ b, k ≤ blen b → p b ≠ Panic.

Section Psafe.
Context {E : Type}.

Lemma psafe_ret {A} k (a : A) : psafe k (pret (E:=E) a).
Proof. by intros b _. Qed.

Lemma psafe_plift {A} k (r : result E A) : r ≠ Panic → psafe k (plift r).
Proof. intros Hr b _. unfold plift. by destruct r. Qed.

Lemma psafe_plift_bind {A B} k (r : result E A) (f : A → parser E B) :
  r ≠ Panic → (∀ a, r = Ok a → psafe k (f a)) → psafe k (pbind (plift r) f).
Proof.
  intros Hr Hf b Hb. unfold pbind, plift. destruct r as [a|e|]; [|done..].
  by apply Hf.
Qed.

Lemma psafe_ensure_bind {B} k short n (f : unit → parser E B) :
  psafe (Z.max k n) (f tt) → psafe k (pbind (ensure short n) f).
Proof.
  intros Hf b Hb. unfold pbind, ensure.
  destruct (Z.ltb_spec (blen b) n); [done|]. apply Hf. lia.
Qed.

Lemma psafe_uint_bind {B} k n (f : Z → parser E B) :
  Z.of_nat n ≤ k → (∀ v, psafe (k - Z.of_nat n) (f v)) →
  psafe k (pbind (get_uint n) f).
Proof.
  intros Hn Hf b Hb. unfold pbind, get_uint. unfold blen in *.
  destruct (Nat.ltb_spec (length b) n); [lia|]. apply Hf.
  unfold blen. rewrite length_drop. lia.
Qed.

Lemma psafe_slice_bind {B} k n (f : bytes → parser E B) :
  n ≤ k → (∀ v, psafe (k - Z.max 0 n) (f v)) → psafe k (pbind (get_slice n) f).
Proof.
  intros Hn Hf b Hb. unfold pbind, get_slice.
  destruct (Z.ltb_spec (blen b) n); [lia|]. apply Hf.
  unfold blen in *. rewrite length_drop. lia.
Qed.

Lemma psafe_rest_bind {B} k (f : bytes → parser E B) :
  (∀ v, psafe 0 (f v)) →
  psafe k (pbind remaining (λ n, pbind (get_slice n) f)).
Proof.
  intros Hf b _. unfold pbind at 1, remaining. simpl.
  rewrite (pbind_ok _ _ _ _ _ (get_slice_all b)). by apply Hf.
Qed.
End Psafe.

(** Prove panic freedom of a decoder by walking through its reads. *)
Ltac psafe_tac :=
  repeat first
    [ apply psafe_ensure_bind
    | apply psafe_rest_bind; intros ?
    | apply psafe_uint_bind; [lia | intros ?]
    | apply psafe_slice_bind; [lia | intros ?]
    | apply psafe_plift_bind; [solve [auto with rust] | intros ? ?]
    | apply psafe_ret
    | apply psafe_plift; solve [auto with rust] ].

Lemma run_not_Panic {E A} (p : parser E A) b : psafe 0 p → run p b ≠ Panic.
Proof.
  intros Hp. unfold run. specialize (Hp b (blen_nonneg b)).
  by destruct (p b) as [[]| |].
Qed.

(** [b[i]] *)
Definition index {E} (i : Z) (b : bytes) : result E Z :=
  match b !! Z.to_nat i with
  | Some x => Ok x
  | None => Panic
  end.

Lemma slice_mid {E} i j a s c :
  i = blen a → j = blen a + blen s → slice (E:=E) i j (a ++ s ++ c) = Ok s.
Proof.
  intros -> ->. unfold slice. rewrite !blen_app.
  pose proof (blen_nonneg a). pose proof (blen_nonneg s). pose proof (blen_nonneg c).
  destruct (Z.leb_spec 0 (blen a)); [|lia].
  destruct (Z.leb_spec (blen a) (blen a + blen s)); [|lia].
  destruct (Z.leb_spec (blen a + blen s) (blen a + (blen s + blen c))); [|lia].
  simpl. replace (blen a + blen s - blen a) with (blen s) by lia.
  unfold blen. by rewrite !Nat2Z.id, drop_app_length, take_app_length.
Qed.

Lemma slice_prefix {E} j s c : j = blen s → slice (E:=E) 0 j (s ++ c) = Ok s.
Proof. intros ->. by apply (slice_mid 0 (blen s) [] s c). Qed.

Lemma slice_in {E} i j b :
  0 ≤ i ≤ j → j ≤ blen b →
  slice (E:=E) i j b = Ok (take (Z.to_nat (j - i)) (drop (Z.to_nat i) b)).
Proof.
  intros. unfold slice.
  destruct (Z.leb_spec 0 i); [|lia]. destruct (Z.leb_spec i j); [|lia].
  by destruct (Z.leb_spec j (blen b)); [|lia].
Qed.

Lemma slice_app_l {E} i j a b : j ≤ blen a → slice (E:=E) i j (a ++ b) = slice i j a.
Proof.
  intros Hj. unfold slice. rewrite blen_app. pose proof (blen_nonneg b).
  destruct (Z.leb_spec 0 i); [|done]. destruct (Z.leb_spec i j); [|done].
  destruct (Z.leb_spec j (blen a + blen b)); [|lia].
  destruct (Z.leb_spec j (blen a)); [|lia]. simpl. unfold blen in *.
  rewrite drop_app_le by lia. by rewrite take_app_le by (rewrite length_drop; lia).
Qed.

Lemma blen_take (n : Z) {A} (b : list A) : 0 ≤ n ≤ blen b → blen (take (Z.to_nat n) b) = n.
Proof. intros. unfold blen in *. rewrite length_take. lia. Qed.

(** Name the bytes of a fixed-width integer: [be_bytes n z] becomes an explicit
    list and [H : be_bytes n z = list] is kept for the way back. *)
Ltac cells t H :=
  let l := fresh "l" in let Hlen := fresh "Hlen" in
  remember t as l eqn:H;
  assert (Hlen := f_equal length H); rewrite length_be_bytes in Hlen;
  repeat (destruct l as [|? l]; [discriminate Hlen|]; simpl in Hlen;
          apply Nat.succ_inj in Hlen);
  destruct l; [|discriminate Hlen]; clear Hlen; symmetry in H.

(** Well-formedness of an explicit list of bytes. *)
Ltac wf_list := repeat (apply Forall_cons_2; [assumption|]); apply Forall_nil_2.
