(* ===== verification/WireTypes.v ===== *)
(** ceky-protocol/src/lib.rs, types.rs and error.rs: constants, message types,
    flags, frame headers and frames. *)
From S2P Require Import Prelude Bytes.

Local Open Scope Z_scope.

Definition MAGIC : Z := 0xCE4B.
Definition VERSION : Z := 1.
Definition HEADER_SIZE : Z := 21.
Definition MAX_PAYLOAD_SIZE : Z := 16 * 1024 * 1024.

(** [ProtocolError]; the [Io] variant is produced by the runtime only. *)
Inductive ProtocolError : Type :=
| InvalidMagic (got : Z)
| UnsupportedVersion (version : Z)
| UnknownMessageType (code : Z)
| PayloadTooLarge (size : Z)
| ChecksumMismatch (expected got : Z)
| Incomplete (needed : Z).

Module MessageType.
Inductive t : Set :=
| Handshake | Ping | Pong | Disconnect
| FindNode | FindNodeResp | Store | StoreResp | FindValue | FindValueResp
| Data | DataAck | CreditUpdate | FileOffer | FileAccept | FileReject
| FileChunk | FileChunkAck | FileComplete | FileCancel
| NatProbe | NatProbeResp | HolePunch | HolePunchResp | RelayRequest | RelayData.

#[global] Instance t_eq_dec : EqDecision t.
Proof. solve_decision. Defined.

Definition from_byte (b : Z) : option t :=
  match b with
  | 0x01 => Some Handshake
  | 0x02 => Some Ping
  | 0x03 => Some Pong
  | 0x04 => Some Disconnect
  | 0x10 => Some FindNode
  | 0x11 => Some FindNodeResp
  | 0x12 => Some Store
  | 0x13 => Some StoreResp
  | 0x14 => Some FindValue
  | 0x15 => Some FindValueResp
  | 0x20 => Some Data
  | 0x21 => Some DataAck
  | 0x22 => Some CreditUpdate
  | 0x23 => Some FileOffer
  | 0x24 => Some FileAccept
  | 0x25 => Some FileReject
  | 0x26 => Some FileChunk
  | 0x27 => Some FileChunkAck
  | 0x28 => Some FileComplete
  | 0x29 => Some FileCancel
  | 0x30 => Some NatProbe
  | 0x31 => Some NatProbeResp
  | 0x32 => Some HolePunch
  | 0x33 => Some HolePunchResp
  | 0x34 => Some RelayRequest
  | 0x35 => Some RelayData
  | _ => None
  end.

(** [self as u8]: the discriminants of the enum. *)
Definition as_byte (m : t) : Z :=
  match m with
  | Handshake => 0x01 | Ping => 0x02 | Pong => 0x03 | Disconnect => 0x04
  | FindNode => 0x10 | FindNodeResp => 0x11 | Store => 0x12 | StoreResp => 0x13
  | FindValue => 0x14 | FindValueResp => 0x15
  | Data => 0x20 | DataAck => 0x21 | CreditUpdate => 0x22 | FileOffer => 0x23
  | FileAccept => 0x24 | FileReject => 0x25 | FileChunk => 0x26
  | FileChunkAck => 0x27 | FileComplete => 0x28 | FileCancel => 0x29
  | NatProbe => 0x30 | NatProbeResp => 0x31 | HolePunch => 0x32
  | HolePunchResp => 0x33 | RelayRequest => 0x34 | RelayData => 0x35
  end.

Lemma from_byte_as_byte m : from_byte (as_byte m) = Some m.
Proof. by destruct m. Qed.

Lemma as_byte_u8 m : is_u8 (as_byte m).
Proof. destruct m; split; simpl; lia. Qed.

(** A decoded type re-encodes to the byte it came from: no aliasing. *)
Lemma as_byte_from_byte b m : from_byte b = Some m → as_byte m = b.
Proof.
  unfold from_byte. intros H.
  repeat (case_match; simplify_eq; try done).
Qed.
End MessageType.
#[export] Hint Resolve MessageType.as_byte_u8 : rust.

(** [Flags(u8)] *)
Module Flags.
Definition t : Set := Z.
#[global] Instance t_eq_dec : EqDecision t := Z.eq_dec.
Definition ENCRYPTED : Z := 1.
Definition COMPRESSED : Z := 2.
Definition FRAGMENTED : Z := 4.
Definition PRIORITY : Z := 8.
Definition new (bits : Z) : t := bits.
Definition empty : t := 0.
Definition bits (f : t) : Z := f.
Definition is_encrypted (f : t) : bool := negb (Z.land f ENCRYPTED =? 0).
Definition is_compressed (f : t) : bool := negb (Z.land f COMPRESSED =? 0).
Definition is_fragmented (f : t) : bool := negb (Z.land f FRAGMENTED =? 0).
Definition is_priority (f : t) : bool := negb (Z.land f PRIORITY =? 0).
Definition with_encrypted (f : t) : t := Z.lor f ENCRYPTED.
Definition with_compressed (f : t) : t := Z.lor f COMPRESSED.
Definition with_fragmented (f : t) : t := Z.lor f FRAGMENTED.
Definition with_priority (f : t) : t := Z.lor f PRIORITY.

(** A one-bit mask tests exactly its bit. *)
Lemma land_bit f k : 0 ≤ k → negb (Z.land f (2 ^ k) =? 0) = Z.testbit f k.
Proof.
  intros Hk. destruct (Z.eqb_spec (Z.land f (2 ^ k)) 0) as [H|H]; simpl.
  - apply (f_equal (λ z, Z.testbit z k)) in H.
    rewrite Z.land_spec, Z.pow2_bits_true, Z.bits_0, andb_true_r in H by done. done.
  - destruct (Z.testbit f k) eqn:Hb; [done|]. exfalso. apply H.
    apply Z.bits_inj'. intros i Hi. rewrite Z.land_spec, Z.bits_0.
    rewrite Z.pow2_bits_eqb by done.
    destruct (Z.eqb_spec k i); subst; by rewrite ?Hb, ?andb_false_r.
Qed.

(** Setting one bit sets that bit and no other. *)
Lemma testbit_lor_bit f k j :
  0 ≤ k → Z.testbit (Z.lor f (2 ^ k)) j = Z.testbit f j || (k =? j).
Proof. intros. by rewrite Z.lor_spec, Z.pow2_bits_eqb. Qed.

(** Every query after every setter: each [with_*] turns on its own flag and
    leaves the other three as they were. *)
Lemma flag_setters f :
  (is_encrypted (with_encrypted f) = true ∧ is_compressed (with_encrypted f) = is_compressed f
   ∧ is_fragmented (with_encrypted f) = is_fragmented f
   ∧ is_priority (with_encrypted f) = is_priority f)
  ∧ (is_compressed (with_compressed f) = true ∧ is_encrypted (with_compressed f) = is_encrypted f
   ∧ is_fragmented (with_compressed f) = is_fragmented f
   ∧ is_priority (with_compressed f) = is_priority f)
  ∧ (is_fragmented (with_fragmented f) = true ∧ is_encrypted (with_fragmented f) = is_encrypted f
   ∧ is_compressed (with_fragmented f) = is_compressed f
   ∧ is_priority (with_fragmented f) = is_priority f)
  ∧ (is_priority (with_priority f) = true ∧ is_encrypted (with_priority f) = is_encrypted f
   ∧ is_compressed (with_priority f) = is_compressed f
   ∧ is_fragmented (with_priority f) = is_fragmented f).
Proof.
  unfold is_encrypted, is_compressed, is_fragmented, is_priority,
    with_encrypted, with_compressed, with_fragmented, with_priority.
  change ENCRYPTED with (2 ^ 0). change COMPRESSED with (2 ^ 1).
  change FRAGMENTED with (2 ^ 2). change PRIORITY with (2 ^ 3).
  rewrite !land_bit, !testbit_lor_bit by lia. simpl.
  by rewrite ?orb_true_r, ?orb_false_r.
Qed.
End Flags.

Module FrameHeader.
Record t : Set := mk {
  magic : Z;
  version : Z;
  msg_type : MessageType.t;
  flags : Flags.t;
  payload_len : Z;
  request_id : Z;
  checksum : Z
}.
Definition with_checksum (h : t) (c : Z) : t :=
  mk h.(magic) h.(version) h.(msg_type) h.(flags) h.(payload_len) h.(request_id) c.

#[global] Instance t_eq_dec : EqDecision t.
Proof. solve_decision. Defined.
End FrameHeader.

Module Frame.
Record t : Set := mk { header : FrameHeader.t; payload : bytes }.

#[global] Instance t_eq_dec : EqDecision t.
Proof. solve_decision. Defined.

(** [Frame::new]: the length is stored as [payload.len() as u32]. *)
Definition new (msg_type : MessageType.t) (flags : Flags.t) (request_id : Z)
    (payload : bytes) : t :=
  mk (FrameHeader.mk MAGIC VERSION msg_type flags (wrap 32 (blen payload)) request_id 0)
     payload.

Definition simple (msg_type : MessageType.t) (request_id : Z) : t :=
  new msg_type Flags.empty request_id [].

Definition wire_size (f : t) : Z := HEADER_SIZE + blen f.(payload).
End Frame.
