(* ===== verification/FrameCodec.v ===== *)
(** ceky-protocol/src/codec.rs: the streaming frame codec.

    [decode] is the body of [Decoder::decode]: the loop over the decode state,
    with the receive buffer passed in and returned.  The checksum functions come
    from the crate crc32c and are parameters (class [Crc32c]); the only fact used
    about them is that a checksum is a [u32]. *)
From S2P Require Import Prelude Bytes WireTypes.

Local Open Scope Z_scope.

Class Crc32c : Type := {
  crc32c : bytes → Z;
  crc32c_append : Z → bytes → Z
}.
Class Crc32cOk `{!Crc32c} : Prop :=
  crc32c_append_u32 : ∀ c b, is_u32 (crc32c_append c b).

Module FrameCodec.
Section Codec.
Context `{CRC : !Crc32c}.

Inductive DecodeState : Set :=
| Header
| Payload (h : FrameHeader.t).

(** The 17 header bytes covered by the checksum. *)
Definition checksum_input (h : FrameHeader.t) : bytes :=
  be_bytes 2 h.(FrameHeader.magic) ++
  [h.(FrameHeader.version)] ++
  [MessageType.as_byte h.(FrameHeader.msg_type)] ++
  [Flags.bits h.(FrameHeader.flags)] ++
  be_bytes 4 h.(FrameHeader.payload_len) ++
  be_bytes 8 h.(FrameHeader.request_id).

Definition compute_checksum (h : FrameHeader.t) (payload : bytes) : Z :=
  let header_crc := crc32c (checksum_input h) in
  crc32c_append header_crc payload.

Definition decode_header (src : bytes) : result ProtocolError FrameHeader.t :=
  magic ← of_be <$> slice 0 2 src;
  _ ← guard_err (negb (magic =? MAGIC)) (InvalidMagic magic);
  version ← index 2 src;
  _ ← guard_err (negb (version =? VERSION)) (UnsupportedVersion version);
  code ← index 3 src;
  msg_type ← ok_or (MessageType.from_byte code) (UnknownMessageType code);
  flags ← Flags.new <$> index 4 src;
  payload_len ← of_be <$> slice 5 9 src;
  _ ← guard_err (MAX_PAYLOAD_SIZE <? payload_len) (PayloadTooLarge payload_len);
  request_id ← of_be <$> slice 9 17 src;
  checksum ← of_be <$> slice 17 21 src;
  Ok (FrameHeader.mk magic version msg_type flags payload_len request_id checksum).

(** One turn of the loop: go round again in a new state, or return (the state
    and the buffer after the call, and the value returned). *)
Inductive turn : Type :=
| Continue (st : DecodeState)
| Return (st : DecodeState) (src : bytes)
         (r : result ProtocolError (option Frame.t)).

Definition decode_turn (st : DecodeState) (src : bytes) : turn :=
  match st with
  | Header =>
      if blen src <? HEADER_SIZE then Return Header src (Ok None) else
      match slice 0 HEADER_SIZE src ≫= decode_header with
      | Err e => Return Header src (Err e)
      | Panic => Return Header src Panic
      | Ok header =>
          if FrameHeader.payload_len header =? 0 then
            let computed := compute_checksum header [] in
            if negb (computed =? FrameHeader.checksum header) then
              Return Header src
                (Err (ChecksumMismatch (FrameHeader.checksum header) computed))
            else
              Return Header (drop (Z.to_nat HEADER_SIZE) src)
                (Ok (Some (Frame.mk header [])))
          else Continue (Payload header)
      end
  | Payload header =>
      let total := HEADER_SIZE + FrameHeader.payload_len header in
      if blen src <? total then Return st src (Ok None) else
      match slice HEADER_SIZE total src with
      | Err e => Return st src (Err e)
      | Panic => Return st src Panic
      | Ok body =>
          let computed := compute_checksum header body in
          if negb (computed =? FrameHeader.checksum header) then
            Return st src
              (Err (ChecksumMismatch (FrameHeader.checksum header) computed))
          else
            let frame_buf := take (Z.to_nat total) src in
            let payload := drop (Z.to_nat HEADER_SIZE) frame_buf in
            Return Header (drop (Z.to_nat total) src)
              (Ok (Some (Frame.mk header payload)))
      end
  end.

Fixpoint decode_loop (fuel : nat) (st : DecodeState) (src : bytes)
  : option (DecodeState * bytes * result ProtocolError (option Frame.t)) :=
  match fuel with
  | O => None
  | S fuel =>
      match decode_turn st src with
      | Continue st' => decode_loop fuel st' src
      | Return st' src' r => Some (st', src', r)
      end
  end.

(** Two turns are always enough (lemma [decode_loop_total]). *)
Definition decode (st : DecodeState) (src : bytes)
  : DecodeState * bytes * result ProtocolError (option Frame.t) :=
  match decode_loop 2 st src with
  | Some r => r
  | None => (st, src, Panic)
  end.

(** [Encoder::encode]: the destination buffer after a successful call. *)
Definition encode (frame : Frame.t) (dst : bytes) : result ProtocolError bytes :=
  let payload_len := wrap 32 (blen frame.(Frame.payload)) in
  _ ← guard_err (MAX_PAYLOAD_SIZE <? payload_len) (PayloadTooLarge payload_len);
  let header_for_crc := FrameHeader.with_checksum frame.(Frame.header) 0 in
  let checksum := compute_checksum header_for_crc frame.(Frame.payload) in
  Ok (dst ++
      be_bytes 2 MAGIC ++
      [VERSION] ++
      [MessageType.as_byte frame.(Frame.header).(FrameHeader.msg_type)] ++
      [Flags.bits frame.(Frame.header).(FrameHeader.flags)] ++
      be_bytes 4 payload_len ++
      be_bytes 8 frame.(Frame.header).(FrameHeader.request_id) ++
      be_bytes 4 checksum ++
      frame.(Frame.payload)).

(** ** Specification side *)

(** The frame on the wire. *)
Definition wire (f : Frame.t) : bytes :=
  match encode f [] with Ok w => w | _ => [] end.

(** The frame the receiver sees: the sender's with the checksum filled in. *)
Definition sealed (f : Frame.t) : Frame.t :=
  Frame.mk
    (FrameHeader.with_checksum f.(Frame.header)
       (compute_checksum f.(Frame.header) f.(Frame.payload)))
    f.(Frame.payload).

(** Frames as [Frame::new] builds them, within the protocol's size limit. *)
Record frame_wf (f : Frame.t) : Prop := {
  fw_magic : f.(Frame.header).(FrameHeader.magic) = MAGIC;
  fw_version : f.(Frame.header).(FrameHeader.version) = VERSION;
  fw_flags : is_u8 f.(Frame.header).(FrameHeader.flags);
  fw_len : f.(Frame.header).(FrameHeader.payload_len) = blen f.(Frame.payload);
  fw_max : blen f.(Frame.payload) ≤ MAX_PAYLOAD_SIZE;
  fw_req : is_u64 f.(Frame.header).(FrameHeader.request_id);
  fw_payload : bytes_wf f.(Frame.payload)
}.

(** The driver of the codec (tokio's [FramedRead]): append what was read to the
    buffer and call [decode] until it asks for more or fails. *)
Fixpoint drain (fuel : nat) (st : DecodeState) (buf : bytes)
  : list Frame.t * DecodeState * bytes * option ProtocolError :=
  match fuel with
  | O => ([], st, buf, None)
  | S fuel =>
      match decode st buf with
      | (st', buf', Ok (Some f)) =>
          let '(fs, st2, buf2, e) := drain fuel st' buf' in (f :: fs, st2, buf2, e)
      | (st', buf', Ok None) => ([], st', buf', None)
      | (st', buf', Err e) => ([], st', buf', Some e)
      | (st', buf', Panic) => ([], st', buf', None)
      end
  end.

Fixpoint feed (st : DecodeState) (buf : bytes) (reads : list bytes)
  : list Frame.t * DecodeState * bytes * option ProtocolError :=
  match reads with
  | [] => ([], st, buf, None)
  | r :: reads =>
      let b := buf ++ r in
      match drain (S (length b)) st b with
      | (fs, st', buf', None) =>
          let '(fs2, st2, buf2, e) := feed st' buf' reads in (fs ++ fs2, st2, buf2, e)
      | (fs, st', buf', Some e) => (fs, st', buf', Some e)
      end
  end.

(** ** Lemmas *)
(** The header as it is laid out on the wire. *)
Definition header_bytes (h : FrameHeader.t) : bytes :=
  checksum_input h ++ be_bytes 4 h.(FrameHeader.checksum).

Record header_wf (h : FrameHeader.t) : Prop := {
  hw_magic : h.(FrameHeader.magic) = MAGIC;
  hw_version : h.(FrameHeader.version) = VERSION;
  hw_flags : is_u8 h.(FrameHeader.flags);
  hw_len : 0 ≤ h.(FrameHeader.payload_len) ≤ MAX_PAYLOAD_SIZE;
  hw_req : is_u64 h.(FrameHeader.request_id);
  hw_sum : is_u32 h.(FrameHeader.checksum)
}.

Lemma blen_header_bytes h : blen (header_bytes h) = HEADER_SIZE.
Proof.
  unfold header_bytes, checksum_input, blen.
  by rewrite !length_app, !length_be_bytes.
Qed.

(** [decode_header] on exactly 21 bytes, as the sequence of its checks. *)
Lemma decode_header_cells b0 b1 b2 b3 b4 b5 b6 b7 b8 b9 b10 b11 b12 b13 b14 b15 b16
    b17 b18 b19 b20 :
  decode_header [b0; b1; b2; b3; b4; b5; b6; b7; b8; b9; b10; b11; b12; b13; b14; b15; b16;
    b17; b18; b19; b20] =
  if negb (of_be [b0; b1] =? MAGIC) then Err (InvalidMagic (of_be [b0; b1])) else
  if negb (b2 =? VERSION) then Err (UnsupportedVersion b2) else
  match MessageType.from_byte b3 with
  | None => Err (UnknownMessageType b3)
  | Some ty =>
      if MAX_PAYLOAD_SIZE <? of_be [b5; b6; b7; b8]
      then Err (PayloadTooLarge (of_be [b5; b6; b7; b8]))
      else Ok (FrameHeader.mk (of_be [b0; b1]) b2 ty b4 (of_be [b5; b6; b7; b8])
                 (of_be [b9; b10; b11; b12; b13; b14; b15; b16])
                 (of_be [b17; b18; b19; b20]))
  end.
Proof.
  cbv -[of_be Z.eqb Z.ltb MessageType.from_byte MAGIC VERSION MAX_PAYLOAD_SIZE].
  repeat case_match; congruence.
Qed.

Lemma decode_header_bytes h : header_wf h → decode_header (header_bytes h) = Ok h.
Proof.
  intros [Hm Hv Hf Hl Hr Hs]. destruct h as [m v ty fl len req sum]; simpl in *. subst.
  unfold header_bytes, checksum_input. simpl FrameHeader.magic. simpl FrameHeader.payload_len.
  simpl FrameHeader.request_id. simpl FrameHeader.checksum.
  assert (is_u32 len) by (unfold MAX_PAYLOAD_SIZE in Hl; split; lia).
  cells (be_bytes 2 MAGIC) E0.
  cells (be_bytes 4 len) E1. cells (be_bytes 8 req) E2. cells (be_bytes 4 sum) E3.
  simpl app. rewrite decode_header_cells, MessageType.from_byte_as_byte.
  rewrite <- E0, <- E1, <- E2, <- E3, !of_be_be_bytes by done. simpl.
  by destruct (Z.ltb_spec MAX_PAYLOAD_SIZE len); [lia|].
Qed.

(** Every byte string of header length, as cells. *)
Lemma header_cells (src : bytes) : blen src = HEADER_SIZE →
  ∃ b0 b1 b2 b3 b4 b5 b6 b7 b8 b9 b10 b11 b12 b13 b14 b15 b16 b17 b18 b19 b20,
  src = [b0; b1; b2; b3; b4; b5; b6; b7; b8; b9; b10; b11; b12; b13; b14; b15; b16;
         b17; b18; b19; b20].
Proof.
  intros Hlen. unfold blen, HEADER_SIZE in Hlen.
  do 21 (destruct src as [|? src]; [simpl in Hlen; lia|]).
  destruct src; [by eauto 30|simpl in Hlen; lia].
Qed.

Lemma decode_header_not_Panic src : blen src = HEADER_SIZE → decode_header src ≠ Panic.
Proof.
  intros (?&?&?&?&?&?&?&?&?&?&?&?&?&?&?&?&?&?&?&?&?&->)%header_cells.
  rewrite decode_header_cells. by repeat case_match.
Qed.

Lemma decode_header_inv src h :
  bytes_wf src → blen src = HEADER_SIZE → decode_header src = Ok h →
  header_wf h ∧ src = header_bytes h.
Proof.
  intros Hwf (b0&b1&b2&b3&b4&b5&b6&b7&b8&b9&b10&b11&b12&b13&b14&b15&b16&b17&b18&b19&b20&->)%header_cells H.
  rewrite decode_header_cells in H.
  destruct (Z.eqb_spec (of_be [b0; b1]) MAGIC) as [Hm|]; [|done].
  destruct (Z.eqb_spec b2 VERSION) as [Hv|]; [|done]. simpl in H.
  destruct (MessageType.from_byte b3) as [ty|] eqn:Hty; [|done].
  destruct (Z.ltb_spec MAX_PAYLOAD_SIZE (of_be [b5; b6; b7; b8])) as [|Hmax]; [done|].
  injection H as <-. rewrite !Forall_cons in Hwf. destruct_and?.
  assert (is_u32 (of_be [b5; b6; b7; b8])) as [Hl _] by
    (apply (of_be_range [b5; b6; b7; b8]); wf_list).
  split.
  - constructor; simpl; try done.
    + apply (of_be_range [b9; b10; b11; b12; b13; b14; b15; b16]); wf_list.
    + apply (of_be_range [b17; b18; b19; b20]); wf_list.
  - unfold header_bytes, checksum_input. simpl FrameHeader.magic.
    simpl FrameHeader.payload_len. simpl FrameHeader.request_id. simpl FrameHeader.checksum.
    rewrite !be_bytes_of_be by first [done | wf_list].
    simpl. by rewrite (MessageType.as_byte_from_byte _ _ Hty), Hv.
Qed.

(** *** The turns of the loop *)
Lemma decode_turn_short src :
  blen src < HEADER_SIZE → decode_turn Header src = Return Header src (Ok None).
Proof. intros. simpl. by destruct (Z.ltb_spec (blen src) HEADER_SIZE); [|lia]. Qed.

Lemma decode_turn_header h rest :
  header_wf h →
  decode_turn Header (header_bytes h ++ rest) =
  if FrameHeader.payload_len h =? 0 then
    if compute_checksum h [] =? FrameHeader.checksum h
    then Return Header rest (Ok (Some (Frame.mk h [])))
    else Return Header (header_bytes h ++ rest)
           (Err (ChecksumMismatch (FrameHeader.checksum h) (compute_checksum h [])))
  else Continue (Payload h).
Proof.
  intros Hh. unfold decode_turn.
  rewrite blen_app, blen_header_bytes.
  pose proof (blen_nonneg rest). destruct (Z.ltb_spec (HEADER_SIZE + blen rest) HEADER_SIZE); [lia|].
  rewrite slice_prefix by by rewrite blen_header_bytes. simpl.
  rewrite decode_header_bytes by done.
  destruct (FrameHeader.payload_len h =? 0); [|done].
  destruct (compute_checksum h [] =? FrameHeader.checksum h); [|done]. cbn [negb].
  by rewrite drop_0.
Qed.

Lemma decode_turn_payload h p rest :
  FrameHeader.payload_len h = blen p →
  decode_turn (Payload h) (header_bytes h ++ p ++ rest) =
  if compute_checksum h p =? FrameHeader.checksum h
  then Return Header rest (Ok (Some (Frame.mk h p)))
  else Return (Payload h) (header_bytes h ++ p ++ rest)
         (Err (ChecksumMismatch (FrameHeader.checksum h) (compute_checksum h p))).
Proof.
  intros Hlen. unfold decode_turn. rewrite Hlen, !blen_app, blen_header_bytes.
  pose proof (blen_nonneg rest).
  destruct (Z.ltb_spec (HEADER_SIZE + (blen p + blen rest)) (HEADER_SIZE + blen p)); [lia|].
  rewrite slice_mid by by rewrite blen_header_bytes.
  destruct (compute_checksum h p =? FrameHeader.checksum h); [|done]. cbn [negb].
  pose proof (blen_header_bytes h) as Hl. unfold blen, HEADER_SIZE in *.
  rewrite app_assoc. f_equal; [|repeat f_equal].
  - rewrite drop_app_length'; [done|]. rewrite length_app. lia.
  - rewrite take_app_length'; [|rewrite length_app; lia].
    rewrite drop_app_length'; [done|]. lia.
Qed.

Lemma decode_turn_payload_short h src :
  blen src < HEADER_SIZE + FrameHeader.payload_len h →
  decode_turn (Payload h) src = Return (Payload h) src (Ok None).
Proof.
  intros. simpl.
  by destruct (Z.ltb_spec (blen src) (HEADER_SIZE + FrameHeader.payload_len h)); [|lia].
Qed.

(** The loop runs at most twice. *)
Lemma decode_turn_payload_returns h src : ∃ st' src' r,
  decode_turn (Payload h) src = Return st' src' r.
Proof. simpl. repeat case_match; eauto. Qed.

Lemma decode_turn_Continue st src st' :
  decode_turn st src = Continue st' → st = Header ∧ ∃ h, st' = Payload h.
Proof. destruct st; simpl; repeat case_match; naive_solver. Qed.

Lemma decode_loop_total st src : ∃ r, decode_loop 2 st src = Some r.
Proof.
  cbn [decode_loop]. destruct (decode_turn st src) as [st'|] eqn:Hst; [|by eauto].
  apply decode_turn_Continue in Hst as (_ & h & ->).
  destruct (decode_turn_payload_returns h src) as (? & ? & ? & ->). eauto.
Qed.

Lemma decode_Return st src st' src' r :
  decode_turn st src = Return st' src' r → decode st src = (st', src', r).
Proof. intros H. unfold decode. simpl. by rewrite H. Qed.

Lemma decode_Continue st src h st' src' r :
  decode_turn st src = Continue (Payload h) →
  decode_turn (Payload h) src = Return st' src' r →
  decode st src = (st', src', r).
Proof. intros H1 H2. unfold decode. cbn [decode_loop]. by rewrite H1, H2. Qed.

(** *** Encoding *)
Context {CRCOK : Crc32cOk}.

Lemma frame_wf_sealed_header f : frame_wf f → header_wf (sealed f).(Frame.header).
Proof.
  intros [Hm Hv Hf Hl Hmax Hr Hp]. constructor; simpl; try done.
  - rewrite Hl. pose proof (blen_nonneg (Frame.payload f)). lia.
  - apply crc32c_append_u32.
Qed.

Lemma frame_wf_len f : frame_wf f → wrap 32 (blen f.(Frame.payload)) = blen f.(Frame.payload).
Proof.
  intros Hf. apply wrap_small. pose proof (fw_max _ Hf) as Hm.
  unfold MAX_PAYLOAD_SIZE in Hm. split; [apply blen_nonneg|lia].
Qed.

Lemma encode_wire f dst :
  frame_wf f →
  encode f dst = Ok (dst ++ header_bytes (sealed f).(Frame.header) ++ f.(Frame.payload)).
Proof.
  intros Hf. unfold encode. rewrite frame_wf_len by done.
  pose proof (fw_max _ Hf).
  destruct (Z.ltb_spec MAX_PAYLOAD_SIZE (blen (Frame.payload f))); [lia|]. cbn [guard_err].
  destruct Hf as [Hm Hv _ Hl _ _ _]. unfold mbind, result_bind. f_equal. f_equal.
  unfold header_bytes, checksum_input, sealed. simpl Frame.header.
  cbn [FrameHeader.with_checksum FrameHeader.magic FrameHeader.version FrameHeader.msg_type
       FrameHeader.flags FrameHeader.payload_len FrameHeader.request_id FrameHeader.checksum].
  rewrite Hm, Hv, Hl, <- !app_assoc. done.
Qed.

Lemma wire_eq f :
  frame_wf f → wire f = header_bytes (sealed f).(Frame.header) ++ f.(Frame.payload).
Proof. intros Hf. unfold wire. by rewrite encode_wire. Qed.

Lemma blen_wire f : frame_wf f → blen (wire f) = Frame.wire_size f.
Proof. intros Hf. by rewrite wire_eq, blen_app, blen_header_bytes. Qed.

(** *** Streams *)

(** The decoder is at the start of frame [f], or has already parsed its header. *)
Definition at_frame (st : DecodeState) (f : Frame.t) : Prop :=
  st = Header ∨ (st = Payload (sealed f).(Frame.header) ∧ f.(Frame.payload) ≠ []).

Lemma payload_len_0 f : frame_wf f →
  (FrameHeader.payload_len (sealed f).(Frame.header) =? 0) = true ↔ f.(Frame.payload) = [].
Proof.
  intros Hf. simpl. rewrite (fw_len _ Hf), Z.eqb_eq. unfold blen.
  destruct (Frame.payload f); simpl; [done|]. split; [lia|done].
Qed.

Lemma decode_complete st f rest :
  frame_wf f → at_frame st f →
  decode st (wire f ++ rest) = (Header, rest, Ok (Some (sealed f))).
Proof.
  intros Hf Hst. rewrite wire_eq, <- app_assoc by done.
  pose proof (frame_wf_sealed_header _ Hf) as Hh.
  assert (decode_turn (Payload (sealed f).(Frame.header))
    (header_bytes (Frame.header (sealed f)) ++ Frame.payload f ++ rest) =
    Return Header rest (Ok (Some (sealed f)))) as Hpay.
  { rewrite decode_turn_payload by apply (fw_len _ Hf).
    unfold sealed at 1 2. simpl. unfold compute_checksum, checksum_input. simpl.
    by rewrite Z.eqb_refl. }
  destruct Hst as [->|[-> _]]; [|by apply decode_Return].
  destruct (FrameHeader.payload_len (sealed f).(Frame.header) =? 0) eqn:H0.
  - apply decode_Return. rewrite decode_turn_header, H0 by done.
    apply payload_len_0 in H0; [|done].
    unfold sealed, compute_checksum, checksum_input. simpl. rewrite H0. simpl.
    by rewrite Z.eqb_refl.
  - eapply decode_Continue; [|exact Hpay]. by rewrite decode_turn_header, H0.
Qed.

Lemma decode_partial st f p q :
  frame_wf f → at_frame st f → p ++ q = wire f → q ≠ [] →
  ∃ st', decode st p = (st', p, Ok None) ∧ at_frame st' f.
Proof.
  intros Hf Hst Hpq Hq.
  assert (blen p < Frame.wire_size f) as Hlt.
  { rewrite <- blen_wire, <- Hpq, blen_app by done. unfold blen. destruct q; [done|]. simpl. lia. }
  unfold Frame.wire_size in Hlt.
  assert (FrameHeader.payload_len (sealed f).(Frame.header) = blen (Frame.payload f)) as Hl
    by apply (fw_len _ Hf).
  destruct Hst as [->|[-> Hne]]; [|].
  - destruct (Z.lt_ge_cases (blen p) HEADER_SIZE) as [Hs|Hs].
    { exists Header. split; [|by left]. by apply decode_Return, decode_turn_short. }
    rewrite wire_eq in Hpq by done.
    apply app_eq_longer in Hpq as (k & Hp & Hk).
    2: { pose proof (blen_header_bytes (sealed f).(Frame.header)). unfold blen in *. lia. }
    assert (Frame.payload f ≠ []) as Hne.
    { intros E. rewrite E in Hk. symmetry in Hk. apply app_nil in Hk as [_ ->]. done. }
    exists (Payload (sealed f).(Frame.header)). split; [|by right].
    eapply decode_Continue.
    + rewrite Hp, decode_turn_header by by apply frame_wf_sealed_header.
      destruct (FrameHeader.payload_len _ =? 0) eqn:E; [|done].
      by apply payload_len_0 in E.
    + apply decode_turn_payload_short. by rewrite Hl.
  - exists (Payload (sealed f).(Frame.header)). split; [|by right].
    apply decode_Return, decode_turn_payload_short. by rewrite Hl.
Qed.

(** The state of the decoder between reads, for the frames still to come. *)
Definition waiting (st : DecodeState) (fs : list Frame.t) : Prop :=
  match fs with
  | [] => st = Header
  | f :: _ => at_frame st f
  end.

(** The buffer holds less than the next frame. *)
Definition short (buf : bytes) (fs : list Frame.t) : Prop :=
  match fs with
  | [] => True
  | f :: _ => (length buf < length (wire f))%nat
  end.

Lemma wire_nonempty f : frame_wf f → wire f ≠ [].
Proof.
  intros Hf E. pose proof (blen_wire _ Hf) as H. rewrite E in H.
  unfold Frame.wire_size, HEADER_SIZE in H. pose proof (blen_nonneg (Frame.payload f)).
  unfold blen in *. simpl in H. lia.
Qed.

Lemma length_wire f : frame_wf f → (1 ≤ length (wire f))%nat.
Proof. intros Hf. pose proof (wire_nonempty f Hf). destruct (wire f); [done|]. simpl. lia. Qed.

(** One read: every complete frame in the buffer comes out, and what is left is
    the beginning of the next one. *)
Lemma drain_spec fs : ∀ fuel st buf future,
  Forall frame_wf fs → waiting st fs → (length buf < fuel)%nat →
  buf ++ future = concat (wire <$> fs) →
  ∃ done todo st' buf',
    fs = done ++ todo ∧
    drain fuel st buf = (sealed <$> done, st', buf', None) ∧
    waiting st' todo ∧ short buf' todo ∧ buf' ++ future = concat (wire <$> todo).
Proof.
  induction fs as [|f fs IH]; intros fuel st buf future Hwf Hst Hfuel Heq.
  - apply app_nil in Heq as [-> ->]. simpl in Hst. subst st.
    destruct fuel as [|fuel]; [simpl in Hfuel; lia|].
    exists [], [], Header, []. by split_and!.
  - apply Forall_cons in Hwf as [Hf Hwf]. destruct fuel as [|fuel]; [lia|].
    rewrite fmap_cons in Heq. simpl in Heq.
    destruct (decide (length (wire f) ≤ length buf)%nat) as [Hle|Hgt].
    + apply app_eq_longer in Heq as (k & -> & Hk); [|done].
      rewrite length_app in Hfuel. pose proof (length_wire f Hf).
      destruct (IH fuel Header k future Hwf) as (dn & todo & st' & buf' & -> & Hd & Hw & Hs & Hb).
      { by destruct fs; [|left]. } { lia. } { done. }
      exists (f :: dn), todo, st', buf'. split_and!; try done.
      simpl. rewrite decode_complete, Hd by done. done.
    + pose proof Heq as Hcut. symmetry in Hcut.
      apply app_eq_longer in Hcut as (k & Hk & _); [|lia].
      destruct (decode_partial st f buf k) as (st' & Hd & Hst'); [done..| |].
      { intros ->. rewrite app_nil_r in Hk. subst. lia. }
      exists [], (f :: fs), st', buf. split_and!; try done; simpl; [by rewrite Hd|lia].
Qed.

Lemma feed_spec reads : ∀ fs st buf,
  Forall frame_wf fs → waiting st fs → short buf fs →
  buf ++ concat reads = concat (wire <$> fs) →
  feed st buf reads = (sealed <$> fs, Header, [], None).
Proof.
  induction reads as [|r reads IH]; intros fs st buf Hwf Hst Hs Heq.
  - simpl in Heq. rewrite app_nil_r in Heq. destruct fs as [|f fs]; simpl in *; [by subst|].
    rewrite Heq, length_app in Hs. lia.
  - simpl in Heq. rewrite app_assoc in Heq.
    destruct (drain_spec fs (S (length (buf ++ r))) st (buf ++ r) (concat reads))
      as (dn & todo & st' & buf' & -> & Hd & Hw & Hs' & Hb); [done|done|lia|done|].
    apply Forall_app in Hwf as [_ Hwf].
    cbn [feed]. rewrite Hd, (IH todo st' buf' Hwf Hw Hs' Hb). by rewrite fmap_app.
Qed.

(** The same from a fresh decoder. *)
Lemma feed_all fs reads :
  Forall frame_wf fs → concat reads = concat (wire <$> fs) →
  feed Header [] reads = (sealed <$> fs, Header, [], None).
Proof.
  intros Hwf Heq. destruct fs as [|f fs].
  - by apply (feed_spec reads []).
  - apply feed_spec; [done|by left| |done]. simpl.
    apply length_wire. by apply Forall_cons in Hwf as [? _].
Qed.

(** *** What the decoder accepts *)
Lemma decode_turn_header_inv src :
  bytes_wf src → HEADER_SIZE ≤ blen src →
  (∃ h rest, src = header_bytes h ++ rest ∧ header_wf h) ∨
  (∃ e, decode_turn Header src = Return Header src (Err e)).
Proof.
  intros Hwf Hlen. unfold decode_turn.
  destruct (Z.ltb_spec (blen src) HEADER_SIZE); [lia|].
  rewrite slice_in by (unfold HEADER_SIZE in *; lia).
  change (Z.to_nat 0) with 0%nat. rewrite drop_0, Z.sub_0_r. cbn [mbind result_bind].
  assert (blen (take (Z.to_nat HEADER_SIZE) src) = HEADER_SIZE) as Hl
    by (apply blen_take; unfold HEADER_SIZE in *; lia).
  destruct (decode_header _) as [h|e|] eqn:Hd; [|by eauto|].
  - left. apply decode_header_inv in Hd as [Hh Hd]; [|by apply Forall_take|done].
    exists h, (drop (Z.to_nat HEADER_SIZE) src). by rewrite <- Hd, take_drop.
  - by apply decode_header_not_Panic in Hd.
Qed.

(** The header a decoder in state [st] is working on, when it has one. *)
Definition state_wf (st : DecodeState) (src : bytes) : Prop :=
  match st with
  | Header => True
  | Payload h => header_wf h ∧ FrameHeader.payload_len h ≠ 0 ∧
                 ∃ rest, src = header_bytes h ++ rest
  end.

(** What a call returns, case by case. *)
Inductive decoded (src : bytes)
  : DecodeState * bytes * result ProtocolError (option Frame.t) → Prop :=
| decoded_frame f rest :
    frame_wf f → src = wire f ++ rest → f = sealed f →
    decoded src (Header, rest, Ok (Some f))
| decoded_more st :
    state_wf st src → decoded src (st, src, Ok None)
| decoded_error st e :
    state_wf st src → decode st src = (st, src, Err e) → decoded src (st, src, Err e).

Lemma sealed_intro h p :
  header_wf h → FrameHeader.payload_len h = blen p → bytes_wf p →
  compute_checksum h p = FrameHeader.checksum h →
  frame_wf (Frame.mk h p) ∧ Frame.mk h p = sealed (Frame.mk h p).
Proof.
  intros [] Hl Hp Hc. split; [constructor; simpl; try done; lia|].
  unfold sealed. simpl. rewrite Hc. by destruct h.
Qed.

Lemma decoded_payload h src :
  bytes_wf src → state_wf (Payload h) src → decoded src (decode (Payload h) src).
Proof.
  intros Hwf (Hh & Hne & rest & ->).
  destruct (Z.lt_ge_cases (blen rest) (FrameHeader.payload_len h)) as [Hlt|Hge].
  - erewrite decode_Return.
    2: { apply decode_turn_payload_short. rewrite blen_app, blen_header_bytes. lia. }
    constructor. by split_and!; eauto.
  - pose proof (hw_len _ Hh). set (n := Z.to_nat (FrameHeader.payload_len h)).
    assert (FrameHeader.payload_len h = blen (take n rest)) as Hl
      by (unfold n; rewrite blen_take; lia).
    rewrite <- (take_drop n rest) in Hwf |- *.
    assert (bytes_wf (take n rest)) by (by apply Forall_app in Hwf as [_ [? _]%Forall_app]).
    pose proof (decode_turn_payload h (take n rest) (drop n rest) Hl) as Hturn.
    destruct (Z.eqb_spec (compute_checksum h (take n rest)) (FrameHeader.checksum h)) as [Hc|Hc].
    + rewrite (decode_Return _ _ _ _ _ Hturn).
      destruct (sealed_intro h (take n rest)) as [Hf Hs]; [done..|].
      apply decoded_frame; [done| |done].
      rewrite wire_eq, <- Hs, <- app_assoc by done. done.
    + rewrite (decode_Return _ _ _ _ _ Hturn). apply decoded_error.
      * by split_and!; eauto.
      * by apply decode_Return.
Qed.

Lemma decode_classify st src :
  bytes_wf src → state_wf st src → decoded src (decode st src).
Proof.
  intros Hwf Hst. destruct st as [|h]; [|by apply decoded_payload].
  destruct (Z.lt_ge_cases (blen src) HEADER_SIZE) as [Hlt|Hge].
  { rewrite (decode_Return _ _ _ _ _ (decode_turn_short _ Hlt)). by constructor. }
  destruct (decode_turn_header_inv src) as [(h & rest & -> & Hh)|(e & He)]; [done..| |].
  2: { rewrite (decode_Return _ _ _ _ _ He). constructor; [done|]. by apply decode_Return. }
  pose proof (decode_turn_header h rest Hh) as Hturn.
  destruct (Z.eqb_spec (FrameHeader.payload_len h) 0) as [H0|H0].
  - destruct (Z.eqb_spec (compute_checksum h []) (FrameHeader.checksum h)) as [Hc|Hc].
    + rewrite (decode_Return _ _ _ _ _ Hturn).
      destruct (sealed_intro h []) as [Hf Hs]; [done..|].
      apply decoded_frame; [done| |done].
      rewrite wire_eq, <- Hs by done. simpl Frame.payload. by rewrite app_nil_r.
    + rewrite (decode_Return _ _ _ _ _ Hturn). constructor; [done|]. by apply decode_Return.
  - destruct (decode_turn_payload_returns h (header_bytes h ++ rest)) as (st' & src' & r & Hr).
    rewrite (decode_Continue _ _ _ _ _ _ Hturn Hr), <- (decode_Return _ _ _ _ _ Hr).
    apply decoded_payload; [done|]. by split_and!; eauto.
Qed.

(** A rejected buffer stays rejected when more data arrives. *)
Lemma decode_turn_error_app st src more e :
  decode_turn st src = Return st src (Err e) →
  decode_turn st (src ++ more) = Return st (src ++ more) (Err e).
Proof.
  intros H. destruct st as [|h]; unfold decode_turn in *; rewrite blen_app;
    pose proof (blen_nonneg more).
  - destruct (Z.ltb_spec (blen src) HEADER_SIZE); [done|].
    destruct (Z.ltb_spec (blen src + blen more) HEADER_SIZE); [lia|].
    rewrite slice_app_l by done. repeat case_match; simplify_eq; congruence.
  - destruct (Z.ltb_spec (blen src) (HEADER_SIZE + FrameHeader.payload_len h)); [done|].
    destruct (Z.ltb_spec (blen src + blen more) (HEADER_SIZE + FrameHeader.payload_len h)); [lia|].
    rewrite slice_app_l by done. repeat case_match; simplify_eq; congruence.
Qed.

Lemma decode_error_turn st src e :
  decode st src = (st, src, Err e) → decode_turn st src = Return st src (Err e).
Proof.
  unfold decode. cbn [decode_loop].
  destruct (decode_turn st src) as [st'|] eqn:H1; [|by intros [= -> -> ->]].
  apply decode_turn_Continue in H1 as (-> & h & ->).
  destruct (decode_turn (Payload h) src) as [|st' src' r] eqn:H2; [done|].
  intros [= -> -> ->]. exfalso. revert H2. unfold decode_turn.
  repeat case_match; congruence.
Qed.
End Codec.

(** ** The codec's guarantees *)
Section Guarantees.
Context `{CRC : !Crc32c} {CRCOK : Crc32cOk}.

(** C1: bytes read from a peer come back as the frames that were sent, however
    the transport cuts the byte stream: whatever the reads are, feeding them one
    after the other to the decoder yields exactly the encoded frames, in order,
    and leaves the decoder ready with an empty buffer. *)
Theorem stream_reassembly fs reads :
  Forall frame_wf fs → concat reads = concat (wire <$> fs) →
  feed Header [] reads = (sealed <$> fs, Header, [], None).
Proof. apply feed_all. Qed.

(** One frame, with any bytes after it: [decode] after [encode] returns the
    frame with its checksum filled in, and consumes exactly the frame. *)
Lemma codec_roundtrip f dst rest :
  frame_wf f →
  ∃ w, encode f dst = Ok (dst ++ w) ∧ blen w = Frame.wire_size f ∧
       decode Header (w ++ rest) = (Header, rest, Ok (Some (sealed f))).
Proof.
  intros Hf. exists (wire f). split_and!.
  - rewrite encode_wire, wire_eq by done. done.
  - by apply blen_wire.
  - by apply decode_complete; [|left].
Qed.

(** C35: the decoder accepts only what the encoder produces: when it returns a
    frame, the bytes it consumed are the encoding of that frame, and the payload
    is within the limit. *)
Theorem decode_sound src st' src' f :
  bytes_wf src → decode Header src = (st', src', Ok (Some f)) →
  st' = Header ∧ ∃ w, src = w ++ src' ∧ encode f [] = Ok w ∧
  frame_wf f ∧ FrameHeader.checksum (Frame.header f) =
               compute_checksum (Frame.header f) (Frame.payload f).
Proof.
  intros Hwf H. assert (decoded src (decode Header src)) as Hd by by apply decode_classify.
  rewrite H in Hd. inversion Hd as [? ? Hf Hsrc Hs| |]; subst.
  split; [done|]. exists (wire f). split_and!; [done| |done|].
  - rewrite encode_wire, wire_eq by done. done.
  - by rewrite Hs at 1.
Qed.

(** C36: [decode] never panics and never loses bytes on the way to an answer: it
    returns a frame, asks for more, or reports an error leaving the buffer as it
    was; and an error is final: with more data in the buffer the same call fails
    with the same error (the codec never resynchronises). *)
Theorem decode_total st src st' src' r :
  bytes_wf src → state_wf st src → decode st src = (st', src', r) →
  r ≠ Panic ∧ state_wf st' src' ∧
  (r = Ok None → src' = src) ∧
  (∀ e, r = Err e → src' = src ∧
     ∀ more, decode st' (src ++ more) = (st', src ++ more, Err e)).
Proof.
  intros Hwf Hst H. assert (decoded src (decode st src)) as Hd by by apply decode_classify.
  rewrite H in Hd.
  inversion Hd as [f ? Hf Hsrc Hs|? Hst'|? e' Hst' He]; subst; split_and!; try done.
  intros e [= <-]. split; [done|]. intros more.
  by apply decode_Return, decode_turn_error_app, decode_error_turn.
Qed.
End Guarantees.
End FrameCodec.

(** ** A checksum to run the codec with: CRC-32C (Castagnoli), bit by bit *)
Module Crc32cBitwise.
Fixpoint crc_bits (n : nat) (c : Z) : Z :=
  match n with
  | O => c
  | S n => crc_bits n (if Z.testbit c 0 then Z.lxor (Z.shiftr c 1) 0x82F63B78
                       else Z.shiftr c 1)
  end.
Definition crc_byte (c x : Z) : Z := crc_bits 8 (Z.lxor c x).
Definition append (c : Z) (b : bytes) : Z :=
  wrap 32 (Z.lxor (fold_left crc_byte b (Z.lxor c 0xFFFFFFFF)) 0xFFFFFFFF).

#[export] Instance bitwise : Crc32c := {| crc32c := append 0; crc32c_append := append |}.
#[export] Instance bitwise_ok : Crc32cOk.
Proof. intros c b. by apply wrap_range. Qed.

(** The check value of CRC-32C: the digits 1 to 9. *)
Example crc32c_check : crc32c [49; 50; 51; 52; 53; 54; 55; 56; 57] = 0xE3069283.
Proof. vm_compute. reflexivity. Qed.
End Crc32cBitwise.

(** ** Concrete runs *)
Module FrameCodecWitness.
Import Crc32cBitwise FrameCodec.

Definition ping : Frame.t := Frame.simple MessageType.Ping 7.
Definition data : Frame.t :=
  Frame.new MessageType.Data (Flags.with_encrypted Flags.empty) 42 [104; 105; 33].

Lemma ping_wf : frame_wf ping.
Proof. constructor; decide_now. Qed.

Lemma data_wf : frame_wf data.
Proof. constructor; decide_now. Qed.

(** Two frames, cut in the middle of a header and in the middle of a payload. *)
Definition reads : list bytes :=
  [take 10 (wire ping); drop 10 (wire ping) ++ take 22 (wire data); drop 22 (wire data)].

Lemma stream_reassembly_witness :
  feed Header [] reads = ([sealed ping; sealed data], Header, [], None).
Proof.
  apply (stream_reassembly [ping; data] reads).
  - apply Forall_cons_2; [apply ping_wf|]. apply Forall_singleton, data_wf.
  - reflexivity.
Defined.

Lemma codec_roundtrip_witness :
  ∃ w, encode data [9] = Ok ([9] ++ w) ∧ blen w = 24 ∧
       decode Header (w ++ [1]) = (Header, [1], Ok (Some (sealed data))).
Proof. exact (codec_roundtrip data [9] [1] data_wf). Defined.

Lemma decode_sound_witness :
  Header = Header ∧ ∃ w, wire data ++ [5] = w ++ [5] ∧ encode (sealed data) [] = Ok w ∧
  frame_wf (sealed data) ∧
  FrameHeader.checksum (Frame.header (sealed data)) =
    compute_checksum (Frame.header (sealed data)) (Frame.payload (sealed data)).
Proof.
  apply (decode_sound (wire data ++ [5]) Header [5] (sealed data)).
  - decide_now.
  - vm_compute. reflexivity.
Defined.

(** A frame whose last byte was changed. *)
Lemma decode_total_witness :
  let src := take 23 (wire data) ++ [0] in
  ∃ st e, decode Header src = (st, src, Err e) ∧
  ∀ more, decode st (src ++ more) = (st, src ++ more, Err e).
Proof.
  intros src. destruct (decode Header src) as [[st' src'] r] eqn:H.
  assert (bytes_wf src) as Hwf by decide_now.
  destruct (decode_total Header src st' src' r Hwf I H) as (_ & _ & _ & He).
  vm_compute in H. injection H as <- <- <-.
  destruct (He _ eq_refl) as [_ Hmore]. eexists _, _. split; [reflexivity|exact Hmore].
Defined.
End FrameCodecWitness.
