(* ===== verification/Replay.v ===== *)
(** ceky-crypto/src/session.rs, [ReplayWindow]: the 256-nonce sliding window as
    four 64-bit words, shifted in place, and its refinement of the abstract
    filter that remembers every accepted nonce. *)
From S2P Require Import Prelude Bytes.

Local Open Scope Z_scope.

Module ReplayWindow.
Definition REPLAY_WINDOW_SIZE : Z := 256.

Record t : Set := mk { max_nonce : Z; bitmap : list Z }.

Definition new : t := mk 0 [0; 0; 0; 0].

(** [self.bitmap[i]] *)
Definition word (bm : list Z) (i : nat) : Z := nth i bm 0.

(** The indices of [(0..self.bitmap.len()).rev()]. *)
Definition indices_rev (bm : list Z) : list nat := rev (seq 0 (length bm)).

(** First loop: move whole words. *)
Definition shift_words (word_shift : nat) (bm : list Z) : list Z :=
  fold_left (λ bm i, <[i := if (word_shift <=? i)%nat then word bm (i - word_shift) else 0]> bm)
    (indices_rev bm) bm.

(** Second loop: move bits within and across words. *)
Definition shift_bits (bit_shift : Z) (bm : list Z) : list Z :=
  fold_left (λ bm i,
      let bm := <[i := wrap 64 (Z.shiftl (word bm i) bit_shift)]> bm in
      if (0 <? i)%nat
      then <[i := Z.lor (word bm i) (Z.shiftr (word bm (i - 1)) (64 - bit_shift))]> bm
      else bm)
    (indices_rev bm) bm.

Definition shift_left (amount : Z) (bm : list Z) : list Z :=
  if 64 <=? amount then
    let word_shift := amount / 64 in
    let bit_shift := amount mod 64 in
    let bm := shift_words (Z.to_nat word_shift) bm in
    if 0 <? bit_shift then shift_bits bit_shift bm else bm
  else if 0 <? amount then shift_bits amount bm
  else bm.

(** The new state and whether the nonce is new. *)
Definition check_and_mark (w : t) (nonce : Z) : t * bool :=
  if max_nonce w <? nonce then
    let shift := nonce - max_nonce w in
    let bm := if REPLAY_WINDOW_SIZE <=? shift then [0; 0; 0; 0]
              else shift_left shift (bitmap w) in
    (mk nonce (<[0%nat := Z.lor (word bm 0) 1]> bm), true)
  else
    let diff := max_nonce w - nonce in
    if REPLAY_WINDOW_SIZE <=? diff then (w, false)
    else
      let word_idx := Z.to_nat (diff / 64) in
      let bit_idx := diff mod 64 in
      if negb (Z.land (word (bitmap w) word_idx) (Z.shiftl 1 bit_idx) =? 0) then (w, false)
      else
        (mk (max_nonce w)
           (<[word_idx := Z.lor (word (bitmap w) word_idx) (Z.shiftl 1 bit_idx)]> (bitmap w)),
         true).

(** ** The window as a row of 256 bits *)
Record bitmap_wf (bm : list Z) : Prop := {
  bw_len : length bm = 4%nat;
  bw_words : Forall is_u64 bm
}.

Definition wbit (bm : list Z) (k : Z) : bool :=
  Z.testbit (word bm (Z.to_nat (k / 64))) (k mod 64).

Lemma bitmap_cells bm : bitmap_wf bm →
  ∃ w0 w1 w2 w3, bm = [w0; w1; w2; w3] ∧ is_u64 w0 ∧ is_u64 w1 ∧ is_u64 w2 ∧ is_u64 w3.
Proof.
  intros [Hl Hw]. do 4 (destruct bm as [|? bm]; [done|]). destruct bm; [|done].
  rewrite !Forall_cons in Hw. destruct_and!. eauto 10.
Qed.

Lemma bitmap_wf_cells w0 w1 w2 w3 :
  is_u64 w0 → is_u64 w1 → is_u64 w2 → is_u64 w3 → bitmap_wf [w0; w1; w2; w3].
Proof. intros. split; [done|]. wf_list. Qed.

Lemma shift_bits_cells s w0 w1 w2 w3 :
  shift_bits s [w0; w1; w2; w3] =
  [ wrap 64 (Z.shiftl w0 s);
    Z.lor (wrap 64 (Z.shiftl w1 s)) (Z.shiftr w0 (64 - s));
    Z.lor (wrap 64 (Z.shiftl w2 s)) (Z.shiftr w1 (64 - s));
    Z.lor (wrap 64 (Z.shiftl w3 s)) (Z.shiftr w2 (64 - s)) ].
Proof. reflexivity. Qed.

(** A bit of one shifted word. *)
Lemma shifted_word_bit s hi lo j :
  0 < s < 64 → is_u64 lo → 0 ≤ j < 64 →
  Z.testbit (Z.lor (wrap 64 (Z.shiftl hi s)) (Z.shiftr lo (64 - s))) j =
  if s <=? j then Z.testbit hi (j - s) else Z.testbit lo (64 + j - s).
Proof.
  intros Hs Hlo Hj. unfold wrap.
  rewrite Z.lor_spec, Z.mod_pow2_bits_low, Z.shiftl_spec, Z.shiftr_spec by lia.
  replace (j + (64 - s)) with (64 + j - s) by lia.
  apply is_uint_testbit in Hlo as [_ Hlo]; [|lia].
  destruct (Z.leb_spec s j).
  - rewrite (Hlo (64 + j - s)) by lia. apply orb_false_r.
  - by rewrite Z.testbit_neg_r by lia.
Qed.

Lemma shifted_word_bit0 s hi j :
  0 < s < 64 → 0 ≤ j < 64 →
  Z.testbit (wrap 64 (Z.shiftl hi s)) j = if s <=? j then Z.testbit hi (j - s) else false.
Proof.
  intros Hs Hj. pose proof (shifted_word_bit s hi 0 j Hs) as H.
  rewrite Z.shiftr_0_l, Z.lor_0_r in H. rewrite H by (done || lia).
  by rewrite Z.testbit_0_l.
Qed.

Lemma shifted_word_wf s hi lo :
  0 < s < 64 → is_u64 lo →
  is_u64 (Z.lor (wrap 64 (Z.shiftl hi s)) (Z.shiftr lo (64 - s))).
Proof.
  intros Hs Hlo. apply is_uint_lor; [lia|by apply wrap_range|].
  apply is_uint_testbit in Hlo as [Hlo0 Hlo]; [|lia].
  apply is_uint_testbit; [lia|]. split; [by apply Z.shiftr_nonneg|].
  intros i Hi. rewrite Z.shiftr_spec by lia. apply Hlo. lia.
Qed.

Lemma wbit_cell bm (i : nat) j :
  0 ≤ j < 64 → wbit bm (64 * Z.of_nat i + j) = Z.testbit (word bm i) j.
Proof.
  intros Hj. unfold wbit. rewrite (Z.mul_comm 64), Z.div_add_l by lia.
  rewrite (Z.add_comm _ j), Z.mod_add, Z.div_small, Z.mod_small, Z.add_0_r, Nat2Z.id by lia.
  done.
Qed.

(** Every bit position of the window lies in one of the four words. *)
Lemma window_position k : 0 ≤ k < 256 →
  ∃ (i : nat) j, k = 64 * Z.of_nat i + j ∧ 0 ≤ j < 64 ∧
  (i = 0 ∨ i = 1 ∨ i = 2 ∨ i = 3)%nat.
Proof.
  intros Hk. exists (Z.to_nat (k / 64)), (k mod 64).
  pose proof (Z.div_mod k 64 ltac:(lia)). pose proof (Z.mod_pos_bound k 64 ltac:(lia)).
  assert (0 ≤ k / 64 < 4) by (split; [apply Z.div_pos; lia|apply Z.div_lt_upper_bound; lia]).
  rewrite Z2Nat.id by lia. split_and!; [lia..|]. lia.
Qed.

Lemma shift_bits_spec s bm k :
  bitmap_wf bm → 0 < s < 64 → 0 ≤ k < 256 →
  wbit (shift_bits s bm) k = if s <=? k then wbit bm (k - s) else false.
Proof.
  intros (w0 & w1 & w2 & w3 & -> & H0 & H1 & H2 & H3)%bitmap_cells Hs
    (i & j & -> & Hj & Hi)%window_position.
  rewrite shift_bits_cells, wbit_cell by done.
  assert (∀ (n : nat) (bm : list Z), s <= j →
    wbit bm (64 * Z.of_nat n + j - s) = Z.testbit (word bm n) (j - s)) as Hsame.
  { intros n bm' ?. rewrite <- Z.add_sub_assoc. apply wbit_cell. lia. }
  assert (∀ (n : nat) (bm : list Z), j < s →
    wbit bm (64 * Z.of_nat (S n) + j - s) = Z.testbit (word bm n) (64 + j - s)) as Hprev.
  { intros n bm' ?. rewrite <- wbit_cell by lia. f_equal. lia. }
  destruct Hi as [->|[->|[->| ->]]]; unfold word at 1; cbn [nth];
    [rewrite shifted_word_bit0 by lia|rewrite shifted_word_bit by (done || lia)..];
    destruct (Z.leb_spec s j);
    rewrite ?Hsame, ?Hprev by lia;
    match goal with |- context [s <=? ?e] => destruct (Z.leb_spec s e) end; try lia; done.
Qed.

Lemma shift_bits_wf s bm : bitmap_wf bm → 0 < s < 64 → bitmap_wf (shift_bits s bm).
Proof.
  intros (w0 & w1 & w2 & w3 & -> & H0 & H1 & H2 & H3)%bitmap_cells Hs.
  rewrite shift_bits_cells.
  apply bitmap_wf_cells; [by apply wrap_range|by apply shifted_word_wf..].
Qed.

Lemma shift_words_cells n w0 w1 w2 w3 :
  (1 ≤ n ≤ 3)%nat →
  shift_words n [w0; w1; w2; w3] =
  match n with
  | 1%nat => [0; w0; w1; w2]
  | 2%nat => [0; 0; w0; w1]
  | _ => [0; 0; 0; w0]
  end.
Proof. intros Hn. assert (n = 1 ∨ n = 2 ∨ n = 3)%nat as [->|[->| ->]] by lia; reflexivity. Qed.

Lemma shift_words_spec n bm k :
  bitmap_wf bm → (1 ≤ n ≤ 3)%nat → 0 ≤ k < 256 →
  wbit (shift_words n bm) k =
  if 64 * Z.of_nat n <=? k then wbit bm (k - 64 * Z.of_nat n) else false.
Proof.
  intros (w0 & w1 & w2 & w3 & -> & H0 & H1 & H2 & H3)%bitmap_cells Hn
    (i & j & -> & Hj & Hi)%window_position.
  rewrite shift_words_cells, wbit_cell by done.
  destruct (Z.leb_spec (64 * Z.of_nat n) (64 * Z.of_nat i + j)).
  - replace (64 * Z.of_nat i + j - 64 * Z.of_nat n) with (64 * Z.of_nat (i - n) + j) by lia.
    rewrite wbit_cell by done.
    assert (n = 1 ∨ n = 2 ∨ n = 3)%nat as [->|[->| ->]] by lia;
      destruct Hi as [->|[->|[->| ->]]]; try lia; done.
  - assert (n = 1 ∨ n = 2 ∨ n = 3)%nat as [->|[->| ->]] by lia;
      destruct Hi as [->|[->|[->| ->]]]; try lia; apply Z.testbit_0_l.
Qed.

Lemma shift_words_wf n bm : bitmap_wf bm → (1 ≤ n ≤ 3)%nat → bitmap_wf (shift_words n bm).
Proof.
  intros (w0 & w1 & w2 & w3 & -> & H0 & H1 & H2 & H3)%bitmap_cells Hn.
  rewrite shift_words_cells by done.
  assert (n = 1 ∨ n = 2 ∨ n = 3)%nat as [->|[->| ->]] by lia; by apply bitmap_wf_cells.
Qed.

(** [shift_left] is the shift of the 256-bit row. *)
Lemma shift_left_spec a bm k :
  bitmap_wf bm → 0 < a < 256 → 0 ≤ k < 256 →
  wbit (shift_left a bm) k = if a <=? k then wbit bm (k - a) else false.
Proof.
  intros Hbm Ha Hk. unfold shift_left.
  destruct (Z.leb_spec 64 a); [|destruct (Z.ltb_spec 0 a); [apply shift_bits_spec; (done || lia)|lia]].
  pose proof (Z.div_mod a 64 ltac:(lia)). pose proof (Z.mod_pos_bound a 64 ltac:(lia)).
  assert (1 ≤ a / 64 ≤ 3).
  { split; [apply Z.div_le_lower_bound; lia|apply Z.lt_succ_r, Z.div_lt_upper_bound; lia]. }
  set (n := Z.to_nat (a / 64)). assert (Z.of_nat n = a / 64) as Hn by lia.
  pose proof (shift_words_wf n bm Hbm ltac:(lia)) as Hwf.
  destruct (Z.ltb_spec 0 (a mod 64)).
  - rewrite shift_bits_spec by (done || lia).
    destruct (Z.leb_spec (a mod 64) k); [|by destruct (Z.leb_spec a k); [lia|]].
    rewrite shift_words_spec, Hn by (done || lia).
    destruct (Z.leb_spec (64 * (a / 64)) (k - a mod 64)); destruct (Z.leb_spec a k);
      solve [lia | done | f_equal; lia].
  - rewrite shift_words_spec, Hn by (done || lia).
    replace (64 * (a / 64)) with a by lia. done.
Qed.

Lemma shift_left_wf a bm : bitmap_wf bm → 0 < a < 256 → bitmap_wf (shift_left a bm).
Proof.
  intros Hbm Ha. unfold shift_left.
  destruct (Z.leb_spec 64 a); [|destruct (Z.ltb_spec 0 a); [apply shift_bits_wf; (done || lia)|done]].
  pose proof (Z.mod_pos_bound a 64 ltac:(lia)).
  assert (1 ≤ a / 64 ≤ 3).
  { split; [apply Z.div_le_lower_bound; lia|apply Z.lt_succ_r, Z.div_lt_upper_bound; lia]. }
  pose proof (shift_words_wf (Z.to_nat (a / 64)) bm Hbm ltac:(lia)).
  destruct (Z.ltb_spec 0 (a mod 64)); [|done]. apply shift_bits_wf; (done || lia).
Qed.

(** ** The abstract filter

    A filter that keeps every nonce it has accepted, [H], and the largest one.
    It accepts a nonce above the largest, and one less than 256 below it that
    was not accepted before. *)
Definition spec_accepts (max : Z) (H : gset Z) (n : Z) : Prop :=
  max < n ∨ (n ≤ max ∧ max - n < REPLAY_WINDOW_SIZE ∧ n ∉ H).

#[export] Instance spec_accepts_dec max H n : Decision (spec_accepts max H n).
Proof. unfold spec_accepts. apply _. Defined.

(** The window [w] implements the filter with history [H]. *)
Record refines (H : gset Z) (w : t) : Prop := {
  rf_wf : bitmap_wf (bitmap w);
  rf_max : is_u64 (max_nonce w);
  rf_below : ∀ n, n ∈ H → 0 ≤ n ≤ max_nonce w;
  rf_bits : ∀ k, 0 ≤ k < REPLAY_WINDOW_SIZE →
    wbit (bitmap w) k = bool_decide (max_nonce w - k ∈ H)
}.

(** The filter's step. *)
Definition spec_step (max : Z) (H : gset Z) (n : Z) : Z * gset Z * bool :=
  if decide (spec_accepts max H n) then (Z.max max n, {[n]} ∪ H, true) else (max, H, false).

Lemma wbit_zero k : wbit [0; 0; 0; 0] k = false.
Proof.
  unfold wbit, word. destruct (Z.to_nat (k / 64)) as [|[|[|[|n]]]]; simpl; try apply Z.testbit_0_l.
  destruct n; apply Z.testbit_0_l.
Qed.

Lemma new_refines : refines ∅ new.
Proof.
  split; simpl.
  - by apply bitmap_wf_cells.
  - done.
  - set_solver.
  - intros k _. rewrite wbit_zero. by rewrite bool_decide_eq_false_2 by set_solver.
Qed.

(** Setting one bit. *)
Definition mark (d : Z) (bm : list Z) : list Z :=
  <[Z.to_nat (d / 64) := Z.lor (word bm (Z.to_nat (d / 64))) (Z.shiftl 1 (d mod 64))]> bm.

Lemma cell_index (i : nat) j : 0 ≤ j < 64 →
  Z.to_nat ((64 * Z.of_nat i + j) / 64) = i ∧ (64 * Z.of_nat i + j) mod 64 = j.
Proof.
  intros Hj. rewrite (Z.mul_comm 64), Z.div_add_l, Z.div_small, Z.add_0_r, Nat2Z.id by lia.
  by rewrite Z.add_comm, Z.mod_add, Z.mod_small by lia.
Qed.

Lemma wbit_mark bm d k :
  bitmap_wf bm → 0 ≤ d < 256 → 0 ≤ k < 256 →
  wbit (mark d bm) k = (d =? k) || wbit bm k.
Proof.
  intros [Hlen _] (i & j & -> & Hj & Hi)%window_position (i' & j' & -> & Hj' & Hi')%window_position.
  rewrite !wbit_cell by done. unfold mark. destruct (cell_index i j Hj) as [-> ->].
  unfold word at 1. rewrite nth_lookup, list_lookup_insert.
  destruct (decide (i = i' ∧ (i < length bm)%nat)) as [[<- _]|Hne]; simpl.
  - rewrite Z.lor_spec, Z.shiftl_1_l, Z.pow2_bits_eqb, orb_comm by lia. f_equal.
    destruct (Z.eqb_spec j j'), (Z.eqb_spec (64 * Z.of_nat i + j) (64 * Z.of_nat i + j')); lia.
  - unfold word. rewrite nth_lookup.
    by destruct (Z.eqb_spec (64 * Z.of_nat i + j) (64 * Z.of_nat i' + j')); [lia|].
Qed.

Lemma mark_wf bm d : bitmap_wf bm → 0 ≤ d < 256 → bitmap_wf (mark d bm).
Proof.
  intros [Hlen Hw] (i & j & -> & Hj & Hi)%window_position. unfold mark.
  destruct (cell_index i j Hj) as [-> ->]. split; [by rewrite length_insert|].
  apply Forall_insert; [done|]. apply is_uint_lor; [lia|..].
  - unfold word. rewrite nth_lookup. destruct (bm !! i) eqn:Hb; [|done].
    by eapply Forall_lookup_1.
  - rewrite Z.shiftl_1_l. split; [by apply Z.pow_nonneg|]. by apply Z.pow_lt_mono_r; lia.
Qed.

(** The test of the code reads the bit. *)
Lemma test_bit bm d : 0 ≤ d →
  negb (Z.land (word bm (Z.to_nat (d / 64))) (Z.shiftl 1 (d mod 64)) =? 0) = wbit bm d.
Proof.
  intros Hd. apply bit_of_byte, Z.mod_pos_bound. lia.
Qed.

Lemma cell0_mark bm : <[0%nat := Z.lor (word bm 0) 1]> bm = mark 0 bm.
Proof. done. Qed.

(** ** Refinement of one call *)
Lemma advance_refines H w n :
  refines H w → is_u64 n → max_nonce w < n →
  let bm := if REPLAY_WINDOW_SIZE <=? n - max_nonce w then [0; 0; 0; 0]
            else shift_left (n - max_nonce w) (bitmap w) in
  refines ({[n]} ∪ H) (mk n (mark 0 bm)).
Proof.
  intros [Hwf Hmax Hbelow Hbits] Hn Hgt bm. unfold REPLAY_WINDOW_SIZE in *.
  assert (bitmap_wf bm ∧ ∀ k, 0 ≤ k < 256 →
    wbit bm k = bool_decide (n - k ∈ H)) as [Hbm Hold].
  { subst bm. destruct (Z.leb_spec 256 (n - max_nonce w)).
    - split; [by apply bitmap_wf_cells|]. intros k Hk. rewrite wbit_zero.
      rewrite bool_decide_eq_false_2; [done|]. intros ?%Hbelow. lia.
    - split; [by apply shift_left_wf; (done || lia)|]. intros k Hk.
      rewrite shift_left_spec by (done || lia).
      destruct (Z.leb_spec (n - max_nonce w) k).
      + rewrite Hbits by lia. apply bool_decide_ext. by replace (_ - _) with (n - k) by lia.
      + rewrite bool_decide_eq_false_2; [done|]. intros ?%Hbelow. lia. }
  split; simpl.
  - by apply mark_wf.
  - done.
  - destruct Hmax. intros x [->%elem_of_singleton|?%Hbelow]%elem_of_union; destruct Hn; lia.
  - intros k Hk. rewrite wbit_mark, Hold by (done || lia).
    destruct (Z.eqb_spec 0 k) as [<-|]; simpl.
    + rewrite bool_decide_eq_true_2; [done|set_solver by lia].
    + apply bool_decide_ext. rewrite elem_of_union, elem_of_singleton. intuition lia.
Qed.

Lemma within_refines H w n :
  refines H w → is_u64 n → n ≤ max_nonce w → max_nonce w - n < REPLAY_WINDOW_SIZE →
  refines ({[n]} ∪ H) (mk (max_nonce w) (mark (max_nonce w - n) (bitmap w))).
Proof.
  intros [Hwf Hmax Hbelow Hbits] [Hn0 _] Hle Hin. unfold REPLAY_WINDOW_SIZE in *. split; simpl.
  - apply mark_wf; [done|lia].
  - done.
  - intros x [->%elem_of_singleton|?%Hbelow]%elem_of_union; lia.
  - intros k Hk. rewrite wbit_mark, Hbits by (done || lia).
    destruct (Z.eqb_spec (max_nonce w - n) k) as [<-|]; simpl.
    + rewrite bool_decide_eq_true_2; [done|]. apply elem_of_union_l, elem_of_singleton. lia.
    + apply bool_decide_ext. rewrite elem_of_union, elem_of_singleton. intuition lia.
Qed.

Lemma check_and_mark_refines H w n m' H' b :
  refines H w → is_u64 n → spec_step (max_nonce w) H n = (m', H', b) →
  ∃ w', check_and_mark w n = (w', b) ∧ max_nonce w' = m' ∧ refines H' w'.
Proof.
  intros Href Hn Hspec. unfold check_and_mark, spec_step in *. rewrite cell0_mark.
  destruct (Z.ltb_spec (max_nonce w) n) as [Hlt|Hge].
  { rewrite decide_True in Hspec by by left. simplify_eq. eexists. split; [done|].
    split; [simpl; lia|]. by apply advance_refines. }
  destruct (Z.leb_spec REPLAY_WINDOW_SIZE (max_nonce w - n)) as [Hold|Hin].
  { rewrite decide_False in Hspec by (unfold spec_accepts; lia). simplify_eq. by exists w. }
  rewrite test_bit, (rf_bits _ _ Href) by lia.
  replace (max_nonce w - (max_nonce w - n)) with n by lia.
  destruct (decide (n ∈ H)) as [Hseen|Hfresh].
  - rewrite decide_False in Hspec by (intros [?|(_ & _ & ?)]; [lia|done]).
    rewrite bool_decide_eq_true_2 by done. simplify_eq. by exists w.
  - rewrite decide_True in Hspec by by right.
    rewrite bool_decide_eq_false_2 by done. simplify_eq.
    eexists. split; [done|]. split; [simpl; lia|]. by apply within_refines.
Qed.

(** ** Sequences of calls *)

(** The answers of the window, and of the filter, to a sequence of nonces. *)
Fixpoint answers (w : t) (ns : list Z) : list bool :=
  match ns with
  | [] => []
  | n :: ns => let '(w', b) := check_and_mark w n in b :: answers w' ns
  end.

Fixpoint spec_answers (max : Z) (H : gset Z) (ns : list Z) : list bool :=
  match ns with
  | [] => []
  | n :: ns => let '(max', H', b) := spec_step max H n in b :: spec_answers max' H' ns
  end.

(** The nonces of a sequence that were accepted. *)
Fixpoint selected (ns : list Z) (bs : list bool) : list Z :=
  match ns, bs with
  | n :: ns, b :: bs => if b then n :: selected ns bs else selected ns bs
  | _, _ => []
  end.

Lemma answers_refine H w ns :
  refines H w → Forall is_u64 ns → answers w ns = spec_answers (max_nonce w) H ns.
Proof.
  revert H w. induction ns as [|n ns IH]; intros H w Href Hns; [done|].
  apply Forall_cons in Hns as [Hn Hns]. simpl.
  destruct (spec_step (max_nonce w) H n) as [[m' H'] b] eqn:Hs.
  destruct (check_and_mark_refines _ _ _ _ _ _ Href Hn Hs) as (w' & -> & <- & Href').
  f_equal. by apply IH.
Qed.

Lemma spec_selected_fresh max H ns :
  (∀ n, n ∈ H → n ≤ max) →
  NoDup (selected ns (spec_answers max H ns)) ∧
  ∀ n, n ∈ selected ns (spec_answers max H ns) → n ∉ H.
Proof.
  revert max H. induction ns as [|n ns IH]; intros max H HH; simpl.
  { split; [constructor|set_solver]. }
  unfold spec_step. destruct (decide (spec_accepts max H n)) as [Ha|Ha].
  - destruct (IH (Z.max max n) ({[n]} ∪ H)) as [Hnd Hfr].
    { intros x [->%elem_of_singleton|?%HH]%elem_of_union; lia. }
    assert (n ∉ H) by (destruct Ha as [?|(_ & _ & ?)]; [intros ?%HH; lia|done]).
    split; [apply NoDup_cons; split; [|done]|]; set_solver.
  - by apply IH.
Qed.

(** C2: the window answers every sequence of nonces exactly as the abstract
    filter does, the filter that keeps all accepted nonces for ever, accepts
    everything above the largest one and, up to 255 below it, everything it has
    not accepted before. *)
Theorem window_refines_filter (ns : list Z) :
  Forall is_u64 ns → answers new ns = spec_answers 0 ∅ ns.
Proof. apply (answers_refine ∅ new), new_refines. Qed.

(** No nonce is accepted twice, in whatever order nonces arrive and however
    often they are repeated. *)
Lemma window_no_replay (ns : list Z) :
  Forall is_u64 ns → NoDup (selected ns (answers new ns)).
Proof.
  intros Hns. rewrite (answers_refine ∅ new ns new_refines Hns).
  apply spec_selected_fresh. set_solver.
Qed.
End ReplayWindow.

Module ReplayWitness.
Import ReplayWindow.

(** Out of order, repeated, far ahead (300), and too old (10 after 300). *)
Definition arrivals : list Z := [0; 5; 3; 5; 3; 4; 300; 10; 45; 45; 556].

Lemma window_refines_filter_witness :
  Forall is_u64 arrivals ∧
  answers new arrivals = [true; true; true; false; false; true; true; false; true; false; true] ∧
  answers new arrivals = spec_answers 0 ∅ arrivals.
Proof.
  assert (Forall is_u64 arrivals) by decide_now.
  split_and!; [done|vm_compute; reflexivity|by apply window_refines_filter].
Defined.

Lemma window_no_replay_witness :
  selected arrivals (answers new arrivals) = [0; 5; 3; 4; 300; 45; 556] ∧
  NoDup (selected arrivals (answers new arrivals)).
Proof.
  split; [vm_compute; reflexivity|]. apply window_no_replay. decide_now.
Defined.
End ReplayWitness.
