(* ===== verification/CryptoTypes.v ===== *)
(** ceky-crypto/src/error.rs and the primitives ceky-crypto takes from other
    crates: ChaCha20-Poly1305, SHA-256, X25519 and Ed25519, as classes of
    operations ([Aead], [Sha256], [X25519], [Ed25519]) with the laws the code
    relies on ([AeadOk], ...), and a toy instance of each, used only to show
    that the laws can hold together. *)
From S2P Require Import Prelude Bytes.

Local Open Scope Z_scope.

(** Errors of the crate; the free-text [reason] fields are left out. *)
Inductive CryptoError : Set :=
| HandshakeFailed
| InvalidHandshakeState
| DecryptionFailed
| InvalidSignature
| InvalidPeerId
| NonceOverflow
| ReplayDetected (nonce : Z)
| KeyGenerationFailed
| Serialization
| Io.

#[export] Instance CryptoError_eq_dec : EqDecision CryptoError.
Proof. solve_decision. Defined.

(** Authentication tag size (Poly1305). *)
Definition TAG_SIZE : Z := 16.

(** ** ChaCha20-Poly1305: [encrypt key nonce ad msg] and [decrypt] *)
Class Aead : Type := {
  aead_encrypt : bytes → bytes → bytes → bytes → option bytes;
  aead_decrypt : bytes → bytes → bytes → bytes → option bytes
}.

(** Longest message of RFC 8439: 2^32 - 1 blocks of 64 bytes, one block for the key. *)
Definition AEAD_MAX : Z := 2 ^ 38 - 64.

Class AeadOk `{AE : !Aead} : Prop := {
  aead_correct : ∀ k n ad m c, aead_encrypt k n ad m = Some c → aead_decrypt k n ad c = Some m;
  aead_total : ∀ k n ad m, blen k = 32 → blen n = 12 → blen m ≤ AEAD_MAX →
    is_Some (aead_encrypt k n ad m);
  aead_length : ∀ k n ad m c, aead_encrypt k n ad m = Some c → blen c = blen m + TAG_SIZE;
  aead_bytes : ∀ k n ad m c, bytes_wf m → aead_encrypt k n ad m = Some c → bytes_wf c;
  aead_open_length : ∀ k n ad c m, aead_decrypt k n ad c = Some m → blen c = blen m + TAG_SIZE;
  aead_open_bytes : ∀ k n ad c m, bytes_wf c → aead_decrypt k n ad c = Some m → bytes_wf m
}.

(** [ChaCha20Poly1305::new_from_slice]: fails on a key that is not 32 bytes;
    a cipher is its key. *)
Definition cipher_new (key : bytes) : option bytes :=
  if blen key =? 32 then Some key else None.

(** ** SHA-256, X25519 and Ed25519 *)
Class Sha256 : Type := { sha256 : bytes → bytes }.
Class Sha256Ok `{SH : !Sha256} : Prop := {
  sha256_length : ∀ b, length (sha256 b) = 32%nat;
  sha256_bytes : ∀ b, bytes_wf (sha256 b)
}.

(** [x_public secret] and [x_dh secret public]; a secret is its 32 bytes. *)
Class X25519 : Type := { x_public : bytes → bytes; x_dh : bytes → bytes → bytes }.
Class X25519Ok `{XX : !X25519} : Prop := {
  x_dh_comm : ∀ a b, x_dh a (x_public b) = x_dh b (x_public a);
  x_public_length : ∀ a, length (x_public a) = 32%nat;
  x_public_bytes : ∀ a, bytes_wf (x_public a);
  x_dh_length : ∀ a p, length (x_dh a p) = 32%nat;
  x_dh_bytes : ∀ a p, bytes_wf (x_dh a p)
}.

Class Ed25519 : Type := {
  ed_public : bytes → bytes;
  ed_sign : bytes → bytes → bytes;
  ed_verify : bytes → bytes → bytes → bool
}.
Class Ed25519Ok `{ED : !Ed25519} : Prop := {
  ed_correct : ∀ sk m, ed_verify (ed_public sk) m (ed_sign sk m) = true
}.

(** ** A toy AEAD: the message in clear and a checksum of all four inputs *)
Module ToyAead.
Definition tag (k n ad m : bytes) : bytes :=
  be_bytes 16 (wrap 128 (of_le k + 3 * of_le n + 7 * of_le ad + 31 * of_le m + 1)).

Definition encrypt (k n ad m : bytes) : option bytes :=
  if blen m <=? AEAD_MAX then Some (m ++ tag k n ad m) else None.

Definition decrypt (k n ad c : bytes) : option bytes :=
  let m := take (length c - 16) c in
  if bool_decide (c = m ++ tag k n ad m) then Some m else None.

#[export] Instance toy_aead : Aead := { aead_encrypt := encrypt; aead_decrypt := decrypt }.

Lemma length_tag k n ad m : length (tag k n ad m) = 16%nat.
Proof. apply length_be_bytes. Qed.

#[export] Instance toy_aead_ok : AeadOk.
Proof.
  split; simpl; unfold encrypt, decrypt, TAG_SIZE.
  - intros k n ad m c Hc. case_match; simplify_eq.
    assert (take (length (m ++ tag k n ad m) - 16) (m ++ tag k n ad m) = m) as Hm.
    { rewrite length_app, length_tag. apply take_app_length'. lia. }
    by rewrite Hm, bool_decide_eq_true_2.
  - intros k n ad m _ _ Hm. apply Z.leb_le in Hm. by rewrite Hm.
  - intros k n ad m c Hc. case_match; simplify_eq. rewrite blen_app. unfold blen at 2.
    by rewrite length_tag.
  - intros k n ad m c Hm Hc. case_match; simplify_eq. apply Forall_app. split; [done|].
    apply be_bytes_wf.
  - intros k n ad c m Hm. case_bool_decide as E; simplify_eq. rewrite E at 1.
    rewrite blen_app. unfold blen at 2. by rewrite length_tag.
  - intros k n ad c m Hc Hm. case_bool_decide; simplify_eq. by apply Forall_take.
Qed.
End ToyAead.

(** ** Toy instances of the other primitives *)
Module ToyCrypto.
(** The length and a polynomial of the bytes, as 32 bytes. *)
Definition digest (b : bytes) : bytes := be_bytes 32 (wrap 256 (1 + blen b + 257 * of_le b)).

#[export] Instance toy_sha256 : Sha256 := { sha256 := digest }.
#[export] Instance toy_sha256_ok : Sha256Ok.
Proof. split; intros; [exact (length_be_bytes 32 _)|exact (be_bytes_wf 32 _)]. Qed.

(** Diffie-Hellman in the additive group modulo 2^256: the "public key" of [a] is
    [3 a], the shared secret of [a] and [3 b] is [a * 3 b]. *)
#[export] Instance toy_x25519 : X25519 := {
  x_public := λ a, be_bytes 32 (wrap 256 (3 * of_be a));
  x_dh := λ a p, be_bytes 32 (wrap 256 (of_be a * of_be p))
}.
#[export] Instance toy_x25519_ok : X25519Ok.
Proof.
  split; intros; try exact (length_be_bytes 32 _); try exact (be_bytes_wf 32 _).
  unfold x_dh, x_public, toy_x25519. rewrite !of_be_be_bytes by by apply wrap_range.
  f_equal. unfold wrap. rewrite !Zmult_mod_idemp_r. f_equal. lia.
Qed.

#[export] Instance toy_ed25519 : Ed25519 := {
  ed_public := λ sk, be_bytes 32 (wrap 256 (5 * of_be sk));
  ed_sign := λ sk m, be_bytes 32 (wrap 256 (5 * of_be sk)) ++ m;
  ed_verify := λ pk m s, bool_decide (s = pk ++ m)
}.
#[export] Instance toy_ed25519_ok : Ed25519Ok.
Proof. split. intros sk m. apply bool_decide_eq_true_2. reflexivity. Qed.
End ToyCrypto.
