(* ===== verification/Session.v ===== *)
(** ceky-crypto/src/session.rs, [SecureSession]: the send counter, nonce
    construction, sealing and opening of payloads behind the replay window of
    [Replay], and the interleaving of concurrent calls on one session. *)
From S2P Require Import Prelude Bytes Replay CryptoTypes.

Local Open Scope Z_scope.

(** [SessionKeys] of noise.rs, what a finished handshake hands over. *)
Module SessionKeys.
Record t : Set := mk { send_key : bytes; recv_key : bytes; remote_static : bytes }.
End SessionKeys.

Module SecureSession.
Definition MAX_NONCE : Z := Z.shiftl 1 48 - 1.

Record t : Set := mk {
  send_cipher : bytes;
  recv_cipher : bytes;
  send_nonce : Z;
  recv_nonce_max : Z;
  replay_window : ReplayWindow.t;
  remote_static : bytes
}.

Definition from_keys (keys : SessionKeys.t) : result CryptoError t :=
  send_cipher ← ok_or (cipher_new (SessionKeys.send_key keys)) KeyGenerationFailed;
  recv_cipher ← ok_or (cipher_new (SessionKeys.recv_key keys)) KeyGenerationFailed;
  mret (mk send_cipher recv_cipher 0 0 ReplayWindow.new (SessionKeys.remote_static keys)).

(** [self.send_nonce.fetch_add(1, SeqCst)]: the old value; wraps at 2^64 *)
Definition fetch_add_send_nonce (s : t) : t * Z :=
  (mk (send_cipher s) (recv_cipher s) (wrap 64 (send_nonce s + 1)) (recv_nonce_max s)
      (replay_window s) (remote_static s), send_nonce s).

(** [self.recv_nonce_max.fetch_max(nonce_val, Relaxed)] *)
Definition fetch_max_recv_nonce (s : t) (nonce_val : Z) : t :=
  mk (send_cipher s) (recv_cipher s) (send_nonce s) (Z.max (recv_nonce_max s) nonce_val)
     (replay_window s) (remote_static s).

(** [self.replay_window.lock().unwrap().check_and_mark(nonce_val)] *)
Definition window_check (s : t) (nonce_val : Z) : t * bool :=
  let '(w, fresh) := ReplayWindow.check_and_mark (replay_window s) nonce_val in
  (mk (send_cipher s) (recv_cipher s) (send_nonce s) (recv_nonce_max s) w (remote_static s), fresh).

Definition build_nonce (counter : Z) : bytes := replicate 4 0 ++ le_bytes 8 counter.

Section Ops.
Context `{AE : !Aead}.

Definition encrypt (s : t) (plaintext : bytes) : t * result CryptoError (Z * bytes) :=
  let '(s, nonce_val) := fetch_add_send_nonce s in
  if MAX_NONCE <? nonce_val then (s, Err NonceOverflow)
  else
    let nonce := build_nonce nonce_val in
    match aead_encrypt (send_cipher s) nonce [] plaintext with
    | Some ciphertext => (s, Ok (nonce_val, ciphertext))
    | None => (s, Err HandshakeFailed)
    end.

Definition encrypt_with_ad (s : t) (plaintext ad : bytes) : t * result CryptoError (Z * bytes) :=
  let '(s, nonce_val) := fetch_add_send_nonce s in
  if MAX_NONCE <? nonce_val then (s, Err NonceOverflow)
  else
    let nonce := build_nonce nonce_val in
    match aead_encrypt (send_cipher s) nonce ad plaintext with
    | Some ciphertext => (s, Ok (nonce_val, ciphertext))
    | None => (s, Err HandshakeFailed)
    end.

Definition decrypt (s : t) (nonce_val : Z) (ciphertext : bytes) : t * result CryptoError bytes :=
  let '(s, fresh) := window_check s nonce_val in
  if negb fresh then (s, Err (ReplayDetected nonce_val))
  else
    let nonce := build_nonce nonce_val in
    match aead_decrypt (recv_cipher s) nonce [] ciphertext with
    | None => (s, Err DecryptionFailed)
    | Some plaintext => (fetch_max_recv_nonce s nonce_val, Ok plaintext)
    end.

Definition decrypt_with_ad (s : t) (nonce_val : Z) (ciphertext ad : bytes)
    : t * result CryptoError bytes :=
  let '(s, fresh) := window_check s nonce_val in
  if negb fresh then (s, Err (ReplayDetected nonce_val))
  else
    let nonce := build_nonce nonce_val in
    match aead_decrypt (recv_cipher s) nonce ad ciphertext with
    | None => (s, Err DecryptionFailed)
    | Some plaintext => (fetch_max_recv_nonce s nonce_val, Ok plaintext)
    end.

(** ** Sequences of calls *)
Fixpoint encrypt_all (s : t) (ms : list (bytes * bytes))
    : t * list (result CryptoError (Z * bytes)) :=
  match ms with
  | [] => (s, [])
  | (m, ad) :: ms =>
      let '(s, r) := encrypt_with_ad s m ad in
      let '(s, rs) := encrypt_all s ms in (s, r :: rs)
  end.

Fixpoint decrypt_all (s : t) (cs : list (Z * bytes * bytes)) : t * list (result CryptoError bytes) :=
  match cs with
  | [] => (s, [])
  | (n, c, ad) :: cs =>
      let '(s, r) := decrypt_with_ad s n c ad in
      let '(s, rs) := decrypt_all s cs in (s, r :: rs)
  end.
End Ops.

(** [encrypt] and [decrypt] are the calls with empty associated data. *)
Lemma encrypt_no_ad `{AE : !Aead} s m : encrypt s m = encrypt_with_ad s m [].
Proof. done. Qed.

Lemma decrypt_no_ad `{AE : !Aead} s n c : decrypt s n c = decrypt_with_ad s n c [].
Proof. done. Qed.

(** The counters that are ever used fit a [u64]. *)
Lemma counter_u64 n : 0 ≤ n ≤ MAX_NONCE + 1 → is_u64 n.
Proof.
  change MAX_NONCE with 281474976710655. unfold is_uint.
  change (2 ^ 64) with 18446744073709551616. lia.
Qed.

Lemma blen_build_nonce n : blen (build_nonce n) = 12.
Proof. unfold build_nonce, blen. by rewrite length_app, length_le_bytes. Qed.

Lemma build_nonce_inj m n : is_u64 m → is_u64 n → build_nonce m = build_nonce n → m = n.
Proof.
  intros Hm Hn H%app_inj_2; [|by rewrite !length_le_bytes]. destruct H as [_ H].
  apply (f_equal of_le) in H. by rewrite !of_le_le_bytes in H.
Qed.

(** ** A channel: one side seals, the other opens what arrives *)
Section Channel.
Context `{AE : !Aead, AOK : !AeadOk}.

(** What the wire may carry: message number [i] with its nonce and its
    associated data, for the numbers in [arr] (lost, repeated and reordered
    messages included). *)
Definition pick (ms : list (bytes * bytes)) (sealed : list (Z * bytes)) (arr : list nat)
    : list (Z * bytes * bytes) :=
  map (λ i, let '(n, c) := nth i sealed (0, []) in (n, c, (nth i ms ([], [])).2)) arr.

(** The result the receiver should give to message [i]. *)
Definition outcome (ms : list (bytes * bytes)) (n0 : Z) (i : nat) (fresh : bool)
    : result CryptoError bytes :=
  if fresh then Ok (nth i ms ([], [])).1 else Err (ReplayDetected (n0 + Z.of_nat i)).

(** Message number [i] is sealed under nonce [n0 + i]. *)
Definition sealed_as (key : bytes) (n : Z) (m : bytes * bytes) (c : Z * bytes) : Prop :=
  c.1 = n ∧ aead_encrypt key (build_nonce n) m.2 m.1 = Some c.2.

Lemma encrypt_with_ad_ok s m ad :
  blen (send_cipher s) = 32 → send_nonce s ≤ MAX_NONCE → blen m ≤ AEAD_MAX →
  ∃ c, encrypt_with_ad s m ad =
    (fst (fetch_add_send_nonce s), Ok (send_nonce s, c)) ∧
    sealed_as (send_cipher s) (send_nonce s) (m, ad) (send_nonce s, c).
Proof.
  intros Hk Hn Hm. unfold encrypt_with_ad, sealed_as. simpl.
  destruct (Z.ltb_spec MAX_NONCE (send_nonce s)); [lia|].
  destruct (aead_total (send_cipher s) (build_nonce (send_nonce s)) ad m) as [c Hc];
    [done|apply blen_build_nonce|done|].
  rewrite Hc. eauto.
Qed.

Lemma encrypt_all_ok ms s :
  blen (send_cipher s) = 32 → 0 ≤ send_nonce s →
  send_nonce s + blen ms ≤ MAX_NONCE + 1 →
  Forall (λ m, blen m.1 ≤ AEAD_MAX) ms →
  ∃ sealed, (encrypt_all s ms).2 = map Ok sealed ∧ length sealed = length ms ∧
    ∀ i, (i < length ms)%nat →
      sealed_as (send_cipher s) (send_nonce s + Z.of_nat i) (nth i ms ([], [])) (nth i sealed (0, [])).
Proof.
  revert s. induction ms as [|[m ad] ms IH]; intros s Hk H0 Hn Hms.
  { exists []. split_and!; [done..|]. simpl. lia. }
  apply Forall_cons in Hms as [Hm Hms]. unfold blen in Hn. simpl in Hn, Hm.
  destruct (encrypt_with_ad_ok s m ad) as (c & He & Hc); [done|lia|done|].
  destruct (IH (fst (fetch_add_send_nonce s))) as (sealed & Hr & Hl & Hall);
    [done|simpl; by apply wrap_range|simpl|done|].
  { rewrite wrap_small; [unfold blen; lia|]. apply counter_u64. lia. }
  exists ((send_nonce s, c) :: sealed). simpl encrypt_all. rewrite He.
  destruct (encrypt_all _ ms) as [s' rs]. simpl in Hr |- *. rewrite Hr, Hl.
  split_and!; [done..|]. intros [|i] Hi; [by rewrite Z.add_0_r|].
  specialize (Hall i ltac:(lia)). simpl in Hall. rewrite wrap_small in Hall.
  - by replace (send_nonce s + Z.of_nat (S i)) with (send_nonce s + 1 + Z.of_nat i) by lia.
  - apply counter_u64. lia.
Qed.

(** Opening one honest packet: delivered or refused exactly as the filter says. *)
Lemma decrypt_with_ad_spec H s n c m ad mx H' ok :
  ReplayWindow.refines H (replay_window s) → is_u64 n →
  aead_decrypt (recv_cipher s) (build_nonce n) ad c = Some m →
  ReplayWindow.spec_step (ReplayWindow.max_nonce (replay_window s)) H n = (mx, H', ok) →
  ∃ s', decrypt_with_ad s n c ad = (s', if ok then Ok m else Err (ReplayDetected n)) ∧
    recv_cipher s' = recv_cipher s ∧
    ReplayWindow.max_nonce (replay_window s') = mx ∧ ReplayWindow.refines H' (replay_window s').
Proof.
  intros Href Hn Hd Hs.
  destruct (ReplayWindow.check_and_mark_refines _ _ _ _ _ _ Href Hn Hs) as (w' & Hw & Hmx & Href').
  unfold decrypt_with_ad, window_check. rewrite Hw. destruct ok; simpl; [rewrite Hd|]; eauto 10.
Qed.

Lemma decrypt_all_spec ms sealed n0 arr H s :
  ReplayWindow.refines H (replay_window s) → 0 ≤ n0 →
  n0 + blen ms ≤ MAX_NONCE + 1 →
  (∀ i, (i < length ms)%nat →
    sealed_as (recv_cipher s) (n0 + Z.of_nat i) (nth i ms ([], [])) (nth i sealed (0, []))) →
  Forall (λ i, i < length ms)%nat arr →
  (decrypt_all s (pick ms sealed arr)).2 =
  zip_with (outcome ms n0) arr
    (ReplayWindow.spec_answers (ReplayWindow.max_nonce (replay_window s)) H
       (map (λ i, n0 + Z.of_nat i) arr)).
Proof.
  intros Href Hn0 Hb Hseal. revert H s Href Hseal.
  induction arr as [|i arr IH]; intros H s Href Hseal Harr; [done|].
  apply Forall_cons in Harr as [Hi Harr].
  pose proof (Hseal i Hi) as [Hnc Hc]. apply aead_correct in Hc. simpl.
  destruct (nth i sealed (0, [])) as [n c]. simpl in Hnc, Hc |- *. subst n.
  destruct (ReplayWindow.spec_step _ H _) as [[mx H'] ok] eqn:Hs.
  assert (is_u64 (n0 + Z.of_nat i)) as Hu.
  { apply counter_u64. unfold blen in Hb. lia. }
  destruct (decrypt_with_ad_spec _ _ _ _ _ _ _ _ _ Href Hu Hc Hs) as (s' & -> & Hrc & <- & Href').
  specialize (IH _ _ Href'). rewrite Hrc in IH. specialize (IH Hseal Harr).
  destruct (decrypt_all s' _) as [s'' rs]. simpl in IH |- *. rewrite IH.
  unfold outcome. by destruct ok.
Qed.

(** C21: over a channel that may lose, repeat and reorder messages, the receiver
    answers every arrival exactly as the replay filter says: the original
    plaintext when the filter accepts its nonce, [ReplayDetected] otherwise. *)
Theorem channel_delivery (a b : t) (ms : list (bytes * bytes)) (arr : list nat) :
  send_cipher a = recv_cipher b → blen (send_cipher a) = 32 →
  replay_window b = ReplayWindow.new →
  0 ≤ send_nonce a → send_nonce a + blen ms ≤ MAX_NONCE + 1 →
  Forall (λ m, blen m.1 ≤ AEAD_MAX) ms →
  Forall (λ i, i < length ms)%nat arr →
  ∃ sealed, (encrypt_all a ms).2 = map Ok sealed ∧ length sealed = length ms ∧
    (decrypt_all b (pick ms sealed arr)).2 =
    zip_with (outcome ms (send_nonce a)) arr
      (ReplayWindow.spec_answers 0 ∅ (map (λ i, send_nonce a + Z.of_nat i) arr)).
Proof.
  intros Hkey Hk Hw H0 Hb Hms Harr.
  destruct (encrypt_all_ok ms a Hk H0 Hb Hms) as (sealed & He & Hl & Hseal).
  exists sealed. split_and!; [done..|]. rewrite Hkey in Hseal.
  rewrite (decrypt_all_spec ms sealed (send_nonce a) arr ∅ b); rewrite ?Hw; try done.
  apply ReplayWindow.new_refines.
Qed.

(** The filter accepts every nonce of a sequence without repetitions in which
    none is overtaken by one that is 256 or more ahead. *)
Lemma spec_answers_all_true max H ns :
  NoDup ns → StronglySorted (λ x y, x - y < 256) ns →
  (∀ n, n ∈ ns → max - n < 256 ∧ n ∉ H) →
  ReplayWindow.spec_answers max H ns = replicate (length ns) true.
Proof.
  revert max H. induction ns as [|n ns IH]; intros max H Hnd Hs Hns; [done|].
  apply NoDup_cons in Hnd as [Hn Hnd]. apply StronglySorted_inv in Hs as [Hs Hall].
  rewrite Forall_forall in Hall. destruct (Hns n) as [Hmax HnH]; [by left|]. simpl.
  unfold ReplayWindow.spec_step. rewrite decide_True; [f_equal|].
  - apply IH; [done..|]. intros x Hx. destruct (Hns x) as [Hx1 Hx2]; [by right|].
    specialize (Hall x Hx). split; [lia|]. set_solver.
  - unfold ReplayWindow.spec_accepts, ReplayWindow.REPLAY_WINDOW_SIZE. destruct (decide (max < n)); [by left|].
    right. split_and!; [lia..|done].
Qed.

(** No message is lost to the replay filter when each arrives once and none
    is overtaken by a message 256 or more numbers ahead: every arrival is
    opened to its plaintext. *)
Lemma channel_reordering (a b : t) (ms : list (bytes * bytes)) (arr : list nat) :
  send_cipher a = recv_cipher b → blen (send_cipher a) = 32 →
  replay_window b = ReplayWindow.new →
  0 ≤ send_nonce a → send_nonce a + blen ms ≤ MAX_NONCE + 1 →
  Forall (λ m, blen m.1 ≤ AEAD_MAX) ms →
  Forall (λ i, i < length ms)%nat arr →
  NoDup arr → StronglySorted (λ i j, Z.of_nat i - Z.of_nat j < 256) arr →
  ∃ sealed, (encrypt_all a ms).2 = map Ok sealed ∧ length sealed = length ms ∧
    (decrypt_all b (pick ms sealed arr)).2 = map (λ i, Ok (nth i ms ([], [])).1) arr.
Proof.
  intros Hkey Hk Hw H0 Hb Hms Harr Hnd Hso.
  destruct (encrypt_all_ok ms a Hk H0 Hb Hms) as (sealed & He & Hl & Hseal).
  exists sealed. split_and!; [done..|]. rewrite Hkey in Hseal.
  rewrite (decrypt_all_spec ms sealed (send_nonce a) arr ∅ b);
    [|rewrite Hw; apply ReplayWindow.new_refines|done..]. rewrite Hw. simpl.
  rewrite spec_answers_all_true.
  - rewrite length_map. clear. induction arr; [done|]. simpl. by f_equal.
  - apply NoDup_fmap; [|done]. intros i j. lia.
  - clear -Hso. induction Hso as [|i arr _ IH Hall]; simpl; constructor; [done|].
    rewrite Forall_map. eapply Forall_impl; [exact Hall|]. simpl. lia.
  - intros n (i & -> & _)%list_elem_of_fmap. split; [lia|set_solver].
Qed.
End Channel.

(** The window is moved before the ciphertext is authenticated. One forged
    packet with a nonce 256 or more above a genuine one is answered
    [DecryptionFailed], and from then on the genuine packet, never seen before,
    is refused as a replay. *)
Lemma forged_nonce_blocks_genuine `{AE : !Aead} (H : gset Z) (s : t) (forged n : Z)
    (junk c ad ad' : bytes) :
  ReplayWindow.refines H (replay_window s) →
  ReplayWindow.max_nonce (replay_window s) < forged →
  ReplayWindow.REPLAY_WINDOW_SIZE ≤ forged - n →
  aead_decrypt (recv_cipher s) (build_nonce forged) ad' junk = None →
  let '(s', r) := decrypt_with_ad s forged junk ad' in
  r = Err DecryptionFailed ∧ (decrypt_with_ad s' n c ad).2 = Err (ReplayDetected n).
Proof.
  intros Href Hlt Hold Hbad. unfold decrypt_with_ad, window_check, ReplayWindow.check_and_mark.
  destruct (Z.ltb_spec (ReplayWindow.max_nonce (replay_window s)) forged); [|lia].
  simpl. rewrite Hbad. split; [done|]. cbn [replay_window ReplayWindow.max_nonce].
  destruct (Z.ltb_spec forged n); [unfold ReplayWindow.REPLAY_WINDOW_SIZE in *; lia|].
  by destruct (Z.leb_spec ReplayWindow.REPLAY_WINDOW_SIZE (forged - n)); [|lia].
Qed.
End SecureSession.

(** ** Concurrent calls on one session

    [&self] methods run in several tasks at once. Each call is its sequence of
    atomic actions: [encrypt_with_ad] takes a nonce ([fetch_add]) and then seals;
    [decrypt_with_ad] passes the window under its lock, then opens the
    ciphertext, then raises [recv_nonce_max]. Actions of different tasks
    interleave freely. *)
Module SessionConc.
Import SecureSession.

Inductive call : Set :=
| Sealing (nonce : Z) (plaintext ad : bytes)
| Opening (nonce : Z) (ciphertext ad : bytes)
| Opened (nonce : Z) (plaintext : bytes).

Record conf : Type := mkConf {
  ses : SecureSession.t;
  calls : gmap nat call;
  begun : Z;               (* encrypt calls begun *)
  sealed : list Z;         (* nonces given to the cipher for sealing *)
  delivered : list Z       (* nonces of the plaintexts returned *)
}.

Definition init (s : SecureSession.t) : conf := mkConf s ∅ 0 [] [].

Section Steps.
Context `{AE : !Aead}.

Inductive step : conf → conf → Prop :=
| StepTake c task pt ad s n :
    calls c !! task = None → fetch_add_send_nonce (ses c) = (s, n) → n ≤ MAX_NONCE →
    step c (mkConf s (<[task := Sealing n pt ad]> (calls c)) (begun c + 1) (sealed c) (delivered c))
| StepOverflow c task s n :
    calls c !! task = None → fetch_add_send_nonce (ses c) = (s, n) → MAX_NONCE < n →
    step c (mkConf s (calls c) (begun c + 1) (sealed c) (delivered c))
| StepSeal c task n pt ad :
    calls c !! task = Some (Sealing n pt ad) →
    step c (mkConf (ses c) (delete task (calls c)) (begun c) (n :: sealed c) (delivered c))
| StepPass c task n ct ad s :
    calls c !! task = None → is_u64 n → window_check (ses c) n = (s, true) →
    step c (mkConf s (<[task := Opening n ct ad]> (calls c)) (begun c) (sealed c) (delivered c))
| StepRefuse c task n s :
    calls c !! task = None → is_u64 n → window_check (ses c) n = (s, false) →
    step c (mkConf s (calls c) (begun c) (sealed c) (delivered c))
| StepOpen c task n ct ad pt :
    calls c !! task = Some (Opening n ct ad) →
    aead_decrypt (recv_cipher (ses c)) (build_nonce n) ad ct = Some pt →
    step c (mkConf (ses c) (<[task := Opened n pt]> (calls c)) (begun c) (sealed c) (delivered c))
| StepBad c task n ct ad :
    calls c !! task = Some (Opening n ct ad) →
    aead_decrypt (recv_cipher (ses c)) (build_nonce n) ad ct = None →
    step c (mkConf (ses c) (delete task (calls c)) (begun c) (sealed c) (delivered c))
| StepReturn c task n pt :
    calls c !! task = Some (Opened n pt) →
    step c (mkConf (fetch_max_recv_nonce (ses c) n) (delete task (calls c)) (begun c)
              (sealed c) (n :: delivered c)).
End Steps.

(** A call that runs alone is the function. *)
Lemma encrypt_alone `{AE : !Aead} c task pt ad n ct s' :
  calls c !! task = None → encrypt_with_ad (ses c) pt ad = (s', Ok (n, ct)) →
  rtc step c (mkConf s' (calls c) (begun c + 1) (n :: sealed c) (delivered c)).
Proof.
  intros Ht He. unfold encrypt_with_ad in He. simpl in He.
  destruct (Z.ltb_spec MAX_NONCE (send_nonce (ses c))); [done|].
  destruct (aead_encrypt _ _ _ _); simplify_eq.
  eapply rtc_l; [eapply (StepTake c task pt ad); [done|done|lia]|].
  eapply rtc_l; [eapply (StepSeal _ task); apply lookup_insert_eq|]. simpl.
  rewrite delete_insert_id by done. apply rtc_refl.
Qed.

Lemma decrypt_alone `{AE : !Aead} c task n ct ad pt s' :
  calls c !! task = None → is_u64 n → decrypt_with_ad (ses c) n ct ad = (s', Ok pt) →
  rtc step c (mkConf s' (calls c) (begun c) (sealed c) (n :: delivered c)).
Proof.
  intros Ht Hn Hd. unfold decrypt_with_ad in Hd.
  destruct (window_check (ses c) n) as [s b] eqn:Hw. destruct b; simpl in Hd; [|done].
  destruct (aead_decrypt _ _ _ _) eqn:Hopen; simplify_eq.
  eapply rtc_l; [by eapply (StepPass c task n ct ad)|].
  eapply rtc_l; [eapply (StepOpen _ task); [apply lookup_insert_eq|done]|].
  eapply rtc_l; [eapply (StepReturn _ task); apply lookup_insert_eq|]. simpl.
  rewrite insert_insert_eq, delete_insert_id by done. apply rtc_refl.
Qed.

(** ** Numbers claimed by pending calls and by finished ones *)
Definition sealing (c : call) : option Z :=
  match c with Sealing n _ _ => Some n | _ => None end.
Definition receiving (c : call) : option Z :=
  match c with Opening n _ _ | Opened n _ => Some n | _ => None end.

(** No number is claimed twice, and every claimed number satisfies [P]. *)
Record claims (P : Z → Prop) (pend : gmap nat Z) (don : list Z) : Prop := {
  cl_nodup : NoDup don;
  cl_done : ∀ n, n ∈ don → P n;
  cl_pend : ∀ i n, pend !! i = Some n → P n ∧ n ∉ don;
  cl_inj : ∀ i j n, pend !! i = Some n → pend !! j = Some n → i = j
}.

Lemma claims_empty P : claims P ∅ [].
Proof. split; [constructor|set_solver..]. Qed.

Lemma claims_mono (P Q : Z → Prop) pend don :
  (∀ n, P n → Q n) → claims P pend don → claims Q pend don.
Proof. intros HPQ [H1 H2 H3 H4]. split; naive_solver. Qed.

Lemma claims_take (P Q : Z → Prop) pend don i n :
  (∀ n, P n → Q n) → Q n → ¬ P n → claims P pend don → claims Q (<[i := n]> pend) don.
Proof.
  intros HPQ Hn HnP [H1 H2 H3 H4]. split; [done|by eauto|..].
  - intros j m. rewrite lookup_insert_Some. intros [[<- <-]|[_ Hj]]; [|naive_solver].
    split; [done|]. by intros ?%H2.
  - intros j k m. rewrite !lookup_insert_Some.
    intros [[<- <-]|[? Hj]] [[<- E]|[? Hk]]; simplify_eq; try done; [| |by eapply H4].
    + by apply H3 in Hk as [? _].
    + by apply H3 in Hj as [? _].
Qed.

Lemma claims_drop P pend don i : claims P pend don → claims P (delete i pend) don.
Proof.
  intros [H1 H2 H3 H4]. split; [done..| |]; setoid_rewrite lookup_delete_Some; naive_solver.
Qed.

Lemma claims_finish P pend don i n :
  pend !! i = Some n → claims P pend don → claims P (delete i pend) (n :: don).
Proof.
  intros Hi [H1 H2 H3 H4]. destruct (H3 i n Hi) as [HPn Hnew]. split.
  - by constructor.
  - intros m [->|Hm]%elem_of_cons; auto.
  - setoid_rewrite lookup_delete_Some. intros j m [Hij Hj]. destruct (H3 j m Hj) as [HPm Hm].
    split; [done|]. intros [->|?]%elem_of_cons; [|done]. by apply Hij, (H4 i j n).
  - setoid_rewrite lookup_delete_Some. naive_solver.
Qed.

(** Reachable configurations. *)
Record inv (c : conf) : Prop := {
  inv_begun : 0 ≤ begun c;
  inv_counter : send_nonce (ses c) = wrap 64 (begun c);
  inv_send : begun c ≤ 2 ^ 64 →
    claims (λ n, 0 ≤ n < begun c) (omap sealing (calls c)) (sealed c);
  inv_recv : ∃ H, ReplayWindow.refines H (replay_window (ses c)) ∧
    claims (λ n, n ∈ H) (omap receiving (calls c)) (delivered c)
}.

Lemma inv_init s :
  send_nonce s = 0 → replay_window s = ReplayWindow.new → inv (init s).
Proof.
  intros Hn Hw. split; simpl.
  - done.
  - done.
  - intros _. rewrite omap_empty. apply claims_empty.
  - exists ∅. rewrite Hw, omap_empty. split; [apply ReplayWindow.new_refines|apply claims_empty].
Qed.

Lemma counter_next (z : Z) : wrap 64 (wrap 64 z + 1) = wrap 64 (z + 1).
Proof. unfold wrap. by rewrite Zplus_mod_idemp_l. Qed.

Lemma window_check_refines H s n s' b :
  ReplayWindow.refines H (replay_window s) → is_u64 n → window_check s n = (s', b) →
  send_nonce s' = send_nonce s ∧
  (if b then (n ∉ H) ∧ ReplayWindow.refines ({[n]} ∪ H) (replay_window s')
  else ReplayWindow.refines H (replay_window s')).
Proof.
  intros Href Hn Hw. unfold window_check in Hw.
  destruct (ReplayWindow.spec_step (ReplayWindow.max_nonce (replay_window s)) H n)
    as [[mx H'] ok] eqn:Hs.
  destruct (ReplayWindow.check_and_mark_refines _ _ _ _ _ _ Href Hn Hs) as (w & Hcm & _ & Hrw).
  rewrite Hcm in Hw. simplify_eq. unfold ReplayWindow.spec_step in Hs.
  destruct (decide _) as [Ha|Ha]; simplify_eq; [|done].
  split; [done|]. split; [|done].
  destruct Ha as [Ha|(_ & _ & Ha)]; [|done].
  intros ?%(ReplayWindow.rf_below _ _ Href). lia.
Qed.

(** The receiving claims of a pending call as it advances. *)
Lemma receiving_same task c c' (m : gmap nat call) :
  m !! task = Some c → receiving c' = receiving c →
  omap receiving (<[task := c']> m) = omap receiving m.
Proof.
  intros Hm Hc. apply map_eq. intros i. rewrite !lookup_omap.
  destruct (decide (i = task)) as [->|]; [|by rewrite lookup_insert_ne].
  rewrite lookup_insert_eq, Hm. simpl. by rewrite Hc.
Qed.

Lemma omap_insert_None {A} (f : call → option A) (m : gmap nat call) i c :
  m !! i = None → f c = None → omap f (<[i := c]> m) = omap f m.
Proof.
  intros Hm Hc. apply map_eq. intros j. rewrite !lookup_omap.
  destruct (decide (j = i)) as [->|]; [|by rewrite lookup_insert_ne].
  rewrite lookup_insert_eq, Hm. simpl. by rewrite Hc.
Qed.

Lemma omap_same_None {A} (f : call → option A) (m : gmap nat call) i c c' :
  m !! i = Some c → f c = None → f c' = None → omap f (<[i := c']> m) = omap f m.
Proof.
  intros Hm Hc Hc'. apply map_eq. intros j. rewrite !lookup_omap.
  destruct (decide (j = i)) as [->|]; [|by rewrite lookup_insert_ne].
  rewrite lookup_insert_eq, Hm. simpl. by rewrite Hc, Hc'.
Qed.

Lemma inv_step `{AE : !Aead} c c' : inv c → step c c' → inv c'.
Proof.
  intros [Hb Hctr Hsend (H & Href & Hrecv)] Hstep.
  destruct Hstep as
    [c task pt ad s n Ht Hf Hle|c task s n Ht Hf Hgt|c task n pt ad Ht|c task n ct ad s Ht Hn Hw
    |c task n s Ht Hn Hw|c task n ct ad pt Ht Hd|c task n ct ad Ht Hd|c task n pt Ht].
  - injection Hf as <- <-. split; simpl; [lia| | |].
    + by rewrite Hctr, counter_next.
    + intros Hmax. rewrite (omap_insert_Some _ _ _ _ (send_nonce (ses c))) by done.
      rewrite Hctr, wrap_small in * by (unfold is_uint; lia).
      apply (claims_take (λ n, 0 ≤ n < begun c)); [intros; lia..|]. apply Hsend. lia.
    + exists H. by rewrite omap_insert_None.
  - injection Hf as <- <-. split; simpl; [lia|by rewrite Hctr, counter_next| |by exists H].
    intros Hmax. apply (claims_mono (λ n, 0 ≤ n < begun c)); [intros; lia|]. apply Hsend. lia.
  - split; simpl; [done..| |].
    + intros Hmax. rewrite omap_delete. apply claims_finish; [|by apply Hsend].
      by rewrite lookup_omap, Ht.
    + exists H. split; [done|]. rewrite omap_delete. by apply claims_drop.
  - destruct (window_check_refines _ _ _ _ _ Href Hn Hw) as [Hs [Hfresh Href']].
    split; simpl; [done|by rewrite Hs| |].
    + by rewrite omap_insert_None.
    + exists ({[n]} ∪ H). split; [done|]. rewrite (omap_insert_Some _ _ _ _ n) by done.
      apply (claims_take (λ n, n ∈ H)); [set_solver..|done].
  - destruct (window_check_refines _ _ _ _ _ Href Hn Hw) as [Hs Href'].
    split; simpl; [done|by rewrite Hs|done|by exists H].
  - split; simpl; [done..| |].
    + by rewrite (omap_same_None _ _ _ _ _ Ht).
    + exists H. by rewrite (receiving_same _ _ _ _ Ht).
  - split; simpl; [done..| |].
    + intros Hmax. rewrite omap_delete. by apply claims_drop, Hsend.
    + exists H. split; [done|]. rewrite omap_delete. by apply claims_drop.
  - split; simpl; [done..| |].
    + intros Hmax. rewrite omap_delete. by apply claims_drop, Hsend.
    + exists H. split; [done|]. rewrite omap_delete. apply claims_finish; [|done].
      by rewrite lookup_omap, Ht.
Qed.

Lemma inv_reachable `{AE : !Aead} c c' : rtc step c c' → inv c → inv c'.
Proof. induction 1; eauto using inv_step. Qed.

(** C15: in every interleaving of concurrent calls on a fresh session, up to 2^64
    [encrypt] calls, no two payloads are sealed under the same 12-byte nonce. *)
Theorem sealing_nonces_unique `{AE : !Aead} (s : SecureSession.t) (c : conf) :
  send_nonce s = 0 → replay_window s = ReplayWindow.new →
  rtc step (init s) c → begun c ≤ 2 ^ 64 →
  NoDup (map build_nonce (sealed c)).
Proof.
  intros Hn Hw Hr Hmax. destruct (inv_reachable _ _ Hr (inv_init s Hn Hw)) as [_ _ Hs _].
  destruct (Hs Hmax) as [Hnd Hlt _ _]. apply NoDup_fmap_2_strong; [|done].
  intros x y Hx%Hlt Hy%Hlt. apply build_nonce_inj; unfold is_uint; lia.
Qed.

(** C14: in every interleaving of concurrent calls on a fresh session, no nonce is
    delivered twice: whatever an attacker replays, and in how many tasks at
    once, at most one [decrypt] call returns a plaintext for it. *)
Theorem deliveries_unique `{AE : !Aead} (s : SecureSession.t) (c : conf) :
  send_nonce s = 0 → replay_window s = ReplayWindow.new →
  rtc step (init s) c → NoDup (delivered c).
Proof.
  intros Hn Hw Hr. destruct (inv_reachable _ _ Hr (inv_init s Hn Hw)) as [_ _ _ (H & _ & Hd)].
  apply Hd.
Qed.
End SessionConc.

Module SessionWitness.
Import SecureSession SessionConc ToyAead.

Definition key_a : bytes := replicate 32 66.
Definition key_b : bytes := replicate 32 132.
Definition alice : SecureSession.t := mk key_a key_b 0 0 ReplayWindow.new [].
Definition bob : SecureSession.t := mk key_b key_a 0 0 ReplayWindow.new [].
Definition messages : list (bytes * bytes) := [([1; 2; 3], []); ([], [9]); ([7], [8]); ([4], [])].

Lemma channel_delivery_witness :
  (decrypt_all bob (pick messages
     [(0, [1; 2; 3] ++ tag key_a (build_nonce 0) [] [1; 2; 3])] [0; 0]%nat)).2 =
  [Ok [1; 2; 3]; Err (ReplayDetected 0)] ∧
  ∃ sealed, (encrypt_all alice messages).2 = map Ok sealed ∧ length sealed = length messages ∧
    (decrypt_all bob (pick messages sealed [2; 0; 2; 3]%nat)).2 =
    zip_with (outcome messages 0) [2; 0; 2; 3]%nat
      (ReplayWindow.spec_answers 0 ∅ (map (λ i, 0 + Z.of_nat i) [2; 0; 2; 3]%nat)).
Proof.
  split; [vm_compute; reflexivity|].
  apply (channel_delivery alice bob messages [2; 0; 2; 3]%nat); try done; decide_now.
Defined.

Lemma channel_reordering_witness :
  ∃ sealed, (encrypt_all alice messages).2 = map Ok sealed ∧ length sealed = length messages ∧
    (decrypt_all bob (pick messages sealed [2; 0; 3; 1]%nat)).2 = [Ok [7]; Ok [1; 2; 3]; Ok [4]; Ok []].
Proof.
  apply (channel_reordering alice bob messages [2; 0; 3; 1]%nat); try done; decide_now.
Defined.

Lemma forged_nonce_blocks_genuine_witness :
  (decrypt_with_ad bob 1000 [] []).2 = Err DecryptionFailed ∧
  (decrypt_with_ad (decrypt_with_ad bob 1000 [] []).1 0
     ([1] ++ tag key_a (build_nonce 0) [] [1]) []).2 = Err (ReplayDetected 0) ∧
  (decrypt_with_ad bob 0 ([1] ++ tag key_a (build_nonce 0) [] [1]) []).2 = Ok [1].
Proof.
  pose proof (forged_nonce_blocks_genuine ∅ bob 1000 0 []
    ([1] ++ tag key_a (build_nonce 0) [] [1]) [] []) as Hf.
  destruct (decrypt_with_ad bob 1000 [] []) as [s' r] eqn:E.
  destruct Hf as [-> Hr]; [apply ReplayWindow.new_refines|done|done|vm_compute; reflexivity|].
  split_and!; [done|exact Hr|vm_compute; reflexivity].
Defined.

(** Two tasks seal at the same time, in crossed order. *)
Definition crossed : conf :=
  mkConf (mk key_a key_b 2 0 ReplayWindow.new []) ∅ 2 [0; 1] [].

Lemma crossed_reachable : rtc step (init alice) crossed.
Proof.
  eapply rtc_l; [by eapply (StepTake _ 1 [5] [])|]. simpl.
  eapply rtc_l; [by eapply (StepTake _ 2 [6] [])|]. simpl.
  eapply rtc_l; [by eapply (StepSeal _ 2)|]. simpl.
  eapply rtc_l; [by eapply (StepSeal _ 1)|]. simpl.
  apply rtc_refl.
Qed.

Lemma sealing_nonces_unique_witness : NoDup (map build_nonce (sealed crossed)).
Proof.
  apply (sealing_nonces_unique alice crossed); [done|done|apply crossed_reachable|done].
Defined.

(** The same packet opened in two tasks at once: one is refused. *)
Definition replayed : conf :=
  mkConf (mk key_b key_a 0 0 (ReplayWindow.mk 0 [1; 0; 0; 0]) []) ∅ 0 [] [0].

Lemma replayed_reachable : rtc step (init bob) replayed.
Proof.
  eapply rtc_l; [by eapply (StepPass _ 1 0 ([1] ++ tag key_a (build_nonce 0) [] [1]) [])|]. simpl.
  eapply rtc_l; [by eapply (StepRefuse _ 2 0)|]. simpl.
  eapply rtc_l; [eapply (StepOpen _ 1); [done|vm_compute; reflexivity]|]. simpl.
  eapply rtc_l; [by eapply (StepReturn _ 1)|]. simpl.
  apply rtc_refl.
Qed.

Lemma deliveries_unique_witness : NoDup (delivered replayed).
Proof. apply (deliveries_unique bob replayed); [done|done|apply replayed_reachable]. Defined.
End SessionWitness.
