(* ===== verification/Wire.v ===== *)
(** Message formats in general: what an encoder and a decoder of one message
    type owe each other ([Wire], [WireOk]), and the laws by which the decoders
    of ceky-protocol are run on an encoding and inverted on arbitrary input. *)
From S2P Require Import Prelude Bytes.

Local Open Scope Z_scope.

(** A message type with its encoder, its decoder and the values it can carry. *)
Class Wire (E A : Type) : Type := {
  wire_encode : A → bytes;
  wire_decode : bytes → result E A;
  wire_wf : A → Prop
}.

(** Every carried value comes back from its encoding; decoding never panics, and
    on real bytes it only produces values that can be carried. *)
Class WireOk (E A : Type) `{W : !Wire E A} : Prop := {
  wire_roundtrip : ∀ a, wire_wf a → wire_decode (wire_encode a) = Ok a;
  wire_safe : ∀ b, wire_decode b ≠ Panic;
  wire_sound : ∀ b a, bytes_wf b → wire_decode b = Ok a → wire_wf a
}.

(** ** Running a decoder on an encoding *)
Section Run.
Context {E B : Type}.

Lemma bind_ensure short n (f : unit → parser E B) b :
  n ≤ blen b → pbind (ensure short n) f b = f tt b.
Proof. intros. by apply pbind_ok, ensure_ok. Qed.

Lemma bind_uint n z (f : Z → parser E B) rest :
  is_uint (8 * Z.of_nat n) z → pbind (get_uint n) f (be_bytes n z ++ rest) = f z rest.
Proof. intros. by apply pbind_ok, get_uint_be. Qed.

Lemma bind_slice n s (f : bytes → parser E B) rest :
  blen s = n → pbind (get_slice n) f (s ++ rest) = f s rest.
Proof. intros. by apply pbind_ok, get_slice_app. Qed.

Lemma bind_slice_end n s (f : bytes → parser E B) :
  blen s = n → pbind (get_slice n) f s = f s [].
Proof. intros <-. apply pbind_ok, get_slice_all. Qed.

Lemma bind_rest (f : bytes → parser E B) b :
  pbind remaining (λ n, pbind (get_slice n) f) b = f b [].
Proof. unfold pbind at 1, remaining. simpl. by apply bind_slice_end. Qed.

Lemma bind_lift_ok {A} (a : A) (f : A → parser E B) r b :
  r = Ok a → pbind (plift r) f b = f a b.
Proof. by intros ->. Qed.

Lemma bind_guard c (e : E) (f : unit → parser E B) b :
  c = false → pbind (plift (guard_err c e)) f b = f tt b.
Proof. by intros ->. Qed.
End Run.

Lemma run_eq {E A} (p : parser E A) b a rest : p b = Ok (a, rest) → run p b = Ok a.
Proof. intros H. unfold run. by rewrite H. Qed.

(** Lengths of encodings. *)
Ltac blen_lia := rewrite ?blen_app, ?blen_be_bytes; unfold blen in *; simpl; lia.

(** ** Values returned on arbitrary input *)
Definition preturns {E A} (P : A → Prop) (p : parser E A) : Prop :=
  ∀ b a b', bytes_wf b → p b = Ok (a, b') → P a ∧ bytes_wf b'.

Section Returns.
Context {E : Type}.

Lemma preturns_bind {A B} P Q (p : parser E A) (f : A → parser E B) :
  preturns P p → (∀ a, P a → preturns Q (f a)) → preturns Q (pbind p f).
Proof.
  intros Hp Hf b c b' Hb H. unfold pbind in H.
  destruct (p b) as [[a b1]| |] eqn:E1; [|done..].
  destruct (Hp _ _ _ Hb E1) as [Ha Hb1]. by eapply Hf.
Qed.

Lemma preturns_ret {A} (P : A → Prop) (a : A) : P a → preturns P (pret (E:=E) a).
Proof. intros Ha b x b' Hb [= <- <-]. done. Qed.

Lemma preturns_plift_bind {A B} Q (r : result E A) (f : A → parser E B) :
  (∀ a, r = Ok a → preturns Q (f a)) → preturns Q (pbind (plift r) f).
Proof.
  intros Hr b a b' Hb H. unfold pbind, plift in H. destruct r; [|done..]. by eapply Hr.
Qed.

Lemma preturns_uint n : preturns (is_uint (8 * Z.of_nat n)) (get_uint (E:=E) n).
Proof.
  intros b a b' Hb H. unfold get_uint in H. case_match eqn:Hl; simplify_eq.
  apply Nat.ltb_ge in Hl. split; [|by apply Forall_drop].
  pose proof (of_be_range (take n b) (Forall_take _ _ _ Hb)) as Hr.
  unfold blen in Hr. by rewrite length_take, Nat.min_l in Hr.
Qed.

Lemma preturns_slice n : 0 ≤ n →
  preturns (λ s, blen s = n ∧ bytes_wf s) (get_slice (E:=E) n).
Proof.
  intros Hn b a b' Hb H. unfold get_slice in H. case_match eqn:Hl; simplify_eq.
  apply Z.ltb_ge in Hl. split_and!; [|by apply Forall_take|by apply Forall_drop].
  by apply blen_take.
Qed.

Lemma preturns_ensure short n : preturns (λ _, True) (ensure (E:=E) short n).
Proof. intros b a b' Hb H. unfold ensure in H. case_match; by simplify_eq. Qed.

Lemma preturns_remaining : preturns (λ n, 0 ≤ n) (remaining (E:=E)).
Proof. intros b a b' Hb [= <- <-]. split; [apply blen_nonneg|done]. Qed.

Lemma run_returns {A} P (p : parser E A) b a :
  preturns P p → bytes_wf b → run p b = Ok a → P a.
Proof.
  intros Hp Hb H. unfold run in H. destruct (p b) as [[x b']| |] eqn:E1; simplify_eq/=.
  by destruct (Hp _ _ _ Hb E1).
Qed.
End Returns.

(** Walk through a decoder collecting what is known of the values read. *)
Ltac preturns_tac :=
  repeat first
    [ eapply preturns_bind; [apply preturns_ensure | intros ? _]
    | eapply preturns_bind; [apply preturns_uint | intros ? ?]
    | eapply preturns_bind; [apply preturns_slice; (lia || (unfold is_uint in *; lia)) | intros ? [? ?]]
    | eapply preturns_bind; [apply preturns_remaining | intros ? ?]
    | apply preturns_plift_bind; intros ? ?
    | apply preturns_ret ].
