(* ===== verification/TransferMsg.v ===== *)
(** ceky-protocol/src/transfer.rs: the file transfer messages, their encoders
    and decoders, the chunk bitmap and the chunk count. *)
From stdpp Require Import strings.
From S2P Require Import Prelude Bytes Wire.

Local Open Scope Z_scope.
Local Open Scope parser_scope.

Definition TRANSFER_VERSION : Z := 1.
Definition TRANSFER_ID_LEN : Z := 16.
Definition FILE_HASH_LEN : Z := 32.
Definition MAX_FILE_NAME_LEN : Z := 255.

Module TransferError.
Inductive t : Set :=
| UnsupportedVersion (version : Z)
| BufferTooShort (needed got : Z)
| InvalidField (field : string)
| InvalidFileName
| UnknownEnum (field : string) (value : Z).
End TransferError.

Abbreviation tparser := (parser TransferError.t).
Abbreviation tresult := (result TransferError.t).

(** A UTF-8 string is the byte string [str::from_utf8] accepts: well-formed
    sequences only, no overlong forms, no surrogates, nothing above U+10FFFF. *)
Definition in_range (lo hi b : Z) : bool := (lo <=? b) && (b <=? hi).
Definition cont (b : Z) : bool := in_range 0x80 0xBF b.

Fixpoint utf8_valid (s : bytes) : bool :=
  match s with
  | [] => true
  | b0 :: s0 =>
      if in_range 0x00 0x7F b0 then utf8_valid s0
      else
        match s0 with
        | b1 :: s1 =>
            if in_range 0xC2 0xDF b0 && cont b1 then utf8_valid s1
            else
              match s1 with
              | b2 :: s2 =>
                  if ((b0 =? 0xE0) && in_range 0xA0 0xBF b1
                      || in_range 0xE1 0xEC b0 && cont b1
                      || (b0 =? 0xED) && in_range 0x80 0x9F b1
                      || in_range 0xEE 0xEF b0 && cont b1) && cont b2
                  then utf8_valid s2
                  else
                    match s2 with
                    | b3 :: s3 =>
                        if ((b0 =? 0xF0) && in_range 0x90 0xBF b1
                            || in_range 0xF1 0xF3 b0 && cont b1
                            || (b0 =? 0xF4) && in_range 0x80 0x8F b1) && cont b2 && cont b3
                        then utf8_valid s3
                        else false
                    | [] => false
                    end
              | [] => false
              end
        | [] => false
        end
  end.

Definition from_utf8 {E} (e : E) (s : bytes) : result E bytes :=
  if utf8_valid s then Ok s else Err e.

(** ** Helpers of the decoders *)
Definition ensure_remaining (needed : Z) : tparser unit := ensure TransferError.BufferTooShort needed.

Definition check_version (version : Z) : tresult unit :=
  guard_err (negb (version =? TRANSFER_VERSION)) (TransferError.UnsupportedVersion version).

Module TransferId.
(** [TransferId([u8; 16])] *)
Definition t : Set := bytes.
Definition from_bytes (b : bytes) : t := b.
Definition from_u128 (value : Z) : t := be_bytes 16 value.
Definition to_u128 (id : t) : Z := of_be id.
Definition as_bytes (id : t) : bytes := id.

Definition wf (id : t) : Prop := blen id = TRANSFER_ID_LEN ∧ bytes_wf id.
End TransferId.

Definition read_transfer_id : tparser TransferId.t :=
  ensure_remaining TRANSFER_ID_LEN ;;;
  id <-- get_slice TRANSFER_ID_LEN ;;
  pret (TransferId.from_bytes id).

Definition read_fixed (N : Z) : tparser bytes :=
  ensure_remaining N ;;;
  data <-- get_slice N ;;
  pret data.

Definition compute_total_chunks (file_size chunk_size : Z) : Z :=
  if (file_size =? 0) || (chunk_size =? 0) then 0
  else let size := chunk_size in wrap 32 ((file_size - 1) / size + 1).

(** ** Messages *)
Module FileOffer.
Record t : Set := mk {
  transfer_id : TransferId.t;
  file_name : bytes;
  file_size : Z;
  chunk_size : Z;
  total_chunks : Z;
  file_hash : bytes
}.

Definition new (transfer_id : TransferId.t) (file_name : bytes) (file_size chunk_size : Z)
    (file_hash : bytes) : tresult t :=
  if chunk_size =? 0 then Err (TransferError.InvalidField "chunk_size")
  else if MAX_FILE_NAME_LEN <? blen file_name then Err (TransferError.InvalidField "file_name")
  else
    let total_chunks := compute_total_chunks file_size chunk_size in
    Ok (mk transfer_id file_name file_size chunk_size total_chunks file_hash).

Definition encode (m : t) : bytes :=
  let name_bytes := file_name m in
  be_bytes 1 TRANSFER_VERSION ++ TransferId.as_bytes (transfer_id m) ++
  be_bytes 8 (file_size m) ++ be_bytes 4 (chunk_size m) ++ be_bytes 4 (total_chunks m) ++
  file_hash m ++ be_bytes 2 (blen name_bytes) ++ name_bytes.

Definition decoder : tparser t :=
  ensure_remaining (1 + TRANSFER_ID_LEN + 8 + 4 + 4 + FILE_HASH_LEN + 2) ;;;
  version <-- get_uint 1 ;;
  plift (check_version version) ;;;
  transfer_id <-- read_transfer_id ;;
  file_size <-- get_uint 8 ;;
  chunk_size <-- get_uint 4 ;;
  total_chunks <-- get_uint 4 ;;
  file_hash <-- read_fixed FILE_HASH_LEN ;;
  name_len <-- get_uint 2 ;;
  plift (guard_err (MAX_FILE_NAME_LEN <? name_len) (TransferError.InvalidField "file_name")) ;;;
  ensure_remaining name_len ;;;
  name_bytes <-- get_slice name_len ;;
  file_name <-- plift (from_utf8 TransferError.InvalidFileName name_bytes) ;;
  plift (guard_err (chunk_size =? 0) (TransferError.InvalidField "chunk_size")) ;;;
  pret (mk transfer_id file_name file_size chunk_size total_chunks file_hash).

Definition decode (payload : bytes) : tresult t := run decoder payload.

(** The field types of the struct and the limits [new] and [decode] impose. *)
Record wf (m : t) : Prop := {
  wf_id : TransferId.wf (transfer_id m);
  wf_name : bytes_wf (file_name m) ∧ utf8_valid (file_name m) = true ∧
            blen (file_name m) ≤ MAX_FILE_NAME_LEN;
  wf_size : is_u64 (file_size m);
  wf_chunk : is_u32 (chunk_size m) ∧ chunk_size m ≠ 0;
  wf_total : is_u32 (total_chunks m);
  wf_hash : blen (file_hash m) = FILE_HASH_LEN ∧ bytes_wf (file_hash m)
}.
End FileOffer.

Module FileAccept.
Record t : Set := mk { transfer_id : TransferId.t; resume : bool; missing_bitmap : bytes }.

Definition new (transfer_id : TransferId.t) (missing_bitmap : bytes) : t :=
  let resume := negb (bool_decide (missing_bitmap = [])) in
  mk transfer_id resume missing_bitmap.

Definition encode (m : t) : bytes :=
  be_bytes 1 TRANSFER_VERSION ++ TransferId.as_bytes (transfer_id m) ++
  be_bytes 1 (if resume m then 1 else 0) ++ be_bytes 4 (blen (missing_bitmap m)) ++
  missing_bitmap m.

Definition decoder : tparser t :=
  ensure_remaining (1 + TRANSFER_ID_LEN + 1 + 4) ;;;
  version <-- get_uint 1 ;;
  plift (check_version version) ;;;
  transfer_id <-- read_transfer_id ;;
  resume_byte <-- get_uint 1 ;;
  let resume := negb (resume_byte =? 0) in
  bitmap_len <-- get_uint 4 ;;
  plift (guard_err (negb resume && negb (bitmap_len =? 0))
           (TransferError.InvalidField "missing_bitmap")) ;;;
  ensure_remaining bitmap_len ;;;
  missing_bitmap <-- get_slice bitmap_len ;;
  pret (mk transfer_id resume missing_bitmap).

Definition decode (payload : bytes) : tresult t := run decoder payload.

Record wf (m : t) : Prop := {
  wf_id : TransferId.wf (transfer_id m);
  wf_bitmap : bytes_wf (missing_bitmap m) ∧ is_u32 (blen (missing_bitmap m));
  wf_resume : resume m = false → missing_bitmap m = []
}.
End FileAccept.

Module FileRejectReason.
Inductive t : Set := Declined | Busy | NotFound | Protocol | Internal.

Definition as_u8 (r : t) : Z :=
  match r with Declined => 1 | Busy => 2 | NotFound => 3 | Protocol => 4 | Internal => 5 end.

Definition from_byte (value : Z) : tresult t :=
  match value with
  | 1 => Ok Declined
  | 2 => Ok Busy
  | 3 => Ok NotFound
  | 4 => Ok Protocol
  | 5 => Ok Internal
  | other => Err (TransferError.UnknownEnum "FileRejectReason" other)
  end.
End FileRejectReason.

Module FileReject.
Record t : Set := mk { transfer_id : TransferId.t; reason : FileRejectReason.t }.

Definition encode (m : t) : bytes :=
  be_bytes 1 TRANSFER_VERSION ++ TransferId.as_bytes (transfer_id m) ++
  be_bytes 1 (FileRejectReason.as_u8 (reason m)).

Definition decoder : tparser t :=
  ensure_remaining (1 + TRANSFER_ID_LEN + 1) ;;;
  version <-- get_uint 1 ;;
  plift (check_version version) ;;;
  transfer_id <-- read_transfer_id ;;
  reason_byte <-- get_uint 1 ;;
  reason <-- plift (FileRejectReason.from_byte reason_byte) ;;
  pret (mk transfer_id reason).

Definition decode (payload : bytes) : tresult t := run decoder payload.

Definition wf (m : t) : Prop := TransferId.wf (transfer_id m).
End FileReject.

Module FileChunk.
Record t : Set := mk {
  transfer_id : TransferId.t; chunk_index : Z; chunk_hash : bytes; data : bytes
}.

Definition encode (m : t) : bytes :=
  be_bytes 1 TRANSFER_VERSION ++ TransferId.as_bytes (transfer_id m) ++
  be_bytes 4 (chunk_index m) ++ chunk_hash m ++ data m.

Definition decoder : tparser t :=
  ensure_remaining (1 + TRANSFER_ID_LEN + 4 + FILE_HASH_LEN) ;;;
  version <-- get_uint 1 ;;
  plift (check_version version) ;;;
  transfer_id <-- read_transfer_id ;;
  chunk_index <-- get_uint 4 ;;
  chunk_hash <-- read_fixed FILE_HASH_LEN ;;
  n <-- remaining ;;
  data <-- get_slice n ;;
  pret (mk transfer_id chunk_index chunk_hash data).

Definition decode (payload : bytes) : tresult t := run decoder payload.

Record wf (m : t) : Prop := {
  wf_id : TransferId.wf (transfer_id m);
  wf_index : is_u32 (chunk_index m);
  wf_hash : blen (chunk_hash m) = FILE_HASH_LEN ∧ bytes_wf (chunk_hash m);
  wf_data : bytes_wf (data m)
}.
End FileChunk.

Module ChunkAckStatus.
Inductive t : Set := StatusOk | BadHash | Cancelled.

Definition as_u8 (s : t) : Z := match s with StatusOk => 0 | BadHash => 1 | Cancelled => 2 end.

Definition from_byte (value : Z) : tresult t :=
  match value with
  | 0 => Ok StatusOk
  | 1 => Ok BadHash
  | 2 => Ok Cancelled
  | other => Err (TransferError.UnknownEnum "ChunkAckStatus" other)
  end.
End ChunkAckStatus.

Module FileChunkAck.
Record t : Set := mk { transfer_id : TransferId.t; chunk_index : Z; status : ChunkAckStatus.t }.

Definition encode (m : t) : bytes :=
  be_bytes 1 TRANSFER_VERSION ++ TransferId.as_bytes (transfer_id m) ++
  be_bytes 4 (chunk_index m) ++ be_bytes 1 (ChunkAckStatus.as_u8 (status m)).

Definition decoder : tparser t :=
  ensure_remaining (1 + TRANSFER_ID_LEN + 4 + 1) ;;;
  version <-- get_uint 1 ;;
  plift (check_version version) ;;;
  transfer_id <-- read_transfer_id ;;
  chunk_index <-- get_uint 4 ;;
  status_byte <-- get_uint 1 ;;
  status <-- plift (ChunkAckStatus.from_byte status_byte) ;;
  pret (mk transfer_id chunk_index status).

Definition decode (payload : bytes) : tresult t := run decoder payload.

Definition wf (m : t) : Prop := TransferId.wf (transfer_id m) ∧ is_u32 (chunk_index m).
End FileChunkAck.

Module FileComplete.
Record t : Set := mk { transfer_id : TransferId.t; file_hash : bytes }.

Definition encode (m : t) : bytes :=
  be_bytes 1 TRANSFER_VERSION ++ TransferId.as_bytes (transfer_id m) ++ file_hash m.

Definition decoder : tparser t :=
  ensure_remaining (1 + TRANSFER_ID_LEN + FILE_HASH_LEN) ;;;
  version <-- get_uint 1 ;;
  plift (check_version version) ;;;
  transfer_id <-- read_transfer_id ;;
  file_hash <-- read_fixed FILE_HASH_LEN ;;
  pret (mk transfer_id file_hash).

Definition decode (payload : bytes) : tresult t := run decoder payload.

Definition wf (m : t) : Prop :=
  TransferId.wf (transfer_id m) ∧ blen (file_hash m) = FILE_HASH_LEN ∧ bytes_wf (file_hash m).
End FileComplete.

Module FileCancelReason.
Inductive t : Set := User | Error | Timeout.

Definition as_u8 (r : t) : Z := match r with User => 1 | Error => 2 | Timeout => 3 end.

Definition from_byte (value : Z) : tresult t :=
  match value with
  | 1 => Ok User
  | 2 => Ok Error
  | 3 => Ok Timeout
  | other => Err (TransferError.UnknownEnum "FileCancelReason" other)
  end.
End FileCancelReason.

Module FileCancel.
Record t : Set := mk { transfer_id : TransferId.t; reason : FileCancelReason.t }.

Definition encode (m : t) : bytes :=
  be_bytes 1 TRANSFER_VERSION ++ TransferId.as_bytes (transfer_id m) ++
  be_bytes 1 (FileCancelReason.as_u8 (reason m)).

Definition decoder : tparser t :=
  ensure_remaining (1 + TRANSFER_ID_LEN + 1) ;;;
  version <-- get_uint 1 ;;
  plift (check_version version) ;;;
  transfer_id <-- read_transfer_id ;;
  reason_byte <-- get_uint 1 ;;
  reason <-- plift (FileCancelReason.from_byte reason_byte) ;;
  pret (mk transfer_id reason).

Definition decode (payload : bytes) : tresult t := run decoder payload.

Definition wf (m : t) : Prop := TransferId.wf (transfer_id m).
End FileCancel.

(** ** Chunk bitmaps *)
Definition bitmap_len (chunk_count : Z) : Z := (chunk_count + 7) / 8.

Definition bitmap_is_missing (bitmap : bytes) (chunk_index : Z) : bool :=
  let byte_index := chunk_index / 8 in
  let bit_index := chunk_index mod 8 in
  match bitmap !! Z.to_nat byte_index with
  | None => false
  | Some byte => negb (Z.land byte (Z.shiftl 1 bit_index) =? 0)
  end.

(** The new contents of the slice; [!mask] is the complement within 8 bits. *)
Definition bitmap_set_missing (bitmap : bytes) (chunk_index : Z) (missing : bool) : bytes :=
  let byte_index := chunk_index / 8 in
  let bit_index := chunk_index mod 8 in
  match bitmap !! Z.to_nat byte_index with
  | None => bitmap
  | Some byte =>
      let mask := wrap 8 (Z.shiftl 1 bit_index) in
      if missing
      then <[Z.to_nat byte_index := Z.lor byte mask]> bitmap
      else <[Z.to_nat byte_index := Z.land byte (Z.lxor 255 mask)]> bitmap
  end.

#[local] Opaque be_bytes.

(** ** Laws of the helpers *)
Section Helpers.
Context {B : Type}.

Lemma bind_read_id id (f : TransferId.t → tparser B) rest :
  blen id = TRANSFER_ID_LEN → pbind read_transfer_id f (id ++ rest) = f id rest.
Proof.
  intros Hid. unfold TRANSFER_ID_LEN in *. apply pbind_ok. unfold read_transfer_id, ensure_remaining, TRANSFER_ID_LEN.
  rewrite bind_ensure, bind_slice; [done|done|]. rewrite blen_app. pose proof (blen_nonneg rest). lia.
Qed.

Lemma bind_read_fixed N s (f : bytes → tparser B) rest :
  blen s = N → pbind (read_fixed N) f (s ++ rest) = f s rest.
Proof.
  intros Hs. apply pbind_ok. unfold read_fixed, ensure_remaining.
  rewrite bind_ensure, bind_slice; [done|done|]. rewrite blen_app. pose proof (blen_nonneg rest). lia.
Qed.

Lemma bind_read_fixed_end N s (f : bytes → tparser B) :
  blen s = N → pbind (read_fixed N) f s = f s [].
Proof. intros. rewrite <- (app_nil_r s) at 1. by apply bind_read_fixed. Qed.

Lemma psafe_read_id_bind k (f : TransferId.t → tparser B) :
  (∀ v, psafe (Z.max k TRANSFER_ID_LEN - TRANSFER_ID_LEN) (f v)) → psafe k (pbind read_transfer_id f).
Proof.
  intros Hf b Hb. unfold read_transfer_id, ensure_remaining, TRANSFER_ID_LEN, pbind at 1 2, ensure.
  destruct (Z.ltb_spec (blen b) 16); [done|]. unfold pbind, get_slice.
  destruct (Z.ltb_spec (blen b) 16); [lia|]. apply Hf.
  unfold TRANSFER_ID_LEN, blen in *. rewrite length_drop. lia.
Qed.

Lemma psafe_read_fixed_bind N k (f : bytes → tparser B) :
  0 ≤ N → (∀ v, psafe (Z.max k N - N) (f v)) → psafe k (pbind (read_fixed N) f).
Proof.
  intros HN Hf b Hb. unfold read_fixed, ensure_remaining, pbind at 1 2, ensure.
  destruct (Z.ltb_spec (blen b) N); [done|]. unfold pbind, get_slice.
  destruct (Z.ltb_spec (blen b) N); [lia|]. apply Hf.
  unfold blen in *. rewrite length_drop. lia.
Qed.
End Helpers.

Lemma preturns_read_id : preturns TransferId.wf read_transfer_id.
Proof. unfold read_transfer_id, TRANSFER_ID_LEN. by preturns_tac. Qed.

Lemma preturns_read_fixed N : 0 ≤ N → preturns (λ s, blen s = N ∧ bytes_wf s) (read_fixed N).
Proof. intros. unfold read_fixed. by preturns_tac. Qed.

Lemma from_utf8_not_Panic {E} (e : E) s : from_utf8 e s ≠ Panic.
Proof. unfold from_utf8. by case_match. Qed.

Lemma from_utf8_Ok {E} (e : E) s r : from_utf8 e s = Ok r ↔ r = s ∧ utf8_valid s = true.
Proof. unfold from_utf8. case_match; naive_solver. Qed.

Lemma reject_from_byte_not_Panic v : FileRejectReason.from_byte v ≠ Panic.
Proof. unfold FileRejectReason.from_byte. repeat case_match; done. Qed.
Lemma status_from_byte_not_Panic v : ChunkAckStatus.from_byte v ≠ Panic.
Proof. unfold ChunkAckStatus.from_byte. repeat case_match; done. Qed.
Lemma cancel_from_byte_not_Panic v : FileCancelReason.from_byte v ≠ Panic.
Proof. unfold FileCancelReason.from_byte. repeat case_match; done. Qed.
Lemma check_version_not_Panic v : check_version v ≠ Panic.
Proof. apply guard_err_not_Panic. Qed.
#[export] Hint Resolve from_utf8_not_Panic reject_from_byte_not_Panic status_from_byte_not_Panic
  cancel_from_byte_not_Panic check_version_not_Panic : rust.

(** Run a decoder of this file on an encoding. *)
Ltac tparse :=
  repeat first
    [ rewrite bind_ensure by blen_lia
    | rewrite bind_read_id by (first [assumption | blen_lia])
    | rewrite bind_read_fixed by (first [assumption | blen_lia])
    | rewrite bind_read_fixed_end by assumption
    | rewrite bind_uint by (first [assumption | done | unfold is_uint, blen in *; simpl; lia])
    | rewrite bind_slice by blen_lia
    | rewrite bind_slice_end by blen_lia
    | rewrite bind_rest
    | rewrite bind_guard by first [reflexivity | apply Z.ltb_ge; lia | by apply Z.eqb_neq]
    | erewrite bind_lift_ok by first [reflexivity | by apply from_utf8_Ok]
    | progress cbv beta zeta ].

(** Round trip of one message: [tstart] unfolds, [tparse] runs the decoder. *)
Ltac tstart enc dec decoder :=
  unfold dec, TRANSFER_ID_LEN, FILE_HASH_LEN, MAX_FILE_NAME_LEN in *; eapply run_eq;
  unfold decoder, enc, TransferId.as_bytes, ensure_remaining, check_version, TRANSFER_VERSION, TRANSFER_ID_LEN,
    FILE_HASH_LEN, MAX_FILE_NAME_LEN;
  simpl.

(** Panic freedom and ranges, with the helpers of this file. *)
Ltac tsafe :=
  repeat first
    [ apply psafe_read_id_bind; intros ?
    | apply psafe_read_fixed_bind; [unfold FILE_HASH_LEN; lia | intros ?]
    | progress unfold ensure_remaining, TRANSFER_ID_LEN, FILE_HASH_LEN
    | progress psafe_tac ].

Ltac treturns :=
  repeat first
    [ eapply preturns_bind; [apply preturns_read_id | intros ? ?]
    | eapply preturns_bind; [apply preturns_read_fixed; unfold FILE_HASH_LEN; lia | intros ? [? ?]]
    | progress unfold ensure_remaining
    | progress preturns_tac ].

(** Close the field conditions of a decoded message. *)
Ltac tdone :=
  repeat match goal with
  | H : (_ <? _) = false |- _ => apply Z.ltb_ge in H
  | H : (_ =? _) = false |- _ => apply Z.eqb_neq in H
  end;
  split_and?; first [assumption | lia | done].

#[export] Instance FileOffer_wire : Wire TransferError.t FileOffer.t :=
  { wire_encode := FileOffer.encode; wire_decode := FileOffer.decode; wire_wf := FileOffer.wf }.

#[export] Instance FileOffer_wire_ok : WireOk TransferError.t FileOffer.t.
Proof.
  split; simpl.
  - intros [id name size chunk total hash] [[Hid _] (Hname & Hutf & Hlen) Hs [Hc Hc0] Ht [Hh _]].
    simpl in *. tstart FileOffer.encode FileOffer.decode FileOffer.decoder. tparse. reflexivity.
  - intros b. apply run_not_Panic. unfold FileOffer.decoder. tsafe.
  - intros b a Hb H. unfold FileOffer.decode in H. eapply run_returns; [|done..].
    unfold FileOffer.decoder. treturns. inv_ok.
    match goal with H : from_utf8 _ _ = Ok _ |- _ => apply from_utf8_Ok in H as [-> ?] end.
    split; simpl; tdone.
Qed.

#[export] Instance FileAccept_wire : Wire TransferError.t FileAccept.t :=
  { wire_encode := FileAccept.encode; wire_decode := FileAccept.decode; wire_wf := FileAccept.wf }.

#[export] Instance FileAccept_wire_ok : WireOk TransferError.t FileAccept.t.
Proof.
  split; simpl.
  - intros [id res bm] [[Hid _] [Hbm Hlen] Hres]. simpl in *. tstart FileAccept.encode FileAccept.decode FileAccept.decoder. 
    destruct res; [|rewrite Hres by done]; tparse; reflexivity.
  - intros b. apply run_not_Panic. unfold FileAccept.decoder. tsafe.
  - intros b a Hb H. unfold FileAccept.decode in H. eapply run_returns; [|done..].
    unfold FileAccept.decoder. treturns. inv_ok. subst. split; simpl; [done|split; done|].
    intros Hr. match goal with H : _ && _ = false |- _ => rewrite Hr in H; simpl in H end.
    by apply blen_zero, Z.eqb_eq, negb_false_iff.
Qed.

#[export] Instance FileChunk_wire : Wire TransferError.t FileChunk.t :=
  { wire_encode := FileChunk.encode; wire_decode := FileChunk.decode; wire_wf := FileChunk.wf }.

#[export] Instance FileChunk_wire_ok : WireOk TransferError.t FileChunk.t.
Proof.
  split; simpl.
  - intros [id i h d] [[Hid _] Hi [Hh _] Hd]. simpl in *. tstart FileChunk.encode FileChunk.decode FileChunk.decoder. tparse. reflexivity.
  - intros b. apply run_not_Panic. unfold FileChunk.decoder. tsafe.
  - intros b a Hb H. unfold FileChunk.decode in H. eapply run_returns; [|done..].
    unfold FileChunk.decoder. treturns. by split.
Qed.

#[export] Instance FileReject_wire : Wire TransferError.t FileReject.t :=
  { wire_encode := FileReject.encode; wire_decode := FileReject.decode; wire_wf := FileReject.wf }.

#[export] Instance FileReject_wire_ok : WireOk TransferError.t FileReject.t.
Proof.
  split; simpl.
  - intros [id []] [Hid _]; simpl in *; tstart FileReject.encode FileReject.decode FileReject.decoder; tparse; reflexivity.
  - intros b. apply run_not_Panic. unfold FileReject.decoder. tsafe.
  - intros b a Hb H. unfold FileReject.decode in H. eapply run_returns; [|done..].
    unfold FileReject.decoder. treturns. tdone.
Qed.

#[export] Instance FileChunkAck_wire : Wire TransferError.t FileChunkAck.t :=
  { wire_encode := FileChunkAck.encode; wire_decode := FileChunkAck.decode; wire_wf := FileChunkAck.wf }.

#[export] Instance FileChunkAck_wire_ok : WireOk TransferError.t FileChunkAck.t.
Proof.
  split; simpl.
  - intros [id i []] [[Hid _] Hi]; simpl in *; tstart FileChunkAck.encode FileChunkAck.decode FileChunkAck.decoder; tparse; reflexivity.
  - intros b. apply run_not_Panic. unfold FileChunkAck.decoder. tsafe.
  - intros b a Hb H. unfold FileChunkAck.decode in H. eapply run_returns; [|done..].
    unfold FileChunkAck.decoder. treturns. tdone.
Qed.

#[export] Instance FileComplete_wire : Wire TransferError.t FileComplete.t :=
  { wire_encode := FileComplete.encode; wire_decode := FileComplete.decode; wire_wf := FileComplete.wf }.

#[export] Instance FileComplete_wire_ok : WireOk TransferError.t FileComplete.t.
Proof.
  split; simpl.
  - intros [id h] [[Hid _] [Hh _]]. simpl in *. tstart FileComplete.encode FileComplete.decode FileComplete.decoder. tparse. reflexivity.
  - intros b. apply run_not_Panic. unfold FileComplete.decoder. tsafe.
  - intros b a Hb H. unfold FileComplete.decode in H. eapply run_returns; [|done..].
    unfold FileComplete.decoder. treturns. tdone.
Qed.

#[export] Instance FileCancel_wire : Wire TransferError.t FileCancel.t :=
  { wire_encode := FileCancel.encode; wire_decode := FileCancel.decode; wire_wf := FileCancel.wf }.

#[export] Instance FileCancel_wire_ok : WireOk TransferError.t FileCancel.t.
Proof.
  split; simpl.
  - intros [id []] [Hid _]; simpl in *; tstart FileCancel.encode FileCancel.decode FileCancel.decoder; tparse; reflexivity.
  - intros b. apply run_not_Panic. unfold FileCancel.decoder. tsafe.
  - intros b a Hb H. unfold FileCancel.decode in H. eapply run_returns; [|done..].
    unfold FileCancel.decoder. treturns. tdone.
Qed.

(** C38: every file-transfer message comes back from its encoding unchanged. *)
Theorem transfer_messages_roundtrip :
  (∀ m, FileOffer.wf m → FileOffer.decode (FileOffer.encode m) = Ok m) ∧
  (∀ m, FileAccept.wf m → FileAccept.decode (FileAccept.encode m) = Ok m) ∧
  (∀ m, FileReject.wf m → FileReject.decode (FileReject.encode m) = Ok m) ∧
  (∀ m, FileChunk.wf m → FileChunk.decode (FileChunk.encode m) = Ok m) ∧
  (∀ m, FileChunkAck.wf m → FileChunkAck.decode (FileChunkAck.encode m) = Ok m) ∧
  (∀ m, FileComplete.wf m → FileComplete.decode (FileComplete.encode m) = Ok m) ∧
  (∀ m, FileCancel.wf m → FileCancel.decode (FileCancel.encode m) = Ok m).
Proof.
  split_and!; match goal with |- ∀ m : ?T, _ => exact (@wire_roundtrip _ T _ _) end.
Qed.


(** ** The bitmap as a set of chunk numbers *)
Section Bitmap.

Lemma mask_bit k n : 0 ≤ k < 8 → 0 ≤ n < 8 → Z.testbit (wrap 8 (Z.shiftl 1 k)) n = (k =? n).
Proof.
  intros Hk Hn. unfold wrap. rewrite Z.mod_pow2_bits_low, Z.shiftl_1_l by lia.
  apply Z.pow2_bits_eqb. lia.
Qed.

Lemma byte_set_bit byte k n (missing : bool) :
  0 ≤ k < 8 → 0 ≤ n < 8 →
  Z.testbit (if missing then Z.lor byte (wrap 8 (Z.shiftl 1 k))
             else Z.land byte (Z.lxor 255 (wrap 8 (Z.shiftl 1 k)))) n =
  if k =? n then missing else Z.testbit byte n.
Proof.
  intros Hk Hn. destruct missing.
  - rewrite Z.lor_spec, mask_bit by done. by destruct (k =? n); rewrite ?orb_true_r, ?orb_false_r.
  - rewrite Z.land_spec, Z.lxor_spec, mask_bit by done.
    assert (Z.testbit 255 n = true) as ->.
    { change 255 with (Z.ones 8). by apply Z.ones_spec_low. }
    by destruct (k =? n); rewrite ?andb_true_r, ?andb_false_r.
Qed.

Lemma set_missing_lookup bm i v j :
  0 ≤ i →
  bitmap_set_missing bm i v !! j =
  if decide (j = Z.to_nat (i / 8))
  then (λ byte, if v then Z.lor byte (wrap 8 (Z.shiftl 1 (i mod 8)))
                else Z.land byte (Z.lxor 255 (wrap 8 (Z.shiftl 1 (i mod 8))))) <$> bm !! j
  else bm !! j.
Proof.
  intros Hi. unfold bitmap_set_missing.
  destruct (bm !! Z.to_nat (i / 8)) as [byte|] eqn:Hb; [|case_decide; subst; by rewrite ?Hb].
  assert (Z.to_nat (i / 8) < length bm)%nat by by eapply lookup_lt_Some.
  destruct (decide (j = Z.to_nat (i / 8))) as [->|Hne].
  - rewrite Hb. destruct v; by rewrite list_lookup_insert_eq.
  - destruct v; by rewrite list_lookup_insert_ne.
Qed.

Lemma length_set_missing bm i v : length (bitmap_set_missing bm i v) = length bm.
Proof. unfold bitmap_set_missing. repeat case_match; by rewrite ?length_insert. Qed.

Lemma set_missing_wf bm i v : bytes_wf bm → bytes_wf (bitmap_set_missing bm i v).
Proof.
  intros Hb. unfold bitmap_set_missing. destruct (bm !! _) eqn:Hl; [|done].
  pose proof (Forall_lookup_1 _ _ _ _ Hb Hl).
  destruct v; apply Forall_insert; auto with rust lia.
Qed.

(** [bitmap_set_missing] writes exactly the named chunk: reading any chunk of
    the bitmap afterwards gives the written value for that chunk and the old
    value for every other; a chunk outside the bitmap is read as not missing
    and writing it changes nothing. *)
Lemma bitmap_get_set (bm : bytes) (i j : Z) (v : bool) :
  0 ≤ i → 0 ≤ j →
  bitmap_is_missing (bitmap_set_missing bm i v) j =
  (if decide (i = j ∧ i / 8 < blen bm) then v else bitmap_is_missing bm j) ∧
  (blen bm ≤ j / 8 → bitmap_is_missing bm j = false) ∧
  (blen bm ≤ i / 8 → bitmap_set_missing bm i v = bm).
Proof.
  intros Hi Hj.
  assert (∀ k (b : bytes), 0 ≤ k → blen b ≤ k / 8 → b !! Z.to_nat (k / 8) = None) as Hout.
  { intros k b Hk H. apply lookup_ge_None. unfold blen in H. lia. }
  split; [|split].
  - pose proof (Z.mod_pos_bound i 8 ltac:(lia)). pose proof (Z.mod_pos_bound j 8 ltac:(lia)).
    pose proof (Z.div_mod i 8 ltac:(lia)). pose proof (Z.div_mod j 8 ltac:(lia)).
    unfold bitmap_is_missing. rewrite set_missing_lookup by done.
    destruct (bm !! Z.to_nat (j / 8)) as [byte|] eqn:Hb.
    + assert (j / 8 < blen bm) by (apply lookup_lt_Some in Hb; unfold blen; lia).
      case_decide as Hij; simpl; rewrite !bit_of_byte by lia.
      * assert (i / 8 = j / 8) by (pose proof (Z.div_pos i 8); pose proof (Z.div_pos j 8); lia).
        rewrite byte_set_bit by done.
        destruct (Z.eqb_spec (i mod 8) (j mod 8)); case_decide as Hd; naive_solver lia.
      * rewrite decide_False; [done|]. intros [-> _]. done.
    + destruct (decide (i = j ∧ i / 8 < blen bm)) as [[-> Hlt]|_]; [|by case_decide].
      apply lookup_ge_None in Hb. unfold blen in Hlt. lia.
  - intros H. unfold bitmap_is_missing. by rewrite Hout.
  - intros H. unfold bitmap_set_missing. by rewrite Hout.
Qed.

(** The bitmap of [bitmap_len] bytes has a bit for every chunk and less than
    eight bits to spare. *)
Lemma bitmap_len_bounds n : 0 ≤ n → n ≤ 8 * bitmap_len n < n + 8.
Proof.
  intros Hn. unfold bitmap_len.
  pose proof (Z.div_mod (n + 7) 8 ltac:(lia)). pose proof (Z.mod_pos_bound (n + 7) 8 ltac:(lia)). lia.
Qed.
End Bitmap.

(** ** Number of chunks *)

Lemma total_chunks_exact fs cs :
  0 ≤ fs → 0 < cs → fs ≤ cs * (2 ^ 32 - 1) →
  let n := compute_total_chunks fs cs in fs ≤ cs * n < fs + cs ∧ is_u32 n.
Proof.
  intros Hf Hc Hle n. subst n. unfold compute_total_chunks.
  destruct (Z.eqb_spec cs 0); [lia|]. destruct (Z.eqb_spec fs 0) as [->|Hf0]; simpl.
  { split; [lia|done]. }
  set (q := (fs - 1) / cs). pose proof (Z.div_mod (fs - 1) cs ltac:(lia)) as Hdm. fold q in Hdm.
  pose proof (Z.mod_pos_bound (fs - 1) cs ltac:(lia)). assert (0 ≤ q) by (apply Z.div_pos; lia).
  assert (q < 2 ^ 32 - 1) by (apply Z.div_lt_upper_bound; lia).
  rewrite wrap_small by (unfold is_uint; lia). split; [lia|]. unfold is_uint. lia.
Qed.

(** While the file has at most 2^32 - 1 chunks, [compute_total_chunks] is the
    least number of chunks that covers the file; beyond that the cast to [u32]
    drops the high part and the result is smaller than needed. *)
Lemma compute_total_chunks_spec (file_size chunk_size : Z) :
  is_u64 file_size → is_u32 chunk_size → 0 < chunk_size →
  let n := compute_total_chunks file_size chunk_size in
  (file_size ≤ chunk_size * (2 ^ 32 - 1) →
     file_size ≤ chunk_size * n < file_size + chunk_size ∧ is_u32 n) ∧
  (chunk_size * (2 ^ 32 - 1) < file_size → chunk_size * n < file_size).
Proof.
  intros [Hf _] _ Hc n. split; [by apply total_chunks_exact|]. intros Hgt. subst n.
  unfold compute_total_chunks. destruct (Z.eqb_spec file_size 0); [lia|].
  destruct (Z.eqb_spec chunk_size 0); [lia|]. simpl.
  pose proof (wrap_range 32 ((file_size - 1) / chunk_size + 1) ltac:(lia)) as [_ Hw]. nia.
Qed.

Module TransferMsgWitness.
Definition id : TransferId.t := TransferId.from_u128 7.
Definition hash : bytes := replicate 32 171.
(* "rés.txt" *)
Definition name : bytes := [114; 195; 169; 115; 46; 116; 120; 116].
Definition offer : FileOffer.t := FileOffer.mk id name 1000000 65536 16 hash.
Definition chunk : FileChunk.t := FileChunk.mk id 3 hash [1; 2; 3].

Lemma id_wf : TransferId.wf id.
Proof. split; [done|]. decide_now. Qed.

Lemma offer_wf : FileOffer.wf offer.
Proof. split; [apply id_wf|split_and!; [decide_now|done|done]|done|done|done|split; [done|decide_now]]. Qed.

Lemma chunk_wf : FileChunk.wf chunk.
Proof. split; [apply id_wf|done|split; [done|decide_now]|decide_now]. Qed.

Lemma transfer_messages_roundtrip_witness :
  FileOffer.decode (FileOffer.encode offer) = Ok offer ∧
  FileChunk.decode (FileChunk.encode chunk) = Ok chunk ∧
  FileChunkAck.decode (FileChunkAck.encode (FileChunkAck.mk id 9 ChunkAckStatus.BadHash)) =
    Ok (FileChunkAck.mk id 9 ChunkAckStatus.BadHash).
Proof.
  destruct transfer_messages_roundtrip as (Ho & _ & _ & Hc & Ha & _).
  split_and!; [apply Ho, offer_wf|apply Hc, chunk_wf|apply Ha; split; [apply id_wf|done]].
Defined.


Lemma bitmap_get_set_witness :
  bitmap_is_missing (bitmap_set_missing [255; 255] 9 false) 9 = false ∧
  bitmap_is_missing (bitmap_set_missing [255; 255] 9 false) 10 = true.
Proof.
  split; [rewrite (proj1 (bitmap_get_set [255; 255] 9 9 false ltac:(lia) ltac:(lia)))
         |rewrite (proj1 (bitmap_get_set [255; 255] 9 10 false ltac:(lia) ltac:(lia)))]; reflexivity.
Defined.

Lemma compute_total_chunks_spec_witness :
  compute_total_chunks 1000000 65536 = 16 ∧
  1000000 ≤ 65536 * compute_total_chunks 1000000 65536 < 1000000 + 65536 ∧
  1 * compute_total_chunks (2 ^ 32 + 5) 1 < 2 ^ 32 + 5.
Proof.
  destruct (compute_total_chunks_spec 1000000 65536) as [H1 _]; [done|done|lia|].
  destruct (compute_total_chunks_spec (2 ^ 32 + 5) 1) as [_ H2]; [done|done|lia|].
  split_and!; [reflexivity|apply H1; lia..|apply H2; lia].
Defined.
End TransferMsgWitness.
