(* ===== verification/DhtMsg.v ===== *)
(** ceky-protocol/src/dht.rs: FIND_NODE and its response, and socket addresses
    on the wire. *)
From S2P Require Import Prelude Bytes Wire.

Local Open Scope Z_scope.
Local Open Scope parser_scope.

Definition DHT_VERSION : Z := 1.

Module DhtError.
Inductive t : Set :=
| UnsupportedVersion (version : Z)
| BufferTooShort (needed got : Z)
| InvalidAddressFamily (family : Z).
End DhtError.

Abbreviation dparser := (parser DhtError.t).
Abbreviation dresult := (result DhtError.t).

(** [std::net::SocketAddr]; an IPv6 address also has a flow label and a scope. *)
Module SocketAddr.
Inductive t : Set :=
| V4 (ip : bytes) (port : Z)
| V6 (ip : bytes) (port flowinfo scope_id : Z).

#[global] Instance t_eq_dec : EqDecision t.
Proof. solve_decision. Defined.

Definition port (a : t) : Z := match a with V4 _ p => p | V6 _ p _ _ => p end.

Definition wf (a : t) : Prop :=
  match a with
  | V4 ip port => blen ip = 4 ∧ bytes_wf ip ∧ is_u16 port
  | V6 ip port flowinfo scope_id =>
      blen ip = 16 ∧ bytes_wf ip ∧ is_u16 port ∧ is_u32 flowinfo ∧ is_u32 scope_id
  end.

(** What the wire keeps of an address ([SocketAddr::new] on the reading side). *)
Definition on_wire (a : t) : t :=
  match a with V4 ip port => V4 ip port | V6 ip port _ _ => V6 ip port 0 0 end.
End SocketAddr.

Module Dht.
Definition ensure_remaining (needed : Z) : dparser unit := ensure DhtError.BufferTooShort needed.

Definition read_peer_id : dparser bytes :=
  ensure_remaining 32 ;;;
  id <-- get_slice 32 ;;
  pret id.

Definition write_socket_addr (addr : SocketAddr.t) : bytes :=
  match addr with
  | SocketAddr.V4 ip port => be_bytes 1 4 ++ ip ++ be_bytes 2 port
  | SocketAddr.V6 ip port _ _ => be_bytes 1 6 ++ ip ++ be_bytes 2 port
  end.

Definition read_socket_addr : dparser SocketAddr.t :=
  ensure_remaining 1 ;;;
  family <-- get_uint 1 ;;
  match family with
  | 4 =>
      ensure_remaining (4 + 2) ;;;
      ip <-- get_slice 4 ;;
      port <-- get_uint 2 ;;
      pret (SocketAddr.V4 ip port)
  | 6 =>
      ensure_remaining (16 + 2) ;;;
      ip <-- get_slice 16 ;;
      port <-- get_uint 2 ;;
      pret (SocketAddr.V6 ip port 0 0)
  | _ => plift (Err (DhtError.InvalidAddressFamily family))
  end.

Definition check_version (version : Z) : dresult unit :=
  guard_err (negb (version =? DHT_VERSION)) (DhtError.UnsupportedVersion version).
End Dht.

Module FindNode.
Record t : Set := mk { target : bytes }.

Definition encode (m : t) : bytes := be_bytes 1 DHT_VERSION ++ target m.

Definition decoder : dparser t :=
  Dht.ensure_remaining (1 + 32) ;;;
  version <-- get_uint 1 ;;
  plift (Dht.check_version version) ;;;
  target <-- Dht.read_peer_id ;;
  pret (mk target).

Definition decode (payload : bytes) : dresult t := run decoder payload.

Definition wf (m : t) : Prop := blen (target m) = 32 ∧ bytes_wf (target m).
End FindNode.

Module FindNodeResp.
Record t : Set := mk { peers : list (bytes * SocketAddr.t) }.

Definition encode_peer (p : bytes * SocketAddr.t) : bytes :=
  let '(id, addr) := p in id ++ Dht.write_socket_addr addr.

Definition encode (m : t) : bytes :=
  let count := Z.min (blen (peers m)) 255 in
  be_bytes 1 DHT_VERSION ++ be_bytes 1 count ++
  concat (map encode_peer (take (Z.to_nat count) (peers m))).

(** [for _ in 0..count] *)
Fixpoint read_peers (count : nat) : dparser (list (bytes * SocketAddr.t)) :=
  match count with
  | O => pret []
  | S count =>
      id <-- Dht.read_peer_id ;;
      addr <-- Dht.read_socket_addr ;;
      peers <-- read_peers count ;;
      pret ((id, addr) :: peers)
  end.

Definition decoder : dparser t :=
  Dht.ensure_remaining 2 ;;;
  version <-- get_uint 1 ;;
  plift (Dht.check_version version) ;;;
  count <-- get_uint 1 ;;
  peers <-- read_peers (Z.to_nat count) ;;
  pret (mk peers).

Definition decode (payload : bytes) : dresult t := run decoder payload.

Definition peer_wf (p : bytes * SocketAddr.t) : Prop :=
  blen p.1 = 32 ∧ bytes_wf p.1 ∧ SocketAddr.wf p.2 ∧ SocketAddr.on_wire p.2 = p.2.

Definition wf (m : t) : Prop := Forall peer_wf (peers m) ∧ blen (peers m) ≤ 255.
End FindNodeResp.

(** ** Laws *)
#[local] Opaque be_bytes.

Section Laws.
Context {B : Type}.

Lemma bind_read_peer_id id (f : bytes → dparser B) rest :
  blen id = 32 → pbind Dht.read_peer_id f (id ++ rest) = f id rest.
Proof.
  intros Hid. apply pbind_ok. unfold Dht.read_peer_id, Dht.ensure_remaining.
  rewrite bind_ensure, bind_slice; [done|done|]. rewrite blen_app. pose proof (blen_nonneg rest). lia.
Qed.

Lemma bind_socket_addr a (f : SocketAddr.t → dparser B) rest :
  SocketAddr.wf a →
  pbind Dht.read_socket_addr f (Dht.write_socket_addr a ++ rest) = f (SocketAddr.on_wire a) rest.
Proof.
  intros Ha. apply pbind_ok. unfold Dht.read_socket_addr, Dht.ensure_remaining.
  destruct a as [ip port|ip port fl sc];
    [destruct Ha as (Hip & _ & Hport)|destruct Ha as (Hip & _ & Hport & _)]; simpl;
    rewrite <- !app_assoc; rewrite bind_ensure by blen_lia; rewrite bind_uint by done;
    rewrite bind_ensure by blen_lia; rewrite bind_slice by done; rewrite bind_uint by done; done.
Qed.

(** The readers make their own length checks, so nothing is needed of the buffer. *)
Lemma psafe_read_peer_id_bind k (f : bytes → dparser B) :
  (∀ v, psafe 0 (f v)) → psafe k (pbind Dht.read_peer_id f).
Proof.
  intros Hf b _. unfold Dht.read_peer_id, Dht.ensure_remaining, pbind at 1 2, ensure.
  destruct (Z.ltb_spec (blen b) 32); [done|]. unfold pbind, get_slice.
  destruct (Z.ltb_spec (blen b) 32); [lia|]. apply Hf, blen_nonneg.
Qed.

Lemma psafe_bind {A} (p : parser DhtError.t A) k (f : A → dparser B) :
  psafe 0 p → (∀ v, psafe 0 (f v)) → psafe k (pbind p f).
Proof.
  intros Hp Hf b _. unfold pbind. specialize (Hp b (blen_nonneg b)).
  destruct (p b) as [[a b']| |]; [|done..]. apply Hf, blen_nonneg.
Qed.
End Laws.

Lemma read_socket_addr_safe : psafe 0 Dht.read_socket_addr.
Proof.
  unfold Dht.read_socket_addr, Dht.ensure_remaining. apply psafe_ensure_bind.
  apply psafe_uint_bind; [lia|]. intros family.
  repeat case_match; psafe_tac; by apply psafe_plift.
Qed.

Lemma read_peers_safe n : psafe 0 (FindNodeResp.read_peers n).
Proof.
  induction n as [|n IH]; simpl; [apply psafe_ret|].
  apply psafe_read_peer_id_bind. intros id.
  apply psafe_bind; [apply read_socket_addr_safe|]. intros a.
  apply psafe_bind; [done|]. intros ps. apply psafe_ret.
Qed.

Lemma preturns_socket_addr :
  preturns (λ a, SocketAddr.wf a ∧ SocketAddr.on_wire a = a) Dht.read_socket_addr.
Proof.
  unfold Dht.read_socket_addr, Dht.ensure_remaining.
  preturns_tac. repeat case_match; subst; preturns_tac;
    try (intros b a b' _ H; discriminate H); done.
Qed.

Lemma preturns_peers n :
  preturns (λ ps, Forall FindNodeResp.peer_wf ps ∧ length ps = n) (FindNodeResp.read_peers n).
Proof.
  induction n as [|n IH]; simpl; [by apply preturns_ret|].
  apply (preturns_bind (λ id, blen id = 32 ∧ bytes_wf id)).
  { unfold Dht.read_peer_id, Dht.ensure_remaining. by preturns_tac. }
  intros id [Hid Hw]. eapply preturns_bind; [apply preturns_socket_addr|]. intros a [Ha Ha'].
  eapply preturns_bind; [apply IH|]. intros ps [Hps Hl]. apply preturns_ret.
  split; [|by simpl; rewrite Hl]. by constructor.
Qed.

Lemma read_peers_encoded ps rest :
  Forall (λ p, blen p.1 = 32 ∧ SocketAddr.wf p.2) ps →
  FindNodeResp.read_peers (length ps) (concat (map FindNodeResp.encode_peer ps) ++ rest) =
  Ok (map (λ p, (p.1, SocketAddr.on_wire p.2)) ps, rest).
Proof.
  induction 1 as [|[id a] ps [Hid Ha] _ IH]; [done|]. simpl.
  rewrite <- !app_assoc, bind_read_peer_id by done. rewrite bind_socket_addr by done.
  by rewrite (pbind_ok _ _ _ _ _ IH).
Qed.

Lemma find_node_resp_decode_encode ps :
  Forall (λ p, blen p.1 = 32 ∧ SocketAddr.wf p.2) ps →
  FindNodeResp.decode (FindNodeResp.encode (FindNodeResp.mk ps)) =
  Ok (FindNodeResp.mk (map (λ p, (p.1, SocketAddr.on_wire p.2)) (take 255 ps))).
Proof.
  intros Hps. unfold FindNodeResp.decode. eapply run_eq.
  unfold FindNodeResp.decoder, FindNodeResp.encode, Dht.ensure_remaining, Dht.check_version, DHT_VERSION.
  cbn [FindNodeResp.peers].
  assert (take (Z.to_nat (Z.min (blen ps) 255)) ps = take 255 ps) as ->.
  { unfold blen. destruct (decide (length ps ≤ 255)%nat).
    - rewrite !take_ge by lia. done.
    - f_equal. lia. }
  assert (Z.min (blen ps) 255 = Z.of_nat (length (take 255 ps))) as ->.
  { unfold blen. rewrite length_take. lia. }
  pose proof (firstn_le_length 255 ps) as Hle.
  rewrite bind_ensure by blen_lia. rewrite bind_uint by done. rewrite bind_guard by done.
  rewrite bind_uint by (unfold is_uint; simpl; lia). rewrite Nat2Z.id.
  rewrite <- (app_nil_r (concat _)).
  rewrite (pbind_ok _ _ _ _ _ (read_peers_encoded (take 255 ps) [] ltac:(by apply Forall_take))).
  done.
Qed.

(** A FIND_NODE response decodes to the first 255 peers of the list that was
    encoded, in order, with every address intact but for the flow label and
    scope of IPv6, which the format does not carry. *)
Lemma find_node_resp_decoded (ps : list (bytes * SocketAddr.t)) :
  Forall (λ p, blen p.1 = 32 ∧ SocketAddr.wf p.2) ps →
  FindNodeResp.decode (FindNodeResp.encode (FindNodeResp.mk ps)) =
  Ok (FindNodeResp.mk (map (λ p, (p.1, SocketAddr.on_wire p.2)) (take 255 ps))).
Proof. apply find_node_resp_decode_encode. Qed.

#[export] Instance FindNode_wire : Wire DhtError.t FindNode.t :=
  { wire_encode := FindNode.encode; wire_decode := FindNode.decode; wire_wf := FindNode.wf }.

#[export] Instance FindNode_wire_ok : WireOk DhtError.t FindNode.t.
Proof.
  split; simpl.
  - intros [target] [Ht _]. unfold FindNode.decode. eapply run_eq.
    unfold FindNode.decoder, FindNode.encode, Dht.ensure_remaining, Dht.check_version, DHT_VERSION. simpl in *.
    rewrite bind_ensure by blen_lia. rewrite bind_uint by done. rewrite bind_guard by done.
    rewrite <- (app_nil_r target), bind_read_peer_id by done. by rewrite app_nil_r.
  - intros b. apply run_not_Panic. unfold FindNode.decoder, Dht.ensure_remaining, Dht.check_version.
    psafe_tac. apply psafe_read_peer_id_bind. intros. apply psafe_ret.
  - intros b a Hb H. unfold FindNode.decode in H. eapply run_returns; [|done..].
    unfold FindNode.decoder, Dht.ensure_remaining, Dht.read_peer_id. preturns_tac.
    eapply preturns_bind; [|intros x Hx; apply preturns_ret; exact Hx].
    unfold Dht.ensure_remaining. by preturns_tac.
Qed.

#[export] Instance FindNodeResp_wire : Wire DhtError.t FindNodeResp.t :=
  { wire_encode := FindNodeResp.encode; wire_decode := FindNodeResp.decode; wire_wf := FindNodeResp.wf }.

#[export] Instance FindNodeResp_wire_ok : WireOk DhtError.t FindNodeResp.t.
Proof.
  split; simpl.
  - intros [ps] [Hps Hlen]. simpl in *. rewrite find_node_resp_decode_encode.
    + do 2 f_equal. rewrite take_ge by (unfold blen in Hlen; lia).
      clear Hlen. induction Hps as [|[id a] ps (_ & _ & _ & Ha) _ IH]; [done|].
      simpl in *. by rewrite Ha, IH.
    + eapply Forall_impl; [exact Hps|]. by intros [id a] (? & _ & ? & _).
  - intros b. apply run_not_Panic. unfold FindNodeResp.decoder, Dht.ensure_remaining, Dht.check_version.
    psafe_tac. apply psafe_bind; [apply read_peers_safe|]. intros. apply psafe_ret.
  - intros b a Hb H. unfold FindNodeResp.decode in H. eapply run_returns; [|done..].
    unfold FindNodeResp.decoder, Dht.ensure_remaining. preturns_tac.
    eapply preturns_bind; [apply preturns_peers|]. intros ps [Hps Hl]. apply preturns_ret.
    split; [done|]. unfold blen, is_uint in *. simpl in *. lia.
Qed.

(** On any received payload the FIND_NODE decoders do not panic, and what
    they accept can be encoded again to a payload that decodes to the same
    message. *)
Lemma dht_decoders_safe (payload : bytes) :
  bytes_wf payload →
  (FindNode.decode payload ≠ Panic ∧
   ∀ m, FindNode.decode payload = Ok m → FindNode.decode (FindNode.encode m) = Ok m) ∧
  (FindNodeResp.decode payload ≠ Panic ∧
   ∀ m, FindNodeResp.decode payload = Ok m →
     blen (FindNodeResp.peers m) ≤ 255 ∧ FindNodeResp.decode (FindNodeResp.encode m) = Ok m).
Proof.
  intros Hp. split; split.
  - exact (@wire_safe _ FindNode.t _ _ payload).
  - intros m Hm. refine (@wire_roundtrip _ FindNode.t _ _ m _).
    exact (@wire_sound _ FindNode.t _ _ payload m Hp Hm).
  - exact (@wire_safe _ FindNodeResp.t _ _ payload).
  - intros m Hm. pose proof (@wire_sound _ FindNodeResp.t _ _ payload m Hp Hm) as Hwf.
    split; [apply Hwf|]. exact (@wire_roundtrip _ FindNodeResp.t _ _ m Hwf).
Qed.

Module DhtMsgWitness.
Definition id : bytes := replicate 32 17.
Definition peers : list (bytes * SocketAddr.t) :=
  [(id, SocketAddr.V4 [127; 0; 0; 1] 9000); (id, SocketAddr.V6 (replicate 16 254) 80 7 3)].

Lemma find_node_resp_decoded_witness :
  FindNodeResp.decode (FindNodeResp.encode (FindNodeResp.mk peers)) =
  Ok (FindNodeResp.mk
        [(id, SocketAddr.V4 [127; 0; 0; 1] 9000); (id, SocketAddr.V6 (replicate 16 254) 80 0 0)]).
Proof.
  apply (find_node_resp_decoded peers).
  repeat constructor; simpl; done.
Defined.

Lemma dht_decoders_safe_witness :
  FindNodeResp.decode [1; 2; 5] = Err (DhtError.BufferTooShort 32 1) ∧
  FindNodeResp.decode [1; 2; 5] ≠ Panic ∧ FindNode.decode (FindNode.encode (FindNode.mk id)) = Ok (FindNode.mk id).
Proof.
  split; [vm_compute; reflexivity|]. split.
  - apply (dht_decoders_safe [1; 2; 5]). decide_now.
  - apply (dht_decoders_safe (FindNode.encode (FindNode.mk id))); [decide_now|vm_compute; reflexivity].
Defined.
End DhtMsgWitness.
