(* ===== verification/PeerId.v ===== *)
(** ceky-crypto/src/identity.rs, [PeerId]: 32-byte identifiers, the XOR metric,
    the bucket index and the textual form. *)
From S2P Require Import Prelude Bytes CryptoTypes.

Local Open Scope Z_scope.

(** ** Hexadecimal *)
Definition hex_digit (d : Z) : Z := if d <? 10 then 48 + d else 87 + d.

(** [format!("{b:02x}")] *)
Definition hex_byte (b : Z) : bytes := [hex_digit (b / 16); hex_digit (b mod 16)].

Definition hex_encode (b : bytes) : bytes := concat (map hex_byte b).

(** [char::to_digit(16)] *)
Definition to_digit16 (c : Z) : option Z :=
  if (48 <=? c) && (c <=? 57) then Some (c - 48)
  else if (97 <=? c) && (c <=? 102) then Some (c - 87)
  else if (65 <=? c) && (c <=? 70) then Some (c - 55)
  else None.

(** [u8::from_str_radix(s, 16)] on a string of two bytes; a leading '+' is
    accepted, '-' is not (the type is unsigned). *)
Definition from_str_radix16 (c0 c1 : Z) : option Z :=
  if c0 =? 43 then to_digit16 c1
  else
    d0 ← to_digit16 c0;
    d1 ← to_digit16 c1;
    Some (16 * d0 + d1).

(** [s.is_char_boundary(i)] at the head of the rest of a UTF-8 string. *)
Definition at_boundary (rest : bytes) : bool :=
  match rest with
  | [] => true
  | c :: _ => negb ((128 <=? c) && (c <? 192))
  end.

(** The iteration over [(0..s.len()).step_by(2)]: [&s[i..i+2]] panics when either
    end cuts a character; [collect] stops at the first error. *)
Fixpoint hex_pairs (s : bytes) : result unit bytes :=
  match s with
  | c0 :: c1 :: rest =>
      if at_boundary s && at_boundary rest then
        b ← ok_or (from_str_radix16 c0 c1) tt;
        bs ← hex_pairs rest;
        mret (b :: bs)
      else Panic
  | _ => Ok []
  end.

Definition hex_decode (s : bytes) : result unit bytes :=
  if negb (blen s mod 2 =? 0) then Err tt else hex_pairs s.

(** [byte.leading_zeros()] of a [u8] *)
Definition leading_zeros8 (b : Z) : Z := if b =? 0 then 8 else 7 - Z.log2 b.

Module PeerId.
Definition t : Set := bytes.
Definition wf (p : t) : Prop := length p = 32%nat ∧ bytes_wf p.

Definition from_bytes (b : bytes) : t := b.
Definition as_bytes (p : t) : bytes := p.

(** [result[i] = self.0[i] ^ other.0[i]] for all [i] *)
Definition xor_distance (self other : t) : bytes := zip_with Z.lxor self other.

(** The loop over [distance.iter().enumerate()]. *)
Fixpoint bucket_scan (byte_idx : Z) (distance : bytes) : option Z :=
  match distance with
  | [] => None
  | byte :: rest =>
      if negb (byte =? 0) then
        let bit_idx := 7 - leading_zeros8 byte in
        Some (byte_idx * 8 + bit_idx)
      else bucket_scan (byte_idx + 1) rest
  end.

Definition bucket_index (self other : t) : option Z :=
  bucket_scan 0 (xor_distance self other).

Definition from_public_key `{SH : !Sha256} (public_key : bytes) : t := sha256 public_key.

Definition from_str (s : bytes) : result CryptoError t :=
  b ← map_err (λ _, InvalidPeerId) (hex_decode s);
  if negb (blen b =? 32) then Err InvalidPeerId else mret b.

(** [Display]: the first four and the last two bytes in hexadecimal, around an
    ellipsis, which is three bytes of UTF-8. *)
Definition ellipsis : bytes := [226; 128; 166].
Definition to_string (self : t) : bytes := hex_encode (take 4 self) ++ ellipsis ++ hex_encode (drop 30 self).

(** The distance as the number Kademlia compares. *)
Definition dist (a b : t) : Z := of_be (xor_distance a b).

(** [<] on byte arrays is lexicographic. *)
Fixpoint bytes_lt (a b : bytes) : bool :=
  match a, b with
  | x :: a, y :: b => (x <? y) || ((x =? y) && bytes_lt a b)
  | [], _ :: _ => true
  | _, [] => false
  end.
End PeerId.

(** ** The XOR metric *)
Lemma of_be_xor a b :
  length a = length b → bytes_wf a → bytes_wf b →
  of_be (zip_with Z.lxor a b) = Z.lxor (of_be a) (of_be b).
Proof.
  intros Hlen Ha. revert b Hlen. induction Ha as [|x a Hx Ha IH]; intros [|y b] Hlen Hb; try done.
  apply Forall_cons in Hb as [Hy Hb]. simpl in Hlen. apply Nat.succ_inj in Hlen. simpl zip_with.
  pose proof (of_be_range a Ha). pose proof (of_be_range b Hb).
  assert (blen (zip_with Z.lxor a b) = blen a) as Hz.
  { unfold blen. rewrite length_zip_with. lia. }
  assert (blen b = blen a) as Hb' by (unfold blen; lia). rewrite Hb' in *.
  rewrite !of_be_cons, Hz, Hb', IH by done.
  rewrite lxor_split; [done|unfold blen; lia|done..].
Qed.

Lemma zip_lxor_wf a b : bytes_wf a → bytes_wf b → bytes_wf (zip_with Z.lxor a b).
Proof.
  intros Ha. revert b. induction Ha as [|x a Hx Ha IH]; intros [|y b] Hb; simpl; try constructor.
  - apply Forall_cons in Hb as [Hy _]. auto with rust lia.
  - apply Forall_cons in Hb as [_ Hb]. by apply IH.
Qed.

Lemma xor_wf a b : PeerId.wf a → PeerId.wf b → PeerId.wf (PeerId.xor_distance a b).
Proof.
  intros [Hla Ha] [Hlb Hb]. unfold PeerId.xor_distance.
  split; [rewrite length_zip_with; lia|by apply zip_lxor_wf].
Qed.

Lemma xor_distance_comm a b : PeerId.xor_distance a b = PeerId.xor_distance b a.
Proof.
  unfold PeerId.xor_distance. revert b.
  induction a as [|x a IH]; intros [|y b]; simpl; [done..|]. by rewrite Z.lxor_comm, IH.
Qed.

Lemma dist_xor a b : PeerId.wf a → PeerId.wf b → PeerId.dist a b = Z.lxor (of_be a) (of_be b).
Proof. intros [Hla Ha] [Hlb Hb]. apply of_be_xor; [congruence|done..]. Qed.

Lemma of_be_inj a b : length a = length b → bytes_wf a → bytes_wf b → of_be a = of_be b → a = b.
Proof.
  intros Hl Ha Hb H. rewrite <- (be_bytes_of_be (length a) a), H by done. by apply be_bytes_of_be.
Qed.

Lemma of_be_nonneg a : bytes_wf a → 0 ≤ of_be a.
Proof. intros Ha. by destruct (of_be_range a Ha). Qed.

(** [xor_distance] is a metric on identifiers, and for every identifier and
    distance there is at most one other identifier at that distance. *)
Lemma xor_metric (a b c : PeerId.t) :
  PeerId.wf a → PeerId.wf b → PeerId.wf c →
  (PeerId.dist a b = 0 ↔ a = b) ∧ 0 ≤ PeerId.dist a b ∧
  PeerId.xor_distance a b = PeerId.xor_distance b a ∧
  PeerId.dist a c ≤ PeerId.dist a b + PeerId.dist b c ∧
  (PeerId.dist a b = PeerId.dist a c → b = c).
Proof.
  intros Ha Hb Hc. rewrite !dist_xor by done.
  pose proof (of_be_nonneg a (proj2 Ha)). pose proof (of_be_nonneg b (proj2 Hb)).
  pose proof (of_be_nonneg c (proj2 Hc)).
  assert (∀ x y : PeerId.t, PeerId.wf x → PeerId.wf y → of_be x = of_be y → x = y) as Hinj.
  { intros x y [Hlx Hx] [Hly Hy]. apply of_be_inj; [congruence|done..]. }
  split_and!.
  - rewrite Z.lxor_eq_0_iff. split; [by apply Hinj|by intros ->].
  - by apply Z.lxor_nonneg.
  - apply xor_distance_comm.
  - replace (Z.lxor (of_be a) (of_be c))
      with (Z.lxor (Z.lxor (of_be a) (of_be b)) (Z.lxor (of_be b) (of_be c))).
    + apply lxor_le_add; by apply Z.lxor_nonneg.
    + by rewrite Z.lxor_assoc, <- (Z.lxor_assoc (of_be b)), Z.lxor_nilpotent, Z.lxor_0_l.
  - intros E. apply Hinj; [done..|]. apply (f_equal (Z.lxor (of_be a))) in E.
    by rewrite <- !Z.lxor_assoc, Z.lxor_nilpotent, !Z.lxor_0_l in E.
Qed.

(** The array order is the order of the numbers. *)
Lemma bytes_lt_spec a b :
  length a = length b → bytes_wf a → bytes_wf b →
  PeerId.bytes_lt a b = (of_be a <? of_be b).
Proof.
  intros Hlen Ha. revert b Hlen. induction Ha as [|x a Hx Ha IH]; intros [|y b] Hlen Hb; try done.
  apply Forall_cons in Hb as [Hy Hb]. simpl in Hlen |- *. apply Nat.succ_inj in Hlen.
  rewrite IH, !of_be_cons by done. destruct (of_be_range a Ha), (of_be_range b Hb).
  replace (blen b) with (blen a) in * by (unfold blen; lia).
  set (P := 2 ^ (8 * blen a)) in *.
  destruct (Z.ltb_spec x y), (Z.eqb_spec x y), (Z.ltb_spec (of_be a) (of_be b)); simpl;
    symmetry; first [apply Z.ltb_lt; nia | apply Z.ltb_ge; nia].
Qed.

(** ** Buckets *)
Lemma log2_u8 x : is_u8 x → x ≠ 0 → 0 ≤ Z.log2 x < 8.
Proof.
  intros [? Hx] ?. split; [apply Z.log2_nonneg|]. apply Z.log2_lt_pow2; [lia|exact Hx].
Qed.

Lemma log2_top n x r : 0 ≤ n → 0 < x → 0 ≤ r < 2 ^ n → Z.log2 (x * 2 ^ n + r) = n + Z.log2 x.
Proof.
  intros Hn Hx Hr. destruct (Z.log2_spec x Hx) as [Hlo Hhi]. pose proof (Z.log2_nonneg x).
  apply Z.log2_unique; [lia|].
  replace (Z.succ (n + Z.log2 x)) with (Z.succ (Z.log2 x) + n) by lia.
  rewrite (Z.add_comm n), !Z.pow_add_r by lia. nia.
Qed.

Lemma bucket_scan_spec j d :
  bytes_wf d →
  PeerId.bucket_scan j d =
  if of_be d =? 0 then None
  else let h := Z.log2 (of_be d) in Some (8 * (j + blen d - 1 - h / 8) + h mod 8).
Proof.
  intros Hd. revert j. induction Hd as [|x d Hx Hd IH]; intros j; [done|].
  cbn [PeerId.bucket_scan]. rewrite of_be_cons. destruct (of_be_range d Hd) as [Hr0 Hr1].
  assert (blen (x :: d) = 1 + blen d) as -> by (unfold blen; simpl; lia).
  destruct (Z.eqb_spec x 0) as [->|Hx0]; cbn [negb].
  - rewrite IH, Z.mul_0_l, Z.add_0_l. destruct (of_be d =? 0); [done|]. cbv zeta. do 2 f_equal. lia.
  - pose proof (log2_u8 x Hx Hx0). assert (0 < x) by (destruct Hx; lia).
    assert (0 < 2 ^ (8 * blen d)) by lia.
    destruct (Z.eqb_spec (x * 2 ^ (8 * blen d) + of_be d) 0); [nia|]. cbv zeta.
    rewrite log2_top by (done || unfold blen; lia).
    rewrite (Z.mul_comm 8 (blen d)), Z.div_add_l, Z.div_small by lia.
    rewrite (Z.add_comm _ (Z.log2 x)), Z.mod_add, Z.mod_small by lia.
    unfold leading_zeros8. destruct (Z.eqb_spec x 0); [lia|]. f_equal. lia.
Qed.

(** The bucket of a distance whose highest set bit is [h]: the byte position
    counts from the most significant byte, the bit within it from the least
    significant bit. *)
Definition bucket_of_log (h : Z) : Z := 8 * (31 - h / 8) + h mod 8.

Lemma bucket_index_log a b :
  PeerId.wf a → PeerId.wf b →
  PeerId.bucket_index a b =
  if decide (a = b) then None else Some (bucket_of_log (Z.log2 (PeerId.dist a b))).
Proof.
  intros Ha Hb. pose proof (xor_wf a b Ha Hb) as [Hl Hw]. unfold PeerId.bucket_index.
  rewrite bucket_scan_spec by done. fold (PeerId.dist a b).
  assert (PeerId.dist a b = 0 ↔ a = b) as Hz.
  { rewrite dist_xor, Z.lxor_eq_0_iff by done. split; [|by intros ->].
    destruct Ha, Hb. apply of_be_inj; [congruence|done..]. }
  destruct (Z.eqb_spec (PeerId.dist a b) 0) as [E|E]; case_decide; try tauto. cbv zeta.
  unfold bucket_of_log, blen. rewrite Hl. done.
Qed.

Lemma dist_log_range a b :
  PeerId.wf a → PeerId.wf b → a ≠ b → 0 ≤ Z.log2 (PeerId.dist a b) < 256.
Proof.
  intros Ha Hb Hne. pose proof (xor_wf a b Ha Hb) as [Hl Hw].
  destruct (of_be_range _ Hw) as [H0 H1]. fold (PeerId.dist a b) in *.
  assert (PeerId.dist a b ≠ 0).
  { rewrite dist_xor, Z.lxor_eq_0_iff by done. intros E. apply Hne.
    destruct Ha, Hb. apply of_be_inj; [congruence|done..]. }
  split; [apply Z.log2_nonneg|]. apply Z.log2_lt_pow2; [lia|].
  unfold blen in H1. by rewrite Hl in H1.
Qed.

Lemma bucket_of_log_range h : 0 ≤ h < 256 → 0 ≤ bucket_of_log h < 256.
Proof.
  intros Hh. unfold bucket_of_log. pose proof (Z.mod_pos_bound h 8 ltac:(lia)).
  pose proof (Z.div_mod h 8 ltac:(lia)). lia.
Qed.

Lemma bucket_of_log_inj h h' : bucket_of_log h = bucket_of_log h' → h = h'.
Proof.
  unfold bucket_of_log. pose proof (Z.mod_pos_bound h 8 ltac:(lia)).
  pose proof (Z.mod_pos_bound h' 8 ltac:(lia)).
  pose proof (Z.div_mod h 8 ltac:(lia)). pose proof (Z.div_mod h' 8 ltac:(lia)). lia.
Qed.

(** Every other peer has one of the 256 buckets and two peers share a bucket
    exactly when their distances have the same highest bit, which is the
    Kademlia partition; but the numbering is not by distance: within a byte it
    grows with the distance and from byte to byte it falls, so a peer at
    distance 2^248 is in bucket 0 and one at distance 1 in bucket 248. *)
Lemma bucket_index_partition (me b c : PeerId.t) :
  PeerId.wf me → PeerId.wf b → PeerId.wf c → me ≠ b → me ≠ c →
  (∃ k, PeerId.bucket_index me b = Some k ∧ 0 ≤ k < 256 ∧
        k = 8 * (31 - Z.log2 (PeerId.dist me b) / 8) + Z.log2 (PeerId.dist me b) mod 8) ∧
  PeerId.bucket_index me me = None ∧
  (PeerId.bucket_index me b = PeerId.bucket_index me c ↔
   Z.log2 (PeerId.dist me b) = Z.log2 (PeerId.dist me c)).
Proof.
  intros Hm Hb Hc Hnb Hnc. rewrite !bucket_index_log by done.
  rewrite (decide_False (P := me = b)), (decide_False (P := me = c)), decide_True by done.
  split_and!; [|done|].
  - eexists. split; [done|]. split; [|done]. by apply bucket_of_log_range, dist_log_range.
  - split; [|by intros ->]. intros E%Some_inj. by apply bucket_of_log_inj.
Qed.

(** ** The textual form *)
Lemma to_digit16_hex d : 0 ≤ d < 16 → to_digit16 (hex_digit d) = Some d ∧ hex_digit d < 128 ∧ hex_digit d ≠ 43.
Proof.
  intros Hd. unfold hex_digit, to_digit16.
  destruct (Z.ltb_spec d 10);
    repeat match goal with |- context [?a <=? ?b] => destruct (Z.leb_spec a b); try lia end;
    simpl; split_and!; try lia; f_equal; lia.
Qed.

Lemma at_boundary_ascii s : Forall (λ c, 0 ≤ c < 128) s → at_boundary s = true.
Proof.
  intros Hs. destruct Hs as [|c s Hc _]; [done|]. simpl. by destruct (Z.leb_spec 128 c); [lia|].
Qed.

Lemma hex_encode_ascii b : bytes_wf b → Forall (λ c, 0 ≤ c < 128) (hex_encode b).
Proof.
  induction 1 as [|x b Hx _ IH]; [constructor|]. assert (0 ≤ x < 256) by exact Hx.
  assert (0 ≤ x / 16 < 16) by (split; [apply Z.div_pos; lia|apply Z.div_lt_upper_bound; lia]).
  pose proof (Z.mod_pos_bound x 16 ltac:(lia)). unfold hex_encode, hex_byte. simpl.
  assert (∀ d, 0 ≤ d < 16 → 0 ≤ hex_digit d < 128) as Hd.
  { intros d Hd. destruct (to_digit16_hex d Hd) as (_ & ? & _). unfold hex_digit in *. case_match; lia. }
  repeat constructor; try (by apply Hd); try exact IH; destruct (Hd _ ltac:(eassumption)); lia.
Qed.

Lemma hex_pairs_encode b : bytes_wf b → hex_pairs (hex_encode b) = Ok b.
Proof.
  induction 1 as [|x b Hx Hb IH]; [done|]. assert (0 ≤ x < 256) by exact Hx.
  pose proof (hex_encode_ascii (x :: b) ltac:(by constructor)) as Hascii.
  assert (0 ≤ x / 16 < 16) as Hhi by (split; [apply Z.div_pos; lia|apply Z.div_lt_upper_bound; lia]).
  pose proof (Z.mod_pos_bound x 16 ltac:(lia)) as Hlo.
  change (hex_encode (x :: b)) with (hex_digit (x / 16) :: hex_digit (x mod 16) :: hex_encode b) in *.
  cbn [hex_pairs]. rewrite !at_boundary_ascii by (done || by apply hex_encode_ascii). simpl andb. cbv iota.
  unfold from_str_radix16. destruct (to_digit16_hex _ Hhi) as (E1 & _ & Hne).
  destruct (to_digit16_hex _ Hlo) as (E2 & _ & _). destruct (Z.eqb_spec (hex_digit (x / 16)) 43); [done|].
  rewrite E1. cbn. rewrite E2. cbn. rewrite IH. cbn. do 2 f_equal.
  pose proof (Z.div_mod x 16 ltac:(lia)). lia.
Qed.

Lemma blen_hex_encode b : blen (hex_encode b) = 2 * blen b.
Proof.
  induction b as [|x b IH]; [done|]. unfold hex_encode in *. simpl concat. unfold blen in *. simpl. lia.
Qed.

Lemma hex_pairs_ascii s : Forall (λ c, 0 ≤ c < 128) s → hex_pairs s ≠ Panic.
Proof.
  induction s as [s IH] using (induction_ltof1 _ (@length Z)). unfold ltof in IH. intros Hs.
  destruct s as [|c0 [|c1 rest]]; [done..|]. cbn [hex_pairs].
  assert (Forall (λ c, 0 ≤ c < 128) rest) as Hr by (by do 2 apply Forall_inv_tail in Hs).
  rewrite !at_boundary_ascii by done. simpl. apply bind_not_Panic; [apply ok_or_not_Panic|].
  intros b _. apply bind_not_Panic; [|done]. apply IH; [simpl; lia|done].
Qed.

(** An identifier written in hexadecimal is read back, from 64 characters. *)
Lemma peer_id_text_roundtrip (p : PeerId.t) :
  PeerId.wf p → blen (hex_encode p) = 64 ∧ PeerId.from_str (hex_encode p) = Ok p.
Proof.
  intros [Hl Hw]. assert (blen p = 32) as Hb by (unfold blen; lia).
  split; [rewrite blen_hex_encode; lia|].
  unfold PeerId.from_str, hex_decode. rewrite blen_hex_encode, hex_pairs_encode, Hb by done. simpl.
  by rewrite Hb.
Qed.

(** The displayed form has an odd number of bytes, so that it is never read back. *)
Lemma displayed_not_parsed (p : PeerId.t) :
  length p = 32%nat → blen (PeerId.to_string p) = 15 ∧ PeerId.from_str (PeerId.to_string p) = Err InvalidPeerId.
Proof.
  intros Hl. assert (blen (PeerId.to_string p) = 15) as Hb.
  { unfold PeerId.to_string. rewrite !blen_app, !blen_hex_encode. unfold blen.
    rewrite length_take, length_drop, Hl. done. }
  split; [done|]. unfold PeerId.from_str, hex_decode. by rewrite Hb.
Qed.

(** Parsing an identifier never panics on ASCII text, and what it accepts has
    32 bytes; on text with other characters the two-byte slices may cut a
    character, which panics. *)
Lemma peer_id_parse_safe (s : bytes) :
  (Forall (λ c, 0 ≤ c < 128) s → PeerId.from_str s ≠ Panic) ∧
  (∀ p, PeerId.from_str s = Ok p → length p = 32%nat) ∧
  PeerId.from_str [97; 195; 169; 97] = Panic.
Proof.
  split_and!; [| |done].
  - intros Hs. unfold PeerId.from_str, hex_decode. apply bind_not_Panic.
    + pose proof (hex_pairs_ascii s Hs). destruct (negb _); [done|]. by destruct (hex_pairs s).
    + intros b _. by case_match.
  - intros p H. unfold PeerId.from_str in H. inv_ok. case_match eqn:E; [done|].
    apply negb_false_iff, Z.eqb_eq in E. unfold mret, result_ret in *. simplify_eq.
    unfold blen in E. lia.
Qed.

Module PeerIdWitness.
Definition zero : PeerId.t := replicate 32 0.
Definition far : PeerId.t := 1 :: replicate 31 0.
Definition near : PeerId.t := replicate 31 0 ++ [1].

Lemma zero_wf : PeerId.wf zero. Proof. split; [done|decide_now]. Qed.
Lemma far_wf : PeerId.wf far. Proof. split; [done|decide_now]. Qed.
Lemma near_wf : PeerId.wf near. Proof. split; [done|decide_now]. Qed.

Lemma xor_metric_witness :
  PeerId.dist zero near = 1 ∧ PeerId.dist far near ≤ PeerId.dist far zero + PeerId.dist zero near.
Proof.
  split; [vm_compute; reflexivity|].
  apply (xor_metric far zero near far_wf zero_wf near_wf).
Defined.

Lemma bucket_index_partition_witness :
  PeerId.bucket_index zero far = Some 0 ∧ PeerId.bucket_index zero near = Some 248 ∧
  PeerId.dist zero near < PeerId.dist zero far ∧ PeerId.bucket_index zero zero = None.
Proof.
  split_and!; [vm_compute; reflexivity..|].
  apply (bucket_index_partition zero far near zero_wf far_wf near_wf); decide_now.
Defined.

Lemma peer_id_text_roundtrip_witness : PeerId.from_str (hex_encode far) = Ok far.
Proof. apply (peer_id_text_roundtrip far far_wf). Defined.

Lemma peer_id_parse_safe_witness :
  PeerId.from_str [43; 102] = Err InvalidPeerId ∧ PeerId.from_str [43; 102] ≠ Panic.
Proof.
  split; [vm_compute; reflexivity|]. apply (peer_id_parse_safe [43; 102]). decide_now.
Defined.
End PeerIdWitness.
