(* ===== verification/Identity.v ===== *)
(** ceky-crypto/src/identity.rs, [Identity]: the long-term keys of a node, their
    binding signature and their storage in a file. Signatures, Diffie-Hellman
    and hashing are the classes of [CryptoTypes]; a random key is an argument. *)
From S2P Require Import Prelude Bytes CryptoTypes PeerId.

Local Open Scope Z_scope.

Module Identity.
Record t : Set := mk {
  ed25519_signing_key : bytes;
  ed25519_public_key : bytes;
  x25519_static_secret : bytes;
  x25519_public_key : bytes;
  x25519_signature : bytes;
  peer_id : PeerId.t
}.

(** The files of the node, by path. *)
Abbreviation files := (gmap bytes bytes).

Section Ops.
Context `{SH : !Sha256, ED : !Ed25519, XX : !X25519}.

(** [ed_random] and [x_random] are the 32-byte draws from the system generator. *)
Definition generate (ed_random x_random : bytes) : t :=
  let ed25519_signing_key := ed_random in
  let ed25519_public_key := ed_public ed25519_signing_key in
  let x25519_static_secret := x_random in
  let x25519_public_key := x_public x25519_static_secret in
  let x25519_signature := ed_sign ed25519_signing_key x25519_public_key in
  let peer_id := PeerId.from_public_key ed25519_public_key in
  mk ed25519_signing_key ed25519_public_key x25519_static_secret x25519_public_key
     x25519_signature peer_id.

Definition verify_peer_binding (ed25519_pk x25519_pk signature : bytes) : result CryptoError PeerId.t :=
  if ed_verify ed25519_pk x25519_pk signature
  then Ok (PeerId.from_public_key ed25519_pk)
  else Err InvalidSignature.

Definition sign (self : t) (data : bytes) : bytes := ed_sign (ed25519_signing_key self) data.

(** [written] says whether [std::fs::write] succeeds. *)
Definition save_to_file (self : t) (written : bool) (fs : files) (path : bytes)
    : files * result CryptoError unit :=
  let data := ed25519_signing_key self ++ x25519_static_secret self in
  if written then (<[path := data]> fs, Ok tt) else (fs, Err Io).

Definition load_from_file (fs : files) (path : bytes) : result CryptoError t :=
  data ← ok_or (fs !! path) Io;
  if negb (blen data =? 64) then Err Serialization
  else
    ed25519_bytes ← slice 0 32 data;
    x25519_bytes ← slice 32 64 data;
    let ed25519_signing_key := ed25519_bytes in
    let ed25519_public_key := ed_public ed25519_signing_key in
    let x25519_static_secret := x25519_bytes in
    let x25519_public_key := x_public x25519_static_secret in
    let x25519_signature := ed_sign ed25519_signing_key x25519_public_key in
    let peer_id := PeerId.from_public_key ed25519_public_key in
    mret (mk ed25519_signing_key ed25519_public_key x25519_static_secret x25519_public_key
             x25519_signature peer_id).
End Ops.

(** ** Consistency of an identity: everything follows from the two secrets *)
Section Laws.
Context `{SH : !Sha256, SOK : !Sha256Ok, ED : !Ed25519, EOK : !Ed25519Ok, XX : !X25519, XOK : !X25519Ok}.

Record wf (i : t) : Prop := {
  wf_ed : length (ed25519_signing_key i) = 32%nat;
  wf_x : length (x25519_static_secret i) = 32%nat;
  wf_derived : i = generate (ed25519_signing_key i) (x25519_static_secret i)
}.

Lemma generate_wf ed x : length ed = 32%nat → length x = 32%nat → wf (generate ed x).
Proof. by split. Qed.

(** The binding of a consistent identity is accepted by its peers, as its own id. *)
Lemma binding_accepted i :
  wf i →
  verify_peer_binding (ed25519_public_key i) (x25519_public_key i) (x25519_signature i) =
  Ok (peer_id i).
Proof. intros [_ _ ->]. unfold verify_peer_binding. simpl. by rewrite ed_correct. Qed.

Lemma load_saved fs path ed x :
  length ed = 32%nat → length x = 32%nat → fs !! path = Some (ed ++ x) →
  load_from_file fs path = Ok (generate ed x).
Proof.
  intros He Hx Hp. unfold load_from_file. rewrite Hp. simpl.
  assert (blen (ed ++ x) = 64) as -> by (rewrite blen_app; unfold blen; lia). simpl.
  rewrite slice_prefix by (unfold blen; lia). simpl.
  pose proof (slice_mid (E:=CryptoError) 32 64 ed x []) as Hs. rewrite app_nil_r in Hs.
  rewrite Hs by (unfold blen; lia). done.
Qed.

(** An identity that is saved and loaded again is the same identity, also
    when other files are written in between, and its X25519 key is accepted by
    a peer as bound to its identifier. *)
Lemma identity_save_load (i : t) (fs fs' fs2 : files) (path : bytes) :
  wf i → save_to_file i true fs path = (fs', Ok tt) → fs2 !! path = fs' !! path →
  load_from_file fs2 path = Ok i ∧
  verify_peer_binding (ed25519_public_key i) (x25519_public_key i) (x25519_signature i) =
    Ok (peer_id i).
Proof.
  intros Hi Hs Hsame. split; [|by apply binding_accepted]. injection Hs as <-.
  rewrite lookup_insert_eq in Hsame. destruct Hi as [He Hx Hd].
  rewrite (load_saved _ _ _ _ He Hx Hsame). by rewrite <- Hd.
Qed.

(** Loading never panics; it fails exactly when the file is missing or is not
    64 bytes long, and every identity it returns is consistent, with an
    identifier of 32 bytes. *)
Lemma identity_load_sound (fs : files) (path : bytes) :
  load_from_file fs path ≠ Panic ∧
  (is_ok (load_from_file fs path) = true ↔ ∃ data, fs !! path = Some data ∧ blen data = 64) ∧
  (∀ i, load_from_file fs path = Ok i → wf i ∧ PeerId.wf (peer_id i)).
Proof.
  destruct (fs !! path) as [data|] eqn:Hp.
  2: { unfold load_from_file. rewrite Hp. simpl. split_and!; naive_solver. }
  destruct (decide (blen data = 64)) as [Hl|Hl].
  - assert (length (take 32 data) = 32%nat ∧ length (drop 32 data) = 32%nat) as [He Hx].
    { unfold blen in Hl. rewrite length_take, length_drop. lia. }
    rewrite <- (take_drop 32 data) in Hp. rewrite (load_saved _ _ _ _ He Hx Hp).
    split_and!; [done| |].
    + split; [|done]. intros _. by exists data.
    + intros i [= <-]. split; [by apply generate_wf|]. split; [apply sha256_length|apply sha256_bytes].
  - unfold load_from_file. rewrite Hp. simpl.
    destruct (Z.eqb_spec (blen data) 64); [done|]. simpl. split_and!; naive_solver.
Qed.
End Laws.
End Identity.

Module IdentityWitness.
Import Identity ToyCrypto.

Definition node : Identity.t := generate (replicate 32 1) (replicate 32 2).
Definition path : bytes := [107; 101; 121].

Lemma identity_save_load_witness :
  load_from_file (<[[0] := []]> (fst (save_to_file node true ∅ path))) path = Ok node.
Proof.
  refine (proj1 (identity_save_load node ∅ (fst (save_to_file node true ∅ path)) _ path _ _ _)).
  - by apply generate_wf.
  - done.
  - by rewrite lookup_insert_ne.
Defined.

(** A file of 63 bytes is refused. *)
Lemma identity_load_sound_witness :
  load_from_file {[path := replicate 63 0]} path = Err Serialization ∧
  wf node.
Proof.
  split; [vm_compute; reflexivity|].
  apply (identity_load_sound {[path := replicate 32 1 ++ replicate 32 2]} path).
  vm_compute. reflexivity.
Defined.
End IdentityWitness.
