(* ===== verification/Noise.v ===== *)
(** ceky-crypto/src/noise.rs: the Noise XX handshake. Key derivation, the three
    messages with the state they leave behind, and the session keys. The random
    ephemeral keys are arguments; the primitives are the classes of
    [CryptoTypes]. *)
From S2P Require Import Prelude Bytes CryptoTypes PeerId Identity Replay Session.

Local Open Scope Z_scope.
Local Open Scope method_scope.

(** [b"Noise_XX_25519_ChaChaPoly_SHA256"] *)
Definition PROTOCOL_NAME : bytes :=
  [78; 111; 105; 115; 101; 95; 88; 88; 95; 50; 53; 53; 49; 57; 95; 67; 104; 97; 67; 104; 97;
   80; 111; 108; 121; 95; 83; 72; 65; 50; 53; 54].

Inductive InternalState : Set :=
| New
| InitSentMsg1 (ephemeral_secret_bytes ephemeral_public : bytes)
| RespSentMsg2 (remote_ephemeral our_ephemeral_secret_bytes : bytes)
| Complete (send_key recv_key remote_static : bytes).

Module NoiseHandshake.
Record t : Set := mk {
  identity : Identity.t;
  is_initiator : bool;
  h : bytes;
  ck : bytes;
  state : InternalState
}.

Section Ops.
Context `{SH : !Sha256, XX : !X25519, AE : !Aead}.

Definition hmac_sha256 (key data : bytes) : bytes :=
  let k_prime :=
    if blen key <=? 64 then key ++ replicate (64 - length key) 0
    else sha256 key ++ replicate 32 0 in
  let ipad := map (Z.lxor 0x36) k_prime in
  let opad := map (Z.lxor 0x5c) k_prime in
  let inner_hash := sha256 (ipad ++ data) in
  sha256 (opad ++ inner_hash).

Definition initialize_symmetric_state : bytes * bytes :=
  let h := sha256 PROTOCOL_NAME in (h, h).

Definition new_initiator (identity : Identity.t) : t :=
  let '(h, ck) := initialize_symmetric_state in mk identity true h ck New.

Definition new_responder (identity : Identity.t) : t :=
  let '(h, ck) := initialize_symmetric_state in mk identity false h ck New.

Definition hkdf (chaining_key input_key_material : bytes) : bytes * bytes :=
  let prk := hmac_sha256 chaining_key input_key_material in
  let t1 := hmac_sha256 prk [1] in
  let input2 := t1 ++ [2] in
  let t2 := hmac_sha256 prk input2 in
  (t1, t2).

Definition dh (secret_bytes public_key : bytes) : bytes := x_dh secret_bytes public_key.

(** Field updates of [&mut self]. *)
Definition set_ck (ck : bytes) (s : t) : t := mk (identity s) (is_initiator s) (h s) ck (state s).
Definition set_state (st : InternalState) (s : t) : t :=
  mk (identity s) (is_initiator s) (h s) (ck s) st.

Definition mix_hash {E} (data : bytes) : method t E unit :=
  mset (λ s, mk (identity s) (is_initiator s) (sha256 (h s ++ data)) (ck s) (state s)).

Definition encrypt_with_ad (key : bytes) (nonce_counter : Z) (ad plaintext : bytes)
    : result CryptoError bytes :=
  cipher ← ok_or (cipher_new key) HandshakeFailed;
  let nonce := replicate 4 0 ++ le_bytes 8 nonce_counter in
  ok_or (aead_encrypt cipher nonce ad plaintext) HandshakeFailed.

Definition decrypt_with_ad (key : bytes) (nonce_counter : Z) (ad ciphertext : bytes)
    : result CryptoError bytes :=
  cipher ← ok_or (cipher_new key) HandshakeFailed;
  let nonce := replicate 4 0 ++ le_bytes 8 nonce_counter in
  ok_or (aead_decrypt cipher nonce ad ciphertext) DecryptionFailed.

(** [let mut a = [0u8; 32]; a.copy_from_slice(b)] panics on another length. *)
Definition copy32 {E} (b : bytes) : result E bytes := if blen b =? 32 then Ok b else Panic.

(** [let (new_ck, k) = Self::hkdf(&self.ck, input); self.ck = new_ck;] *)
Definition advance_ck {E} (input : bytes) : method t E bytes :=
  let? s := mself in
  let '(new_ck, k) := hkdf (ck s) input in
  mset (set_ck new_ck) ;? mdone k.

(** [random] is the key drawn for [static_ephemeral]; the [EphemeralSecret] drawn
    before it is never used. *)
Definition create_message1 (random : bytes) : method t CryptoError bytes :=
  let? s := mself in
  mtry (guard_err (is_initiator s && negb match state s with New => true | _ => false end)
          InvalidHandshakeState) ;?
  let ephemeral_public_bytes := x_public random in
  mix_hash ephemeral_public_bytes ;?
  mset (set_state (InitSentMsg1 random ephemeral_public_bytes)) ;?
  mdone ephemeral_public_bytes.

Definition process_message1_create_message2 (random msg1 : bytes) : method t CryptoError bytes :=
  mtry (guard_err (negb (blen msg1 =? 32)) HandshakeFailed) ;?
  let remote_ephemeral := msg1 in
  mix_hash remote_ephemeral ;?
  let our_ephemeral_public_bytes := x_public random in
  mix_hash our_ephemeral_public_bytes ;?
  let dh_ee := dh random remote_ephemeral in
  let? k1 := advance_ck dh_ee in
  let? s := mself in
  let our_static_bytes := Identity.x25519_public_key (identity s) in
  let? encrypted_static := mtry (encrypt_with_ad k1 0 (h s) our_static_bytes) in
  mix_hash encrypted_static ;?
  let dh_es := dh (Identity.x25519_static_secret (identity s)) remote_ephemeral in
  let? k2 := advance_ck dh_es in
  let? s := mself in
  let? encrypted_payload := mtry (encrypt_with_ad k2 0 (h s) []) in
  mix_hash encrypted_payload ;?
  let msg2 := our_ephemeral_public_bytes ++ encrypted_static ++ encrypted_payload in
  mset (set_state (RespSentMsg2 remote_ephemeral random)) ;?
  mdone msg2.

Definition process_message2_create_message3 (msg2 : bytes) : method t CryptoError bytes :=
  let? s := mself in
  let? ephemeral_secret_bytes :=
    mtry match state s with
         | InitSentMsg1 ephemeral_secret_bytes _ => Ok ephemeral_secret_bytes
         | _ => Err InvalidHandshakeState
         end in
  mtry (guard_err (blen msg2 <? 32 + 48 + 16) HandshakeFailed) ;?
  let? remote_ephemeral := mtry (slice 0 32 msg2) in
  mix_hash remote_ephemeral ;?
  let dh_ee := dh ephemeral_secret_bytes remote_ephemeral in
  let? k1 := advance_ck dh_ee in
  let? encrypted_static := mtry (slice 32 (32 + 48) msg2) in
  let? s := mself in
  let? remote_static_bytes := mtry (decrypt_with_ad k1 0 (h s) encrypted_static) in
  mix_hash encrypted_static ;?
  let? remote_static := mtry (copy32 remote_static_bytes) in
  let dh_es := dh ephemeral_secret_bytes remote_static in
  let? k2 := advance_ck dh_es in
  let? encrypted_payload := mtry (slice (32 + 48) (blen msg2) msg2) in
  let? s := mself in
  let? _payload := mtry (decrypt_with_ad k2 0 (h s) encrypted_payload) in
  mix_hash encrypted_payload ;?
  let our_static_bytes := Identity.x25519_public_key (identity s) in
  let? k3 := advance_ck [] in
  let? s := mself in
  let? encrypted_our_static := mtry (encrypt_with_ad k3 0 (h s) our_static_bytes) in
  mix_hash encrypted_our_static ;?
  let dh_se := dh (Identity.x25519_static_secret (identity s)) remote_ephemeral in
  let? _k := advance_ck dh_se in
  let? s := mself in
  let '(send_key, recv_key) := hkdf (ck s) [] in
  mset (set_state (Complete send_key recv_key remote_static)) ;?
  mdone encrypted_our_static.

Definition process_message3 (msg3 : bytes) : method t CryptoError unit :=
  let? s := mself in
  let? our_ephemeral_bytes :=
    mtry match state s with
         | RespSentMsg2 _ our_ephemeral_secret_bytes => Ok our_ephemeral_secret_bytes
         | _ => Err InvalidHandshakeState
         end in
  let? k3 := advance_ck [] in
  let? s := mself in
  let? remote_static_bytes := mtry (decrypt_with_ad k3 0 (h s) msg3) in
  mix_hash msg3 ;?
  let? remote_static := mtry (copy32 remote_static_bytes) in
  let dh_se := dh our_ephemeral_bytes remote_static in
  let? _k := advance_ck dh_se in
  let? s := mself in
  let '(recv_key, send_key) := hkdf (ck s) [] in
  mset (set_state (Complete send_key recv_key remote_static)).

Definition into_session_keys (s : t) : result CryptoError SessionKeys.t :=
  match state s with
  | Complete send_key recv_key remote_static => Ok (SessionKeys.mk send_key recv_key remote_static)
  | _ => Err InvalidHandshakeState
  end.

Definition is_complete (s : t) : bool :=
  match state s with Complete _ _ _ => true | _ => false end.

(** The whole exchange over a faithful transport. *)
Definition handshake (ra rb : bytes) (a b : Identity.t) : result CryptoError (t * t) :=
  match create_message1 ra (new_initiator a) with
  | (i1, Ok msg1) =>
      match process_message1_create_message2 rb msg1 (new_responder b) with
      | (r1, Ok msg2) =>
          match process_message2_create_message3 msg2 i1 with
          | (i2, Ok msg3) =>
              match process_message3 msg3 r1 with
              | (r2, Ok tt) => Ok (i2, r2)
              | (_, Err e) => Err e
              | (_, Panic) => Panic
              end
          | (_, Err e) => Err e
          | (_, Panic) => Panic
          end
      | (_, Err e) => Err e
      | (_, Panic) => Panic
      end
  | (_, Err e) => Err e
  | (_, Panic) => Panic
  end.
End Ops.

(** ** Laws *)
Section Laws.
Context `{SH : !Sha256, SOK : !Sha256Ok, XX : !X25519, XOK : !X25519Ok, ED : !Ed25519,
          AE : !Aead, AOK : !AeadOk}.

Lemma hkdf_length ck ikm : blen (hkdf ck ikm).1 = 32 ∧ blen (hkdf ck ikm).2 = 32.
Proof. unfold hkdf, hmac_sha256, blen. simpl. by rewrite !sha256_length. Qed.

Lemma hkdf_keys ck ikm ck' k : hkdf ck ikm = (ck', k) → blen ck' = 32 ∧ blen k = 32.
Proof. intros H. pose proof (hkdf_length ck ikm) as Hl. by rewrite H in Hl. Qed.

(** What one side encrypts the other decrypts. *)
Lemma seal_open key n ad p :
  blen key = 32 → blen p ≤ 32 →
  ∃ c, encrypt_with_ad key n ad p = Ok c ∧ decrypt_with_ad key n ad c = Ok p ∧
       blen c = blen p + 16 ∧ (bytes_wf p → bytes_wf c).
Proof.
  intros Hk Hp. unfold encrypt_with_ad, decrypt_with_ad, cipher_new. rewrite Hk. simpl.
  destruct (aead_total key (replicate 4 0 ++ le_bytes 8 n) ad p) as [c Hc].
  - done.
  - unfold blen. by rewrite length_app, length_replicate, length_le_bytes.
  - unfold AEAD_MAX. lia.
  - exists c. simpl in Hc. rewrite Hc. split; [done|].
    rewrite (aead_correct _ _ _ _ _ Hc). split; [done|]. split; [by apply aead_length in Hc|].
    intros Hw. by eapply aead_bytes.
Qed.

Lemma open_sealed key n ad p c :
  encrypt_with_ad key n ad p = Ok c → decrypt_with_ad key n ad c = Ok p.
Proof.
  unfold encrypt_with_ad, decrypt_with_ad. destruct (cipher_new key); [|done]. simpl.
  intros H%ok_or_Ok%aead_correct. simpl in H. by rewrite H.
Qed.

Lemma blen_x_public s : blen (x_public s) = 32.
Proof. unfold blen. by rewrite x_public_length. Qed.

(** Run a method whose calls have known results. *)
Ltac hrun :=
  repeat first
    [ progress unfold mthen, mself, mtry, mset, mdone, mix_hash, advance_ck, set_ck, set_state, dh
    | progress cbn [identity is_initiator h ck state guard_err]
    | match goal with
      | E : hkdf ?c ?k = _ |- context [hkdf ?c ?k] => rewrite E
      | E : encrypt_with_ad ?k ?n ?ad ?p = _ |- context [encrypt_with_ad ?k ?n ?ad ?p] => rewrite E
      | E : decrypt_with_ad ?k ?n ?ad ?p = _ |- context [decrypt_with_ad ?k ?n ?ad ?p] => rewrite E
      | E : slice ?i ?j ?b = _ |- context [slice ?i ?j ?b] => rewrite E
      | E : copy32 ?b = _ |- context [copy32 ?b] => rewrite E
      end ].

(** The transcript hash. *)
Definition absorb (hh : bytes) (ds : list bytes) : bytes := fold_left (λ x d, sha256 (x ++ d)) ds hh.

Lemma message1_run ra s :
  state s = New →
  create_message1 ra s =
  (mk (identity s) (is_initiator s) (absorb (h s) [x_public ra]) (ck s)
      (InitSentMsg1 ra (x_public ra)), Ok (x_public ra)).
Proof.
  intros Hst. unfold create_message1, mthen at 1, mself. rewrite Hst. simpl negb.
  rewrite andb_false_r. by hrun.
Qed.

Lemma message2_run rb e s ck1 k1 c1 ck2 k2 c2 :
  blen e = 32 →
  hkdf (ck s) (x_dh rb e) = (ck1, k1) →
  encrypt_with_ad k1 0 (absorb (h s) [e; x_public rb]) (Identity.x25519_public_key (identity s)) = Ok c1 →
  hkdf ck1 (x_dh (Identity.x25519_static_secret (identity s)) e) = (ck2, k2) →
  encrypt_with_ad k2 0 (absorb (h s) [e; x_public rb; c1]) [] = Ok c2 →
  process_message1_create_message2 rb e s =
  (mk (identity s) (is_initiator s) (absorb (h s) [e; x_public rb; c1; c2]) ck2 (RespSentMsg2 e rb),
   Ok (x_public rb ++ c1 ++ c2)).
Proof.
  intros He H1 H2 H3 H4. unfold process_message1_create_message2. rewrite He. simpl negb.
  unfold absorb, fold_left in *. hrun. done.
Qed.

Lemma message3_run ea pa eb c1 c2 sb s c3 ck1 k1 ck2 k2 ck3 k3 ck4 k4 ks kr :
  state s = InitSentMsg1 ea pa →
  blen eb = 32 → blen c1 = 48 → blen c2 = 16 → blen sb = 32 →
  hkdf (ck s) (x_dh ea eb) = (ck1, k1) →
  decrypt_with_ad k1 0 (absorb (h s) [eb]) c1 = Ok sb →
  hkdf ck1 (x_dh ea sb) = (ck2, k2) →
  decrypt_with_ad k2 0 (absorb (h s) [eb; c1]) c2 = Ok [] →
  hkdf ck2 [] = (ck3, k3) →
  encrypt_with_ad k3 0 (absorb (h s) [eb; c1; c2]) (Identity.x25519_public_key (identity s)) = Ok c3 →
  hkdf ck3 (x_dh (Identity.x25519_static_secret (identity s)) eb) = (ck4, k4) →
  hkdf ck4 [] = (ks, kr) →
  process_message2_create_message3 (eb ++ c1 ++ c2) s =
  (mk (identity s) (is_initiator s) (absorb (h s) [eb; c1; c2; c3]) ck4 (Complete ks kr sb), Ok c3).
Proof.
  intros Hst Hb Hc1 Hc2 Hsb. intros. unfold process_message2_create_message3.
  assert (blen (eb ++ c1 ++ c2) = 96) as Hl by (rewrite !blen_app; lia). rewrite Hl.
  assert (slice (E:=CryptoError) 0 32 (eb ++ c1 ++ c2) = Ok eb) by (by apply slice_prefix).
  assert (slice (E:=CryptoError) 32 (32 + 48) (eb ++ c1 ++ c2) = Ok c1) by (apply slice_mid; lia).
  assert (slice (E:=CryptoError) (32 + 48) 96 (eb ++ c1 ++ c2) = Ok c2).
  { pose proof (slice_mid (E:=CryptoError) 80 96 (eb ++ c1) c2 []) as Hs.
    rewrite app_nil_r, <- app_assoc in Hs. apply Hs; rewrite blen_app; lia. }
  assert (copy32 (E:=CryptoError) sb = Ok sb) by (unfold copy32; by rewrite Hsb).
  change (96 <? 32 + 48 + 16) with false. unfold absorb, fold_left in *.
  unfold mthen at 1, mself at 1. rewrite Hst. hrun. done.
Qed.

Lemma finish_run e eb c3 sa s ck3 k3 ck4 k4 ks kr :
  state s = RespSentMsg2 e eb → blen sa = 32 →
  hkdf (ck s) [] = (ck3, k3) →
  decrypt_with_ad k3 0 (h s) c3 = Ok sa →
  hkdf ck3 (x_dh eb sa) = (ck4, k4) →
  hkdf ck4 [] = (ks, kr) →
  process_message3 c3 s =
  (mk (identity s) (is_initiator s) (absorb (h s) [c3]) ck4 (Complete kr ks sa), Ok tt).
Proof.
  intros Hst Hsa. intros. unfold process_message3.
  assert (copy32 (E:=CryptoError) sa = Ok sa) by (unfold copy32; by rewrite Hsa).
  unfold absorb, fold_left in *. unfold mthen at 1, mself at 1. rewrite Hst. hrun. done.
Qed.

Lemma identity_public i :
  Identity.wf i → Identity.x25519_public_key i = x_public (Identity.x25519_static_secret i).
Proof. intros [_ _ Hi]. by rewrite Hi at 1. Qed.

(** The four calls of a completed handshake; its messages are short byte strings. *)
Lemma handshake_messages ra rb a b :
  Identity.wf a → Identity.wf b →
  ∃ i1 r1 i r msg1 msg2 msg3 k1 k2,
    create_message1 ra (new_initiator a) = (i1, Ok msg1) ∧
    process_message1_create_message2 rb msg1 (new_responder b) = (r1, Ok msg2) ∧
    process_message2_create_message3 msg2 i1 = (i, Ok msg3) ∧
    process_message3 msg3 r1 = (r, Ok tt) ∧ blen k1 = 32 ∧ blen k2 = 32 ∧
    into_session_keys i = Ok (SessionKeys.mk k1 k2 (Identity.x25519_public_key b)) ∧
    into_session_keys r = Ok (SessionKeys.mk k2 k1 (Identity.x25519_public_key a)) ∧
    Forall (λ m, bytes_wf m ∧ blen m ≤ 96) [msg1; msg2; msg3].
Proof.
  intros Hpa%identity_public Hpb%identity_public.
  set (h0 := sha256 PROTOCOL_NAME). set (pa := Identity.x25519_public_key a) in *.
  set (pb := Identity.x25519_public_key b) in *.
  assert (blen pa = 32 ∧ bytes_wf pa) as [? Wa] by (rewrite Hpa; split; [apply blen_x_public|apply x_public_bytes]).
  assert (blen pb = 32 ∧ bytes_wf pb) as [? Wb] by (rewrite Hpb; split; [apply blen_x_public|apply x_public_bytes]).
  destruct (hkdf h0 (x_dh rb (x_public ra))) as [ck1 k1] eqn:E1.
  destruct (seal_open k1 0 (absorb h0 [x_public ra; x_public rb]) pb) as (c1 & S1 & O1 & L1 & W1);
    [by eapply hkdf_keys|lia|].
  destruct (hkdf ck1 (x_dh (Identity.x25519_static_secret b) (x_public ra))) as [ck2 k2] eqn:E2.
  destruct (seal_open k2 0 (absorb h0 [x_public ra; x_public rb; c1]) []) as (c2 & S2 & O2 & L2 & W2);
    [by eapply hkdf_keys|done|].
  destruct (hkdf ck2 []) as [ck3 k3] eqn:E3.
  destruct (seal_open k3 0 (absorb h0 [x_public ra; x_public rb; c1; c2]) pa) as (c3 & S3 & O3 & L3 & W3);
    [by eapply hkdf_keys|lia|].
  destruct (hkdf ck3 (x_dh (Identity.x25519_static_secret a) (x_public rb))) as [ck4 k4] eqn:E4.
  destruct (hkdf ck4 []) as [ks kr] eqn:E5. destruct (hkdf_keys _ _ _ _ E5).
  eexists _, _, _, _, (x_public ra), (x_public rb ++ c1 ++ c2), c3, ks, kr. split_and!.
  - by apply message1_run.
  - by apply (message2_run rb (x_public ra) (new_responder b) ck1 k1 c1 ck2 k2 c2 (blen_x_public ra)).
  - apply (message3_run ra (x_public ra) (x_public rb) c1 c2 pb _ c3 ck1 k1 ck2 k2 ck3 k3 ck4 k4 ks kr);
      try done; try lia; [apply blen_x_public|by rewrite x_dh_comm|by rewrite Hpb, x_dh_comm].
  - apply (finish_run (x_public ra) rb c3 pa _ ck3 k3 ck4 k4 ks kr); try done. by rewrite Hpa, x_dh_comm.
  - done.
  - done.
  - done.
  - done.
  - pose proof (blen_x_public ra). pose proof (blen_x_public rb). change (blen []) with 0 in L2.
    repeat constructor; rewrite ?blen_app; try lia; try apply x_public_bytes; [|by apply W3].
    repeat apply Forall_app_2; [apply x_public_bytes|by apply W1|by apply W2].
Qed.

Lemma handshake_completes ra rb a b :
  Identity.wf a → Identity.wf b →
  ∃ i r k1 k2,
    handshake ra rb a b = Ok (i, r) ∧ blen k1 = 32 ∧ blen k2 = 32 ∧
    into_session_keys i = Ok (SessionKeys.mk k1 k2 (Identity.x25519_public_key b)) ∧
    into_session_keys r = Ok (SessionKeys.mk k2 k1 (Identity.x25519_public_key a)).
Proof.
  intros Ha Hb.
  destruct (handshake_messages ra rb a b Ha Hb) as (i1 & r1 & i & r & m1 & m2 & m3 & k1 & k2 & E1 & E2 & E3 & E4 & ? & ? & ? & ? & _).
  exists i, r, k1, k2. unfold handshake. by rewrite E1, E2, E3, E4.
Qed.

Lemma from_keys_ok k1 k2 rs :
  blen k1 = 32 → blen k2 = 32 →
  SecureSession.from_keys (SessionKeys.mk k1 k2 rs) =
  Ok (SecureSession.mk k1 k2 0 0 ReplayWindow.new rs).
Proof. intros H1 H2. unfold SecureSession.from_keys, cipher_new. simpl. by rewrite H1, H2. Qed.

(** C3: for all identities and ephemeral keys the three-message exchange completes
    on both sides, each side learns the other's static key, and the two sessions
    built from the keys are a working pair: each one's sending key is the
    other's receiving key, and a payload sealed by either side is opened by the
    other. *)
Theorem handshake_agreement (ra rb : bytes) (a b : Identity.t) :
  Identity.wf a → Identity.wf b →
  ∃ i r ka kb sa sb,
    handshake ra rb a b = Ok (i, r) ∧ is_complete i = true ∧ is_complete r = true ∧
    into_session_keys i = Ok ka ∧ into_session_keys r = Ok kb ∧
    SessionKeys.remote_static ka = Identity.x25519_public_key b ∧
    SessionKeys.remote_static kb = Identity.x25519_public_key a ∧
    SecureSession.from_keys ka = Ok sa ∧ SecureSession.from_keys kb = Ok sb ∧
    SecureSession.send_cipher sa = SecureSession.recv_cipher sb ∧
    SecureSession.send_cipher sb = SecureSession.recv_cipher sa ∧
    (∀ m, blen m ≤ AEAD_MAX → ∃ c,
       (SecureSession.encrypt sa m).2 = Ok (0, c) ∧ (SecureSession.decrypt sb 0 c).2 = Ok m) ∧
    (∀ m, blen m ≤ AEAD_MAX → ∃ c,
       (SecureSession.encrypt sb m).2 = Ok (0, c) ∧ (SecureSession.decrypt sa 0 c).2 = Ok m).
Proof.
  intros Ha Hb. destruct (handshake_completes ra rb a b Ha Hb) as (i & r & k1 & k2 & Hh & L1 & L2 & Hi & Hr).
  assert (∀ s, is_ok (into_session_keys s) = true → is_complete s = true) as Hc.
  { intros s. unfold into_session_keys, is_complete. by destruct (state s). }
  assert (∀ s s' m, SecureSession.send_cipher s = SecureSession.recv_cipher s' →
    blen (SecureSession.send_cipher s) = 32 → SecureSession.send_nonce s = 0 →
    SecureSession.replay_window s' = ReplayWindow.new → blen m ≤ AEAD_MAX → ∃ c,
    (SecureSession.encrypt s m).2 = Ok (0, c) ∧ (SecureSession.decrypt s' 0 c).2 = Ok m) as Hpair.
  { intros s s' m Hk Hl Hn Hw Hm. rewrite SecureSession.encrypt_no_ad.
    destruct (SecureSession.encrypt_with_ad_ok s m []) as (c & He & [_ Hc']); [done|by rewrite Hn|done|].
    exists c. rewrite He, Hn in *. split; [done|]. rewrite Hk in Hc'.
    apply aead_correct in Hc'. unfold SecureSession.decrypt, SecureSession.window_check.
    rewrite Hw. simpl in *. by rewrite Hc'. }
  eexists i, r, _, _, _, _.
  split_and!; [done|apply Hc; by rewrite Hi|apply Hc; by rewrite Hr|done..|by apply from_keys_ok|
    by apply from_keys_ok|done|done|intros m; by apply Hpair|intros m; by apply Hpair].
Qed.

(** ** Errors *)
Lemma encrypt_with_ad_not_Panic k n ad p : encrypt_with_ad k n ad p ≠ Panic.
Proof. unfold encrypt_with_ad. apply bind_not_Panic; intros; apply ok_or_not_Panic. Qed.

Lemma decrypt_with_ad_not_Panic k n ad p : decrypt_with_ad k n ad p ≠ Panic.
Proof. unfold decrypt_with_ad. apply bind_not_Panic; intros; apply ok_or_not_Panic. Qed.

Lemma decrypt_with_ad_length k n ad c p :
  decrypt_with_ad k n ad c = Ok p → blen c = blen p + 16.
Proof. unfold decrypt_with_ad. intros H. inv_ok. by eapply aead_open_length. Qed.

Lemma advance_ck_not_Panic input s : (advance_ck (E:=CryptoError) input s).2 ≠ Panic.
Proof. unfold advance_ck, mthen, mself. by destruct (hkdf _ _). Qed.

Lemma slice_len (i j : Z) b :
  0 ≤ i ≤ j → j ≤ blen b → ∃ r, slice (E:=CryptoError) i j b = Ok r ∧ blen r = j - i.
Proof.
  intros Hij Hj. rewrite slice_in by done. eexists. split; [done|].
  unfold blen in *. rewrite length_take, length_drop. lia.
Qed.

(** Walk through a method whose calls cannot panic. *)
Ltac msafe :=
  repeat first
    [ apply mthen_not_Panic;
      [ first [ done | apply advance_ck_not_Panic | apply encrypt_with_ad_not_Panic
              | apply decrypt_with_ad_not_Panic ]
      | intros ? ? _ ]
    | done ].

(** Whatever the first message contains, the responder does not panic on it. *)
Lemma message1_not_Panic (random msg1 : bytes) (s : t) :
  (process_message1_create_message2 random msg1 s).2 ≠ Panic.
Proof.
  unfold process_message1_create_message2. apply mthen_not_Panic; [apply guard_err_not_Panic|intros ? ? _].
  msafe.
Qed.

(** Nor does the initiator on the second. *)
Lemma message2_not_Panic (msg2 : bytes) (s : t) : (process_message2_create_message3 msg2 s).2 ≠ Panic.
Proof.
  unfold process_message2_create_message3, mthen at 1, mself at 1. destruct (state s) as [|es ep| |]; [done| |done..]. unfold mthen at 1 2, mtry at 1 2.
  destruct (Z.ltb_spec (blen msg2) (32 + 48 + 16)); [done|].
  destruct (slice_len 0 32 msg2) as (re & -> & _); [lia..|].
  destruct (slice_len 32 (32 + 48) msg2) as (c1 & -> & Hc1); [lia..|].
  destruct (slice_len (32 + 48) (blen msg2) msg2) as (c2 & -> & _); [lia..|].
  simpl guard_err. cbv iota. rewrite mthen_try_ok.
  do 2 (apply mthen_not_Panic; [msafe|intros ? ? _]). rewrite mthen_try_ok.
  apply mthen_not_Panic; [msafe|intros ? ? _].
  apply mthen_not_Panic; [apply decrypt_with_ad_not_Panic|]. intros s6 p Hp.
  injection Hp as _ Hp%decrypt_with_ad_length.
  assert (copy32 (E:=CryptoError) p = Ok p) as ->.
  { unfold copy32. by replace (blen p) with 32 by lia. }
  msafe.
Qed.

(** Whatever message 2 contains, the initiator answers with message 3 or an
    error and never panics; a message of fewer than 96 bytes, and a call out of
    order, is refused before anything of the state changes. *)
Lemma initiator_total (msg2 : bytes) (s : t) :
  (process_message2_create_message3 msg2 s).2 ≠ Panic ∧
  (∀ es ep, state s = InitSentMsg1 es ep → blen msg2 < 96 →
     process_message2_create_message3 msg2 s = (s, Err HandshakeFailed)) ∧
  ((∀ es ep, state s ≠ InitSentMsg1 es ep) →
     process_message2_create_message3 msg2 s = (s, Err InvalidHandshakeState)).
Proof.
  split_and!.
  - apply message2_not_Panic.
  - intros es ep Hst Hl. unfold process_message2_create_message3, mthen at 1, mself at 1.
    rewrite Hst. unfold mthen at 1 2, mtry at 1 2.
    by destruct (Z.ltb_spec (blen msg2) (32 + 48 + 16)); [|lia].
  - intros Hst. unfold process_message2_create_message3, mthen at 1, mself at 1.
    destruct (state s) as [|es ep| |]; [done| |done..]. by destruct (Hst es ep).
Qed.

(** The responder does not check the length of the static key in message 3.
    A peer that has completed the first two messages and seals anything but 32
    bytes under the key of message 3 makes the responder panic. *)
Lemma message3_length_panics (s : t) (re eb p c : bytes) :
  state s = RespSentMsg2 re eb → blen p ≠ 32 →
  encrypt_with_ad (hkdf (ck s) []).2 0 (h s) p = Ok c →
  (process_message3 c s).2 = Panic.
Proof.
  intros Hst Hp Hc.
  assert (decrypt_with_ad (hkdf (ck s) []).2 0 (h s) c = Ok p) as Hd by by apply open_sealed.
  destruct (hkdf (ck s) []) as [ck3 k3] eqn:E. simpl in Hd.
  assert (copy32 (E:=CryptoError) p = Panic) as Hcp.
  { unfold copy32. by destruct (Z.eqb_spec (blen p) 32). }
  unfold process_message3, mthen at 1, mself at 1. rewrite Hst. hrun. done.
Qed.
End Laws.
End NoiseHandshake.

Module NoiseWitness.
Import NoiseHandshake ToyAead ToyCrypto.

Definition alice : Identity.t := Identity.generate (replicate 32 1) (replicate 32 2).
Definition bob : Identity.t := Identity.generate (replicate 32 3) (replicate 32 4).
Definition ra : bytes := replicate 32 5.
Definition rb : bytes := replicate 32 6.

Lemma handshake_agreement_witness :
  ∃ i r, handshake ra rb alice bob = Ok (i, r) ∧ is_complete i = true ∧ is_complete r = true.
Proof.
  destruct (handshake_agreement ra rb alice bob) as (i & r & ? & ? & ? & ? & Hh & Hi & Hr & _);
    [by apply Identity.generate_wf..|eauto].
Defined.

(** The responder after message 1, and a sealed key of 31 bytes. *)
Definition waiting : NoiseHandshake.t :=
  (process_message1_create_message2 rb (x_public ra) (new_responder bob)).1.
Definition short_key : bytes := replicate 31 9.
Definition bad_msg3 : bytes :=
  match encrypt_with_ad (hkdf (ck waiting) []).2 0 (h waiting) short_key with
  | Ok c => c
  | _ => []
  end.

Lemma message3_length_panics_witness : (process_message3 bad_msg3 waiting).2 = Panic.
Proof.
  apply (message3_length_panics waiting (x_public ra) rb short_key bad_msg3).
  - vm_compute. reflexivity.
  - done.
  - vm_compute. reflexivity.
Defined.

Lemma initiator_total_witness :
  (process_message2_create_message3 [1; 2] (create_message1 ra (new_initiator alice)).1).2 =
    Err HandshakeFailed.
Proof.
  rewrite (proj1 (proj2 (initiator_total [1; 2] (create_message1 ra (new_initiator alice)).1))
    ra (x_public ra)); [reflexivity|vm_compute; reflexivity|done].
Defined.
End NoiseWitness.
