(* ===== verification/Float64.v ===== *)
(** [f64] of the language: IEEE 754 binary64 as the executable [spec_float] of
    the Standard Library (53-bit precision, round to nearest even), with the
    operations the code uses. [log2] comes from the platform's math library and
    is a parameter. *)
From Stdlib Require Import SpecFloat.
From S2P Require Import Prelude.

Local Open Scope Z_scope.

Definition f64 : Set := spec_float.

Module F64.
Definition prec : Z := 53.
Definition emax : Z := 1024.

Definition add : f64 → f64 → f64 := SFadd prec emax.
Definition sub : f64 → f64 → f64 := SFsub prec emax.
Definition mul : f64 → f64 → f64 := SFmul prec emax.
Definition div : f64 → f64 → f64 := SFdiv prec emax.
Definition lt (a b : f64) : bool := SFltb a b.

(** [x as f64] of an integer *)
Definition of_Z (z : Z) : f64 := binary_normalize prec emax z 0 false.

Definition zero : f64 := of_Z 0.
(** [f64::MAX] = (2^53 - 1) * 2^971 *)
Definition MAX : f64 := S754_finite false 9007199254740991 971.

Definition is_nan (a : f64) : bool := match a with S754_nan => true | _ => false end.

(** [a.min(b)] and [a.max(b)]: a NaN argument is ignored. *)
Definition min (a b : f64) : f64 :=
  if is_nan a then b else if is_nan b then a else if SFltb b a then b else a.
Definition max (a b : f64) : f64 :=
  if is_nan a then b else if is_nan b then a else if SFltb a b then b else a.

(** [a.partial_cmp(&b)] *)
Definition partial_cmp (a b : f64) : option comparison := SFcompare a b.

(** Nanoseconds as [Duration]; [as_secs] and [as_secs_f64]. *)
Definition NANOS_PER_SEC : Z := 1000000000.
Definition as_secs (d : Z) : Z := d / NANOS_PER_SEC.
Definition as_secs_f64 (d : Z) : f64 :=
  add (of_Z (d / NANOS_PER_SEC)) (div (of_Z (d mod NANOS_PER_SEC)) (of_Z NANOS_PER_SEC)).
End F64.

(** The platform's base-2 logarithm. *)
Class Log2 : Type := { f64_log2 : f64 → f64 }.

(** A stand-in for examples: zero everywhere but minus infinity at zero. *)
Module ToyLog2.
#[export] Instance toy_log2 : Log2 :=
  { f64_log2 := λ x, match x with S754_zero _ => S754_infinity true | _ => F64.zero end }.
End ToyLog2.
