(* ===== verification/PeerInfo.v ===== *)
(** ceky-dht/src/peer_info.rs: what the DHT keeps of a peer, its lifecycle and
    its score. A duration is a number of nanoseconds; an [Instant] is the
    nanoseconds of the monotonic clock, and every method that reads the clock
    takes the reading, [now], as an argument. *)
From S2P Require Import Prelude Bytes PeerId DhtMsg Float64.

Local Open Scope Z_scope.

(** [t.elapsed()], which saturates at zero. *)
Definition elapsed (now t : Z) : Z := Z.max 0 (now - t).

Module PeerState.
Inductive t : Set := Discovered | Active | Suspect | Dead.

#[global] Instance t_eq_dec : EqDecision t.
Proof. solve_decision. Defined.
End PeerState.

Module PeerScore.
Record t : Set := mk {
  avg_latency_ms : f64;
  successes : Z;
  failures : Z;
  bytes_relayed : Z;
  uptime : Z;
  first_seen : Z;
  latency_sum_ms : f64
}.

Definition new (now : Z) : t := mk F64.zero 0 0 0 0 now F64.zero.

Definition record_success (now latency : Z) (s : t) : t :=
  let successes' := wrap 64 (successes s + 1) in
  let latency_ms := F64.mul (F64.as_secs_f64 latency) (F64.of_Z 1000) in
  let latency_sum_ms' := F64.add (latency_sum_ms s) latency_ms in
  let avg_latency_ms' := F64.div latency_sum_ms' (F64.of_Z successes') in
  mk avg_latency_ms' successes' (failures s) (bytes_relayed s) (elapsed now (first_seen s))
     (first_seen s) latency_sum_ms'.

Definition record_failure (now : Z) (s : t) : t :=
  mk (avg_latency_ms s) (successes s) (wrap 64 (failures s + 1)) (bytes_relayed s)
     (elapsed now (first_seen s)) (first_seen s) (latency_sum_ms s).

Definition record_relay (n : Z) (s : t) : t :=
  mk (avg_latency_ms s) (successes s) (failures s) (wrap 64 (bytes_relayed s + n)) (uptime s)
     (first_seen s) (latency_sum_ms s).

Definition composite_score `{LG : !Log2} (s : t) : f64 :=
  let reliability :=
    F64.div (F64.mul (F64.of_Z (successes s)) (F64.of_Z 10))
            (F64.add (F64.of_Z (failures s)) (F64.of_Z 1)) in
  let latency_penalty := F64.div (avg_latency_ms s) (F64.of_Z 100) in
  let uptime_bonus :=
    F64.div (F64.min (F64.of_Z (F64.as_secs (uptime s))) (F64.of_Z 3600)) (F64.of_Z 360) in
  let relay_bonus := F64.div (F64.max (f64_log2 (F64.of_Z (bytes_relayed s))) F64.zero) (F64.of_Z 10) in
  F64.add (F64.add (F64.sub reliability latency_penalty) uptime_bonus) relay_bonus.

Definition success_rate (s : t) : f64 :=
  let total := wrap 64 (successes s + failures s) in
  if total =? 0 then F64.zero
  else F64.mul (F64.div (F64.of_Z (successes s)) (F64.of_Z total)) (F64.of_Z 100).
End PeerScore.

Module PeerInfo.
Record t : Set := mk {
  peer_id : PeerId.t;
  addr : SocketAddr.t;
  state : PeerState.t;
  score : PeerScore.t;
  last_seen : Z;
  added_at : Z
}.

Definition new (now : Z) (peer_id : PeerId.t) (addr : SocketAddr.t) : t :=
  mk peer_id addr PeerState.Discovered (PeerScore.new now) now now.

Definition mark_active (now latency : Z) (p : t) : t :=
  mk (peer_id p) (addr p) PeerState.Active (PeerScore.record_success now latency (score p)) now (added_at p).

Definition mark_suspect (now : Z) (p : t) : t :=
  mk (peer_id p) (addr p) PeerState.Suspect (PeerScore.record_failure now (score p)) (last_seen p) (added_at p).

Definition mark_dead (p : t) : t :=
  mk (peer_id p) (addr p) PeerState.Dead (score p) (last_seen p) (added_at p).

Definition touch (now : Z) (p : t) : t :=
  mk (peer_id p) (addr p) (state p) (score p) now (added_at p).

(** [peer.addr = addr] *)
Definition set_addr (addr : SocketAddr.t) (p : t) : t :=
  mk (peer_id p) addr (state p) (score p) (last_seen p) (added_at p).

Definition idle_time (now : Z) (p : t) : Z := elapsed now (last_seen p).

Definition is_usable (p : t) : bool :=
  match state p with PeerState.Discovered | PeerState.Active => true | _ => false end.
End PeerInfo.

(** The averages of two samples and the order of a good and a bad peer, as the
    tests of the crate compute them. *)
Module PeerInfoExamples.
Import ToyLog2.

Fixpoint iter {A} (n : nat) (f : A → A) (a : A) : A :=
  match n with O => a | S n => iter n f (f a) end.

Definition two_samples : PeerScore.t :=
  PeerScore.record_success 0 30000000 (PeerScore.record_success 0 50000000 (PeerScore.new 0)).

Example two_samples_average :
  PeerScore.successes two_samples = 2 ∧
  F64.lt (F64.of_Z 39) (PeerScore.avg_latency_ms two_samples) = true ∧
  F64.lt (PeerScore.avg_latency_ms two_samples) (F64.of_Z 41) = true.
Proof. vm_compute. done. Qed.

Definition good : PeerScore.t := iter 100 (PeerScore.record_success 0 20000000) (PeerScore.new 0).
Definition bad : PeerScore.t :=
  iter 90 (PeerScore.record_failure 0) (iter 10 (PeerScore.record_success 0 200000000) (PeerScore.new 0)).

Example reliability_rewarded :
  F64.lt (PeerScore.composite_score bad) (PeerScore.composite_score good) = true.
Proof. vm_compute. done. Qed.
End PeerInfoExamples.
