(* ===== verification/Routing.v ===== *)
(** ceky-dht/src/routing.rs: the k-buckets and the routing table. *)
From S2P Require Import Prelude Bytes PeerId DhtMsg Float64 PeerInfo.

Local Open Scope Z_scope.

Definition K : nat := 20.
Definition NUM_BUCKETS : nat := 256.
Definition ALPHA : nat := 3.

(** [DhtError] of ceky-dht/src/lib.rs, without the free texts. *)
Module TableError.
Inductive t : Set :=
| BucketFull (bucket : Z)
| PeerNotFound
| LookupFailed
| StoreFailed
| InvalidKey.
End TableError.

Inductive InsertOutcome : Set := NewPeer | Updated | Evicted.

Module KBucket.
Record t : Set := mk { peers : list PeerInfo.t; last_refresh : Z }.

Definition new (now : Z) : t := mk [] now.
Definition len (b : t) : nat := length (peers b).
Definition is_full (b : t) : bool := (K <=? length (peers b))%nat.
Definition is_empty (b : t) : bool := (length (peers b) =? 0)%nat.

Definition has_id (id : PeerId.t) (p : PeerInfo.t) : bool := bool_decide (PeerInfo.peer_id p = id).

Definition find (id : PeerId.t) (b : t) : option nat := position (has_id id) (peers b).
Definition get (id : PeerId.t) (b : t) : option PeerInfo.t := List.find (has_id id) (peers b).

(** [if let Some(p) = self.get_mut(id) { f(p) }] *)
Definition update_first (id : PeerId.t) (f : PeerInfo.t → PeerInfo.t) (b : t) : t :=
  match find id b with
  | Some idx => mk (alter f idx (peers b)) (last_refresh b)
  | None => b
  end.

Section Ops.
Context `{LG : !Log2}.

(** The loop of [find_eviction_candidate]: index, best index and best score so far. *)
Fixpoint eviction_scan (i : nat) (best_idx : option nat) (best_score : f64) (ps : list PeerInfo.t)
    : option nat :=
  match ps with
  | [] => best_idx
  | peer :: ps =>
      match PeerInfo.state peer with
      | PeerState.Dead =>
          let score := PeerScore.composite_score (PeerInfo.score peer) in
          if F64.lt score best_score
          then eviction_scan (S i) (Some i) score ps
          else eviction_scan (S i) best_idx best_score ps
      | PeerState.Suspect =>
          let score := PeerScore.composite_score (PeerInfo.score peer) in
          if F64.lt score best_score
          then eviction_scan (S i) (Some i) score ps
          else eviction_scan (S i) best_idx best_score ps
      | _ => eviction_scan (S i) best_idx best_score ps
      end
  end.

Definition find_eviction_candidate (b : t) : option nat :=
  eviction_scan 0 None F64.MAX (peers b).

Definition insert_or_update (now : Z) (peer : PeerInfo.t) : method t unit InsertOutcome := λ b,
  match find (PeerInfo.peer_id peer) b with
  | Some idx =>
      let ps := alter (PeerInfo.set_addr (PeerInfo.addr peer)) idx (peers b) in
      let ps := alter (PeerInfo.touch now) idx ps in
      match ps !! idx with
      | Some p => (mk (vec_remove idx ps ++ [p]) (last_refresh b), Ok Updated)
      | None => (b, Panic)
      end
  | None =>
      if negb (is_full b) then (mk (peers b ++ [peer]) (last_refresh b), Ok NewPeer)
      else
        match find_eviction_candidate b with
        | Some evict_idx => (mk (vec_remove evict_idx (peers b) ++ [peer]) (last_refresh b), Ok Evicted)
        | None => (b, Err tt)
        end
  end.
End Ops.

Definition remove (id : PeerId.t) (b : t) : t * option PeerInfo.t :=
  match find id b with
  | Some idx => (mk (vec_remove idx (peers b)) (last_refresh b), peers b !! idx)
  | None => (b, None)
  end.

Definition mark_refreshed (now : Z) (b : t) : t := mk (peers b) now.
Definition time_since_refresh (now : Z) (b : t) : Z := elapsed now (last_refresh b).
End KBucket.

(** [a <= b] of two byte arrays. *)
Definition bytes_le (a b : bytes) : Prop := PeerId.bytes_lt b a = false.

(** Elements sorted by a key of type [[u8; 32]] ([sort_by(|a, b| a.1.cmp(&b.1))]). *)
Definition key_le {A} (key : A → bytes) (x y : A) : Prop := bytes_le (key x) (key y).

#[export] Instance key_le_dec {A} (key : A → bytes) : RelDecision (key_le key).
Proof. intros x y. unfold key_le, bytes_le. apply _. Defined.

Module RoutingStats.
Record t : Set := mk {
  total_peers : Z; non_empty_buckets : nat; active : nat; suspect : nat; discovered : nat
}.
End RoutingStats.

Module RoutingTable.
Record t : Set := mk { local_id : PeerId.t; buckets : list KBucket.t; total_peers : Z }.

Definition new (now : Z) (local_id : PeerId.t) : t :=
  mk local_id (replicate NUM_BUCKETS (KBucket.new now)) 0.

Definition bucket_index (rt : t) (id : PeerId.t) : option Z := PeerId.bucket_index (local_id rt) id.

(** [self.buckets[i] = b] (the index was read before) *)
Definition set_bucket (i : Z) (b : KBucket.t) (rt : t) : t :=
  mk (local_id rt) (<[Z.to_nat i := b]> (buckets rt)) (total_peers rt).
Definition add_total (d : Z) (rt : t) : t :=
  mk (local_id rt) (buckets rt) (total_peers rt + d).

Section Insert.
Context `{LG : !Log2}.

Definition insert (now : Z) (peer_id : PeerId.t) (addr : SocketAddr.t) : method t TableError.t bool := λ rt,
  if bool_decide (peer_id = local_id rt) then (rt, Ok false)
  else
    match bucket_index rt peer_id with
    | None => (rt, Err TableError.InvalidKey)
    | Some bucket_idx =>
        let peer := PeerInfo.new now peer_id addr in
        match buckets rt !! Z.to_nat bucket_idx with
        | None => (rt, Panic)
        | Some bucket =>
            let '(bucket, outcome) := KBucket.insert_or_update now peer bucket in
            let rt := set_bucket bucket_idx bucket rt in
            match outcome with
            | Ok NewPeer => (add_total 1 rt, Ok true)
            | Ok Evicted => (rt, Ok true)
            | Ok Updated => (rt, Ok false)
            | Err _ => (rt, Err (TableError.BucketFull bucket_idx))
            | Panic => (rt, Panic)
            end
        end
    end.
End Insert.

Definition remove (id : PeerId.t) (rt : t) : t * option PeerInfo.t :=
  match bucket_index rt id with
  | None => (rt, None)
  | Some bucket_idx =>
      match buckets rt !! Z.to_nat bucket_idx with
      | None => (rt, None)
      | Some bucket =>
          let '(bucket, removed) := KBucket.remove id bucket in
          match removed with
          | Some peer => (add_total (-1) (set_bucket bucket_idx bucket rt), Some peer)
          | None => (set_bucket bucket_idx bucket rt, None)
          end
      end
  end.

Definition get (id : PeerId.t) (rt : t) : option PeerInfo.t :=
  bucket_idx ← bucket_index rt id;
  bucket ← buckets rt !! Z.to_nat bucket_idx;
  KBucket.get id bucket.

(** [if let Some(peer) = self.get_mut(peer_id) { f(peer) }] *)
Definition update_peer (id : PeerId.t) (f : PeerInfo.t → PeerInfo.t) (rt : t) : t :=
  match bucket_index rt id with
  | None => rt
  | Some bucket_idx =>
      match buckets rt !! Z.to_nat bucket_idx with
      | None => rt
      | Some bucket => set_bucket bucket_idx (KBucket.update_first id f bucket) rt
      end
  end.

Definition mark_active (now : Z) (id : PeerId.t) (latency : Z) : t → t :=
  update_peer id (PeerInfo.mark_active now latency).

Definition mark_suspect (now : Z) (id : PeerId.t) : t → t :=
  update_peer id (PeerInfo.mark_suspect now).

Definition all_peers (rt : t) : list PeerInfo.t := concat (map KBucket.peers (buckets rt)).

Definition active_peers (rt : t) : list PeerInfo.t := List.filter PeerInfo.is_usable (all_peers rt).

Definition find_closest (target : PeerId.t) (count : nat) (rt : t) : list PeerInfo.t :=
  let all_peers :=
    map (λ p, (p, PeerId.xor_distance (PeerInfo.peer_id p) target))
        (List.filter PeerInfo.is_usable (all_peers rt)) in
  map fst (take count (merge_sort (key_le snd) all_peers)).

Definition stale_buckets (now max_age : Z) (rt : t) : list nat :=
  map fst
    (List.filter (λ ib, negb (KBucket.is_empty ib.2) && (max_age <? KBucket.time_since_refresh now ib.2))
       (imap pair (buckets rt))).

Definition is_dead (p : PeerInfo.t) : bool := bool_decide (PeerInfo.state p = PeerState.Dead).

(** One turn of the loop: the bucket and the counters [evicted], [total_peers]. *)
Definition evict_bucket (acc : Z * Z) (b : KBucket.t) : Z * Z * KBucket.t :=
  let '(evicted, total) := acc in
  let before := KBucket.len b in
  let b' := KBucket.mk (List.filter (λ p, negb (is_dead p)) (KBucket.peers b)) (KBucket.last_refresh b) in
  let removed := Z.of_nat (before - KBucket.len b') in
  (evicted + removed, total - removed, b').

Fixpoint evict_loop (acc : Z * Z) (bs : list KBucket.t) : Z * Z * list KBucket.t :=
  match bs with
  | [] => (acc, [])
  | b :: bs =>
      let '(acc, b') := evict_bucket acc b in
      let '(acc, bs') := evict_loop acc bs in
      (acc, b' :: bs')
  end.

Definition evict_dead (rt : t) : t * Z :=
  let '((evicted, total), bs) := evict_loop (0, total_peers rt) (buckets rt) in
  (mk (local_id rt) bs total, evicted).

Definition count_state (s : PeerState.t) (ps : list PeerInfo.t) : nat :=
  length (List.filter (λ p, bool_decide (PeerInfo.state p = s)) ps).

Definition stats (rt : t) : RoutingStats.t :=
  RoutingStats.mk (total_peers rt)
    (length (List.filter (λ b, negb (KBucket.is_empty b)) (buckets rt)))
    (count_state PeerState.Active (all_peers rt))
    (count_state PeerState.Suspect (all_peers rt))
    (count_state PeerState.Discovered (all_peers rt)).
End RoutingTable.

(** ** One bucket *)
Module KBucketLaws.
Import KBucket.

Definition ids (ps : list PeerInfo.t) : list PeerId.t := map PeerInfo.peer_id ps.

Lemma find_Some id b i :
  find id b = Some i →
  ∃ l1 p l2, peers b = l1 ++ p :: l2 ∧ length l1 = i ∧ PeerInfo.peer_id p = id.
Proof.
  unfold find. intros (p & Hp & Hid & _)%position_Some. apply bool_decide_eq_true in Hid.
  exists (take i (peers b)), p, (drop (S i) (peers b)). split_and!; [|..|done].
  - by rewrite take_drop_middle.
  - rewrite length_take. apply lookup_lt_Some in Hp. lia.
Qed.

Lemma find_None id b : find id b = None ↔ id ∉ ids (peers b).
Proof.
  unfold find. rewrite position_None. split.
  - intros H (p & -> & Hp)%list_elem_of_fmap. specialize (H p Hp).
    apply bool_decide_eq_false in H. done.
  - intros H p Hp. apply bool_decide_eq_false. intros <-. apply H. by apply list_elem_of_fmap_2.
Qed.

Lemma vec_remove_middle {A} (l1 l2 : list A) x : vec_remove (length l1) (l1 ++ x :: l2) = l1 ++ l2.
Proof.
  unfold vec_remove. rewrite take_app_length. f_equal.
  rewrite drop_app_ge by lia. by replace (S (length l1) - length l1)%nat with 1%nat by lia.
Qed.

Lemma vec_remove_lookup {A} (l : list A) i x : l !! i = Some x → vec_remove i l ++ [x] ≡ₚ l.
Proof.
  intros H. unfold vec_remove. rewrite <- (take_drop_middle l i x H) at 3.
  by rewrite <- app_assoc, <- (Permutation_cons_append (drop (S i) l)).
Qed.

Section Evict.
Context `{LG : !Log2}.

Definition evictable (p : PeerInfo.t) : Prop :=
  PeerInfo.state p = PeerState.Dead ∨ PeerInfo.state p = PeerState.Suspect.

(** The candidate is a peer of the list from position [i] on, or the old best;
    without a candidate no evictable peer scores below the bound. *)
Lemma eviction_scan_spec ps i best score r :
  eviction_scan i best score ps = r →
  (r = best ∧ (best = None → ∀ p, p ∈ ps → evictable p →
     F64.lt (PeerScore.composite_score (PeerInfo.score p)) score = false)) ∨
  ∃ j p, r = Some (i + j)%nat ∧ ps !! j = Some p ∧ evictable p.
Proof.
  revert i best score. induction ps as [|q ps IH]; intros i best score Hr; simpl in Hr.
  { left. split; [done|]. intros _ p Hp. by apply elem_of_nil in Hp. }
  assert (∀ i', (∃ j p, r = Some (S i' + j)%nat ∧ ps !! j = Some p ∧ evictable p) →
    ∃ j p, r = Some (i' + j)%nat ∧ (q :: ps) !! j = Some p ∧ evictable p) as Hshift.
  { intros i' (j & p & -> & Hj & Hp). exists (S j), p. split; [f_equal; lia|done]. }
  assert (evictable q →
    (if F64.lt (PeerScore.composite_score (PeerInfo.score q)) score
     then eviction_scan (S i) (Some i) (PeerScore.composite_score (PeerInfo.score q)) ps
     else eviction_scan (S i) best score ps) = r →
    (r = best ∧ (best = None → ∀ p, p ∈ q :: ps → evictable p →
       F64.lt (PeerScore.composite_score (PeerInfo.score p)) score = false)) ∨
    ∃ j p, r = Some (i + j)%nat ∧ (q :: ps) !! j = Some p ∧ evictable p) as Hq.
  { intros Hev H. destruct (F64.lt _ score) eqn:Hlt.
    - right. destruct (IH _ _ _ H) as [[-> _]|Hx]; [|by apply Hshift].
      exists 0%nat, q. split; [f_equal; lia|done].
    - destruct (IH _ _ _ H) as [[-> Hb]|Hx]; [left|right; by apply Hshift].
      split; [done|]. intros Hn p [->|Hp]%elem_of_cons; [done|by apply Hb]. }
  destruct (PeerInfo.state q) eqn:Hst; [..|apply Hq; [by right|done]|apply Hq; [by left|done]];
    (destruct (IH _ _ _ Hr) as [[-> Hb]|Hx]; [left|right; by apply Hshift]);
    (split; [done|]); intros Hn p [->|Hp]%elem_of_cons; try (by apply Hb);
    intros [E|E]; congruence.
Qed.

(** What [insert_or_update] does on each branch. *)
Inductive inserted (now : Z) (peer : PeerInfo.t) (b : t) : t * result unit InsertOutcome → Prop :=
| ins_updated l1 p l2 :
    peers b = l1 ++ p :: l2 → PeerInfo.peer_id p = PeerInfo.peer_id peer →
    inserted now peer b
      (mk (l1 ++ l2 ++ [PeerInfo.touch now (PeerInfo.set_addr (PeerInfo.addr peer) p)]) (last_refresh b),
       Ok Updated)
| ins_new :
    PeerInfo.peer_id peer ∉ ids (peers b) → (length (peers b) < K)%nat →
    inserted now peer b (mk (peers b ++ [peer]) (last_refresh b), Ok NewPeer)
| ins_evicted l1 p l2 :
    PeerInfo.peer_id peer ∉ ids (peers b) → (K ≤ length (peers b))%nat →
    peers b = l1 ++ p :: l2 → evictable p →
    inserted now peer b (mk (l1 ++ l2 ++ [peer]) (last_refresh b), Ok Evicted)
| ins_full :
    PeerInfo.peer_id peer ∉ ids (peers b) → (K ≤ length (peers b))%nat →
    (∀ p, p ∈ peers b → evictable p →
       F64.lt (PeerScore.composite_score (PeerInfo.score p)) F64.MAX = false) →
    inserted now peer b (b, Err tt).

Lemma insert_or_update_spec now peer b : inserted now peer b (insert_or_update now peer b).
Proof.
  unfold insert_or_update. destruct (find _ b) as [idx|] eqn:Hf.
  - apply find_Some in Hf as (l1 & p & l2 & Hps & <- & Hid). rewrite Hps.
    rewrite !alter_app_r_alt by lia. rewrite Nat.sub_diag. cbn [alter list_alter].
    rewrite list_lookup_middle by done. rewrite vec_remove_middle, <- app_assoc.
    by apply ins_updated.
  - apply find_None in Hf. unfold is_full. destruct (Nat.leb_spec K (length (peers b))); simpl.
    2: by apply ins_new.
    unfold find_eviction_candidate. destruct (eviction_scan _ _ _ _) as [r|] eqn:He.
    + apply eviction_scan_spec in He as [[? _]|(j & p & [= ->] & Hj & Hev)]; [done|]. simpl.
      pose proof (lookup_lt_Some _ _ _ Hj). pose proof (take_drop_middle _ _ _ Hj) as Hm.
      unfold vec_remove. rewrite <- app_assoc. by eapply ins_evicted.
    + apply eviction_scan_spec in He as [[_ Hn]|(j & p & ? & _)]; [|done]. apply ins_full; auto.
Qed.
End Evict.

Lemma get_elem id b p :
  NoDup (ids (peers b)) → get id b = Some p ↔ p ∈ peers b ∧ PeerInfo.peer_id p = id.
Proof.
  unfold get. induction (peers b) as [|q ps IH]; simpl.
  { split; [done|]. intros [Hp _]. by apply elem_of_nil in Hp. }
  intros [Hq Hnd]%NoDup_cons. unfold has_id at 1. rewrite elem_of_cons.
  case_bool_decide as E.
  - split; [intros [= ->]; naive_solver|]. intros [[->|Hp] Hid]; [done|].
    destruct Hq. rewrite E, <- Hid. by apply list_elem_of_fmap_2.
  - rewrite IH by done. naive_solver.
Qed.
End KBucketLaws.

(** ** The table *)
Module RoutingLaws.
Import RoutingTable KBucketLaws.

Record bucket_wf (me : PeerId.t) (i : nat) (b : KBucket.t) : Prop := {
  bw_size : (length (KBucket.peers b) ≤ K)%nat;
  bw_nodup : NoDup (ids (KBucket.peers b));
  bw_place : ∀ p, p ∈ KBucket.peers b →
    PeerId.wf (PeerInfo.peer_id p) ∧
    PeerId.bucket_index me (PeerInfo.peer_id p) = Some (Z.of_nat i)
}.

Record wf (rt : t) : Prop := {
  wf_local : PeerId.wf (local_id rt);
  wf_buckets : length (buckets rt) = NUM_BUCKETS;
  wf_bucket : ∀ i b, buckets rt !! i = Some b → bucket_wf (local_id rt) i b;
  wf_total : total_peers rt = Z.of_nat (length (all_peers rt))
}.

(** The table as a finite map. *)
Definition contents (rt : t) : gmap PeerId.t PeerInfo.t :=
  list_to_map (map (λ p, (PeerInfo.peer_id p, p)) (all_peers rt)).

Lemma all_peers_elem rt p :
  p ∈ all_peers rt ↔ ∃ i b, buckets rt !! i = Some b ∧ p ∈ KBucket.peers b.
Proof.
  unfold all_peers. rewrite list_elem_of_In, in_concat. split.
  - intros (l & Hl & Hp). apply in_map_iff in Hl as (b & <- & Hb%list_elem_of_In).
    apply list_elem_of_lookup_1 in Hb as [i Hi]. exists i, b. by rewrite list_elem_of_In.
  - intros (i & b & Hb & Hp). exists (KBucket.peers b). rewrite <- !list_elem_of_In. split; [|done].
    apply list_elem_of_fmap_2. by eapply list_elem_of_lookup_2.
Qed.

(** Replacing one bucket. *)
Lemma all_peers_split rt i b :
  buckets rt !! i = Some b →
  ∃ rest, all_peers rt ≡ₚ KBucket.peers b ++ rest ∧
  ∀ b', concat (map KBucket.peers (<[i := b']> (buckets rt))) ≡ₚ KBucket.peers b' ++ rest.
Proof.
  intros Hb. pose proof (lookup_lt_Some _ _ _ Hb).
  exists (concat (map KBucket.peers (take i (buckets rt))) ++
          concat (map KBucket.peers (drop (S i) (buckets rt)))).
  assert (∀ x, concat (map KBucket.peers (take i (buckets rt) ++ x :: drop (S i) (buckets rt))) ≡ₚ
    KBucket.peers x ++ concat (map KBucket.peers (take i (buckets rt))) ++
    concat (map KBucket.peers (drop (S i) (buckets rt)))) as Hx.
  { intros x. rewrite map_app, concat_app. simpl. rewrite !app_assoc.
    by rewrite (Permutation_app_comm (concat _) (KBucket.peers x)). }
  split.
  - unfold all_peers. by rewrite <- (take_drop_middle _ _ _ Hb) at 1.
  - intros b'. by rewrite insert_take_drop.
Qed.

Lemma concat_nodup (bs : list KBucket.t) (k : nat) me :
  (∀ i b, bs !! i = Some b → bucket_wf me (k + i) b) →
  NoDup (ids (concat (map KBucket.peers bs))).
Proof.
  revert k. induction bs as [|b bs IH]; intros k Hbs; simpl; [constructor|].
  unfold ids. rewrite map_app. apply NoDup_app. split_and!.
  - by apply (Hbs 0%nat b).
  - intros id (p & -> & Hp)%list_elem_of_fmap (q & Hid & Hq)%list_elem_of_fmap.
    apply list_elem_of_In, in_concat in Hq as (l & Hl & Hq).
    apply in_map_iff in Hl as (b' & <- & Hb'%list_elem_of_In).
    apply list_elem_of_lookup_1 in Hb' as [i Hi].
    destruct (bw_place _ _ _ (Hbs 0%nat b eq_refl) p Hp) as [_ E1].
    destruct (bw_place _ _ _ (Hbs (S i) b' Hi) q ltac:(by apply list_elem_of_In)) as [_ E2].
    rewrite Hid, E2 in E1. injection E1. lia.
  - apply (IH (S k)). intros i b' Hi. replace (S k + i)%nat with (k + S i)%nat by lia.
    by apply Hbs.
Qed.

Lemma all_peers_nodup rt : wf rt → NoDup (ids (all_peers rt)).
Proof. intros Hwf. apply (concat_nodup _ 0 (local_id rt)). apply (wf_bucket _ Hwf). Qed.

Lemma contents_elem rt id p :
  wf rt → contents rt !! id = Some p ↔ p ∈ all_peers rt ∧ PeerInfo.peer_id p = id.
Proof.
  intros Hwf. pose proof (all_peers_nodup rt Hwf) as Hnd. unfold contents.
  rewrite <- elem_of_list_to_map.
  - rewrite list_elem_of_fmap. naive_solver.
  - rewrite <- list_fmap_compose. exact Hnd.
Qed.

Lemma bucket_index_Some rt id :
  wf rt → PeerId.wf id → id ≠ local_id rt →
  ∃ i b, bucket_index rt id = Some (Z.of_nat i) ∧ buckets rt !! i = Some b.
Proof.
  intros Hwf Hid Hne. unfold bucket_index. rewrite bucket_index_log by (done || apply Hwf).
  rewrite decide_False by done.
  pose proof (bucket_of_log_range _ (dist_log_range _ _ (wf_local _ Hwf) Hid ltac:(done))) as Hr.
  set (k := bucket_of_log _) in *. exists (Z.to_nat k).
  destruct (buckets rt !! Z.to_nat k) as [b|] eqn:Hb.
  - exists b. split; [|done]. f_equal. lia.
  - apply lookup_ge_None in Hb. rewrite (wf_buckets _ Hwf) in Hb. unfold NUM_BUCKETS in Hb. lia.
Qed.

(** [get] is lookup in the map. *)
Lemma get_contents rt id : wf rt → PeerId.wf id → get id rt = contents rt !! id.
Proof.
  intros Hwf Hid. apply option_eq. intros p. rewrite contents_elem by done.
  destruct (decide (id = local_id rt)) as [->|Hne].
  - unfold get, bucket_index. rewrite bucket_index_log, decide_True by (done || apply Hwf). simpl.
    split; [done|]. intros [(i & b & Hb & Hp)%all_peers_elem E].
    destruct (bw_place _ _ _ (wf_bucket _ Hwf _ _ Hb) p Hp) as [_ Hpl].
    rewrite E, bucket_index_log, decide_True in Hpl by (done || apply Hwf). done.
  - destruct (bucket_index_Some rt id Hwf Hid Hne) as (i & b & Hi & Hb).
    unfold get. rewrite Hi. simpl. rewrite Nat2Z.id, Hb. simpl.
    pose proof (wf_bucket _ Hwf _ _ Hb) as [_ Hnd Hpl]. rewrite get_elem by done.
    rewrite all_peers_elem. split; [naive_solver|]. intros [(j & b' & Hb' & Hp) E].
    destruct (bw_place _ _ _ (wf_bucket _ Hwf _ _ Hb') p Hp) as [_ Hj].
    unfold bucket_index in Hi. rewrite E, Hi in Hj. injection Hj as Hj.
    assert (i = j) as -> by lia. naive_solver.
Qed.

(** Replace a bucket by a well-formed one, with the counter adjusted. *)
Lemma set_bucket_wf rt i b b' d :
  wf rt → buckets rt !! i = Some b → bucket_wf (local_id rt) i b' →
  Z.of_nat (length (KBucket.peers b')) = Z.of_nat (length (KBucket.peers b)) + d →
  wf (add_total d (set_bucket (Z.of_nat i) b' rt)).
Proof.
  intros Hwf Hb Hb' Hd. destruct (all_peers_split rt i b Hb) as (rest & H1 & H2).
  split; simpl; rewrite ?Nat2Z.id.
  - apply Hwf.
  - rewrite length_insert. apply Hwf.
  - intros j c. rewrite list_lookup_insert. case_decide as E.
    + destruct E as [<- _]. by intros [= <-].
    + apply (wf_bucket _ Hwf).
  - unfold all_peers. simpl. rewrite Nat2Z.id, (H2 b'), (wf_total _ Hwf), H1, !length_app. lia.
Qed.

Lemma add_total_0 rt : add_total 0 rt = rt.
Proof. unfold add_total. rewrite Z.add_0_r. by destruct rt. Qed.

Lemma set_bucket_same rt i b : buckets rt !! i = Some b → set_bucket (Z.of_nat i) b rt = rt.
Proof.
  intros Hb. unfold set_bucket. rewrite Nat2Z.id, list_insert_id by done. by destruct rt.
Qed.

Lemma new_wf now me : PeerId.wf me → wf (new now me).
Proof.
  intros Hme. split.
  - done.
  - apply length_replicate.
  - intros i b [-> _]%lookup_replicate. split; simpl; [lia|constructor|].
    intros p Hp. by apply elem_of_nil in Hp.
  - assert (∀ n, concat (map KBucket.peers (replicate n (KBucket.new now))) = []) as Hn.
    { intros n. induction n; [done|]. simpl. done. }
    unfold new, all_peers. cbn [buckets total_peers]. by rewrite Hn.
Qed.

(** ** Insertion refines an update of the map *)
Definition bucket_full (rt : t) (id : PeerId.t) : bool :=
  match bucket_index rt id ≫= λ k, buckets rt !! Z.to_nat k with
  | Some b => KBucket.is_full b
  | None => false
  end.

Section Insert.
Context `{LG : !Log2}.

(** The possible effects of [insert id addr] on the map [m]. *)
Inductive insert_spec (now : Z) (me id : PeerId.t) (addr : SocketAddr.t) (full : bool)
    (m : gmap PeerId.t PeerInfo.t) : gmap PeerId.t PeerInfo.t → result TableError.t bool → Prop :=
| is_self : id = me → insert_spec now me id addr full m m (Ok false)
| is_known p :
    id ≠ me → m !! id = Some p →
    insert_spec now me id addr full m
      (<[id := PeerInfo.touch now (PeerInfo.set_addr addr p)]> m) (Ok false)
| is_new :
    id ≠ me → m !! id = None → full = false →
    insert_spec now me id addr full m (<[id := PeerInfo.new now id addr]> m) (Ok true)
| is_evicting victim p :
    id ≠ me → m !! id = None → full = true → m !! victim = Some p → evictable p →
    PeerId.bucket_index me victim = PeerId.bucket_index me id →
    insert_spec now me id addr full m
      (<[id := PeerInfo.new now id addr]> (delete victim m)) (Ok true)
| is_refused k :
    id ≠ me → m !! id = None → full = true → PeerId.bucket_index me id = Some k →
    (∀ q p, m !! q = Some p → PeerId.bucket_index me q = Some k → evictable p →
       F64.lt (PeerScore.composite_score (PeerInfo.score p)) F64.MAX = false) →
    insert_spec now me id addr full m m (Err (TableError.BucketFull k)).

Abbreviation to_map l := (list_to_map (map (λ p, (PeerInfo.peer_id p, p)) l) : gmap PeerId.t PeerInfo.t).

Lemma contents_perm rt l : wf rt → all_peers rt ≡ₚ l → contents rt = to_map l.
Proof.
  intros Hwf Hp. apply list_to_map_proper.
  - rewrite <- list_fmap_compose. by apply all_peers_nodup.
  - apply fmap_Permutation, Hp.
Qed.

Lemma to_map_None l id : to_map l !! id = None ↔ id ∉ ids l.
Proof.
  rewrite <- not_elem_of_list_to_map. by rewrite <- list_fmap_compose.
Qed.

(** A peer cut out of the bucket at [i]. *)
Lemma contents_cut rt i b l1 p l2 :
  wf rt → buckets rt !! i = Some b → KBucket.peers b = l1 ++ p :: l2 →
  ∃ rest, contents rt = <[PeerInfo.peer_id p := p]> (to_map (l1 ++ l2 ++ rest)) ∧
    to_map (l1 ++ l2 ++ rest) !! PeerInfo.peer_id p = None ∧
    ∀ rt' xs b', wf rt' → buckets rt' = <[i := b']> (buckets rt) → KBucket.peers b' = l1 ++ l2 ++ xs →
      contents rt' = to_map (xs ++ l1 ++ l2 ++ rest).
Proof.
  intros Hwf Hb Hps. destruct (all_peers_split rt i b Hb) as (rest & H1 & H2). exists rest.
  assert (all_peers rt ≡ₚ p :: l1 ++ l2 ++ rest) as Hperm.
  { rewrite H1, Hps, <- app_assoc. simpl. by rewrite <- Permutation_middle. }
  split_and!.
  - by rewrite (contents_perm rt _ Hwf Hperm).
  - apply to_map_None. pose proof (all_peers_nodup rt Hwf) as Hnd. unfold ids in Hnd.
    rewrite Hperm in Hnd. by apply NoDup_cons in Hnd as [? _].
  - intros rt' xs b' Hwf' Hbs Hb'. apply (contents_perm rt' _ Hwf').
    unfold all_peers. rewrite Hbs, H2, Hb', !app_assoc. f_equiv.
    by rewrite (Permutation_app_comm (l1 ++ l2) xs), app_assoc.
Qed.

(** A bucket after one peer was replaced by, or extended with, [x]. *)
Lemma bucket_wf_replace me i b l1 p l2 x r :
  bucket_wf me i b → KBucket.peers b = l1 ++ p :: l2 → PeerId.wf (PeerInfo.peer_id x) →
  PeerId.bucket_index me (PeerInfo.peer_id x) = Some (Z.of_nat i) →
  PeerInfo.peer_id x ∉ ids (l1 ++ l2) →
  bucket_wf me i (KBucket.mk (l1 ++ l2 ++ [x]) r).
Proof.
  intros [Hs Hnd Hpl] Hps Hx Hxi Hfresh. rewrite Hps in *. split; simpl.
  - rewrite !length_app in *. simpl in *. lia.
  - rewrite app_assoc. unfold ids in *. rewrite map_app. apply NoDup_app. split_and!.
    + rewrite map_app in Hnd |- *. simpl in Hnd. rewrite <- Permutation_middle in Hnd.
      by apply NoDup_cons in Hnd as [_ Hnd].
    + intros y Hy Hin. apply list_elem_of_singleton in Hin as ->. done.
    + apply NoDup_singleton.
  - intros q [Hq|[Hq| ->%list_elem_of_singleton]%elem_of_app]%elem_of_app; [..|done];
      apply Hpl; set_solver.
Qed.

Lemma bucket_wf_cut me i b l1 p l2 r :
  bucket_wf me i b → KBucket.peers b = l1 ++ p :: l2 → bucket_wf me i (KBucket.mk (l1 ++ l2) r).
Proof.
  intros [Hs Hnd Hpl] Hps. rewrite Hps in *. split; simpl.
  - rewrite !length_app in *. simpl in *. lia.
  - unfold ids in *. rewrite map_app in *. simpl in Hnd. rewrite <- Permutation_middle in Hnd.
    by apply NoDup_cons in Hnd as [_ Hnd].
  - intros q Hq. apply Hpl. set_solver.
Qed.

Lemma bucket_wf_append me i b x r :
  bucket_wf me i b → (length (KBucket.peers b) < K)%nat → PeerId.wf (PeerInfo.peer_id x) →
  PeerId.bucket_index me (PeerInfo.peer_id x) = Some (Z.of_nat i) →
  PeerInfo.peer_id x ∉ ids (KBucket.peers b) →
  bucket_wf me i (KBucket.mk (KBucket.peers b ++ [x]) r).
Proof.
  intros [Hs Hnd Hpl] Hlt Hx Hxi Hfresh. split; simpl.
  - rewrite length_app. simpl. lia.
  - unfold ids. rewrite map_app. apply NoDup_app. split_and!; [done| |apply NoDup_singleton].
    intros y Hy Hin. apply list_elem_of_singleton in Hin as ->. done.
  - intros q [Hq| ->%list_elem_of_singleton]%elem_of_app; [by apply Hpl|done].
Qed.

Lemma fresh_in_bucket rt i b id :
  wf rt → PeerId.wf id → bucket_index rt id = Some (Z.of_nat i) → buckets rt !! i = Some b →
  id ∉ ids (KBucket.peers b) → contents rt !! id = None.
Proof.
  intros Hwf Hid Hi Hb Hn. rewrite <- get_contents by done. unfold get. rewrite Hi. simpl.
  rewrite Nat2Z.id, Hb. simpl. destruct (KBucket.get id b) as [p|] eqn:Hg; [|done].
  apply get_elem in Hg as [Hp <-]; [|by eapply bw_nodup, (wf_bucket _ Hwf)].
  destruct Hn. by apply list_elem_of_fmap_2.
Qed.

(** The three branches that change the bucket [b] at position [i]. *)
Section Branches.
Context (rt : t) (i : nat) (b : KBucket.t) (now : Z) (id : PeerId.t) (addr : SocketAddr.t).
Context (Hwf : wf rt) (Hid : PeerId.wf id) (Hi : bucket_index rt id = Some (Z.of_nat i)).
Context (Hb : buckets rt !! i = Some b).

Lemma known_branch l1 p l2 :
  KBucket.peers b = l1 ++ p :: l2 → PeerInfo.peer_id p = id →
  let p' := PeerInfo.touch now (PeerInfo.set_addr addr p) in
  let rt' := set_bucket (Z.of_nat i) (KBucket.mk (l1 ++ l2 ++ [p']) (KBucket.last_refresh b)) rt in
  wf rt' ∧ contents rt !! id = Some p ∧ contents rt' = <[id := p']> (contents rt).
Proof.
  intros Hps Hpid p' rt'. pose proof (wf_bucket _ Hwf _ _ Hb) as Hbw.
  assert (PeerInfo.peer_id p ∉ ids (l1 ++ l2)) as Hfr.
  { pose proof (bw_nodup _ _ _ Hbw) as Hnd. rewrite Hps in Hnd. unfold ids in *.
    rewrite map_app in *. simpl in Hnd. rewrite <- Permutation_middle in Hnd.
    by apply NoDup_cons in Hnd as [? _]. }
  destruct (contents_cut rt i b l1 p l2 Hwf Hb Hps) as (rest & Hc & Hn & Hc').
  assert (wf rt') as Hwf'.
  { subst rt'. rewrite <- (add_total_0 (set_bucket _ _ _)). eapply set_bucket_wf; [done..| |].
    - eapply bucket_wf_replace; simpl; try done; by rewrite Hpid.
    - simpl. rewrite Hps, !length_app. simpl. lia. }
  rewrite Hpid in Hc. split_and!; [done|rewrite Hc; apply lookup_insert_eq|].
  rewrite (Hc' _ [_] _ Hwf' ltac:(simpl; by rewrite Nat2Z.id) eq_refl), Hc. simpl. rewrite Hpid.
  symmetry. apply insert_insert_eq.
Qed.

Lemma new_branch :
  id ∉ ids (KBucket.peers b) → (length (KBucket.peers b) < K)%nat →
  let p := PeerInfo.new now id addr in
  let rt' := add_total 1 (set_bucket (Z.of_nat i)
    (KBucket.mk (KBucket.peers b ++ [p]) (KBucket.last_refresh b)) rt) in
  wf rt' ∧ contents rt' = <[id := p]> (contents rt).
Proof.
  intros Hf Hlt p rt'. destruct (all_peers_split rt i b Hb) as (rest & H1 & H2).
  assert (wf rt') as Hwf'.
  { eapply set_bucket_wf; [done..| |].
    - apply bucket_wf_append; try done. by apply (wf_bucket _ Hwf).
    - simpl. rewrite length_app. simpl. lia. }
  split; [done|]. rewrite (contents_perm _ (p :: all_peers rt) Hwf'); [done|].
  unfold all_peers at 1. simpl. rewrite Nat2Z.id, H2, H1. simpl.
  rewrite <- app_assoc. simpl. by rewrite <- Permutation_middle.
Qed.

Lemma evict_branch l1 q l2 :
  id ∉ ids (KBucket.peers b) → KBucket.peers b = l1 ++ q :: l2 →
  let p := PeerInfo.new now id addr in
  let rt' := set_bucket (Z.of_nat i) (KBucket.mk (l1 ++ l2 ++ [p]) (KBucket.last_refresh b)) rt in
  wf rt' ∧ contents rt !! PeerInfo.peer_id q = Some q ∧
  PeerId.bucket_index (local_id rt) (PeerInfo.peer_id q) = PeerId.bucket_index (local_id rt) id ∧
  contents rt' = <[id := p]> (delete (PeerInfo.peer_id q) (contents rt)).
Proof.
  intros Hf Hps p rt'. pose proof (wf_bucket _ Hwf _ _ Hb) as Hbw.
  destruct (contents_cut rt i b l1 q l2 Hwf Hb Hps) as (rest & Hc & Hn & Hc').
  assert (wf rt') as Hwf'.
  { subst rt'. rewrite <- (add_total_0 (set_bucket _ _ _)). eapply set_bucket_wf; [done..| |].
    - eapply bucket_wf_replace; simpl; try done. intros Hin. apply Hf. rewrite Hps.
      unfold ids in *. rewrite map_app in *. simpl. set_solver.
    - simpl. rewrite Hps, !length_app. simpl. lia. }
  assert (q ∈ KBucket.peers b) as Hqb by (rewrite Hps; set_solver).
  split_and!; [done|rewrite Hc; apply lookup_insert_eq| |].
  - unfold bucket_index in Hi. rewrite Hi. by apply (bw_place _ _ _ Hbw).
  - rewrite (Hc' _ [_] _ Hwf' ltac:(simpl; by rewrite Nat2Z.id) eq_refl), Hc. simpl.
    by rewrite delete_insert_id.
Qed.
End Branches.

Lemma insert_refines_map now id addr rt rt' r :
  wf rt → PeerId.wf id → insert now id addr rt = (rt', r) →
  wf rt' ∧ local_id rt' = local_id rt ∧
  insert_spec now (local_id rt) id addr (bucket_full rt id) (contents rt) (contents rt') r.
Proof.
  intros Hwf Hid Hins. unfold insert in Hins. case_bool_decide as Hme.
  { injection Hins as <- <-. split; [done|]. split; [done|]. by apply is_self. }
  destruct (bucket_index_Some rt id Hwf Hid Hme) as (i & b & Hi & Hb).
  assert (bucket_full rt id = KBucket.is_full b) as ->.
  { unfold bucket_full. rewrite Hi. simpl. by rewrite Nat2Z.id, Hb. }
  rewrite Hi, Nat2Z.id, Hb in Hins.
  destruct (KBucket.insert_or_update now _ b) as [b' o] eqn:Ho.
  pose proof (insert_or_update_spec now (PeerInfo.new now id addr) b) as Hspec. rewrite Ho in Hspec.
  inversion Hspec as [l1 p l2 Hps Hpid|Hf Hlt|l1 p l2 Hf Hge Hps Hev|Hf Hge Hnone]; subst;
    injection Hins as <- <-; simpl in *.
  - destruct (known_branch rt i b now id addr Hwf Hid Hi Hb l1 p l2 Hps Hpid) as (Hwf' & Hp & ->).
    split_and!; [done..|by apply is_known].
  - destruct (new_branch rt i b now id addr Hwf Hid Hi Hb Hf Hlt) as (Hwf' & ->).
    split_and!; [done..|]. apply is_new; [done|by eapply fresh_in_bucket|by apply Nat.leb_gt].
  - destruct (evict_branch rt i b now id addr Hwf Hid Hi Hb l1 p l2 Hf Hps) as (Hwf' & Hp & Hidx & ->).
    split_and!; [done..|].
    apply (is_evicting _ _ _ _ _ _ _ p); try done; [by eapply fresh_in_bucket|by apply Nat.leb_le].
  - rewrite set_bucket_same by done. split_and!; [done..|].
    apply is_refused; [done|by eapply fresh_in_bucket|by apply Nat.leb_le|done|].
    intros q p [Hp <-]%contents_elem Hq Hev; [|done]. apply Hnone; [|done].
    apply all_peers_elem in Hp as (j & b2 & Hj & Hp).
    destruct (bw_place _ _ _ (wf_bucket _ Hwf _ _ Hj) p Hp) as [_ Hpl].
    rewrite Hq in Hpl. injection Hpl as Hpl. assert (j = i) as -> by lia. congruence.
Qed.
End Insert.

(** ** The other operations *)
Lemma local_no_bucket rt : wf rt → bucket_index rt (local_id rt) = None.
Proof. intros Hwf. unfold bucket_index. by rewrite bucket_index_log, decide_True by (done || apply Hwf). Qed.

Lemma local_not_in rt : wf rt → contents rt !! local_id rt = None.
Proof.
  intros Hwf. rewrite <- get_contents by (done || apply Hwf). unfold get. by rewrite local_no_bucket.
Qed.

Lemma remove_refines_map id rt rt' r :
  wf rt → PeerId.wf id → remove id rt = (rt', r) →
  wf rt' ∧ local_id rt' = local_id rt ∧ r = contents rt !! id ∧ contents rt' = delete id (contents rt).
Proof.
  intros Hwf Hid Hr. unfold remove in Hr. destruct (decide (id = local_id rt)) as [->|Hne].
  { rewrite local_no_bucket in Hr by done. injection Hr as <- <-. split_and!; [done..| |].
    - by rewrite local_not_in.
    - symmetry. by apply delete_id, local_not_in. }
  destruct (bucket_index_Some rt id Hwf Hid Hne) as (i & b & Hi & Hb).
  rewrite Hi, Nat2Z.id, Hb in Hr. unfold KBucket.remove in Hr.
  destruct (KBucket.find id b) as [idx|] eqn:Hf.
  - apply find_Some in Hf as (l1 & p & l2 & Hps & <- & <-).
    rewrite Hps, vec_remove_middle, list_lookup_middle in Hr by done. injection Hr as <- <-.
    destruct (contents_cut rt i b l1 p l2 Hwf Hb Hps) as (rest & Hc & Hn & Hc').
    match goal with |- wf ?rt' ∧ _ => assert (wf rt') as Hwf' end.
    { eapply set_bucket_wf; [done..| |].
      - eapply bucket_wf_cut; [by apply (wf_bucket _ Hwf)|done].
      - simpl. rewrite Hps, !length_app. simpl. lia. }
    split_and!; [done..| |].
    + rewrite Hc. symmetry. apply lookup_insert_eq.
    + rewrite (Hc' _ [] _ Hwf' ltac:(simpl; by rewrite Nat2Z.id) ltac:(simpl; by rewrite app_nil_r)), Hc.
      simpl. by rewrite delete_insert_id.
  - apply find_None in Hf. pose proof (fresh_in_bucket rt i b id Hwf Hid Hi Hb Hf) as Hn.
    injection Hr as <- <-. rewrite set_bucket_same by done. split_and!; [done..| |].
    + done.
    + symmetry. by apply delete_id.
Qed.

(** In-place updates that keep the identifier. *)
Lemma update_refines_map id f rt :
  wf rt → PeerId.wf id → (∀ p, PeerInfo.peer_id (f p) = PeerInfo.peer_id p) →
  wf (update_peer id f rt) ∧ contents (update_peer id f rt) = alter f id (contents rt).
Proof.
  intros Hwf Hid Hf. unfold update_peer. destruct (decide (id = local_id rt)) as [->|Hne].
  { rewrite local_no_bucket by done. split; [done|]. symmetry.
    apply alter_id. intros x Hx. by rewrite local_not_in in Hx. }
  destruct (bucket_index_Some rt id Hwf Hid Hne) as (i & b & Hi & Hb).
  rewrite Hi, Nat2Z.id, Hb. unfold KBucket.update_first.
  destruct (KBucket.find id b) as [idx|] eqn:Hfi.
  - apply find_Some in Hfi as (l1 & p & l2 & Hps & <- & <-). rewrite Hps.
    rewrite alter_app_r_alt, Nat.sub_diag by lia. cbn [alter list_alter].
    destruct (all_peers_split rt i b Hb) as (rest & H1 & H2).
    assert (∀ x, x :: l1 ++ l2 ++ rest ≡ₚ (l1 ++ x :: l2) ++ rest) as Hmid.
    { intros x. rewrite <- app_assoc. simpl. by rewrite <- Permutation_middle. }
    match goal with |- wf ?rt' ∧ _ => assert (wf rt') as Hwf' end.
    { rewrite <- (add_total_0 (set_bucket _ _ _)). eapply set_bucket_wf; [done..| |].
      - destruct (wf_bucket _ Hwf _ _ Hb) as [Hs Hnd Hpl]. rewrite Hps in *. split; simpl.
        + rewrite !length_app in *. done.
        + unfold ids in *. rewrite map_app in *. simpl in *. by rewrite Hf.
        + intros q [Hq|[->|Hq]%elem_of_cons]%elem_of_app; rewrite ?Hf; apply Hpl; set_solver.
      - simpl. rewrite Hps, !length_app. simpl. lia. }
    split; [done|]. rewrite (contents_perm rt (p :: l1 ++ l2 ++ rest) Hwf).
    2: { by rewrite H1, Hps, Hmid. }
    rewrite (contents_perm _ (f p :: l1 ++ l2 ++ rest) Hwf').
    2: { unfold all_peers. simpl. by rewrite Nat2Z.id, H2, Hmid. }
    simpl. by rewrite Hf, alter_insert_eq.
  - apply find_None in Hfi. pose proof (fresh_in_bucket rt i b id Hwf Hid Hi Hb Hfi) as Hn.
    rewrite set_bucket_same by done. split; [done|]. symmetry.
    apply alter_id. intros x Hx. congruence.
Qed.

Lemma evict_loop_spec e tot bs :
  let alive b := KBucket.mk (List.filter (λ p, negb (is_dead p)) (KBucket.peers b)) (KBucket.last_refresh b) in
  let gone := Z.of_nat (length (concat (map KBucket.peers bs))) -
              Z.of_nat (length (concat (map KBucket.peers (map alive bs)))) in
  evict_loop (e, tot) bs = ((e + gone, tot - gone), map alive bs).
Proof.
  intros alive. revert e tot. induction bs as [|b bs IH]; intros e tot; simpl.
  { by rewrite Z.add_0_r, Z.sub_0_r. }
  rewrite IH. simpl. rewrite !length_app. fold (alive b).
  assert (KBucket.len (alive b) ≤ KBucket.len b)%nat.
  { unfold KBucket.len. simpl. apply List.filter_length_le. }
  unfold KBucket.len in *. f_equal. f_equal; simpl in *; lia.
Qed.

Lemma sublist_list_filter {A} (f : A → bool) (l : list A) : List.filter f l `sublist_of` l.
Proof. induction l as [|x l IH]; simpl; [done|]. by destruct (f x); constructor. Qed.

Lemma concat_filter (f : PeerInfo.t → bool) (bs : list KBucket.t) :
  concat (map KBucket.peers (map (λ b, KBucket.mk (List.filter f (KBucket.peers b)) (KBucket.last_refresh b)) bs))
  = List.filter f (concat (map KBucket.peers bs)).
Proof. induction bs as [|b bs IH]; [done|]. simpl. by rewrite List.filter_app, IH. Qed.

Lemma evict_refines_map rt rt' n :
  wf rt → evict_dead rt = (rt', n) →
  wf rt' ∧ local_id rt' = local_id rt ∧ n = total_peers rt - total_peers rt' ∧
  contents rt' = filter (λ x, PeerInfo.state x.2 ≠ PeerState.Dead) (contents rt).
Proof.
  intros Hwf. unfold evict_dead. rewrite evict_loop_spec, concat_filter. intros [= <- <-].
  match goal with |- wf ?r ∧ _ => set (rt' := r) end.
  assert (wf rt') as Hwf'.
  { split; subst rt'; simpl.
    - apply Hwf.
    - rewrite length_map. apply Hwf.
    - intros i b. rewrite list_lookup_fmap. intros (b0 & Hb & ->)%fmap_Some.
      destruct (wf_bucket _ Hwf _ _ Hb) as [Hs Hnd Hpl]. split; simpl.
      + pose proof (List.filter_length_le (λ p, negb (is_dead p)) (KBucket.peers b0)). lia.
      + eapply sublist_NoDup; [exact Hnd|]. apply fmap_sublist. apply sublist_list_filter.
      + intros p [Hp _]%list_elem_of_In%filter_In. apply Hpl. by apply list_elem_of_In.
    - unfold all_peers at 1. simpl. rewrite concat_filter, (wf_total _ Hwf). unfold all_peers. lia. }
  split_and!; [done|done|simpl; lia|].
  apply map_eq. intros q. apply option_eq. intros p.
  rewrite map_lookup_filter_Some, !contents_elem by done. unfold all_peers at 1. simpl.
  rewrite concat_filter, list_elem_of_In, filter_In, <- list_elem_of_In. fold (all_peers rt).
  unfold is_dead. rewrite negb_true_iff, bool_decide_eq_false. naive_solver.
Qed.

(** ** Sequences of operations

    [MarkDead] and [Touch] are what a caller does through [get_mut], the only way a
    peer becomes dead. *)
Inductive op : Set :=
| Insert (now : Z) (id : PeerId.t) (addr : SocketAddr.t)
| Remove (id : PeerId.t)
| MarkActive (now : Z) (id : PeerId.t) (latency : Z)
| MarkSuspect (now : Z) (id : PeerId.t)
| MarkDead (id : PeerId.t)
| Touch (now : Z) (id : PeerId.t)
| EvictDead.

Definition op_wf (o : op) : Prop :=
  match o with
  | Insert _ id _ | Remove id | MarkActive _ id _ | MarkSuspect _ id | MarkDead id | Touch _ id => PeerId.wf id
  | EvictDead => True
  end.

Section Runs.
Context `{LG : !Log2}.

Definition apply (o : op) (rt : t) : t :=
  match o with
  | Insert now id addr => (insert now id addr rt).1
  | Remove id => (remove id rt).1
  | MarkActive now id latency => mark_active now id latency rt
  | MarkSuspect now id => mark_suspect now id rt
  | MarkDead id => update_peer id PeerInfo.mark_dead rt
  | Touch now id => update_peer id (PeerInfo.touch now) rt
  | EvictDead => (evict_dead rt).1
  end.

Definition run (os : list op) (rt : t) : t := fold_left (λ rt o, apply o rt) os rt.

Lemma apply_wf o rt : wf rt → op_wf o → wf (apply o rt).
Proof.
  intros Hwf Ho. destruct o as [now id addr|id|now id lat|now id|id|now id|]; simpl in *.
  - destruct (insert now id addr rt) as [rt' r] eqn:E. by eapply insert_refines_map in E as [? _].
  - destruct (remove id rt) as [rt' r] eqn:E. by eapply remove_refines_map in E as [? _].
  - by apply update_refines_map.
  - by apply update_refines_map.
  - by apply update_refines_map.
  - by apply update_refines_map.
  - destruct (evict_dead rt) as [rt' n] eqn:E. by eapply evict_refines_map in E as [? _].
Qed.

Lemma run_wf os rt : wf rt → Forall op_wf os → wf (run os rt).
Proof.
  intros Hwf Hos. revert rt Hwf. induction Hos as [|o os Ho _ IH]; intros rt Hwf; [done|].
  by apply IH, apply_wf.
Qed.

(** The refresh time of the buckets. *)
Definition refresh_times (rt : t) : list Z := map KBucket.last_refresh (buckets rt).

Lemma set_bucket_times rt i b b' :
  buckets rt !! Z.to_nat i = Some b → KBucket.last_refresh b' = KBucket.last_refresh b →
  refresh_times (set_bucket i b' rt) = refresh_times rt.
Proof.
  intros Hb Hr. unfold refresh_times, set_bucket. simpl. apply list_eq. intros j.
  rewrite !list_lookup_fmap, list_lookup_insert. case_decide as E; [|done].
  destruct E as [<- _]. rewrite Hb. simpl. by rewrite Hr.
Qed.

Lemma update_peer_times id f rt : refresh_times (update_peer id f rt) = refresh_times rt.
Proof.
  unfold update_peer. destruct (bucket_index rt id) as [k|]; [|done].
  destruct (buckets rt !! Z.to_nat k) as [b|] eqn:Hb; [|done].
  eapply set_bucket_times; [done|]. unfold KBucket.update_first. by case_match.
Qed.

Lemma apply_times o rt : refresh_times (apply o rt) = refresh_times rt.
Proof.
  destruct o as [now id addr|id|now id lat|now id|id|now id|]; simpl.
  - unfold insert. case_bool_decide; [done|]. destruct (bucket_index rt id) as [k|]; [|done].
    destruct (buckets rt !! Z.to_nat k) as [b|] eqn:Hb; [|done].
    destruct (KBucket.insert_or_update now _ b) as [b' o] eqn:Ho.
    assert (KBucket.last_refresh b' = KBucket.last_refresh b).
    { pose proof (insert_or_update_spec now (PeerInfo.new now id addr) b) as Hs. rewrite Ho in Hs.
      by inversion Hs. }
    pose proof (set_bucket_times rt k b b' Hb ltac:(done)).
    destruct o as [[]| |]; done.
  - unfold remove. destruct (bucket_index rt id) as [k|]; [|done].
    destruct (buckets rt !! Z.to_nat k) as [b|] eqn:Hb; [|done]. unfold KBucket.remove.
    destruct (KBucket.find id b) as [idx|]; [|by eapply set_bucket_times].
    destruct (KBucket.peers b !! idx); simpl; by eapply set_bucket_times.
  - apply update_peer_times.
  - apply update_peer_times.
  - apply update_peer_times.
  - apply update_peer_times.
  - unfold evict_dead. rewrite evict_loop_spec. simpl. unfold refresh_times. simpl.
    by rewrite <- list_fmap_compose.
Qed.

Lemma run_times os rt : refresh_times (run os rt) = refresh_times rt.
Proof.
  revert rt. induction os as [|o os IH]; intros rt; [done|]. simpl.
  unfold run in *. simpl. by rewrite IH, apply_times.
Qed.
End Runs.

(** ** The closest peers *)
Lemma bytes_lt_total a b : bytes_le a b ∨ bytes_le b a.
Proof.
  unfold bytes_le. revert b. induction a as [|x a IH]; intros [|y b]; simpl; auto.
  destruct (IH b) as [H|H]; rewrite ?H;
    destruct (Z.ltb_spec x y), (Z.ltb_spec y x), (Z.eqb_spec x y), (Z.eqb_spec y x); simpl; auto; lia.
Qed.

Lemma bytes_le_trans a b c : bytes_le a b → bytes_le b c → bytes_le a c.
Proof.
  unfold bytes_le. revert b c. induction a as [|x a IH]; intros [|y b] [|z c]; simpl; try done.
  intros [H1 H2]%orb_false_iff [H3 H4]%orb_false_iff. apply orb_false_iff.
  apply Z.ltb_ge in H1, H3. split; [apply Z.ltb_ge; lia|].
  destruct (Z.eqb_spec z x) as [->|]; [|done]. assert (x = y) as -> by lia.
  rewrite Z.eqb_refl in *. simpl in *. by eapply IH.
Qed.

#[global] Instance key_le_total {A} (key : A → bytes) : Total (key_le key).
Proof. intros x y. apply bytes_lt_total. Qed.
#[global] Instance key_le_trans {A} (key : A → bytes) : Transitive (key_le key).
Proof. intros x y z. apply bytes_le_trans. Qed.

Definition dist_to (target : PeerId.t) (p : PeerInfo.t) : Z := PeerId.dist (PeerInfo.peer_id p) target.

Definition tagged (target : PeerId.t) (p : PeerInfo.t) : PeerInfo.t * bytes :=
  (p, PeerId.xor_distance (PeerInfo.peer_id p) target).

Lemma key_le_dist target p q :
  PeerId.wf target → PeerId.wf (PeerInfo.peer_id p) → PeerId.wf (PeerInfo.peer_id q) →
  key_le snd (tagged target p) (tagged target q) → dist_to target p ≤ dist_to target q.
Proof.
  intros Ht Hp Hq. unfold key_le, bytes_le. simpl.
  destruct (xor_wf _ _ Hp Ht) as [Hlp Hwp], (xor_wf _ _ Hq Ht) as [Hlq Hwq].
  rewrite bytes_lt_spec by (done || congruence). intros H%Z.ltb_ge. exact H.
Qed.

(** The list [find_closest] cuts: a permutation of the usable peers in order of
    distance. *)
Lemma sorted_peers target ps :
  PeerId.wf target → Forall (λ p, PeerId.wf (PeerInfo.peer_id p)) ps →
  let s := map fst (merge_sort (key_le snd) (map (tagged target) ps)) in
  s ≡ₚ ps ∧ StronglySorted (λ p q, dist_to target p ≤ dist_to target q) s.
Proof.
  intros Ht Hps s. set (l := merge_sort (key_le snd) (map (tagged target) ps)) in *.
  assert (l ≡ₚ map (tagged target) ps) as Hperm by apply merge_sort_Permutation.
  split.
  - unfold s. rewrite Hperm, <- list_fmap_compose. by rewrite list_fmap_id.
  - assert (StronglySorted (key_le snd) l) as Hs by (apply StronglySorted_merge_sort; apply _).
    assert (Forall (λ x, ∃ p, x = tagged target p ∧ PeerId.wf (PeerInfo.peer_id p)) l) as Hl.
    { rewrite Hperm. apply Forall_map. eapply Forall_impl; [exact Hps|]. eauto. }
    unfold s. clear -Hs Hl Ht. induction Hs as [|x l Hs IH Hall]; simpl; [constructor|].
    apply Forall_cons in Hl as [(p & -> & Hp) Hl]. constructor; [by apply IH|].
    apply Forall_map. rewrite Forall_forall in *. intros y Hy.
    destruct (Hl y Hy) as (q & -> & Hq). simpl. by apply key_le_dist, Hall.
Qed.

Lemma active_ids_wf rt : wf rt → Forall (λ p, PeerId.wf (PeerInfo.peer_id p)) (active_peers rt).
Proof.
  intros Hwf. apply Forall_forall. intros p [Hp _]%list_elem_of_In%filter_In.
  apply list_elem_of_In, all_peers_elem in Hp as (i & b & Hb & Hp).
  by apply (bw_place _ _ _ (wf_bucket _ Hwf _ _ Hb)).
Qed.

(** The peers [find_closest] returns. *)
Lemma find_closest_spec (target : PeerId.t) (count : nat) (rt : t) :
  wf rt → PeerId.wf target →
  let r := find_closest target count rt in
  length r = Nat.min count (length (active_peers rt)) ∧
  NoDup (map PeerInfo.peer_id r) ∧
  StronglySorted (λ p q, dist_to target p ≤ dist_to target q) r ∧
  (∀ p, p ∈ r → p ∈ active_peers rt) ∧
  (∀ p q, p ∈ r → q ∈ active_peers rt → q ∉ r → dist_to target p ≤ dist_to target q).
Proof.
  intros Hwf Ht r.
  destruct (sorted_peers target (active_peers rt) Ht (active_ids_wf rt Hwf)) as [Hperm Hsorted].
  set (s := map fst (merge_sort (key_le snd) (map (tagged target) (active_peers rt)))) in *.
  assert (r = take count s) as ->.
  { unfold r, find_closest, s, active_peers, tagged. by rewrite <- fmap_take. }
  assert (NoDup (map PeerInfo.peer_id s)) as Hnd.
  { rewrite Hperm. eapply sublist_NoDup; [by apply all_peers_nodup|].
    apply fmap_sublist, sublist_list_filter. }
  rewrite <- (take_drop count s) in Hsorted, Hnd. rewrite map_app in Hnd.
  apply NoDup_app in Hnd as (Hnd & _ & _). split_and!.
  - by rewrite length_take, Hperm.
  - done.
  - by eapply StronglySorted_app_1_l.
  - intros p Hp. rewrite <- Hperm, <- (take_drop count s). apply elem_of_app. by left.
  - intros p q Hp Hq Hnq. rewrite <- Hperm, <- (take_drop count s) in Hq.
    apply elem_of_app in Hq as [Hq|Hq]; [done|].
    exact (StronglySorted_app_1_elem_of _ _ _ p q Hsorted Hp Hq).
Qed.

(** A usable peer is the closest to its own identifier. *)
Lemma find_closest_self (count : nat) (rt : t) (p : PeerInfo.t) :
  wf rt → p ∈ active_peers rt → (0 < count)%nat → p ∈ find_closest (PeerInfo.peer_id p) count rt.
Proof.
  intros Hwf Hp Hc. assert (PeerId.wf (PeerInfo.peer_id p)) as Hid.
  { pose proof (active_ids_wf rt Hwf) as Ha. rewrite Forall_forall in Ha. by apply Ha. }
  destruct (find_closest_spec (PeerInfo.peer_id p) count rt Hwf Hid) as (Hl & _ & _ & Hin & Hbest).
  assert (∀ q, q ∈ find_closest (PeerInfo.peer_id p) count rt → PeerInfo.peer_id q = PeerInfo.peer_id p →
    p ∈ find_closest (PeerInfo.peer_id p) count rt) as Hsame.
  { intros q Hq Heq. replace p with q at 1; [done|].
    apply (NoDup_map_unique PeerInfo.peer_id (active_peers rt)); auto.
    eapply sublist_NoDup; [by apply all_peers_nodup|apply fmap_sublist, sublist_list_filter]. }
  destruct (decide (PeerInfo.peer_id p ∈ map PeerInfo.peer_id (find_closest (PeerInfo.peer_id p) count rt))) as [Hi|Hn].
  { apply list_elem_of_fmap in Hi as (q & Heq & Hq). eauto. }
  destruct (find_closest (PeerInfo.peer_id p) count rt) as [|q qs] eqn:E.
  { simpl in Hl. destruct (active_peers rt); [by apply elem_of_nil in Hp|]. simpl in Hl. lia. }
  assert (q ∈ q :: qs) as Hq by constructor. apply (Hsame q Hq).
  assert (PeerId.wf (PeerInfo.peer_id q)) as Hqid.
  { pose proof (active_ids_wf rt Hwf) as Ha. rewrite Forall_forall in Ha. auto. }
  destruct (xor_metric _ _ _ Hqid Hid Hid) as (H0 & Hpos & _). destruct (xor_metric _ _ _ Hid Hid Hid) as (H1 & _).
  assert (dist_to (PeerInfo.peer_id p) q ≤ dist_to (PeerInfo.peer_id p) p) as Hle.
  { apply Hbest; [done|done|]. intros Hin'. apply Hn, list_elem_of_fmap. by exists p. }
  apply H0. unfold dist_to in Hle. rewrite (proj2 H1 eq_refl) in Hle. lia.
Qed.

(** C23: [find_closest] returns usable peers of the table, each once, in order of
    XOR distance to the target, as many as asked for or all there are, and no
    usable peer left out is closer than one returned. *)
Theorem find_closest_correct (target : PeerId.t) (count : nat) (rt : t) :
  wf rt → PeerId.wf target →
  let r := find_closest target count rt in
  length r = Nat.min count (length (active_peers rt)) ∧
  NoDup (map PeerInfo.peer_id r) ∧
  StronglySorted (λ p q, dist_to target p ≤ dist_to target q) r ∧
  (∀ p, p ∈ r → p ∈ active_peers rt) ∧
  (∀ p q, p ∈ r → q ∈ active_peers rt → q ∉ r → dist_to target p ≤ dist_to target q).
Proof. apply find_closest_spec. Qed.

(** ** Properties of the table *)
Section Properties.
Context `{LG : !Log2}.

Lemma total_bound rt : wf rt → 0 ≤ total_peers rt ≤ Z.of_nat (NUM_BUCKETS * K).
Proof.
  intros Hwf. rewrite (wf_total _ Hwf). split; [lia|]. apply inj_le. rewrite <- (wf_buckets _ Hwf).
  assert (Forall (λ b, (length (KBucket.peers b) ≤ K)%nat) (buckets rt)) as Hall.
  { apply Forall_lookup. intros i b Hb. by apply (wf_bucket _ Hwf _ _ Hb). }
  unfold all_peers. revert Hall. generalize (buckets rt). clear. intros bs.
  induction 1 as [|b bs Hb _ IH]; [done|]. simpl. rewrite length_app. unfold K in *. lia.
Qed.

(** C22: whatever sequence of insertions, removals, state changes (to dead too) and
    evictions of dead peers a table goes through, every peer is in the bucket its distance demands, no
    bucket has more than 20 peers, no identifier occurs twice or is the node's
    own, and the counter is the number of peers, at most 5120. *)
Theorem table_invariant (now : Z) (me : PeerId.t) (os : list op) :
  PeerId.wf me → Forall op_wf os →
  let rt := run os (new now me) in
  length (buckets rt) = 256%nat ∧
  (∀ i b p, buckets rt !! i = Some b → p ∈ KBucket.peers b →
     (length (KBucket.peers b) ≤ 20)%nat ∧
     PeerId.bucket_index (local_id rt) (PeerInfo.peer_id p) = Some (Z.of_nat i) ∧
     PeerInfo.peer_id p ≠ local_id rt) ∧
  NoDup (map PeerInfo.peer_id (all_peers rt)) ∧
  total_peers rt = Z.of_nat (length (all_peers rt)) ∧ total_peers rt ≤ 5120.
Proof.
  intros Hme Hos rt. pose proof (run_wf os _ (new_wf now me Hme) Hos) as Hwf. fold rt in Hwf.
  pose proof (total_bound rt Hwf) as [_ Hb]. change (Z.of_nat (NUM_BUCKETS * K)) with 5120 in Hb.
  split_and!; [apply Hwf| |by apply all_peers_nodup|apply Hwf|done].
  intros i b p Hi0 Hp. destruct (wf_bucket _ Hwf _ _ Hi0) as [Hs _ Hpl].
  destruct (Hpl p Hp) as [_ Hi]. split_and!; [done|done|].
  intros E. rewrite E in Hi. fold (bucket_index rt (local_id rt)) in Hi.
  by rewrite local_no_bucket in Hi.
Qed.

(** C12: [insert] refines the update of a finite map: a known peer is refreshed, a
    new one is added when its bucket has room, otherwise it takes the place of
    a dead or suspect peer of the same bucket, and when there is none to evict
    the insertion is refused and nothing changes. It does not panic. *)
Theorem insert_refines (now : Z) (id : PeerId.t) (addr : SocketAddr.t) (rt : t) :
  wf rt → PeerId.wf id →
  let '(rt', r) := insert now id addr rt in
  wf rt' ∧ r ≠ Panic ∧
  insert_spec now (local_id rt) id addr (bucket_full rt id) (contents rt) (contents rt') r ∧
  (∀ q, PeerId.wf q → get q rt' = contents rt' !! q).
Proof.
  intros Hwf Hid. destruct (insert now id addr rt) as [rt' r] eqn:E.
  destruct (insert_refines_map now id addr rt rt' r Hwf Hid E) as (Hwf' & _ & Hs).
  split_and!; [done|by inversion Hs|done|]. intros q Hq. by apply get_contents.
Qed.

(** The other operations refine the map operations: [remove] deletes and
    returns the entry, [mark_active] and [mark_suspect] update it in place, and
    [evict_dead] removes exactly the dead peers and returns how many. *)
Lemma table_ops_refine (now latency : Z) (id : PeerId.t) (rt : t) :
  wf rt → PeerId.wf id →
  ((remove id rt).2 = contents rt !! id ∧ contents (remove id rt).1 = delete id (contents rt)) ∧
  contents (mark_active now id latency rt) = alter (PeerInfo.mark_active now latency) id (contents rt) ∧
  contents (mark_suspect now id rt) = alter (PeerInfo.mark_suspect now) id (contents rt) ∧
  contents (update_peer id PeerInfo.mark_dead rt) = alter PeerInfo.mark_dead id (contents rt) ∧
  contents (evict_dead rt).1 = filter (λ x, PeerInfo.state x.2 ≠ PeerState.Dead) (contents rt) ∧
  (evict_dead rt).2 = total_peers rt - total_peers (evict_dead rt).1.
Proof.
  intros Hwf Hid. destruct (remove id rt) as [r1 x] eqn:E1. destruct (evict_dead rt) as [r2 n] eqn:E2.
  apply remove_refines_map in E1 as (_ & _ & Hx & Hc); [|done..].
  apply evict_refines_map in E2 as (_ & _ & Hn & Hf); [|done].
  split_and!; [done|done|by apply update_refines_map..|done|done].
Qed.

(** No operation of the table records a refresh ([mark_refreshed] has no
    caller), so once the table is older than the refresh interval every
    non-empty bucket is reported stale at every check, however often it has
    been refreshed since. *)
Lemma refresh_never_recorded (t0 now max_age : Z) (me : PeerId.t) (os : list op) (i : nat) (b : KBucket.t) :
  t0 + max_age < now → 0 ≤ max_age →
  buckets (run os (new t0 me)) !! i = Some b → KBucket.peers b ≠ [] →
  i ∈ stale_buckets now max_age (run os (new t0 me)).
Proof.
  intros Hage Hmax Hb Hne. set (rt := run os (new t0 me)) in *.
  assert (KBucket.last_refresh b = t0) as Ht.
  { pose proof (run_times os (new t0 me)) as Hr. fold rt in Hr.
    apply (f_equal (λ l, l !! i)) in Hr. unfold refresh_times in Hr.
    rewrite !list_lookup_fmap, Hb in Hr.
    destruct (buckets (new t0 me) !! i) as [b0|] eqn:E; [|discriminate Hr].
    apply lookup_replicate in E as [-> _]. by injection Hr. }
  unfold stale_buckets. apply list_elem_of_fmap. exists (i, b). split; [done|].
  apply list_elem_of_In, filter_In. split.
  - apply list_elem_of_In, (elem_of_lookup_imap_2 pair (buckets rt) b i Hb).
  - simpl. unfold KBucket.time_since_refresh, KBucket.is_empty, elapsed. rewrite Ht.
    destruct (KBucket.peers b); [done|]. simpl. apply Z.ltb_lt. lia.
Qed.
End Properties.
End RoutingLaws.

Module RoutingWitness.
Import RoutingTable RoutingLaws ToyLog2.

Definition me : PeerId.t := replicate 32 0.
Definition peer (x : Z) : PeerId.t := x :: replicate 31 7.
Definition host (p : Z) : SocketAddr.t := SocketAddr.V4 [10; 0; 0; 1] p.

Lemma me_wf : PeerId.wf me. Proof. split; [done|decide_now]. Qed.
Lemma peer_wf x : is_u8 x → PeerId.wf (peer x).
Proof. intros Hx. split; [done|]. constructor; [done|decide_now]. Qed.

(** Peers 128..147 fill bucket 7; peer 1 is in bucket 0; then some changes. *)
Definition history : list op :=
  map (λ k, Insert 5 (peer (128 + Z.of_nat k)) (host (Z.of_nat k))) (seq 0 20) ++
  [Insert 6 (peer 1) (host 99); MarkSuspect 7 (peer 130); MarkActive 8 (peer 131) 1000;
   Insert 9 (peer 200) (host 3); Insert 9 (peer 201) (host 4); Remove (peer 128)].
(** Two peers die and are evicted. *)
Definition deaths : list op := history ++ [MarkDead (peer 131); MarkDead (peer 1); Touch 9 (peer 132); EvictDead].

Definition table : t := run history (new 0 me).

Lemma history_wf : Forall op_wf history.
Proof.
  unfold history. apply Forall_app. split.
  - apply Forall_map, Forall_forall. intros k Hk. apply elem_of_seq in Hk. apply peer_wf.
    unfold is_uint. lia.
  - repeat (apply Forall_cons_2; [by apply peer_wf|]). apply Forall_nil_2.
Qed.

Lemma deaths_wf : Forall op_wf deaths.
Proof.
  apply Forall_app. split; [apply history_wf|].
  do 3 (apply Forall_cons_2; [by apply peer_wf|]). by apply Forall_singleton.
Qed.

Lemma table_wf : wf table.
Proof. apply run_wf; [apply new_wf, me_wf|apply history_wf]. Qed.

Lemma table_invariant_witness :
  let rt := run deaths (new 0 me) in
  total_peers table = 20 ∧ total_peers rt = 18 ∧ get (peer 131) rt = None ∧ total_peers rt = Z.of_nat (length (all_peers rt)).
Proof.
  split_and!; [vm_compute; reflexivity..|].
  apply (table_invariant 0 me deaths me_wf deaths_wf).
Defined.

(** Peer 200 took the place of the suspect peer 130; peer 201 was refused. *)
Lemma insert_refines_witness :
  get (peer 130) table = None ∧ is_ok (insert 9 (peer 202) (host 4) (run (removelast history) (new 0 me))).2 = false ∧
  is_ok (insert 9 (peer 2) (host 4) table).2 = true ∧
  (insert 9 (peer 2) (host 4) table).2 ≠ Panic.
Proof.
  split_and!; [vm_compute; reflexivity..|].
  pose proof (insert_refines 9 (peer 2) (host 4) table table_wf (peer_wf 2 ltac:(done))) as H.
  destruct (insert 9 (peer 2) (host 4) table) as [rt' r]. apply H.
Defined.

Lemma table_ops_refine_witness :
  (remove (peer 1) table).2 = contents table !! peer 1 ∧ is_Some (contents table !! peer 1).
Proof.
  split; [|vm_compute; eauto].
  apply (table_ops_refine 10 1 (peer 1) table table_wf). by apply peer_wf.
Defined.

Lemma find_closest_correct_witness :
  map PeerInfo.peer_id (find_closest (peer 133) 3 table) = [peer 133; peer 132; peer 135] ∧
  NoDup (map PeerInfo.peer_id (find_closest (peer 133) 3 table)).
Proof.
  split; [vm_compute; reflexivity|].
  apply (find_closest_correct (peer 133) 3 table table_wf). by apply peer_wf.
Defined.

Definition bucket7 : KBucket.t := default (KBucket.new 0) (buckets (run history (new 0 me)) !! 7%nat).

Lemma bucket7_found : buckets (run history (new 0 me)) !! 7%nat = Some bucket7.
Proof. vm_compute. reflexivity. Qed.

Lemma bucket7_filled : KBucket.peers bucket7 ≠ [].
Proof.
  assert (∀ b, KBucket.is_empty b = false → KBucket.peers b ≠ []) as H.
  { intros b Hb E. unfold KBucket.is_empty in Hb. by rewrite E in Hb. }
  apply H. vm_compute. reflexivity.
Qed.

Lemma refresh_never_recorded_witness :
  7%nat ∈ stale_buckets 1000 60 (run history (new 0 me)).
Proof.
  exact (refresh_never_recorded 0 1000 60 me history 7 bucket7 ltac:(lia) ltac:(lia)
           bucket7_found bucket7_filled).
Defined.
End RoutingWitness.
