(* ===== verification/Lookup.v ===== *)
(** ceky-dht/src/operations.rs: the iterative lookup. What it keeps of the peers
    it hears of, which it queries next, and that it ends. *)
From S2P Require Import Prelude Bytes PeerId DhtMsg Float64 PeerInfo Routing.

Local Open Scope Z_scope.

Module PeerEntry.
Record t : Set := mk { peer_id : PeerId.t; addr : SocketAddr.t; distance : bytes }.
End PeerEntry.

Module FindNodeResult.
Record t : Set := mk { closest : list PeerEntry.t; hops : Z; queried_count : Z }.
End FindNodeResult.

Module IterativeLookup.
Record t : Set := mk {
  target : PeerId.t;
  known_peers : list PeerEntry.t;
  queried : gset PeerId.t;
  round : Z;
  converged : bool
}.

Definition set_known (ps : list PeerEntry.t) (l : t) : t :=
  mk (target l) ps (queried l) (round l) (converged l).

Definition add_peer (l : t) (peer : PeerEntry.t) : t :=
  if existsb (λ p, bool_decide (PeerEntry.peer_id p = PeerEntry.peer_id peer)) (known_peers l) then l
  else
    let distance := PeerId.xor_distance (PeerEntry.peer_id peer) (target l) in
    let entry := PeerEntry.mk (PeerEntry.peer_id peer) (PeerEntry.addr peer) distance in
    let ps := known_peers l ++ [entry] in
    let ps := merge_sort (key_le PeerEntry.distance) ps in
    set_known (take (K * 3) ps) l.

Definition new (target : PeerId.t) (seed_peers : list PeerEntry.t) : t :=
  fold_left add_peer seed_peers (mk target [] ∅ 0 false).

Definition next_to_query (l : t) : t * list PeerEntry.t :=
  let to_query :=
    take ALPHA
      (List.filter (λ p, negb (bool_decide (PeerEntry.peer_id p ∈ queried l))) (known_peers l)) in
  let converged := if bool_decide (to_query = []) then true else converged l in
  let queried := fold_left (λ q p, {[PeerEntry.peer_id p]} ∪ q) to_query (queried l) in
  (mk (target l) (known_peers l) queried (round l + 1) converged, to_query).

(** The comparison of the closest peer before and after has no effect. *)
Definition process_responses (l : t) (new_peers : list PeerEntry.t) : t :=
  fold_left add_peer new_peers l.

Definition is_complete (l : t) : bool := converged l.

Definition result (l : t) : FindNodeResult.t :=
  FindNodeResult.mk (take K (known_peers l)) (round l) (Z.of_nat (size (queried l))).

(** ** What is known *)
Definition dist_of (target : PeerId.t) (p : PeerEntry.t) : Z := PeerId.dist (PeerEntry.peer_id p) target.

#[export] Instance entry_eq_dec : EqDecision PeerEntry.t.
Proof. solve_decision. Defined.

Definition ids (ps : list PeerEntry.t) : list PeerId.t := map PeerEntry.peer_id ps.

(** [seen] are the identifiers added so far. *)
Record wf (l : t) : Prop := {
  wf_target : PeerId.wf (target l);
  wf_ids : Forall (λ p, PeerId.wf (PeerEntry.peer_id p)) (known_peers l);
  wf_nodup : NoDup (ids (known_peers l));
  wf_dist : Forall (λ p, PeerEntry.distance p = PeerId.xor_distance (PeerEntry.peer_id p) (target l))
              (known_peers l);
  wf_sorted : StronglySorted (λ p q, dist_of (target l) p ≤ dist_of (target l) q) (known_peers l);
  wf_len : (length (known_peers l) ≤ K * 3)%nat
}.

(** Every seen identifier is known, or the list is full of peers no farther. *)
Definition covers (seen : list PeerId.t) (l : t) : Prop :=
  (∀ id, id ∈ ids (known_peers l) → id ∈ seen) ∧
  ∀ id, id ∈ seen → id ∈ ids (known_peers l) ∨
    (length (known_peers l) = K * 3)%nat ∧
    ∀ p, p ∈ known_peers l → dist_of (target l) p ≤ PeerId.dist id (target l).

Lemma dup_check l peer :
  existsb (λ p, bool_decide (PeerEntry.peer_id p = PeerEntry.peer_id peer)) (known_peers l) = true ↔
  PeerEntry.peer_id peer ∈ ids (known_peers l).
Proof.
  rewrite existsb_exists. unfold ids. rewrite list_elem_of_fmap. split.
  - intros (p & Hp%list_elem_of_In & E%bool_decide_eq_true). eauto.
  - intros (p & E & Hp). exists p. by rewrite <- list_elem_of_In, bool_decide_eq_true.
Qed.

Lemma sort_entries target ps :
  PeerId.wf target → Forall (λ p, PeerId.wf (PeerEntry.peer_id p)) ps →
  Forall (λ p, PeerEntry.distance p = PeerId.xor_distance (PeerEntry.peer_id p) target) ps →
  StronglySorted (λ p q, dist_of target p ≤ dist_of target q)
    (merge_sort (key_le PeerEntry.distance) ps).
Proof.
  intros Ht Hid Hd. set (l := merge_sort _ ps).
  assert (l ≡ₚ ps) as Hperm by apply merge_sort_Permutation.
  assert (StronglySorted (key_le PeerEntry.distance) l) as Hs
    by (apply StronglySorted_merge_sort; apply _).
  rewrite <- Hperm in Hid, Hd. clear Hperm. induction Hs as [|p l Hs IH Hall]; [constructor|].
  apply Forall_cons in Hid as [Hp Hid], Hd as [Hpd Hd]. constructor; [by apply IH|].
  rewrite Forall_forall in *. intros q Hq. specialize (Hall q Hq).
  unfold key_le, bytes_le in Hall. rewrite Hpd, (Hd q Hq) in Hall.
  destruct (xor_wf _ _ Hp Ht), (xor_wf _ _ (Hid q Hq) Ht).
  rewrite bytes_lt_spec in Hall by (done || congruence). by apply Z.ltb_ge in Hall.
Qed.

(** Cutting a sorted list after [n] elements keeps the closest ones. *)
Lemma cut_inside target n s id :
  StronglySorted (λ p q, dist_of target p ≤ dist_of target q) s → id ∈ ids s →
  id ∈ ids (take n s) ∨ length (take n s) = n ∧
    ∀ p, p ∈ take n s → dist_of target p ≤ PeerId.dist id target.
Proof.
  intros Hs (p & -> & Hp)%list_elem_of_fmap. rewrite <- (take_drop n s) in Hs, Hp.
  apply elem_of_app in Hp as [Hp|Hp]; [left; by apply list_elem_of_fmap_2|]. right.
  split; [|intros q Hq; exact (StronglySorted_app_1_elem_of _ _ _ q p Hs Hq Hp)].
  rewrite length_take. assert (drop n s ≠ []) as Hne by (intros E; rewrite E in Hp; by apply elem_of_nil in Hp).
  destruct (decide (length s ≤ n)%nat); [|lia]. by rewrite drop_ge in Hne.
Qed.

Lemma cut_outside target n known entry s d :
  StronglySorted (λ p q, dist_of target p ≤ dist_of target q) s →
  s ≡ₚ known ++ [entry] → NoDup s → length known = n →
  (∀ p, p ∈ known → dist_of target p ≤ d) →
  length (take n s) = n ∧ ∀ p, p ∈ take n s → dist_of target p ≤ d.
Proof.
  intros Hs Hperm Hnd Hlen Hfar.
  assert (length s = S n) as Hl by (rewrite Hperm, length_app; simpl; lia).
  split; [rewrite length_take; lia|]. intros q Hq.
  assert (∀ p, p ∈ s → p ∈ known ∨ p = entry) as Hin by (intros p; rewrite Hperm; set_solver).
  rewrite <- (take_drop n s) in Hs, Hnd, Hin. apply NoDup_app in Hnd as (_ & Hdisj & _).
  destruct (drop n s) as [|p rest] eqn:Hd.
  { apply (f_equal length) in Hd. rewrite length_drop in Hd. simpl in Hd. lia. }
  destruct (Hin q) as [Hk| ->]; [set_solver|by apply Hfar|].
  destruct (Hin p) as [Hk| ->]; [set_solver| |].
  - etrans; [|by apply (Hfar p)]. apply (StronglySorted_app_1_elem_of _ _ _ entry p Hs Hq). set_solver.
  - destruct (Hdisj entry Hq). set_solver.
Qed.

(** One addition: the list is sorted, cut and covers what was seen. *)
Lemma add_peer_ok l peer seen :
  wf l → PeerId.wf (PeerEntry.peer_id peer) → covers seen l →
  wf (add_peer l peer) ∧ covers (PeerEntry.peer_id peer :: seen) (add_peer l peer).
Proof.
  intros [Ht Hid Hnd Hd Hs Hlen] Hp [Hsub Hcov]. unfold add_peer.
  destruct (existsb _ _) eqn:Hdup.
  { apply dup_check in Hdup. split; [by split|]. split; [set_solver|].
    intros id [->|?]%elem_of_cons; auto. }
  assert (PeerEntry.peer_id peer ∉ ids (known_peers l)) as Hfresh.
  { rewrite <- dup_check. by rewrite Hdup. }
  set (entry := PeerEntry.mk _ _ _). set (ps := known_peers l ++ [entry]).
  set (s := merge_sort _ ps). assert (s ≡ₚ ps) as Hperm by apply merge_sort_Permutation.
  assert (Forall (λ p, PeerId.wf (PeerEntry.peer_id p)) s) as Hid'.
  { rewrite Hperm. apply Forall_app. split; [done|]. by constructor. }
  assert (Forall (λ p, PeerEntry.distance p = PeerId.xor_distance (PeerEntry.peer_id p) (target l)) s) as Hd'.
  { rewrite Hperm. apply Forall_app. split; [done|]. by constructor. }
  assert (StronglySorted (λ p q, dist_of (target l) p ≤ dist_of (target l) q) s) as Hs'.
  { apply sort_entries; [done|by rewrite <- Hperm..]. }
  assert (NoDup (ids s)) as Hnd'.
  { unfold ids. rewrite Hperm. unfold ps. rewrite map_app. apply NoDup_app.
    split_and!; [done| |apply NoDup_singleton]. intros x Hx Hy.
    apply list_elem_of_singleton in Hy as ->. done. }
  assert (∀ id, id ∈ ids s ↔ id = PeerEntry.peer_id peer ∨ id ∈ ids (known_peers l)) as Hin.
  { intros id. unfold ids. rewrite Hperm. unfold ps. rewrite map_app. set_solver. }
  assert (NoDup s) as Hnds by by eapply NoDup_fmap_1.
  pose proof Hs' as Hs''.
  rewrite <- (take_drop (K * 3) s) in Hid', Hd', Hs', Hnd'.
  unfold ids in Hnd'. rewrite map_app in Hnd'.
  apply Forall_app in Hid' as [Hid' _], Hd' as [Hd' _]. apply NoDup_app in Hnd' as (Hnd' & _ & _).
  split; [split; simpl; try done|].
  - by eapply StronglySorted_app_1_l.
  - rewrite length_take. lia.
  - split; cbn [known_peers set_known target].
    + intros id (p & -> & Hpt)%list_elem_of_fmap. apply elem_of_cons.
      assert (PeerEntry.peer_id p ∈ ids s) as [->|?]%Hin; [|by left|right; by apply Hsub].
      apply list_elem_of_fmap_2. rewrite <- (take_drop (K * 3) s). apply elem_of_app. by left.
    + intros id Hseen. destruct (decide (id ∈ ids s)) as [Hids|Hout]; [by apply cut_inside|].
      right. apply elem_of_cons in Hseen as [->|Hseen]; [destruct Hout; apply Hin; by left|].
      destruct (Hcov id Hseen) as [Hk|[Hfull Hfar]]; [destruct Hout; apply Hin; by right|].
      by apply (cut_outside _ _ (known_peers l) entry).
Qed.

(** All additions of a list. *)
Lemma add_all_ok peers l seen :
  wf l → Forall (λ p, PeerId.wf (PeerEntry.peer_id p)) peers → covers seen l →
  wf (fold_left add_peer peers l) ∧ covers (rev (ids peers) ++ seen) (fold_left add_peer peers l).
Proof.
  intros Hwf Hps. revert l seen Hwf. induction Hps as [|p peers Hp _ IH]; intros l seen Hwf Hcov; [done|].
  simpl. rewrite <- app_assoc. simpl. destruct (add_peer_ok l p seen Hwf Hp Hcov) as [Hwf' Hcov'].
  by apply IH.
Qed.

Lemma add_all_frame peers l :
  target (fold_left add_peer peers l) = target l ∧
  queried (fold_left add_peer peers l) = queried l ∧
  round (fold_left add_peer peers l) = round l ∧
  converged (fold_left add_peer peers l) = converged l.
Proof.
  revert l. induction peers as [|p peers IH]; intros l; [done|]. simpl.
  destruct (IH (add_peer l p)) as (-> & -> & -> & ->). unfold add_peer. by destruct (existsb _ _).
Qed.

Lemma empty_wf target : PeerId.wf target → wf (mk target [] ∅ 0 false).
Proof. intros Ht. split; simpl; try done; [constructor..|]. lia. Qed.

Lemma empty_covers target : covers [] (mk target [] ∅ 0 false).
Proof. split; simpl; set_solver. Qed.

(** C24: after any seeds and responses a lookup knows exactly the closest peers it
    has heard of: at most 60, each once, in order of distance to the target,
    and a peer that was heard of and is not known is no closer than any of the
    60 that are. *)
Theorem lookup_keeps_closest (target : PeerId.t) (seeds responses : list PeerEntry.t) :
  PeerId.wf target → Forall (λ p, PeerId.wf (PeerEntry.peer_id p)) (seeds ++ responses) →
  let l := process_responses (new target seeds) responses in
  (length (known_peers l) ≤ 60)%nat ∧ NoDup (ids (known_peers l)) ∧
  StronglySorted (λ p q, dist_of target p ≤ dist_of target q) (known_peers l) ∧
  (∀ id, id ∈ ids (known_peers l) → id ∈ ids (seeds ++ responses)) ∧
  (∀ id, id ∈ ids (seeds ++ responses) → id ∈ ids (known_peers l) ∨
     length (known_peers l) = 60%nat ∧
     ∀ p, p ∈ known_peers l → dist_of target p ≤ PeerId.dist id target).
Proof.
  intros Ht Hps l.
  destruct (add_all_ok (seeds ++ responses) _ [] (empty_wf target Ht) Hps (empty_covers target)) as [Hwf Hcov].
  assert (l = fold_left add_peer (seeds ++ responses) (mk target [] ∅ 0 false)) as El.
  { unfold l, process_responses, new. by rewrite fold_left_app. }
  rewrite <- El in Hwf, Hcov. assert (IterativeLookup.target l = target) as Etgt.
  { rewrite El. by destruct (add_all_frame (seeds ++ responses) (mk target [] ∅ 0 false)) as [-> _]. }
  destruct Hcov as [Hsub Hcov]. rewrite app_nil_r in Hsub, Hcov. rewrite Etgt in *.
  destruct Hwf as [_ _ Hnd _ Hs Hlen]. rewrite Etgt in Hs.
  split_and!; [exact Hlen|done|done| |].
  - intros id Hid%Hsub. by apply list_elem_of_In, in_rev, list_elem_of_In.
  - intros id Hid. apply Hcov. by apply list_elem_of_In, in_rev, list_elem_of_In in Hid.
Qed.

(** ** Termination *)
Lemma next_queried l :
  let '(l', batch) := next_to_query l in
  known_peers l' = known_peers l ∧ target l' = target l ∧ round l' = round l + 1 ∧
  queried l' = list_to_set (ids batch) ∪ queried l ∧
  (∀ p, p ∈ batch → p ∈ known_peers l ∧ PeerEntry.peer_id p ∉ queried l) ∧
  (batch = [] → ∀ p, p ∈ known_peers l → PeerEntry.peer_id p ∈ queried l) ∧
  (batch = [] → converged l' = true) ∧ (batch ≠ [] → converged l' = converged l) ∧
  (length batch ≤ ALPHA)%nat.
Proof.
  unfold next_to_query. set (cand := List.filter _ _).
  assert (∀ p, p ∈ cand ↔ p ∈ known_peers l ∧ PeerEntry.peer_id p ∉ queried l) as Hc.
  { intros p. unfold cand. rewrite list_elem_of_In, filter_In, <- list_elem_of_In.
    by rewrite negb_true_iff, bool_decide_eq_false. }
  assert (∀ (batch : list PeerEntry.t) (q : gset PeerId.t),
    fold_left (λ q p, {[PeerEntry.peer_id p]} ∪ q) batch q = list_to_set (ids batch) ∪ q) as Hfold.
  { induction batch as [|p batch IH]; intros q; simpl; [set_solver|]. rewrite IH. set_solver. }
  simpl. split_and!; [done..|by rewrite Hfold| | | | |].
  - intros p Hp. apply Hc. rewrite <- (take_drop ALPHA cand). apply elem_of_app. by left.
  - intros Hnil p Hp. destruct (decide (PeerEntry.peer_id p ∈ queried l)) as [|Hn]; [done|].
    assert (p ∈ cand) as Hpc by by apply Hc. destruct cand; [by apply elem_of_nil in Hpc|done].
  - intros ->. done.
  - intros Hne. by rewrite bool_decide_eq_false_2.
  - rewrite length_take. lia.
Qed.

(** Rounds of a lookup: the next batch is taken, and what came back for it in that
    round, [answers], is processed; it ends with the round that finds nobody to ask.
    [fuel] bounds the rounds. *)
Fixpoint rounds (answers : Z → list PeerEntry.t → list PeerEntry.t) (fuel : nat) (l : t) : option t :=
  match fuel with
  | O => None
  | S fuel =>
      let '(l, batch) := next_to_query l in
      if is_complete l then Some l else rounds answers fuel (process_responses l (answers (round l) batch))
  end.

Section Rounds.
Context (answers : Z → list PeerEntry.t → list PeerEntry.t) (network : gset PeerId.t).
Context (Hnet : ∀ id, id ∈ network → PeerId.wf id).
Context (Hanswers : ∀ r batch q, q ∈ answers r batch → PeerEntry.peer_id q ∈ network).

Record rounds_inv (l : t) : Prop := {
  di_wf : wf l;
  di_known : ∀ id, id ∈ ids (known_peers l) → id ∈ network;
  di_queried : queried l ⊆ network;
  di_open : converged l = false
}.

(** One round of the loop: done with everything known queried, or strictly more
    of the network queried. *)
Lemma one_round l :
  rounds_inv l →
  let '(l', batch) := next_to_query l in
  if converged l' then
    wf l' ∧ ∀ p, p ∈ known_peers l' → PeerEntry.peer_id p ∈ queried l'
  else
    let l2 := process_responses l' (answers (round l') batch) in
    rounds_inv l2 ∧ (size (queried l) < size (queried l2))%nat.
Proof.
  intros [Hwf Hk Hq Ho]. pose proof (next_queried l) as Hn.
  destruct (next_to_query l) as [l' batch].
  destruct Hn as (Ek & Et & _ & Eq & Hb & Hnil & Hc1 & Hc2 & _).
  assert (wf l') as Hwf'.
  { destruct Hwf. split; rewrite ?Ek, ?Et; done. }
  destruct batch as [|p batch].
  { rewrite Hc1 by done. split; [done|]. rewrite Ek. intros p Hp.
    rewrite Eq. apply elem_of_union. right. by apply Hnil. }
  rewrite Hc2, Ho by done. intros l2.
  assert (Forall (λ q, PeerId.wf (PeerEntry.peer_id q)) (answers (round l') (p :: batch))) as Hps.
  { apply Forall_forall. intros q Hqin. apply Hnet. by eapply Hanswers. }
  destruct (add_all_ok _ l' (ids (known_peers l')) Hwf' Hps) as [Hwf2 [Hsub _]].
  { split; [done|]. intros id Hid. by left. }
  destruct (add_all_frame (answers (round l') (p :: batch)) l') as (_ & Eq2 & _ & Ec2).
  assert (list_to_set (ids (p :: batch)) ⊆ network) as Hbn.
  { intros id Hid%elem_of_list_to_set. apply list_elem_of_fmap in Hid as (q & -> & Hqb).
    apply Hk. apply list_elem_of_fmap_2. by apply Hb. }
  split; [split|].
  - done.
  - intros id Hid%Hsub. apply elem_of_app in Hid as [Hid|Hid]; [|rewrite Ek in Hid; by apply Hk].
    apply list_elem_of_In, in_rev, list_elem_of_In, list_elem_of_fmap in Hid as (q & -> & Hqin).
    by eapply Hanswers.
  - unfold l2, process_responses. rewrite Eq2, Eq. set_solver.
  - unfold l2, process_responses. by rewrite Ec2, Hc2.
  - unfold l2, process_responses. rewrite Eq2, Eq. apply subset_size.
    destruct (Hb p) as [_ Hpq]; [by left|]. simpl. set_solver.
Qed.

Lemma rounds_end fuel l :
  rounds_inv l → (size network - size (queried l) < fuel)%nat →
  ∃ l', rounds answers fuel l = Some l' ∧ is_complete l' = true ∧
    ∀ p, p ∈ known_peers l' → PeerEntry.peer_id p ∈ queried l'.
Proof.
  revert l. induction fuel as [|fuel IH]; intros l Hi Hf; [lia|]. cbn [rounds].
  pose proof (one_round l Hi) as Hr. destruct (next_to_query l) as [l' batch].
  unfold is_complete. destruct (converged l') eqn:E; [destruct Hr; eauto|]. destruct Hr as [Hi2 Hlt].
  apply IH; [done|]. pose proof (subseteq_size _ _ (di_queried _ Hi2)).
  pose proof (subseteq_size _ _ (di_queried _ Hi)). lia.
Qed.
End Rounds.

(** C13: a lookup ends. When what comes back in each round names only peers of a
    network of [n] peers, whatever it is, the lookup is complete after at most [n]
    rounds that query someone and one that does not, and then every peer it knows
    (all of them, not only those of the result) has been queried. *)
Theorem lookup_terminates (answers : Z → list PeerEntry.t → list PeerEntry.t) (network : gset PeerId.t)
    (target : PeerId.t) (seeds : list PeerEntry.t) :
  PeerId.wf target → (∀ id, id ∈ network → PeerId.wf id) →
  (∀ r batch q, q ∈ answers r batch → PeerEntry.peer_id q ∈ network) →
  (∀ p, p ∈ seeds → PeerEntry.peer_id p ∈ network) →
  ∃ l, rounds answers (S (size network)) (new target seeds) = Some l ∧
    is_complete l = true ∧
    ∀ p, p ∈ known_peers l → PeerEntry.peer_id p ∈ queried l.
Proof.
  intros Ht Hnet Ha Hs. apply (rounds_end answers network Hnet Ha); [|lia].
  assert (Forall (λ p, PeerId.wf (PeerEntry.peer_id p)) seeds) as Hps
    by (apply Forall_forall; intros p Hp; by apply Hnet, Hs).
  destruct (add_all_ok seeds _ [] (empty_wf target Ht) Hps (empty_covers target)) as [Hwf [Hsub _]].
  destruct (add_all_frame seeds (mk target [] ∅ 0 false)) as (_ & Eq & _ & Ec).
  unfold new. split; [done| |by rewrite Eq; set_solver|done].
  intros id Hid%Hsub. rewrite app_nil_r in Hid.
  apply list_elem_of_In, in_rev, list_elem_of_In, list_elem_of_fmap in Hid as (p & -> & Hp). by apply Hs.
Qed.
End IterativeLookup.

Module LookupWitness.
Import IterativeLookup.

Definition pid (x : Z) : PeerId.t := x :: replicate 31 0.
Definition entry (x : Z) : PeerEntry.t := PeerEntry.mk (pid x) (SocketAddr.V4 [10; 0; 0; x] 1) [].
(** Peer [x] knows [x / 2] and [x / 2 + 1]. *)
Definition answer (p : PeerEntry.t) : list PeerEntry.t :=
  let x := nth 0 (PeerEntry.peer_id p) 0 in
  if (2 <=? x) && (x <=? 200) then [entry (x / 2); entry (x / 2 + 1)] else [].
Definition network : gset PeerId.t := list_to_set (map (λ k, pid (Z.of_nat k)) (seq 0 256)).

Lemma pid_wf x : is_u8 x → PeerId.wf (pid x).
Proof. intros Hx. split; [done|]. constructor; [done|decide_now]. Qed.

Lemma network_elem x : is_u8 x → pid x ∈ network.
Proof.
  intros [H0 H1]. unfold network. apply elem_of_list_to_set, list_elem_of_fmap.
  exists (Z.to_nat x). rewrite Z2Nat.id by done. split; [done|]. apply elem_of_seq.
  change (2 ^ 8) with 256 in H1. lia.
Qed.

Lemma network_wf id : id ∈ network → PeerId.wf id.
Proof.
  unfold network. rewrite elem_of_list_to_set, list_elem_of_fmap.
  intros (k & -> & Hk%elem_of_seq). apply pid_wf. split; [lia|]. change (2 ^ 8) with 256. lia.
Qed.

Lemma answer_network p q : q ∈ answer p → PeerEntry.peer_id q ∈ network.
Proof.
  generalize network, network_elem. intros net Hnet. unfold answer. set (x := nth 0 _ 0).
  destruct ((2 <=? x) && (x <=? 200)) eqn:E; [|intros H'; by apply elem_of_nil in H'].
  apply andb_true_iff in E as [?%Z.leb_le ?%Z.leb_le].
  assert (0 ≤ x / 2 ≤ 100) by (split; [apply Z.div_pos; lia|apply Z.div_le_upper_bound; lia]).
  intros [->|[->|Hn]%elem_of_cons]%elem_of_cons; [..|by apply elem_of_nil in Hn];
    apply Hnet; unfold is_uint; change (2 ^ 8) with 256; lia.
Qed.

Lemma seeds_network p : p ∈ [entry 200; entry 90] → PeerEntry.peer_id p ∈ network.
Proof.
  generalize network, network_elem. intros net Hnet.
  intros [->|[->|Hn]%elem_of_cons]%elem_of_cons; [..|by apply elem_of_nil in Hn]; by apply Hnet.
Qed.

Definition answers (r : Z) (batch : list PeerEntry.t) : list PeerEntry.t := concat (map answer batch).

Lemma answers_network r batch q : q ∈ answers r batch → PeerEntry.peer_id q ∈ network.
Proof.
  unfold answers. rewrite list_elem_of_In, in_concat. intros (l & Hl & Hq).
  apply in_map_iff in Hl as (p & <- & _). apply (answer_network p). by apply list_elem_of_In.
Qed.

Lemma lookup_terminates_witness :
  ∃ l, rounds answers (S (size network)) (new (pid 0) [entry 200; entry 90]) = Some l ∧
    is_complete l = true ∧
    ∀ p, p ∈ known_peers l → PeerEntry.peer_id p ∈ queried l.
Proof.
  apply (lookup_terminates answers network).
  - by apply pid_wf.
  - apply network_wf.
  - apply answers_network.
  - apply seeds_network.
Defined.

Lemma lookup_keeps_closest_witness :
  map PeerEntry.peer_id (known_peers (process_responses (new (pid 0) [entry 9]) [entry 4; entry 9; entry 6]))
    = [pid 4; pid 6; pid 9] ∧
  NoDup (ids (known_peers (process_responses (new (pid 0) [entry 9]) [entry 4; entry 9; entry 6]))).
Proof.
  split; [vm_compute; reflexivity|].
  apply (lookup_keeps_closest (pid 0) [entry 9] [entry 4; entry 9; entry 6]); [by apply pid_wf|].
  repeat (apply Forall_cons_2; [by apply pid_wf|]). apply Forall_nil_2.
Defined.
End LookupWitness.
