(* ===== verification/Bootstrap.v ===== *)
(** ceky-dht/src/bootstrap.rs: the bootstrap phases and the lookup targets meant
    for a given bucket. *)
From S2P Require Import Prelude Bytes PeerId DhtMsg Float64 PeerInfo Routing Lookup.

Local Open Scope Z_scope.

Module BootstrapConfig.
Record t : Set := mk {
  seed_nodes : list SocketAddr.t;
  probe_timeout : Z;
  random_lookups : nat;
  refresh_interval : Z
}.

(** [BootstrapConfig { seed_nodes, ..Default::default() }]; times in nanoseconds *)
Definition default (seed_nodes : list SocketAddr.t) : t :=
  mk seed_nodes (5 * F64.NANOS_PER_SEC) 3 (3600 * F64.NANOS_PER_SEC).
End BootstrapConfig.

Module BootstrapState.
Inductive t : Set := Idle | ContactingSeeds | SelfLookup | BucketFill | Complete | Failed.
End BootstrapState.

Module BootstrapResult.
Record t : Set := mk {
  state : BootstrapState.t; peers_discovered : Z; seeds_responded : Z; seeds_attempted : Z
}.
End BootstrapResult.

Module BootstrapManager.
Record t : Set := mk { config : BootstrapConfig.t; state : BootstrapState.t }.

Definition new (config : BootstrapConfig.t) : t := mk config BootstrapState.Idle.
Definition with_seeds (seeds : list SocketAddr.t) : t := new (BootstrapConfig.default seeds).
Definition seed_addrs (bm : t) : list SocketAddr.t := BootstrapConfig.seed_nodes (config bm).

Definition prepare_self_lookup (bm : t) (local_id : PeerId.t) (known_peers : list PeerEntry.t)
    : t * IterativeLookup.t :=
  (mk (config bm) BootstrapState.SelfLookup, IterativeLookup.new local_id known_peers).

(** [target[byte_idx] ^= 1 << bit_idx] on a [[u8; 32]] *)
Definition flip_bit (b : bytes) (byte_idx bit_idx : nat) : bytes :=
  if (byte_idx <? 32)%nat
  then alter (λ x, Z.lxor x (wrap 8 (Z.shiftl 1 (Z.of_nat bit_idx)))) byte_idx b
  else b.

(** [for b in target_bytes.iter_mut().skip(n) { *b ^= seed; }] *)
Definition xor_from (n : nat) (seed : Z) (b : bytes) : bytes :=
  take n b ++ map (λ x, Z.lxor x seed) (drop n b).

Definition fill_target (local_bytes : bytes) (i random_lookups : nat) : PeerId.t :=
  let target_bucket := (i * NUM_BUCKETS / Nat.max random_lookups 1)%nat in
  let byte_idx := (target_bucket / 8)%nat in
  let bit_idx := (target_bucket mod 8)%nat in
  let target_bytes := flip_bit local_bytes byte_idx bit_idx in
  let seed := wrap 8 (wrap 8 (wrap 8 (Z.of_nat i) * 0x9E) + 0x37) in
  xor_from (byte_idx + 1) seed target_bytes.

Definition generate_bucket_fill_targets (bm : t) (local_id : PeerId.t) : list PeerId.t :=
  let n := BootstrapConfig.random_lookups (config bm) in
  map (λ i, fill_target local_id i n) (seq 0 n).

Definition seeds_contacted (bm : t) (responded total : Z) : t :=
  mk (config bm) BootstrapState.ContactingSeeds.

Definition begin_bucket_fill (bm : t) : t := mk (config bm) BootstrapState.BucketFill.

Definition complete (bm : t) (rt : RoutingTable.t) : t * BootstrapResult.t :=
  let peers_discovered := RoutingTable.total_peers rt in
  let st := if 0 <? peers_discovered then BootstrapState.Complete else BootstrapState.Failed in
  (mk (config bm) st,
   BootstrapResult.mk st peers_discovered 0
     (Z.of_nat (length (BootstrapConfig.seed_nodes (config bm))))).

Definition stale_target (local_bytes : bytes) (bucket_idx : nat) : PeerId.t :=
  flip_bit local_bytes (bucket_idx / 8) (bucket_idx mod 8).

Definition stale_bucket_targets (bm : t) (now : Z) (local_id : PeerId.t) (rt : RoutingTable.t)
    : list PeerId.t :=
  map (stale_target local_id)
    (RoutingTable.stale_buckets now (BootstrapConfig.refresh_interval (config bm)) rt).
End BootstrapManager.

(** ** Targets fall into their bucket *)
Module BootstrapLaws.
Import BootstrapManager.

Lemma xor_self l : zip_with Z.lxor l l = replicate (length l) 0.
Proof. induction l as [|x l IH]; simpl; [done|]. by rewrite Z.lxor_nilpotent, IH. Qed.

Lemma scan_zeros n j d : PeerId.bucket_scan j (replicate n 0 ++ d) = PeerId.bucket_scan (j + Z.of_nat n) d.
Proof.
  revert j. induction n as [|n IH]; intros j; [simpl; f_equal; lia|].
  simpl. rewrite IH. f_equal. lia.
Qed.

(** An identifier that agrees with [me] up to a byte and differs there in the
    single bit [bit]. *)
Lemma one_bit_bucket l1 x l2 l2' (bit : nat) :
  (bit < 8)%nat →
  PeerId.bucket_index (l1 ++ x :: l2) (l1 ++ Z.lxor x (wrap 8 (Z.shiftl 1 (Z.of_nat bit))) :: l2') =
  Some (Z.of_nat (8 * length l1 + bit)).
Proof.
  intros Hbit. unfold PeerId.bucket_index, PeerId.xor_distance.
  rewrite zip_with_app by done. rewrite xor_self, scan_zeros. cbn [zip_with PeerId.bucket_scan].
  rewrite <- Z.lxor_assoc, Z.lxor_nilpotent, Z.lxor_0_l.
  assert (wrap 8 (Z.shiftl 1 (Z.of_nat bit)) = 2 ^ Z.of_nat bit) as ->.
  { rewrite Z.shiftl_1_l. apply wrap_small. split; [lia|]. apply Z.pow_lt_mono_r; lia. }
  assert (0 < 2 ^ Z.of_nat bit) by lia. destruct (Z.eqb_spec (2 ^ Z.of_nat bit) 0); [lia|]. simpl.
  unfold leading_zeros8. destruct (Z.eqb_spec (2 ^ Z.of_nat bit) 0); [lia|].
  rewrite Z.log2_pow2 by lia. f_equal. lia.
Qed.

Lemma flip_split me byte_idx bit :
  length me = 32%nat → (byte_idx < 32)%nat →
  ∃ l1 x l2, me = l1 ++ x :: l2 ∧ length l1 = byte_idx ∧
    flip_bit me byte_idx bit = l1 ++ Z.lxor x (wrap 8 (Z.shiftl 1 (Z.of_nat bit))) :: l2.
Proof.
  intros Hl Hb. destruct (lookup_lt_is_Some_2 me byte_idx) as [x Hx]; [lia|].
  exists (take byte_idx me), x, (drop (S byte_idx) me). split_and!.
  - by rewrite take_drop_middle.
  - rewrite length_take. lia.
  - unfold flip_bit. apply Nat.ltb_lt in Hb as Hb'. rewrite Hb'.
    rewrite <- (take_drop_middle me byte_idx x Hx) at 1.
    rewrite alter_app_r_alt by (rewrite length_take; lia).
    rewrite length_take, Nat.min_l, Nat.sub_diag by lia. done.
Qed.

Lemma lxor_u8 x m : is_u8 x → is_u8 m → is_u8 (Z.lxor x m).
Proof. intros. by apply is_uint_lxor. Qed.

Lemma xor_from_wf n seed b : is_u8 seed → bytes_wf b → bytes_wf (xor_from n seed b).
Proof.
  intros Hs Hb. unfold xor_from. apply Forall_app. split; [by apply Forall_take|].
  apply Forall_map. eapply Forall_impl; [by apply Forall_drop|]. intros x Hx. by apply lxor_u8.
Qed.

Lemma flip_bit_wf me i j : PeerId.wf me → PeerId.wf (flip_bit me i j).
Proof.
  intros [Hl Hw]. unfold flip_bit. case_match; [|done]. split; [by rewrite length_alter|].
  apply Forall_alter; [done|]. intros x _ Hx. apply lxor_u8; [done|]. by apply wrap_range.
Qed.

Lemma stale_target_bucket me k :
  PeerId.wf me → (k < 256)%nat →
  PeerId.wf (stale_target me k) ∧ PeerId.bucket_index me (stale_target me k) = Some (Z.of_nat k).
Proof.
  intros Hme Hk. split; [by apply flip_bit_wf|]. unfold stale_target.
  pose proof (Nat.div_mod k 8 ltac:(lia)). pose proof (Nat.mod_upper_bound k 8 ltac:(lia)).
  destruct (flip_split me (k / 8) (k mod 8)) as (l1 & x & l2 & -> & Hl1 & ->); [apply Hme|lia|].
  rewrite one_bit_bucket by done. rewrite Hl1. do 2 f_equal. lia.
Qed.

Lemma fill_target_bucket me i n :
  PeerId.wf me → (i < n)%nat →
  PeerId.wf (fill_target me i n) ∧
  PeerId.bucket_index me (fill_target me i n) = Some (Z.of_nat (i * NUM_BUCKETS / n)).
Proof.
  intros Hme Hi. unfold fill_target. rewrite Nat.max_l by lia.
  set (k := (i * NUM_BUCKETS / n)%nat).
  assert (k < 256)%nat as Hk by (apply Nat.Div0.div_lt_upper_bound; unfold NUM_BUCKETS; lia).
  set (seed := wrap 8 _). assert (is_u8 seed) as Hseed by by apply wrap_range.
  pose proof (Nat.div_mod k 8 ltac:(lia)). pose proof (Nat.mod_upper_bound k 8 ltac:(lia)).
  split.
  - destruct (flip_bit_wf me (k / 8) (k mod 8) Hme) as [Hl Hw]. split; [|by apply xor_from_wf].
    unfold xor_from. rewrite length_app, length_map, length_take, length_drop. lia.
  - destruct (flip_split me (k / 8) (k mod 8)) as (l1 & x & l2 & -> & Hl1 & ->); [apply Hme|lia|].
    unfold xor_from. set (y := Z.lxor x _).
    replace (k / 8 + 1)%nat with (length l1 + 1)%nat by lia.
    rewrite take_app_add, drop_app_add. cbn [take drop]. rewrite <- app_assoc. simpl.
    subst y. rewrite one_bit_bucket by done. do 2 f_equal. lia.
Qed.

(** C40: every target generated for filling or refreshing a bucket is an identifier
    of exactly that bucket: the refresh targets of the stale buckets, and the
    fill targets of the buckets [i * 256 / random_lookups]. *)
Theorem bootstrap_targets_hit (bm : t) (now : Z) (me : PeerId.t) (rt : RoutingTable.t) :
  PeerId.wf me → RoutingLaws.wf rt →
  Forall2 (λ k tgt, PeerId.wf tgt ∧ PeerId.bucket_index me tgt = Some (Z.of_nat k))
    (RoutingTable.stale_buckets now (BootstrapConfig.refresh_interval (config bm)) rt)
    (stale_bucket_targets bm now me rt) ∧
  (let n := BootstrapConfig.random_lookups (config bm) in
   Forall2 (λ i tgt, PeerId.wf tgt ∧ PeerId.bucket_index me tgt = Some (Z.of_nat (i * 256 / n)))
     (seq 0 n) (generate_bucket_fill_targets bm me)).
Proof.
  intros Hme Hrt. split.
  - unfold stale_bucket_targets. apply Forall2_fmap_r, Forall_Forall2_diag, Forall_forall.
    intros k (ib & -> & Hk)%list_elem_of_fmap. apply stale_target_bucket; [done|].
    apply list_elem_of_In, filter_In in Hk as [Hk%list_elem_of_In _].
    apply elem_of_lookup_imap in Hk as (i & b & -> & Hb). simpl.
    apply lookup_lt_Some in Hb. by rewrite (RoutingLaws.wf_buckets _ Hrt) in Hb.
  - intros n. unfold generate_bucket_fill_targets. fold n.
    apply Forall2_fmap_r, Forall_Forall2_diag, Forall_forall. intros i Hi%elem_of_seq.
    apply fill_target_bucket; [done|lia].
Qed.
End BootstrapLaws.

Module BootstrapWitness.
Import BootstrapManager BootstrapLaws RoutingWitness ToyLog2.

Lemma bootstrap_targets_hit_witness :
  map (PeerId.bucket_index me) (generate_bucket_fill_targets (with_seeds []) me) =
    [Some 0; Some 85; Some 170] ∧
  Forall2 (λ k tgt, PeerId.wf tgt ∧ PeerId.bucket_index me tgt = Some (Z.of_nat k))
    (RoutingTable.stale_buckets 10 (BootstrapConfig.refresh_interval (config (with_seeds []))) table)
    (stale_bucket_targets (with_seeds []) 10 me table).
Proof.
  split; [vm_compute; reflexivity|].
  apply (bootstrap_targets_hit (with_seeds []) 10 me table me_wf table_wf).
Defined.
End BootstrapWitness.
