(* ===== verification/Transfer.v ===== *)
(** ceky-transfer: merkle.rs, state.rs and manager.rs. File transfers between a
    sender that is paced by credits and a receiver that writes chunks into a
    mapped file.

    The disk maps paths to contents; a memory map is a path and a length and
    reads and writes go through to the disk, as with a shared mapping. A file that
    was cut after it was mapped has bytes only up to the end of its last page: an
    access beyond it is a bus error, which ends the process (outcome [Killed]). Frames
    handed to [frame_tx] are appended to [sent]. Integer arithmetic wraps, as
    in a release build. [DashMap::get_mut] locks the entry's shard until its
    guard is dropped; asking for the same entry while a guard is held in the
    same call never returns, which is the outcome [Blocks]. *)
From S2P Require Import Prelude Bytes Wire TransferMsg WireTypes DhtMsg CryptoTypes.

Local Open Scope Z_scope.

Module ManagerError.
Inductive t : Set := Io | NotFound | InvalidState | BadHash.
End ManagerError.

Inductive outcome (A : Type) : Type :=
| Returns (r : result ManagerError.t A)
| Blocks
| Killed.
Arguments Returns {A} r.
Arguments Blocks {A}.
Arguments Killed {A}.

(** ** Paths: strings of bytes, components separated by '/' (47) *)
Module Path.
Fixpoint split (acc : bytes) (s : bytes) : list bytes :=
  match s with
  | [] => [acc]
  | c :: s => if c =? 47 then acc :: split [] s else split (acc ++ [c]) s
  end.

(** [path.file_name()]: the last component, unless it is ["..", 46 46]; empty and
    ["."] components do not count. *)
Definition file_name (p : bytes) : option bytes :=
  match last (List.filter (λ c, negb (bool_decide (c = []) || bool_decide (c = [46]))) (split [] p)) with
  | Some c => if bool_decide (c = [46; 46]) then None else Some c
  | None => None
  end.

(** [dir.join(name)]: an absolute name replaces the directory. *)
Definition join (dir name : bytes) : bytes :=
  if bool_decide (head name = Some 47) then name
  else if bool_decide (dir = []) || bool_decide (last dir = Some 47) then dir ++ name
  else dir ++ [47] ++ name.
End Path.

Abbreviation disk := (gmap bytes bytes).

(** [file.set_len(n)]: cut or extend with zeros. *)
Definition set_len (n : Z) (content : bytes) : bytes :=
  take (Z.to_nat n) content ++ replicate (Z.to_nat n - length content) 0.

Module Mmap.
Record t : Set := mk { path : bytes; len : Z }.

Definition PAGE : Z := 4096.

(** The file behind the mapping, as it is now. *)
Definition file (m : t) (d : disk) : bytes := default [] (d !! path m).

(** Where the last page of the file ends. *)
Definition limit (m : t) (d : disk) : Z := (blen (file m d) + PAGE - 1) / PAGE * PAGE.

(** Whether the bytes from [start] to [e] of the mapping can be accessed; an empty
    range is not accessed at all. *)
Definition accessible (m : t) (start e : Z) (d : disk) : bool := (e <=? start) || (e <=? limit m d).

(** What the mapping shows: the file, and zeros behind its end as far as its last
    page reaches (the rest is not [accessible]). *)
Definition contents (m : t) (d : disk) : bytes := set_len (len m) (file m d).

(** [map[start..start + data.len()].copy_from_slice(data)], for an accessible range.
    What is stored behind the end of the file does not become part of it. *)
Definition write (m : t) (start : Z) (data : bytes) (d : disk) : disk :=
  let f := file m d in
  let c := set_len (Z.max (blen f) (start + blen data)) f in
  <[path m := take (length f) (take (Z.to_nat start) c ++ data ++ drop (Z.to_nat start + length data) c)]> d.

Lemma limit_ge m d : blen (file m d) ≤ limit m d.
Proof.
  unfold limit. change PAGE with 4096. pose proof (Z.div_mod (blen (file m d) + 4096 - 1) 4096 ltac:(lia)).
  pose proof (Z.mod_pos_bound (blen (file m d) + 4096 - 1) 4096 ltac:(lia)). lia.
Qed.

Lemma accessible_in m start e d : e ≤ blen (file m d) → accessible m start e d = true.
Proof. intros H. pose proof (limit_ge m d). apply orb_true_iff. right. apply Z.leb_le. lia. Qed.

(** Only a file that was cut below its mapping faults. *)
Lemma fault_cut m start e d : accessible m start e d = false → e ≤ len m → blen (file m d) < len m.
Proof.
  intros [_ H]%orb_false_iff He. apply Z.leb_gt in H. pose proof (limit_ge m d). lia.
Qed.
End Mmap.

(** ** merkle.rs *)
Module Merkle.
Section Merkle.
Context `{SH : !Sha256}.

Definition hash_chunk (data : bytes) : bytes := sha256 data.

(** The reading loop: blocks of [chunk_size] bytes up to the end of the file. Each
    turn takes at least one byte, so the length of the file bounds the turns. *)
Fixpoint chunk_hashes (fuel : nat) (chunk_size : nat) (file : bytes) : list bytes :=
  match fuel with
  | O => []
  | S fuel =>
      let block := take chunk_size file in
      if bool_decide (block = []) then []
      else hash_chunk block :: chunk_hashes fuel chunk_size (drop chunk_size file)
  end.

Definition calculate_file_hash (file : bytes) (chunk_size : Z) : bytes :=
  sha256 (concat (chunk_hashes (length file) (Z.to_nat chunk_size) file)).
End Merkle.
End Merkle.

(** Which step of preparing the received file fails, if any: opening or creating
    it, setting its length, mapping it. *)
Inductive prepare : Set := OpenFails | SetLenFails | MapFails | Prepared.

Module SendingState.
Record t : Set := mk {
  peer : SocketAddr.t; file_map : Mmap.t; bitfield : bytes; credits : Z; chunk_size : Z;
  total_chunks : Z; current_chunk_idx : Z
}.
End SendingState.

Module ReceivingState.
Record t : Set := mk {
  peer : SocketAddr.t; file_map : Mmap.t; expected_root : bytes; bitfield : bytes;
  chunk_size : Z; total_chunks : Z; received_chunks : Z; file_path : bytes
}.
End ReceivingState.

Inductive TransferState : Set :=
| Sending (s : SendingState.t)
| Receiving (r : ReceivingState.t).

Module TransferManager.
Record t : Type := mk {
  active_transfers : gmap TransferId.t TransferState;
  sent : list (SocketAddr.t * Frame.t);
  fs : disk;
  download_dir : bytes
}.

Definition new (download_dir : bytes) (d : disk) : t := mk ∅ [] d download_dir.

(** Field updates. *)
Definition set_transfer (id : TransferId.t) (s : TransferState) (m : t) : t :=
  mk (<[id := s]> (active_transfers m)) (sent m) (fs m) (download_dir m).
Definition drop_transfer (id : TransferId.t) (m : t) : t :=
  mk (delete id (active_transfers m)) (sent m) (fs m) (download_dir m).
Definition send (peer : SocketAddr.t) (f : Frame.t) (m : t) : t :=
  mk (active_transfers m) (sent m ++ [(peer, f)]) (fs m) (download_dir m).
Definition set_fs (d : disk) (m : t) : t :=
  mk (active_transfers m) (sent m) d (download_dir m).

Definition frame_of (ty : MessageType.t) (payload : bytes) : Frame.t :=
  Frame.new ty Flags.empty 0 payload.

(** [vec![0xff; bitmap_len(n)]] *)
Definition all_missing (n : Z) : bytes := replicate (Z.to_nat (bitmap_len n)) 255.

(** The credit message: transfer id and credits in little-endian order. *)
Definition credit_payload (id : TransferId.t) (credits : Z) : bytes :=
  TransferId.as_bytes id ++ le_bytes 4 credits.

Section Ops.
Context `{SH : !Sha256}.

(** [id_bytes] is the random transfer id; [io_ok] says whether mapping succeeds. *)
Definition offer_file (id_bytes : bytes) (io_ok : bool) (peer : SocketAddr.t) (file_path : bytes)
    (chunk_size : Z) (m : t) : t * outcome TransferId.t :=
  match fs m !! file_path with
  | None => (m, Returns (Err ManagerError.Io))
  | Some file =>
      let file_size := blen file in
      let file_hash := Merkle.calculate_file_hash file chunk_size in
      let total_chunks := compute_total_chunks file_size chunk_size in
      if negb io_ok then (m, Returns (Err ManagerError.Io))
      else
        let mmap := Mmap.mk file_path file_size in
        let transfer_id := TransferId.from_bytes id_bytes in
        let file_name := default [] (Path.file_name file_path) in
        match FileOffer.new transfer_id file_name file_size chunk_size file_hash with
        | Ok offer =>
            let state := SendingState.mk peer mmap (all_missing total_chunks) 0 chunk_size total_chunks 0 in
            let m := set_transfer transfer_id (Sending state) m in
            let m := send peer (frame_of MessageType.FileOffer (FileOffer.encode offer)) m in
            (m, Returns (Ok transfer_id))
        | _ => (m, Returns (Err ManagerError.InvalidState))
        end
  end.

Definition handle_offer (io : prepare) (peer : SocketAddr.t) (offer : FileOffer.t) (m : t)
    : t * outcome unit :=
  let path := Path.join (download_dir m) (FileOffer.file_name offer) in
  let opened := default [] (fs m !! path) in
  match io with
  | OpenFails => (m, Returns (Err ManagerError.Io))
  | SetLenFails => (set_fs (<[path := opened]> (fs m)) m, Returns (Err ManagerError.Io))
  | MapFails =>
      (set_fs (<[path := set_len (FileOffer.file_size offer) opened]> (fs m)) m, Returns (Err ManagerError.Io))
  | Prepared =>
    let m := set_fs (<[path := set_len (FileOffer.file_size offer) opened]> (fs m)) m in
    let mmap := Mmap.mk path (FileOffer.file_size offer) in
    let state :=
      ReceivingState.mk peer mmap (FileOffer.file_hash offer) (all_missing (FileOffer.total_chunks offer))
        (FileOffer.chunk_size offer) (FileOffer.total_chunks offer) 0 path in
    let id := FileOffer.transfer_id offer in
    let m := set_transfer id (Receiving state) m in
    let accept := FileAccept.new id (all_missing (FileOffer.total_chunks offer)) in
    let m := send peer (frame_of MessageType.FileAccept (FileAccept.encode accept)) m in
    let credits := 50 in
    let m := send peer (frame_of MessageType.CreditUpdate (credit_payload id credits)) m in
    (m, Returns (Ok tt))
  end.

Definition handle_accept (accept : FileAccept.t) (m : t) : t * outcome unit :=
  match active_transfers m !! FileAccept.transfer_id accept with
  | Some (Sending s) =>
      let s := SendingState.mk (SendingState.peer s) (SendingState.file_map s)
        (FileAccept.missing_bitmap accept) (SendingState.credits s) (SendingState.chunk_size s)
        (SendingState.total_chunks s) (SendingState.current_chunk_idx s) in
      (set_transfer (FileAccept.transfer_id accept) (Sending s) m, Returns (Ok tt))
  | _ => (m, Returns (Err ManagerError.NotFound))
  end.

(** The chunk the sender cuts at [current_chunk_idx]: the slice of the mapping is
    bounded by its length, reading it by what the file still has. *)
Definition cut_chunk (id : TransferId.t) (d : disk) (s : SendingState.t) : outcome FileChunk.t :=
  let map := SendingState.file_map s in
  let start := wrap 32 (SendingState.current_chunk_idx s * SendingState.chunk_size s) in
  let e := Z.min (start + SendingState.chunk_size s) (Mmap.len map) in
  match slice start e (Mmap.contents map d) with
  | Ok data_slice =>
      if Mmap.accessible map start e d then
        Returns (Ok (FileChunk.mk id (SendingState.current_chunk_idx s) (Merkle.hash_chunk data_slice) data_slice))
      else Killed
  | Err e => Returns (Err e)
  | Panic => Returns Panic
  end.

Definition advance (spent : Z) (s : SendingState.t) : SendingState.t :=
  SendingState.mk (SendingState.peer s) (SendingState.file_map s) (SendingState.bitfield s)
    (SendingState.credits s - spent) (SendingState.chunk_size s) (SendingState.total_chunks s)
    (SendingState.current_chunk_idx s + 1).

(** The [while] loop. It returns the state, the chunks sent and how it ended;
    [fuel] bounds the turns, each of which moves [current_chunk_idx] forward. *)
Fixpoint pump_loop (fuel : nat) (id : TransferId.t) (d : disk) (s : SendingState.t)
    : SendingState.t * list FileChunk.t * outcome unit :=
  match fuel with
  | O => (s, [], Returns (Ok tt))
  | S fuel =>
      if (0 <? SendingState.credits s)
         && (SendingState.current_chunk_idx s <? SendingState.total_chunks s)
      then
        if bitmap_is_missing (SendingState.bitfield s) (SendingState.current_chunk_idx s) then
          match cut_chunk id d s with
          | Returns (Ok chunk) =>
              let '(s', chunks, o) := pump_loop fuel id d (advance 1 s) in
              (s', chunk :: chunks, o)
          | Killed => (s, [], Killed)
          | _ => (s, [], Returns Panic)
          end
        else pump_loop fuel id d (advance 0 s)
      else (s, [], Returns (Ok tt))
  end.

(** [guarded] says that the caller holds the guard of this entry. *)
Definition pump_send (guarded : bool) (id : TransferId.t) (m : t) : t * outcome unit :=
  if guarded then (m, Blocks)
  else
    match active_transfers m !! id with
    | Some (Sending s) =>
        let fuel := S (Z.to_nat (SendingState.total_chunks s - SendingState.current_chunk_idx s)) in
        let '(s', chunks, o) := pump_loop fuel id (fs m) s in
        let m := fold_left (λ m c,
          send (SendingState.peer s) (frame_of MessageType.FileChunk (FileChunk.encode c)) m) chunks m in
        (set_transfer id (Sending s') m, o)
    | _ => (m, Returns (Ok tt))
    end.

Definition handle_credit_update (id : TransferId.t) (credits : Z) (m : t) : t * outcome unit :=
  let m :=
    match active_transfers m !! id with
    | Some (Sending s) =>
        set_transfer id (Sending (SendingState.mk (SendingState.peer s) (SendingState.file_map s)
          (SendingState.bitfield s) (wrap 32 (SendingState.credits s + credits))
          (SendingState.chunk_size s) (SendingState.total_chunks s)
          (SendingState.current_chunk_idx s))) m
    | _ => m
    end in
  pump_send false id m.

(** The guard taken at the start is still held when [pump_send] is called. *)
Definition handle_chunk_ack (ack : FileChunkAck.t) (m : t) : t * outcome unit :=
  let id := FileChunkAck.transfer_id ack in
  match active_transfers m !! id with
  | Some (Sending s) =>
      let s :=
        match FileChunkAck.status ack with
        | ChunkAckStatus.BadHash =>
            SendingState.mk (SendingState.peer s) (SendingState.file_map s)
              (bitmap_set_missing (SendingState.bitfield s) (FileChunkAck.chunk_index ack) true)
              (SendingState.credits s) (SendingState.chunk_size s) (SendingState.total_chunks s)
              (if FileChunkAck.chunk_index ack <? SendingState.current_chunk_idx s
               then FileChunkAck.chunk_index ack else SendingState.current_chunk_idx s)
        | _ => s
        end in
      pump_send true id (set_transfer id (Sending s) m)
  | _ => (m, Returns (Ok tt))
  end.

Definition ack_frame (chunk : FileChunk.t) (st : ChunkAckStatus.t) : Frame.t :=
  frame_of MessageType.FileChunkAck
    (FileChunkAck.encode (FileChunkAck.mk (FileChunk.transfer_id chunk) (FileChunk.chunk_index chunk) st)).

(** The receiving state after a chunk was written. *)
Definition mark_received (chunk_index : Z) (r : ReceivingState.t) : ReceivingState.t :=
  ReceivingState.mk (ReceivingState.peer r) (ReceivingState.file_map r) (ReceivingState.expected_root r)
    (bitmap_set_missing (ReceivingState.bitfield r) chunk_index false) (ReceivingState.chunk_size r)
    (ReceivingState.total_chunks r) (wrap 32 (ReceivingState.received_chunks r + 1))
    (ReceivingState.file_path r).

Definition handle_chunk (chunk : FileChunk.t) (m : t) : t * outcome unit :=
  let id := FileChunk.transfer_id chunk in
  match active_transfers m !! id with
  | None => (m, Returns (Err ManagerError.NotFound))
  | Some (Sending _) => (m, Returns (Ok tt))
  | Some (Receiving r) =>
      let peer := ReceivingState.peer r in
      if negb (bytes_eqb (Merkle.hash_chunk (FileChunk.data chunk)) (FileChunk.chunk_hash chunk)) then
        (send peer (ack_frame chunk ChunkAckStatus.BadHash) m, Returns (Err ManagerError.BadHash))
      else
        let start := wrap 32 (FileChunk.chunk_index chunk * ReceivingState.chunk_size r) in
        let e := start + blen (FileChunk.data chunk) in
        if e <=? Mmap.len (ReceivingState.file_map r) then
          if negb (Mmap.accessible (ReceivingState.file_map r) start e (fs m)) then (m, Killed) else
          let m := set_fs (Mmap.write (ReceivingState.file_map r) start (FileChunk.data chunk) (fs m)) m in
          let r := mark_received (FileChunk.chunk_index chunk) r in
          let m := set_transfer id (Receiving r) m in
          let m := send peer (ack_frame chunk ChunkAckStatus.StatusOk) m in
          let m := send peer (frame_of MessageType.CreditUpdate (credit_payload id 1)) m in
          let completed := ReceivingState.received_chunks r =? ReceivingState.total_chunks r in
          if completed then
            let m := drop_transfer id m in
            let complete := FileComplete.mk id (replicate 32 0) in
            (send peer (frame_of MessageType.FileComplete (FileComplete.encode complete)) m, Returns (Ok tt))
          else (m, Returns (Ok tt))
        else (m, Returns (Ok tt))
  end.
End Ops.

(** [snapshot_transfers]: id, label, total, done, sending *)
Definition sending_label : bytes := [115; 101; 110; 100; 105; 110; 103].

Definition snapshot_transfers (m : t) : list (TransferId.t * bytes * Z * Z * bool) :=
  map (λ '(id, st),
    match st with
    | Sending s =>
        (id, sending_label, SendingState.total_chunks s, SendingState.current_chunk_idx s, true)
    | Receiving r =>
        (id, default [] (Path.file_name (ReceivingState.file_path r)), ReceivingState.total_chunks r,
         ReceivingState.received_chunks r, false)
    end) (map_to_list (active_transfers m)).
End TransferManager.

(** ** The chunks of a file *)
Module TransferLaws.
Import TransferManager.

Section Laws.
Context `{SH : !Sha256}.

Definition block (cs : Z) (f : bytes) (i : Z) : bytes := take (Z.to_nat cs) (drop (Z.to_nat (i * cs)) f).

Definition file_chunk (id : TransferId.t) (cs : Z) (f : bytes) (i : Z) : FileChunk.t :=
  FileChunk.mk id i (sha256 (block cs f i)) (block cs f i).

(** Files the 32-bit offsets of the code can address. *)
Record addressable (cs : Z) (f : bytes) : Prop := {
  ad_cs : 0 < cs < 2 ^ 32;
  ad_len : blen f < 2 ^ 32
}.

Definition nchunks (cs : Z) (f : bytes) : Z := compute_total_chunks (blen f) cs.

Lemma nchunks_spec cs f :
  addressable cs f → blen f ≤ cs * nchunks cs f < blen f + cs ∧ 0 ≤ nchunks cs f < 2 ^ 32.
Proof.
  intros [Hcs Hlen]. pose proof (blen_nonneg f). unfold nchunks.
  destruct (total_chunks_exact (blen f) cs) as [H1 [H2 H3]]; [lia|lia|nia|]. lia.
Qed.

(** A chunk number of the file starts inside it, at an offset that does not wrap. *)
Lemma chunk_offset cs f i :
  addressable cs f → 0 ≤ i < nchunks cs f → 0 ≤ i * cs < blen f ∧ wrap 32 (i * cs) = i * cs.
Proof.
  intros Ha Hi. destruct (nchunks_spec cs f Ha) as [Hn _]. destruct Ha as [Hcs Hlen].
  assert (0 ≤ i * cs < blen f) by nia. split; [done|]. apply wrap_small. unfold is_uint. lia.
Qed.

Lemma blen_block cs f i : 0 ≤ cs → 0 ≤ i * cs ≤ blen f → blen (block cs f i) = Z.min cs (blen f - i * cs).
Proof. intros. unfold block, blen in *. rewrite length_take, length_drop. lia. Qed.

(** ** The sender *)
Lemma set_len_same n c : n = blen c → set_len n c = c.
Proof.
  intros ->. unfold set_len, blen. rewrite Nat2Z.id, take_ge, Nat.sub_diag by lia. apply app_nil_r.
Qed.

Lemma length_set_len n c : 0 ≤ n → blen (set_len n c) = n.
Proof.
  intros Hn. unfold set_len, blen. rewrite length_app, length_take, length_replicate. lia.
Qed.

Lemma cut_chunk_spec id cs f s d path :
  addressable cs f → SendingState.chunk_size s = cs →
  0 ≤ SendingState.current_chunk_idx s < nchunks cs f →
  SendingState.file_map s = Mmap.mk path (blen f) → d !! path = Some f →
  cut_chunk id d s = Returns (Ok (file_chunk id cs f (SendingState.current_chunk_idx s))).
Proof.
  intros Ha Hcs Hi Hm Hf. set (i := SendingState.current_chunk_idx s) in *.
  destruct (chunk_offset cs f i Ha Hi) as [Ho Hw]. destruct Ha as [Hc _].
  assert (Mmap.file (Mmap.mk path (blen f)) d = f) as Hmf by (unfold Mmap.file; simpl; by rewrite Hf).
  unfold cut_chunk, Mmap.contents. fold i. rewrite Hm, Hmf. cbn [Mmap.len]. rewrite set_len_same, Hcs, Hw, slice_in by (done || lia).
  rewrite Mmap.accessible_in by (rewrite Hmf; lia).
  unfold file_chunk, Merkle.hash_chunk. simpl.
  assert (take (Z.to_nat (Z.min (i * cs + cs) (blen f) - i * cs)) (drop (Z.to_nat (i * cs)) f) = block cs f i) as ->;
    [|done].
  unfold block. destruct (Z.le_ge_cases (i * cs + cs) (blen f)).
  - rewrite Z.min_l by lia. f_equal. lia.
  - rewrite Z.min_r by lia. rewrite !take_ge; [done|..]; unfold blen in *; rewrite length_drop; lia.
Qed.

Lemma all_missing_bit n i : 0 ≤ i < n → bitmap_is_missing (all_missing n) i = true.
Proof.
  intros Hi. unfold bitmap_is_missing, all_missing.
  pose proof (bitmap_len_bounds n ltac:(lia)). pose proof (Z.div_mod i 8 ltac:(lia)).
  pose proof (Z.mod_pos_bound i 8 ltac:(lia)). assert (0 ≤ i / 8) by (apply Z.div_pos; lia).
  rewrite lookup_replicate_2 by lia. rewrite bit_of_byte by lia.
  change 255 with (Z.ones 8). by apply Z.ones_spec_low.
Qed.

(** The state of a sender of [f] at chunk [i] with [k] credits, for a peer that lacks
    the chunks of the bitmap [bf]. *)
Definition sender_of (s : SendingState.t) (cs : Z) (f path bf : bytes) (i k : Z) : Prop :=
  SendingState.chunk_size s = cs ∧ SendingState.total_chunks s = nchunks cs f ∧
  SendingState.file_map s = Mmap.mk path (blen f) ∧ SendingState.bitfield s = bf ∧
  SendingState.current_chunk_idx s = i ∧ SendingState.credits s = k.

Definition chunk_range (i n : Z) : list Z := map (λ k, i + Z.of_nat k) (seq 0 (Z.to_nat n)).

Lemma chunk_range_S i n : 0 < n → chunk_range i n = i :: chunk_range (i + 1) (n - 1).
Proof.
  intros Hn. unfold chunk_range. replace (Z.to_nat n) with (S (Z.to_nat (n - 1))) by lia. simpl.
  f_equal; [lia|]. rewrite <- seq_shift, <- list_fmap_compose. apply list_fmap_ext.
  intros j x _. simpl. lia.
Qed.

Lemma chunk_range_0 i n : n ≤ 0 → chunk_range i n = [].
Proof. intros. unfold chunk_range. by replace (Z.to_nat n) with 0%nat by lia. Qed.

Lemma chunk_range_elem i n j : j ∈ chunk_range i n ↔ i ≤ j < i + n.
Proof.
  unfold chunk_range. rewrite list_elem_of_fmap. split.
  - intros (k & -> & Hk%elem_of_seq). lia.
  - intros Hj. exists (Z.to_nat (j - i)). rewrite elem_of_seq. lia.
Qed.

Lemma chunk_range_NoDup i n : NoDup (chunk_range i n).
Proof. apply NoDup_fmap_2; [intros x y; lia|apply NoDup_seq]. Qed.

Lemma length_chunk_range i n : 0 ≤ n → Z.of_nat (length (chunk_range i n)) = n.
Proof. intros. unfold chunk_range. rewrite length_map, length_seq. lia. Qed.

Lemma take_chunk_range i n k : take (Z.to_nat k) (chunk_range i n) = chunk_range i (Z.min k n).
Proof.
  unfold chunk_range. rewrite <- fmap_take. f_equal. rewrite take_seq. f_equal. lia.
Qed.

(** The chunks from [i] on that the peer lacks, of [n] in all. *)
Definition wanted (bf : bytes) (i n : Z) : list Z := List.filter (bitmap_is_missing bf) (chunk_range i (n - i)).

Lemma wanted_end bf i n : n ≤ i → wanted bf i n = [].
Proof. intros. unfold wanted. by rewrite chunk_range_0 by lia. Qed.

Lemma wanted_S bf i n :
  i < n → wanted bf i n = if bitmap_is_missing bf i then i :: wanted bf (i + 1) n else wanted bf (i + 1) n.
Proof.
  intros H. unfold wanted. rewrite (chunk_range_S i) by lia. simpl.
  by replace (n - i - 1) with (n - (i + 1)) by lia.
Qed.

Lemma wanted_all n i : 0 ≤ i → wanted (all_missing n) i n = chunk_range i (n - i).
Proof.
  intros Hi. unfold wanted. apply forallb_filter_id, forallb_forall. intros j Hj%list_elem_of_In%chunk_range_elem.
  apply all_missing_bit. lia.
Qed.

(** The loop sends what is wanted, in order, as far as the credits reach. *)
Lemma pump_loop_spec fuel id cs f path bf d s i k :
  addressable cs f → d !! path = Some f → sender_of s cs f path bf i k → 0 ≤ i ≤ nchunks cs f → 0 ≤ k →
  (Z.to_nat (nchunks cs f - i) < fuel)%nat →
  let w := wanted bf i (nchunks cs f) in
  ∃ s' i', pump_loop fuel id d s = (s', map (file_chunk id cs f) (take (Z.to_nat k) w), Returns (Ok tt)) ∧
    sender_of s' cs f path bf i' (k - Z.of_nat (length (take (Z.to_nat k) w))) ∧ i ≤ i' ≤ nchunks cs f ∧
    wanted bf i' (nchunks cs f) = drop (Z.to_nat k) w ∧ (SendingState.credits s' = 0 ∨ i' = nchunks cs f) ∧
    SendingState.peer s' = SendingState.peer s.
Proof.
  intros Ha Hd. revert s i k. induction fuel as [|fuel IH]; intros s i k Hs Hi Hk Hfuel w; [lia|].
  pose proof Hs as (Hcs & Htot & Hmap & Hbf & Hidx & Hcr). cbn [pump_loop]. rewrite Hcr, Hidx, Htot, Hbf.
  destruct (Z.ltb_spec 0 k) as [Hk0|Hk0]; cbn [andb].
  2: { assert (k = 0) as -> by lia. exists s, i. rewrite drop_0. split_and!; try done; try lia; by left. }
  destruct (Z.ltb_spec i (nchunks cs f)) as [Hlt|Hge].
  2: { unfold w. rewrite wanted_end, take_nil, drop_nil by lia. exists s, i. simpl. rewrite Z.sub_0_r. split_and!; try done; try lia; first [by rewrite wanted_end by lia|right; lia]. }
  unfold w. rewrite (wanted_S bf i) by done. destruct (bitmap_is_missing bf i).
  - rewrite (cut_chunk_spec id cs f s d path Ha Hcs) by (done || lia). rewrite Hidx.
    destruct (IH (advance 1 s) (i + 1) (k - 1)) as (s' & i' & Hrun & Hat & Hi' & Hw & He & Hp); [|lia..|].
    { unfold sender_of, advance. simpl. by rewrite Hidx, Hcr. }
    rewrite Hrun. exists s', i'. replace (Z.to_nat k) with (S (Z.to_nat (k - 1))) by lia. simpl.
    split; [done|]. split; [|split; [lia|done]].
    by replace (k - Z.of_nat (S (length (take (Z.to_nat (k - 1)) (wanted bf (i + 1) (nchunks cs f))))))
      with (k - 1 - Z.of_nat (length (take (Z.to_nat (k - 1)) (wanted bf (i + 1) (nchunks cs f))))) by lia.
  - destruct (IH (advance 0 s) (i + 1) k) as (s' & i' & Hrun & Hat & Hi' & Hw & He & Hp); [|lia..|].
    { unfold sender_of, advance. simpl. by rewrite Hidx, Hcr, Z.sub_0_r. }
    rewrite Hrun. exists s', i'. split; [done|]. split; [done|]. split; [lia|done].
Qed.

(** ** The receiver *)
(** Overwriting part of a list. *)
Lemma overwrite_lookup (c data : bytes) (start : nat) q :
  (start + length data ≤ length c)%nat →
  (take start c ++ data ++ drop (start + length data) c) !! q =
  if decide (start ≤ q < start + length data)%nat then data !! (q - start)%nat else c !! q.
Proof.
  intros Hlen. assert (length (take start c) = start) as Hst by (rewrite length_take; lia).
  destruct (decide (q < start)%nat).
  - rewrite lookup_app_l, lookup_take_lt by lia. by rewrite decide_False by lia.
  - rewrite lookup_app_r, Hst by lia. destruct (decide (q < start + length data)%nat).
    + rewrite lookup_app_l by lia. by rewrite decide_True by lia.
    + rewrite lookup_app_r, lookup_drop by lia. rewrite decide_False by lia. f_equal. lia.
Qed.

Lemma overwrite_length (c data : bytes) (start : nat) :
  (start + length data ≤ length c)%nat →
  length (take start c ++ data ++ drop (start + length data) c) = length c.
Proof. intros. rewrite !length_app, length_take, length_drop. lia. Qed.

(** The content [c] agrees with the file on the chunks in [R]. *)
Definition agrees (cs : Z) (f c : bytes) (R : list Z) : Prop :=
  length c = length f ∧
  ∀ q : nat, (q < length f)%nat → Z.of_nat q / cs ∈ R → c !! q = f !! q.

Lemma agrees_write cs f c R i :
  addressable cs f → 0 ≤ i < nchunks cs f → agrees cs f c R →
  agrees cs f (take (Z.to_nat (i * cs)) c ++ block cs f i ++
               drop (Z.to_nat (i * cs) + length (block cs f i)) c) (i :: R).
Proof.
  intros Ha Hi [Hl Hag]. destruct (chunk_offset cs f i Ha Hi) as [Ho _]. destruct Ha as [Hcs _].
  pose proof (blen_block cs f i ltac:(lia) ltac:(lia)) as Hb. unfold blen in Hb, Ho.
  assert (Z.to_nat (i * cs) + length (block cs f i) ≤ length c)%nat by lia.
  split; [by rewrite overwrite_length|]. intros q Hq Hin. rewrite overwrite_lookup by done.
  pose proof (Z.div_mod (Z.of_nat q) cs ltac:(lia)). pose proof (Z.mod_pos_bound (Z.of_nat q) cs ltac:(lia)).
  case_decide as Hr.
  - unfold block. rewrite lookup_take_lt, lookup_drop by lia. f_equal. lia.
  - apply Hag; [done|]. apply elem_of_cons in Hin as [E|]; [|done]. exfalso. apply Hr.
    rewrite E in *. lia.
Qed.

Lemma agrees_all cs f c R :
  addressable cs f → (∀ i, 0 ≤ i < nchunks cs f → i ∈ R) → agrees cs f c R → c = f.
Proof.
  intros Ha HR [Hl Hag]. destruct (nchunks_spec cs f Ha) as [Hn _]. destruct Ha as [Hcs _].
  apply list_eq. intros q. destruct (decide (q < length f)%nat) as [Hq|Hq].
  - apply Hag; [done|]. apply HR. split; [apply Z.div_pos; lia|].
    apply Z.div_lt_upper_bound; unfold blen in *; lia.
  - rewrite !lookup_ge_None_2 by lia. done.
Qed.

Record receiving (m : t) (id : TransferId.t) (peer : SocketAddr.t) (cs : Z) (f path : bytes) (R : list Z) : Prop := {
  rc_state : ∃ r, active_transfers m !! id = Some (Receiving r) ∧ ReceivingState.peer r = peer ∧
    ReceivingState.chunk_size r = cs ∧ ReceivingState.total_chunks r = nchunks cs f ∧
    ReceivingState.received_chunks r = Z.of_nat (length R) ∧
    ReceivingState.file_map r = Mmap.mk path (blen f);
  rc_file : ∃ c, fs m !! path = Some c ∧ agrees cs f c R
}.

(** What a genuine chunk is answered with: an acknowledgement and a credit, and
    after the last one that the file is complete. *)
Definition replies (id : TransferId.t) (i : Z) (last : bool) : list (MessageType.t * bytes) :=
  [(MessageType.FileChunkAck, FileChunkAck.encode (FileChunkAck.mk id i ChunkAckStatus.StatusOk));
   (MessageType.CreditUpdate, credit_payload id 1)] ++
  if last then [(MessageType.FileComplete, FileComplete.encode (FileComplete.mk id (replicate 32 0)))] else [].

(** Payloads as the frames handed to [frame_tx]. *)
Definition outgoing (peer : SocketAddr.t) (p : MessageType.t * bytes) : SocketAddr.t * Frame.t :=
  (peer, frame_of p.1 p.2).

(** One genuine chunk that was not received before. *)
Lemma handle_chunk_step m id peer cs f path R i :
  addressable cs f → receiving m id peer cs f path R → 0 ≤ i < nchunks cs f →
  Z.of_nat (length R) < nchunks cs f →
  let '(m', o) := handle_chunk (file_chunk id cs f i) m in
  o = Returns (Ok tt) ∧
  sent m' = sent m ++ map (outgoing peer) (replies id i (bool_decide (Z.of_nat (length R) + 1 = nchunks cs f))) ∧
  (∀ c, fs m !! path = Some c →
     let c' := take (Z.to_nat (i * cs)) c ++ block cs f i ++
               drop (Z.to_nat (i * cs) + length (block cs f i)) c in
     fs m' !! path = Some c' ∧ agrees cs f c' (i :: R)) ∧
  if decide (Z.of_nat (length R) + 1 = nchunks cs f)
  then active_transfers m' !! id = None
  else receiving m' id peer cs f path (i :: R).
Proof.
  intros Ha [(r & Hr & Hpeer & Hcs & Htot & Hrec & Hmap) (c & Hc & Hag)] Hi HR.
  destruct (chunk_offset cs f i Ha Hi) as [Ho Hw]. destruct (nchunks_spec cs f Ha) as [_ Hnr].
  pose proof (agrees_write cs f c R i Ha Hi Hag) as Hag'.
  pose proof (blen_block cs f i ltac:(destruct Ha; lia) ltac:(lia)) as Hb.
  unfold handle_chunk. cbn [FileChunk.transfer_id file_chunk FileChunk.data FileChunk.chunk_hash FileChunk.chunk_index].
  rewrite Hr. unfold Merkle.hash_chunk, bytes_eqb. rewrite bool_decide_eq_true_2 by done. cbn [negb].
  rewrite Hcs, Hw, Hmap. cbn [Mmap.len]. destruct (Z.leb_spec (i * cs + blen (block cs f i)) (blen f)); [|lia].
  assert (Mmap.file (Mmap.mk path (blen f)) (fs m) = c) as Hmf by (unfold Mmap.file; simpl; by rewrite Hc).
  assert (blen c = blen f) as Hcl by (destruct Hag as [Hl _]; unfold blen; lia).
  rewrite Mmap.accessible_in by (rewrite Hmf; lia). cbn [negb]. unfold mark_received. cbn [ReceivingState.received_chunks ReceivingState.total_chunks].
  rewrite Hrec, Htot, wrap_small by (unfold is_uint; lia).
  unfold Mmap.write. cbn [Mmap.path]. rewrite Hmf, set_len_same by lia.
  rewrite (take_ge _ (length c)) by (rewrite overwrite_length; unfold blen in *; lia).
  rewrite Hpeer, Hc. case_decide as E.
  - rewrite bool_decide_eq_true_2 by done. destruct (Z.eqb_spec (Z.of_nat (length R) + 1) (nchunks cs f)); [|done].
    split_and!; [done|simpl; by rewrite <- !app_assoc| |].
    + intros c1 [= <-]. split; [apply lookup_insert_eq|done].
    + apply lookup_delete_eq.
  - rewrite bool_decide_eq_false_2 by done. destruct (Z.eqb_spec (Z.of_nat (length R) + 1) (nchunks cs f)); [done|].
    assert (∃ c', <[path := take (Z.to_nat (i * cs)) c ++ block cs f i ++
        drop (Z.to_nat (i * cs) + length (block cs f i)) c]> (fs m) !! path = Some c' ∧
        agrees cs f c' (i :: R)) as Hfile by (eexists; split; [apply lookup_insert_eq|done]).
    split_and!; [done|simpl; by rewrite <- !app_assoc| |split; [|done]].
    { intros c1 [= <-]. split; [apply lookup_insert_eq|done]. }
    eexists. split; [apply lookup_insert_eq|]. cbn. rewrite Hmap. split_and!; [done|done|done|lia|done].
Qed.

(** [handle_chunk] for every chunk of a list. *)
Definition handle_chunks (cs : list FileChunk.t) (m : t) : t := fold_left (λ m c, (handle_chunk c m).1) cs m.

(** The answers to the chunks of [arr], [n] of which are missing. *)
Fixpoint all_replies (id : TransferId.t) (n : Z) (arr : list Z) : list (MessageType.t * bytes) :=
  match arr with
  | [] => []
  | i :: arr => replies id i (bool_decide (n = 1)) ++ all_replies id (n - 1) arr
  end.

Lemma receive_rest arr m id peer cs f path R :
  addressable cs f → receiving m id peer cs f path R → NoDup (arr ++ R) →
  (∀ i, i ∈ arr ++ R → 0 ≤ i < nchunks cs f) → arr ≠ [] →
  Z.of_nat (length arr + length R) = nchunks cs f →
  let m' := handle_chunks (map (file_chunk id cs f) arr) m in
  active_transfers m' !! id = None ∧ (∃ c, fs m' !! path = Some c ∧ agrees cs f c (rev arr ++ R)) ∧
  sent m' = sent m ++ map (outgoing peer) (all_replies id (blen arr) arr).
Proof.
  intros Ha. revert m R. induction arr as [|i arr IH]; intros m R Hm Hnd Hin Hne Hlen; [done|].
  simpl in Hlen. pose proof (handle_chunk_step m id peer cs f path R i Ha Hm (Hin i ltac:(set_solver)) ltac:(lia)) as Hs.
  cbv zeta. unfold handle_chunks. cbn [map fold_left all_replies rev]. destruct (handle_chunk _ m) as [m1 o]. cbn [fst]. destruct Hs as (_ & Hsent & Hfile & Hs).
  rewrite <- app_assoc. cbn [app].
  assert (bool_decide (blen (i :: arr) = 1) = bool_decide (Z.of_nat (length R) + 1 = nchunks cs f)) as ->
    by (apply bool_decide_ext; unfold blen; simpl; lia).
  replace (blen (i :: arr) - 1) with (blen arr) by (unfold blen; simpl; lia). case_decide as E.
  - destruct arr; [|simpl in Hlen; lia]. destruct (rc_file _ _ _ _ _ _ _ Hm) as (c & Hc & _).
    split_and!; [done|eexists; by apply Hfile|]. cbn [all_replies map fold_left]. by rewrite app_nil_r, Hsent.
  - rewrite map_app, app_assoc, <- Hsent. apply (IH m1 (i :: R)); [done| | | |simpl; lia].
    + rewrite <- Permutation_middle. done.
    + intros j Hj. apply Hin. set_solver.
    + intros ->. simpl in Hlen. lia.
Qed.

(** Some chunks of a file, not all. *)
Lemma receive_some arr m id peer cs f path R :
  addressable cs f → receiving m id peer cs f path R → (∀ i, i ∈ arr → 0 ≤ i < nchunks cs f) →
  Z.of_nat (length arr + length R) < nchunks cs f →
  let m' := handle_chunks (map (file_chunk id cs f) arr) m in
  receiving m' id peer cs f path (rev arr ++ R) ∧
  sent m' = sent m ++ map (outgoing peer) (all_replies id (nchunks cs f - Z.of_nat (length R)) arr).
Proof.
  intros Ha. revert m R. induction arr as [|i arr IH]; intros m R Hm Hin Hlen; [by rewrite app_nil_r|].
  simpl in Hlen. pose proof (handle_chunk_step m id peer cs f path R i Ha Hm (Hin i ltac:(set_solver)) ltac:(lia)) as Hs.
  cbv zeta. unfold handle_chunks. cbn [map fold_left all_replies rev]. destruct (handle_chunk _ m) as [m1 o]. cbn [fst].
  destruct Hs as (_ & Hsent & _ & Hs). rewrite decide_False in Hs by lia. rewrite <- app_assoc. cbn [app].
  assert (bool_decide (nchunks cs f - Z.of_nat (length R) = 1) = bool_decide (Z.of_nat (length R) + 1 = nchunks cs f)) as ->
    by (apply bool_decide_ext; lia).
  destruct (IH m1 (i :: R) Hs) as [H1 H2]; [set_solver|simpl; lia|]. split; [exact H1|].
  rewrite map_app, app_assoc, <- Hsent. unfold handle_chunks in H2. rewrite H2. do 3 f_equal. simpl. lia.
Qed.

(** Every call for the chunks of a list returns. *)
Fixpoint all_return (cs : list FileChunk.t) (m : t) : Prop :=
  match cs with
  | [] => True
  | c :: cs => (handle_chunk c m).2 = Returns (Ok tt) ∧ all_return cs (handle_chunk c m).1
  end.

Lemma receive_returns arr m id peer cs f path R :
  addressable cs f → receiving m id peer cs f path R → (∀ i, i ∈ arr → 0 ≤ i < nchunks cs f) →
  Z.of_nat (length arr + length R) ≤ nchunks cs f → all_return (map (file_chunk id cs f) arr) m.
Proof.
  intros Ha. revert m R. induction arr as [|i arr IH]; intros m R Hm Hin Hlen; [done|]. simpl in Hlen.
  pose proof (handle_chunk_step m id peer cs f path R i Ha Hm (Hin i ltac:(set_solver)) ltac:(lia)) as Hs.
  cbn [map all_return]. destruct (handle_chunk _ m) as [m1 o]. cbn [fst snd]. destruct Hs as (-> & _ & _ & Hs).
  split; [done|]. case_decide.
  - destruct arr; [done|]. simpl in Hlen. lia.
  - apply (IH m1 (i :: R)); [done|set_solver|simpl; lia].
Qed.

(** All chunks of a file, in any order. *)
Lemma receive_all arr m id peer cs f path :
  addressable cs f → f ≠ [] → receiving m id peer cs f path [] → arr ≡ₚ chunk_range 0 (nchunks cs f) →
  let m' := handle_chunks (map (file_chunk id cs f) arr) m in
  active_transfers m' !! id = None ∧ fs m' !! path = Some f ∧
  sent m' = sent m ++ map (outgoing peer) (all_replies id (nchunks cs f) arr).
Proof.
  intros Ha Hf Hm Harr m'. destruct (nchunks_spec cs f Ha) as [Hn Hnr].
  assert (0 < nchunks cs f).
  { assert (0 < blen f) by (unfold blen; destruct f; [done|simpl; lia]). destruct Ha. nia. }
  assert (Z.of_nat (length arr) = nchunks cs f) as Hl by (rewrite Harr; apply length_chunk_range; lia).
  destruct (receive_rest arr m id peer cs f path [] Ha Hm) as (H1 & (c & Hc & Hag) & Hsent).
  - rewrite app_nil_r, Harr. apply chunk_range_NoDup.
  - intros i. rewrite app_nil_r, Harr, chunk_range_elem. lia.
  - intros ->. simpl in Hl. lia.
  - simpl. lia.
  - split_and!; [done| |by rewrite <- Hl]. unfold m'. rewrite Hc. f_equal. apply (agrees_all cs f c (rev arr ++ [])); [done| |done].
    intros i Hi. rewrite app_nil_r. apply list_elem_of_In, in_rev. rewrite rev_involutive.
    apply list_elem_of_In. rewrite Harr, chunk_range_elem. lia.
Qed.

(** The empty file has no chunks: its transfer is complete on disk and stays open. *)
Lemma receive_ends arr m id peer cs f path :
  addressable cs f → receiving m id peer cs f path [] → arr ≡ₚ chunk_range 0 (nchunks cs f) →
  let m' := handle_chunks (map (file_chunk id cs f) arr) m in
  fs m' !! path = Some f ∧ (active_transfers m' !! id = None ↔ f ≠ []).
Proof.
  intros Ha Hm Harr. destruct (decide (f = [])) as [->|Hf].
  - rewrite chunk_range_0 in Harr by (unfold nchunks, compute_total_chunks; by repeat case_match).
    apply Permutation_nil_r in Harr as ->. destruct Hm as [(r & Hr & _) (c & Hc & Hl & _)]. simpl in *.
    apply nil_length_inv in Hl as ->. rewrite Hr. by split.
  - destruct (receive_all arr m id peer cs f path Ha Hf Hm Harr) as (H1 & H2 & _). by split.
Qed.

(** ** The whole exchange *)
Lemma fold_send peer frames m :
  fold_left (λ m c, send peer c m) frames m =
  mk (active_transfers m) (sent m ++ map (pair peer) frames) (fs m) (download_dir m).
Proof.
  revert m. induction frames as [|c frames IH]; intros m; simpl.
  - rewrite app_nil_r. by destruct m.
  - rewrite IH. simpl. by rewrite <- app_assoc.
Qed.

Lemma fold_left_map_send peer (chunks : list FileChunk.t) m :
  fold_left (λ m c, send peer c m) (map (λ c, frame_of MessageType.FileChunk (FileChunk.encode c)) chunks) m =
  fold_left (λ m c, send peer (frame_of MessageType.FileChunk (FileChunk.encode c)) m) chunks m.
Proof. revert m. induction chunks as [|c chunks IH]; intros m; simpl; [done|]. apply IH. Qed.

Definition chunk_frame (id : TransferId.t) (cs : Z) (f : bytes) (i : Z) : Frame.t :=
  frame_of MessageType.FileChunk (FileChunk.encode (file_chunk id cs f i)).

(** A grant of [k] credits to a sender at chunk [i] sends the next wanted chunks. *)
Lemma credit_update_sends m id cs f path bf s i k0 k :
  addressable cs f → active_transfers m !! id = Some (Sending s) → sender_of s cs f path bf i k0 →
  fs m !! path = Some f → 0 ≤ i ≤ nchunks cs f →
  let c := wrap 32 (k0 + k) in
  let w := wanted bf i (nchunks cs f) in
  let n := Z.of_nat (length (take (Z.to_nat c) w)) in
  ∃ s' i', handle_credit_update id k m =
      (mk (<[id := Sending s']> (active_transfers m))
          (sent m ++ map (λ j, (SendingState.peer s, chunk_frame id cs f j)) (take (Z.to_nat c) w))
          (fs m) (download_dir m), Returns (Ok tt)) ∧
    sender_of s' cs f path bf i' (c - n) ∧ i ≤ i' ≤ nchunks cs f ∧ wanted bf i' (nchunks cs f) = drop (Z.to_nat c) w ∧
    (c = n ∨ i' = nchunks cs f).
Proof.
  intros Ha Hs (Hcs & Htot & Hmap & Hbf & Hidx & Hcr) Hf Hi c w n.
  unfold handle_credit_update. rewrite Hs. unfold pump_send.
  cbn [active_transfers set_transfer]. rewrite lookup_insert_eq.
  cbn [SendingState.total_chunks SendingState.current_chunk_idx SendingState.peer fs set_transfer].
  rewrite Htot, Hidx. set (s1 := SendingState.mk _ _ _ _ _ _ _).
  assert (sender_of s1 cs f path bf i c) as Hs1 by (unfold sender_of, c; simpl; by rewrite Hcr).
  pose proof (wrap_range 32 (k0 + k) ltac:(lia)) as [Hc _].
  destruct (pump_loop_spec (S (Z.to_nat (nchunks cs f - i))) id cs f path bf (fs m) s1 i c Ha Hf Hs1)
    as (s' & i' & Hrun & Hat & Hi' & Hw & He & _); [lia..|].
  rewrite Hrun. exists s', i'. split; [|split; [done|split; [done|split; [done|]]]].
  - rewrite <- (fold_left_map_send (SendingState.peer s)), fold_send. simpl.
    unfold set_transfer. simpl. by rewrite insert_insert_eq, <- !list_fmap_compose.
  - destruct He as [He|He]; [left|by right]. destruct Hat as (_ & _ & _ & _ & _ & Hk). unfold n, w. lia.
Qed.

Lemma file_chunk_wf `{SOK : !Sha256Ok} id cs f i :
  TransferId.wf id → addressable cs f → bytes_wf f → 0 ≤ i < nchunks cs f →
  FileChunk.wf (file_chunk id cs f i).
Proof.
  intros Hid Ha Hf Hi. destruct (nchunks_spec cs f Ha) as [_ Hn]. split; simpl.
  - done.
  - unfold is_uint. lia.
  - unfold blen. rewrite sha256_length. split; [done|apply sha256_bytes].
  - unfold block. by apply Forall_take, Forall_drop.
Qed.

(** What a sender files and announces for a file. *)
Definition offer_for (id : TransferId.t) (name : bytes) (cs : Z) (f : bytes) : FileOffer.t :=
  FileOffer.mk id name (blen f) cs (nchunks cs f) (Merkle.calculate_file_hash f cs).
Definition fresh_sender (peer : SocketAddr.t) (path : bytes) (cs : Z) (f : bytes) : SendingState.t :=
  SendingState.mk peer (Mmap.mk path (blen f)) (all_missing (nchunks cs f)) 0 cs (nchunks cs f) 0.

Lemma sent_offer_wf `{SOK : !Sha256Ok} id name cs f :
  TransferId.wf id → bytes_wf name → utf8_valid name = true → blen name ≤ 255 → addressable cs f →
  FileOffer.wf (offer_for id name cs f).
Proof.
  intros Hid Hn Hu Hl Ha. destruct (nchunks_spec cs f Ha) as [_ Hr]. destruct Ha as [Hcs Hlen].
  pose proof (blen_nonneg f). split; simpl; [done|done| | | |].
  - unfold is_uint. lia.
  - unfold is_uint. lia.
  - unfold is_uint. lia.
  - unfold Merkle.calculate_file_hash, blen. rewrite sha256_length. split; [done|apply sha256_bytes].
Qed.

Lemma handle_offer_receiving m peer offer id cs f :
  offer = FileOffer.mk id (FileOffer.file_name offer) (blen f) cs (nchunks cs f) (FileOffer.file_hash offer) →
  let path := Path.join (download_dir m) (FileOffer.file_name offer) in
  let '(m', o) := handle_offer Prepared peer offer m in
  o = Returns (Ok tt) ∧ receiving m' id peer cs f path [] ∧
  sent m' = sent m ++
    [(peer, frame_of MessageType.FileAccept (FileAccept.encode (FileAccept.new id (all_missing (nchunks cs f)))));
     (peer, frame_of MessageType.CreditUpdate (credit_payload id 50))].
Proof.
  intros Ho path. rewrite Ho. unfold handle_offer. cbn [FileOffer.transfer_id FileOffer.file_name
    FileOffer.file_size FileOffer.chunk_size FileOffer.total_chunks FileOffer.file_hash].
  fold path. split; [done|]. split; [|simpl; by rewrite <- app_assoc].
  split.
  - eexists. split; [apply lookup_insert_eq|]. done.
  - eexists. split; [apply lookup_insert_eq|]. split.
    + pose proof (length_set_len (blen f) (default [] (fs m !! path)) (blen_nonneg f)). unfold blen in *. lia.
    + intros q _ Hq. by apply elem_of_nil in Hq.
Qed.

Lemma offer_file_ok m peer id path name cs f :
  fs m !! path = Some f → Path.file_name path = Some name → blen name ≤ 255 → addressable cs f →
  offer_file id true peer path cs m =
    (send peer (frame_of MessageType.FileOffer (FileOffer.encode (offer_for id name cs f)))
       (set_transfer id (Sending (fresh_sender peer path cs f)) m), Returns (Ok id)).
Proof.
  intros Hf Hname Hnl [Hcs _]. unfold offer_file. rewrite Hf. cbn [negb]. rewrite Hname. unfold TransferId.from_bytes.
  change (default [] (Some name)) with name. unfold FileOffer.new. destruct (Z.eqb_spec cs 0); [lia|].
  unfold MAX_FILE_NAME_LEN. by destruct (Z.ltb_spec 255 (blen name)); [lia|].
Qed.

(** The receiver accepts with every chunk missing, which is what the sender has. *)
Lemma handle_accept_fresh m id peer path cs f :
  active_transfers m !! id = Some (Sending (fresh_sender peer path cs f)) →
  handle_accept (FileAccept.new id (all_missing (nchunks cs f))) m =
    (set_transfer id (Sending (fresh_sender peer path cs f)) m, Returns (Ok tt)).
Proof. intros H. unfold handle_accept. simpl. by rewrite H. Qed.

(** The first grant sends the first chunks of a file, up to 50. *)
Lemma first_grant m id peer path cs f :
  active_transfers m !! id = Some (Sending (fresh_sender peer path cs f)) → fs m !! path = Some f →
  addressable cs f →
  ∃ s', handle_credit_update id 50 m =
    (mk (<[id := Sending s']> (active_transfers m))
        (sent m ++ map (λ i, (peer, chunk_frame id cs f i)) (chunk_range 0 (Z.min 50 (nchunks cs f))))
        (fs m) (download_dir m), Returns (Ok tt)).
Proof.
  intros Hs Hf Ha. destruct (nchunks_spec cs f Ha) as [_ Hn].
  destruct (credit_update_sends m id cs f path (all_missing (nchunks cs f)) _ 0 0 50 Ha Hs) as (s' & i' & Hcr & _); [done..|lia|].
  exists s'. rewrite wanted_all, Z.sub_0_r in Hcr by lia. by rewrite <- (take_chunk_range 0 (nchunks cs f) 50).
Qed.

(** C4: a file of up to 50 chunks and below 4 GiB, offered by one node and
    accepted by another, arrives unchanged: the offer and every chunk survive
    their encoding, the first grant of credits makes the sender send each chunk
    once, and in whatever order the chunks arrive the receiver ends with the
    file's content under its name in the download directory. The transfer is then
    closed, except for the empty file, which has no chunk whose arrival could close
    it: there the transfer stays open. *)
Theorem file_transfer_delivers `{SOK : !Sha256Ok} (ms mr : t) (pa pb : SocketAddr.t) (id path name f : bytes) (cs : Z) :
  TransferId.wf id → fs ms !! path = Some f → Path.file_name path = Some name →
  bytes_wf name → utf8_valid name = true → blen name ≤ 255 →
  addressable cs f → bytes_wf f → nchunks cs f ≤ 50 →
  ∃ offer ms1 ms2 ms3 mr1,
    offer_file id true pb path cs ms = (ms1, Returns (Ok id)) ∧
    sent ms1 = sent ms ++ [(pb, frame_of MessageType.FileOffer (FileOffer.encode offer))] ∧
    FileOffer.decode (FileOffer.encode offer) = Ok offer ∧
    handle_offer Prepared pa offer mr = (mr1, Returns (Ok tt)) ∧
    handle_accept (FileAccept.new id (all_missing (nchunks cs f))) ms1 = (ms2, Returns (Ok tt)) ∧
    handle_credit_update id 50 ms2 = (ms3, Returns (Ok tt)) ∧
    sent ms3 = sent ms1 ++ map (λ i, (pb, chunk_frame id cs f i)) (chunk_range 0 (nchunks cs f)) ∧
    (∀ i, 0 ≤ i < nchunks cs f →
       FileChunk.decode (FileChunk.encode (file_chunk id cs f i)) = Ok (file_chunk id cs f i)) ∧
    (∀ arr, arr ≡ₚ chunk_range 0 (nchunks cs f) →
       let m' := handle_chunks (map (file_chunk id cs f) arr) mr1 in
       fs m' !! Path.join (download_dir mr) name = Some f ∧ (active_transfers m' !! id = None ↔ f ≠ [])).
Proof.
  intros Hid Hf Hname Hnw Hnu Hnl Ha Hfw H50. destruct (nchunks_spec cs f Ha) as [_ Hnr].
  set (offer := offer_for id name cs f).
  pose proof (handle_offer_receiving mr pa offer id cs f eq_refl) as Ho. cbv zeta in Ho.
  destruct (handle_offer Prepared pa offer mr) as [mr1 o] eqn:Emr. destruct Ho as (-> & Hrecv & _).
  set (ms1 := send pb (frame_of MessageType.FileOffer (FileOffer.encode offer))
    (set_transfer id (Sending (fresh_sender pb path cs f)) ms)).
  assert (active_transfers ms1 !! id = Some (Sending (fresh_sender pb path cs f))) as Hs1 by apply lookup_insert_eq.
  destruct (first_grant (set_transfer id (Sending (fresh_sender pb path cs f)) ms1) id pb path cs f
    (lookup_insert_eq _ _ _) Hf Ha) as (s' & Hcr). rewrite Z.min_r in Hcr by done.
  exists offer, ms1. eexists _, _, mr1.
  split_and!; [by apply offer_file_ok|done| |exact Emr|by apply handle_accept_fresh|exact Hcr|done| |].
  - refine (@wire_roundtrip _ _ FileOffer_wire FileOffer_wire_ok offer _). by apply sent_offer_wf.
  - intros i Hi. refine (@wire_roundtrip _ _ FileChunk_wire FileChunk_wire_ok (file_chunk id cs f i) _).
    by apply file_chunk_wf.
  - intros arr Harr. by apply (receive_ends arr mr1 id pa cs f (Path.join (download_dir mr) name)).
Qed.

(** ** Pacing *)

(** C37: a sender never sends more chunks than it has credits. For a file below
    4 GiB that is on disk as it was offered, whatever chunks the peer reports missing and wherever the sender is, a
    grant sends the missing chunks from there on, in order, as many as the credits
    allow (which add up modulo 2^32), and no other chunk; every chunk sent costs one
    credit, what is left to send is what it did not reach, and it stops only when
    the credits are spent or the last chunk is passed. The loop terminates and its
    slices stay within the mapped file. *)
Theorem pump_paced (m : t) (id path f bf : bytes) (cs i k0 k : Z) (s : SendingState.t) :
  addressable cs f → active_transfers m !! id = Some (Sending s) → sender_of s cs f path bf i k0 →
  fs m !! path = Some f → 0 ≤ i ≤ nchunks cs f →
  let credits := wrap 32 (k0 + k) in
  let missing := wanted bf i (nchunks cs f) in
  let now := take (Z.to_nat credits) missing in
  let '(m', o) := handle_credit_update id k m in
  o = Returns (Ok tt) ∧
  sent m' = sent m ++ map (λ j, (SendingState.peer s, chunk_frame id cs f j)) now ∧
  ∃ s' i', active_transfers m' !! id = Some (Sending s') ∧
    sender_of s' cs f path bf i' (credits - Z.of_nat (length now)) ∧
    wanted bf i' (nchunks cs f) = drop (Z.to_nat credits) missing ∧
    (credits = Z.of_nat (length now) ∨ i' = nchunks cs f).
Proof.
  intros Ha Hs Hat Hf Hi credits missing now.
  destruct (credit_update_sends m id cs f path bf s i k0 k) as (s' & i' & -> & Hat' & _ & Hw & He); try done.
  split_and!; [done|done|]. exists s', i'. split; [apply lookup_insert_eq|done].
Qed.

(** ** What goes wrong *)

(** An acknowledgement for a transfer this node is sending never returns:
    [handle_chunk_ack] holds the entry's guard while it calls [pump_send], which
    asks for the same entry. *)
Lemma ack_blocks (m : t) (ack : FileChunkAck.t) (s : SendingState.t) :
  active_transfers m !! FileChunkAck.transfer_id ack = Some (Sending s) →
  (handle_chunk_ack ack m).2 = Blocks.
Proof. intros Hs. unfold handle_chunk_ack. by rewrite Hs. Qed.

(** The hash of the offer is never compared with what was received: the
    outcome of a chunk, the disk and the messages sent do not depend on it. *)
Lemma root_never_checked (m : t) (id : TransferId.t) (root : bytes) (r : ReceivingState.t) (chunk : FileChunk.t) :
  active_transfers m !! id = Some (Receiving r) → FileChunk.transfer_id chunk = id →
  let r' := ReceivingState.mk (ReceivingState.peer r) (ReceivingState.file_map r) root
    (ReceivingState.bitfield r) (ReceivingState.chunk_size r) (ReceivingState.total_chunks r)
    (ReceivingState.received_chunks r) (ReceivingState.file_path r) in
  let m2 := set_transfer id (Receiving r') m in
  (handle_chunk chunk m2).2 = (handle_chunk chunk m).2 ∧
  fs (handle_chunk chunk m2).1 = fs (handle_chunk chunk m).1 ∧
  sent (handle_chunk chunk m2).1 = sent (handle_chunk chunk m).1.
Proof.
  intros Hr Hid r' m2.
  assert (active_transfers m2 !! id = Some (Receiving r')) as Hr' by apply lookup_insert_eq.
  unfold handle_chunk. rewrite Hid, Hr, Hr'. unfold r'. cbn. repeat case_match; done.
Qed.

(** A chunk that arrives twice is counted twice: in a transfer of two chunks
    the first one, delivered two times, completes the transfer, and the second
    half of the file was never written. *)
Lemma duplicate_completes (m : t) (id path f : bytes) (peer : SocketAddr.t) (cs : Z) :
  addressable cs f → nchunks cs f = 2 → receiving m id peer cs f path [] →
  let m' := handle_chunks [file_chunk id cs f 0; file_chunk id cs f 0] m in
  active_transfers m' !! id = None ∧
  ∃ c c0, fs m !! path = Some c0 ∧ fs m' !! path = Some c ∧
    ∀ q : nat, (Z.to_nat cs ≤ q)%nat → c !! q = c0 !! q.
Proof.
  intros Ha Hn Hm m'. assert (0 ≤ 0 < nchunks cs f) as H0 by lia.
  destruct (chunk_offset cs f 0 Ha H0) as [Ho _].
  destruct (rc_file _ _ _ _ _ _ _ Hm) as (c0 & Hc0 & Hag0).
  pose proof (handle_chunk_step m id peer cs f path [] 0 Ha Hm H0 ltac:(simpl; lia)) as Hs1.
  unfold m', handle_chunks. cbn [fold_left]. destruct (handle_chunk (file_chunk id cs f 0) m) as [m1 o1] eqn:E1.
  cbn [fst]. destruct Hs1 as (_ & _ & Hf1 & Hs1). rewrite decide_False in Hs1 by (simpl; lia).
  destruct (Hf1 c0 Hc0) as [Hc1 Hag1].
  pose proof (handle_chunk_step m1 id peer cs f path [0] 0 Ha Hs1 H0 ltac:(simpl; lia)) as Hs2.
  destruct (handle_chunk (file_chunk id cs f 0) m1) as [m2 o2]. destruct Hs2 as (_ & _ & Hf2 & Hs2).
  rewrite decide_True in Hs2 by (simpl; lia). destruct (Hf2 _ Hc1) as [Hc2 _].
  split; [done|]. eexists _, c0. split_and!; [done|exact Hc2|]. intros q Hq.
  assert (length (block cs f 0) ≤ Z.to_nat cs)%nat by (unfold block; rewrite length_take; lia).
  pose proof (blen_block cs f 0 ltac:(destruct Ha; lia) ltac:(lia)) as Hbl. unfold blen in Hbl, Ho.
  destruct Hag0 as [Hl0 _].
  rewrite !overwrite_lookup; rewrite ?overwrite_length; try lia.
  by rewrite !decide_False by lia.
Qed.

(** The byte offset of a chunk is computed in 32 bits: a chunk that belongs
    beyond 4 GiB is written 4 GiB too low, over data received before. *)
Lemma large_offset_wraps (m : t) (r : ReceivingState.t) (chunk : FileChunk.t) :
  active_transfers m !! FileChunk.transfer_id chunk = Some (Receiving r) →
  FileChunk.chunk_hash chunk = sha256 (FileChunk.data chunk) →
  let off := FileChunk.chunk_index chunk * ReceivingState.chunk_size r in
  2 ^ 32 ≤ off < 2 ^ 33 → off + blen (FileChunk.data chunk) ≤ Mmap.len (ReceivingState.file_map r) →
  Mmap.accessible (ReceivingState.file_map r) (off - 2 ^ 32) (off - 2 ^ 32 + blen (FileChunk.data chunk)) (fs m) = true →
  fs (handle_chunk chunk m).1 =
  Mmap.write (ReceivingState.file_map r) (off - 2 ^ 32) (FileChunk.data chunk) (fs m).
Proof.
  intros Hr Hh off Hoff Hlen Hacc. unfold handle_chunk. rewrite Hr.
  unfold Merkle.hash_chunk, bytes_eqb. rewrite bool_decide_eq_true_2 by done. cbn [negb]. fold off.
  assert (wrap 32 off = off - 2 ^ 32) as ->.
  { unfold wrap. replace off with (off - 2 ^ 32 + 1 * 2 ^ 32) at 1 by lia.
    rewrite Z.mod_add, Z.mod_small by lia. lia. }
  destruct (Z.leb_spec (off - 2 ^ 32 + blen (FileChunk.data chunk)) (Mmap.len (ReceivingState.file_map r))); [|lia].
  rewrite Hacc. cbn [negb]. by case_match.
Qed.

(** A second offer under the same name cuts the file below the mapping of the first:
    a genuine chunk of the first that starts behind the last page of what is left
    kills the process. *)
Lemma short_offer_kills (m : t) (peer : SocketAddr.t) (offer : FileOffer.t) (chunk : FileChunk.t) (r : ReceivingState.t) :
  active_transfers m !! FileChunk.transfer_id chunk = Some (Receiving r) →
  FileOffer.transfer_id offer ≠ FileChunk.transfer_id chunk →
  Mmap.path (ReceivingState.file_map r) = Path.join (download_dir m) (FileOffer.file_name offer) →
  FileChunk.chunk_hash chunk = sha256 (FileChunk.data chunk) →
  let start := wrap 32 (FileChunk.chunk_index chunk * ReceivingState.chunk_size r) in
  let e := start + blen (FileChunk.data chunk) in
  0 ≤ FileOffer.file_size offer → FileOffer.file_size offer + Mmap.PAGE ≤ start → start < e ≤ Mmap.len (ReceivingState.file_map r) →
  (handle_chunk chunk (handle_offer Prepared peer offer m).1).2 = Killed.
Proof.
  intros Hr Hid Hp Hh start e Hs0 Hst He. unfold handle_offer. cbn [fst]. unfold handle_chunk.
  cbn [active_transfers send set_transfer set_fs fs]. rewrite lookup_insert_ne, Hr by done.
  unfold Merkle.hash_chunk, bytes_eqb. rewrite bool_decide_eq_true_2 by done. cbn [negb]. fold start. fold e.
  destruct (Z.leb_spec e (Mmap.len (ReceivingState.file_map r))); [|lia].
  unfold Mmap.accessible, Mmap.limit, Mmap.file. rewrite Hp, lookup_insert_eq. change (default [] (Some ?x)) with x.
  rewrite length_set_len by done. change Mmap.PAGE with 4096 in *.
  pose proof (Z.div_mod (FileOffer.file_size offer + 4096 - 1) 4096 ltac:(lia)).
  pose proof (Z.mod_pos_bound (FileOffer.file_size offer + 4096 - 1) 4096 ltac:(lia)).
  destruct (Z.leb_spec e start); [lia|]. cbn [orb]. by destruct (Z.leb_spec e ((FileOffer.file_size offer + 4096 - 1) / 4096 * 4096)); [lia|].
Qed.

(** The file name of an offer is used as it is: a name that starts with '/'
    passes the decoder and makes the receiver resize that file, wherever it is,
    instead of one in its download directory. *)
Lemma absolute_name_escapes (m : t) (peer : SocketAddr.t) (offer : FileOffer.t) :
  FileOffer.wf offer → head (FileOffer.file_name offer) = Some 47 →
  FileOffer.decode (FileOffer.encode offer) = Ok offer ∧
  fs (handle_offer Prepared peer offer m).1 !! FileOffer.file_name offer =
    Some (set_len (FileOffer.file_size offer) (default [] (fs m !! FileOffer.file_name offer))).
Proof.
  intros Hwf Habs. split; [exact (@wire_roundtrip _ _ FileOffer_wire FileOffer_wire_ok offer Hwf)|].
  unfold handle_offer, Path.join. rewrite bool_decide_eq_true_2 by done. simpl. apply lookup_insert_eq.
Qed.
End Laws.
End TransferLaws.

Module TransferWitness.
Import TransferManager TransferLaws ToyCrypto.

Definition id : TransferId.t := TransferId.from_u128 9.
Definition pa : SocketAddr.t := SocketAddr.V4 [10; 0; 0; 1] 1.
Definition pb : SocketAddr.t := SocketAddr.V4 [10; 0; 0; 2] 2.
Definition path : bytes := [47; 100; 47; 97].          (* /d/a *)
Definition name : bytes := [97].
Definition file : bytes := [1; 2; 3; 4; 5; 6; 7; 8; 9; 10].
Definition sender : t := new [47; 100] {[path := file]}.
Definition receiver : t := new [47; 114] ∅.            (* /r *)

Lemma transfer_id_wf : TransferId.wf id.
Proof. split; [done|decide_now]. Qed.
Lemma file_addressable cs : 0 < cs < 100 → addressable cs file.
Proof. intros. split; [lia|done]. Qed.

Lemma file_transfer_delivers_witness :
  ∃ offer ms1 mr1,
    offer_file id true pb path 4 sender = (ms1, Returns (Ok id)) ∧
    sent ms1 = [(pb, frame_of MessageType.FileOffer (FileOffer.encode offer))] ∧
    handle_offer Prepared pa offer receiver = (mr1, Returns (Ok tt)) ∧
    fs (handle_chunks (map (file_chunk id 4 file) [2; 0; 1]) mr1) !! [47; 114; 47; 97] = Some file.
Proof.
  destruct (file_transfer_delivers sender receiver pa pb id path name file 4)
    as (offer & ms1 & ms2 & ms3 & mr1 & Hof & Hs & _ & Hr & _ & _ & _ & _ & Harr).
  - apply transfer_id_wf.
  - done.
  - done.
  - decide_now.
  - done.
  - done.
  - apply file_addressable. lia.
  - decide_now.
  - done.
  - exists offer, ms1, mr1. split_and!; [done..|].
    apply (Harr [2; 0; 1]). change (chunk_range 0 (nchunks 4 file)) with [0; 1; 2]. decide_now.
Defined.

(** The empty file: nothing to send, and the receiver's transfer stays open. *)
Definition empty_sender : t := new [47; 100] {[path := []]}.

Example empty_file_stays_open :
  let ms1 := (offer_file id true pb path 4 empty_sender).1 in
  let mr1 := (handle_offer Prepared pa (offer_for id name 4 []) receiver).1 in
  sent (handle_credit_update id 50 ms1).1 = sent ms1 ∧ fs mr1 !! [47; 114; 47; 97] = Some [] ∧
  bool_decide (is_Some (active_transfers mr1 !! id)) = true.
Proof. vm_compute. done. Qed.

(** The peer of this sender has chunks 0 and 2 of five already. *)
Definition long : bytes := file ++ file.
Definition sending : SendingState.t :=
  SendingState.mk pb (Mmap.mk path 20) [26] 1 4 5 1.

Lemma pump_paced_witness :
  let m := set_transfer id (Sending sending) (new [47; 100] {[path := long]}) in
  let '(m', o) := handle_credit_update id 1 m in
  o = Returns (Ok tt) ∧
  sent m' = [(pb, chunk_frame id 4 long 1); (pb, chunk_frame id 4 long 3)].
Proof.
  pose proof (pump_paced (set_transfer id (Sending sending) (new [47; 100] {[path := long]})) id path long [26] 4 1 1 1 sending) as H.
  cbv zeta in *. destruct (handle_credit_update _ _ _) as [m' o].
  destruct H as (Ho & Hs & _); [split; [lia|done]|done..|].
  split; [done|]. exact Hs.
Defined.

Definition half : bytes := [1; 2; 3; 4; 5; 6].
Definition halved : t :=
  (handle_offer Prepared pa (FileOffer.mk id name 6 4 2 (Merkle.calculate_file_hash half 4)) receiver).1.

Lemma halved_receiving : receiving halved id pa 4 half [47; 114; 47; 97] [].
Proof.
  pose proof (handle_offer_receiving receiver pa
    (FileOffer.mk id name 6 4 2 (Merkle.calculate_file_hash half 4)) id 4 half eq_refl) as H.
  cbv zeta in H. unfold halved. destruct (handle_offer _ _ _ _) as [m' o]. by destruct H as (_ & H & _).
Qed.

Lemma duplicate_completes_witness :
  let m' := handle_chunks [file_chunk id 4 half 0; file_chunk id 4 half 0] halved in
  active_transfers m' !! id = None ∧
  ∃ c, fs m' !! [47; 114; 47; 97] = Some c ∧ c !! 4%nat = Some 0.
Proof.
  destruct (duplicate_completes halved id [47; 114; 47; 97] half pa 4) as (Hn & c & c0 & Hc0 & Hc & Hq).
  - split; [lia|done].
  - done.
  - apply halved_receiving.
  - split; [exact Hn|]. exists c. split; [exact Hc|]. rewrite Hq by (simpl; lia).
    assert (Some [0; 0; 0; 0; 0; 0] = Some c0) as [= <-]; [|done].
    rewrite <- Hc0. by vm_compute.
Defined.

(** A file of 6 GiB in chunks of 1 GiB: chunk 4 goes over chunk 0. *)
Definition big : ReceivingState.t :=
  ReceivingState.mk pa (Mmap.mk [47; 114; 47; 97] (6 * 2 ^ 30)) [] (all_missing 6) (2 ^ 30) 6 0 [47; 114; 47; 97].

Definition disk9 : disk := {[ [47; 114; 47; 97] := replicate 9 1 ]}.

Lemma large_offset_wraps_witness :
  fs (handle_chunk (FileChunk.mk id 4 (sha256 [7]) [7]) (set_transfer id (Receiving big) (new [47; 114] disk9))).1 =
  Mmap.write (Mmap.mk [47; 114; 47; 97] (6 * 2 ^ 30)) 0 [7] disk9.
Proof.
  apply (large_offset_wraps (set_transfer id (Receiving big) (new [47; 114] disk9)) big
    (FileChunk.mk id 4 (sha256 [7]) [7])).
  - apply lookup_insert_eq.
  - done.
  - split; [by vm_compute|done].
  - by vm_compute.
  - by vm_compute.
Defined.

(** Two offers under one name, the second of 10 bytes. *)
Lemma short_offer_kills_witness :
  let m := (handle_offer Prepared pa (FileOffer.mk id name 9000 1000 9 []) receiver).1 in
  (handle_chunk (FileChunk.mk id 8 (sha256 [7]) [7])
     (handle_offer Prepared pb (FileOffer.mk (TransferId.from_u128 10) name 10 1000 1 []) m).1).2 = Killed.
Proof.
  apply (short_offer_kills (handle_offer Prepared pa (FileOffer.mk id name 9000 1000 9 []) receiver).1 pb
    (FileOffer.mk (TransferId.from_u128 10) name 10 1000 1 []) (FileChunk.mk id 8 (sha256 [7]) [7])
    (ReceivingState.mk pa (Mmap.mk [47; 114; 47; 97] 9000) [] (all_missing 9) 1000 9 0 [47; 114; 47; 97])).
  - apply lookup_insert_eq.
  - by vm_compute.
  - done.
  - done.
  - done.
  - by vm_compute.
  - split; by vm_compute.
Defined.
End TransferWitness.
