(* ===== verification/Storage.v ===== *)
(** ceky-dht/src/storage.rs: the persistent store. A hot cache in memory, a
    database written behind it in batches, and the collection of expired entries.

    The database is the crate redb: a class of tables and multimap tables
    ([Redb]) with the laws of its documentation ([RedbOk]). The two background
    tasks and the deletion that [remove] spawns are operations of their own; they
    run each in one write transaction, of which redb allows one at a time. *)
From S2P Require Import Prelude Bytes Wire PeerId Routing.

Local Open Scope Z_scope.

(** ** Entries *)
Module StoredEntry.
Record t : Set := mk { key : bytes; value : bytes; publisher : PeerId.t; expires_at : Z }.

(** [now] is the UNIX time in seconds. *)
Definition new (now : Z) (key value : bytes) (publisher : PeerId.t) (ttl_secs : Z) : t :=
  mk key value publisher (wrap 64 (now + ttl_secs)).

Definition is_expired (now : Z) (e : t) : bool := expires_at e <=? now.

Definition encode (e : t) : bytes :=
  key e ++ PeerId.as_bytes (publisher e) ++ be_bytes 8 (expires_at e) ++
  be_bytes 4 (wrap 32 (blen (value e))) ++ value e.

Definition decode (payload : bytes) : result TableError.t t :=
  if blen payload <? 76 then Err TableError.InvalidKey
  else
    key ← slice 0 32 payload;
    pub_bytes ← slice 32 64 payload;
    let publisher := PeerId.from_bytes pub_bytes in
    expires_at ← of_be <$> slice 64 72 payload;
    val_len ← of_be <$> slice 72 76 payload;
    if blen payload <? 76 + val_len then Err TableError.InvalidKey
    else
      value ← slice 76 (76 + val_len) payload;
      mret (mk key value publisher expires_at).

Record wf (e : t) : Prop := {
  wf_key : blen (key e) = 32;
  wf_publisher : blen (publisher e) = 32;
  wf_value : blen (value e) < 2 ^ 32;
  wf_expires : is_u64 (expires_at e)
}.

Lemma decode_encode e : wf e → decode (encode e) = Ok e.
Proof.
  intros [Hk Hp Hv He]. unfold decode, encode, PeerId.as_bytes. destruct e as [k v p x].
  cbn [key value publisher expires_at] in *.
  rewrite wrap_small by (pose proof (blen_nonneg v); unfold is_uint; lia).
  set (xs := be_bytes 8 x). set (ls := be_bytes 4 (blen v)).
  assert (blen xs = 8) as Hxs by apply blen_be_bytes. assert (blen ls = 4) as Hls by apply blen_be_bytes.
  pose proof (blen_nonneg v).
  assert (blen (k ++ p ++ xs ++ ls ++ v) = 76 + blen v) as Hlen by (rewrite !blen_app; lia).
  rewrite Hlen. destruct (Z.ltb_spec (76 + blen v) 76); [lia|].
  pose proof (slice_prefix (E:=TableError.t) 32 k (p ++ xs ++ ls ++ v)) as E0.
  pose proof (slice_mid (E:=TableError.t) 32 64 k p (xs ++ ls ++ v)) as E1.
  pose proof (slice_mid (E:=TableError.t) 64 72 (k ++ p) xs (ls ++ v)) as E2.
  pose proof (slice_mid (E:=TableError.t) 72 76 (k ++ p ++ xs) ls v) as E3.
  pose proof (slice_mid (E:=TableError.t) 76 (76 + blen v) (k ++ p ++ xs ++ ls) v []) as E4.
  repeat rewrite <- app_assoc in E2. repeat rewrite <- app_assoc in E3. repeat rewrite <- app_assoc in E4.
  rewrite app_nil_r in E4.
  rewrite E0, E1, E2, E3 by (rewrite ?blen_app; lia).
  cbn [mbind result_bind fmap result_fmap].
  assert (of_be xs = x) as -> by (by apply of_be_be_bytes).
  assert (of_be ls = blen v) as -> by (apply of_be_be_bytes; unfold is_uint; lia).
  destruct (Z.ltb_spec (76 + blen v) (76 + blen v)); [lia|].
  by rewrite E4 by (rewrite ?blen_app; lia).
Qed.

Lemma decode_not_Panic b : bytes_wf b → decode b ≠ Panic.
Proof.
  intros Hb. unfold decode. destruct (Z.ltb_spec (blen b) 76); [done|].
  rewrite !slice_in by lia. simpl.
  set (val_len := of_be _). assert (0 ≤ val_len) as Hv.
  { apply of_be_range. by apply Forall_take, Forall_drop. }
  destruct (Z.ltb_spec (blen b) (76 + val_len)); [done|].
  by rewrite slice_in by lia.
Qed.
End StoredEntry.

(** ** The database *)
Class Redb : Type := {
  table : Type;                           (** [Table<[u8; 32], &[u8]>] *)
  table_empty : table;
  table_get : bytes → table → option bytes;
  table_insert : bytes → bytes → table → table;
  table_remove : bytes → table → table;
  multimap : Type;                        (** [MultimapTable<u64, [u8; 32]>] *)
  multimap_empty : multimap;
  multimap_insert : Z → bytes → multimap → multimap;
  multimap_remove : Z → bytes → multimap → multimap;
  (** the pairs of [range(0..=hi)] *)
  multimap_upto : Z → multimap → list (Z * bytes)
}.

Class RedbOk `{!Redb} : Prop := {
  table_get_empty k : table_get k table_empty = None;
  table_get_insert k k' v t :
    table_get k (table_insert k' v t) = if decide (k = k') then Some v else table_get k t;
  table_get_remove k k' t :
    table_get k (table_remove k' t) = if decide (k = k') then None else table_get k t;
  upto_empty hi p : p ∈ multimap_upto hi multimap_empty ↔ False;
  upto_insert hi x k m p :
    p ∈ multimap_upto hi (multimap_insert x k m) ↔ (p = (x, k) ∧ x ≤ hi) ∨ p ∈ multimap_upto hi m;
  upto_remove hi x k m p :
    p ∈ multimap_upto hi (multimap_remove x k m) ↔ p ≠ (x, k) ∧ p ∈ multimap_upto hi m;
  upto_bound hi m p : p ∈ multimap_upto hi m → p.1 ≤ hi
}.

(** How a write transaction ends: committed, refused before anything was done
    (no transaction, or no table), or lost at the commit. *)
Inductive txn : Set := Committed | NotBegun | CommitFails.

Module PersistentStore.
(** [queue] holds what was sent to the batch writer and not yet written,
    [removals] the deletions spawned and not yet run. *)
Record t `{!Redb} : Type := mk {
  hot_cache : gmap bytes StoredEntry.t;
  data : table;
  expire : multimap;
  queue : list StoredEntry.t;
  removals : list bytes
}.

Definition MAX_BATCH : nat := 100.

Section Ops.
Context `{RD : !Redb}.

(** Opening the database at a path, whose tables are [data] and [expire];
    [created] says whether redb could open it and set up the tables. *)
Definition new (created : bool) (data : table) (expire : multimap) : result TableError.t t :=
  if created then Ok (mk _ ∅ data expire [] []) else Err TableError.StoreFailed.

Definition put (entry : StoredEntry.t) (s : t) : t * result TableError.t unit :=
  (mk _ (<[StoredEntry.key entry := entry]> (hot_cache s)) (data s) (expire s)
     (queue s ++ [entry]) (removals s), Ok tt).

(** The lookup in the database; [readable] says whether the read transaction and
    the table could be opened. *)
Definition cold_get (readable : bool) (now : Z) (key : bytes) (s : t)
    : result TableError.t (option StoredEntry.t) :=
  if negb readable then Ok None
  else
    match table_get key (data s) with
    | None => Ok None
    | Some value =>
        match StoredEntry.decode value with
        | Ok entry => Ok (if negb (StoredEntry.is_expired now entry) then Some entry else None)
        | Err _ => Ok None
        | Panic => Panic
        end
    end.

Definition fill (key : bytes) (entry : StoredEntry.t) (s : t) : t :=
  mk _ (<[key := entry]> (hot_cache s)) (data s) (expire s) (queue s) (removals s).

Definition get (readable : bool) (now : Z) (key : bytes) (s : t)
    : t * result TableError.t (option StoredEntry.t) :=
  match hot_cache s !! key with
  | Some entry => (s, Ok (if negb (StoredEntry.is_expired now entry) then Some entry else None))
  | None =>
      match cold_get readable now key s with
      | Ok (Some entry) => (fill key entry s, Ok (Some entry))
      | r => (s, r)
      end
  end.

(** One entry of a batch. *)
Definition write_entry (tabs : table * multimap) (entry : StoredEntry.t) : table * multimap :=
  (table_insert (StoredEntry.key entry) (StoredEntry.encode entry) tabs.1,
   multimap_insert (StoredEntry.expires_at entry) (StoredEntry.key entry) tabs.2).

(** One turn of the batch writer, which has gathered the first [n] entries of the
    queue (at most 100). They leave the queue whatever becomes of the
    transaction. *)
Definition write_batch (o : txn) (n : nat) (s : t) : t :=
  let n := Nat.min n MAX_BATCH in
  let '(data', expire') :=
    match o with
    | Committed => fold_left write_entry (take n (queue s)) (data s, expire s)
    | _ => (data s, expire s)
    end in
  mk _ (hot_cache s) data' expire' (drop n (queue s)) (removals s).

(** One turn of the collector. The cache is cleaned even when the commit fails. *)
Definition gc (o : txn) (now : Z) (s : t) : t :=
  match o with
  | NotBegun => s
  | _ =>
      let keys_to_remove := multimap_upto now (expire s) in
      let cache := fold_left (λ c p, delete p.2 c) keys_to_remove (hot_cache s) in
      match o with
      | Committed =>
          mk _ cache (fold_left (λ d p, table_remove p.2 d) keys_to_remove (data s))
            (fold_left (λ x p, multimap_remove p.1 p.2 x) keys_to_remove (expire s))
            (queue s) (removals s)
      | _ => mk _ cache (data s) (expire s) (queue s) (removals s)
      end
  end.

Definition remove (key : bytes) (s : t) : t * option StoredEntry.t :=
  (mk _ (delete key (hot_cache s)) (data s) (expire s) (queue s) (removals s ++ [key]),
   hot_cache s !! key).

(** The [i]-th spawned deletion runs. *)
Definition run_removal (o : txn) (i : nat) (s : t) : t :=
  match removals s !! i with
  | Some key =>
      mk _ (hot_cache s) (match o with Committed => table_remove key (data s) | _ => data s end)
        (expire s) (queue s) (vec_remove i (removals s))
  | None => s
  end.

Definition len (s : t) : nat := size (hot_cache s).
Definition is_empty (s : t) : bool := (len s =? 0)%nat.
End Ops.
End PersistentStore.

(** ** The abstract store: what a client may rely on

    Every key has the entry of its latest [put]; what was written to the database
    is durable and is all that a restart leaves. A removal takes the key away at
    once, and from the durable part when its task has run. *)
Module WriteBehind.
Record t : Type := mk {
  latest : gmap bytes StoredEntry.t;
  durable : gmap bytes StoredEntry.t;
  pending : list StoredEntry.t;
  deleting : list bytes                (** keys whose deletion is under way *)
}.

Definition empty : t := mk ∅ ∅ [] [].

Inductive op : Set :=
| Put (e : StoredEntry.t)
| Get (now : Z) (k : bytes)
| Flush (n : nat)
| Gc (now : Z)
| Remove (k : bytes)
| Deleted (i : nat)                    (** the task of the [i]-th deletion under way runs *)
| Restart.

Definition get (now : Z) (k : bytes) (a : t) : option StoredEntry.t :=
  match latest a !! k with
  | Some e => if StoredEntry.is_expired now e then None else Some e
  | None => None
  end.

Definition flush1 (d : gmap bytes StoredEntry.t) (e : StoredEntry.t) : gmap bytes StoredEntry.t :=
  <[StoredEntry.key e := e]> d.

Definition step (a : t) (o : op) : t :=
  match o with
  | Put e => mk (<[StoredEntry.key e := e]> (latest a)) (durable a) (pending a ++ [e]) (deleting a)
  | Flush n =>
      let n := Nat.min n PersistentStore.MAX_BATCH in
      mk (latest a) (fold_left flush1 (take n (pending a)) (durable a)) (drop n (pending a)) (deleting a)
  | Remove k => mk (delete k (latest a)) (durable a) (pending a) (deleting a ++ [k])
  | Deleted i =>
      match deleting a !! i with
      | Some k => mk (latest a) (delete k (durable a)) (pending a) (vec_remove i (deleting a))
      | None => a
      end
  | Restart => mk (durable a) (durable a) [] []
  | Get _ _ | Gc _ => a
  end.
End WriteBehind.

Module StorageLaws.
Import WriteBehind.

(** A key can be read: it is not one that was removed, with its deletion still under
    way and nothing put since. *)
Definition readable (a : t) (k : bytes) : Prop := k ∈ deleting a → is_Some (latest a !! k).

(** The histories for which the store keeps its promise: entries are well-formed,
    the clock does not run backwards, a key is removed when none of its writes is
    queued, it is not read while its deletion is under way, and when the collector
    runs no key has been published both with a date that has passed and with one
    that has not. [h] is what was put so far. *)
Definition gc_safe (now : Z) (h : list StoredEntry.t) : Prop :=
  Forall (λ e, Forall (λ e', StoredEntry.key e = StoredEntry.key e' →
    StoredEntry.expires_at e ≤ now → StoredEntry.expires_at e' ≤ now) h) h.

Definition ok (h : list StoredEntry.t) (now : Z) (a : t) (o : op) : Prop :=
  match o with
  | Put e => StoredEntry.wf e
  | Get n k => now ≤ n ∧ readable a k
  | Gc n => now ≤ n ∧ gc_safe n h
  | Remove k => k ∉ StoredEntry.key <$> pending a
  | Flush _ | Deleted _ | Restart => True
  end.

Definition hist (h : list StoredEntry.t) (o : op) : list StoredEntry.t :=
  match o with Put e => e :: h | _ => h end.
Definition clock (now : Z) (o : op) : Z :=
  match o with Get n _ | Gc n => n | _ => now end.

Fixpoint admissible (h : list StoredEntry.t) (now : Z) (a : t) (ops : list op) : Prop :=
  match ops with
  | [] => True
  | o :: ops => ok h now a o ∧ admissible (hist h o) (clock now o) (step a o) ops
  end.

Section Laws.
Context `{RD : !Redb, ROK : !RedbOk}.

(** The same operations on the store, every transaction committed. A restart
    opens the same database with nothing in memory. *)
Definition run_op (s : PersistentStore.t) (o : op) : PersistentStore.t :=
  match o with
  | Put e => (PersistentStore.put e s).1
  | Get n k => (PersistentStore.get true n k s).1
  | Flush n => PersistentStore.write_batch Committed n s
  | Gc n => PersistentStore.gc Committed n s
  | Remove k => (PersistentStore.remove k s).1
  | Deleted i => PersistentStore.run_removal Committed i s
  | Restart =>
      match PersistentStore.new true (PersistentStore.data s) (PersistentStore.expire s) with
      | Ok s' => s'
      | _ => s
      end
  end.

Abbreviation expired now e := (StoredEntry.expires_at e ≤ now).
Abbreviation stored k s := (table_get k (PersistentStore.data s)).

(** The entries of a map are entries of the history, under their key. *)
Definition from_hist (h : list StoredEntry.t) (m : gmap bytes StoredEntry.t) : Prop :=
  ∀ k e, m !! k = Some e → e ∈ h ∧ StoredEntry.key e = k.

Record refines (h : list StoredEntry.t) (now : Z) (s : PersistentStore.t) (a : t) : Prop := {
  rf_wf : Forall StoredEntry.wf h;
  rf_latest : from_hist h (latest a);
  rf_durable_hist : from_hist h (durable a);
  rf_queue : PersistentStore.queue s = pending a;
  rf_pending_hist : ∀ e, e ∈ pending a → e ∈ h ∧ is_Some (latest a !! StoredEntry.key e);
  rf_removals : PersistentStore.removals s = deleting a;
  rf_index : ∀ hi p, p ∈ multimap_upto hi (PersistentStore.expire s) →
    ∃ e, e ∈ h ∧ p = (StoredEntry.expires_at e, StoredEntry.key e);
  rf_cache : ∀ k e, PersistentStore.hot_cache s !! k = Some e → latest a !! k = Some e;
  rf_known : ∀ k, latest a !! k = None → durable a !! k = None ∨ k ∈ deleting a;
  rf_deleting : ∀ k e, k ∈ deleting a → PersistentStore.hot_cache s !! k = None → latest a !! k = Some e → expired now e;
  rf_data : ∀ k b, stored k s = Some b → ∃ e, durable a !! k = Some e ∧ b = StoredEntry.encode e;
  rf_durable : ∀ k e, durable a !! k = Some e →
    stored k s = Some (StoredEntry.encode e) ∨ (expired now e ∧ stored k s = None);
  rf_cold : ∀ k e, PersistentStore.hot_cache s !! k = None → latest a !! k = Some e →
    stored k s = Some (StoredEntry.encode e) ∨
    (expired now e ∧ ∀ e', durable a !! k = Some e' → stored k s = Some (StoredEntry.encode e') → expired now e');
  rf_pending : ∀ e, e ∈ pending a → PersistentStore.hot_cache s !! StoredEntry.key e = None →
    expired now e ∧ ∀ e', latest a !! StoredEntry.key e = Some e' → expired now e'
}.

Lemma refines_later h now now' s a : now ≤ now' → refines h now s a → refines h now' s a.
Proof.
  intros Hle [Hwf Hl Hdh Hq Hph Hr Hi Hc Hk Hdel Hd Hdu Hco Hp]. split; try done.
  - intros k e H1 H2 H3. specialize (Hdel k e H1 H2 H3). lia.
  - intros k e H. destruct (Hdu k e H) as [|[? ?]]; [by left|right]. split; [lia|done].
  - intros k e H H'. destruct (Hco k e H H') as [|[? Hx]]; [by left|right]. split; [lia|].
    intros e' ? ?. specialize (Hx e'). naive_solver lia.
  - intros e H H'. destruct (Hp e H H') as [? Hx]. split; [lia|]. intros e' ?. specialize (Hx e'). naive_solver lia.
Qed.

Lemma refines_entry_wf h now s a k e :
  refines h now s a → durable a !! k = Some e ∨ latest a !! k = Some e →
  StoredEntry.wf e ∧ StoredEntry.key e = k.
Proof.
  intros R [H|H].
  - destruct (rf_durable_hist _ _ _ _ R _ _ H) as [Hin Hk]. split; [|done].
    by apply (proj1 (Forall_forall _ _) (rf_wf _ _ _ _ R)).
  - destruct (rf_latest _ _ _ _ R _ _ H) as [Hin Hk]. split; [|done].
    by apply (proj1 (Forall_forall _ _) (rf_wf _ _ _ _ R)).
Qed.

(** What the database answers for a key that is not cached. *)
Lemma cold_get_spec h now s a k :
  refines h now s a → readable a k → PersistentStore.hot_cache s !! k = None →
  PersistentStore.cold_get true now k s = Ok (get now k a).
Proof.
  intros R Hrd Hc. unfold PersistentStore.cold_get, get, StoredEntry.is_expired. simpl.
  destruct (latest a !! k) as [e|] eqn:Hl.
  - destruct (rf_cold _ _ _ _ R k e Hc Hl) as [Hs|[He Hx]].
    + rewrite Hs, StoredEntry.decode_encode by (by eapply refines_entry_wf; eauto).
      by destruct (_ <=? _).
    + destruct (Z.leb_spec (StoredEntry.expires_at e) now); [|lia].
      destruct (stored k s) as [b|] eqn:Hs; [|done].
      destruct (rf_data _ _ _ _ R _ _ Hs) as (e' & Hd & ->).
      rewrite StoredEntry.decode_encode by (by eapply refines_entry_wf; eauto).
      specialize (Hx e' Hd eq_refl). by destruct (Z.leb_spec (StoredEntry.expires_at e') now); [|lia].
  - destruct (stored k s) as [b|] eqn:Hs; [|done].
    destruct (rf_data _ _ _ _ R _ _ Hs) as (e' & Hd & ->).
    destruct (rf_known _ _ _ _ R _ Hl) as [H|H%Hrd]; [by rewrite H in Hd|]. rewrite Hl in H. by destruct H.
Qed.

Lemma get_spec h now s a k :
  refines h now s a → readable a k →
  (PersistentStore.get true now k s).2 = Ok (get now k a) ∧
  refines h now (PersistentStore.get true now k s).1 a.
Proof.
  intros R Hrd. unfold PersistentStore.get. destruct (PersistentStore.hot_cache s !! k) as [e|] eqn:Hc.
  - simpl. split; [|done]. unfold get. rewrite (rf_cache _ _ _ _ R _ _ Hc). by destruct (StoredEntry.is_expired now e).
  - rewrite (cold_get_spec h now s a k R Hrd Hc). destruct (get now k a) as [e|] eqn:Hg; [|done].
    split; [done|]. unfold get in Hg. destruct (latest a !! k) as [e0|] eqn:Hl; [|done].
    destruct (StoredEntry.is_expired now e0); simplify_eq.
    destruct R. split; try done.
    + intros k' e'. simpl. destruct (decide (k = k')) as [<-|Hne].
      * rewrite lookup_insert_eq. naive_solver.
      * rewrite lookup_insert_ne by done. auto.
    + intros k' e' Hk'. simpl. destruct (decide (k = k')) as [<-|Hne].
      * by rewrite lookup_insert_eq.
      * rewrite lookup_insert_ne by done. eauto.
    + intros k' e'. simpl. destruct (decide (k = k')) as [<-|Hne].
      * by rewrite lookup_insert_eq.
      * rewrite lookup_insert_ne by done. auto.
    + intros e' Hin. simpl. destruct (decide (k = StoredEntry.key e')) as [<-|Hne].
      * by rewrite lookup_insert_eq.
      * rewrite lookup_insert_ne by done. auto.
Qed.

Lemma put_spec h now s a e :
  refines h now s a → StoredEntry.wf e → refines (e :: h) now (PersistentStore.put e s).1 (step a (Put e)).
Proof.
  intros R He. destruct R as [Hwf Hl Hdh Hq Hph Hr Hi Hc Hk Hdel Hd Hdu Hco Hp].
  split; simpl; try done.
  - by constructor.
  - intros k x. rewrite lookup_insert_Some. intros [[<- <-]|[_ H]].
    + split; [constructor|done].
    + destruct (Hl _ _ H). split; [by constructor|done].
  - intros k x H. destruct (Hdh _ _ H). split; [by constructor|done].
  - by rewrite Hq.
  - intros x [H|H]%elem_of_app.
    + destruct (Hph x H) as [? ?]. split; [by constructor|]. apply lookup_insert_is_Some'. by right.
    + apply list_elem_of_singleton in H as ->. split; [constructor|]. by rewrite lookup_insert_eq.
  - intros hi p H. destruct (Hi hi p H) as (y & ? & ?). exists y. split; [by constructor|done].
  - intros k x. rewrite !lookup_insert_Some. naive_solver.
  - intros k. rewrite lookup_insert_None. naive_solver.
  - intros k x Hin. rewrite lookup_insert_None, lookup_insert_Some. naive_solver.
  - intros k x. rewrite lookup_insert_None, lookup_insert_Some. naive_solver.
  - intros x [H|H]%elem_of_app; rewrite lookup_insert_None.
    + intros [Hn Hne]. destruct (Hp x H Hn) as [? Hx]. split; [done|]. intros e'.
      rewrite lookup_insert_Some. naive_solver.
    + apply list_elem_of_singleton in H as ->. naive_solver.
Qed.

(** One entry of the batch reaches the database. *)
Lemma write_entry_spec h now c d x rm rest a e :
  pending a = e :: rest →
  refines h now (PersistentStore.mk _ c d x (e :: rest) rm) a →
  refines h now
    (PersistentStore.mk _ c (PersistentStore.write_entry (d, x) e).1 (PersistentStore.write_entry (d, x) e).2 rest rm)
    (mk (latest a) (flush1 (durable a) e) rest (deleting a)).
Proof.
  intros Hpe R. destruct R as [Hwf Hl Hdh Hq Hph Hr Hi Hc Hk Hdel Hd Hdu Hco Hp]. rewrite Hpe in *.
  destruct (Hph e ltac:(constructor)) as [Heh Hes].
  split; simpl in *; try done.
  - intros k y. unfold flush1. rewrite lookup_insert_Some. intros [[<- <-]|[_ H]]; [done|auto].
  - intros y Hy. apply Hph. by constructor.
  - intros hi p H. apply upto_insert in H as [[-> _]|H]; [by exists e|eauto].
  - intros k Hn. unfold flush1. rewrite lookup_insert_ne; [auto|]. intros <-.
    destruct Hes as [? Hes]. congruence.
  - intros k b. unfold flush1. rewrite table_get_insert. case_decide as Hke.
    + subst k. rewrite lookup_insert_eq. naive_solver.
    + rewrite lookup_insert_ne by done. auto.
  - intros k y. unfold flush1. rewrite table_get_insert, lookup_insert_Some. intros [[<- <-]|[Hne H]].
    + rewrite decide_True by done. by left.
    + rewrite decide_False by done. auto.
  - intros k y Hcn Hly. unfold flush1. rewrite table_get_insert. case_decide as Hke.
    + subst k. destruct (Hp e ltac:(constructor) Hcn) as [He1 He2]. right. split; [auto|].
      intros e'. rewrite lookup_insert_eq. naive_solver.
    + rewrite lookup_insert_ne by done. auto.
  - intros y Hy. apply Hp. by constructor.
Qed.

Lemma write_entries_spec n h now c d x rm q a :
  pending a = q → refines h now (PersistentStore.mk _ c d x q rm) a →
  refines h now
    (PersistentStore.mk _ c (fold_left PersistentStore.write_entry (take n q) (d, x)).1
       (fold_left PersistentStore.write_entry (take n q) (d, x)).2 (drop n q) rm)
    (mk (latest a) (fold_left flush1 (take n q) (durable a)) (drop n q) (deleting a)).
Proof.
  revert d x q a. induction n as [|n IH]; intros d x q a Hq R.
  { destruct a. simpl in *. by subst. }
  destruct q as [|e q].
  { destruct a. simpl in *. by subst. }
  simpl. by apply (IH _ _ q (mk (latest a) (flush1 (durable a) e) q (deleting a))), write_entry_spec.
Qed.

Lemma write_batch_spec h now s a n :
  refines h now s a → refines h now (PersistentStore.write_batch Committed n s) (step a (Flush n)).
Proof.
  intros R. pose proof (rf_queue _ _ _ _ R) as Hq.
  destruct s as [c d x q r]. simpl in Hq. subst. unfold PersistentStore.write_batch. simpl.
  pose proof (write_entries_spec (Nat.min n PersistentStore.MAX_BATCH) h now c d x r _ a eq_refl R) as H.
  by destruct (fold_left PersistentStore.write_entry _ _).
Qed.

(** ** Collection *)
Lemma fold_delete_lookup {A} (ps : list (Z * bytes)) (m : gmap bytes A) k :
  fold_left (λ c p, delete p.2 c) ps m !! k = if decide (k ∈ ps.*2) then None else m !! k.
Proof.
  revert m. induction ps as [|p ps IH]; intros m; [done|].
  cbn [fold_left]. rewrite fmap_cons, IH. destruct (decide (k ∈ ps.*2)).
  - by rewrite decide_True by (by constructor).
  - destruct (decide (k = p.2)) as [->|Hne].
    + rewrite lookup_delete_eq. by rewrite decide_True by constructor.
    + rewrite lookup_delete_ne by done. rewrite decide_False; [done|]. by intros [?|?]%elem_of_cons.
Qed.

Lemma fold_remove_get (ps : list (Z * bytes)) d k :
  table_get k (fold_left (λ d p, table_remove p.2 d) ps d) = if decide (k ∈ ps.*2) then None else table_get k d.
Proof.
  revert d. induction ps as [|p ps IH]; intros d; [done|].
  cbn [fold_left]. rewrite fmap_cons, IH. destruct (decide (k ∈ ps.*2)).
  - by rewrite decide_True by (by constructor).
  - rewrite table_get_remove. destruct (decide (k = p.2)) as [->|Hne].
    + by rewrite decide_True by constructor.
    + rewrite decide_False; [done|]. by intros [?|?]%elem_of_cons.
Qed.

Lemma fold_unindex (ps : list (Z * bytes)) x hi p :
  p ∈ multimap_upto hi (fold_left (λ x p, multimap_remove p.1 p.2 x) ps x) → p ∈ multimap_upto hi x.
Proof.
  revert x. induction ps as [|q ps IH]; intros x; simpl; [done|].
  intros H%IH. by apply upto_remove in H as [_ H].
Qed.

(** Every key the collector takes away has only expired entries. *)
Lemma collected_expired h now s a k :
  refines h now s a → gc_safe now h → k ∈ (multimap_upto now (PersistentStore.expire s)).*2 →
  ∀ e, e ∈ h → StoredEntry.key e = k → expired now e.
Proof.
  intros R Hs ([x k'] & -> & Hin)%list_elem_of_fmap e He Hk.
  pose proof (upto_bound _ _ _ Hin) as Hx.
  destruct (rf_index _ _ _ _ R _ _ Hin) as (e0 & He0 & [= -> ->]). simpl in *.
  unfold gc_safe in Hs. rewrite Forall_forall in Hs. specialize (Hs e0 He0). rewrite Forall_forall in Hs.
  by apply Hs.
Qed.

Lemma gc_spec h now s a :
  refines h now s a → gc_safe now h → refines h now (PersistentStore.gc Committed now s) a.
Proof.
  intros R Hs. pose proof (collected_expired h now s a) as Hex.
  unfold PersistentStore.gc. set (ps := multimap_upto now (PersistentStore.expire s)) in *.
  destruct (R) as [Hwf Hl Hdh Hq Hph Hr Hi Hc Hk Hdel Hd Hdu Hco Hp].
  split; cbn [PersistentStore.hot_cache PersistentStore.data PersistentStore.expire PersistentStore.queue
    PersistentStore.removals]; try done.
  - intros hi p H%fold_unindex. eauto.
  - intros k e. rewrite fold_delete_lookup. case_decide; [done|auto].
  - intros k e Hin. rewrite fold_delete_lookup. case_decide as Hcol; [|eauto]. intros _ Hle. destruct (Hl _ _ Hle). eauto.
  - intros k b. rewrite fold_remove_get. case_decide; [done|auto].
  - intros k e H. rewrite fold_remove_get. case_decide as Hin; [|auto].
    right. split; [|done]. destruct (Hdh _ _ H). eauto.
  - intros k e. rewrite fold_delete_lookup, fold_remove_get. case_decide as Hin; [|auto].
    intros _ H. right. split; [|done]. destruct (Hl _ _ H). eauto.
  - intros e He. rewrite fold_delete_lookup. case_decide as Hin; [|auto].
    intros _. split; [destruct (Hph e He); eauto|]. intros e' H. destruct (Hl _ _ H). eauto.
Qed.

Lemma remove_spec h now s a k :
  refines h now s a → k ∉ StoredEntry.key <$> pending a →
  refines h now (run_op s (Remove k)) (step a (Remove k)).
Proof.
  intros R Hnp. destruct (R) as [Hwf Hl Hdh Hq Hph Hr Hi Hc Hk Hdel Hd Hdu Hco Hp].
  assert (∀ e, e ∈ pending a → StoredEntry.key e ≠ k) as Hpk.
  { intros e He <-. apply Hnp. apply list_elem_of_fmap. eauto. }
  split; simpl; try done.
  - intros k' e [_ H]%lookup_delete_Some. auto.
  - intros e He. split; [by apply Hph|]. rewrite lookup_delete_ne by (apply not_eq_sym; auto). by apply Hph.
  - by rewrite Hr.
  - intros k' e. rewrite !lookup_delete_Some. naive_solver.
  - intros k'. rewrite lookup_delete_None, elem_of_app, list_elem_of_singleton. intros [->|H]; [by right; right|naive_solver].
  - intros k' e Hin Hn [Hne H]%lookup_delete_Some. rewrite lookup_delete_ne in Hn by done.
    apply elem_of_app in Hin as [Hin|Hin%list_elem_of_singleton]; [eauto|congruence].
  - intros k' e Hn [Hne H]%lookup_delete_Some. rewrite lookup_delete_ne in Hn by done. auto.
  - intros e He. specialize (Hpk e He). rewrite !lookup_delete_ne by done. auto.
Qed.

(** The task of a deletion runs. *)
Lemma vec_remove_elem {A} i (l : list A) x y : l !! i = Some x → y ∈ l → y = x ∨ y ∈ vec_remove i l.
Proof.
  intros Hi Hy. unfold vec_remove. rewrite <- (take_drop_middle _ _ _ Hi) in Hy. set_solver.
Qed.

Lemma vec_remove_sub {A} i (l : list A) y : y ∈ vec_remove i l → y ∈ l.
Proof.
  unfold vec_remove. rewrite elem_of_app. intros [H|H].
  - rewrite <- (take_drop i l). apply elem_of_app. by left.
  - rewrite <- (take_drop (S i) l). apply elem_of_app. by right.
Qed.

Lemma deleted_spec h now s a i :
  refines h now s a → refines h now (run_op s (Deleted i)) (step a (Deleted i)).
Proof.
  intros R. destruct (R) as [Hwf Hl Hdh Hq Hph Hr Hi Hc Hk Hdel Hd Hdu Hco Hp].
  unfold run_op, PersistentStore.run_removal, step. rewrite Hr. destruct (deleting a !! i) as [k|] eqn:Hin; [|done].
  split; simpl; try done.
  - intros k' e [_ H]%lookup_delete_Some. auto.
  - intros k' Hn. rewrite lookup_delete_None. destruct (Hk k' Hn) as [|H]; [by auto|].
    destruct (vec_remove_elem i _ k k' Hin H) as [->|]; auto.
  - intros k' e H%vec_remove_sub. eauto.
  - intros k' b. rewrite table_get_remove. case_decide; [done|]. rewrite lookup_delete_ne by done. auto.
  - intros k' e [Hne H]%lookup_delete_Some. rewrite table_get_remove, decide_False by done. auto.
  - intros k' e Hn H. rewrite table_get_remove. case_decide as E; [subst k'; right|].
    + split; [|intros e' [? _]%lookup_delete_Some; done]. eapply Hdel; [by eapply list_elem_of_lookup_2|done|done].
    + rewrite lookup_delete_ne by done. auto.
Qed.

Lemma restart_spec h now s a :
  refines h now s a → refines h now (run_op s Restart) (step a Restart).
Proof.
  intros [Hwf Hl Hdh Hq Hph Hr Hi Hc Hk Hdel Hd Hdu Hco Hp]. split; simpl; try done.
  - intros e He. by apply elem_of_nil in He.
  - by left.
  - intros k e He. by apply elem_of_nil in He.
  - intros k e _ H. destruct (Hdu k e H) as [|[He Hn]]; [by left|right]. split; [done|].
    intros e' _ H'. congruence.
  - intros e He. by apply elem_of_nil in He.
Qed.

Lemma run_op_spec h now s a o :
  refines h now s a → ok h now a o → refines (hist h o) (clock now o) (run_op s o) (step a o).
Proof.
  intros R Hok. destruct o as [e|n k|n|n|k|i|]; simpl in Hok.
  - by apply put_spec.
  - destruct Hok. apply get_spec; [|done]. by apply refines_later with now.
  - by apply write_batch_spec.
  - destruct Hok. apply gc_spec; [|done]. by apply refines_later with now.
  - by apply remove_spec.
  - by apply deleted_spec.
  - by apply restart_spec.
Qed.

Lemma run_ops_spec ops h now s a :
  refines h now s a → admissible h now a ops →
  ∃ h', refines h' (fold_left clock ops now) (fold_left run_op ops s) (fold_left step ops a).
Proof.
  revert h now s a. induction ops as [|o ops IH]; intros h now s a R; simpl; [eauto|].
  intros [Hok Hadm]. eapply IH; [|exact Hadm]. by apply run_op_spec.
Qed.

Lemma opened_refines now s :
  PersistentStore.new true table_empty multimap_empty = Ok s → refines [] now s empty.
Proof.
  intros [= <-]. split; simpl; try done.
  - intros e He. by apply elem_of_nil in He.
  - intros hi p H. by apply upto_empty in H.
  - by left.
  - intros k b. by rewrite table_get_empty.
  - intros e He. by apply elem_of_nil in He.
Qed.

(** C25: the persistent store behaves as a map with a durable part. Take any history
    of writes, reads, batches and deletions reaching the database, collections,
    removals and restarts, one after the other, of a store on a new database whose
    transactions commit, in which no key is removed while a write of it is queued,
    none is read while its deletion is under way with nothing put since, and none is
    collected that was published both with a date that has passed and with one that
    has not. Reading a key then answers with the latest entry put under it, or,
    after a restart, the latest one that had reached the database and was not
    deleted from it, unless it was removed or has expired; reading never panics. *)
Theorem store_refines_map (s : PersistentStore.t) (ops : list op) (now0 now : Z) (k : bytes) :
  PersistentStore.new true table_empty multimap_empty = Ok s →
  admissible [] now0 empty ops → fold_left clock ops now0 ≤ now → readable (fold_left step ops empty) k →
  (PersistentStore.get true now k (fold_left run_op ops s)).2 = Ok (get now k (fold_left step ops empty)).
Proof.
  intros Hnew Hadm Hnow Hrd.
  destruct (run_ops_spec ops [] now0 s empty (opened_refines now0 s Hnew) Hadm) as [h R].
  eapply get_spec; [by eapply refines_later|done].
Qed.

Lemma write_batch_cache o n s :
  PersistentStore.hot_cache (PersistentStore.write_batch o n s) = PersistentStore.hot_cache s.
Proof. unfold PersistentStore.write_batch. by destruct (match o with Committed => _ | _ => _ end). Qed.

(** Publishing a key again does not save it from the collector: the index keeps
    the date of the first publication, and when that has passed the collector
    deletes the key from the cache and from the database, although its entry is
    still valid. *)
Lemma republished_key_collected (s : PersistentStore.t) (e1 e2 : StoredEntry.t) (now : Z) :
  PersistentStore.queue s = [] → StoredEntry.key e1 = StoredEntry.key e2 →
  StoredEntry.expires_at e1 ≤ now < StoredEntry.expires_at e2 →
  let s' := fold_left run_op [Put e1; Put e2; Flush 2] s in
  (PersistentStore.get true now (StoredEntry.key e2) s').2 = Ok (Some e2) ∧
  (PersistentStore.get true now (StoredEntry.key e2) (run_op s' (Gc now))).2 = Ok None.
Proof.
  intros Hq Hk [He1 He2] s'.
  assert (PersistentStore.hot_cache s' !! StoredEntry.key e2 = Some e2) as Hc.
  { unfold s'. cbn [fold_left run_op]. rewrite write_batch_cache. apply lookup_insert_eq. }
  assert ((StoredEntry.expires_at e1, StoredEntry.key e2) ∈ multimap_upto now (PersistentStore.expire s')) as Hix.
  { unfold s'. simpl. unfold PersistentStore.write_batch. simpl. rewrite Hq. simpl. rewrite <- Hk.
    rewrite !upto_insert. right. left. done. }
  split.
  - unfold PersistentStore.get. rewrite Hc. simpl. unfold StoredEntry.is_expired.
    by destruct (Z.leb_spec (StoredEntry.expires_at e2) now); [lia|].
  - clearbody s'. simpl. unfold PersistentStore.get, PersistentStore.gc.
    set (ps := multimap_upto now _) in *.
    assert (StoredEntry.key e2 ∈ ps.*2) as Hin by (apply list_elem_of_fmap; by exists (StoredEntry.expires_at e1, StoredEntry.key e2)).
    cbn [PersistentStore.hot_cache]. rewrite fold_delete_lookup, decide_True by done.
    unfold PersistentStore.cold_get. cbn [negb PersistentStore.data].
    by rewrite fold_remove_get, decide_True by done.
Qed.

(** A removed key comes back when its write was still queued: the deletion runs
    before the batch is written, and the entry is served again. *)
Lemma removed_key_returns (s : PersistentStore.t) (e : StoredEntry.t) (now : Z) :
  StoredEntry.wf e → now < StoredEntry.expires_at e →
  PersistentStore.queue s = [] → PersistentStore.removals s = [] →
  let s' := fold_left run_op [Put e; Remove (StoredEntry.key e); Deleted 0; Flush 1] s in
  (PersistentStore.get true now (StoredEntry.key e) s').2 = Ok (Some e).
Proof.
  intros Hwf He Hq Hr s'. unfold s'. simpl. unfold PersistentStore.run_removal. simpl. rewrite Hr. simpl.
  unfold PersistentStore.write_batch. simpl. rewrite Hq. simpl.
  unfold PersistentStore.get. simpl. rewrite lookup_delete_eq.
  unfold PersistentStore.cold_get. simpl. rewrite table_get_insert, decide_True by done.
  rewrite StoredEntry.decode_encode by done. unfold StoredEntry.is_expired.
  by destruct (Z.leb_spec (StoredEntry.expires_at e) now); [lia|].
Qed.

(** A removed key also comes back when it is read before the task of its deletion has
    run: the entry is taken from the database, and put back into the cache, where it
    stays when the task has run. *)
Lemma read_undoes_removal (s : PersistentStore.t) (k : bytes) (e : StoredEntry.t) (now now' : Z) :
  StoredEntry.wf e → now < StoredEntry.expires_at e → now' < StoredEntry.expires_at e →
  PersistentStore.removals s = [] → stored k s = Some (StoredEntry.encode e) →
  let s1 := run_op s (Remove k) in
  let s2 := fold_left run_op [Get now k; Deleted 0] s1 in
  (PersistentStore.get true now k s1).2 = Ok (Some e) ∧ PersistentStore.removals s2 = [] ∧
  (PersistentStore.get true now' k s2).2 = Ok (Some e).
Proof.
  intros Hwf He He' Hr Hs s1 s2.
  assert (PersistentStore.get true now k s1 = (PersistentStore.fill k e s1, Ok (Some e))) as Hg.
  { unfold PersistentStore.get, s1. simpl. rewrite lookup_delete_eq. unfold PersistentStore.cold_get. simpl.
    rewrite Hs, StoredEntry.decode_encode by done. unfold StoredEntry.is_expired.
    by destruct (Z.leb_spec (StoredEntry.expires_at e) now); [lia|]. }
  unfold s2. cbn [fold_left run_op]. rewrite Hg. cbn [fst snd]. unfold PersistentStore.run_removal, s1. simpl. rewrite Hr. simpl.
  split_and!; [done|done|]. unfold PersistentStore.get. simpl. rewrite lookup_insert_eq. unfold StoredEntry.is_expired.
  by destruct (Z.leb_spec (StoredEntry.expires_at e) now'); [lia|].
Qed.

(** Two calls of [get] and [put] that overlap: [get] has missed the cache and read
    the old entry from the database when the new one is put; what it then writes
    to the cache hides the new entry. *)
Lemma racing_get_hides_put (s : PersistentStore.t) (old new : StoredEntry.t) (now : Z) :
  let k := StoredEntry.key new in
  PersistentStore.hot_cache s !! k = None → PersistentStore.cold_get true now k s = Ok (Some old) →
  StoredEntry.expires_at old > now →
  (PersistentStore.get true now k (PersistentStore.fill k old (PersistentStore.put new s).1)).2 = Ok (Some old).
Proof.
  intros k Hc Hd He. unfold PersistentStore.get, PersistentStore.fill. simpl.
  rewrite lookup_insert_eq. unfold StoredEntry.is_expired.
  by destruct (Z.leb_spec (StoredEntry.expires_at old) now); [lia|].
Qed.
End Laws.
End StorageLaws.

(** ** A database that keeps the laws *)
Module GmapRedb.
#[export] Instance redb : Redb := {|
  table := gmap bytes bytes;
  table_empty := ∅;
  table_get k d := d !! k;
  table_insert k v d := <[k := v]> d;
  table_remove k d := delete k d;
  multimap := gset (Z * bytes);
  multimap_empty := ∅;
  multimap_insert x k m := {[(x, k)]} ∪ m;
  multimap_remove x k m := m ∖ {[(x, k)]};
  multimap_upto hi m := List.filter (λ p, p.1 <=? hi) (elements m)
|}.

#[export] Instance redb_ok : RedbOk.
Proof.
  assert (∀ hi (m : gset (Z * bytes)) p,
    p ∈ List.filter (λ p, p.1 <=? hi) (elements m) ↔ p.1 ≤ hi ∧ p ∈ m) as Hf.
  { intros hi m p. rewrite list_elem_of_In, filter_In, <- list_elem_of_In, elem_of_elements, Z.leb_le. tauto. }
  split; simpl; intros; rewrite ?Hf.
  - apply lookup_empty.
  - case_decide; [subst; apply lookup_insert_eq|by apply lookup_insert_ne].
  - case_decide; [subst; apply lookup_delete_eq|by apply lookup_delete_ne].
  - set_solver.
  - rewrite elem_of_union, elem_of_singleton. naive_solver.
  - rewrite elem_of_difference, elem_of_singleton. naive_solver.
  - by apply Hf in H as [? _].
Qed.
End GmapRedb.

Module StorageWitness.
Import WriteBehind StorageLaws GmapRedb.

Definition key : bytes := replicate 32 7.
Definition entry (v x : Z) : StoredEntry.t := StoredEntry.mk key [v] (replicate 32 1) x.
Definition opened : PersistentStore.t := PersistentStore.mk redb ∅ ∅ ∅ [] [].

Lemma entry_wf v x : is_u64 x → StoredEntry.wf (entry v x).
Proof. by split. Qed.

(** Written, collected too early to matter, removed and written again before the
    deletion has run, then one write lost in a restart. *)
Definition history : list op :=
  [Put (entry 1 100); Flush 5; Gc 50; Remove key; Put (entry 2 90); Get 55 key; Deleted 0; Flush 1; Put (entry 3 120); Restart;
   Get 60 key].

Lemma store_refines_map_witness :
  (PersistentStore.get true 70 key (fold_left run_op history opened)).2 = Ok (Some (entry 2 90)).
Proof.
  rewrite (store_refines_map opened history 0 70 key); [|done| | |].
  - by vm_compute.
  - unfold history, admissible, ok. split_and!; first [done | by apply entry_wf | decide_now].
  - by vm_compute.
  - unfold readable. assert (deleting (fold_left step history empty) = []) as -> by (vm_compute; reflexivity).
    by intros ?%elem_of_nil.
Defined.

(** Removed, and there again. *)
Example read_undoes_removal_run :
  let s := fold_left run_op [Put (entry 1 100); Flush 1; Remove key; Get 5 key; Deleted 0] opened in
  (PersistentStore.get true 6 key s).2 = Ok (Some (entry 1 100)).
Proof. vm_compute. reflexivity. Qed.

Lemma republished_key_collected_witness :
  let s' := fold_left run_op [Put (entry 1 100); Put (entry 2 200); Flush 2] opened in
  (PersistentStore.get true 150 key s').2 = Ok (Some (entry 2 200)) ∧
  (PersistentStore.get true 150 key (run_op s' (Gc 150))).2 = Ok None.
Proof. by apply (republished_key_collected opened (entry 1 100) (entry 2 200) 150). Defined.
End StorageWitness.
