(* ===== verification/SuperNode.v ===== *)
(** ceky-dht/src/supernode.rs: the ladder of tiers, promotion and demotion of
    tracked nodes, and pruning. A duration is a number of nanoseconds; an
    operation that reads the clock takes the reading, [now], as an argument. A
    [HashMap] is a finite map and is iterated in the order of [map_to_list]; no
    theorem depends on that order. *)
From S2P Require Import Prelude Bytes PeerId DhtMsg Float64 PeerInfo.
From Stdlib Require Import SpecFloat.

Local Open Scope Z_scope.

Module SuperNodeTier.
Inductive t : Set := Regular | Candidate | SuperNode | Elite.

#[global] Instance t_eq_dec : EqDecision t.
Proof. solve_decision. Defined.

(** The derived order. *)
Definition rank (x : t) : Z :=
  match x with Regular => 0 | Candidate => 1 | SuperNode => 2 | Elite => 3 end.

Definition can_relay (x : t) : bool :=
  match x with SuperNode | Elite => true | _ => false end.
Definition can_bootstrap (x : t) : bool :=
  match x with Elite => true | _ => false end.
End SuperNodeTier.

Module PromotionCriteria.
Record t : Set := mk {
  candidate_uptime : Z; supernode_uptime : Z; elite_uptime : Z;
  min_success_rate : f64; max_avg_latency_ms : f64;
  min_successes : Z; elite_min_successes : Z; observation_period : Z
}.

Definition secs (n : Z) : Z := n * F64.NANOS_PER_SEC.

Definition default : t :=
  mk (secs 3600) (secs (4 * 3600)) (secs (24 * 3600)) (F64.div (F64.of_Z 95) (F64.of_Z 100))
     (F64.of_Z 100) 100 1000 (secs 1800).
End PromotionCriteria.

Module SuperNodeInfo.
Record t : Set := mk {
  peer_id : PeerId.t; addr : SocketAddr.t; tier : SuperNodeTier.t; promoted_at : option Z;
  tier_since : Z; total_successes : Z; total_failures : Z; avg_latency_ms : f64;
  bytes_relayed : Z; tracked_since : Z
}.

Definition new (now : Z) (peer_id : PeerId.t) (addr : SocketAddr.t) : t :=
  mk peer_id addr SuperNodeTier.Regular None now 0 0 F64.zero 0 now.

Definition uptime (now : Z) (i : t) : Z := elapsed now (tracked_since i).

Definition success_rate (i : t) : f64 :=
  let total := wrap 64 (total_successes i + total_failures i) in
  if total =? 0 then F64.zero else F64.div (F64.of_Z (total_successes i)) (F64.of_Z total).
End SuperNodeInfo.

Module SuperNodeStats.
Record t : Set := mk { total_tracked : nat; regular : nat; candidate : nat; supernode : nat; elite : nat }.
End SuperNodeStats.

Module SuperNodeManager.
Import SuperNodeInfo.

Record t : Set := mk {
  criteria : PromotionCriteria.t;
  nodes : gmap PeerId.t SuperNodeInfo.t;
  max_tracked : nat
}.

Definition new (criteria : PromotionCriteria.t) (max_tracked : nat) : t := mk criteria ∅ max_tracked.
Definition with_defaults : t := new PromotionCriteria.default 500.

Definition set_nodes (n : gmap PeerId.t SuperNodeInfo.t) (m : t) : t := mk (criteria m) n (max_tracked m).

(** The body of [record_performance] on the entry of the peer. *)
Definition record (addr : SocketAddr.t) (success : bool) (latency_ms : option f64) (i : SuperNodeInfo.t)
    : SuperNodeInfo.t :=
  if success then
    let total_successes' := wrap 64 (total_successes i + 1) in
    let avg :=
      match latency_ms with
      | Some lat =>
          let n := F64.of_Z total_successes' in
          F64.add (F64.mul (avg_latency_ms i) (F64.div (F64.sub n (F64.of_Z 1)) n)) (F64.div lat n)
      | None => avg_latency_ms i
      end in
    SuperNodeInfo.mk (peer_id i) addr (tier i) (promoted_at i) (tier_since i) total_successes'
      (total_failures i) avg (bytes_relayed i) (tracked_since i)
  else
    SuperNodeInfo.mk (peer_id i) addr (tier i) (promoted_at i) (tier_since i) (total_successes i)
      (wrap 64 (total_failures i + 1)) (avg_latency_ms i) (bytes_relayed i) (tracked_since i).

Definition record_performance (now : Z) (peer_id : PeerId.t) (addr : SocketAddr.t) (success : bool)
    (latency_ms : option f64) (m : t) : t :=
  let info := default (SuperNodeInfo.new now peer_id addr) (nodes m !! peer_id) in
  set_nodes (<[peer_id := record addr success latency_ms info]> (nodes m)) m.

Definition record_relay (peer_id : PeerId.t) (bytes : Z) (m : t) : t :=
  set_nodes (alter (λ i, SuperNodeInfo.mk (SuperNodeInfo.peer_id i) (addr i) (tier i) (promoted_at i)
    (tier_since i) (total_successes i) (total_failures i) (avg_latency_ms i)
    (wrap 64 (bytes_relayed i + bytes)) (tracked_since i)) peer_id (nodes m)) m.

(** [a >= b] and [a <= b] on [f64]: false on NaN. *)
Definition ge (a b : f64) : bool := SFleb b a.

Definition evaluate_tier (now : Z) (info : SuperNodeInfo.t) (criteria : PromotionCriteria.t) : SuperNodeTier.t :=
  let uptime := uptime now info in
  let success_rate := success_rate info in
  if F64.lt success_rate (PromotionCriteria.min_success_rate criteria)
     && (10 <? wrap 64 (total_successes info + total_failures info)) then SuperNodeTier.Regular
  else if F64.lt (PromotionCriteria.max_avg_latency_ms criteria) (avg_latency_ms info)
     && (10 <? total_successes info) then SuperNodeTier.Regular
  else if (PromotionCriteria.elite_uptime criteria <=? uptime)
     && ge success_rate (PromotionCriteria.min_success_rate criteria)
     && (PromotionCriteria.elite_min_successes criteria <=? total_successes info)
     && ge (PromotionCriteria.max_avg_latency_ms criteria) (avg_latency_ms info) then SuperNodeTier.Elite
  else if (PromotionCriteria.supernode_uptime criteria <=? uptime)
     && ge success_rate (PromotionCriteria.min_success_rate criteria)
     && (PromotionCriteria.min_successes criteria <=? total_successes info)
     && ge (PromotionCriteria.max_avg_latency_ms criteria) (avg_latency_ms info) then SuperNodeTier.SuperNode
  else if (PromotionCriteria.candidate_uptime criteria <=? uptime)
     && ge success_rate (PromotionCriteria.min_success_rate criteria) then SuperNodeTier.Candidate
  else SuperNodeTier.Regular.

(** The body of the loop of [evaluate_all]. *)
Definition set_tier (now : Z) (criteria : PromotionCriteria.t) (info : SuperNodeInfo.t) : SuperNodeInfo.t :=
  let old_tier := tier info in
  let new_tier := evaluate_tier now info criteria in
  if bool_decide (new_tier = old_tier) then info
  else
    let promoted :=
      if bool_decide (old_tier = SuperNodeTier.Regular) && negb (bool_decide (new_tier = SuperNodeTier.Regular))
      then Some now else promoted_at info in
    SuperNodeInfo.mk (peer_id info) (addr info) new_tier promoted now (total_successes info)
      (total_failures info) (avg_latency_ms info) (bytes_relayed info) (tracked_since info).

Definition change (now : Z) (criteria : PromotionCriteria.t) (info : SuperNodeInfo.t)
    : option (PeerId.t * SuperNodeTier.t * SuperNodeTier.t) :=
  let new_tier := evaluate_tier now info criteria in
  if bool_decide (new_tier = tier info) then None else Some (peer_id info, tier info, new_tier).

Definition evaluate_all (now : Z) (m : t) : t * list (PeerId.t * SuperNodeTier.t * SuperNodeTier.t) :=
  (set_nodes (set_tier now (criteria m) <$> nodes m) m,
   omap (λ p, change now (criteria m) p.2) (map_to_list (nodes m))).

Definition values (m : t) : list SuperNodeInfo.t := (map_to_list (nodes m)).*2.

Definition nodes_by_tier (x : SuperNodeTier.t) (m : t) : list SuperNodeInfo.t :=
  List.filter (λ i, bool_decide (tier i = x)) (values m).

Definition relay_capable (m : t) : list SuperNodeInfo.t :=
  List.filter (λ i, SuperNodeTier.can_relay (tier i)) (values m).

(** [max_by]: the later of two equal elements wins, and elements that do not
    compare count as equal. *)
Definition better (a b : SuperNodeInfo.t) : SuperNodeInfo.t :=
  match F64.partial_cmp (success_rate a) (success_rate b) with Some Gt => a | _ => b end.

Definition best_relay (m : t) : option SuperNodeInfo.t :=
  match relay_capable m with
  | [] => None
  | i :: rest => Some (fold_left better rest i)
  end.

Definition get (id : PeerId.t) (m : t) : option SuperNodeInfo.t := nodes m !! id.

Definition remove (id : PeerId.t) (m : t) : t * option SuperNodeInfo.t :=
  (set_nodes (delete id (nodes m)) m, nodes m !! id).

Definition fewer (a b : PeerId.t * Z) : Prop := a.2 ≤ b.2.

#[global] Instance fewer_dec : RelDecision fewer.
Proof. intros a b. unfold fewer. apply _. Defined.

(** The regular nodes with their success counts, worst first. *)
Definition regulars (m : t) : list (PeerId.t * Z) :=
  merge_sort fewer
    (map (λ p, (p.1, total_successes p.2))
       (List.filter (λ p, bool_decide (tier p.2 = SuperNodeTier.Regular)) (map_to_list (nodes m)))).

Definition prune (m : t) : t * nat :=
  if (size (nodes m) <=? max_tracked m)%nat then (m, 0%nat)
  else
    let excess := (size (nodes m) - max_tracked m)%nat in
    let regulars := regulars m in
    let pruned := Nat.min (length regulars) excess in
    (set_nodes (fold_left (λ n p, delete p.1 n) (take pruned regulars) (nodes m)) m, pruned).

Definition count (x : SuperNodeTier.t) (m : t) : nat := length (nodes_by_tier x m).

Definition stats (m : t) : SuperNodeStats.t :=
  SuperNodeStats.mk (size (nodes m)) (count SuperNodeTier.Regular m) (count SuperNodeTier.Candidate m)
    (count SuperNodeTier.SuperNode m) (count SuperNodeTier.Elite m).
End SuperNodeManager.

Module SuperNodeLaws.
Import SuperNodeInfo SuperNodeManager.

(** A node that is taken down to the lowest tier whatever its uptime. *)
Definition degraded (c : PromotionCriteria.t) (i : SuperNodeInfo.t) : bool :=
  (F64.lt (success_rate i) (PromotionCriteria.min_success_rate c)
   && (10 <? wrap 64 (total_successes i + total_failures i)))
  || (F64.lt (PromotionCriteria.max_avg_latency_ms c) (avg_latency_ms i) && (10 <? total_successes i)).

(** What a tier asks for. *)
Definition qualifies (c : PromotionCriteria.t) (now : Z) (x : SuperNodeTier.t) (i : SuperNodeInfo.t) : bool :=
  let reliable := ge (success_rate i) (PromotionCriteria.min_success_rate c) in
  let fast := ge (PromotionCriteria.max_avg_latency_ms c) (avg_latency_ms i) in
  match x with
  | SuperNodeTier.Regular => true
  | SuperNodeTier.Candidate => (PromotionCriteria.candidate_uptime c <=? uptime now i) && reliable
  | SuperNodeTier.SuperNode =>
      (PromotionCriteria.supernode_uptime c <=? uptime now i) && reliable
      && (PromotionCriteria.min_successes c <=? total_successes i) && fast
  | SuperNodeTier.Elite =>
      (PromotionCriteria.elite_uptime c <=? uptime now i) && reliable
      && (PromotionCriteria.elite_min_successes c <=? total_successes i) && fast
  end.

(** Criteria that form a ladder. *)
Record ladder (c : PromotionCriteria.t) : Prop := {
  ld_candidate : PromotionCriteria.candidate_uptime c ≤ PromotionCriteria.supernode_uptime c;
  ld_supernode : PromotionCriteria.supernode_uptime c ≤ PromotionCriteria.elite_uptime c;
  ld_successes : PromotionCriteria.min_successes c ≤ PromotionCriteria.elite_min_successes c
}.

Lemma default_ladder : ladder PromotionCriteria.default.
Proof. by split. Qed.

Lemma evaluate_tier_ladder c now i x :
  ladder c → x ≠ SuperNodeTier.Regular →
  SuperNodeTier.rank x ≤ SuperNodeTier.rank (evaluate_tier now i c) ↔
  degraded c i = false ∧ qualifies c now x i = true.
Proof.
  intros [H1 H2 H3] Hx. unfold degraded, evaluate_tier.
  destruct (F64.lt (success_rate i) _ && _) eqn:Hd1; cbn [orb].
  { destruct x; simpl; naive_solver lia. }
  destruct (F64.lt (PromotionCriteria.max_avg_latency_ms c) _ && _) eqn:Hd2.
  { destruct x; simpl; naive_solver lia. }
  unfold qualifies. clear Hd1 Hd2.
  assert ((PromotionCriteria.elite_uptime c <=? uptime now i) = true →
          (PromotionCriteria.supernode_uptime c <=? uptime now i) = true) as He by (rewrite !Z.leb_le; lia).
  assert ((PromotionCriteria.supernode_uptime c <=? uptime now i) = true →
          (PromotionCriteria.candidate_uptime c <=? uptime now i) = true) as Hs by (rewrite !Z.leb_le; lia).
  assert ((PromotionCriteria.elite_min_successes c <=? total_successes i) = true →
          (PromotionCriteria.min_successes c <=? total_successes i) = true) as Hm by (rewrite !Z.leb_le; lia).
  revert He Hs Hm.
  generalize (PromotionCriteria.elite_uptime c <=? uptime now i) (PromotionCriteria.supernode_uptime c <=? uptime now i)
    (PromotionCriteria.candidate_uptime c <=? uptime now i) (PromotionCriteria.elite_min_successes c <=? total_successes i)
    (PromotionCriteria.min_successes c <=? total_successes i) (ge (success_rate i) (PromotionCriteria.min_success_rate c))
    (ge (PromotionCriteria.max_avg_latency_ms c) (avg_latency_ms i)).
  intros eu su cu es ms rel fast He Hs Hm.
  destruct eu, su, cu; try (specialize (He eq_refl); discriminate); try (specialize (Hs eq_refl); discriminate);
    destruct es, ms; try (specialize (Hm eq_refl); discriminate);
    destruct rel, fast, x; try done; cbn; split; intros; first [done | lia | split; done | by destruct_and?].
Qed.

(** Every node is filed under its own identifier. *)
Definition keyed (m : t) : Prop := ∀ id i, nodes m !! id = Some i → peer_id i = id.

Lemma set_tier_peer_id now c i : peer_id (set_tier now c i) = peer_id i.
Proof. unfold set_tier. by case_match. Qed.

Lemma set_tier_tier now c i : tier (set_tier now c i) = evaluate_tier now i c.
Proof. unfold set_tier. case_bool_decide as H; [by rewrite H|done]. Qed.

(** The measurements do not change, and they decide the tier. *)
Lemma set_tier_measures now c i now' c' :
  evaluate_tier now' (set_tier now c i) c' = evaluate_tier now' i c'.
Proof. unfold set_tier. by case_match. Qed.

Lemma set_tier_again now c i : set_tier now c (set_tier now c i) = set_tier now c i.
Proof.
  unfold set_tier at 1. rewrite set_tier_measures, set_tier_tier. by rewrite bool_decide_eq_true_2.
Qed.

Lemma ops_keyed now id addr ok lat bytes m :
  keyed m →
  keyed (record_performance now id addr ok lat m) ∧ keyed (record_relay id bytes m) ∧
  keyed (evaluate_all now m).1 ∧ keyed (remove id m).1.
Proof.
  intros Hk. split_and!.
  - intros id' i. simpl. rewrite lookup_insert_Some. intros [[<- <-]|[_ H]]; [|by apply Hk].
    unfold record. destruct (nodes m !! id) as [i|] eqn:Hi; simpl; destruct ok; simpl; try done; by apply Hk.
  - intros id' i. simpl. rewrite lookup_alter_Some. intros [(-> & i0 & Hi & ->)|[_ H]]; [by apply (Hk _ i0)|by apply Hk].
  - intros id' i. simpl. rewrite lookup_fmap, fmap_Some. intros (i0 & Hi & ->).
    rewrite set_tier_peer_id. by apply Hk.
  - intros id' i. simpl. rewrite lookup_delete_Some. intros [_ H]. by apply Hk.
Qed.

Lemma elem_of_changes now m id old new :
  keyed m →
  (id, old, new) ∈ (evaluate_all now m).2 ↔
  ∃ i, nodes m !! id = Some i ∧ tier i = old ∧ evaluate_tier now i (criteria m) = new ∧ old ≠ new.
Proof.
  intros Hk. unfold evaluate_all. simpl. rewrite list_elem_of_omap. split.
  - intros ([id' i] & Hin%elem_of_map_to_list & Hc). simpl in Hc. unfold change in Hc.
    case_bool_decide; [done|]. injection Hc as <- <- <-. rewrite (Hk _ _ Hin). exists i. naive_solver.
  - intros (i & Hi & <- & <- & Hne). exists (id, i). split; [by apply elem_of_map_to_list|].
    simpl. unfold change. rewrite bool_decide_eq_false_2 by naive_solver. by rewrite (Hk _ _ Hi).
Qed.

Lemma omap_all_None {A B} (f : A → option B) l : (∀ x, x ∈ l → f x = None) → omap f l = [].
Proof.
  induction l as [|x l IH]; intros H; [done|]. simpl. rewrite (H x) by constructor.
  apply IH. intros y Hy. apply H. by constructor.
Qed.

(** One evaluation puts every tracked node on the rung its measurements allow:
    it has at least tier [x] exactly when it is not degraded and meets what [x]
    asks for. The reported changes are exactly the nodes whose tier changed, and
    evaluating again at once changes nothing. *)
Lemma evaluate_all_ladder (m : t) (now : Z) :
  keyed m → ladder (criteria m) →
  let '(m', changes) := evaluate_all now m in
  (∀ id, is_Some (nodes m' !! id) ↔ is_Some (nodes m !! id)) ∧
  (∀ id i i' x, nodes m !! id = Some i → nodes m' !! id = Some i' → x ≠ SuperNodeTier.Regular →
     SuperNodeTier.rank x ≤ SuperNodeTier.rank (tier i') ↔
     degraded (criteria m) i = false ∧ qualifies (criteria m) now x i = true) ∧
  (∀ id old new, (id, old, new) ∈ changes ↔
     ∃ i i', nodes m !! id = Some i ∧ nodes m' !! id = Some i' ∧ tier i = old ∧ tier i' = new ∧ old ≠ new) ∧
  evaluate_all now m' = (m', []).
Proof.
  intros Hk Hl. destruct (evaluate_all now m) as [m' changes] eqn:E.
  assert (changes = (evaluate_all now m).2) as Hch by (by rewrite E).
  injection E as <- _. simpl. split_and!.
  - intros id. by rewrite lookup_fmap, fmap_is_Some.
  - intros id i i' x Hi. rewrite lookup_fmap, Hi. intros [= <-] Hx. rewrite set_tier_tier.
    by apply evaluate_tier_ladder.
  - intros id old new. rewrite Hch, elem_of_changes by done. split.
    + intros (i & Hi & <- & <- & Hne). exists i, (set_tier now (criteria m) i).
      by rewrite lookup_fmap, Hi, set_tier_tier.
    + intros (i & i' & Hi & Hi' & <- & <- & Hne). exists i. rewrite lookup_fmap, Hi in Hi'.
      injection Hi' as <-. by rewrite set_tier_tier in Hne |- *.
  - unfold evaluate_all. simpl. f_equal.
    + unfold set_nodes. simpl. f_equal. rewrite <- map_fmap_compose. apply map_fmap_ext. intros id i _.
      apply set_tier_again.
    + apply omap_all_None. intros [id i] Hin%elem_of_map_to_list. simpl.
      rewrite lookup_fmap, fmap_Some in Hin. destruct Hin as (i0 & _ & ->).
      unfold change. by rewrite set_tier_measures, set_tier_tier, bool_decide_eq_true_2.
Qed.

(** ** Pruning *)
Definition regular_of (m : t) (id : PeerId.t) (n : Z) : Prop :=
  ∃ i, nodes m !! id = Some i ∧ tier i = SuperNodeTier.Regular ∧ total_successes i = n.

#[local] Instance fewer_total : Total fewer.
Proof. intros a b. unfold fewer. lia. Qed.
#[local] Instance fewer_trans : Transitive fewer.
Proof. intros a b c. unfold fewer. lia. Qed.

Lemma elem_of_regulars m id n : (id, n) ∈ regulars m ↔ regular_of m id n.
Proof.
  unfold regulars. rewrite merge_sort_Permutation, list_elem_of_fmap. split.
  - intros ([id' i] & [= -> ->] & Hin). rewrite list_elem_of_In, filter_In, <- list_elem_of_In in Hin.
    destruct Hin as [Hin%elem_of_map_to_list Ht%bool_decide_eq_true]. by exists i.
  - intros (i & Hi & Ht & <-). exists (id, i). split; [done|].
    rewrite list_elem_of_In, filter_In, <- list_elem_of_In. split; [by apply elem_of_map_to_list|].
    by apply bool_decide_eq_true.
Qed.

Lemma NoDup_regulars m : NoDup (regulars m).*1.
Proof.
  unfold regulars. rewrite merge_sort_Permutation.
  pose proof (NoDup_fst_map_to_list (nodes m)) as Hnd. induction (map_to_list (nodes m)) as [|[id i] l IH]; [constructor|].
  rewrite fmap_cons in Hnd. apply NoDup_cons in Hnd as [Hni Hnd]. cbn [List.filter]. case_match; [|by apply IH].
  cbn [map]. rewrite fmap_cons. constructor; [|by apply IH]. cbn [fst]. contradict Hni.
  apply list_elem_of_fmap in Hni as ([id' n] & -> & Hin). apply list_elem_of_fmap in Hin as ([id2 i2] & [= -> ->] & Hin).
  rewrite list_elem_of_In, filter_In, <- list_elem_of_In in Hin. apply list_elem_of_fmap. exists (id2, i2). naive_solver.
Qed.

Lemma fold_prune_lookup (ps : list (PeerId.t * Z)) (n : gmap PeerId.t SuperNodeInfo.t) id :
  fold_left (λ n p, delete p.1 n) ps n !! id = if decide (id ∈ ps.*1) then None else n !! id.
Proof.
  revert n. induction ps as [|p ps IH]; intros n; [done|].
  cbn [fold_left]. rewrite fmap_cons, IH. destruct (decide (id ∈ ps.*1)).
  - by rewrite decide_True by (by constructor).
  - destruct (decide (id = p.1)) as [->|Hne].
    + rewrite lookup_delete_eq. by rewrite decide_True by constructor.
    + rewrite lookup_delete_ne by done. rewrite decide_False; [done|]. by intros [?|?]%elem_of_cons.
Qed.

Lemma fold_prune_size (ps : list (PeerId.t * Z)) (n : gmap PeerId.t SuperNodeInfo.t) :
  NoDup ps.*1 → (∀ id, id ∈ ps.*1 → is_Some (n !! id)) →
  (size (fold_left (λ n p, delete p.1 n) ps n) + length ps = size n)%nat.
Proof.
  revert n. induction ps as [|p ps IH]; intros n Hnd Hin; [simpl; lia|].
  rewrite fmap_cons in Hnd, Hin. apply NoDup_cons in Hnd as [Hni Hnd]. cbn [fold_left length].
  destruct (Hin p.1 ltac:(constructor)) as [i Hi].
  pose proof (map_size_delete_Some p.1 n (mk_is_Some _ _ Hi)) as Hsz.
  assert (size n ≠ 0)%nat by (apply map_size_non_empty_iff; intros ->; by rewrite lookup_empty in Hi).
  rewrite <- (IH (delete p.1 n)) in Hsz; [lia|done|].
  intros id Hid. rewrite lookup_delete_ne by (by intros <-). apply Hin. by constructor.
Qed.

(** Pruning removes regular nodes only, as many as the tracker is over its
    capacity or all of them, the ones with the fewest successes first, and keeps
    everything else; afterwards the tracker is within its capacity or has no
    regular node left. *)
Lemma prune_correct (m m' : t) (n : nat) :
  prune m = (m', n) →
  nodes m' ⊆ nodes m ∧ (size (nodes m') + n = size (nodes m))%nat ∧
  ((size (nodes m') ≤ max_tracked m)%nat ∨ ∀ id k, ~ regular_of m' id k) ∧
  (size (nodes m) ≤ max_tracked m ∨ max_tracked m ≤ size (nodes m'))%nat ∧
  (∀ id i, nodes m !! id = Some i → nodes m' !! id = None →
     regular_of m id (total_successes i) ∧
     ∀ id' k, regular_of m' id' k → total_successes i ≤ k).
Proof.
  unfold prune. destruct (Nat.leb_spec (size (nodes m)) (max_tracked m)) as [Hle|Hgt].
  { intros [= <- <-]. split_and!; [done|lia|by left|by left|]. intros id i Hi Hn. congruence. }
  set (rs := regulars m). set (k := Nat.min (length rs) (size (nodes m) - max_tracked m)). intros [= <- <-].
  assert (∀ id, id ∈ (take k rs).*1 → ∃ j, regular_of m id j ∧ (id, j) ∈ take k rs) as Htk.
  { intros id ([id' j] & -> & Hin)%list_elem_of_fmap. exists j. split; [|done].
    apply elem_of_regulars. rewrite <- (take_drop k (regulars m)). apply elem_of_app. by left. }
  assert (NoDup (take k rs).*1 ∧ NoDup rs.*1) as [Hndt Hnd].
  { pose proof (NoDup_regulars m) as H. split; [|done].
    unfold rs. rewrite <- (take_drop k (regulars m)), fmap_app in H. by apply NoDup_app in H as [? _]. }
  assert (size (fold_left (λ n p, delete p.1 n) (take k rs) (nodes m)) + k = size (nodes m))%nat as Hsz.
  { rewrite <- (fold_prune_size (take k rs) (nodes m)), length_take; [lia|done|].
    intros id Hid. destruct (Htk id Hid) as (j & (i & Hi & _) & _). by eexists. }
  assert (∀ id j, regular_of (set_nodes (fold_left (λ n p, delete p.1 n) (take k rs) (nodes m)) m) id j →
                  (id, j) ∈ drop k rs) as Hdrop.
  { intros id j (i & Hi & Ht & Hj). simpl in Hi. rewrite fold_prune_lookup in Hi. case_decide as Hin; [done|].
    assert ((id, j) ∈ rs) as Hrs by (apply elem_of_regulars; by exists i).
    rewrite <- (take_drop k rs) in Hrs. apply elem_of_app in Hrs as [Hrs|]; [|done].
    destruct Hin. apply list_elem_of_fmap. by exists (id, j). }
  cbn [nodes set_nodes]. split_and!.
  - apply map_subseteq_spec. intros id i. rewrite fold_prune_lookup. by case_decide.
  - done.
  - destruct (decide (length rs ≤ size (nodes m) - max_tracked m)%nat) as [Hall|Hall].
    + right. intros id j Hr%Hdrop. rewrite drop_ge in Hr by lia. by apply elem_of_nil in Hr.
    + left. lia.
  - right. lia.
  - intros id i Hi Hn. rewrite fold_prune_lookup in Hn. case_decide as Hin; [|congruence].
    destruct (Htk id Hin) as (j & (i' & Hi' & Ht & Hj) & Hjin).
    assert (i' = i) as -> by congruence. split; [by exists i|]. intros id' j' Hr%Hdrop.
    assert (StronglySorted fewer rs) as Hs by (apply StronglySorted_merge_sort; apply _).
    rewrite <- (take_drop k rs) in Hs. rewrite Hj.
    exact (StronglySorted_app_1_elem_of _ _ _ _ _ Hs Hjin Hr).
Qed.
End SuperNodeLaws.

Module SuperNodeWitness.
Import SuperNodeInfo SuperNodeManager SuperNodeLaws.

Definition pid (n : Z) : PeerId.t := replicate 32 n.
Definition here : SocketAddr.t := SocketAddr.V4 [10; 0; 0; 1] 1.

(** A node with 200 successes in its first day, and one that has just been seen. *)
Definition veteran : SuperNodeInfo.t :=
  SuperNodeInfo.mk (pid 1) here SuperNodeTier.Regular None 0 200 2 (F64.of_Z 30) 0 0.
Definition novice : SuperNodeInfo.t := SuperNodeInfo.new 0 (pid 2) here.
Definition tracker (cap : nat) : t :=
  SuperNodeManager.mk PromotionCriteria.default (<[pid 1 := veteran]> {[pid 2 := novice]}) cap.

Lemma tracker_keyed cap : keyed (tracker cap).
Proof.
  intros id i. cbn [nodes tracker]. rewrite lookup_insert_Some, lookup_singleton_Some. naive_solver.
Qed.

Lemma evaluate_all_ladder_witness :
  let now := PromotionCriteria.secs (5 * 3600) in
  let '(m', changes) := evaluate_all now (tracker 9) in
  (pid 1, SuperNodeTier.Regular, SuperNodeTier.SuperNode) ∈ changes ∧ evaluate_all now m' = (m', []).
Proof.
  assert ((evaluate_all (PromotionCriteria.secs (5 * 3600)) (tracker 9)).2 =
          [(pid 1, SuperNodeTier.Regular, SuperNodeTier.SuperNode)]) as Hx by (by vm_compute).
  pose proof (evaluate_all_ladder (tracker 9) (PromotionCriteria.secs (5 * 3600)) (tracker_keyed 9) default_ladder) as H.
  cbv zeta. destruct (evaluate_all _ (tracker 9)) as [m' changes]. destruct H as (_ & _ & _ & Hi).
  split; [|exact Hi]. cbn [snd] in Hx. rewrite Hx. constructor.
Defined.

Lemma prune_correct_witness :
  ∃ m', prune (tracker 1) = (m', 1%nat) ∧ nodes m' ⊆ nodes (tracker 1) ∧ (size (nodes m') + 1 = 2)%nat.
Proof.
  destruct (prune (tracker 1)) as [m' n] eqn:E. destruct (prune_correct _ _ _ E) as (Hs & Hz & _).
  assert (n = 1%nat) as -> by (apply (f_equal snd) in E; vm_compute in E; congruence).
  exists m'. split_and!; [done|exact Hs|]. rewrite Hz. by vm_compute.
Defined.
End SuperNodeWitness.
