(* ===== verification/Stun.v ===== *)
(** ceky-nat: stun.rs, detection.rs and hole_punch.rs. The STUN binding exchange,
    the classification of the NAT and the rounds of a hole punch. A socket is what
    it delivers: the datagram that answers a request, or none before the timeout. *)
From S2P Require Import Prelude Bytes DhtMsg.

Local Open Scope Z_scope.

(** ceky-nat/src/lib.rs, without the free texts *)
Module NatError.
Inductive t : Set :=
| StunFailed | StunTimeout (timeout_ms : Z) | HolePunchFailed | RelayRefused | SymmetricNat
| NoStunServers | Io.
End NatError.

Module Stun.
Definition MAGIC_COOKIE : Z := 0x2112A442.
Definition BINDING_REQUEST : Z := 0x0001.
Definition BINDING_RESPONSE : Z := 0x0101.
Definition ATTR_MAPPED_ADDRESS : Z := 0x0001.
Definition ATTR_XOR_MAPPED_ADDRESS : Z := 0x0020.
Definition STUN_HEADER_SIZE : Z := 20.
Definition MAX_RESPONSE_SIZE : nat := 576.

Abbreviation nresult := (result NatError.t).

(** [seed] is the time since the epoch in nanoseconds, a [u128]. *)
Definition generate_transaction_id (seed : Z) : bytes :=
  map (λ i, Z.land (Z.shiftr seed (Z.of_nat i * 8)) 0xFF) (seq 0 12).

Definition build_binding_request (txn_id : bytes) : bytes :=
  be_bytes 2 BINDING_REQUEST ++ be_bytes 2 0 ++ be_bytes 4 MAGIC_COOKIE ++ txn_id.

(** [u16::from_be_bytes([data[i], data[i + 1]])] *)
Definition u16_at {E} (i : Z) (data : bytes) : result E Z :=
  a ← index i data; b ← index (i + 1) data; mret (of_be [a; b]).

Definition parse_mapped_address (data : bytes) : nresult SocketAddr.t :=
  if blen data <? 8 then Err NatError.StunFailed
  else
    family ← index 1 data;
    port ← u16_at 2 data;
    if family =? 0x01 then
      a ← index 4 data; b ← index 5 data; c ← index 6 data; d ← index 7 data;
      mret (SocketAddr.V4 [a; b; c; d] port)
    else Err NatError.StunFailed.

Definition parse_xor_mapped_address (data : bytes) : nresult SocketAddr.t :=
  if blen data <? 8 then Err NatError.StunFailed
  else
    family ← index 1 data;
    xor_port ← u16_at 2 data;
    let port := Z.lxor xor_port (wrap 16 (Z.shiftr MAGIC_COOKIE 16)) in
    if family =? 0x01 then
      let cookie_bytes := be_bytes 4 MAGIC_COOKIE in
      k0 ← index 0 cookie_bytes; k1 ← index 1 cookie_bytes;
      k2 ← index 2 cookie_bytes; k3 ← index 3 cookie_bytes;
      a ← index 4 data; b ← index 5 data; c ← index 6 data; d ← index 7 data;
      mret (SocketAddr.V4 [Z.lxor a k0; Z.lxor b k1; Z.lxor c k2; Z.lxor d k3] port)
    else Err NatError.StunFailed.

(** The [while] loop over the attributes. Every turn moves [offset] on by at least
    four bytes; running out of [fuel] is answered with [Panic], so that the
    theorems show that it does not happen. *)
Fixpoint parse_attributes (fuel : nat) (data : bytes) (offset e : Z) : nresult SocketAddr.t :=
  match fuel with
  | O => Panic
  | S fuel =>
      if offset + 4 <=? e then
        attr_type ← u16_at offset data;
        attr_len ← u16_at (offset + 2) data;
        let offset := offset + 4 in
        if e <? offset + attr_len then Err NatError.StunFailed
        else if attr_type =? ATTR_XOR_MAPPED_ADDRESS then
          a ← slice offset (offset + attr_len) data; parse_xor_mapped_address a
        else if attr_type =? ATTR_MAPPED_ADDRESS then
          a ← slice offset (offset + attr_len) data; parse_mapped_address a
        else parse_attributes fuel data (offset + Z.land (attr_len + 3) (Z.lnot 3)) e
      else Err NatError.StunFailed
  end.

Definition parse_binding_response (data expected_txn_id : bytes) : nresult SocketAddr.t :=
  if blen data <? STUN_HEADER_SIZE then Err NatError.StunFailed
  else
    msg_type ← u16_at 0 data;
    if negb (msg_type =? BINDING_RESPONSE) then Err NatError.StunFailed
    else
      c0 ← index 4 data; c1 ← index 5 data; c2 ← index 6 data; c3 ← index 7 data;
      if negb (of_be [c0; c1; c2; c3] =? MAGIC_COOKIE) then Err NatError.StunFailed
      else
        txn ← slice 8 20 data;
        if negb (bytes_eqb txn expected_txn_id) then Err NatError.StunFailed
        else
          msg_len ← u16_at 2 data;
          if blen data <? STUN_HEADER_SIZE + msg_len then Err NatError.StunFailed
          else
            parse_attributes (S (length data)) data STUN_HEADER_SIZE (STUN_HEADER_SIZE + msg_len).
End Stun.

Module StunResult.
Record t : Set := mk { mapped_addr : SocketAddr.t; server_addr : SocketAddr.t }.
End StunResult.

Module StunClient.
Record t : Set := mk { servers : list SocketAddr.t; timeout : Z }.

Definition default_stun_servers : list SocketAddr.t :=
  [SocketAddr.V4 [74; 125; 250; 129] 19302; SocketAddr.V4 [64; 233; 163; 127] 19302].

Definition new : t := mk default_stun_servers 3000.
Definition with_servers (servers : list SocketAddr.t) : t := mk servers 3000.
Definition with_timeout (timeout : Z) (c : t) : t := mk (servers c) timeout.

(** [sent] says whether the request could be sent; [received] is what [recv_from]
    gives before the timeout, if anything: a datagram, cut to the buffer, and its
    sender, or an error of the socket. *)
Definition probe (c : t) (txn_id : bytes) (sent : bool) (received : option (result unit (bytes * SocketAddr.t)))
    : result NatError.t StunResult.t :=
  if negb sent then Err NatError.Io
  else
    match received with
    | None => Err (NatError.StunTimeout (timeout c))
    | Some (Err _) => Err NatError.Io
    | Some Panic => Panic
    | Some (Ok (datagram, from)) =>
        mapped_addr ← Stun.parse_binding_response (take Stun.MAX_RESPONSE_SIZE datagram) txn_id;
        mret (StunResult.mk mapped_addr from)
    end.

(** The servers in turn until one answers; [ask] is what [probe] gives for each. *)
Fixpoint try_servers (ask : SocketAddr.t → result NatError.t StunResult.t) (servers : list SocketAddr.t)
    : result NatError.t StunResult.t :=
  match servers with
  | [] => Err NatError.StunFailed
  | server :: rest =>
      match ask server with
      | Ok r => Ok r
      | Err _ => try_servers ask rest
      | Panic => Panic
      end
  end.

Definition discover (ask : SocketAddr.t → result NatError.t StunResult.t) (c : t)
    : result NatError.t StunResult.t :=
  if bool_decide (servers c = []) then Err NatError.NoStunServers else try_servers ask (servers c).
End StunClient.

(** ** detection.rs *)
Module NatType.
Inductive t : Set := NoNat | FullCone | Restricted | PortRestricted | Symmetric | Unknown.

#[global] Instance t_eq_dec : EqDecision t.
Proof. solve_decision. Defined.

Definition supports_hole_punch (x : t) : bool :=
  match x with NoNat | FullCone | Restricted | PortRestricted => true | _ => false end.
End NatType.

Module NatInfo.
Record t : Set := mk {
  nat_type : NatType.t; external_addr : option SocketAddr.t; local_addr : SocketAddr.t;
  hole_punch_capable : bool
}.
End NatInfo.

Module NatDetector.
(** [addr.ip()] *)
Definition ip (a : SocketAddr.t) : bool * bytes :=
  match a with SocketAddr.V4 ip _ => (false, ip) | SocketAddr.V6 ip _ _ _ => (true, ip) end.

Definition detect (local_addr : SocketAddr.t) (result1 : result NatError.t StunResult.t)
    : result NatError.t NatInfo.t :=
  match result1 with
  | Ok stun_result =>
      let mapped := StunResult.mapped_addr stun_result in
      if bool_decide (ip mapped = ip local_addr) && (SocketAddr.port mapped =? SocketAddr.port local_addr)
      then Ok (NatInfo.mk NatType.NoNat (Some mapped) local_addr true)
      else
        let nat_type := NatType.Restricted in
        Ok (NatInfo.mk nat_type (Some mapped) local_addr (NatType.supports_hole_punch nat_type))
  | Err _ => Ok (NatInfo.mk NatType.Unknown None local_addr false)
  | Panic => Panic
  end.

Definition classify (local_addr : SocketAddr.t) (probe1 : StunResult.t) (probe2 : option StunResult.t)
    : NatType.t :=
  let m1 := StunResult.mapped_addr probe1 in
  if bool_decide (ip m1 = ip local_addr) then NatType.NoNat
  else
    match probe2 with
    | Some p2 =>
        let m2 := StunResult.mapped_addr p2 in
        if bool_decide (m1 = m2) then NatType.Restricted
        else if bool_decide (ip m1 = ip m2) && negb (SocketAddr.port m1 =? SocketAddr.port m2)
        then NatType.PortRestricted
        else NatType.Symmetric
    | None => NatType.Restricted
    end.
End NatDetector.

(** ** hole_punch.rs *)
Module HolePunchConfig.
Record t : Set := mk {
  packets_per_round : nat; packet_interval : Z; max_rounds : nat; round_timeout : Z; magic : bytes
}.
Definition default : t := mk 3 50 10 500 [67; 69; 75; 89].   (* "CEKY" *)
End HolePunchConfig.

Module HolePunchResult.
Record t : Set := mk { peer_addr : SocketAddr.t; duration : Z; rounds : nat }.
End HolePunchResult.

Module HolePuncher.
Record t : Set := mk { config : HolePunchConfig.t }.

Definition new : t := mk HolePunchConfig.default.
Definition with_config (config : HolePunchConfig.t) : t := mk config.

Definition build_punch_packet (p : t) (round seq : Z) : bytes :=
  HolePunchConfig.magic (config p) ++ be_bytes 4 round ++ be_bytes 4 seq.

Definition is_punch_packet (p : t) (data : bytes) : bool :=
  (4 <=? blen data) && bytes_eqb (take 4 data) (HolePunchConfig.magic (config p)).

(** The packets of one round. *)
Definition round_packets (p : t) (round : nat) : list bytes :=
  map (λ i, build_punch_packet p (wrap 32 (Z.of_nat round)) (wrap 32 (Z.of_nat i)))
    (seq 0 (HolePunchConfig.packets_per_round (config p))).

(** The [fuel] rounds from [round] on: [received] is what arrives in a round before its
    timeout, [elapsed] the time since the start; the packets sent come first. *)
Fixpoint punch_rounds (p : t) (received : nat → option (bytes * SocketAddr.t)) (elapsed : nat → Z)
    (fuel round : nat) : list bytes * result NatError.t HolePunchResult.t :=
  match fuel with
  | O => ([], Err NatError.HolePunchFailed)
  | S fuel =>
      let '(more, r) :=
        match received round with
        | Some (datagram, from) =>
            let buf := take 64 datagram in
            if (4 <=? blen buf) && bytes_eqb (take 4 buf) (HolePunchConfig.magic (config p))
            then ([], Ok (HolePunchResult.mk from (elapsed round) (S round)))
            else punch_rounds p received elapsed fuel (S round)
        | None => punch_rounds p received elapsed fuel (S round)
        end in
      (round_packets p round ++ more, r)
  end.

Definition punch (p : t) (received : nat → option (bytes * SocketAddr.t)) (elapsed : nat → Z)
    : list bytes * result NatError.t HolePunchResult.t :=
  punch_rounds p received elapsed (HolePunchConfig.max_rounds (config p)) 0.
End HolePuncher.

(** ** Laws *)
Module StunLaws.
Import Stun.

Lemma index_in {E} i b : 0 ≤ i < blen b → ∃ x, index (E:=E) i b = Ok x ∧ x ∈ b.
Proof.
  intros Hi. unfold index. destruct (b !! Z.to_nat i) as [x|] eqn:Hx.
  - exists x. split; [done|]. by eapply list_elem_of_lookup_2.
  - apply lookup_ge_None in Hx. unfold blen in Hi. lia.
Qed.

Lemma u16_at_in {E} i b :
  bytes_wf b → 0 ≤ i → i + 1 < blen b → ∃ v, u16_at (E:=E) i b = Ok v ∧ is_u16 v.
Proof.
  intros Hb Hi Hlt. unfold u16_at. rewrite Forall_forall in Hb.
  destruct (index_in (E:=E) i b) as (x & -> & Hx); [lia|].
  destruct (index_in (E:=E) (i + 1) b) as (y & Hy & Hyb); [lia|]. simpl. rewrite Hy. simpl.
  eexists. split; [done|]. apply (of_be_range [x; y]). repeat constructor; by apply Hb.
Qed.

Lemma index_app_r {E} i a b : 0 ≤ i → index (E:=E) (blen a + i) (a ++ b) = index i b.
Proof.
  intros Hi. unfold index, blen. rewrite lookup_app_r by lia.
  by replace (Z.to_nat (Z.of_nat (length a) + i) - length a)%nat with (Z.to_nat i) by lia.
Qed.

Lemma u16_at_app {E} a v b :
  is_u16 v → u16_at (E:=E) (blen a) (a ++ be_bytes 2 v ++ b) = Ok v.
Proof.
  intros Hv. unfold u16_at. replace (blen a) with (blen a + 0) at 1 by lia.
  rewrite !index_app_r by lia. unfold index.
  pose proof (length_be_bytes 2 v) as Hl. pose proof (of_be_be_bytes 2 v Hv) as Hb.
  destruct (be_bytes 2 v) as [|x [|y [|? ?]]]; simpl in Hl; try lia. simpl. by rewrite Hb.
Qed.

(** Rounding up to a multiple of four. *)
Lemma pad_four x : Z.land x (Z.lnot 3) = 4 * (x / 4).
Proof.
  rewrite <- Z.ldiff_land. change 3 with (Z.ones 2).
  rewrite Z.ldiff_ones_r, Z.shiftl_mul_pow2, Z.shiftr_div_pow2 by lia.
  change (2 ^ 2) with 4. lia.
Qed.

Lemma pad_four_bounds n : 0 ≤ n → n ≤ Z.land (n + 3) (Z.lnot 3) < n + 4.
Proof.
  intros Hn. rewrite pad_four. pose proof (Z.div_mod (n + 3) 4 ltac:(lia)).
  pose proof (Z.mod_pos_bound (n + 3) 4 ltac:(lia)). lia.
Qed.

(** Addresses read from an attribute. *)
Definition is_v4 (a : SocketAddr.t) : Prop := SocketAddr.wf a ∧ ∃ ip port, a = SocketAddr.V4 ip port.

Lemma parse_mapped_ok b :
  bytes_wf b → parse_mapped_address b ≠ Panic ∧ ∀ a, parse_mapped_address b = Ok a → is_v4 a.
Proof.
  intros Hb. unfold parse_mapped_address. destruct (Z.ltb_spec (blen b) 8); [done|].
  destruct (u16_at_in (E:=NatError.t) 2 b Hb) as (p & Hp & Hpr); [lia..|].
  destruct (index_in (E:=NatError.t) 1 b) as (f & Hf & _); [lia|].
  destruct (index_in (E:=NatError.t) 4 b) as (x4 & H4 & I4); [lia|].
  destruct (index_in (E:=NatError.t) 5 b) as (x5 & H5 & I5); [lia|].
  destruct (index_in (E:=NatError.t) 6 b) as (x6 & H6 & I6); [lia|].
  destruct (index_in (E:=NatError.t) 7 b) as (x7 & H7 & I7); [lia|].
  rewrite Hf, Hp, H4, H5, H6, H7. simpl. case_match; [|done]. split; [done|]. intros a [= <-].
  rewrite Forall_forall in Hb. split; [|by eexists _, _]. split; [done|]. split; [repeat constructor; by apply Hb|done].
Qed.

Lemma cookie_index {E} i : 0 ≤ i < 4 → ∃ x, index (E:=E) i (be_bytes 4 MAGIC_COOKIE) = Ok x ∧ is_u8 x.
Proof.
  intros Hi. destruct (index_in (E:=E) i (be_bytes 4 MAGIC_COOKIE)) as (x & Hx & Hin); [done|].
  exists x. split; [done|]. by apply (proj1 (Forall_forall _ _) (be_bytes_wf 4 MAGIC_COOKIE)).
Qed.

Lemma parse_xor_ok b :
  bytes_wf b → parse_xor_mapped_address b ≠ Panic ∧ ∀ a, parse_xor_mapped_address b = Ok a → is_v4 a.
Proof.
  intros Hb. unfold parse_xor_mapped_address. destruct (Z.ltb_spec (blen b) 8); [done|].
  destruct (u16_at_in (E:=NatError.t) 2 b Hb) as (p & Hp & Hpr); [lia..|].
  destruct (index_in (E:=NatError.t) 1 b) as (f & Hf & _); [lia|].
  destruct (index_in (E:=NatError.t) 4 b) as (x4 & H4 & I4); [lia|].
  destruct (index_in (E:=NatError.t) 5 b) as (x5 & H5 & I5); [lia|].
  destruct (index_in (E:=NatError.t) 6 b) as (x6 & H6 & I6); [lia|].
  destruct (index_in (E:=NatError.t) 7 b) as (x7 & H7 & I7); [lia|].
  destruct (cookie_index (E:=NatError.t) 0) as (k0 & K0 & R0); [lia|].
  destruct (cookie_index (E:=NatError.t) 1) as (k1 & K1 & R1); [lia|].
  destruct (cookie_index (E:=NatError.t) 2) as (k2 & K2 & R2); [lia|].
  destruct (cookie_index (E:=NatError.t) 3) as (k3 & K3 & R3); [lia|].
  rewrite Hf, Hp, H4, H5, H6, H7, K0, K1, K2, K3. cbn [mbind result_bind mret result_ret].
  case_match; [|done]. split; [done|]. intros a [= <-].
  rewrite Forall_forall in Hb. split; [|by eexists _, _]. split; [done|]. split.
  - repeat (apply Forall_cons_2; [apply is_uint_lxor; [lia|by apply Hb|done]|]); apply Forall_nil_2.
  - apply is_uint_lxor; [lia|done|]. by vm_compute.
Qed.

Lemma parse_attributes_ok fuel data offset e :
  bytes_wf data → 0 ≤ offset → e ≤ blen data → e - offset < 4 * Z.of_nat fuel → (0 < fuel)%nat →
  parse_attributes fuel data offset e ≠ Panic ∧
  ∀ a, parse_attributes fuel data offset e = Ok a → is_v4 a.
Proof.
  intros Hd. revert offset. induction fuel as [|fuel IH]; intros offset Ho He Hf Hp; [lia|]. cbn [parse_attributes].
  destruct (Z.leb_spec (offset + 4) e) as [Hle|]; [|done].
  destruct (u16_at_in (E:=NatError.t) offset data Hd) as (ty & -> & _); [lia..|].
  destruct (u16_at_in (E:=NatError.t) (offset + 2) data Hd) as (n & Hn & Hnr); [lia..|].
  cbn [mbind result_bind]. rewrite Hn. cbn [mbind result_bind].
  assert (0 ≤ n) as Hn0 by (destruct Hnr; lia).
  destruct (Z.ltb_spec e (offset + 4 + n)) as [|Hin]; [done|].
  rewrite slice_in by lia. cbn [mbind result_bind].
  assert (bytes_wf (take (Z.to_nat (offset + 4 + n - (offset + 4))) (drop (Z.to_nat (offset + 4)) data)))
    as Hs by (by apply Forall_take, Forall_drop).
  destruct (ty =? ATTR_XOR_MAPPED_ADDRESS); [by apply parse_xor_ok|].
  destruct (ty =? ATTR_MAPPED_ADDRESS); [by apply parse_mapped_ok|].
  pose proof (pad_four_bounds n Hn0). apply IH; lia.
Qed.

(** C34: whatever a STUN response contains, parsing it ends, without a panic, in an
    error or in a well-formed IPv4 address; nothing shorter than a header, of another type,
    with another cookie or for another transaction is accepted. *)
Theorem stun_parse_safe (data txn : bytes) :
  bytes_wf data →
  parse_binding_response data txn ≠ Panic ∧
  ∀ a, parse_binding_response data txn = Ok a →
    (∃ ip port, a = SocketAddr.V4 ip port) ∧ SocketAddr.wf a ∧ 20 ≤ blen data ∧
    of_be (take 2 data) = BINDING_RESPONSE ∧ of_be (take 4 (drop 4 data)) = MAGIC_COOKIE ∧
    take 12 (drop 8 data) = txn.
Proof.
  intros Hd. unfold parse_binding_response, STUN_HEADER_SIZE.
  destruct (Z.ltb_spec (blen data) 20) as [|Hlen]; [done|].
  destruct data as [|d0 [|d1 [|d2 [|d3 [|d4 [|d5 [|d6 [|d7 rest]]]]]]]];
    try (unfold blen in Hlen; simpl in Hlen; lia).
  set (data := d0 :: d1 :: d2 :: d3 :: d4 :: d5 :: d6 :: d7 :: rest) in *.
  change (u16_at 0 data) with (Ok (E:=NatError.t) (of_be [d0; d1])).
  change (u16_at 2 data) with (Ok (E:=NatError.t) (of_be [d2; d3])).
  change (index 4 data) with (Ok (E:=NatError.t) d4). change (index 5 data) with (Ok (E:=NatError.t) d5).
  change (index 6 data) with (Ok (E:=NatError.t) d6). change (index 7 data) with (Ok (E:=NatError.t) d7).
  rewrite slice_in by lia. cbn [mbind result_bind].
  destruct (Z.eqb_spec (of_be [d0; d1]) BINDING_RESPONSE) as [Ht|]; cbn [negb]; [|done].
  destruct (Z.eqb_spec (of_be [d4; d5; d6; d7]) MAGIC_COOKIE) as [Hc|]; cbn [negb]; [|done].
  destruct (bytes_eqb _ txn) eqn:Hx; cbn [negb]; [|done]. apply bytes_eqb_spec in Hx.
  assert (is_u16 (of_be [d2; d3])) as [Hm _].
  { apply (of_be_range [d2; d3]). unfold data in Hd. rewrite !Forall_cons in Hd. repeat constructor; apply Hd. }
  destruct (Z.ltb_spec (blen data) (20 + of_be [d2; d3])) as [|Hle]; [done|].
  destruct (parse_attributes_ok (S (length data)) data 20 (20 + of_be [d2; d3]) Hd) as [Hnp Hwf];
    [lia|done|unfold blen in *; lia|lia|].
  split; [done|]. intros a Ha. destruct (Hwf a Ha) as [Hw Hv]. split_and!; [exact Hv|exact Hw|done|exact Ht|exact Hc|exact Hx].
Qed.

(** ** Responses as a server writes them (RFC 5389) *)
Definition attribute (a : Z * bytes) : bytes :=
  be_bytes 2 a.1 ++ be_bytes 2 (blen a.2) ++ a.2 ++
  replicate (Z.to_nat (Z.land (blen a.2 + 3) (Z.lnot 3) - blen a.2)) 0.

(** The family, the port and the address; in the second form the port and the address
    are mixed with the cookie, and an IPv6 address with the transaction too. *)
Definition mapped_address (a : SocketAddr.t) : Z * bytes :=
  (ATTR_MAPPED_ADDRESS,
   match a with
   | SocketAddr.V4 ip port => [0; 1] ++ be_bytes 2 port ++ ip
   | SocketAddr.V6 ip port _ _ => [0; 2] ++ be_bytes 2 port ++ ip
   end).

Definition xor_mapped_address (txn : bytes) (a : SocketAddr.t) : Z * bytes :=
  (ATTR_XOR_MAPPED_ADDRESS,
   match a with
   | SocketAddr.V4 ip port => [0; 1] ++ be_bytes 2 (Z.lxor port 0x2112) ++ zip_with Z.lxor ip (be_bytes 4 MAGIC_COOKIE)
   | SocketAddr.V6 ip port _ _ =>
       [0; 2] ++ be_bytes 2 (Z.lxor port 0x2112) ++ zip_with Z.lxor ip (be_bytes 4 MAGIC_COOKIE ++ txn)
   end).

Definition binding_response (txn body : bytes) : bytes :=
  be_bytes 2 BINDING_RESPONSE ++ be_bytes 2 (blen body) ++ be_bytes 4 MAGIC_COOKIE ++ txn ++ body.

(** An attribute the client does not know. *)
Record unknown (a : Z * bytes) : Prop := {
  uk_type : is_u16 a.1;
  uk_mapped : a.1 ≠ ATTR_MAPPED_ADDRESS;
  uk_xor : a.1 ≠ ATTR_XOR_MAPPED_ADDRESS;
  uk_len : blen a.2 < 2 ^ 16
}.

Lemma blen_attribute a : blen (attribute a) = 4 + Z.land (blen a.2 + 3) (Z.lnot 3).
Proof.
  unfold attribute. rewrite !blen_app, !blen_be_bytes. pose proof (blen_nonneg a.2).
  pose proof (pad_four_bounds (blen a.2) ltac:(lia)). 
  assert (∀ n, blen (replicate n 0) = Z.of_nat n) as -> by (intros; unfold blen; by rewrite length_replicate). lia.
Qed.

(** One turn of the loop reads the type and the length of the attribute there. *)
Lemma parse_attributes_turn fuel pre a tail e :
  is_u16 a.1 → blen a.2 < 2 ^ 16 → blen pre + 4 + blen a.2 ≤ e →
  let data := pre ++ attribute a ++ tail in
  let offset := blen pre + 4 in
  parse_attributes (S fuel) data (blen pre) e =
  (if a.1 =? ATTR_XOR_MAPPED_ADDRESS then parse_xor_mapped_address a.2
   else if a.1 =? ATTR_MAPPED_ADDRESS then parse_mapped_address a.2
   else parse_attributes fuel data (blen pre + blen (attribute a)) e).
Proof.
  intros Ht Hl He data offset. pose proof (blen_nonneg a.2) as Hn.
  assert (u16_at (E:=NatError.t) (blen pre) data = Ok a.1) as H1.
  { unfold data, attribute. rewrite <- app_assoc. by apply u16_at_app. }
  assert (u16_at (E:=NatError.t) (blen pre + 2) data = Ok (blen a.2)) as H2.
  { unfold data, attribute. rewrite <- !app_assoc, (app_assoc pre).
    replace (blen pre + 2) with (blen (pre ++ be_bytes 2 a.1)) by (by rewrite blen_app, blen_be_bytes).
    apply u16_at_app. unfold is_uint. lia. }
  assert (slice (E:=NatError.t) (blen pre + 4) (blen pre + 4 + blen a.2) data = Ok a.2) as H3.
  { unfold data, attribute. rewrite <- !app_assoc, (app_assoc pre), (app_assoc (pre ++ _)).
    apply slice_mid; rewrite !blen_app, !blen_be_bytes; lia. }
  cbn [parse_attributes]. destruct (Z.leb_spec (blen pre + 4) e); [|lia].
  rewrite H1, H2. cbn [mbind result_bind]. destruct (Z.ltb_spec e (blen pre + 4 + blen a.2)); [lia|].
  rewrite H3. cbn [mbind result_bind]. rewrite blen_attribute. by rewrite Z.add_assoc.
Qed.

Lemma parse_attributes_skip us fuel pre tail e :
  Forall unknown us → blen (pre ++ concat (map attribute us)) ≤ e →
  let data := pre ++ concat (map attribute us) ++ tail in
  parse_attributes (length us + fuel) data (blen pre) e =
  parse_attributes fuel data (blen (pre ++ concat (map attribute us))) e.
Proof.
  intros Hus. revert pre. induction Hus as [|a us [Hty Hm Hx Hl] Hus IH]; intros pre He; cbn [map concat length plus].
  { by rewrite app_nil_r. }
  cbn [map concat] in He. rewrite (app_assoc pre) in He.
  pose proof (blen_nonneg (concat (map attribute us))). pose proof (blen_nonneg a.2).
  pose proof (pad_four_bounds (blen a.2) ltac:(lia)).
  assert (blen pre + blen (attribute a) ≤ e) by (rewrite !blen_app in He; lia).
  rewrite <- app_assoc, parse_attributes_turn; [|done|done|rewrite blen_attribute in *; lia].
  destruct (Z.eqb_spec a.1 ATTR_XOR_MAPPED_ADDRESS); [done|]. destruct (Z.eqb_spec a.1 ATTR_MAPPED_ADDRESS); [done|].
  rewrite (app_assoc pre), <- blen_app. rewrite IH by done. by rewrite <- !app_assoc.
Qed.

Lemma lxor_cancel a b : Z.lxor (Z.lxor a b) b = a.
Proof. by rewrite Z.lxor_assoc, Z.lxor_nilpotent, Z.lxor_0_r. Qed.

(** What the client makes of such an attribute: it knows IPv4 only. *)
Definition understood (a : SocketAddr.t) : nresult SocketAddr.t :=
  match a with SocketAddr.V4 _ _ => Ok a | SocketAddr.V6 _ _ _ _ => Err NatError.StunFailed end.

Lemma unknown_family (p rest : bytes) :
  length p = 2%nat → 4 ≤ blen rest →
  parse_mapped_address ([0; 2] ++ p ++ rest) = Err NatError.StunFailed ∧
  parse_xor_mapped_address ([0; 2] ++ p ++ rest) = Err NatError.StunFailed.
Proof.
  intros Hp Hr. destruct p as [|p0 [|p1 [|]]]; simpl in Hp; try lia. unfold parse_mapped_address, parse_xor_mapped_address.
  rewrite !blen_app. change (blen [0; 2]) with 2. change (blen [p0; p1]) with 2.
  destruct (Z.ltb_spec (2 + (2 + blen rest)) 8); [lia|]. done.
Qed.

Lemma parse_v4_attribute txn (xor : bool) ip port :
  SocketAddr.wf (SocketAddr.V4 ip port) →
  let a := if xor then xor_mapped_address txn (SocketAddr.V4 ip port) else mapped_address (SocketAddr.V4 ip port) in
  (if a.1 =? ATTR_XOR_MAPPED_ADDRESS then parse_xor_mapped_address a.2 else parse_mapped_address a.2) =
    Ok (SocketAddr.V4 ip port) ∧ blen a.2 = 8.
Proof.
  intros (Hl & Hip & Hp). unfold blen in Hl.
  destruct ip as [|a [|b [|c [|d [|]]]]]; simpl in Hl; try lia. clear Hl.
  destruct xor; cbn [fst snd xor_mapped_address mapped_address].
  - assert (is_u16 (Z.lxor port 0x2112)) as Hx by (apply is_uint_lxor; [lia|done|by vm_compute]).
    pose proof (length_be_bytes 2 (Z.lxor port 0x2112)) as Hb. pose proof (of_be_be_bytes 2 _ Hx) as Hv.
    destruct (be_bytes 2 (Z.lxor port 0x2112)) as [|p0 [|p1 [|]]]; simpl in Hb; try lia.
    split; [|done]. change (be_bytes 4 MAGIC_COOKIE) with [0x21; 0x12; 0xA4; 0x42].
    transitivity (Ok (E:=NatError.t) (SocketAddr.V4
      [Z.lxor (Z.lxor a 0x21) 0x21; Z.lxor (Z.lxor b 0x12) 0x12; Z.lxor (Z.lxor c 0xA4) 0xA4;
       Z.lxor (Z.lxor d 0x42) 0x42] (Z.lxor (of_be [p0; p1]) 0x2112))); [reflexivity|].
    by rewrite Hv, !lxor_cancel.
  - pose proof (length_be_bytes 2 port) as Hb. pose proof (of_be_be_bytes 2 _ Hp) as Hv.
    destruct (be_bytes 2 port) as [|p0 [|p1 [|]]]; simpl in Hb; try lia. split; [|done].
    transitivity (Ok (E:=NatError.t) (SocketAddr.V4 [a; b; c; d] (of_be [p0; p1]))); [reflexivity|]. by rewrite Hv.
Qed.

Lemma parse_address_attribute txn (xor : bool) addr :
  blen txn = 12 → SocketAddr.wf addr →
  let a := if xor then xor_mapped_address txn addr else mapped_address addr in
  (if a.1 =? ATTR_XOR_MAPPED_ADDRESS then parse_xor_mapped_address a.2 else parse_mapped_address a.2) = understood addr ∧
  blen a.2 ≤ 20 ∧ is_u16 a.1 ∧ (a.1 = ATTR_XOR_MAPPED_ADDRESS ∨ a.1 = ATTR_MAPPED_ADDRESS).
Proof.
  intros Ht Hwf. assert (∀ x y : Z * bytes, x.1 = ATTR_XOR_MAPPED_ADDRESS → y.1 = ATTR_MAPPED_ADDRESS →
    is_u16 (if xor then x else y).1 ∧ ((if xor then x else y).1 = ATTR_XOR_MAPPED_ADDRESS ∨ (if xor then x else y).1 = ATTR_MAPPED_ADDRESS)) as Hty.
  { intros x y Hx Hy. destruct xor; rewrite ?Hx, ?Hy; (split; [by vm_compute|auto]). }
  specialize (Hty (xor_mapped_address txn addr) (mapped_address addr) eq_refl eq_refl).
  destruct addr as [ip port|ip port fl sc]; cbn [understood].
  - destruct (parse_v4_attribute txn xor ip port Hwf) as [H1 H2]. split_and!; [done|lia|apply Hty..].
  - destruct Hwf as (Hl & _). destruct xor; cbn [fst snd xor_mapped_address mapped_address] in *.
    + assert (blen (zip_with Z.lxor ip (be_bytes 4 MAGIC_COOKIE ++ txn)) = 16) as Hz.
      { unfold blen in *. rewrite length_zip_with, length_app, length_be_bytes. lia. }
      split_and!; [apply unknown_family; [apply length_be_bytes|lia]| |apply Hty..].
      rewrite !blen_app, blen_be_bytes, Hz. by vm_compute.
    + split_and!; [apply unknown_family; [apply length_be_bytes|lia]| |apply Hty..].
      rewrite !blen_app, blen_be_bytes, Hl. by vm_compute.
Qed.

Lemma response_header txn body :
  blen txn = 12 → is_u16 (blen body) →
  parse_binding_response (binding_response txn body) txn =
  parse_attributes (S (length (binding_response txn body))) (binding_response txn body) 20 (20 + blen body).
Proof.
  intros Htxn Hb. set (data := binding_response txn body).
  assert (blen data = 20 + blen body) as Hlen
    by (unfold data, binding_response; rewrite !blen_app, !blen_be_bytes; lia).
  assert (slice (E:=NatError.t) 8 20 data = Ok txn) as Hs.
  { unfold data, binding_response. rewrite 2!app_assoc.
    apply slice_mid; rewrite !blen_app, !blen_be_bytes; lia. }
  assert (u16_at (E:=NatError.t) 2 data = Ok (blen body)) as H2.
  { exact (u16_at_app (be_bytes 2 BINDING_RESPONSE) (blen body) _ Hb). }
  unfold parse_binding_response, STUN_HEADER_SIZE. rewrite Hs, H2, Hlen. cbn [mbind result_bind].
  pose proof (length_be_bytes 2 (blen body)) as Hl. pose proof (blen_nonneg body).
  destruct (Z.ltb_spec (20 + blen body) 20); [lia|].
  unfold bytes_eqb. rewrite bool_decide_eq_true_2 by done. cbn [negb].
  destruct (Z.ltb_spec (20 + blen body) (20 + blen body)); [lia|].
  generalize (parse_attributes (S (length data)) data 20 (20 + blen body)). intros r.
  unfold data, binding_response. destruct (be_bytes 2 (blen body)) as [|x [|y [|]]]; simpl in Hl; try lia. reflexivity.
Qed.

(** C33: the address in a server's response, of a body that fits its 16-bit length
    field, is found: whatever attributes the
    client does not know come first, and whatever follows, the IPv4 address and port
    in MAPPED-ADDRESS or XOR-MAPPED-ADDRESS are returned; an IPv6 address there is
    answered with the error [StunFailed]. *)
Theorem stun_response_parsed (txn : bytes) (us : list (Z * bytes)) (xor : bool) (addr : SocketAddr.t) (rest : bytes) :
  blen txn = 12 → Forall unknown us → SocketAddr.wf addr →
  let body := concat (map attribute us) ++
    attribute (if xor then xor_mapped_address txn addr else mapped_address addr) ++ rest in
  blen body < 2 ^ 16 →
  parse_binding_response (binding_response txn body) txn =
  match addr with
  | SocketAddr.V4 ip port => Ok (SocketAddr.V4 ip port)
  | SocketAddr.V6 _ _ _ _ => Err NatError.StunFailed
  end.
Proof.
  intros Htxn Hus Hwf body Hbody. set (a := if xor then _ else _) in body.
  destruct (parse_address_attribute txn xor addr Htxn Hwf) as (Hparse & Hlen & Hty & Hcase). fold a in Hparse, Hlen, Hty, Hcase.
  assert (match addr with SocketAddr.V4 ip port => Ok (SocketAddr.V4 ip port) | SocketAddr.V6 _ _ _ _ => Err NatError.StunFailed end
    = understood addr) as -> by (by destruct addr).
  pose proof (blen_nonneg body) as Hb0.
  set (pre := be_bytes 2 BINDING_RESPONSE ++ be_bytes 2 (blen body) ++ be_bytes 4 MAGIC_COOKIE ++ txn).
  assert (blen pre = 20) as Hpre by (unfold pre; rewrite !blen_app, !blen_be_bytes; lia).
  assert (binding_response txn body = pre ++ body) as Hdata
    by (unfold binding_response, pre; by rewrite <- !app_assoc).
  assert (∀ us, Z.of_nat (length us) ≤ blen (concat (map attribute us))) as Hcount.
  { clear. induction us as [|u us IH]; [done|]. cbn [map concat length]. rewrite blen_app, blen_attribute.
    pose proof (blen_nonneg u.2). pose proof (pad_four_bounds (blen u.2) ltac:(lia)). lia. }
  specialize (Hcount us).
  assert (blen body = blen (concat (map attribute us)) + blen (attribute a) + blen rest) as Hsum
    by (unfold body; rewrite !blen_app; lia).
  pose proof (blen_nonneg rest). pose proof (blen_nonneg a.2) as Ha0. pose proof (pad_four_bounds (blen a.2) Ha0) as Hpad.
  pose proof (blen_attribute a) as Ha.
  transitivity (parse_attributes (S (length (pre ++ body))) (pre ++ body) 20 (20 + blen body)).
  - rewrite <- Hdata. apply response_header; [done|unfold is_uint; lia].
  - assert (∃ k, S (length (pre ++ body)) = (length us + S k)%nat) as [k ->].
    { exists (length (pre ++ body) - length us)%nat. rewrite length_app. unfold blen in *. lia. }
    unfold body at 1. rewrite <- Hpre.
    rewrite parse_attributes_skip by (done || (rewrite blen_app; lia)).
    rewrite (app_assoc pre), parse_attributes_turn by (done || (rewrite ?blen_app; lia)).
    destruct Hcase as [E|E]; rewrite E in *; [exact Hparse|].
    change (ATTR_MAPPED_ADDRESS =? ATTR_XOR_MAPPED_ADDRESS) with false in *. exact Hparse.
Qed.

(** ** Hole punching *)
Definition answered (p : HolePuncher.t) (received : nat → option (bytes * SocketAddr.t)) (round : nat) : option SocketAddr.t :=
  match received round with
  | Some (datagram, from) => if HolePuncher.is_punch_packet p (take 64 datagram) then Some from else None
  | None => None
  end.

(** The rounds end at the first one in which a punch packet arrives, or after the
    last one, and every round sends its packets. *)
Definition punched (p : HolePuncher.t) (received : nat → option (bytes * SocketAddr.t)) (elapsed : nat → Z)
    (fuel round : nat) (out : list bytes * result NatError.t HolePunchResult.t) : Prop :=
  (∃ n from, (n < fuel)%nat ∧ (∀ j, (j < n)%nat → answered p received (round + j) = None) ∧
     answered p received (round + n) = Some from ∧
     out.2 = Ok (HolePunchResult.mk from (elapsed (round + n)%nat) (S (round + n))) ∧
     length out.1 = (S n * HolePunchConfig.packets_per_round (HolePuncher.config p))%nat) ∨
  ((∀ j, (j < fuel)%nat → answered p received (round + j) = None) ∧ out.2 = Err NatError.HolePunchFailed ∧
     length out.1 = (fuel * HolePunchConfig.packets_per_round (HolePuncher.config p))%nat).

Lemma punch_rounds_spec p received elapsed fuel round :
  punched p received elapsed fuel round (HolePuncher.punch_rounds p received elapsed fuel round).
Proof.
  revert round. induction fuel as [|fuel IH]; intros round; cbn [HolePuncher.punch_rounds].
  { right. split_and!; [intros; lia|done|done]. }
  assert (length (HolePuncher.round_packets p round) = HolePunchConfig.packets_per_round (HolePuncher.config p)) as Hl.
  { unfold HolePuncher.round_packets. by rewrite length_map, length_seq. }
  specialize (IH (S round)).
  assert (answered p received round = None →
    let '(more, r) := HolePuncher.punch_rounds p received elapsed fuel (S round) in
    punched p received elapsed (S fuel) round (HolePuncher.round_packets p round ++ more, r)) as Hnext.
  { intros Hno. destruct (HolePuncher.punch_rounds p received elapsed fuel (S round)) as [more r].
    unfold punched. cbn [fst snd] in *. rewrite length_app, Hl.
    assert (∀ k, (∀ j, (j < k)%nat → answered p received (S round + j) = None) →
                 ∀ j, (j < S k)%nat → answered p received (round + j) = None) as Hshift.
    { intros k Hk [|j] Hj; [by rewrite Nat.add_0_r|]. replace (round + S j)%nat with (S round + j)%nat by lia. apply Hk. lia. }
    destruct IH as [(n & from & Hn & Hb & Ha & Hr & Hs)|(Hb & Hr & Hs)]; cbn [fst snd] in Hr, Hs; [left|right].
    - exists (S n), from. replace (round + S n)%nat with (S round + n)%nat by lia.
      split_and!; [lia|by apply Hshift|done|done|lia].
    - split_and!; [by apply Hshift|done|lia]. }
  unfold answered at 1, HolePuncher.is_punch_packet in Hnext. destruct (received round) as [[dg from]|] eqn:Hr; [|].
  - destruct ((4 <=? _) && _) eqn:Hm.
    + left. exists 0%nat, from. cbn [fst snd]. rewrite !Nat.add_0_r, app_nil_r, Hl. split_and!; [lia|intros; lia| |done|lia].
      unfold answered, HolePuncher.is_punch_packet. by rewrite Hr, Hm.
    + specialize (Hnext eq_refl). by destruct (HolePuncher.punch_rounds p received elapsed fuel (S round)).
  - specialize (Hnext eq_refl). by destruct (HolePuncher.punch_rounds p received elapsed fuel (S round)).
Qed.
End StunLaws.

Module StunWitness.
Import Stun StunLaws.

Definition txn : bytes := [1; 2; 3; 4; 5; 6; 7; 8; 9; 10; 11; 12].
Definition software : Z * bytes := (0x8022, [97; 98; 99]).

Lemma stun_response_parsed_witness :
  parse_binding_response
    (binding_response txn (attribute software ++ attribute (xor_mapped_address txn (SocketAddr.V4 [203; 0; 113; 9] 4000)) ++ [])) txn =
  Ok (SocketAddr.V4 [203; 0; 113; 9] 4000) ∧
  parse_binding_response (binding_response txn (attribute (mapped_address (SocketAddr.V6 (replicate 16 1) 4000 0 0)) ++ [])) txn =
  Err NatError.StunFailed.
Proof.
  split.
  - apply (stun_response_parsed txn [software] true (SocketAddr.V4 [203; 0; 113; 9] 4000) []).
    + done.
    + by repeat constructor.
    + split_and!; [done|decide_now|done].
    + by vm_compute.
  - apply (stun_response_parsed txn [] false (SocketAddr.V6 (replicate 16 1) 4000 0 0) []).
    + done.
    + constructor.
    + split_and!; [done|decide_now|done..].
    + by vm_compute.
Defined.

Definition response : bytes := binding_response txn (attribute (mapped_address (SocketAddr.V4 [203; 0; 113; 9] 4000))).

Lemma stun_parse_safe_witness :
  parse_binding_response response txn ≠ Panic ∧
  ∀ a, parse_binding_response response txn = Ok a → ∃ ip port, a = SocketAddr.V4 ip port.
Proof.
  destruct (stun_parse_safe response txn) as [Hp Ha].
  - decide_now.
  - split; [exact Hp|]. intros a H. by apply Ha.
Defined.

(** Two mappings that differ in the port only are not taken for a symmetric NAT. *)
Example per_destination_ports_not_symmetric :
  NatDetector.classify (SocketAddr.V4 [192; 168; 0; 2] 7000)
    (StunResult.mk (SocketAddr.V4 [203; 0; 113; 9] 4000) (SocketAddr.V4 [74; 125; 250; 129] 19302))
    (Some (StunResult.mk (SocketAddr.V4 [203; 0; 113; 9] 4001) (SocketAddr.V4 [64; 233; 163; 127] 19302))) =
  NatType.PortRestricted.
Proof. reflexivity. Qed.
End StunWitness.
