(* ===== verification/Relay.v ===== *)
(** ceky-nat/src/relay.rs: relay sessions between two peers, their states, the
    byte accounts and the limits. A duration is a number of nanoseconds; an
    operation that reads the clock takes the reading, [now], as an argument. *)
From S2P Require Import Prelude Bytes PeerId DhtMsg Float64 PeerInfo Stun.
From Stdlib Require Import SpecFloat.

Local Open Scope Z_scope.

Module RelayConfig.
Record t : Set := mk { max_bandwidth_bps : Z; idle_timeout : Z; max_duration : Z; max_sessions : nat }.
Definition default : t :=
  mk (512 * 1024) (60 * F64.NANOS_PER_SEC) (3600 * F64.NANOS_PER_SEC) 100.
End RelayConfig.

Module RelaySessionState.
Inductive t : Set := Pending | Active | Closed.

#[global] Instance t_eq_dec : EqDecision t.
Proof. solve_decision. Defined.
End RelaySessionState.

Module RelayPeer.
Record t : Set := mk { peer_id : PeerId.t; addr : SocketAddr.t; bytes_sent : Z; bytes_received : Z }.
Definition new (peer_id : PeerId.t) (addr : SocketAddr.t) : t := mk peer_id addr 0 0.

(** [bytes_sent += n], [bytes_received += n] *)
Definition add_sent (n : Z) (p : t) : t := mk (peer_id p) (addr p) (wrap 64 (bytes_sent p + n)) (bytes_received p).
Definition add_received (n : Z) (p : t) : t := mk (peer_id p) (addr p) (bytes_sent p) (wrap 64 (bytes_received p + n)).
End RelayPeer.

Module RelaySession.
Record t : Set := mk {
  session_id : Z; peer_a : RelayPeer.t; peer_b : RelayPeer.t; created_at : Z; last_activity : Z;
  bytes_relayed : Z; state : RelaySessionState.t
}.
End RelaySession.

Module RelayService.
Import RelaySession.

Record t : Set := mk { config : RelayConfig.t; sessions : gmap Z RelaySession.t; next_session_id : Z }.

Definition new (config : RelayConfig.t) : t := mk config ∅ 1.
Definition with_defaults : t := new RelayConfig.default.

Definition set_sessions (s : gmap Z RelaySession.t) (r : t) : t := mk (config r) s (next_session_id r).

(** What [cleanup_expired] collects. *)
Definition is_expired (c : RelayConfig.t) (now : Z) (s : RelaySession.t) : bool :=
  bool_decide (state s = RelaySessionState.Closed)
  || (RelayConfig.idle_timeout c <? elapsed now (last_activity s))
  || (RelayConfig.max_duration c <? elapsed now (created_at s)).

Definition cleanup_expired (now : Z) (r : t) : t * nat :=
  let expired := map fst (List.filter (λ p, is_expired (config r) now p.2) (map_to_list (sessions r))) in
  let count := length expired in
  (set_sessions (fold_left (λ s id, delete id s) expired (sessions r)) r, count).

Definition full (r : t) : bool := (RelayConfig.max_sessions (config r) <=? size (sessions r))%nat.

(** At capacity the expired sessions are cleaned up first. *)
Definition make_room (now : Z) (r : t) : t := if full r then (cleanup_expired now r).1 else r.

Definition create_session (now : Z) (peer_a_id : PeerId.t) (peer_a_addr : SocketAddr.t)
    (peer_b_id : PeerId.t) (peer_b_addr : SocketAddr.t) : method t NatError.t Z := λ r,
  let r := make_room now r in
  if full r then (r, Err NatError.RelayRefused)
  else
    let session_id := next_session_id r in
    let session := RelaySession.mk session_id (RelayPeer.new peer_a_id peer_a_addr)
      (RelayPeer.new peer_b_id peer_b_addr) now now 0 RelaySessionState.Pending in
    (mk (config r) (<[session_id := session]> (sessions r)) (wrap 64 (session_id + 1)), Ok session_id).

Definition activate_session (now : Z) (session_id : Z) : method t NatError.t unit := λ r,
  match sessions r !! session_id with
  | None => (r, Err NatError.RelayRefused)
  | Some s =>
      if negb (bool_decide (state s = RelaySessionState.Pending)) then (r, Err NatError.RelayRefused)
      else
        let s := RelaySession.mk (RelaySession.session_id s) (peer_a s) (peer_b s) (created_at s) now
          (bytes_relayed s) RelaySessionState.Active in
        (set_sessions (<[session_id := s]> (sessions r)) r, Ok tt)
  end.

(** The bandwidth check, skipped in the first second. *)
Definition over_limit (c : RelayConfig.t) (now : Z) (s : RelaySession.t) : bool :=
  let e := elapsed now (created_at s) in
  (1 <=? F64.as_secs e)
  && F64.lt (F64.of_Z (RelayConfig.max_bandwidth_bps c)) (F64.div (F64.of_Z (bytes_relayed s)) (F64.as_secs_f64 e)).

Definition account (now bytes : Z) (from_a : bool) (s : RelaySession.t) : RelaySession.t :=
  RelaySession.mk (RelaySession.session_id s)
    (if from_a then RelayPeer.add_sent bytes (peer_a s) else RelayPeer.add_received bytes (peer_a s))
    (if from_a then RelayPeer.add_received bytes (peer_b s) else RelayPeer.add_sent bytes (peer_b s))
    (created_at s) now (wrap 64 (bytes_relayed s + bytes)) (state s).

Definition record_relay (now session_id bytes : Z) (from_a : bool) : method t NatError.t unit := λ r,
  match sessions r !! session_id with
  | None => (r, Err NatError.RelayRefused)
  | Some s =>
      if negb (bool_decide (state s = RelaySessionState.Active)) then (r, Err NatError.RelayRefused)
      else if over_limit (config r) now s then (r, Err NatError.RelayRefused)
      else (set_sessions (<[session_id := account now bytes from_a s]> (sessions r)) r, Ok tt)
  end.

Definition close (s : RelaySession.t) : RelaySession.t :=
  RelaySession.mk (RelaySession.session_id s) (peer_a s) (peer_b s) (created_at s) (last_activity s)
    (bytes_relayed s) RelaySessionState.Closed.

Definition close_session (session_id : Z) (r : t) : t :=
  set_sessions (alter close session_id (sessions r)) r.

Definition get_session (session_id : Z) (r : t) : option RelaySession.t := sessions r !! session_id.

Definition get_forward_addr (session_id : Z) (from_peer : PeerId.t) (r : t) : option SocketAddr.t :=
  match sessions r !! session_id with
  | None => None
  | Some s =>
      if negb (bool_decide (state s = RelaySessionState.Active)) then None
      else if bool_decide (RelayPeer.peer_id (peer_a s) = from_peer) then Some (RelayPeer.addr (peer_b s))
      else if bool_decide (RelayPeer.peer_id (peer_b s) = from_peer) then Some (RelayPeer.addr (peer_a s))
      else None
  end.

Definition active_sessions (r : t) : nat :=
  length (List.filter (λ p, bool_decide (state p.2 = RelaySessionState.Active)) (map_to_list (sessions r))).
Definition total_sessions (r : t) : nat := size (sessions r).
End RelayService.

Module RelayLaws.
Import RelaySession RelayService.

(** ** Operations and reachable services *)
Inductive op : Set :=
| Create (now : Z) (a : PeerId.t) (aa : SocketAddr.t) (b : PeerId.t) (ba : SocketAddr.t)
| Activate (now id : Z)
| Record (now id bytes : Z) (from_a : bool)
| Close (id : Z)
| Cleanup (now : Z).

Definition apply (r : t) (o : op) : t :=
  match o with
  | Create now a aa b ba => (create_session now a aa b ba r).1
  | Activate now id => (activate_session now id r).1
  | Record now id n from_a => (record_relay now id n from_a r).1
  | Close id => close_session id r
  | Cleanup now => (cleanup_expired now r).1
  end.

(** The byte accounts of a session agree. *)
Record balanced (s : RelaySession.t) : Prop := {
  bl_ab : RelayPeer.bytes_received (peer_b s) = RelayPeer.bytes_sent (peer_a s);
  bl_ba : RelayPeer.bytes_received (peer_a s) = RelayPeer.bytes_sent (peer_b s);
  bl_sum : bytes_relayed s = wrap 64 (RelayPeer.bytes_sent (peer_a s) + RelayPeer.bytes_sent (peer_b s))
}.

Record inv (r : t) : Prop := {
  inv_size : (size (sessions r) ≤ RelayConfig.max_sessions (config r))%nat;
  inv_ids : ∀ id s, sessions r !! id = Some s → session_id s = id ∧ 1 ≤ id < next_session_id r;
  inv_next : 1 ≤ next_session_id r;
  inv_balanced : ∀ id s, sessions r !! id = Some s → balanced s
}.

(** ** Cleaning up *)
Lemma fold_delete_ids ids (m : gmap Z RelaySession.t) id :
  fold_left (λ s id, delete id s) ids m !! id = if decide (id ∈ ids) then None else m !! id.
Proof.
  revert m. induction ids as [|i ids IH]; intros m; [done|]. cbn [fold_left]. rewrite IH.
  destruct (decide (id ∈ ids)).
  - by rewrite decide_True by (by constructor).
  - destruct (decide (id = i)) as [->|Hne].
    + rewrite lookup_delete_eq. by rewrite decide_True by constructor.
    + rewrite lookup_delete_ne by done. rewrite decide_False; [done|]. by intros [?|?]%elem_of_cons.
Qed.

(** [cleanup_expired] removes exactly the closed and expired sessions. *)
Lemma cleanup_lookup now r id :
  sessions (cleanup_expired now r).1 !! id =
  match sessions r !! id with
  | Some s => if is_expired (config r) now s then None else Some s
  | None => None
  end.
Proof.
  unfold cleanup_expired. cbn [fst sessions set_sessions]. rewrite fold_delete_ids.
  assert (id ∈ map fst (List.filter (λ p, is_expired (config r) now p.2) (map_to_list (sessions r))) ↔
          ∃ s, sessions r !! id = Some s ∧ is_expired (config r) now s = true) as Hin.
  { rewrite list_elem_of_fmap. split.
    - intros ([i s] & -> & H). rewrite list_elem_of_In, filter_In, <- list_elem_of_In, elem_of_map_to_list in H.
      exists s. done.
    - intros (s & Hs & He). exists (id, s). split; [done|].
      by rewrite list_elem_of_In, filter_In, <- list_elem_of_In, elem_of_map_to_list. }
  case_decide as Hd; rewrite Hin in Hd.
  - destruct Hd as (s & -> & ->). done.
  - destruct (sessions r !! id) as [s|]; [|done]. destruct (is_expired (config r) now s) eqn:He; [|done].
    destruct Hd. eauto.
Qed.

Lemma cleanup_sub now r : sessions (cleanup_expired now r).1 ⊆ sessions r.
Proof.
  apply map_subseteq_spec. intros id s. rewrite cleanup_lookup. destruct (sessions r !! id); [|done].
  by case_match.
Qed.

Lemma cleanup_inv now r : inv r → inv (cleanup_expired now r).1.
Proof.
  intros [Hs Hi Hn Hb]. pose proof (cleanup_sub now r) as Hsub. split; try done.
  - etransitivity; [by apply map_subseteq_size|done].
  - intros id s H. by apply (Hi id s), (lookup_weaken _ _ _ _ H Hsub).
  - intros id s H. by apply (Hb id s), (lookup_weaken _ _ _ _ H Hsub).
Qed.

Lemma balanced_account now n from_a s : balanced s → balanced (account now n from_a s).
Proof.
  intros [H1 H2 H3]. destruct from_a; split; simpl; rewrite ?H1, ?H2, ?H3; try done; unfold wrap.
  - by rewrite Zplus_mod_idemp_l, Zplus_mod_idemp_l; f_equal; lia.
  - rewrite Zplus_mod_idemp_l, Zplus_mod_idemp_r. f_equal. lia.
Qed.

(** A session that is replaced keeps its identifier and its balance. *)
Lemma update_inv r id s s' :
  inv r → sessions r !! id = Some s → session_id s' = session_id s → balanced s' →
  inv (set_sessions (<[id := s']> (sessions r)) r).
Proof.
  intros [Hs Hi Hn Hb] Hid Hsid Hbal. split; simpl; try done.
  - rewrite map_size_insert_Some; [done|]. by exists s.
  - intros id' x. rewrite lookup_insert_Some. intros [[<- <-]|[_ H]]; [|by apply Hi].
    rewrite Hsid. by apply Hi.
  - intros id' x. rewrite lookup_insert_Some. intros [[<- <-]|[_ H]]; [done|eauto].
Qed.

Lemma create_inv now a aa b ba r :
  inv r → next_session_id r < 2 ^ 64 - 1 → inv (create_session now a aa b ba r).1.
Proof.
  intros Hr Hlt. unfold create_session.
  assert (inv (make_room now r) ∧ next_session_id (make_room now r) = next_session_id r) as [Hr1 Hn1].
  { unfold make_room. destruct (full r); split; try done. by apply cleanup_inv. }
  generalize dependent (make_room now r). intros r1 Hr1 Hn1.
  destruct (full r1) eqn:Hf; [done|]. unfold full in Hf. apply Nat.leb_gt in Hf.
  destruct Hr1 as [Hs Hi Hn Hb]. cbn [fst].
  assert (wrap 64 (next_session_id r1 + 1) = next_session_id r1 + 1) as Hw by (apply wrap_small; unfold is_uint; lia).
  split; cbn [sessions config next_session_id].
  - rewrite map_size_insert. case_match; unfold id; lia.
  - intros id s. rewrite lookup_insert_Some, Hw. intros [[<- <-]|[_ H]]; [split; [done|lia]|].
    destruct (Hi id s H). split; [done|lia].
  - lia.
  - intros id s. rewrite lookup_insert_Some. intros [[_ <-]|[_ H]]; [done|eauto].
Qed.

Lemma apply_inv r o : inv r → next_session_id r < 2 ^ 64 - 1 → inv (apply r o).
Proof.
  intros Hr Hlt. destruct o as [now a aa b ba|now id|now id n from_a|id|now]; simpl.
  - by apply create_inv.
  - unfold activate_session. destruct (sessions r !! id) as [s|] eqn:Hs; [|done]. case_match; [done|].
    eapply update_inv; [done|done|done|]. destruct (inv_balanced _ Hr _ _ Hs). by split.
  - unfold record_relay. destruct (sessions r !! id) as [s|] eqn:Hs; [|done]. case_match; [done|].
    case_match; [done|]. eapply update_inv; [done|done|done|]. by eapply balanced_account, inv_balanced.
  - unfold close_session. destruct (sessions r !! id) as [s|] eqn:Hs.
    + assert (alter close id (sessions r) = <[id := close s]> (sessions r)) as ->.
      { apply map_eq. intros i. destruct (decide (id = i)) as [<-|].
        - by rewrite lookup_alter_eq, lookup_insert_eq, Hs.
        - by rewrite lookup_alter_ne, lookup_insert_ne. }
      eapply update_inv; [done|done|done|]. destruct (inv_balanced _ Hr _ _ Hs). by split.
    + assert (alter close id (sessions r) = sessions r) as ->; [|by destruct r].
      apply map_eq. intros i. destruct (decide (id = i)) as [<-|].
      * by rewrite lookup_alter_eq, Hs.
      * by rewrite lookup_alter_ne.
  - by apply cleanup_inv.
Qed.

Lemma apply_next r o : next_session_id r < 2 ^ 64 - 1 → 0 ≤ next_session_id r →
  next_session_id r ≤ next_session_id (apply r o) ≤ next_session_id r + 1.
Proof.
  intros Hlt Hge. destruct o as [now a aa b ba|now id|now id n from_a|id|now]; simpl; try lia.
  - unfold create_session. assert (next_session_id (make_room now r) = next_session_id r) as Hn.
    { unfold make_room. by destruct (full r). }
    case_match; simpl; [lia|]. rewrite wrap_small; unfold is_uint; lia.
  - unfold activate_session. repeat case_match; simpl; lia.
  - unfold record_relay. repeat case_match; simpl; lia.
Qed.

Lemma run_inv ops r :
  inv r → next_session_id r + Z.of_nat (length ops) < 2 ^ 64 →
  inv (fold_left apply ops r) ∧ next_session_id r ≤ next_session_id (fold_left apply ops r).
Proof.
  revert r. induction ops as [|o ops IH]; intros r Hr Hlen; [done|]. cbn [fold_left length] in *.
  pose proof (inv_next _ Hr). pose proof (apply_next r o ltac:(lia) ltac:(lia)).
  destruct (IH (apply r o)); [apply apply_inv; [done|lia]|lia|]. split; [done|lia].
Qed.

(** The identifiers that the calls of a run are answered with. *)
Definition given (r : t) (o : op) : list Z :=
  match o with
  | Create now a aa b ba => match (create_session now a aa b ba r).2 with Ok id => [id] | _ => [] end
  | _ => []
  end.
Fixpoint issued (ops : list op) (r : t) : list Z :=
  match ops with [] => [] | o :: ops => given r o ++ issued ops (apply r o) end.

Lemma given_next r o :
  next_session_id r < 2 ^ 64 - 1 → 0 ≤ next_session_id r →
  given r o = [] ∨ given r o = [next_session_id r] ∧ next_session_id (apply r o) = next_session_id r + 1.
Proof.
  intros Hlt Hge. destruct o as [now a aa b ba|now id|now id n from_a|id|now]; try by left.
  simpl. unfold create_session. assert (next_session_id (make_room now r) = next_session_id r) as Hn
    by (unfold make_room; by destruct (full r)).
  destruct (full (make_room now r)); simpl; [by left|right]. rewrite Hn. split; [done|]. rewrite wrap_small; unfold is_uint; lia.
Qed.

Lemma issued_fresh ops r :
  inv r → next_session_id r + Z.of_nat (length ops) < 2 ^ 64 →
  NoDup (issued ops r) ∧ ∀ id, id ∈ issued ops r → next_session_id r ≤ id.
Proof.
  revert r. induction ops as [|o ops IH]; intros r Hr Hlen; simpl; [split; [constructor|by intros ? ?%elem_of_nil]|].
  cbn [length] in Hlen. pose proof (inv_next _ Hr). pose proof (apply_next r o ltac:(lia) ltac:(lia)) as Hn.
  destruct (IH (apply r o)) as [IH1 IH2]; [apply apply_inv; [done|lia]|lia|].
  destruct (given_next r o ltac:(lia) ltac:(lia)) as [->|[-> Hn1]]; simpl.
  - split; [done|]. intros id Hid%IH2. lia.
  - split; [constructor; [|done]; intros Hid%IH2; lia|]. intros id [->|Hid%IH2]%elem_of_cons; lia.
Qed.

(** The sessions there are have been issued. *)
Lemma sessions_issued ops r id :
  id ∈ dom (sessions (fold_left apply ops r)) → id ∈ dom (sessions r) ∨ id ∈ issued ops r.
Proof.
  revert r. induction ops as [|o ops IH]; intros r Hid; simpl in *; [by left|].
  apply IH in Hid as [Hid|Hid]; [|right; apply elem_of_app; by right].
  assert (∀ now, dom (sessions (cleanup_expired now r).1) ⊆ dom (sessions r)) as Hc
    by (intros now; apply subseteq_dom, cleanup_sub).
  destruct o as [now a aa b ba|now id'|now id' n from_a|id'|now]; simpl in *.
  - unfold create_session in *. assert (dom (sessions (make_room now r)) ⊆ dom (sessions r)) as Hm
      by (unfold make_room; destruct (full r); [apply Hc|done]).
    case_match; simpl in *; [left; set_solver|]. rewrite dom_insert in Hid. set_solver.
  - left. unfold activate_session in Hid. destruct (sessions r !! id') eqn:E; [|done]. case_match; [done|].
    simpl in Hid. rewrite dom_insert_lookup in Hid by eauto. done.
  - left. unfold record_relay in Hid. destruct (sessions r !! id') eqn:E; [|done]. do 2 (case_match; [done|]).
    simpl in Hid. rewrite dom_insert_lookup in Hid by eauto. done.
  - left. by rewrite dom_alter in Hid.
  - left. by apply (Hc now).
Qed.

(** C26: whatever a relay goes through, in fewer than 2^64 - 1 operations, it has at most the configured number of
    sessions, every session is filed under its own identifier, which the relay gave
    out for it, no identifier is given out twice, not even after its session was
    closed and cleaned up, and the accounts of every session agree: what one peer
    sent the other received, and the total is their sum. *)
Theorem relay_invariant (c : RelayConfig.t) (ops : list op) :
  Z.of_nat (length ops) < 2 ^ 64 - 1 →
  let r := fold_left apply ops (new c) in
  inv r ∧ NoDup (issued ops (new c)) ∧ (∀ id, id ∈ dom (sessions r) → id ∈ issued ops (new c)).
Proof.
  intros Hlen r. assert (inv (new c)) as H0 by (split; simpl; try done; rewrite map_size_empty; lia). split_and!.
  - apply run_inv; [done|simpl; lia].
  - apply issued_fresh; [done|simpl; lia].
  - intros id [Hid|Hid]%sessions_issued; [|done]. simpl in Hid. set_solver.
Qed.

(** ** The life of a session *)
Definition over (r : t) (id : Z) : Prop :=
  id < next_session_id r ∧ ∀ s, sessions r !! id = Some s → state s = RelaySessionState.Closed.

Lemma update_over r id id' s s' :
  over r id → sessions r !! id' = Some s → (state s = RelaySessionState.Closed → state s' = RelaySessionState.Closed) →
  over (set_sessions (<[id' := s']> (sessions r)) r) id.
Proof.
  intros [Hlt Hc] Hs Hst. split; [done|]. intros x. simpl. rewrite lookup_insert_Some.
  intros [[-> <-]|[_ H]]; auto.
Qed.

Lemma apply_over r o id :
  inv r → next_session_id r < 2 ^ 64 - 1 → over r id → over (apply r o) id.
Proof.
  intros Hr Hlt Hov. pose proof (inv_next _ Hr) as Hn.
  assert (∀ now, over (cleanup_expired now r).1 id) as Hclean.
  { intros now. destruct Hov as [? Hc]. split; [done|]. intros s Hs. apply Hc.
    exact (lookup_weaken _ _ _ _ Hs (cleanup_sub now r)). }
  destruct o as [now a aa b ba|now id'|now id' n from_a|id'|now]; simpl; [| | | |by apply Hclean].
  - unfold create_session.
    assert (over (make_room now r) id ∧ next_session_id (make_room now r) = next_session_id r) as [[Hlt1 Hc] Hn1].
    { unfold make_room. by destruct (full r). }
    generalize dependent (make_room now r). intros r1 Hlt1 Hc Hn1.
    destruct (full r1); [done|]. split; simpl.
    + rewrite wrap_small; unfold is_uint; lia.
    + intros s. rewrite lookup_insert_ne by lia. auto.
  - unfold activate_session. destruct (sessions r !! id') as [s|] eqn:Hs; [|done].
    case_bool_decide as Hp; [|done]. eapply update_over; [done|done|]. congruence.
  - unfold record_relay. destruct (sessions r !! id') as [s|] eqn:Hs; [|done].
    case_bool_decide as Hp; [|done]. cbn [negb]. case_match; [done|]. eapply update_over; [done|done|done].
  - destruct Hov as [? Hc]. split; [done|]. intros s. simpl. rewrite lookup_alter_Some.
    intros [(-> & s0 & Hs & ->)|[_ Hs]]; [done|auto].
Qed.

(** C27: a session that was closed, or cleaned up, stays closed: whatever follows,
    packets for it are not forwarded and traffic on it is refused; its identifier
    is never given to another session. *)
Theorem closed_session_stays_closed (r : t) (ops : list op) (id now n : Z) (peer : PeerId.t) (from_a : bool) :
  inv r → over r id → next_session_id r + Z.of_nat (length ops) < 2 ^ 64 →
  let r' := fold_left apply ops r in
  get_forward_addr id peer r' = None ∧ record_relay now id n from_a r' = (r', Err NatError.RelayRefused) ∧
  activate_session now id r' = (r', Err NatError.RelayRefused).
Proof.
  intros Hr Hov Hlen r'. assert (over r' id) as [_ Hc].
  { unfold r'. clear r'. revert r Hr Hov Hlen. induction ops as [|o ops IH]; intros r Hr Hov Hlen; [done|].
    cbn [fold_left length] in *. pose proof (inv_next _ Hr). pose proof (apply_next r o ltac:(lia) ltac:(lia)).
    apply IH; [by apply apply_inv; [|lia]|by apply apply_over; [|lia|]|lia]. }
  unfold get_forward_addr, record_relay, activate_session.
  destruct (sessions r' !! id) as [s|]; [|done]. by rewrite (Hc s).
Qed.

(** Packets of an active session go to the other peer, and of nobody else. *)
Lemma forward_spec r id peer a :
  get_forward_addr id peer r = Some a ↔
  ∃ s, sessions r !! id = Some s ∧ state s = RelaySessionState.Active ∧
    ((RelayPeer.peer_id (peer_a s) = peer ∧ a = RelayPeer.addr (peer_b s)) ∨
     (RelayPeer.peer_id (peer_a s) ≠ peer ∧ RelayPeer.peer_id (peer_b s) = peer ∧ a = RelayPeer.addr (peer_a s))).
Proof.
  unfold get_forward_addr. destruct (sessions r !! id) as [s|]; [|naive_solver].
  repeat case_bool_decide; naive_solver.
Qed.

(** In its first second a session may relay any amount. *)
Lemma first_second_unlimited r id s now n from_a :
  sessions r !! id = Some s → state s = RelaySessionState.Active →
  elapsed now (created_at s) < F64.NANOS_PER_SEC → (record_relay now id n from_a r).2 = Ok tt.
Proof.
  intros Hs Ha He. unfold record_relay, over_limit. rewrite Hs, Ha. simpl.
  assert (F64.as_secs (elapsed now (created_at s)) = 0) as ->; [|done].
  unfold F64.as_secs, elapsed in *. apply Z.div_small. lia.
Qed.
End RelayLaws.

Module RelayWitness.
Import RelaySession RelayService RelayLaws.

Definition pid (n : Z) : PeerId.t := replicate 32 n.
Definition at_port (p : Z) : SocketAddr.t := SocketAddr.V4 [10; 0; 0; 1] p.
Definition history : list op :=
  [Create 0 (pid 1) (at_port 1) (pid 2) (at_port 2); Activate 1 1; Record 2 1 500 true; Record 3 1 20 false;
   Record 4 9 1 true].
Definition relay : t := fold_left apply history with_defaults.

(** A session is closed and cleaned up, and another one made. *)
Definition reissue : list op :=
  history ++ [Close 1; Cleanup 6; Create 7 (pid 3) (at_port 3) (pid 4) (at_port 4)].

Lemma relay_invariant_witness :
  issued reissue with_defaults = [1; 2] ∧ inv (fold_left apply reissue with_defaults) ∧
  get_forward_addr 1 (pid 1) relay = Some (at_port 2).
Proof.
  split_and!; [by vm_compute| |by vm_compute]. apply (relay_invariant RelayConfig.default reissue). by vm_compute.
Defined.

Definition closed : t := fold_left apply (history ++ [Close 1]) with_defaults.

Lemma closed_inv : inv closed.
Proof. apply run_inv; [|by vm_compute]. split; simpl; try done. by vm_compute; lia. Qed.

Lemma closed_session_stays_closed_witness :
  let r' := fold_left apply [Activate 5 1; Cleanup 6; Create 7 (pid 3) (at_port 3) (pid 4) (at_port 4)] closed in
  get_forward_addr 1 (pid 1) r' = None ∧ record_relay 8 1 10 true r' = (r', Err NatError.RelayRefused) ∧
  activate_session 8 1 r' = (r', Err NatError.RelayRefused).
Proof.
  apply (closed_session_stays_closed closed _ 1 8 10 (pid 1) true).
  - exact closed_inv.
  - split; [by vm_compute|]. intros s Hs. vm_compute in Hs. by injection Hs as <-.
  - by vm_compute.
Defined.
End RelayWitness.
