(* ===== verification/Connection.v ===== *)
(** ceky-transport: connection.rs, pool.rs and the error type of lib.rs. The
    record kept of a connection with its heartbeat, and the pool of connections.

    A duration is a number of nanoseconds; an operation that reads the clock takes
    the reading, [now], as an argument. A [DashMap] is a finite map whose single
    operations are atomic; [PoolConc] interleaves the calls of several tasks at
    them. *)
From S2P Require Import Prelude Bytes WireTypes DhtMsg Float64 PeerInfo.

Local Open Scope Z_scope.

#[export] Instance SocketAddr_countable : Countable SocketAddr.t.
Proof.
  refine (inj_countable'
    (λ a, match a with
          | SocketAddr.V4 ip p => inl (ip, p)
          | SocketAddr.V6 ip p f s => inr (ip, p, f, s)
          end)
    (λ x, match x with
          | inl (ip, p) => SocketAddr.V4 ip p
          | inr (ip, p, f, s) => SocketAddr.V6 ip p f s
          end) _).
  by intros [].
Defined.

Module TransportError.
Inductive t : Set :=
| Io
| Protocol (e : ProtocolError)
| ConnectionClosed (addr : SocketAddr.t)
| PoolFull (max : nat)
| PeerNotFound (addr : SocketAddr.t)
| SendFailed
| Timeout (addr : SocketAddr.t).
End TransportError.

Module ConnectionState.
Inductive t : Set := Connecting | Established | Closing | Closed.

#[global] Instance t_eq_dec : EqDecision t.
Proof. solve_decision. Defined.
End ConnectionState.

Module ConnectionConfig.
Record t : Set := mk {
  heartbeat_interval : Z; heartbeat_timeout : Z; max_missed_heartbeats : Z
}.
Definition default : t := mk (15 * F64.NANOS_PER_SEC) (5 * F64.NANOS_PER_SEC) 3.
End ConnectionConfig.

Module ConnectionInfo.
Record t : Set := mk {
  peer_addr : SocketAddr.t; state : ConnectionState.t; connected_at : Z; last_recv : Z; last_send : Z;
  last_ping_sent : option Z; missed_heartbeats : Z; bytes_recv : Z; bytes_sent : Z;
  frames_recv : Z; frames_sent : Z; config : ConnectionConfig.t
}.

Definition new (now : Z) (peer_addr : SocketAddr.t) (config : ConnectionConfig.t) : t :=
  mk peer_addr ConnectionState.Connecting now now now None 0 0 0 0 0 config.

Definition set_state (st : ConnectionState.t) (c : t) : t :=
  mk (peer_addr c) st (connected_at c) (last_recv c) (last_send c) (last_ping_sent c)
     (missed_heartbeats c) (bytes_recv c) (bytes_sent c) (frames_recv c) (frames_sent c) (config c).

Definition set_established : t → t := set_state ConnectionState.Established.
Definition set_closing : t → t := set_state ConnectionState.Closing.
Definition set_closed : t → t := set_state ConnectionState.Closed.

Definition record_recv (now bytes : Z) (c : t) : t :=
  mk (peer_addr c) (state c) (connected_at c) now (last_send c) (last_ping_sent c) (missed_heartbeats c)
     (wrap 64 (bytes_recv c + bytes)) (bytes_sent c) (wrap 64 (frames_recv c + 1)) (frames_sent c) (config c).

Definition record_send (now bytes : Z) (c : t) : t :=
  mk (peer_addr c) (state c) (connected_at c) (last_recv c) now (last_ping_sent c) (missed_heartbeats c)
     (bytes_recv c) (wrap 64 (bytes_sent c + bytes)) (frames_recv c) (wrap 64 (frames_sent c + 1)) (config c).

Definition record_ping_sent (now : Z) (c : t) : t :=
  mk (peer_addr c) (state c) (connected_at c) (last_recv c) (last_send c) (Some now) (missed_heartbeats c)
     (bytes_recv c) (bytes_sent c) (frames_recv c) (frames_sent c) (config c).

Definition record_pong_received (now : Z) (c : t) : t :=
  mk (peer_addr c) (state c) (connected_at c) now (last_send c) None 0
     (bytes_recv c) (bytes_sent c) (frames_recv c) (frames_sent c) (config c).

Definition should_send_ping (now : Z) (c : t) : bool :=
  if negb (bool_decide (state c = ConnectionState.Established)) then false
  else if bool_decide (is_Some (last_ping_sent c)) then false
  else ConnectionConfig.heartbeat_interval (config c) <=? elapsed now (last_recv c).

Definition is_dead (now : Z) (c : t) : bool :=
  let enough := ConnectionConfig.max_missed_heartbeats (config c) in
  match last_ping_sent c with
  | Some ping_time =>
      if ConnectionConfig.heartbeat_timeout (config c) <=? elapsed now ping_time
      then enough <=? wrap 32 (missed_heartbeats c + 1)
      else enough <=? missed_heartbeats c
  | None => enough <=? missed_heartbeats c
  end.

Definition record_missed_heartbeat (c : t) : t :=
  mk (peer_addr c) (state c) (connected_at c) (last_recv c) (last_send c) None
     (wrap 32 (missed_heartbeats c + 1)) (bytes_recv c) (bytes_sent c) (frames_recv c) (frames_sent c) (config c).

Definition uptime (now : Z) (c : t) : Z := elapsed now (connected_at c).
Definition idle_time (now : Z) (c : t) : Z := elapsed now (last_recv c).

Definition is_active (c : t) : bool :=
  match state c with ConnectionState.Connecting | ConnectionState.Established => true | _ => false end.
End ConnectionInfo.

(** ** pool.rs *)
Module PoolStats.
Record t : Set := mk {
  active : nat; established : nat; connecting : nat; closing : nat; max : nat;
  total_created : Z; total_removed : Z; total_bytes_recv : Z; total_bytes_sent : Z
}.
End PoolStats.

Module ConnectionPool.
Record t : Set := mk {
  connections : gmap SocketAddr.t ConnectionInfo.t; max_connections : nat;
  default_config : ConnectionConfig.t; total_created : Z; total_removed : Z
}.

Definition new (max_connections : nat) (default_config : ConnectionConfig.t) : t :=
  mk ∅ max_connections default_config 0 0.
Definition with_defaults : t := new 1024 ConnectionConfig.default.

Definition set_connections (m : gmap SocketAddr.t ConnectionInfo.t) (p : t) : t :=
  mk m (max_connections p) (default_config p) (total_created p) (total_removed p).

Definition len (p : t) : nat := size (connections p).
Definition is_empty (p : t) : bool := (len p =? 0)%nat.
Definition contains (a : SocketAddr.t) (p : t) : bool := bool_decide (is_Some (connections p !! a)).

(** The entry API: check and insertion in one step. *)
Definition insert_entry (now : Z) (peer_addr : SocketAddr.t) (p : t) : t :=
  match connections p !! peer_addr with
  | Some _ => p
  | None =>
      mk (<[peer_addr := ConnectionInfo.new now peer_addr (default_config p)]> (connections p))
         (max_connections p) (default_config p) (wrap 64 (total_created p + 1)) (total_removed p)
  end.

Definition insert (now : Z) (peer_addr : SocketAddr.t) : method t TransportError.t unit := λ p,
  if (max_connections p <=? len p)%nat then (p, Err (TransportError.PoolFull (max_connections p)))
  else (insert_entry now peer_addr p, Ok tt).

Definition remove (peer_addr : SocketAddr.t) (p : t) : t * option ConnectionInfo.t :=
  match connections p !! peer_addr with
  | Some info =>
      (mk (delete peer_addr (connections p)) (max_connections p) (default_config p) (total_created p)
          (wrap 64 (total_removed p + 1)), Some info)
  | None => (p, None)
  end.

(** [with_connection(addr, f)] for an [f] that returns nothing, and the read-only
    variant. *)
Definition with_connection (a : SocketAddr.t) (f : ConnectionInfo.t → ConnectionInfo.t) (p : t) : t :=
  set_connections (alter f a (connections p)) p.
Definition with_connection_ref {R} (a : SocketAddr.t) (f : ConnectionInfo.t → R) (p : t) : option R :=
  f <$> connections p !! a.

(** [connections.iter().filter(q).map(key).collect()] *)
Definition addrs_where (q : ConnectionInfo.t → bool) (p : t) : list SocketAddr.t :=
  map fst (List.filter (λ e, q e.2) (map_to_list (connections p))).

Definition peer_addrs (p : t) : list SocketAddr.t := map fst (map_to_list (connections p)).
Definition established_peers : t → list SocketAddr.t :=
  addrs_where (λ c, bool_decide (ConnectionInfo.state c = ConnectionState.Established)).
Definition peers_needing_ping (now : Z) : t → list SocketAddr.t := addrs_where (ConnectionInfo.should_send_ping now).
Definition dead_peers (now : Z) : t → list SocketAddr.t := addrs_where (ConnectionInfo.is_dead now).

Definition remove_all (addrs : list SocketAddr.t) (p : t) : t := fold_left (λ p a, (remove a p).1) addrs p.

Definition evict_idle (now max_idle : Z) (p : t) : t * list SocketAddr.t :=
  let idle_peers := addrs_where (λ c, max_idle <? ConnectionInfo.idle_time now c) p in
  (remove_all idle_peers p, idle_peers).

Definition evict_dead (now : Z) (p : t) : t * list SocketAddr.t :=
  let dead := dead_peers now p in (remove_all dead p, dead).

Definition count_state (st : ConnectionState.t) (p : t) : nat :=
  length (addrs_where (λ c, bool_decide (ConnectionInfo.state c = st)) p).

(** The running sum of a counter over the connections, in 64 bits. *)
Definition total (f : ConnectionInfo.t → Z) (p : t) : Z :=
  fold_left (λ acc e, wrap 64 (acc + f e.2)) (map_to_list (connections p)) 0.

Definition stats (p : t) : PoolStats.t :=
  PoolStats.mk (len p) (count_state ConnectionState.Established p) (count_state ConnectionState.Connecting p)
    (count_state ConnectionState.Closing p) (max_connections p) (total_created p) (total_removed p)
    (total ConnectionInfo.bytes_recv p) (total ConnectionInfo.bytes_sent p).
End ConnectionPool.

(** ** The heartbeat, told from its history *)
Module HeartbeatLaws.
Import ConnectionInfo.

Inductive event : Set :=
| State (st : ConnectionState.t)
| Recv (now n : Z)
| Send (now n : Z)
| Ping (now : Z)
| Pong (now : Z)
| Missed.

Definition apply (c : t) (e : event) : t :=
  match e with
  | State st => set_state st c
  | Recv now n => record_recv now n c
  | Send now n => record_send now n c
  | Ping now => record_ping_sent now c
  | Pong now => record_pong_received now c
  | Missed => record_missed_heartbeat c
  end.

(** What the last events of a history (latest first) say. *)
Fixpoint misses (h : list event) : Z :=
  match h with
  | [] => 0
  | Pong _ :: _ => 0
  | Missed :: h => 1 + misses h
  | _ :: h => misses h
  end.

(** The ping still waiting for its answer. *)
Fixpoint outstanding (h : list event) : option Z :=
  match h with
  | [] => None
  | Ping now :: _ => Some now
  | Pong _ :: _ | Missed :: _ => None
  | _ :: h => outstanding h
  end.

Fixpoint last_heard (start : Z) (h : list event) : Z :=
  match h with
  | [] => start
  | Recv now _ :: _ | Pong now :: _ => now
  | _ :: h => last_heard start h
  end.

Fixpoint last_state (h : list event) : ConnectionState.t :=
  match h with
  | [] => ConnectionState.Connecting
  | State st :: _ => st
  | _ :: h => last_state h
  end.

Definition received (e : event) : Z := match e with Recv _ n => n | _ => 0 end.
Definition sent (e : event) : Z := match e with Send _ n => n | _ => 0 end.
Definition sum (f : event → Z) (h : list event) : Z := foldr (λ e acc, f e + acc) 0 h.

Lemma misses_bounds h : 0 ≤ misses h ≤ Z.of_nat (length h).
Proof. induction h as [|[] h IH]; simpl; lia. Qed.

(** The record of a connection against its history. *)
Record told (start : Z) (cfg : ConnectionConfig.t) (h : list event) (c : t) : Prop := {
  td_config : config c = cfg;
  td_state : state c = last_state h;
  td_missed : missed_heartbeats c = misses h;
  td_ping : last_ping_sent c = outstanding h;
  td_heard : last_recv c = last_heard start h;
  td_recv : bytes_recv c = wrap 64 (sum received h);
  td_sent : bytes_sent c = wrap 64 (sum sent h)
}.

Lemma told_step start cfg h c e :
  Z.of_nat (length h) < 2 ^ 32 - 1 → told start cfg h c → told start cfg (e :: h) (apply c e).
Proof.
  intros Hl [H1 H2 H3 H4 H5 H6 H7]. pose proof (misses_bounds h).
  destruct e; split; simpl; try done; rewrite ?H6, ?H7, ?H3, ?wrap_add_l; try (f_equal; lia).
  rewrite wrap_small; [lia|unfold is_uint; lia].
Qed.

Lemma told_run start addr cfg h :
  Z.of_nat (length h) < 2 ^ 32 → told start cfg (rev h) (fold_left apply h (new start addr cfg)).
Proof.
  induction h as [|e h IH] using rev_ind; intros Hl; [by split|].
  rewrite fold_left_app, rev_app_distr. rewrite length_app in Hl. simpl in *.
  apply told_step; [rewrite length_rev; lia|]. apply IH. lia.
Qed.

(** C29: the heartbeat of a connection answers as its history says. Whatever was
    recorded on it (fewer than 2^32 - 1 records, so that no counter of misses
    overflows), a peer is dead exactly when the heartbeats missed since the last
    PONG, and one more if a PING is overdue, reach the limit: an overdue PING alone
    is not death, although heartbeat_timeout is documented so. A PING is due
    exactly when the connection is established, none is waiting for its answer and
    nothing was heard for the interval; and the byte counters are the sums of what
    was recorded. *)
Theorem heartbeat_history (start now : Z) (addr : SocketAddr.t) (cfg : ConnectionConfig.t) (h : list event) :
  Z.of_nat (length h) < 2 ^ 32 - 1 →
  let c := fold_left apply h (new start addr cfg) in
  let past := rev h in
  let overdue := match outstanding past with
                 | Some t => if ConnectionConfig.heartbeat_timeout cfg <=? elapsed now t then 1 else 0
                 | None => 0
                 end in
  (is_dead now c = true ↔ ConnectionConfig.max_missed_heartbeats cfg ≤ misses past + overdue) ∧
  (should_send_ping now c = true ↔
     last_state past = ConnectionState.Established ∧ outstanding past = None ∧
     ConnectionConfig.heartbeat_interval cfg ≤ elapsed now (last_heard start past)) ∧
  bytes_recv c = wrap 64 (sum received past) ∧ bytes_sent c = wrap 64 (sum sent past).
Proof.
  intros Hl c past overdue. destruct (told_run start addr cfg h ltac:(lia)) as [H1 H2 H3 H4 H5 H6 H7].
  fold c past in H1, H2, H3, H4, H5, H6, H7.
  pose proof (misses_bounds past) as Hm. unfold past in Hm at 3. rewrite length_rev in Hm.
  split_and!; [| |done|done].
  - unfold is_dead. rewrite H1, H3, H4. unfold overdue. destruct (outstanding past) as [t0|]; [|rewrite Z.leb_le; lia].
    destruct (_ <=? elapsed now t0); rewrite Z.leb_le; [|lia]. rewrite wrap_small by (unfold is_uint; lia). lia.
  - unfold should_send_ping. rewrite H1, H2, H4, H5.
    case_bool_decide as Hs; cbn [negb]; [|naive_solver].
    case_bool_decide as Hp.
    + destruct Hp as [? Hp]. rewrite Hp. naive_solver.
    + rewrite Z.leb_le. destruct (outstanding past); [destruct Hp; eauto|]. naive_solver.
Qed.
End HeartbeatLaws.

(** ** The pool *)
Module PoolLaws.
Import ConnectionPool.

(** Every connection is filed under its address; the two counters account for the
    connections in the pool. *)
Record wf (p : t) : Prop := {
  wf_keyed : ∀ a c, connections p !! a = Some c → ConnectionInfo.peer_addr c = a;
  wf_count : wrap 64 (total_created p - total_removed p) = wrap 64 (Z.of_nat (len p))
}.

Lemma wrap_counts a b n : wrap 64 (a - b) = wrap 64 n →
  wrap 64 (wrap 64 (a + 1) - b) = wrap 64 (n + 1) ∧ wrap 64 (a - wrap 64 (b + 1)) = wrap 64 (n - 1).
Proof.
  unfold wrap. intros H. split.
  - rewrite Zminus_mod_idemp_l. replace (a + 1 - b) with (a - b + 1) by lia.
    by rewrite <- Zplus_mod_idemp_l, H, Zplus_mod_idemp_l.
  - rewrite Zminus_mod_idemp_r. replace (a - (b + 1)) with (a - b - 1) by lia.
    by rewrite <- Zminus_mod_idemp_l, H, Zminus_mod_idemp_l.
Qed.

Lemma insert_entry_wf now a p : wf p → wf (insert_entry now a p).
Proof.
  intros [Hk Hc]. unfold insert_entry. destruct (connections p !! a) as [c|] eqn:Ha; [done|]. split; simpl.
  - intros a' c. rewrite lookup_insert_Some. intros [[<- <-]|[_ H]]; auto.
  - unfold len. simpl. rewrite map_size_insert_None by done.
    destruct (wrap_counts _ _ _ Hc) as [-> _]. f_equal. unfold len. lia.
Qed.

Lemma size_pos_lookup a p c : connections p !! a = Some c → (0 < len p)%nat.
Proof.
  intros H. unfold len. destruct (decide (size (connections p) = 0%nat)) as [Hz|]; [|lia].
  apply map_size_empty_iff in Hz. rewrite Hz in H. by rewrite lookup_empty in H.
Qed.

Lemma remove_wf a p : wf p → wf (remove a p).1.
Proof.
  intros [Hk Hc]. unfold remove. destruct (connections p !! a) as [c|] eqn:Ha; [|done].
  pose proof (size_pos_lookup _ _ _ Ha). split; simpl.
  - intros a' c'. rewrite lookup_delete_Some. intros [_ H']. auto.
  - unfold len in *. simpl. rewrite map_size_delete_Some by (by eexists).
    destruct (wrap_counts _ _ _ Hc) as [_ ->]. f_equal. lia.
Qed.

Lemma with_connection_wf a f p :
  (∀ c, ConnectionInfo.peer_addr (f c) = ConnectionInfo.peer_addr c) → wf p → wf (with_connection a f p).
Proof.
  intros Hf [Hk Hc]. split; simpl.
  - intros a' c. rewrite lookup_alter_Some. intros [(-> & c0 & H & ->)|[_ H]]; [rewrite Hf|]; auto.
  - unfold len. simpl. by rewrite size_alter.
Qed.

Lemma insert_entry_lookup now a p b :
  connections (insert_entry now a p) !! b =
  if decide (b = a) then Some (default (ConnectionInfo.new now a (default_config p)) (connections p !! a))
  else connections p !! b.
Proof.
  unfold insert_entry. destruct (connections p !! a) as [c|] eqn:Ha; simpl; case_decide; subst; simpl; try done.
  - by rewrite lookup_insert_eq.
  - by rewrite lookup_insert_ne.
Qed.

Lemma remove_lookup b p a :
  connections (remove b p).1 !! a = if decide (a = b) then None else connections p !! a.
Proof.
  unfold remove. destruct (connections p !! b) eqn:Hb; simpl; case_decide as Hd; subst; try done.
  - by rewrite lookup_delete_eq.
  - by rewrite lookup_delete_ne.
Qed.

Lemma remove_all_lookup addrs p a :
  connections (remove_all addrs p) !! a = if decide (a ∈ addrs) then None else connections p !! a.
Proof.
  unfold remove_all. revert p. induction addrs as [|b addrs IH]; intros p; [done|]. cbn [fold_left]. rewrite IH.
  destruct (decide (a ∈ addrs)).
  - by rewrite decide_True by (by constructor).
  - rewrite remove_lookup. destruct (decide (a = b)) as [->|Hne].
    + by rewrite decide_True by constructor.
    + rewrite decide_False; [done|]. by intros [?|?]%elem_of_cons.
Qed.

Lemma remove_all_wf addrs p : wf p → wf (remove_all addrs p).
Proof. unfold remove_all. revert p. induction addrs; intros p Hp; [done|]. simpl. auto using remove_wf. Qed.

Lemma elem_of_addrs_where q p a :
  a ∈ addrs_where q p ↔ ∃ c, connections p !! a = Some c ∧ q c = true.
Proof.
  unfold addrs_where. rewrite list_elem_of_fmap. split.
  - intros ([i c] & -> & H). rewrite list_elem_of_In, filter_In, <- list_elem_of_In, elem_of_map_to_list in H.
    by exists c.
  - intros (c & Hc & Hq). exists (a, c). split; [done|].
    by rewrite list_elem_of_In, filter_In, <- list_elem_of_In, elem_of_map_to_list.
Qed.

(** Evicting the connections that satisfy a test leaves exactly the others. *)
Lemma evict_lookup q p a :
  connections (remove_all (addrs_where q p) p) !! a =
  match connections p !! a with
  | Some c => if q c then None else Some c
  | None => None
  end.
Proof.
  rewrite remove_all_lookup. case_decide as Hd; rewrite elem_of_addrs_where in Hd.
  - destruct Hd as (c & -> & ->). done.
  - destruct (connections p !! a) as [c|]; [|done]. destruct (q c) eqn:Hq; [|done]. destruct Hd. eauto.
Qed.

(** Evictions remove exactly the connections they are for, leave the others as
    they are and return the addresses removed; the pool stays consistent. *)
Lemma pool_evictions (p : t) (now max_idle : Z) :
  wf p →
  let '(p1, dead) := evict_dead now p in
  let '(p2, idle) := evict_idle now max_idle p in
  wf p1 ∧ wf p2 ∧
  (∀ a, a ∈ dead ↔ ∃ c, connections p !! a = Some c ∧ ConnectionInfo.is_dead now c = true) ∧
  (∀ a, a ∈ idle ↔ ∃ c, connections p !! a = Some c ∧ max_idle < ConnectionInfo.idle_time now c) ∧
  (∀ a, connections p1 !! a = if decide (a ∈ dead) then None else connections p !! a) ∧
  (∀ a, connections p2 !! a = if decide (a ∈ idle) then None else connections p !! a).
Proof.
  intros Hp. unfold evict_dead, evict_idle, dead_peers.
  split_and!; [by apply remove_all_wf|by apply remove_all_wf| | |intros; apply remove_all_lookup|intros; apply remove_all_lookup].
  - intros a. apply elem_of_addrs_where.
  - intros a. rewrite elem_of_addrs_where. by setoid_rewrite Z.ltb_lt.
Qed.

Lemma addrs_where_map q p : length (addrs_where q p) = length (List.filter (λ e, q e.2) (map_to_list (connections p))).
Proof. unfold addrs_where. apply length_map. Qed.

(** The statistics count every connection once, closed ones apart. *)
Lemma stats_count p :
  (PoolStats.established (stats p) + PoolStats.connecting (stats p) + PoolStats.closing (stats p) +
   count_state ConnectionState.Closed p = PoolStats.active (stats p))%nat.
Proof.
  unfold stats, count_state. simpl. rewrite !addrs_where_map. unfold len. rewrite <- length_map_to_list.
  induction (map_to_list (connections p)) as [|[a c] l IH]; [done|].
  cbn [List.filter snd length]. destruct (ConnectionInfo.state c); simpl in *; lia.
Qed.
End PoolLaws.

(** ** Several tasks on one pool

    [insert] reads the length, uses the entry API and then counts; [remove] takes the
    entry out and then counts. Each is one operation on shared state, and other tasks
    may run in between. [checked] holds the insertions between the reading and the
    entry, [adding] and [removing] count the calls that have changed the map and not
    yet the counter. The length, which DashMap adds up over its shards, is read at
    once. *)
Module PoolConc.
Import ConnectionPool.

Record conf : Set := mkConf { pool : t; checked : gmap nat SocketAddr.t; adding : nat; removing : nat }.

Definition init (max : nat) (cfg : ConnectionConfig.t) : conf := mkConf (new max cfg) ∅ 0 0.

(** [entry.insert(conn)], [total_created.fetch_add(1)], [connections.remove(addr)] and
    [total_removed.fetch_add(1)]. *)
Definition entry_insert (now : Z) (a : SocketAddr.t) (p : t) : t :=
  set_connections (<[a := ConnectionInfo.new now a (default_config p)]> (connections p)) p.
Definition count_created (p : t) : t :=
  mk (connections p) (max_connections p) (default_config p) (wrap 64 (total_created p + 1)) (total_removed p).
Definition connections_remove (a : SocketAddr.t) (p : t) : t := set_connections (delete a (connections p)) p.
Definition count_removed (p : t) : t :=
  mk (connections p) (max_connections p) (default_config p) (total_created p) (wrap 64 (total_removed p + 1)).

(** Operations of the tasks, at most [tasks] of them between the check and the entry
    of an insertion. *)
Inductive step (tasks : nat) : conf → conf → Prop :=
| StepCheck c task a :
    checked c !! task = None → (size (checked c) < tasks)%nat → (len (pool c) < max_connections (pool c))%nat →
    step tasks c (mkConf (pool c) (<[task := a]> (checked c)) (adding c) (removing c))
| StepOccupied c task a i :
    checked c !! task = Some a → connections (pool c) !! a = Some i →
    step tasks c (mkConf (pool c) (delete task (checked c)) (adding c) (removing c))
| StepVacant c task a now :
    checked c !! task = Some a → connections (pool c) !! a = None →
    step tasks c (mkConf (entry_insert now a (pool c)) (delete task (checked c)) (S (adding c)) (removing c))
| StepCountCreated c n :
    adding c = S n → step tasks c (mkConf (count_created (pool c)) (checked c) n (removing c))
| StepUpdate c a e :
    step tasks c (mkConf (with_connection a (λ i, HeartbeatLaws.apply i e) (pool c)) (checked c) (adding c) (removing c))
| StepRemove c a i :
    connections (pool c) !! a = Some i →
    step tasks c (mkConf (connections_remove a (pool c)) (checked c) (adding c) (S (removing c)))
| StepCountRemoved c n :
    removing c = S n → step tasks c (mkConf (count_removed (pool c)) (checked c) (adding c) n).

(** A call of [insert] or [remove] that is not interrupted is its steps. *)
Lemma insert_is_steps tasks now a p p' :
  (0 < tasks)%nat → insert now a p = (p', Ok tt) → rtc (step tasks) (mkConf p ∅ 0 0) (mkConf p' ∅ 0 0).
Proof.
  intros Ht Hi. unfold insert in Hi. destruct (Nat.leb_spec (max_connections p) (len p)) as [|Hlt]; [done|].
  injection Hi as <-. eapply rtc_l; [by apply (StepCheck tasks (mkConf p ∅ 0 0) 0%nat a)|].
  unfold insert_entry. destruct (connections p !! a) as [i|] eqn:Ha.
  - eapply rtc_l; [apply (StepOccupied tasks _ 0%nat a i); [apply lookup_insert_eq|done]|]. simpl.
    rewrite delete_insert_eq, delete_empty. apply rtc_refl.
  - eapply rtc_l; [apply (StepVacant tasks _ 0%nat a now); [apply lookup_insert_eq|done]|]. simpl.
    eapply rtc_l; [by apply (StepCountCreated tasks _ 0)|]. simpl. rewrite delete_insert_eq, delete_empty. apply rtc_refl.
Qed.

Lemma remove_is_steps tasks a p : rtc (step tasks) (mkConf p ∅ 0 0) (mkConf (remove a p).1 ∅ 0 0).
Proof.
  unfold remove. destruct (connections p !! a) as [i|] eqn:Ha; [|apply rtc_refl].
  eapply rtc_l; [by apply (StepRemove tasks (mkConf p ∅ 0 0) a i)|]. apply rtc_once.
  exact (StepCountRemoved tasks (mkConf (connections_remove a p) ∅ 0 1) 0 eq_refl).
Qed.

(** What the counters will say of the pool when all have counted. *)
Definition due (c : conf) : Z :=
  (total_created (pool c) + Z.of_nat (adding c)) - (total_removed (pool c) + Z.of_nat (removing c)).

Record inv (tasks max : nat) (c : conf) : Prop := {
  inv_keyed : ∀ a i, connections (pool c) !! a = Some i → ConnectionInfo.peer_addr i = a;
  inv_count : wrap 64 (due c) = wrap 64 (Z.of_nat (len (pool c)));
  inv_max : max_connections (pool c) = max;
  inv_tasks : (size (checked c) ≤ tasks)%nat;
  inv_room : (S (len (pool c) + size (checked c)) ≤ max + tasks)%nat
}.

Lemma apply_peer_addr i e : ConnectionInfo.peer_addr (HeartbeatLaws.apply i e) = ConnectionInfo.peer_addr i.
Proof. by destruct e. Qed.

Lemma wrap_eq_shift x y k : wrap 64 x = wrap 64 y → wrap 64 (x + k) = wrap 64 (y + k).
Proof. unfold wrap. intros H. by rewrite <- Zplus_mod_idemp_l, H, Zplus_mod_idemp_l. Qed.

Lemma wrap_inner a b : wrap 64 (wrap 64 a + b) = wrap 64 (a + b) ∧ wrap 64 (b - wrap 64 a) = wrap 64 (b - a).
Proof. unfold wrap. by rewrite Zplus_mod_idemp_l, Zminus_mod_idemp_r. Qed.

Lemma conc_step_inv tasks max c c' : inv tasks max c → step tasks c c' → inv tasks max c'.
Proof.
  intros [Hk Hc Hm Ht Hr] Hs. unfold due, len in *.
  destruct Hs as [c task a Hn Hlt Hroom|c task a i Hch Hi|c task a now Hch Hv|c n Ha|c a e|c a i Hi|c n Hrm];
    split; unfold due, len in *; simpl in *; try done.
  - rewrite map_size_insert_None by done. lia.
  - rewrite map_size_insert_None by done. lia.
  - rewrite map_size_delete_Some by (by eexists). lia.
  - rewrite map_size_delete_Some by (by eexists). lia.
  - intros b x. rewrite lookup_insert_Some. intros [[<- <-]|[_ H]]; auto.
  - rewrite map_size_insert_None by done. apply (wrap_eq_shift _ _ 1) in Hc.
    rewrite Nat2Z.inj_succ. etransitivity; [|etransitivity; [exact Hc|]]; f_equal; lia.
  - rewrite map_size_delete_Some by (by eexists). lia.
  - assert (size (checked c) ≠ 0)%nat by (apply map_size_non_empty_iff; intros He; by rewrite He, lookup_empty in Hch).
    rewrite map_size_delete_Some by (by eexists). rewrite map_size_insert_None by done. lia.
  - rewrite <- Hc, Ha. rewrite <- (Z.add_sub_assoc (wrap 64 _)), (proj1 (wrap_inner _ _)). f_equal. lia.
  - intros b x. rewrite lookup_alter_Some. intros [(-> & x0 & H & ->)|[_ H]]; [rewrite apply_peer_addr|]; auto.
  - by rewrite size_alter.
  - by rewrite size_alter.
  - intros b x. rewrite lookup_delete_Some. intros [_ H]. auto.
  - assert (size (connections (pool c)) ≠ 0)%nat by (apply map_size_non_empty_iff; intros He; by rewrite He, lookup_empty in Hi).
    rewrite map_size_delete_Some by (by eexists). apply (wrap_eq_shift _ _ (-1)) in Hc.
    etransitivity; [|etransitivity; [exact Hc|]]; f_equal; lia.
  - rewrite map_size_delete_Some by (by eexists). lia.
  - rewrite <- Hc, Hrm.
    replace (total_created (pool c) + Z.of_nat (adding c) - (wrap 64 (total_removed (pool c) + 1) + Z.of_nat n))
      with (total_created (pool c) + Z.of_nat (adding c) - Z.of_nat n - wrap 64 (total_removed (pool c) + 1)) by lia.
    rewrite (proj2 (wrap_inner _ _)). f_equal. lia.
Qed.

(** C28: whatever tasks do on the pool at once, it never holds more connections
    than its limit and one less than the number of tasks that insert; every
    connection is filed under its address; and the counters of created and removed
    connections, with the calls that have changed the pool and not yet counted it,
    account for those in the pool modulo 2^64. In between they need not; when no
    call is between its two operations they do by themselves. *)
Theorem pool_bound (tasks max : nat) (cfg : ConnectionConfig.t) (c : conf) :
  (0 < tasks)%nat → rtc (step tasks) (init max cfg) c →
  (S (len (pool c)) ≤ max + tasks)%nat ∧
  (∀ a i, connections (pool c) !! a = Some i → ConnectionInfo.peer_addr i = a) ∧
  wrap 64 ((total_created (pool c) + Z.of_nat (adding c)) - (total_removed (pool c) + Z.of_nat (removing c)))
    = wrap 64 (Z.of_nat (len (pool c))) ∧
  (adding c = 0%nat → removing c = 0%nat → PoolLaws.wf (pool c)).
Proof.
  intros Ht Hrun.
  assert (inv tasks max (init max cfg)) as H0
    by (split; unfold len; simpl; rewrite ?map_size_empty; try done; lia).
  assert (inv tasks max c) as [Hk Hc _ _ Hr].
  { clear Ht. induction Hrun as [c|c c1 c2 Hs Hr IH]; [done|]. apply IH. by eapply conc_step_inv. }
  split_and!; [lia|done|exact Hc|]. intros Ha Hrm. split; [done|]. unfold due in Hc. rewrite Ha, Hrm, !Z.add_0_r in Hc. done.
Qed.

(** With two tasks the limit can be passed by one connection. *)
Lemma pool_limit_passed (now : Z) (a b : SocketAddr.t) (cfg : ConnectionConfig.t) :
  a ≠ b → ∃ c, rtc (step 2) (init 1 cfg) c ∧ len (pool c) = 2%nat.
Proof.
  intros Hne. eexists. split.
  - eapply rtc_l; [apply (StepCheck 2 (init 1 cfg) 0%nat a); [done|simpl; rewrite map_size_empty; lia|by vm_compute]|].
    eapply rtc_l; [apply (StepCheck 2 _ 1%nat b)|]; [done|simpl; rewrite map_size_insert_None by done; rewrite map_size_empty; lia|by vm_compute|].
    eapply rtc_l; [by apply (StepVacant 2 _ 0%nat a now)|].
    eapply rtc_l; [apply (StepVacant 2 _ 1%nat b now); [done|]|apply rtc_refl]. simpl. by rewrite lookup_insert_ne.
  - unfold len. simpl. rewrite !map_size_insert_None; rewrite ?lookup_insert_ne, ?lookup_empty by done; rewrite ?map_size_empty; done.
Qed.

(** Between the two operations of a removal the counters do not account for the pool. *)
Lemma counters_lag (now : Z) (a : SocketAddr.t) (cfg : ConnectionConfig.t) :
  ∃ c, rtc (step 1) (init 1 cfg) c ∧ len (pool c) = 0%nat ∧ total_created (pool c) - total_removed (pool c) = 1.
Proof.
  exists (mkConf (connections_remove a (count_created (entry_insert now a (new 1 cfg)))) ∅ 0 1). split_and!.
  - etrans; [apply (insert_is_steps 1 now a (new 1 cfg) (count_created (entry_insert now a (new 1 cfg)))); [lia|done]|].
    apply rtc_once. eapply (StepRemove 1 (mkConf _ ∅ 0 0) a). apply lookup_insert_eq.
  - unfold len. simpl. by rewrite delete_insert_eq, delete_empty.
  - done.
Qed.
End PoolConc.

Module ConnectionWitness.
Import ConnectionPool.

Definition addr (p : Z) : SocketAddr.t := SocketAddr.V4 [127; 0; 0; 1] p.
Definition cfg : ConnectionConfig.t := ConnectionConfig.mk 10 50 2.

(** Established, one heartbeat missed, the next one overdue. *)
Definition history : list HeartbeatLaws.event :=
  [HeartbeatLaws.State ConnectionState.Established; HeartbeatLaws.Recv 5 100; HeartbeatLaws.Ping 20;
   HeartbeatLaws.Missed; HeartbeatLaws.Send 90 30; HeartbeatLaws.Ping 100].

Lemma heartbeat_history_witness :
  let c := fold_left HeartbeatLaws.apply history (ConnectionInfo.new 0 (addr 1) cfg) in
  ConnectionInfo.is_dead 150 c = true ∧ ConnectionInfo.bytes_recv c = 100.
Proof.
  destruct (HeartbeatLaws.heartbeat_history 0 150 (addr 1) cfg history) as (Hd & _ & Hr & _); [by vm_compute|].
  split; [by apply Hd|]. by rewrite Hr.
Defined.

Definition two : t :=
  with_connection (addr 1) (ConnectionInfo.record_missed_heartbeat ∘ ConnectionInfo.record_missed_heartbeat)
    (insert_entry 0 (addr 2) (insert_entry 0 (addr 1) (new 8 cfg))).

Lemma two_wf : PoolLaws.wf two.
Proof.
  apply PoolLaws.with_connection_wf; [done|]. do 2 apply PoolLaws.insert_entry_wf. by split.
Qed.

Lemma pool_evictions_witness :
  let '(p1, dead) := evict_dead 7 two in
  dead = [addr 1] ∧ connections p1 !! addr 1 = None ∧ PoolLaws.wf p1.
Proof.
  pose proof (PoolLaws.pool_evictions two 7 100 two_wf) as H.
  assert ((evict_dead 7 two).2 = [addr 1]) as Hd by (by vm_compute).
  destruct (evict_dead 7 two) as [p1 dead]. destruct (evict_idle 7 100 two) as [p2 idle].
  cbn [snd] in Hd. subst dead. destruct H as (Hw & _ & _ & _ & Hl & _). split_and!; [done| |exact Hw].
  rewrite Hl. by rewrite decide_True by constructor.
Defined.

Lemma pool_bound_witness :
  ∃ p, rtc (PoolConc.step 2) (PoolConc.init 4 cfg) (PoolConc.mkConf p ∅ 0 0) ∧ len p = 1%nat ∧
    (len p ≤ 5)%nat ∧ PoolLaws.wf p.
Proof.
  assert (rtc (PoolConc.step 2) (PoolConc.init 4 cfg) (PoolConc.mkConf (insert_entry 0 (addr 1) (new 4 cfg)) ∅ 0 0)) as Hr
    by (apply (PoolConc.insert_is_steps 2 0 (addr 1)); [lia|done]).
  eexists. split; [exact Hr|]. destruct (PoolConc.pool_bound 2 4 cfg _ ltac:(lia) Hr) as (Hl & _ & _ & Hw).
  split_and!; [by vm_compute|simpl in Hl; lia|exact (Hw eq_refl eq_refl)].
Defined.
End ConnectionWitness.
