(* ===== verification/Display.v ===== *)
(** What the program prints: the [Display] and [Debug] implementations of the
    workspace (types.rs, identity.rs, detection.rs, supernode.rs, routing.rs,
    pool.rs). A text is the byte string of its UTF-8 form. The laws say what a
    reader of a log line learns from it. *)
From Stdlib Require Import Ascii String.
From stdpp Require Import pretty.
From S2P Require Import Prelude Bytes WireTypes CryptoTypes PeerId Identity Float64 PeerInfo Routing SuperNode DhtMsg Stun Connection.

Local Open Scope Z_scope.

(** ** [format!] *)

(** A literal; the sources' are ASCII. *)
Definition lit (s : string) : bytes := map (λ c, Z.of_N (N_of_ascii c)) (list_ascii_of_string s).

(** The trait [Display], as the text it writes. *)
Class Display (A : Type) : Type := to_text : A → bytes.

(** [{}] of an integer *)
#[export] Instance display_Z : Display Z := λ z, lit (pretty z).
#[export] Instance display_nat : Display nat := λ n, to_text (Z.of_nat n).

(** [{:#x}] of a [u64] *)
Fixpoint nibbles (n : nat) (z : Z) : bytes :=
  match n with
  | O => []
  | S n => nibbles n (z / 16) ++ [hex_digit (z mod 16)]
  end.

Fixpoint strip (s : bytes) : bytes :=
  match s with
  | [] => []
  | c :: s' => if c =? 48 then strip s' else s
  end.

Definition lower_hex (z : Z) : bytes :=
  lit "0x" ++ (match strip (nibbles 16 z) with [] => lit "0" | s => s end).

(** [parts.join(sep)] *)
Fixpoint join (sep : bytes) (parts : list bytes) : bytes :=
  match parts with
  | [] => []
  | [p] => p
  | p :: parts => p ++ sep ++ join sep parts
  end.

(** ** types.rs *)
Definition message_type_text (m : MessageType.t) : bytes :=
  lit match m with
  | MessageType.Handshake => "HANDSHAKE"
  | MessageType.Ping => "PING"
  | MessageType.Pong => "PONG"
  | MessageType.Disconnect => "DISCONNECT"
  | MessageType.FindNode => "FIND_NODE"
  | MessageType.FindNodeResp => "FIND_NODE_RESP"
  | MessageType.Store => "STORE"
  | MessageType.StoreResp => "STORE_RESP"
  | MessageType.FindValue => "FIND_VALUE"
  | MessageType.FindValueResp => "FIND_VALUE_RESP"
  | MessageType.Data => "DATA"
  | MessageType.DataAck => "DATA_ACK"
  | MessageType.CreditUpdate => "CREDIT_UPDATE"
  | MessageType.FileOffer => "FILE_OFFER"
  | MessageType.FileAccept => "FILE_ACCEPT"
  | MessageType.FileReject => "FILE_REJECT"
  | MessageType.FileChunk => "FILE_CHUNK"
  | MessageType.FileChunkAck => "FILE_CHUNK_ACK"
  | MessageType.FileComplete => "FILE_COMPLETE"
  | MessageType.FileCancel => "FILE_CANCEL"
  | MessageType.NatProbe => "NAT_PROBE"
  | MessageType.NatProbeResp => "NAT_PROBE_RESP"
  | MessageType.HolePunch => "HOLE_PUNCH"
  | MessageType.HolePunchResp => "HOLE_PUNCH_RESP"
  | MessageType.RelayRequest => "RELAY_REQUEST"
  | MessageType.RelayData => "RELAY_DATA"
  end%string.
#[export] Instance display_message_type : Display MessageType.t := message_type_text.

(** Not an instance: [Flags.t] is [Z] here. *)
Definition flags_text (f : Flags.t) : bytes :=
  let parts :=
    (if Flags.is_encrypted f then [lit "ENC"] else []) ++
    (if Flags.is_compressed f then [lit "CMP"] else []) ++
    (if Flags.is_fragmented f then [lit "FRG"] else []) ++
    (if Flags.is_priority f then [lit "PRI"] else []) in
  match parts with
  | [] => lit "NONE"
  | _ => join (lit "|") parts
  end.

Definition frame_text (f : Frame.t) : bytes :=
  lit "Frame[" ++ to_text (FrameHeader.msg_type (Frame.header f)) ++
  lit " flags=" ++ flags_text (FrameHeader.flags (Frame.header f)) ++
  lit " req=" ++ lower_hex (FrameHeader.request_id (Frame.header f)) ++
  lit " payload=" ++ to_text (blen (Frame.payload f)) ++ lit "B]".
#[export] Instance display_frame : Display Frame.t := frame_text.

(** ** identity.rs: [Debug]; [Display] of an identifier is [PeerId.to_string] *)
Definition peer_id_debug (p : PeerId.t) : bytes := lit "PeerId(" ++ PeerId.to_string p ++ lit ")".

(** [{:?}] of a string of hexadecimal digits *)
Definition quoted (s : bytes) : bytes := [34] ++ s ++ [34].

(** The public keys only. *)
Definition identity_debug (i : Identity.t) : bytes :=
  lit "Identity { peer_id: " ++ peer_id_debug (Identity.peer_id i) ++
  lit ", ed25519_pk: " ++ quoted (hex_encode (Identity.ed25519_public_key i)) ++
  lit ", x25519_pk: " ++ quoted (hex_encode (Identity.x25519_public_key i)) ++ lit " }".

(** ** detection.rs *)
Definition description (n : NatType.t) : bytes :=
  lit match n with
  | NatType.NoNat => "No NAT (public IP)"
  | NatType.FullCone => "Full Cone NAT"
  | NatType.Restricted => "Address-Restricted Cone NAT"
  | NatType.PortRestricted => "Port-Restricted Cone NAT"
  | NatType.Symmetric => "Symmetric NAT (relay required)"
  | NatType.Unknown => "Unknown NAT type"
  end%string.

#[export] Instance display_nat_type : Display NatType.t := description.

(** ** supernode.rs, routing.rs, pool.rs *)
Definition tier_text (t : SuperNodeTier.t) : bytes :=
  lit match t with
  | SuperNodeTier.Regular => "Regular"
  | SuperNodeTier.Candidate => "Candidate"
  | SuperNodeTier.SuperNode => "SuperNode"
  | SuperNodeTier.Elite => "Elite"
  end%string.
#[export] Instance display_tier : Display SuperNodeTier.t := tier_text.

Definition supernode_stats_text (s : SuperNodeStats.t) : bytes :=
  lit "SuperNodes[" ++ to_text (SuperNodeStats.total_tracked s) ++
  lit " tracked: " ++ to_text (SuperNodeStats.regular s) ++
  lit " regular, " ++ to_text (SuperNodeStats.candidate s) ++
  lit " candidate, " ++ to_text (SuperNodeStats.supernode s) ++
  lit " super, " ++ to_text (SuperNodeStats.elite s) ++ lit " elite]".
#[export] Instance display_supernode_stats : Display SuperNodeStats.t := supernode_stats_text.

Definition routing_stats_text (s : RoutingStats.t) : bytes :=
  lit "RT[" ++ to_text (RoutingStats.total_peers s) ++
  lit " peers in " ++ to_text (RoutingStats.non_empty_buckets s) ++
  lit " buckets: " ++ to_text (RoutingStats.active s) ++
  lit " active, " ++ to_text (RoutingStats.suspect s) ++
  lit " suspect, " ++ to_text (RoutingStats.discovered s) ++ lit " discovered]".
#[export] Instance display_routing_stats : Display RoutingStats.t := routing_stats_text.

Definition pool_stats_text (s : PoolStats.t) : bytes :=
  lit "Pool[" ++ to_text (PoolStats.active s) ++
  lit "/" ++ to_text (PoolStats.max s) ++
  lit " active, " ++ to_text (PoolStats.established s) ++
  lit " established, " ++ to_text (PoolStats.connecting s) ++
  lit " connecting, recv=" ++ to_text (PoolStats.total_bytes_recv s) ++
  lit "B sent=" ++ to_text (PoolStats.total_bytes_sent s) ++ lit "B]".
#[export] Instance display_pool_stats : Display PoolStats.t := pool_stats_text.

(** ** Reading a text back *)
Module DisplayLaws.

(** A text of one kind of characters ends where another begins. *)
Lemma cut_at (P : Z → Prop) x y c d s t :
  Forall P x → Forall P y → ¬ P c → ¬ P d → x ++ c :: s = y ++ d :: t → x = y ∧ c :: s = d :: t.
Proof.
  intros Hx. revert y. induction Hx as [|u x Hu _ IH]; intros y Hy Hc Hd E.
  - destruct Hy as [|v y Hv _]; [done|]. injection E as -> _. done.
  - destruct Hy as [|v y Hv Hy]; injection E as -> E; [done|]. by destruct (IH y Hy Hc Hd E) as [-> ->].
Qed.

#[export] Instance lit_inj : Inj (=) (=) lit.
Proof.
  intros s t H. unfold lit in H. rewrite <- (string_of_list_ascii_of_string s), <- (string_of_list_ascii_of_string t).
  f_equal. revert H. apply (list_fmap_eq_inj (λ c, Z.of_N (N_of_ascii c))).
  intros c d E. apply (inj Z.of_N) in E. by rewrite <- (ascii_N_embedding c), <- (ascii_N_embedding d), E.
Qed.

(** *** Numbers *)
Definition digit (c : Z) : Prop := 48 ≤ c ≤ 57.

Lemma lit_cons c s : lit (String c s) = Z.of_N (N_of_ascii c) :: lit s.
Proof. done. Qed.

Lemma pretty_char_digit x : digit (Z.of_N (N_of_ascii (pretty_N_char x))).
Proof. unfold digit, pretty_N_char. by repeat case_match; vm_compute. Qed.

Lemma pretty_go_digits x : ∀ s, Forall digit (lit s) → Forall digit (lit (pretty_N_go x s)).
Proof.
  induction (N.lt_wf_0 x) as [x _ IH]. intros s Hs. destruct (decide (x = 0)%N) as [->|Hx]; [done|].
  rewrite pretty_N_go_step by lia. apply IH; [by apply N.div_lt; lia|]. rewrite lit_cons. constructor; [apply pretty_char_digit|done].
Qed.

Lemma number_digits z : 0 ≤ z → Forall digit (to_text z).
Proof.
  intros Hz. unfold to_text, display_Z. destruct z as [|p|p]; [by repeat constructor| |lia].
  change (pretty (Z.pos p)) with (pretty_N_go (N.pos p) ""). by apply pretty_go_digits.
Qed.

Lemma number_inj (y z : Z) : to_text y = to_text z → y = z.
Proof. intros H. change (lit (pretty y) = lit (pretty z)) in H. by apply (inj lit), (inj pretty) in H. Qed.

Lemma nat_text (n : nat) : to_text n = to_text (Z.of_nat n).
Proof. done. Qed.

(** A number before a literal that does not start with a digit, and the last one. *)
Lemma cut_number y z c k s t :
  0 ≤ y → 0 ≤ z → ¬ digit (Z.of_N (N_of_ascii c)) →
  to_text y ++ lit (String c k) ++ s = to_text z ++ lit (String c k) ++ t → y = z ∧ s = t.
Proof.
  intros Hy Hz Hc E. apply (cut_at digit) in E as [E1%number_inj E2]; [|by apply number_digits..|done|done].
  injection E2 as E2. by apply app_inv_head in E2.
Qed.

Lemma cut_last (y z : Z) k : to_text y ++ lit k = to_text z ++ lit k → y = z.
Proof. by intros ->%app_inv_tail%number_inj. Qed.

(** Reads the numbers of a format string off an equation of two texts. *)
Ltac read_numbers H :=
  rewrite ?nat_text in H; apply app_inv_head in H;
  repeat (apply cut_number in H as [? H]; [|lia|lia|by vm_compute; intros []]);
  apply cut_last in H.

(** The statistics in a log line are those of the object printed. *)
Lemma pool_stats_read (s t : PoolStats.t) :
  0 ≤ PoolStats.total_bytes_recv s → 0 ≤ PoolStats.total_bytes_recv t → to_text s = to_text t →
  PoolStats.active s = PoolStats.active t ∧ PoolStats.max s = PoolStats.max t ∧
  PoolStats.established s = PoolStats.established t ∧ PoolStats.connecting s = PoolStats.connecting t ∧
  PoolStats.total_bytes_recv s = PoolStats.total_bytes_recv t ∧ PoolStats.total_bytes_sent s = PoolStats.total_bytes_sent t.
Proof. intros H1 H2 H. change (pool_stats_text s = pool_stats_text t) in H. unfold pool_stats_text in H. read_numbers H. split_and!; lia. Qed.

Lemma routing_stats_read (s t : RoutingStats.t) :
  0 ≤ RoutingStats.total_peers s → 0 ≤ RoutingStats.total_peers t → to_text s = to_text t → s = t.
Proof. intros H1 H2 H. change (routing_stats_text s = routing_stats_text t) in H. unfold routing_stats_text in H. read_numbers H. destruct s, t. simpl in *. f_equal; lia. Qed.

Lemma supernode_stats_read (s t : SuperNodeStats.t) : to_text s = to_text t → s = t.
Proof. intros H. change (supernode_stats_text s = supernode_stats_text t) in H. unfold supernode_stats_text in H. read_numbers H. destruct s, t. simpl in *. f_equal; lia. Qed.

(** *** Names: none is another's, none has a space in it *)
Definition graphic (c : Z) : Prop := c ≠ 32.

Lemma message_type_read (x y : MessageType.t) : to_text x = to_text y → x = y.
Proof. intros H. destruct x, y; first [reflexivity | vm_compute in H; discriminate H]. Qed.

Lemma message_type_graphic (x : MessageType.t) : Forall graphic (to_text x).
Proof. destruct x; repeat constructor; discriminate. Qed.

Lemma nat_type_read (x y : NatType.t) : to_text x = to_text y → x = y.
Proof. intros H. destruct x, y; first [reflexivity | vm_compute in H; discriminate H]. Qed.

Lemma tier_read (x y : SuperNodeTier.t) : to_text x = to_text y → x = y.
Proof. intros H. destruct x, y; first [reflexivity | vm_compute in H; discriminate H]. Qed.

(** The four flags in use can be read off; the reserved bits are not printed. *)
Lemma flags_read f g :
  flags_text f = flags_text g ↔
  Flags.is_encrypted f = Flags.is_encrypted g ∧ Flags.is_compressed f = Flags.is_compressed g ∧
  Flags.is_fragmented f = Flags.is_fragmented g ∧ Flags.is_priority f = Flags.is_priority g.
Proof.
  unfold flags_text. split; [|by intros (-> & -> & -> & ->)].
  destruct (Flags.is_encrypted f), (Flags.is_compressed f), (Flags.is_fragmented f), (Flags.is_priority f),
    (Flags.is_encrypted g), (Flags.is_compressed g), (Flags.is_fragmented g), (Flags.is_priority g);
    intros H; first [done | vm_compute in H; discriminate H].
Qed.

Lemma flags_graphic f : Forall graphic (flags_text f).
Proof.
  unfold flags_text.
  destruct (Flags.is_encrypted f), (Flags.is_compressed f), (Flags.is_fragmented f), (Flags.is_priority f);
    repeat constructor; discriminate.
Qed.

(** *** Hexadecimal numbers *)
Lemma hex_digit_inj d e : 0 ≤ d < 16 → 0 ≤ e < 16 → hex_digit d = hex_digit e → d = e.
Proof. unfold hex_digit. destruct (Z.ltb_spec d 10), (Z.ltb_spec e 10); lia. Qed.

Lemma length_nibbles n z : length (nibbles n z) = n.
Proof. revert z. induction n as [|n IH]; intros z; [done|]. simpl. rewrite length_app, IH. simpl. lia. Qed.

Lemma nibbles_inj n : ∀ y z, 0 ≤ y < 16 ^ Z.of_nat n → 0 ≤ z < 16 ^ Z.of_nat n → nibbles n y = nibbles n z → y = z.
Proof.
  induction n as [|n IH]; intros y z Hy Hz H; [simpl in *; lia|]. cbn [nibbles] in H.
  rewrite Nat2Z.inj_succ, Z.pow_succ_r in Hy, Hz by lia. apply app_inj_tail in H as [H1 H2].
  pose proof (Z.mod_pos_bound y 16). pose proof (Z.mod_pos_bound z 16).
  apply IH in H1; [|split; [apply Z.div_pos; lia|apply Z.div_lt_upper_bound; lia]..].
  apply hex_digit_inj in H2; [|lia..]. rewrite (Z.div_mod y 16), (Z.div_mod z 16) by lia. lia.
Qed.

Lemma strip_spec s : ∃ k, s = replicate k 48 ++ strip s ∧ head (strip s) ≠ Some 48.
Proof.
  induction s as [|c s (k & IH & Hh)]; [by exists 0%nat|]. simpl. destruct (Z.eqb_spec c 48) as [->|Hc].
  - exists (S k). simpl. by rewrite <- IH.
  - exists 0%nat. split; [done|]. simpl. congruence.
Qed.

Lemma strip_inj s t : length s = length t → strip s = strip t → s = t.
Proof.
  intros Hl E. destruct (strip_spec s) as (i & Hs & _), (strip_spec t) as (j & Ht & _).
  rewrite Hs, Ht in Hl. rewrite E, !length_app, !length_replicate in Hl.
  assert (i = j) as -> by lia. congruence.
Qed.

Lemma lower_hex_read y z : is_u64 y → is_u64 z → lower_hex y = lower_hex z → y = z.
Proof.
  intros Hy Hz H. unfold lower_hex in H. apply app_inv_head in H. apply (nibbles_inj 16); [done|done|].
  apply strip_inj; [by rewrite !length_nibbles|].
  destruct (strip_spec (nibbles 16 y)) as (i & _ & Hi), (strip_spec (nibbles 16 z)) as (j & _ & Hj).
  destruct (strip (nibbles 16 y)) as [|c s], (strip (nibbles 16 z)) as [|d t]; [done| | |exact H].
  - injection H as <- <-. done.
  - injection H as -> ->. done.
Qed.

Lemma hex_digit_graphic d : 0 ≤ d < 16 → graphic (hex_digit d).
Proof. unfold graphic, hex_digit. destruct (Z.ltb_spec d 10); lia. Qed.

Lemma nibbles_graphic n z : Forall graphic (nibbles n z).
Proof.
  revert z. induction n as [|n IH]; intros z; [done|]. apply Forall_app. split; [apply IH|].
  constructor; [|done]. apply hex_digit_graphic, Z.mod_pos_bound. lia.
Qed.

Lemma lower_hex_graphic z : Forall graphic (lower_hex z).
Proof.
  unfold lower_hex. apply Forall_app. split; [by repeat constructor|].
  pose proof (nibbles_graphic 16 z) as H. destruct (strip_spec (nibbles 16 z)) as (k & E & _). rewrite E in H.
  apply Forall_app in H as [_ H]. destruct (strip _); [by repeat constructor|done].
Qed.

(** A word before a space. *)
Lemma cut_word x y k s t :
  Forall graphic x → Forall graphic y → x ++ lit (String " " k) ++ s = y ++ lit (String " " k) ++ t → x = y ∧ s = t.
Proof.
  intros Hx Hy E. apply (cut_at graphic) in E as [-> E2]; [|done|done|intros []; done|intros []; done].
  injection E2 as E2. by apply app_inv_head in E2.
Qed.

(** The line of a frame tells its type, its flags in use, its request and the size
    of its payload. *)
Lemma frame_read (f g : Frame.t) :
  is_u64 (FrameHeader.request_id (Frame.header f)) → is_u64 (FrameHeader.request_id (Frame.header g)) →
  to_text f = to_text g →
  FrameHeader.msg_type (Frame.header f) = FrameHeader.msg_type (Frame.header g) ∧
  flags_text (FrameHeader.flags (Frame.header f)) = flags_text (FrameHeader.flags (Frame.header g)) ∧
  FrameHeader.request_id (Frame.header f) = FrameHeader.request_id (Frame.header g) ∧
  blen (Frame.payload f) = blen (Frame.payload g).
Proof.
  intros Hf Hg H. change (frame_text f = frame_text g) in H. unfold frame_text in H. apply app_inv_head in H.
  apply cut_word in H as [E1%message_type_read H]; [|apply message_type_graphic..].
  apply cut_word in H as [E2 H]; [|apply flags_graphic..].
  apply cut_word in H as [E3%lower_hex_read H]; [|done|done|apply lower_hex_graphic..].
  apply cut_last in H. done.
Qed.

Example frame_line :
  to_text (Frame.new MessageType.Data (Flags.with_encrypted Flags.empty) 1000 [1; 2; 3]) =
  lit "Frame[DATA flags=ENC req=0x3e8 payload=3B]".
Proof. vm_compute. reflexivity. Qed.
End DisplayLaws.
