(* ===== verification/Transport.v ===== *)
(** ceky-transport: tcp.rs, udp.rs and the events of lib.rs.

    A transport is the shared state of its tasks: the pool, the events sent to the
    upper layer, the map from a peer to the channel of its writer, and per
    connection the channel with the state of its writer and reader task. Here a
    handler of a task is one step (TransportConc.v splits them into the operations
    other tasks can come between); what the socket does (whether a write succeeds, what
    [framed_reader.next()] yields, the datagrams that arrive) is an argument. *)
From Stdlib Require Import String.
From S2P Require Import Prelude Bytes WireTypes FrameCodec DhtMsg Connection.

Local Open Scope Z_scope.

(** Errors of [FramedRead]: the codec's, or one of the socket. *)
Inductive ReadError : Type :=
| Codec (e : ProtocolError)
| Socket.

Module TransportEvent.
Inductive t : Type :=
| Connected (peer_addr : SocketAddr.t)
| Disconnected (peer_addr : SocketAddr.t) (reason : string)
| FrameReceived (peer_addr : SocketAddr.t) (frame : Frame.t)
| Error (peer_addr : option SocketAddr.t) (error : ReadError).
End TransportEvent.

(** ** The channel of a writer task and the two tasks of a connection

    A channel is what was sent on it and how much of that was received. *)
Module Conn.
Record t : Type := mk {
  peer_addr : SocketAddr.t;
  sent : list Frame.t;       (** frames accepted by [write_tx.send] *)
  taken : nat;               (** how many of them [write_rx.recv] returned *)
  writer : bool;             (** the writer task runs (it owns [write_rx]) *)
  reader : bool;             (** the reader task runs *)
  out : bytes                (** bytes written to the socket *)
}.

Definition start (peer_addr : SocketAddr.t) : t := mk peer_addr [] 0 true true [].

(** [UnboundedSender::send]: refused once the receiver is gone. *)
Definition send (f : Frame.t) (c : t) : option t :=
  if writer c then Some (mk (peer_addr c) (sent c ++ [f]) (taken c) (writer c) (reader c) (out c)) else None.

Definition wrote (w : bytes) (c : t) : t :=
  mk (peer_addr c) (sent c) (S (taken c)) (writer c) (reader c) (out c ++ w).
Definition writer_stops (c : t) : t := mk (peer_addr c) (sent c) (taken c) false (reader c) (out c).
Definition reader_stops (c : t) : t := mk (peer_addr c) (sent c) (taken c) (writer c) false (out c).
End Conn.

Module TcpTransport.
Record t : Type := mk {
  listen_addr : SocketAddr.t;
  pool : ConnectionPool.t;
  events : list TransportEvent.t;          (** all events sent so far, in order *)
  peer_senders : gmap SocketAddr.t nat;    (** the connection whose channel is filed *)
  conns : gmap nat Conn.t;
  next : nat                               (** the number of the next connection *)
}.

Definition bind (listen_addr : SocketAddr.t) (pool : ConnectionPool.t) : t :=
  mk listen_addr pool [] ∅ ∅ 0.

Definition on_pool (f : ConnectionPool.t → ConnectionPool.t) (s : t) : t :=
  mk (listen_addr s) (f (pool s)) (events s) (peer_senders s) (conns s) (next s).
Definition emit (e : TransportEvent.t) (s : t) : t :=
  mk (listen_addr s) (pool s) (events s ++ [e]) (peer_senders s) (conns s) (next s).
Definition on_senders (f : gmap SocketAddr.t nat → gmap SocketAddr.t nat) (s : t) : t :=
  mk (listen_addr s) (pool s) (events s) (f (peer_senders s)) (conns s) (next s).
Definition on_conn (i : nat) (f : Conn.t → Conn.t) (s : t) : t :=
  mk (listen_addr s) (pool s) (events s) (peer_senders s) (alter f i (conns s)) (next s).
Definition with_connection (a : SocketAddr.t) (f : ConnectionInfo.t → ConnectionInfo.t) : t → t :=
  on_pool (ConnectionPool.with_connection a f).

(** The two tasks of a new connection, its channel filed under the peer. *)
Definition spawn_connection_tasks (peer_addr : SocketAddr.t) (s : t) : t :=
  mk (listen_addr s) (pool s) (events s) (<[peer_addr := next s]> (peer_senders s))
     (<[next s := Conn.start peer_addr]> (conns s)) (S (next s)).

(** What follows the insertion into the pool, for both directions, when nothing
    interrupts it; [TcpConc] has its operations one by one. *)
Definition establish (peer_addr : SocketAddr.t) (s : t) : t :=
  spawn_connection_tasks peer_addr
    (with_connection peer_addr ConnectionInfo.set_established
       (emit (TransportEvent.Connected peer_addr) s)).

(** One turn of the loop that [start_listening] spawns; an error of [accept] is
    logged and changes nothing. *)
Definition accept (now : Z) (accepted : result unit SocketAddr.t) (s : t) : t :=
  match accepted with
  | Ok peer_addr =>
      match ConnectionPool.insert now peer_addr (pool s) with
      | (_, Ok _) => establish peer_addr (on_pool (λ p, (ConnectionPool.insert now peer_addr p).1) s)
      | (_, _) => s
      end
  | _ => s
  end.

(** [stream]: the outcome of [TcpStream::connect]. *)
Definition connect (now : Z) (peer_addr : SocketAddr.t) (stream : result unit unit) : method t TransportError.t unit :=
  λ s,
  match stream with
  | Ok _ =>
      match ConnectionPool.insert now peer_addr (pool s) with
      | (p, Ok _) => (establish peer_addr (on_pool (λ _, p) s), Ok tt)
      | (p, Err e) => (on_pool (λ _, p) s, Err e)
      | (p, Panic) => (on_pool (λ _, p) s, Panic)
      end
  | _ => (s, Err TransportError.Io)
  end.

(** [sender.send(frame)] on the channel of connection [i]. *)
Definition channel_send (i : nat) (f : Frame.t) (s : t) : option t :=
  c ← conns s !! i;
  c' ← Conn.send f c;
  Some (on_conn i (λ _, c') s).

Definition send_to (now : Z) (peer_addr : SocketAddr.t) (frame : Frame.t) : method t TransportError.t unit := λ s,
  match peer_senders s !! peer_addr with
  | Some i =>
      match channel_send i frame s with
      | Some s' => (with_connection peer_addr (ConnectionInfo.record_send now 0) s', Ok tt)
      | None => (s, Err TransportError.SendFailed)
      end
  | None => (s, Err (TransportError.PeerNotFound peer_addr))
  end.

Definition broadcast (frame : Frame.t) (s : t) : t :=
  fold_left (λ s e, default s (channel_send e.2 frame s)) (map_to_list (peer_senders s)) s.

Definition disconnect (peer_addr : SocketAddr.t) (s : t) : t :=
  with_connection peer_addr ConnectionInfo.set_closing (on_senders (delete peer_addr) s).

(** *** The writer task *)

(** What the socket makes of a write: all of it, or the first [n] bytes and an
    error. *)
Inductive write_outcome : Set := Written | Broken (n : nat).

Section Tasks.
Context `{CRC : !Crc32c}.

(** A turn of the writer loop with a frame in the channel. *)
Definition writer_turn (now : Z) (w : write_outcome) (i : nat) (s : t) : t :=
  match conns s !! i with
  | Some c =>
      if Conn.writer c then
        match Conn.sent c !! Conn.taken c with
        | Some frame =>
            let wire_size := Frame.wire_size frame in
            match FrameCodec.encode frame [], w with
            | Ok bs, Written =>
                with_connection (Conn.peer_addr c) (ConnectionInfo.record_send now wire_size)
                  (on_conn i (Conn.wrote bs) s)
            | Ok bs, Broken n => on_conn i (Conn.writer_stops ∘ Conn.wrote (take n bs)) s
            | _, _ => on_conn i (Conn.writer_stops ∘ Conn.wrote []) s
            end
        | None => s
        end
      else s
  | None => s
  end.

(** [write_rx.recv()] returns [None]: the channel is empty and its only sender,
    the one in [peer_senders], was dropped. *)
Definition sender_dropped (i : nat) (s : t) : bool :=
  match conns s !! i with
  | Some c => negb (bool_decide (peer_senders s !! Conn.peer_addr c = Some i))
  | None => true
  end.

Definition writer_exit (i : nat) (s : t) : t :=
  match conns s !! i with
  | Some c =>
      if Conn.writer c && sender_dropped i s && (length (Conn.sent c) <=? Conn.taken c)%nat
      then on_conn i Conn.writer_stops s else s
  | None => s
  end.

(** *** The reader task *)
(** What the reader does with a frame once it is counted. *)
Definition dispatch (now : Z) (peer_addr : SocketAddr.t) (frame : Frame.t) (s : t) : t :=
  match FrameHeader.msg_type (Frame.header frame) with
  | MessageType.Ping =>
      let pong := Frame.simple MessageType.Pong (FrameHeader.request_id (Frame.header frame)) in
      match peer_senders s !! peer_addr with
      | Some j => default s (channel_send j pong s)
      | None => s
      end
  | MessageType.Pong => with_connection peer_addr (ConnectionInfo.record_pong_received now) s
  | _ => emit (TransportEvent.FrameReceived peer_addr frame) s
  end.

Definition handle_frame (now : Z) (peer_addr : SocketAddr.t) (frame : Frame.t) (s : t) : t :=
  dispatch now peer_addr frame
    (with_connection peer_addr (ConnectionInfo.record_recv now (Frame.wire_size frame)) s).

(** The end of a reader that nothing interrupts; [TcpConc] has its operations one by
    one. *)
Definition cleanup (i : nat) (peer_addr : SocketAddr.t) (s : t) : t :=
  let s := on_senders (delete peer_addr) s in
  let s := with_connection peer_addr ConnectionInfo.set_closed s in
  let s := on_pool (λ p, (ConnectionPool.remove peer_addr p).1) s in
  let s := emit (TransportEvent.Disconnected peer_addr "connection closed") s in
  on_conn i Conn.reader_stops s.

(** What [framed_reader.next()] yields: [Some(Ok)], [Some(Err)] or [None]. *)
Inductive next_item : Type :=
| Item (frame : Frame.t)
| Failed (e : ReadError)
| Eof.

(** A turn of the reader loop. *)
Definition reader_turn (now : Z) (item : next_item) (i : nat) (s : t) : t :=
  match conns s !! i with
  | Some c =>
      let peer_addr := Conn.peer_addr c in
      if Conn.reader c then
        match item with
        | Item frame => handle_frame now peer_addr frame s
        | Failed e => cleanup i peer_addr (emit (TransportEvent.Error (Some peer_addr) e) s)
        | Eof => cleanup i peer_addr s
        end
      else s
  | None => s
  end.

(** A whole read of the socket: the frames the codec finds, one turn each. *)
Definition read_frames (now : Z) (i : nat) (fs : list Frame.t) (s : t) : t :=
  fold_left (λ s f, reader_turn now (Item f) i s) fs s.

(** What any task may do next. *)
Inductive step : t → t → Prop :=
| StepAccept now r s : step s (accept now r s)
| StepConnect now a r s : step s (connect now a r s).1
| StepSend now a f s : step s (send_to now a f s).1
| StepBroadcast f s : step s (broadcast f s)
| StepDisconnect a s : step s (disconnect a s)
| StepWrite now w i s : step s (writer_turn now w i s)
| StepWriterExit i s : step s (writer_exit i s)
| StepRead now item i s : step s (reader_turn now item i s).
End Tasks.
End TcpTransport.

(** ** udp.rs *)
Module UdpTransport.
Definition MAX_DATAGRAM_SIZE : Z := 65535.

Section Codec.
Context `{CRC : !Crc32c}.

(** A turn of the receive loop: a datagram arrived ([recv_from] keeps what fits
    the buffer), or the socket failed. The turn reports events, or panics with the
    codec. *)
Definition receive (arrived : option (bytes * SocketAddr.t)) : result TransportError.t (list TransportEvent.t) :=
  match arrived with
  | Some (datagram, peer_addr) =>
      let data := take (Z.to_nat MAX_DATAGRAM_SIZE) datagram in
      match FrameCodec.decode FrameCodec.Header data with
      | (_, _, Ok (Some frame)) => Ok [TransportEvent.FrameReceived peer_addr frame]
      | (_, _, Ok None) => Ok []
      | (_, _, Err _) => Ok []
      | (_, _, Panic) => Panic
      end
  | None => Ok []
  end.

(** [net]: what the socket answers to [send_to] of a datagram. *)
Definition send_to (net : bytes → result unit Z) (frame : Frame.t) : result TransportError.t Z :=
  buf ← map_err TransportError.Protocol (FrameCodec.encode frame []);
  map_err (λ _, TransportError.Io) (net buf).

Definition send_raw (net : bytes → result unit Z) (data : bytes) : result TransportError.t Z :=
  map_err (λ _, TransportError.Io) (net data).
End Codec.
End UdpTransport.

(** ** Frames through the channel and the socket *)
Module TcpLaws.
Import TcpTransport.

Section Laws.
Context `{CRC : !Crc32c}.

(** What is on the socket against what was sent on the channel: all of the frames
    taken while the writer runs, the beginning of them when it stopped. *)
Definition channel_ok (c : Conn.t) : Prop :=
  (Conn.taken c ≤ length (Conn.sent c))%nat ∧
  Conn.out c `prefix_of` concat (FrameCodec.wire <$> take (Conn.taken c) (Conn.sent c)) ∧
  (Conn.writer c = true → Conn.out c = concat (FrameCodec.wire <$> take (Conn.taken c) (Conn.sent c))).

Definition channels_ok (s : t) : Prop := ∀ i c, conns s !! i = Some c → channel_ok c.

Lemma channel_ok_start a : channel_ok (Conn.start a).
Proof. by split_and!. Qed.

Lemma channel_ok_send f c c' : channel_ok c → Conn.send f c = Some c' → channel_ok c'.
Proof.
  intros (Hl & Hp & Ho) Hs. unfold Conn.send in Hs. case_match; [|done]. injection Hs as <-.
  unfold channel_ok. simpl. rewrite length_app, take_app_le by lia. split_and!; [lia|done|done].
Qed.

Lemma channel_ok_wrote f c w (k : bool) :
  channel_ok c → Conn.writer c = true → Conn.sent c !! Conn.taken c = Some f →
  w `prefix_of` FrameCodec.wire f → (k = true → w = FrameCodec.wire f) →
  channel_ok (if k then Conn.wrote w c else Conn.writer_stops (Conn.wrote w c)).
Proof.
  intros (Hl & _ & Ho) Hw Hf [w' Hw'] Hk. specialize (Ho Hw). apply lookup_lt_Some in Hf as Hlt.
  assert (concat (FrameCodec.wire <$> take (S (Conn.taken c)) (Conn.sent c)) = Conn.out c ++ FrameCodec.wire f) as E.
  { rewrite (take_S_r _ _ f) by done. rewrite fmap_app, concat_app, Ho. simpl. by rewrite app_nil_r. }
  destruct k; unfold channel_ok; cbn [Conn.wrote Conn.writer_stops Conn.taken Conn.sent Conn.out Conn.writer];
    rewrite E; split_and!; try lia; try done.
  - rewrite Hk by done. done.
  - intros _. by rewrite Hk.
  - exists w'. by rewrite <- app_assoc, Hw'.
Qed.

Lemma channel_ok_stops c : channel_ok c → channel_ok (Conn.writer_stops c).
Proof. intros (Hl & Hp & _). by split_and!. Qed.

Lemma on_conn_ok i g s :
  channels_ok s → (∀ c, conns s !! i = Some c → channel_ok (g c)) → channels_ok (on_conn i g s).
Proof.
  intros Hs Hg j c. simpl. destruct (decide (i = j)) as [->|Hne].
  - rewrite lookup_alter_eq, fmap_Some. intros (d & Hd & ->). by apply Hg.
  - rewrite lookup_alter_ne by done. apply Hs.
Qed.

Lemma channel_send_ok i f s s' : channels_ok s → channel_send i f s = Some s' → channels_ok s'.
Proof.
  intros Hs Hc. unfold channel_send in Hc.
  destruct (conns s !! i) as [c|] eqn:Hi; [|done]. simpl in Hc.
  destruct (Conn.send f c) as [c'|] eqn:Hf; [|done]. injection Hc as <-.
  apply on_conn_ok; [done|]. intros _ _. eapply channel_ok_send; [by eapply Hs|done].
Qed.

Lemma spawn_ok a s : channels_ok s → channels_ok (spawn_connection_tasks a s).
Proof.
  intros Hs i c. simpl. destruct (decide (next s = i)) as [->|Hne].
  - rewrite lookup_insert_eq. intros [= <-]. apply channel_ok_start.
  - rewrite lookup_insert_ne by done. apply Hs.
Qed.

Lemma writer_turn_ok now w i s : channels_ok s → channels_ok (writer_turn now w i s).
Proof.
  intros Hs. unfold writer_turn. destruct (conns s !! i) as [c|] eqn:Hi; [|done].
  destruct (Conn.writer c) eqn:Hw; [|done]. destruct (Conn.sent c !! Conn.taken c) as [f|] eqn:Hf; [|done].
  assert (∀ w (k : bool), w `prefix_of` FrameCodec.wire f → (k = true → w = FrameCodec.wire f) →
    channels_ok (on_conn i (λ c, if k then Conn.wrote w c else Conn.writer_stops (Conn.wrote w c)) s)) as Hg.
  { intros w' k Hp Hk. apply on_conn_ok; [done|]. intros c' Hc'. rewrite Hi in Hc'. injection Hc' as <-.
    by apply (channel_ok_wrote f); [apply (Hs i)|..]. }
  assert (∀ bs, FrameCodec.encode f [] = Ok bs → FrameCodec.wire f = bs) as He
    by (intros bs E; unfold FrameCodec.wire; by rewrite E).
  destruct (FrameCodec.encode f []) as [bs|e|] eqn:E; [destruct w as [|n]|..].
  - apply (Hg bs true); by rewrite (He bs eq_refl).
  - apply (Hg (take n bs) false); [|done]. rewrite (He bs eq_refl). apply prefix_take.
  - apply (Hg [] false); [apply prefix_nil|done].
  - apply (Hg [] false); [apply prefix_nil|done].
Qed.

Lemma fold_channel_send_ok f l s :
  channels_ok s → channels_ok (fold_left (λ s (e : SocketAddr.t * nat), default s (channel_send e.2 f s)) l s).
Proof.
  revert s. induction l as [|e l IH]; intros s Hs; [done|]. simpl. apply IH.
  destruct (channel_send e.2 f s) as [s'|] eqn:E; [|done]. simpl. by eapply channel_send_ok.
Qed.

Lemma handle_frame_ok now a f s : channels_ok s → channels_ok (handle_frame now a f s).
Proof.
  intros Hs. unfold handle_frame, dispatch. destruct (FrameHeader.msg_type _); try done.
  case_match; [|done].
  match goal with |- channels_ok (default ?s' ?m) => destruct m as [s''|] eqn:E end; [|done].
  simpl. eapply channel_send_ok; [|done]. done.
Qed.

Lemma cleanup_ok i a s : channels_ok s → channels_ok (cleanup i a s).
Proof. intros Hs. apply on_conn_ok; [done|]. intros c Hc. exact (Hs i c Hc). Qed.

Lemma step_channels s s' : channels_ok s → step s s' → channels_ok s'.
Proof.
  intros Hs Hst. destruct Hst as [now r s|now a r s|now a f s|f s|a s|now w i s|i s|now item i s].
  - unfold accept. destruct r; [|done..]. case_match. case_match; [|done..]. by apply spawn_ok.
  - unfold connect. destruct r; [|done..]. case_match. case_match; [|done..]. by apply spawn_ok.
  - unfold send_to. case_match; [|done]. destruct (channel_send _ _ _) eqn:E; [|done]. simpl.
    by eapply channel_send_ok in E.
  - by apply fold_channel_send_ok.
  - done.
  - by apply writer_turn_ok.
  - unfold writer_exit. case_match eqn:Hi; [|done]. case_match; [|done].
    apply on_conn_ok; [done|]. intros c Hc. by apply channel_ok_stops, (Hs i).
  - unfold reader_turn. case_match; [|done]. case_match; [|done].
    destruct item; [by apply handle_frame_ok|by apply cleanup_ok|by apply cleanup_ok].
Qed.

Lemma reachable_channels la p s : rtc step (bind la p) s → channels_ok s.
Proof.
  intros Hr. assert (channels_ok (bind la p)) as H0 by (intros i c; simpl; by rewrite lookup_empty).
  induction Hr as [|s1 s2 s3 Hst Hr IH]; [done|]. apply IH. by eapply step_channels.
Qed.
End Laws.

(** Frames the reader hands to the upper layer: all but the heartbeat. *)
Definition forwarded (f : Frame.t) : bool :=
  match FrameHeader.msg_type (Frame.header f) with
  | MessageType.Ping | MessageType.Pong => false
  | _ => true
  end.

Lemma channel_send_frame i f s s' :
  channel_send i f s = Some s' →
  events s' = events s ∧ pool s' = pool s ∧ peer_senders s' = peer_senders s ∧ next s' = next s ∧
  ∃ c, conns s !! i = Some c ∧ Conn.writer c = true ∧
    conns s' = <[i := Conn.mk (Conn.peer_addr c) (Conn.sent c ++ [f]) (Conn.taken c) true (Conn.reader c) (Conn.out c)]> (conns s).
Proof.
  unfold channel_send. intros H. destruct (conns s !! i) as [c|] eqn:Hc; [|done]. simpl in H.
  unfold Conn.send in H. destruct (Conn.writer c) eqn:Hw; [|done]. simpl in H. injection H as <-.
  split_and!; [done..|]. exists c. split_and!; [done..|]. simpl.
  apply map_eq. intros j. destruct (decide (i = j)) as [->|Hne].
  - by rewrite lookup_alter_eq, Hc, lookup_insert_eq.
  - by rewrite lookup_alter_ne, lookup_insert_ne.
Qed.

Lemma handle_frame_events now a f s :
  events (handle_frame now a f s) =
  events s ++ (if forwarded f then [TransportEvent.FrameReceived a f] else []).
Proof.
  unfold handle_frame, dispatch, forwarded. destruct (FrameHeader.msg_type _); simpl; rewrite ?app_nil_r; try done.
  case_match; [|done].
  match goal with |- context [channel_send ?i ?p ?s'] => destruct (channel_send i p s') as [s''|] eqn:E end; [|done].
  apply channel_send_frame in E as (E & _). simpl. by rewrite E.
Qed.

(** A turn that reads a frame does not touch the tasks. *)
Lemma handle_frame_conn now a f s j d :
  conns s !! j = Some d →
  ∃ d', conns (handle_frame now a f s) !! j = Some d' ∧
    Conn.peer_addr d' = Conn.peer_addr d ∧ Conn.reader d' = Conn.reader d.
Proof.
  intros Hd. unfold handle_frame, dispatch. destruct (FrameHeader.msg_type _); simpl; try (by eauto).
  case_match; [|by eauto].
  match goal with |- context [channel_send ?i ?p ?s'] => destruct (channel_send i p s') as [s''|] eqn:E end; [|by eauto].
  apply channel_send_frame in E as (_ & _ & _ & _ & c & Hc & _ & Hm). simpl in *. rewrite Hm. clear Hm s''.
  destruct (decide (n = j)) as [->|Hne].
  - rewrite Hc in Hd. injection Hd as <-. rewrite lookup_insert_eq. by eauto.
  - rewrite lookup_insert_ne by done. eauto.
Qed.

Lemma read_frames_events now j fs : ∀ s d,
  conns s !! j = Some d → Conn.reader d = true →
  events (read_frames now j fs s) =
  events s ++ (TransportEvent.FrameReceived (Conn.peer_addr d) <$> List.filter forwarded fs).
Proof.
  induction fs as [|f fs IH]; intros s d Hd Hr; [by rewrite app_nil_r|].
  change (read_frames now j (f :: fs) s) with (read_frames now j fs (reader_turn now (Item f) j s)).
  assert (reader_turn now (Item f) j s = handle_frame now (Conn.peer_addr d) f s) as ->
    by (unfold reader_turn; by rewrite Hd, Hr).
  destruct (handle_frame_conn now (Conn.peer_addr d) f s j d Hd) as (d' & Hd' & Ha & Hr').
  rewrite (IH _ d' Hd') by congruence. rewrite handle_frame_events, Ha. cbn [List.filter].
  rewrite <- app_assoc. by destruct (forwarded f).
Qed.

Section Delivery.
Context `{CRC : !Crc32c} {CRCOK : Crc32cOk}.

Lemma writer_turn_written now i s c f :
  conns s !! i = Some c → Conn.writer c = true → Conn.sent c !! Conn.taken c = Some f → FrameCodec.frame_wf f →
  conns (writer_turn now Written i s) !! i = Some (Conn.wrote (FrameCodec.wire f) c).
Proof.
  intros Hc Hw Hf Hwf. unfold writer_turn. rewrite Hc, Hw, Hf.
  unfold FrameCodec.wire. rewrite FrameCodec.encode_wire by done. simpl.
  by rewrite lookup_alter_eq, Hc.
Qed.

(** The writer catches up: as many turns as there are frames waiting. *)
Lemma writer_drains now i n : ∀ s c,
  conns s !! i = Some c → channel_ok c → Conn.writer c = true → Forall FrameCodec.frame_wf (Conn.sent c) →
  n = (length (Conn.sent c) - Conn.taken c)%nat →
  ∃ c', conns (Nat.iter n (writer_turn now Written i) s) !! i = Some c' ∧
    Conn.sent c' = Conn.sent c ∧ Conn.writer c' = true ∧
    Conn.out c' = concat (FrameCodec.wire <$> Conn.sent c).
Proof.
  induction n as [|n IH]; intros s c Hc Hok Hw Hwf Hn.
  - exists c. split_and!; [done..|]. destruct Hok as (Hl & _ & Ho). rewrite Ho by done.
    rewrite take_ge by lia. done.
  - destruct (lookup_lt_is_Some_2 (Conn.sent c) (Conn.taken c)) as [f Hf]; [lia|].
    assert (FrameCodec.frame_wf f) as Hff by (eapply Forall_lookup_1; done).
    rewrite Nat.iter_succ_r.
    destruct (IH _ _ (writer_turn_written now i s c f Hc Hw Hf Hff)) as (c' & H1 & H2 & H3 & H4).
    + by apply (channel_ok_wrote f c (FrameCodec.wire f) true).
    + done.
    + done.
    + simpl. lia.
    + exists c'. by split_and!.
Qed.

Lemma forwarded_sealed f : forwarded (FrameCodec.sealed f) = forwarded f.
Proof. done. Qed.

Lemma filter_sealed fs :
  List.filter forwarded (FrameCodec.sealed <$> fs) = FrameCodec.sealed <$> List.filter forwarded fs.
Proof.
  induction fs as [|f fs IH]; [done|]. rewrite fmap_cons. cbn [List.filter]. rewrite forwarded_sealed, IH.
  by destruct (forwarded f).
Qed.

(** C11: TCP delivers in order, from one node's [send_to] to the other node's
    events. Take any reachable state of the sending transport and a connection
    whose writer runs: once the writer has caught up, and however the network cuts
    the bytes it wrote, the reader at the other end reports exactly the frames that
    were queued, in order, heartbeat frames apart, and finds no error. *)
Theorem tcp_delivery (la : SocketAddr.t) (p : ConnectionPool.t) (a b : t) (i j : nat) (c d : Conn.t) (now : Z) (reads : list bytes) :
  rtc step (bind la p) a →
  conns a !! i = Some c → Conn.writer c = true → Forall FrameCodec.frame_wf (Conn.sent c) →
  conns b !! j = Some d → Conn.reader d = true →
  ∃ c', conns (Nat.iter (length (Conn.sent c) - Conn.taken c) (writer_turn now Written i) a) !! i = Some c' ∧
    (concat reads = Conn.out c' →
     let '(fs, _, _, e) := FrameCodec.feed FrameCodec.Header [] reads in
     e = None ∧
     events (read_frames now j fs b) =
       events b ++ (TransportEvent.FrameReceived (Conn.peer_addr d) <$>
                    (FrameCodec.sealed <$> List.filter forwarded (Conn.sent c)))).
Proof.
  intros Hr Hc Hw Hwf Hd Hrd.
  destruct (writer_drains now i _ a c Hc (reachable_channels la p a Hr i c Hc) Hw Hwf eq_refl)
    as (c' & Hc' & _ & _ & Ho).
  exists c'. split; [done|]. rewrite Ho. intros Hreads.
  rewrite (FrameCodec.feed_all (Conn.sent c) reads Hwf Hreads). split; [done|].
  by rewrite (read_frames_events now j _ b d Hd Hrd), filter_sealed.
Qed.
End Delivery.
End TcpLaws.

(** ** The life of connections whose handlers run uninterrupted

    The invariant of the runs in which a connection is established, and cleaned up
    after, in one step; [TcpConc] says what is left of it when tasks interleave. *)
Module TcpLife.
Import TcpTransport.

(** Connections to [a] the events speak of as open. *)
Definition delta (a : SocketAddr.t) (e : TransportEvent.t) : Z :=
  match e with
  | TransportEvent.Connected b => if decide (b = a) then 1 else 0
  | TransportEvent.Disconnected b _ => if decide (b = a) then -1 else 0
  | _ => 0
  end.
Definition balance (a : SocketAddr.t) (l : list TransportEvent.t) : Z := foldr (λ e n, delta a e + n) 0 l.

(** The peer an event needs to be connected. *)
Definition needs (e : TransportEvent.t) : option SocketAddr.t :=
  match e with
  | TransportEvent.Connected _ => None
  | TransportEvent.Disconnected a _ | TransportEvent.FrameReceived a _ => Some a
  | TransportEvent.Error o _ => o
  end.

Definition bracketed (l : list TransportEvent.t) : Prop :=
  ∀ l1 e l2 a, l = l1 ++ e :: l2 → needs e = Some a → 0 < balance a l1.

(** The reader tasks, and how many of them serve [a]. *)
Definition tasks (s : t) : gmap nat (SocketAddr.t * bool) := (λ c, (Conn.peer_addr c, Conn.reader c)) <$> conns s.
Definition live (a : SocketAddr.t) (s : t) : Z := Z.of_nat (size (filter (λ e, e.2 = (a, true)) (tasks s))).

Record inv (s : t) : Prop := {
  inv_pool : PoolLaws.wf (pool s);
  inv_next : ∀ i, is_Some (tasks s !! i) → (i < next s)%nat;
  inv_senders : ∀ a i, peer_senders s !! a = Some i →
    tasks s !! i = Some (a, true) ∧ is_Some (ConnectionPool.connections (pool s) !! a);
  inv_balance : ∀ a, balance a (events s) = live a s;
  inv_brackets : bracketed (events s)
}.

Lemma balance_app a l1 l2 : balance a (l1 ++ l2) = balance a l1 + balance a l2.
Proof. unfold balance. induction l1; simpl; lia. Qed.

Lemma bracketed_snoc l e :
  bracketed l → (∀ a, needs e = Some a → 0 < balance a l) → bracketed (l ++ [e]).
Proof.
  intros Hl He l1 e' l2 a Heq Ha. destruct l2 as [|x l2 _] using rev_ind.
  - apply app_inj_tail in Heq as [<- <-]. auto.
  - rewrite app_comm_cons, app_assoc in Heq. apply app_inj_tail in Heq as [-> _]. eauto.
Qed.

(** How a change of one task changes the count. *)
Lemma live_insert (m : gmap nat (SocketAddr.t * bool)) i x a :
  Z.of_nat (size (filter (λ e, e.2 = (a, true)) (<[i := x]> m))) =
  Z.of_nat (size (filter (λ e, e.2 = (a, true)) m))
  + (if decide (x = (a, true)) then 1 else 0)
  - (if decide (m !! i = Some (a, true)) then 1 else 0).
Proof.
  assert (filter (λ e, e.2 = (a, true)) m !! i = if decide (m !! i = Some (a, true)) then Some (a, true) else None) as Hi.
  { rewrite map_lookup_filter. destruct (m !! i) as [y|]; simpl; repeat case_decide; simpl; try done; try congruence.
    all: rewrite ?option_guard_True, ?option_guard_False; simpl; congruence. }
  destruct (decide (x = (a, true))) as [Hx|Hx].
  - rewrite map_filter_insert_True, map_size_insert, Hi by done. case_decide; simpl; lia.
  - rewrite map_filter_insert_False, map_filter_delete, map_size_delete, Hi by done.
    case_decide as Hd; simpl; [|lia].
    assert (size (filter (λ e, e.2 = (a, true)) m) ≠ 0)%nat; [|lia].
    intros E. apply map_size_empty_inv in E. rewrite E, lookup_empty in Hi. done.
Qed.

(** *** Steps that leave the tasks, the senders and the events alone *)
Record quiet (s s' : t) : Prop := {
  q_events : events s' = events s;
  q_senders : peer_senders s' = peer_senders s;
  q_next : next s' = next s;
  q_tasks : tasks s' = tasks s;
  q_pool : PoolLaws.wf (pool s) → PoolLaws.wf (pool s');
  q_keys : ∀ a, is_Some (ConnectionPool.connections (pool s) !! a) → is_Some (ConnectionPool.connections (pool s') !! a)
}.

#[export] Instance quiet_preorder : PreOrder quiet.
Proof.
  split; [by split|]. intros s1 s2 s3 [] []. split; try congruence; auto.
Qed.

Lemma quiet_inv s s' : quiet s s' → inv s → inv s'.
Proof.
  intros [He Hs Hn Ht Hp Hk] [Ip In Is Ib Ik]. split; rewrite ?He, ?Hs, ?Hn, ?Ht; auto.
  - intros a i Hi. destruct (Is a i Hi). auto.
  - intros a. rewrite Ib. unfold live. by rewrite Ht.
Qed.

Definition keeps_addr (f : ConnectionInfo.t → ConnectionInfo.t) : Prop :=
  ∀ c, ConnectionInfo.peer_addr (f c) = ConnectionInfo.peer_addr c.

Lemma with_connection_quiet a f s : keeps_addr f → quiet s (with_connection a f s).
Proof.
  intros Hf. split; try done; simpl.
  - by apply PoolLaws.with_connection_wf.
  - intros b Hb. destruct (decide (a = b)) as [->|Hne].
    + by rewrite lookup_alter_eq, fmap_is_Some.
    + by rewrite lookup_alter_ne.
Qed.

Lemma tasks_on_conn i f s :
  (∀ c, conns s !! i = Some c → Conn.peer_addr (f c) = Conn.peer_addr c ∧ Conn.reader (f c) = Conn.reader c) →
  tasks (on_conn i f s) = tasks s.
Proof.
  intros Hf. unfold tasks. simpl. apply map_eq. intros j. rewrite !lookup_fmap.
  destruct (decide (i = j)) as [->|Hne]; [|by rewrite lookup_alter_ne].
  rewrite lookup_alter_eq. destruct (conns s !! j) as [c|] eqn:Hc; [|done]. simpl.
  by destruct (Hf c eq_refl) as [-> ->].
Qed.

Lemma on_conn_quiet i f s :
  (∀ c, conns s !! i = Some c → Conn.peer_addr (f c) = Conn.peer_addr c ∧ Conn.reader (f c) = Conn.reader c) →
  quiet s (on_conn i f s).
Proof. intros Hf. split; try done. by apply tasks_on_conn. Qed.

Lemma channel_send_quiet i f s s' : channel_send i f s = Some s' → quiet s s'.
Proof.
  unfold channel_send, Conn.send. intros H. destruct (conns s !! i) as [c|] eqn:Hc; [|done]. simpl in H.
  case_match; [|done]. simpl in H. injection H as <-. apply on_conn_quiet.
  intros c' Hc'. rewrite Hc in Hc'. by injection Hc' as <-.
Qed.

Lemma default_send_quiet i f s : quiet s (default s (channel_send i f s)).
Proof. destruct (channel_send i f s) eqn:E; [by apply channel_send_quiet in E|done]. Qed.

Lemma send_to_quiet now a f s : quiet s (send_to now a f s).1.
Proof.
  unfold send_to. case_match; [|done]. destruct (channel_send n f s) as [s'|] eqn:E; [|done].
  transitivity s'; [by apply channel_send_quiet in E|by apply with_connection_quiet].
Qed.

Lemma broadcast_quiet f s : quiet s (broadcast f s).
Proof.
  unfold broadcast. generalize (map_to_list (peer_senders s)). intros l. revert s.
  induction l as [|e l IH]; intros s; [done|]. simpl. etransitivity; [apply default_send_quiet|apply IH].
Qed.

Section Steps.
Context `{CRC : !Crc32c}.

Lemma writer_turn_quiet now w i s : quiet s (writer_turn now w i s).
Proof.
  unfold writer_turn. repeat (case_match; try done).
  - etransitivity; [|by apply with_connection_quiet]. by apply on_conn_quiet.
  - by apply on_conn_quiet.
  - by apply on_conn_quiet.
  - by apply on_conn_quiet.
Qed.

Lemma writer_exit_quiet i s : quiet s (writer_exit i s).
Proof. unfold writer_exit. repeat (case_match; try done). by apply on_conn_quiet. Qed.

(** *** Steps that start or end a connection, or report something *)
Lemma emit_inv e s : inv s → (∀ a, delta a e = 0) → (∀ a, needs e = Some a → 0 < live a s) → inv (emit e s).
Proof.
  intros [Ip In Is Ib Ik] Hd He. split; simpl; try done.
  - intros a. rewrite balance_app, Ib. simpl. rewrite Hd. unfold live, tasks. simpl. lia.
  - apply bracketed_snoc; [done|]. intros a Ha. rewrite Ib. auto.
Qed.

Lemma live_pos i c s : conns s !! i = Some c → Conn.reader c = true → 0 < live (Conn.peer_addr c) s.
Proof.
  intros Hc Hr. unfold live. apply (inj_lt 0). apply Nat.neq_0_lt_0. intros E. apply map_size_empty_inv in E.
  assert (filter (λ e, e.2 = (Conn.peer_addr c, true)) (tasks s) !! i = Some (Conn.peer_addr c, true)) as Hi.
  { apply map_lookup_filter_Some. split; [|done]. unfold tasks. by rewrite lookup_fmap, Hc, <- Hr. }
  by rewrite E, lookup_empty in Hi.
Qed.

Lemma handle_frame_inv now i c f s :
  conns s !! i = Some c → Conn.reader c = true → inv s → inv (handle_frame now (Conn.peer_addr c) f s).
Proof.
  intros Hc Hr Hs. unfold handle_frame, dispatch.
  set (s1 := with_connection _ _ _).
  assert (inv s1) as H1 by (eapply quiet_inv; [by apply with_connection_quiet|done]).
  assert (0 < live (Conn.peer_addr c) s1) as Hl by (by apply (live_pos i c)).
  clearbody s1. destruct (FrameHeader.msg_type _);
    try (apply emit_inv; [done|done|intros a [= <-]; done]).
  - case_match; [|done]. eapply quiet_inv; [apply default_send_quiet|done].
  - eapply quiet_inv; [by apply with_connection_quiet|done].
Qed.

Lemma establish_inv now a s :
  inv s → (ConnectionPool.len (pool s) < ConnectionPool.max_connections (pool s))%nat →
  inv (establish a (on_pool (λ p, (ConnectionPool.insert now a p).1) s)).
Proof.
  intros [Ip In Is Ib Ik] Hlen. unfold ConnectionPool.insert.
  destruct (Nat.leb_spec (ConnectionPool.max_connections (pool s)) (ConnectionPool.len (pool s))); [lia|].
  assert (tasks s !! next s = None) as Hnew.
  { destruct (tasks s !! next s) eqn:E; [|done]. specialize (In (next s) ltac:(by rewrite E)). lia. }
  split; simpl.
  - apply PoolLaws.with_connection_wf; [done|].
    destruct (Nat.leb_spec (ConnectionPool.max_connections (pool s)) (ConnectionPool.len (pool s))); [lia|].
    by apply PoolLaws.insert_entry_wf.
  - unfold tasks. simpl. intros i. rewrite fmap_insert. destruct (decide (i = next s)) as [->|Hne]; [simpl; lia|].
    rewrite lookup_insert_ne by done. intros Hi. specialize (In i Hi). lia.
  - destruct (Nat.leb_spec (ConnectionPool.max_connections (pool s)) (ConnectionPool.len (pool s))); [lia|].
    unfold tasks. simpl. intros b i. rewrite fmap_insert. destruct (decide (a = b)) as [->|Hne].
    + rewrite lookup_insert_eq. intros [= <-]. rewrite lookup_insert_eq. split; [done|].
      rewrite lookup_alter_eq, fmap_is_Some. by rewrite PoolLaws.insert_entry_lookup, decide_True.
    + rewrite lookup_insert_ne by done. intros Hb. destruct (Is b i Hb) as [Hi Hp].
      rewrite lookup_insert_ne by (intros <-; congruence). split; [done|].
      rewrite lookup_alter_ne by done. by rewrite PoolLaws.insert_entry_lookup, decide_False by done.
  - intros b. rewrite balance_app, Ib. unfold live, tasks. simpl. rewrite fmap_insert, live_insert. simpl.
    fold (tasks s). rewrite Hnew. repeat case_decide; simplify_eq; try done; lia.
  - apply bracketed_snoc; [done|]. done.
Qed.

Lemma cleanup_tasks i c s :
  conns s !! i = Some c → tasks (cleanup i (Conn.peer_addr c) s) = <[i := (Conn.peer_addr c, false)]> (tasks s).
Proof.
  intros Hc. unfold tasks. simpl. apply map_eq. intros j. rewrite !lookup_fmap. destruct (decide (i = j)) as [->|Hne].
  - by rewrite lookup_alter_eq, Hc, lookup_insert_eq.
  - by rewrite lookup_alter_ne, lookup_insert_ne, lookup_fmap.
Qed.

Lemma cleanup_life i c s :
  conns s !! i = Some c → Conn.reader c = true → inv s → inv (cleanup i (Conn.peer_addr c) s).
Proof.
  intros Hc Hr [Ip In Is Ib Ik]. set (a := Conn.peer_addr c).
  assert (tasks s !! i = Some (a, true)) as Hi by (unfold tasks; by rewrite lookup_fmap, Hc; simpl; rewrite Hr).
  pose proof (cleanup_tasks i c s Hc : tasks (cleanup i a s) = _) as Ht. fold a in Ht.
  split; rewrite ?Ht.
  - simpl. apply PoolLaws.remove_wf. by apply PoolLaws.with_connection_wf.
  - simpl. intros j. destruct (decide (i = j)) as [->|Hne]; [intros _; apply In; by rewrite Hi|].
    rewrite lookup_insert_ne by done. apply In.
  - intros b j Hb. simpl in Hb. apply lookup_delete_Some in Hb as [Hne Hb]. destruct (Is b j Hb) as [Hj Hp].
    rewrite lookup_insert_ne by (intros ->; congruence). split; [done|]. simpl.
    rewrite PoolLaws.remove_lookup, decide_False by done. simpl. by rewrite lookup_alter_ne.
  - intros b. simpl. rewrite balance_app, Ib. unfold live. rewrite Ht, live_insert, Hi. simpl.
    repeat case_decide; simplify_eq; try done; lia.
  - simpl. apply bracketed_snoc; [done|]. intros b [= <-]. rewrite Ib. by apply (live_pos i c).
Qed.

Lemma accept_inv now r s : inv s → inv (accept now r s).
Proof.
  intros Hs. unfold accept. destruct r as [a|e|]; [|done..].
  destruct (ConnectionPool.insert now a (pool s)) as [p' r'] eqn:E. unfold ConnectionPool.insert in E.
  case_match eqn:Hl; injection E as <- <-; [done|]. apply Nat.leb_gt in Hl. by apply establish_inv.
Qed.

Lemma connect_inv now a r s : inv s → inv (connect now a r s).1.
Proof.
  intros Hs. unfold connect. destruct r as [?|?|]; [|done..].
  destruct (ConnectionPool.insert now a (pool s)) as [p' r'] eqn:E. unfold ConnectionPool.insert in E.
  case_match eqn:Hl; injection E as <- <-; [by destruct s|]. apply Nat.leb_gt in Hl as Hl'.
  pose proof (establish_inv now a s Hs Hl') as He. unfold ConnectionPool.insert, on_pool in He. by rewrite Hl in He.
Qed.

Lemma disconnect_inv a s : inv s → inv (disconnect a s).
Proof.
  intros [Ip In Is Ib Ik]. eapply quiet_inv; [by apply with_connection_quiet|]. split; try done.
  intros b i Hb. simpl in Hb. apply lookup_delete_Some in Hb as [_ Hb]. auto.
Qed.

Lemma step_life s s' : inv s → step s s' → inv s'.
Proof.
  intros Hs Hst. destruct Hst as [now r s|now a r s|now a f s|f s|a s|now w i s|i s|now item i s].
  - by apply accept_inv.
  - by apply connect_inv.
  - by eapply quiet_inv, Hs; apply send_to_quiet.
  - by eapply quiet_inv, Hs; apply broadcast_quiet.
  - by apply disconnect_inv.
  - by eapply quiet_inv, Hs; apply writer_turn_quiet.
  - by eapply quiet_inv, Hs; apply writer_exit_quiet.
  - unfold reader_turn. destruct (conns s !! i) as [c|] eqn:Hc; [|done]. destruct (Conn.reader c) eqn:Hr; [|done].
    destruct item as [f|e|]; [by apply (handle_frame_inv now i)| |by apply cleanup_life].
    apply cleanup_life; [done|done|]. apply emit_inv; [done|done|]. intros a [= <-]. by apply (live_pos i c).
Qed.

Lemma bind_inv la max cfg : inv (bind la (ConnectionPool.new max cfg)).
Proof. split; simpl; try done; [by intros i [? Hi]|]. intros [|? ?] ? ? ?; discriminate. Qed.

Lemma reachable_life la max cfg s : rtc step (bind la (ConnectionPool.new max cfg)) s → inv s.
Proof.
  intros Hrun. pose proof (bind_inv la max cfg) as H0.
  induction Hrun as [|s1 s2 s3 Hst Hr IH]; [done|]. apply IH. by eapply step_life.
Qed.
End Steps.
End TcpLife.

(** ** Heartbeats, disconnection and statistics *)
Module TcpFacts.
Import TcpTransport TcpLaws.

Section Facts.
Context `{CRC : !Crc32c}.

Lemma with_connection_lookup a f s c :
  ConnectionPool.connections (pool s) !! a = Some c →
  ConnectionPool.connections (pool (with_connection a f s)) !! a = Some (f c).
Proof. intros Hc. simpl. by rewrite lookup_alter_eq, Hc. Qed.

(** A PING is answered, and its answer resets the heartbeat. The reader that
    gets a PING queues exactly one PONG with the same request id for the peer and
    reports nothing; the reader that gets this PONG reports nothing either and
    clears the missed heartbeats and the waiting PING of that connection, which is
    then not dead at any time before the next PING. *)
Lemma ping_pong (now : Z) (a b : t) (i j k : nat) (c d e : Conn.t) (ci : ConnectionInfo.t) (ping : Frame.t) :
  FrameHeader.msg_type (Frame.header ping) = MessageType.Ping →
  conns b !! j = Some d → Conn.reader d = true →
  peer_senders b !! Conn.peer_addr d = Some k → conns b !! k = Some e → Conn.writer e = true →
  conns a !! i = Some c → Conn.reader c = true →
  ConnectionPool.connections (pool a) !! Conn.peer_addr c = Some ci →
  let pong := Frame.simple MessageType.Pong (FrameHeader.request_id (Frame.header ping)) in
  let b' := reader_turn now (Item ping) j b in
  let a' := reader_turn now (Item (FrameCodec.sealed pong)) i a in
  events b' = events b ∧ Conn.sent <$> conns b' !! k = Some (Conn.sent e ++ [pong]) ∧
  events a' = events a ∧
  ∃ ci', ConnectionPool.connections (pool a') !! Conn.peer_addr c = Some ci' ∧
    ConnectionInfo.missed_heartbeats ci' = 0 ∧ ConnectionInfo.last_ping_sent ci' = None ∧
    ∀ t, 0 < ConnectionConfig.max_missed_heartbeats (ConnectionInfo.config ci') → ConnectionInfo.is_dead t ci' = false.
Proof.
  intros Hping Hd Hrd Hk He Hwe Hc Hrc Hci pong b' a'.
  assert (b' = handle_frame now (Conn.peer_addr d) ping b) as -> by (unfold b', reader_turn; by rewrite Hd, Hrd).
  assert (a' = handle_frame now (Conn.peer_addr c) (FrameCodec.sealed pong) a) as -> by (unfold a', reader_turn; by rewrite Hc, Hrc).
  split_and!.
  - rewrite handle_frame_events. unfold forwarded. rewrite Hping. apply app_nil_r.
  - unfold handle_frame, dispatch. rewrite Hping. simpl. rewrite Hk. unfold channel_send. simpl. rewrite He. simpl.
    unfold Conn.send. rewrite Hwe. simpl. by rewrite lookup_alter_eq, He.
  - rewrite handle_frame_events. apply app_nil_r.
  - eexists. split; [|split_and!].
    + unfold handle_frame, dispatch. simpl FrameHeader.msg_type. cbv iota.
      by erewrite with_connection_lookup by (by apply with_connection_lookup).
    + done.
    + done.
    + intros t Ht. unfold ConnectionInfo.is_dead. simpl. apply Z.leb_gt. exact Ht.
Qed.

(** [disconnect] only closes the channel: the reader goes on reporting frames. *)
Lemma disconnect_keeps_reading now a i c f s :
  conns s !! i = Some c → Conn.reader c = true → forwarded f = true →
  events (reader_turn now (Item f) i (disconnect a s)) =
  events s ++ [TransportEvent.FrameReceived (Conn.peer_addr c) f].
Proof.
  intros Hc Hr Hf. unfold reader_turn. simpl. rewrite Hc, Hr, handle_frame_events, Hf. done.
Qed.
End Facts.
End TcpFacts.

(** ** What is put on the channels

    A property of all frames ever queued, kept by every operation that queues only
    such frames. *)
Module TcpSent.
Import TcpTransport.
Section Sent.
Context `{CRC : !Crc32c} (P : Frame.t → Prop).

Definition all_sent (s : t) : Prop := ∀ i c, conns s !! i = Some c → Forall P (Conn.sent c).

Lemma bind_sent la p : all_sent (bind la p).
Proof. intros i c. simpl. by rewrite lookup_empty. Qed.

Lemma on_conn_sent i f s : (∀ c, Conn.sent (f c) = Conn.sent c) → all_sent s → all_sent (on_conn i f s).
Proof.
  intros Hf Hs j c. simpl. destruct (decide (i = j)) as [->|Hne].
  - rewrite lookup_alter_eq, fmap_Some. intros (d & Hd & ->). rewrite Hf. eauto.
  - rewrite lookup_alter_ne by done. apply Hs.
Qed.

Lemma channel_send_sent i f s s' : P f → all_sent s → channel_send i f s = Some s' → all_sent s'.
Proof.
  intros Hf Hs (_ & _ & _ & _ & c & Hc & _ & Hm)%TcpLaws.channel_send_frame j d. rewrite Hm.
  destruct (decide (i = j)) as [->|Hne].
  - rewrite lookup_insert_eq. intros [= <-]. simpl. apply Forall_app. split; [eauto|by constructor].
  - rewrite lookup_insert_ne by done. apply Hs.
Qed.

Lemma send_to_sent now a f s : P f → all_sent s → all_sent (send_to now a f s).1.
Proof.
  intros Hf Hs. unfold send_to. case_match; [|done].
  destruct (channel_send _ _ _) eqn:E; [|done]. by eapply channel_send_sent in E.
Qed.

Lemma establish_sent a s : all_sent s → all_sent (establish a s).
Proof.
  intros Hs i c. simpl. destruct (decide (next s = i)) as [<-|Hne].
  - rewrite lookup_insert_eq. intros [= <-]. constructor.
  - rewrite lookup_insert_ne by done. apply Hs.
Qed.

Lemma accept_sent now r s : all_sent s → all_sent (accept now r s).
Proof. intros Hs. unfold accept. repeat (case_match; try done). by apply establish_sent. Qed.

Lemma connect_sent now a r s : all_sent s → all_sent (connect now a r s).1.
Proof. intros Hs. unfold connect. repeat (case_match; try done). by apply establish_sent. Qed.

Lemma writer_turn_sent now w i s : all_sent s → all_sent (writer_turn now w i s).
Proof.
  intros Hs. unfold writer_turn. repeat (case_match; try done);
    [refine (on_conn_sent _ _ _ _ Hs)|refine (on_conn_sent _ _ _ _ Hs)|refine (on_conn_sent _ _ _ _ Hs)|
     refine (on_conn_sent _ _ _ _ Hs)]; done.
Qed.

Lemma writer_exit_sent i s : all_sent s → all_sent (writer_exit i s).
Proof. intros Hs. unfold writer_exit. repeat (case_match; try done). by apply on_conn_sent. Qed.

(** The reader queues nothing but the answers to heartbeats. *)
Lemma reader_turn_sent now item i s :
  (∀ rid, P (Frame.simple MessageType.Pong rid)) → all_sent s → all_sent (reader_turn now item i s).
Proof.
  intros Hp Hs. unfold reader_turn. case_match; [|done]. case_match; [|done].
  destruct item; [|by refine (on_conn_sent _ _ _ _ Hs)..].
  unfold handle_frame, dispatch. destruct (FrameHeader.msg_type _); try done. case_match; [|done].
  match goal with |- all_sent (default ?s' ?m) => destruct m as [s''|] eqn:E end; [|done].
  simpl. eapply channel_send_sent; [apply Hp| |done]. done.
Qed.
End Sent.
End TcpSent.

(** ** Datagrams *)
Module UdpLaws.
Import UdpTransport.
Section Udp.
Context `{CRC : !Crc32c} {CRCOK : Crc32cOk}.

Lemma receive_whole f a rest :
  FrameCodec.frame_wf f → blen (FrameCodec.wire f ++ rest) ≤ MAX_DATAGRAM_SIZE →
  receive (Some (FrameCodec.wire f ++ rest, a)) = Ok [TransportEvent.FrameReceived a (FrameCodec.sealed f)].
Proof.
  intros Hf Hl. unfold receive. rewrite take_ge by (unfold blen in Hl; lia).
  by rewrite FrameCodec.decode_complete by (first [done|by left]).
Qed.

Lemma receive_truncated f a :
  FrameCodec.frame_wf f → MAX_DATAGRAM_SIZE < Frame.wire_size f → receive (Some (FrameCodec.wire f, a)) = Ok [].
Proof.
  intros Hf Hl. unfold receive. rewrite <- FrameCodec.blen_wire in Hl by done. unfold blen in Hl.
  set (n := Z.to_nat MAX_DATAGRAM_SIZE).
  destruct (FrameCodec.decode_partial FrameCodec.Header f (take n (FrameCodec.wire f)) (drop n (FrameCodec.wire f)))
    as (st & -> & _); [done|by left|apply take_drop| |done].
  intros E. apply (f_equal length) in E. rewrite length_drop in E. unfold n, MAX_DATAGRAM_SIZE in *. cbn [length] in E. lia.
Qed.

(** C30: one datagram carries one frame. What [send_to] hands to the socket is the
    frame's encoding; the receiver reports that frame when the datagram fits its
    buffer (whatever bytes follow the frame) and nothing when it does not. Of a
    datagram of any bytes it reports nothing, or one frame whose encoding the
    datagram begins with: a damaged or foreign one is dropped, without a panic. *)
Theorem udp_datagrams (net : bytes → result unit Z) (f : Frame.t) (a : SocketAddr.t) (rest d : bytes) :
  FrameCodec.frame_wf f → bytes_wf d →
  (∃ w, send_to net f = map_err (λ _, TransportError.Io) (net w) ∧ blen w = Frame.wire_size f ∧
     (Frame.wire_size f + blen rest ≤ MAX_DATAGRAM_SIZE →
      receive (Some (w ++ rest, a)) = Ok [TransportEvent.FrameReceived a (FrameCodec.sealed f)]) ∧
     (MAX_DATAGRAM_SIZE < Frame.wire_size f → receive (Some (w, a)) = Ok [])) ∧
  (receive (Some (d, a)) = Ok [] ∨
   ∃ g w more, receive (Some (d, a)) = Ok [TransportEvent.FrameReceived a g] ∧ FrameCodec.encode g [] = Ok w ∧
     take (Z.to_nat MAX_DATAGRAM_SIZE) d = w ++ more).
Proof.
  intros Hf Hd. split.
  - exists (FrameCodec.wire f). split_and!.
    + unfold send_to. rewrite FrameCodec.encode_wire by done. simpl.
      unfold FrameCodec.wire. by rewrite FrameCodec.encode_wire.
    + by apply FrameCodec.blen_wire.
    + intros Hl. apply receive_whole; [done|]. by rewrite blen_app, FrameCodec.blen_wire.
    + by apply receive_truncated.
  - unfold receive. set (data := take _ d).
    assert (bytes_wf data) as Hw by (by apply Forall_take).
    pose proof (FrameCodec.decode_classify FrameCodec.Header data Hw I) as Hc.
    destruct (FrameCodec.decode FrameCodec.Header data) as [[st buf] [[g|]|er|]]; [right|by left|by left|by inversion Hc].
    inversion Hc as [? ? Hg Hsrc Hs| |]; subst.
    exists g, (FrameCodec.wire g), buf. split_and!; [done| |done].
    unfold FrameCodec.wire. by rewrite FrameCodec.encode_wire.
Qed.
End Udp.
End UdpLaws.

(** ** Concrete runs *)
Module TransportWitness.
Import Crc32cBitwise TcpTransport FrameCodecWitness ConnectionWitness.

Definition empty : t := bind (addr 1) (ConnectionPool.new 8 cfg).
Definition queue (f : Frame.t) (s : t) : t := (send_to 1 (addr 2) f s).1.
Definition dialled : t := (connect 0 (addr 2) (Ok tt) empty).1.

(** A peer that dialled and queued a heartbeat and a message, one that accepted. *)
Definition a : t := queue data (queue ping dialled).
Definition b : t := accept 0 (Ok (addr 3)) (bind (addr 2) (ConnectionPool.new 8 cfg)).

Lemma a_reachable : rtc step empty a.
Proof.
  eapply rtc_l; [apply (StepConnect 0 (addr 2) (Ok tt))|]. eapply rtc_l; [apply (StepSend 1 (addr 2) ping)|].
  eapply rtc_l; [apply (StepSend 1 (addr 2) data)|]. apply rtc_refl.
Qed.

Definition out_conn : Conn.t := Conn.mk (addr 2) [ping; data] 0 true true [].

Lemma tcp_delivery_witness :
  let '(fs, _, _, e) := FrameCodec.feed FrameCodec.Header [] reads in
  e = None ∧ events (read_frames 5 0 fs b) =
    [TransportEvent.Connected (addr 3); TransportEvent.FrameReceived (addr 3) (FrameCodec.sealed data)].
Proof.
  destruct (TcpLaws.tcp_delivery (addr 1) (ConnectionPool.new 8 cfg) a b 0 0 out_conn (Conn.start (addr 3)) 5 reads)
    as (c' & Hc & H).
  - exact a_reachable.
  - by vm_compute.
  - done.
  - apply Forall_cons_2; [apply ping_wf|]. apply Forall_singleton, data_wf.
  - by vm_compute.
  - done.
  - assert (Conn.out <$> conns (Nat.iter 2 (writer_turn 5 Written 0) a) !! 0%nat = Some (concat reads)) as Ho by (by vm_compute).
    simpl length in Hc. simpl Conn.taken in Hc. change (2 - 0)%nat with 2%nat in Hc. rewrite Hc in Ho.
    injection Ho as Ho. symmetry in Ho. apply H in Ho. clear H.
    destruct (FrameCodec.feed _ _ _) as [[[fs ?] ?] e]. destruct Ho as [-> ->]. split; [done|]. by vm_compute.
Defined.

(** The listener answers the heartbeat of the peer that dialled. *)
Lemma ping_pong_witness :
  let b' := reader_turn 5 (Item ping) 0 b in
  events b' = events b ∧ Conn.sent <$> conns b' !! 0%nat = Some [Frame.simple MessageType.Pong 7].
Proof.
  destruct (TcpFacts.ping_pong 5 a b 0 0 0 out_conn (Conn.start (addr 3)) (Conn.start (addr 3))
    (ConnectionInfo.record_send 1 0 (ConnectionInfo.record_send 1 0
      (ConnectionInfo.set_established (ConnectionInfo.new 0 (addr 2) cfg)))) ping) as (H1 & H2 & _);
    [by vm_compute..|]. split; [exact H1|exact H2].
Defined.

Lemma udp_datagrams_witness :
  ∃ w, UdpTransport.send_to (λ d, Ok (blen d)) data = Ok 24 ∧
    UdpTransport.receive (Some (w ++ [1; 2], addr 4)) = Ok [TransportEvent.FrameReceived (addr 4) (FrameCodec.sealed data)] ∧
    UdpTransport.receive (Some (replicate 40 77, addr 4)) = Ok [].
Proof.
  destruct (UdpLaws.udp_datagrams (λ d, Ok (blen d)) data (addr 4) [1; 2] (replicate 40 77) data_wf ltac:(decide_now))
    as [(w & Hs & Hl & Hr & _) [Hd|(g & x & more & Hg & _)]].
  - exists w. split_and!; [by vm_compute|apply Hr; by vm_compute|exact Hd].
  - exfalso. vm_compute in Hg. discriminate Hg.
Defined.

(** A frame is counted when it is queued and again when it is written. *)
Example frame_counted_twice :
  ConnectionPool.with_connection_ref (addr 2) ConnectionInfo.frames_sent
    (pool (writer_turn 2 Written 0 (queue data dialled))) = Some 2.
Proof. vm_compute. reflexivity. Qed.

(** A second connection from the same address takes over the channel; when the
    first one ends, its reader unfiles the channel and the pool entry of the second,
    which still runs. *)
Example reconnect_loses_peer :
  let s := reader_turn 9 Eof 0 (accept 5 (Ok (addr 3)) b) in
  (send_to 9 (addr 3) data s).2 = Err (TransportError.PeerNotFound (addr 3)) ∧
  Conn.reader <$> conns s !! 1%nat = Some true ∧ ConnectionPool.contains (addr 3) (pool s) = false.
Proof. vm_compute. done. Qed.
End TransportWitness.
