(* ===== verification/TransportConc.v ===== *)
(** ceky-transport tcp.rs: the tasks of a transport at the grain of their shared
    operations.

    [connect] and the accept loop open connections, a reader task ends each, and
    others send, broadcast and disconnect meanwhile. A step is one operation on what
    they share: on the map of the pool or one of its counters, on the map of
    senders, on a channel, or the sending of an event. Transport.v runs a handler
    in one step; [atomic_runs] shows that its runs are among these. *)
From Stdlib Require Import String.
From S2P Require Import Prelude Bytes WireTypes FrameCodec DhtMsg Connection Transport.

Local Open Scope Z_scope.

(** ** Counting the entries of a map *)
Module Count.
Section Count.
Context {V : Type}.

Definition count (p : V → bool) (m : gmap nat V) : Z := Z.of_nat (size (filter (λ e, Is_true (p e.2)) m)).
Definition weight (p : V → bool) (o : option V) : Z := from_option (Z.b2z ∘ p) 0 o.

Lemma count_insert p i x m : count p (<[i := x]> m) = count p m + Z.b2z (p x) - weight p (m !! i).
Proof.
  unfold count, weight.
  assert (filter (λ e, Is_true (p e.2)) m !! i = (y ← m !! i; if p y then Some y else None)) as Hi.
  { rewrite map_lookup_filter. destruct (m !! i) as [y|]; [|done]. simpl.
    destruct (p y) eqn:Hy; [rewrite option_guard_True|rewrite option_guard_False]; simpl; rewrite ?Hy; auto. }
  destruct (p x) eqn:Hx.
  - rewrite map_filter_insert_True, map_size_insert, Hi by (simpl; by rewrite Hx).
    destruct (m !! i) as [y|]; simpl; [destruct (p y); simpl|]; lia.
  - rewrite map_filter_insert_False, map_filter_delete, map_size_delete, Hi by (simpl; rewrite Hx; by intros []).
    destruct (m !! i) as [y|]; simpl in *; [destruct (p y) eqn:Hy; simpl|]; try lia.
    assert (size (filter (λ e, Is_true (p e.2)) m) ≠ 0)%nat; [|lia].
    intros E%map_size_empty_inv. by rewrite E, lookup_empty in Hi.
Qed.

Lemma count_delete p i m : count p (delete i m) = count p m - weight p (m !! i).
Proof.
  destruct (m !! i) as [y|] eqn:Hi; simpl; [|rewrite delete_id by done; lia].
  rewrite <- (insert_delete_id m i y Hi) at 2. rewrite count_insert, lookup_delete_eq. simpl. lia.
Qed.

Lemma count_pos p i x m : m !! i = Some x → p x = true → 0 < count p m.
Proof.
  intros Hi Hx. unfold count. apply (inj_lt 0), Nat.neq_0_lt_0. intros E%map_size_empty_inv.
  assert (filter (λ e, Is_true (p e.2)) m !! i = Some x) as H; [|by rewrite E, lookup_empty in H].
  apply map_lookup_filter_Some. split; [done|]. simpl. by rewrite Hx.
Qed.

Lemma count_nonneg p m : 0 ≤ count p m.
Proof. unfold count. lia. Qed.
End Count.
End Count.

Module TcpConc.
Import TcpTransport Count.

(** Where a task that opens a connection stands, named after what it did last: the
    check of [pool.insert], its entry (with the counter still to be raised), the
    whole of it, the Connected event, [set_established]. *)
Inductive opening : Set := Checked | Entered | Inserted | Announced | Established.

(** Where the reader of a connection stands: waiting for a frame, with a frame
    counted in the pool, out of its loop; then the operations of its end. *)
Inductive reader : Set :=
| Reading | Received (frame : Frame.t) | Leaving | Unfiled | Marked | Removed | Counted | Ended.

Record conf : Type := mk {
  tcp : TcpTransport.t;
  openings : gmap nat (SocketAddr.t * opening);     (** by task *)
  readers : gmap nat (SocketAddr.t * reader)        (** by connection *)
}.

Definition on_tcp (f : TcpTransport.t → TcpTransport.t) (c : conf) : conf := mk (f (tcp c)) (openings c) (readers c).
Definition opens (k : nat) (x : SocketAddr.t * opening) (c : conf) : conf :=
  mk (tcp c) (<[k := x]> (openings c)) (readers c).
Definition reads (i : nat) (x : SocketAddr.t * reader) (c : conf) : conf :=
  mk (tcp c) (openings c) (<[i := x]> (readers c)).

(** The check at the head of [pool.insert], for a connection dialled or accepted. *)
Definition open_check (k : nat) (a : SocketAddr.t) (c : conf) : conf :=
  match openings c !! k with
  | None =>
      if (ConnectionPool.max_connections (pool (tcp c)) <=? ConnectionPool.len (pool (tcp c)))%nat then c
      else opens k (a, Checked) c
  | Some _ => c
  end.

(** The next operation of task [k], up to the spawn of the two tasks. *)
Definition open_turn (now : Z) (k : nat) (c : conf) : conf :=
  match openings c !! k with
  | Some (a, Checked) =>
      match ConnectionPool.connections (pool (tcp c)) !! a with
      | Some _ => opens k (a, Inserted) c
      | None => opens k (a, Entered) (on_tcp (on_pool (PoolConc.entry_insert now a)) c)
      end
  | Some (a, Entered) => opens k (a, Inserted) (on_tcp (on_pool PoolConc.count_created) c)
  | Some (a, Inserted) => opens k (a, Announced) (on_tcp (emit (TransportEvent.Connected a)) c)
  | Some (a, Announced) => opens k (a, Established) (on_tcp (with_connection a ConnectionInfo.set_established) c)
  | Some (a, Established) =>
      mk (spawn_connection_tasks a (tcp c)) (delete k (openings c)) (<[next (tcp c) := (a, Reading)]> (readers c))
  | None => c
  end.

(** The next operation of the reader of connection [i]; [item] is what
    [framed_reader.next()] yields when it waits. *)
Definition read_turn (now : Z) (item : next_item) (i : nat) (c : conf) : conf :=
  match readers c !! i with
  | Some (a, Reading) =>
      match item with
      | Item f =>
          reads i (a, Received f)
            (on_tcp (with_connection a (ConnectionInfo.record_recv now (Frame.wire_size f))) c)
      | Failed e => reads i (a, Leaving) (on_tcp (emit (TransportEvent.Error (Some a) e)) c)
      | Eof => reads i (a, Leaving) c
      end
  | Some (a, Received f) => reads i (a, Reading) (on_tcp (dispatch now a f) c)
  | Some (a, Leaving) => reads i (a, Unfiled) (on_tcp (on_senders (delete a)) c)
  | Some (a, Unfiled) => reads i (a, Marked) (on_tcp (with_connection a ConnectionInfo.set_closed) c)
  | Some (a, Marked) =>
      match ConnectionPool.connections (pool (tcp c)) !! a with
      | Some _ => reads i (a, Removed) (on_tcp (on_pool (PoolConc.connections_remove a)) c)
      | None => reads i (a, Counted) c
      end
  | Some (a, Removed) => reads i (a, Counted) (on_tcp (on_pool PoolConc.count_removed) c)
  | Some (a, Counted) =>
      reads i (a, Ended)
        (on_tcp (on_conn i Conn.reader_stops ∘ emit (TransportEvent.Disconnected a "connection closed")) c)
  | Some (_, Ended) | None => c
  end.

(** [sender.send(frame)] on the channel filed for a peer: of [send_to], and of
    [broadcast] for each entry its iteration meets. *)
Definition queue (a : SocketAddr.t) (f : Frame.t) (c : conf) : conf :=
  match peer_senders (tcp c) !! a with
  | Some i => on_tcp (λ s, default s (channel_send i f s)) c
  | None => c
  end.

Section Write.
Context `{CRC : !Crc32c}.

(** The writer takes a frame from its channel and sends it; it counts it in the pool
    afterwards. *)
Definition write_frame (w : write_outcome) (i : nat) (s : TcpTransport.t) : TcpTransport.t :=
  match conns s !! i with
  | Some c =>
      if Conn.writer c then
        match Conn.sent c !! Conn.taken c with
        | Some frame =>
            match FrameCodec.encode frame [], w with
            | Ok bs, Written => on_conn i (Conn.wrote bs) s
            | Ok bs, Broken n => on_conn i (Conn.writer_stops ∘ Conn.wrote (take n bs)) s
            | _, _ => on_conn i (Conn.writer_stops ∘ Conn.wrote []) s
            end
        | None => s
        end
      else s
  | None => s
  end.

(** Any task, any operation; [StepUpdate] is a call of [with_connection], of
    [send_to], [disconnect] or a writer, whose place among the other operations of
    its task is left open. *)
Inductive step : conf → conf → Prop :=
| StepCheck k a c : step c (open_check k a c)
| StepOpen now k c : step c (open_turn now k c)
| StepRead now item i c : step c (read_turn now item i c)
| StepQueue a f c : step c (queue a f c)
| StepUnfile a c : step c (on_tcp (on_senders (delete a)) c)
| StepUpdate a e c : step c (on_tcp (with_connection a (λ i, HeartbeatLaws.apply i e)) c)
| StepWrite w i c : step c (on_tcp (write_frame w i) c)
| StepWriterExit i c : step c (on_tcp (writer_exit i) c).
End Write.

Definition init (s : TcpTransport.t) : conf := mk s ∅ ∅.
End TcpConc.

(** ** The life of connections as the upper layer sees it *)
Module TcpConcLaws.
Import TcpTransport TcpConc Count.

(** Between its Connected and its Disconnected event: of a task that opens a
    connection, of a reader; and how many such there are for a peer. *)
Definition announced (a : SocketAddr.t) (x : SocketAddr.t * opening) : bool :=
  bool_decide (x.1 = a) && match x.2 with Announced | Established => true | _ => false end.
Definition live (a : SocketAddr.t) (x : SocketAddr.t * reader) : bool :=
  bool_decide (x.1 = a) && match x.2 with Ended => false | _ => true end.
Definition connected (a : SocketAddr.t) (c : conf) : Z :=
  count (announced a) (openings c) + count (live a) (readers c).

(** The reader has not yet removed the sender, or the pool entry, of its peer. *)
Definition before_unfiling (st : reader) : bool :=
  match st with Reading | Received _ | Leaving => true | _ => false end.
Definition before_removal (st : reader) : bool :=
  match st with Unfiled | Marked => true | _ => before_unfiling st end.

Definition addrs (s : TcpTransport.t) : gmap nat SocketAddr.t := Conn.peer_addr <$> conns s.
Definition pooled (s : TcpTransport.t) (a : SocketAddr.t) : Prop := is_Some (ConnectionPool.connections (pool s) !! a).

(** Somebody will yet remove the entry of [a]. *)
Definition owned (a : SocketAddr.t) (c : conf) : Prop :=
  (∃ k st, openings c !! k = Some (a, st) ∧ st ≠ Checked) ∨
  (∃ i st, readers c !! i = Some (a, st) ∧ before_removal st = true).

Record inv (c : conf) : Prop := {
  inv_addrs : addrs (tcp c) = fst <$> readers c;
  inv_next : ∀ i, is_Some (readers c !! i) → (i < next (tcp c))%nat;
  inv_senders : ∀ a i, peer_senders (tcp c) !! a = Some i →
    ∃ st, readers c !! i = Some (a, st) ∧ before_unfiling st = true;
  inv_pooled : ∀ a, pooled (tcp c) a → owned a c;
  inv_balance : ∀ a, TcpLife.balance a (events (tcp c)) = connected a c;
  inv_brackets : TcpLife.bracketed (events (tcp c))
}.

(** *** Operations that report nothing and file nothing *)
Record keeps (s s' : TcpTransport.t) : Prop := {
  q_addrs : addrs s' = addrs s;
  q_next : next s' = next s;
  q_senders : peer_senders s' ⊆ peer_senders s;
  q_pooled : ∀ a, pooled s' a → pooled s a;
  q_events : events s' = events s
}.

Lemma keeps_inv f c : keeps (tcp c) (f (tcp c)) → inv c → inv (on_tcp f c).
Proof.
  intros [Ha Hn Hs Hp He] [Ia In Is Ip Ib Ik]. split; simpl; rewrite ?Ha, ?Hn, ?He; try done.
  - intros a i Hi. apply Is. eapply lookup_weaken; eauto.
  - intros a Ha'. exact (Ip a (Hp a Ha')).
Qed.

Lemma on_conn_keeps i f s : (∀ c, Conn.peer_addr (f c) = Conn.peer_addr c) → keeps s (on_conn i f s).
Proof.
  intros Hf. split; try done. unfold addrs. simpl. apply map_eq. intros j. rewrite !lookup_fmap.
  destruct (decide (i = j)) as [->|Hne]; [|by rewrite lookup_alter_ne].
  rewrite lookup_alter_eq. destruct (conns s !! j); simpl; by rewrite ?Hf.
Qed.

Lemma with_connection_keeps a f s : keeps s (with_connection a f s).
Proof.
  split; try done. intros b. unfold pooled. simpl. destruct (decide (a = b)) as [->|Hne].
  - by rewrite lookup_alter_eq, fmap_is_Some.
  - by rewrite lookup_alter_ne.
Qed.

Lemma unfile_keeps a s : keeps s (on_senders (delete a) s).
Proof. split; try done. apply delete_subseteq. Qed.

Lemma counter_keeps f s :
  (∀ p, ConnectionPool.connections (f p) = ConnectionPool.connections p) → keeps s (on_pool f s).
Proof. intros Hf. split; try done. intros a. unfold pooled. simpl. by rewrite Hf. Qed.

Lemma send_keeps i f s : keeps s (default s (channel_send i f s)).
Proof.
  destruct (channel_send i f s) as [s'|] eqn:E; [|by split]. simpl. unfold channel_send, Conn.send in E.
  destruct (conns s !! i) as [c|] eqn:Hc; [|done]. simpl in E. case_match; [|done]. simpl in E. injection E as <-.
  split; try done. unfold addrs. simpl. apply map_eq. intros j. rewrite !lookup_fmap.
  destruct (decide (i = j)) as [->|Hne]; [by rewrite lookup_alter_eq, Hc|by rewrite lookup_alter_ne].
Qed.

(** *** A task goes on *)
Lemma opens_inv k a st st' c :
  inv c → openings c !! k = Some (a, st) → (st' = Checked → st = Checked) →
  (∀ b, announced b (a, st') = announced b (a, st)) → inv (opens k (a, st') c).
Proof.
  intros [Ia In Is Ip Ib Ik] Hk Hst Han. split; simpl; try done.
  - intros b [(k' & x & Hx & Hne)|Hr]%Ip; [|by right]. left. simpl. destruct (decide (k = k')) as [->|Hk'].
    + exists k', st'. rewrite lookup_insert_eq. rewrite Hk in Hx. injection Hx as <- <-. auto.
    + exists k', x. by rewrite lookup_insert_ne.
  - intros b. rewrite Ib. unfold connected. simpl. rewrite count_insert, Hk, Han. simpl. lia.
Qed.

Lemma reads_inv i a st st' c :
  inv c → readers c !! i = Some (a, st) → st ≠ Ended → st' ≠ Ended →
  (before_unfiling st = true → before_unfiling st' = true ∨ peer_senders (tcp c) !! a = None) →
  (before_removal st = true → before_removal st' = true ∨ ¬ pooled (tcp c) a) → inv (reads i (a, st') c).
Proof.
  intros [Ia In Is Ip Ib Ik] Hi Hn Hn' Hs Hp. split; simpl; try done.
  - rewrite fmap_insert, Ia. symmetry. apply insert_id. by rewrite lookup_fmap, Hi.
  - intros j. destruct (decide (i = j)) as [->|Hne]; [intros _; apply In; by rewrite Hi|by rewrite lookup_insert_ne by done; apply In].
  - intros b j Hj. destruct (Is b j Hj) as (x & Hx & Hb). destruct (decide (i = j)) as [->|Hne].
    + rewrite Hi in Hx. injection Hx as <- <-. exists st'. rewrite lookup_insert_eq.
      destruct (Hs Hb); [done|congruence].
    + exists x. by rewrite lookup_insert_ne.
  - intros b Hb. destruct (Ip b Hb) as [Ho|(j & x & Hx & Hr)]; [by left|]. right. simpl.
    destruct (decide (i = j)) as [->|Hne].
    + rewrite Hi in Hx. injection Hx as <- <-. exists j, st'. rewrite lookup_insert_eq. by destruct (Hp Hr).
    + exists j, x. by rewrite lookup_insert_ne.
  - intros b. rewrite Ib. unfold connected. simpl. rewrite count_insert, Hi. unfold live. simpl.
    destruct st, st'; try done; lia.
Qed.

(** Something is reported of a peer that is connected. *)
Lemma report_inv e c :
  inv c → (∀ a, TcpLife.delta a e = 0) → (∀ a, TcpLife.needs e = Some a → 0 < connected a c) → inv (on_tcp (emit e) c).
Proof.
  intros [Ia In Is Ip Ib Ik] Hd He. split; simpl; try done.
  - intros a. rewrite TcpLife.balance_app, Ib. simpl. rewrite Hd. unfold connected. simpl. lia.
  - apply TcpLife.bracketed_snoc; [done|]. intros a Ha. rewrite Ib. auto.
Qed.

Lemma reader_connected i a st c : readers c !! i = Some (a, st) → st ≠ Ended → 0 < connected a c.
Proof.
  intros Hi Hst. unfold connected. pose proof (count_nonneg (announced a) (openings c)).
  assert (0 < count (live a) (readers c)); [|lia]. apply (count_pos _ i (a, st)); [done|].
  unfold live. simpl. rewrite bool_decide_eq_true_2 by done. by destruct st.
Qed.

(** *** The operations that open a connection *)
Lemma announce_inv k a c :
  inv c → openings c !! k = Some (a, Inserted) →
  inv (opens k (a, Announced) (on_tcp (emit (TransportEvent.Connected a)) c)).
Proof.
  intros [Ia In Is Ip Ib Ik] Hk. split; simpl; try done.
  - intros b [(k' & x & Hx & Hne)|Hr]%Ip; [|by right]. left. simpl. destruct (decide (k = k')) as [->|Hk'].
    + exists k', Announced. rewrite lookup_insert_eq. rewrite Hk in Hx. by injection Hx as <- <-.
    + exists k', x. by rewrite lookup_insert_ne.
  - intros b. rewrite TcpLife.balance_app, Ib. unfold connected. simpl. rewrite count_insert, Hk.
    unfold announced. simpl. rewrite andb_false_r, andb_true_r. repeat case_decide; simplify_eq;
      [rewrite bool_decide_eq_true_2 by done|rewrite bool_decide_eq_false_2 by done]; simpl; lia.
  - by apply TcpLife.bracketed_snoc.
Qed.

Lemma entry_inv now k a c :
  inv c → openings c !! k = Some (a, Checked) →
  inv (opens k (a, Entered) (on_tcp (on_pool (PoolConc.entry_insert now a)) c)).
Proof.
  intros Hc Hk. apply (opens_inv k a Checked Entered) in Hc as [Ia In Is Ip Ib Ik]; [|done..].
  split; simpl; try done. intros b. unfold pooled. simpl. destruct (decide (a = b)) as [->|Hne].
  - intros _. left. exists k, Entered. simpl. by rewrite lookup_insert_eq.
  - rewrite lookup_insert_ne by done. apply Ip.
Qed.

Lemma spawn_inv now k a c : inv c → openings c !! k = Some (a, Established) → inv (open_turn now k c).
Proof.
  intros [Ia In Is Ip Ib Ik] Hk. unfold open_turn. rewrite Hk.
  assert (readers c !! next (tcp c) = None) as Hnew.
  { destruct (readers c !! next (tcp c)) eqn:E; [|done]. specialize (In (next (tcp c)) ltac:(by rewrite E)). lia. }
  split; simpl.
  - unfold addrs in *. simpl. by rewrite !fmap_insert, Ia.
  - intros i. destruct (decide (i = next (tcp c))) as [->|Hne]; [lia|].
    rewrite lookup_insert_ne by done. intros Hi. specialize (In i Hi). lia.
  - intros b i. destruct (decide (a = b)) as [->|Hne].
    + rewrite lookup_insert_eq. intros [= <-]. exists Reading. by rewrite lookup_insert_eq.
    + rewrite lookup_insert_ne by done. intros (st & Hi & Hb)%Is. exists st.
      by rewrite lookup_insert_ne by congruence.
  - intros b [(k' & x & Hx & Hne)|(i & st & Hi & Hb)]%Ip.
    + destruct (decide (k = k')) as [->|Hk'].
      * right. exists (next (tcp c)), Reading. simpl. rewrite lookup_insert_eq. rewrite Hk in Hx. by injection Hx as <- <-.
      * left. exists k', x. simpl. by rewrite lookup_delete_ne.
    + right. exists i, st. simpl. by rewrite lookup_insert_ne by congruence.
  - intros b. rewrite Ib. unfold connected. simpl. rewrite count_delete, count_insert, Hk, Hnew.
    unfold announced, live. simpl. lia.
  - done.
Qed.

Lemma open_turn_inv now k c : inv c → inv (open_turn now k c).
Proof.
  intros Hc. destruct (openings c !! k) as [[a []]|] eqn:Hk.
  - unfold open_turn. rewrite Hk. case_match; [|by apply entry_inv]. by apply (opens_inv k a Checked).
  - unfold open_turn. rewrite Hk. apply (opens_inv k a Entered); [|done..].
    apply keeps_inv; [by apply counter_keeps|done].
  - unfold open_turn. rewrite Hk. by apply announce_inv.
  - unfold open_turn. rewrite Hk. apply (opens_inv k a Announced); [|done..].
    apply keeps_inv; [apply with_connection_keeps|done].
  - by eapply spawn_inv.
  - unfold open_turn. by rewrite Hk.
Qed.

(** *** The operations of a reader *)
Lemma dispatch_inv now i a f c :
  inv c → readers c !! i = Some (a, Received f) → inv (on_tcp (dispatch now a f) c).
Proof.
  intros Hc Hi. assert (0 < connected a c) as Hl by (by apply (reader_connected i a (Received f))).
  assert (∀ g, inv (on_tcp (emit (TransportEvent.FrameReceived a g)) c)) as Hf
    by (intros g; apply report_inv; [done..|]; by intros b [= <-]).
  unfold dispatch. destruct (FrameHeader.msg_type _); try apply Hf.
  - apply keeps_inv; [|done]. case_match; [apply send_keeps|by split].
  - apply keeps_inv; [apply with_connection_keeps|done].
Qed.

Lemma end_inv i a c :
  inv c → readers c !! i = Some (a, Counted) →
  inv (reads i (a, Ended)
    (on_tcp (on_conn i Conn.reader_stops ∘ emit (TransportEvent.Disconnected a "connection closed")) c)).
Proof.
  intros Hc Hi. pose proof (reader_connected i a Counted c Hi ltac:(done)) as Hl.
  destruct Hc as [Ia In Is Ip Ib Ik].
  assert (∀ j b st, readers c !! j = Some (b, st) → before_removal st = true →
    <[i := (a, Ended)]> (readers c) !! j = Some (b, st)) as Hj.
  { intros j b st Hj Hb. rewrite lookup_insert_ne; [done|]. intros ->. rewrite Hi in Hj. by injection Hj as <- <-. }
  split; simpl.
  - rewrite (q_addrs _ _ (on_conn_keeps i Conn.reader_stops _ ltac:(done))). unfold addrs in *. simpl.
    rewrite fmap_insert, Ia. symmetry. apply insert_id. by rewrite lookup_fmap, Hi.
  - intros j. destruct (decide (i = j)) as [->|Hne]; [intros _; apply In; by rewrite Hi|by rewrite lookup_insert_ne by done; apply In].
  - intros b j (st & Hb & Hst)%Is. exists st. split; [|done]. apply Hj; [done|]. by destruct st.
  - intros b [Ho|(j & st & Hb & Hst)]%Ip; [by left|]. right. exists j, st. split; [by apply Hj|done].
  - intros b. rewrite TcpLife.balance_app, Ib. unfold connected. simpl. rewrite count_insert, Hi.
    unfold live. simpl. rewrite andb_false_r, andb_true_r. repeat case_decide; simplify_eq;
      [rewrite bool_decide_eq_true_2 by done|rewrite bool_decide_eq_false_2 by done]; simpl; lia.
  - apply TcpLife.bracketed_snoc; [done|]. intros b [= <-]. by rewrite Ib.
Qed.

Lemma read_turn_inv now item i c : inv c → inv (read_turn now item i c).
Proof.
  intros Hc. unfold read_turn. destruct (readers c !! i) as [[a st]|] eqn:Hi; [|done].
  destruct st as [|f| | | | | |].
  - destruct item as [f|e|]; (apply (reads_inv i a Reading); [|done|done|done|by left|by left]).
    + apply keeps_inv; [apply with_connection_keeps|done].
    + apply report_inv; [done..|]. intros b [= <-]. by apply (reader_connected i a Reading).
    + done.
  - apply (reads_inv i a (Received f)); [|done|done|done|by left|by left]. by eapply dispatch_inv.
  - apply (reads_inv i a Leaving); [|done|done|done|right; apply lookup_delete_eq|by left].
    apply keeps_inv; [apply unfile_keeps|done].
  - apply (reads_inv i a Unfiled); [|done|done|done|done|by left].
    apply keeps_inv; [apply with_connection_keeps|done].
  - case_match eqn:Ha; (apply (reads_inv i a Marked); [|done|done|done|done|right; unfold pooled; simpl]).
    + apply keeps_inv; [|done]. split; try done. intros b. unfold pooled. simpl.
      by intros [x [_ Hx]%lookup_delete_Some].
    + rewrite lookup_delete_eq. by intros [? ?].
    + done.
    + rewrite Ha. by intros [? ?].
  - apply (reads_inv i a Removed); [|done..]. apply keeps_inv; [by apply counter_keeps|done].
  - by apply end_inv.
  - done.
Qed.

Section Runs.
Context `{CRC : !Crc32c}.

Lemma write_frame_keeps w i s : keeps s (write_frame w i s).
Proof. unfold write_frame. repeat case_match; try (by split); by apply on_conn_keeps. Qed.

Lemma writer_exit_keeps i s : keeps s (writer_exit i s).
Proof. unfold writer_exit. repeat case_match; try (by split); by apply on_conn_keeps. Qed.

Lemma open_check_inv k a c : inv c → inv (open_check k a c).
Proof.
  intros Hc. unfold open_check. case_match eqn:Hk; [done|]. case_match; [done|].
  destruct Hc as [Ia In Is Ip Ib Ik]. split; simpl; try done.
  - intros b [(k' & x & Hx & Hne)|Hr]%Ip; [|by right]. left. exists k', x. simpl.
    by rewrite lookup_insert_ne by congruence.
  - intros b. rewrite Ib. unfold connected. simpl. rewrite count_insert, Hk. unfold announced. simpl.
    rewrite andb_false_r. simpl. lia.
Qed.

Lemma op_inv c c' : inv c → step c c' → inv c'.
Proof.
  intros Hc Hst. destruct Hst as [k a c|now k c|now item i c|a f c|a c|a e c|w i c|i c].
  - by apply open_check_inv.
  - by apply open_turn_inv.
  - by apply read_turn_inv.
  - unfold queue. case_match; [|done]. apply (keeps_inv (λ s, default s (channel_send _ f s))); [|done].
    apply send_keeps.
  - apply keeps_inv; [apply unfile_keeps|done].
  - apply keeps_inv; [apply with_connection_keeps|done].
  - apply keeps_inv; [apply write_frame_keeps|done].
  - apply keeps_inv; [apply writer_exit_keeps|done].
Qed.

Lemma init_inv la max cfg : inv (init (bind la (ConnectionPool.new max cfg))).
Proof.
  split; simpl; try done.
  - by intros i [? ?].
  - by intros a [? ?].
  - intros [|? ?] ? ? ?; discriminate.
Qed.

(** C20: the upper layer sees every connection opened and closed in order, however
    the operations of the accept loop, of dialling, of readers, writers, senders
    and disconnections interleave. For every peer the Connected events outnumber
    the Disconnected ones by exactly the connections that are between the two; a
    frame, an error or a Disconnected of a peer is only ever reported while its
    balance is positive; a filed sender is the channel of a connection to that peer
    whose own reader has not yet removed it; and an address is in the pool only
    while a connection to it is being opened, or its reader has yet to remove it, so
    that nothing is left behind. (The converse does not hold: a filed sender may
    lack its pool entry for good, [filed_not_pooled].) *)
Theorem tcp_lifecycle (la : SocketAddr.t) (max : nat) (cfg : ConnectionConfig.t) (c : conf) :
  rtc step (init (bind la (ConnectionPool.new max cfg))) c →
  (∀ a, TcpLife.balance a (events (tcp c)) = connected a c) ∧
  TcpLife.bracketed (events (tcp c)) ∧
  (∀ a i, peer_senders (tcp c) !! a = Some i →
     ∃ d st, conns (tcp c) !! i = Some d ∧ Conn.peer_addr d = a ∧
       readers c !! i = Some (a, st) ∧ before_unfiling st = true) ∧
  (∀ a, ConnectionPool.contains a (pool (tcp c)) = true → owned a c).
Proof.
  intros Hrun. pose proof (init_inv la max cfg) as H0.
  assert (inv c) as [Ia In Is Ip Ib Ik].
  { induction Hrun as [|c1 c2 c3 Hst Hr IH]; [done|]. apply IH. by eapply op_inv. }
  split_and!; [done|done| |].
  - intros a i (st & Hi & Hst)%Is. apply (f_equal (.!! i)) in Ia. unfold addrs in Ia.
    rewrite !lookup_fmap, Hi in Ia. destruct (conns (tcp c) !! i) as [d|]; [|done]. injection Ia as <-. by exists d, st.
  - intros a Ha%bool_decide_eq_true_1. by apply Ip.
Qed.
End Runs.
End TcpConcLaws.

(** ** The runs of Transport.v are runs of the tasks *)
Module TcpAtomic.
Import TcpTransport TcpConc.

Definition waiting (s : TcpTransport.t) : gmap nat (SocketAddr.t * reader) :=
  (λ x : SocketAddr.t * bool, (x.1, if x.2 then Reading else Ended)) <$> TcpLife.tasks s.

(** No task is between two operations. *)
Definition idle (s : TcpTransport.t) : conf := mk s ∅ (waiting s).

Lemma idle_waiting s s' : TcpLife.tasks s' = TcpLife.tasks s → idle s' = mk s' ∅ (waiting s).
Proof. intros H. unfold idle, waiting. by rewrite H. Qed.

Section Atomic.
Context `{CRC : !Crc32c}.

Lemma step_to c c' d : step c c' → c' = d → rtc step c d.
Proof. intros H <-. by apply rtc_once. Qed.

(** From the pool to the two tasks. *)
Lemma inserted_steps a s :
  rtc step (mk s {[0%nat := (a, Inserted)]} (waiting s)) (idle (establish a s)).
Proof.
  do 2 (eapply rtc_l; [apply (StepOpen 0 0)|]; unfold open_turn at 1; simpl; rewrite lookup_singleton_eq;
    unfold opens; simpl; rewrite insert_singleton_eq).
  eapply step_to; [apply (StepOpen 0 0)|]. unfold open_turn. simpl. rewrite lookup_singleton_eq. unfold idle, waiting, TcpLife.tasks.
  simpl. by rewrite delete_singleton_eq, !fmap_insert.
Qed.

Lemma establish_steps now a s :
  (ConnectionPool.len (pool s) < ConnectionPool.max_connections (pool s))%nat →
  rtc step (idle s) (idle (establish a (on_pool (λ p, (ConnectionPool.insert now a p).1) s))).
Proof.
  intros Hlen%Nat.leb_gt. eapply rtc_l; [apply (StepCheck 0 a)|]. unfold open_check, opens.
  cbn [openings tcp readers idle]. rewrite lookup_empty, Hlen.
  eapply rtc_l; [apply (StepOpen now 0)|]. unfold open_turn, opens, on_tcp. cbn [openings tcp readers].
  rewrite lookup_insert_eq.
  replace (on_pool (λ p, (ConnectionPool.insert now a p).1) s) with (on_pool (ConnectionPool.insert_entry now a) s)
    by (unfold on_pool, ConnectionPool.insert; cbv beta; by rewrite Hlen).
  unfold ConnectionPool.insert_entry, on_pool.
  destruct (ConnectionPool.connections (pool s) !! a) eqn:Ha; cbn [openings tcp readers]; rewrite insert_insert_eq.
  - destruct s. apply inserted_steps.
  - eapply rtc_l; [apply (StepOpen now 0)|]. unfold open_turn, opens, on_tcp. cbn [openings tcp readers].
    rewrite lookup_insert_eq, insert_insert_eq. exact (inserted_steps a _).
Qed.

Lemma read_steps now item i c d : rtc step (read_turn now item i c) d → rtc step c d.
Proof. intros H. eapply rtc_l; [apply (StepRead now item i)|done]. Qed.

Ltac reader_op now item i :=
  apply (read_steps now item i); unfold read_turn; cbn [readers tcp]; rewrite lookup_insert_eq;
  unfold reads, on_tcp; cbn [openings tcp readers]; rewrite ?insert_insert_eq.

(** The end of the reader of connection [i], from its loop on. *)
Lemma leaving_steps i a s r :
  rtc step (mk s ∅ (<[i := (a, Leaving)]> r)) (mk (cleanup i a s) ∅ (<[i := (a, Ended)]> r)).
Proof.
  do 2 reader_op 0 Eof i. unfold cleanup.
  set (s2 := with_connection a ConnectionInfo.set_closed _).
  apply (read_steps 0 Eof i). unfold read_turn. cbn [readers tcp]. rewrite lookup_insert_eq.
  unfold ConnectionPool.remove, on_pool at 2. 
  destruct (ConnectionPool.connections (pool s2) !! a) eqn:Ha;
    unfold reads, on_tcp; cbn [openings tcp readers]; rewrite insert_insert_eq.
  - do 2 reader_op 0 Eof i. apply rtc_refl.
  - reader_op 0 Eof i. destruct s2. apply rtc_refl.
Qed.

Lemma waiting_reading i c s :
  conns s !! i = Some c → Conn.reader c = true → waiting s !! i = Some (Conn.peer_addr c, Reading).
Proof. intros Hc Hr. unfold waiting, TcpLife.tasks. by rewrite !lookup_fmap, Hc; simpl; rewrite Hr. Qed.

Lemma dispatch_tasks now a f s : TcpLife.tasks (dispatch now a f s) = TcpLife.tasks s.
Proof.
  unfold dispatch. destruct (FrameHeader.msg_type _); try done.
  case_match; [|done]. apply TcpLife.q_tasks, TcpLife.default_send_quiet.
Qed.

Lemma reader_turn_steps now item i s : rtc step (idle s) (idle (reader_turn now item i s)).
Proof.
  unfold reader_turn. destruct (conns s !! i) as [c|] eqn:Hc; [|apply rtc_refl].
  destruct (Conn.reader c) eqn:Hr; [|apply rtc_refl]. set (a := Conn.peer_addr c).
  pose proof (waiting_reading i c s Hc Hr) as Hi. fold a in Hi.
  assert (∀ s', TcpLife.tasks s' = TcpLife.tasks s → conns s' !! i = Some c →
    idle (cleanup i a s') = mk (cleanup i a s') ∅ (<[i := (a, Ended)]> (waiting s))) as Hend.
  { intros s' Ht Hc'. unfold idle, waiting, a. rewrite (TcpLife.cleanup_tasks i c s' Hc'), fmap_insert, Ht. done. }
  unfold idle at 1. rewrite <- (insert_id (waiting s) i (a, Reading) Hi). destruct item as [f|e|].
  - do 2 reader_op now (Item f) i. rewrite (insert_id (waiting s) i (a, Reading) Hi), (idle_waiting s); [apply rtc_refl|].
    etransitivity; [apply dispatch_tasks|done].
  - reader_op now (Failed e) i. rewrite Hend by done. apply leaving_steps.
  - reader_op now Eof i. rewrite Hend by done. apply leaving_steps.
Qed.

Lemma update_steps a e s s' :
  rtc step (idle s) (idle s') → rtc step (idle s) (idle (with_connection a (λ i, HeartbeatLaws.apply i e) s')).
Proof. intros H. eapply rtc_r; [exact H|]. exact (StepUpdate a e (idle s')). Qed.

Lemma queue_steps a i f s : peer_senders s !! a = Some i → rtc step (idle s) (idle (default s (channel_send i f s))).
Proof.
  intros Hi. eapply step_to; [apply (StepQueue a f)|]. unfold queue. simpl. rewrite Hi. symmetry. apply idle_waiting.
  apply TcpLife.q_tasks, TcpLife.default_send_quiet.
Qed.

Lemma broadcast_steps f s : rtc step (idle s) (idle (broadcast f s)).
Proof.
  unfold broadcast. assert (∀ e, e ∈ map_to_list (peer_senders s) → peer_senders s !! e.1 = Some e.2) as Hl
    by (intros [? ?]; apply elem_of_map_to_list).
  revert Hl. generalize (map_to_list (peer_senders s)) as l. intros l. revert s.
  induction l as [|e l IH]; intros s Hl; [apply rtc_refl|]. simpl.
  etransitivity; [apply (queue_steps e.1 e.2), Hl; left|]. apply IH. intros e' He'.
  rewrite (TcpLife.q_senders _ _ (TcpLife.default_send_quiet e.2 f s)). apply Hl. by right.
Qed.

Lemma writer_turn_steps now w i s : rtc step (idle s) (idle (writer_turn now w i s)).
Proof.
  assert (rtc step (idle s) (idle (write_frame w i s))) as Hw.
  { eapply step_to; [apply (StepWrite w i)|]. symmetry. apply idle_waiting. unfold write_frame.
    repeat case_match; try done; by apply TcpLife.tasks_on_conn. }
  unfold write_frame, writer_turn in *. repeat case_match; try exact Hw.
  by apply (update_steps _ (HeartbeatLaws.Send now _)).
Qed.

(** Every run of the handlers, each in one step, is a run of the operations. *)
Lemma atomic_runs s s' : rtc TcpTransport.step s s' → rtc step (idle s) (idle s').
Proof.
  induction 1 as [s|s1 s2 s3 Hst _ IH]; [apply rtc_refl|]. etransitivity; [|exact IH]. clear IH s3.
  destruct Hst as [now r s|now a r s|now a f s|f s|a s|now w i s|i s|now item i s].
  - unfold accept. destruct r as [a|e|]; [|apply rtc_refl..].
    destruct (ConnectionPool.insert now a (pool s)) as [p' r'] eqn:E. unfold ConnectionPool.insert in E.
    case_match eqn:Hl; injection E as <- <-; [apply rtc_refl|]. by apply establish_steps, Nat.leb_gt.
  - unfold connect. destruct r as [?|?|]; [|apply rtc_refl..].
    destruct (ConnectionPool.insert now a (pool s)) as [p' r'] eqn:E.
    replace p' with (ConnectionPool.insert now a (pool s)).1 by (by rewrite E). unfold ConnectionPool.insert in E.
    case_match eqn:Hl; injection E as <- <-; [|by apply Nat.leb_gt, (establish_steps now a) in Hl].
    unfold ConnectionPool.insert. rewrite Hl. destruct s. apply rtc_refl.
  - unfold send_to. destruct (peer_senders s !! a) as [i|] eqn:Hi; [|apply rtc_refl].
    pose proof (queue_steps a i f s Hi) as H. destruct (channel_send i f s); [|apply rtc_refl].
    by apply (update_steps _ (HeartbeatLaws.Send now 0)).
  - apply broadcast_steps.
  - apply (update_steps _ (HeartbeatLaws.State ConnectionState.Closing)). by apply rtc_once, (StepUnfile a (idle s)).
  - apply writer_turn_steps.
  - eapply step_to; [apply (StepWriterExit i)|]. symmetry. apply idle_waiting.
    apply TcpLife.q_tasks, TcpLife.writer_exit_quiet.
  - apply reader_turn_steps.
Qed.
End Atomic.
End TcpAtomic.

(** ** Concrete runs *)
Module TransportConcWitness.
Import Crc32cBitwise TcpTransport TcpConc FrameCodecWitness ConnectionWitness TransportWitness.

Inductive op : Type := Check (a : SocketAddr.t) | Open | Read (item : next_item) (i : nat).
Definition run_op (c : conf) (o : op) : conf :=
  match o with
  | Check a => open_check 0 a c
  | Open => open_turn 0 0 c
  | Read item i => read_turn 0 item i c
  end.
Definition run : list op → conf → conf := fold_left (λ c o, run_op c o).

Lemma run_steps l c : rtc step c (run l c).
Proof.
  revert c. induction l as [|o l IH]; intros c; [apply rtc_refl|]. eapply rtc_l; [|apply IH].
  destruct o; [apply StepCheck|apply StepOpen|apply StepRead].
Qed.

(** A connection is opened, its peer sends a frame and closes; the reader removes
    its sender. *)
Definition ends : list op :=
  Check (addr 2) :: replicate 5 Open ++ [Read (Item data) 0; Read Eof 0; Read Eof 0; Read Eof 0].

(** The peer is dialled again while its entry is still in the pool; then the old
    reader goes on to its end. *)
Definition redials : list op := Check (addr 2) :: replicate 4 Open ++ [Read Eof 0; Read Eof 0; Read Eof 0; Read Eof 0].

Lemma tcp_lifecycle_witness :
  let c := run (ends ++ redials) (init empty) in
  TcpLife.balance (addr 2) (events (tcp c)) = 1 ∧ TcpLife.bracketed (events (tcp c)) ∧
  TransportEvent.FrameReceived (addr 2) data ∈ events (tcp c) ∧
  ∃ d, conns (tcp c) !! 1%nat = Some d ∧ Conn.peer_addr d = addr 2.
Proof.
  destruct (TcpConcLaws.tcp_lifecycle (addr 1) 8 cfg (run (ends ++ redials) (init empty)) (run_steps _ _))
    as (Hb & Hk & Hs & _).
  split_and!; [rewrite Hb; by vm_compute|exact Hk| |].
  - vm_compute. right. left.
  - destruct (Hs (addr 2) 1%nat) as (d & st & Hd & Ha & _); [by vm_compute|]. exists d. split; [exact Hd|exact Ha].
Defined.

(** The new connection lives, its sender is filed, nobody is between two operations,
    and the pool does not know the peer. *)
Example filed_not_pooled :
  let c := run (ends ++ redials) (init empty) in
  peer_senders (tcp c) !! addr 2 = Some 1%nat ∧ readers c !! 1%nat = Some (addr 2, Reading) ∧
  readers c !! 0%nat = Some (addr 2, Ended) ∧ openings c = ∅ ∧
  ConnectionPool.contains (addr 2) (pool (tcp c)) = false.
Proof. vm_compute. done. Qed.
End TransportConcWitness.
