(* ===== verification/Node.v ===== *)
(** ceky-node/src/node.rs: the node, which composes the components below it. Its
    event loop takes commands of the API, events of the TCP transport and frames of
    the transfer manager one at a time; each is one handler here, from a state of
    the whole node to the next. The handshake of a peer, the session it ends in,
    the routing table, the transfers and the transport are the states of their own
    files.

    What a handler draws from its surroundings (the clock, random keys, whether a
    connection or a file can be opened) is its argument [env]; a handler reads the
    clock once. A handler keeps running ([Ok]), panics, waits for ever on a lock
    ([Err Blocked]), leaves the loop ([Err Left]) or takes the process down by an
    access behind the end of a mapped file ([Err Fault]). *)
From Stdlib Require Import String.
From S2P Require Import Prelude Bytes CryptoTypes WireTypes FrameCodec Replay Session Wire TransferMsg DhtMsg.
From S2P Require Import PeerId Identity Noise Float64 PeerInfo Routing Transfer Connection Transport.

Local Open Scope Z_scope.
Local Open Scope method_scope.

(** [hex::decode] and [hex::encode] of the crate hex. *)
Class HexCrate : Type := {
  hex_crate_decode : bytes → option bytes;
  hex_crate_encode : bytes → bytes
}.

(** ** api.rs: commands, and the events published to the API *)
Module ApiCommand.
Inductive t : Set :=
| Connect (addr : SocketAddr.t)
| ConnectPeerId (peer_id_hex : bytes)
| SendFile (target : SocketAddr.t) (file_path : bytes)
| SendMessage (target : SocketAddr.t) (message : bytes)
| SendMessagePeerId (target message : bytes).
End ApiCommand.

(** The JSON objects sent on [api_event_tx], by their "event" field. The channel keeps
    the last 100 of them, so an interface that reads slowly does not see them all. *)
Module ApiEvent.
Inductive t : Set :=
| PeerConnected (peer : SocketAddr.t)
| PeerDisconnected (peer : SocketAddr.t) (reason : string)
| FileOfferReceived (peer : SocketAddr.t) (file_name : bytes) (total_size : Z)
| MessageReceived (peer : SocketAddr.t) (message : bytes).
End ApiEvent.

Record Env : Set := mkEnv {
  now : Z;
  random : bytes;                 (** the ephemeral key of a handshake *)
  stream : result unit unit;      (** the outcome of [TcpStream::connect] *)
  transfer_id : bytes;            (** the id of a new transfer *)
  io_ok : bool;                   (** whether a file to send can be mapped *)
  prepared : prepare              (** how preparing a file to receive ends *)
}.

Inductive Halt : Set := Blocked | Left | Fault.

Module Node.
Inductive PeerState : Set :=
| InitiatorWaitMsg2 (handshake : NoiseHandshake.t)
| ResponderWaitMsg1 (handshake : NoiseHandshake.t)
| ResponderWaitMsg3 (handshake : NoiseHandshake.t)
| Secure (session : SecureSession.t).

Record t : Type := mk {
  identity : Identity.t;
  tcp_addr : SocketAddr.t;                         (** [config.tcp_addr] *)
  tcp_transport : TcpTransport.t;
  peer_states : gmap SocketAddr.t PeerState;
  routing_table : RoutingTable.t;
  transfer_manager : TransferManager.t;
  pending_dht_connects : gset PeerId.t;
  commands : list ApiCommand.t;                    (** sent by the loop to itself *)
  api_events : list ApiEvent.t;                    (** published on [api_event_tx], oldest first *)
  tx_bytes : Z                                     (** [metrics.tx_bytes] *)
}.

Definition set_tcp (x : TcpTransport.t) (s : t) : t :=
  mk (identity s) (tcp_addr s) x (peer_states s) (routing_table s) (transfer_manager s)
     (pending_dht_connects s) (commands s) (api_events s) (tx_bytes s).
Definition set_peers (x : gmap SocketAddr.t PeerState) (s : t) : t :=
  mk (identity s) (tcp_addr s) (tcp_transport s) x (routing_table s) (transfer_manager s)
     (pending_dht_connects s) (commands s) (api_events s) (tx_bytes s).
Definition set_table (x : RoutingTable.t) (s : t) : t :=
  mk (identity s) (tcp_addr s) (tcp_transport s) (peer_states s) x (transfer_manager s)
     (pending_dht_connects s) (commands s) (api_events s) (tx_bytes s).
Definition set_transfers (x : TransferManager.t) (s : t) : t :=
  mk (identity s) (tcp_addr s) (tcp_transport s) (peer_states s) (routing_table s) x
     (pending_dht_connects s) (commands s) (api_events s) (tx_bytes s).
Definition set_pending (x : gset PeerId.t) (s : t) : t :=
  mk (identity s) (tcp_addr s) (tcp_transport s) (peer_states s) (routing_table s) (transfer_manager s)
     x (commands s) (api_events s) (tx_bytes s).
Definition push_command (c : ApiCommand.t) (s : t) : t :=
  mk (identity s) (tcp_addr s) (tcp_transport s) (peer_states s) (routing_table s) (transfer_manager s)
     (pending_dht_connects s) (commands s ++ [c]) (api_events s) (tx_bytes s).
Definition publish (e : ApiEvent.t) (s : t) : t :=
  mk (identity s) (tcp_addr s) (tcp_transport s) (peer_states s) (routing_table s) (transfer_manager s)
     (pending_dht_connects s) (commands s) (api_events s ++ [e]) (tx_bytes s).
Definition add_tx_bytes (n : Z) (s : t) : t :=
  mk (identity s) (tcp_addr s) (tcp_transport s) (peer_states s) (routing_table s) (transfer_manager s)
     (pending_dht_connects s) (commands s) (api_events s) (wrap 64 (tx_bytes s + n)).
Definition set_peer (a : SocketAddr.t) (p : PeerState) (s : t) : t := set_peers (<[a := p]> (peer_states s)) s.
Definition drop_peer (a : SocketAddr.t) (s : t) : t := set_peers (delete a (peer_states s)) s.

Abbreviation handler := (method t Halt unit).

(** Calls whose result is ignored or handled only when it is [Ok]; a panic inside
    them is a panic of the loop. *)
Definition if_ok {E A} (r : result E A) (k : A → handler) : handler := λ s,
  match r with
  | Ok a => k a s
  | Err _ => (s, Ok tt)
  | Panic => (s, Panic)
  end.

(** [let _ = transfer_manager.f(...)] *)
Definition on_transfers {A} (f : TransferManager.t → TransferManager.t * outcome A) : handler := λ s,
  let '(m, o) := f (transfer_manager s) in
  (set_transfers m s,
   match o with
   | Blocks => Err Blocked
   | Killed => Err Fault
   | Returns Panic => Panic
   | Returns _ => Ok tt
   end).

Section Ops.
Context `{SH : !Sha256, XX : !X25519, AE : !Aead, LG : !Log2, HX : !HexCrate}.

(** [let _ = routing_table.insert(id, addr)] *)
Definition table_insert (e : Env) (id : PeerId.t) (addr : SocketAddr.t) : handler := λ s,
  let '(rt, r) := RoutingTable.insert (now e) id addr (routing_table s) in
  (set_table rt s, if is_panic r then Panic else Ok tt).

(** [tcp_transport.send_to(addr, frame)] *)
Definition tcp_send (e : Env) (addr : SocketAddr.t) (f : Frame.t) (s : t) : t * bool :=
  let '(tcp, r) := TcpTransport.send_to (now e) addr f (tcp_transport s) in
  (set_tcp tcp s, is_ok r).

Definition encrypted (ty : MessageType.t) (nonce : Z) (ciphertext : bytes) : Frame.t :=
  Frame.new ty (Flags.with_encrypted Flags.empty) nonce ciphertext.

(** [session.encrypt(payload)] and, when it succeeds, sending the result in an
    encrypted frame; the session is the one of [addr], and says whether a frame
    was sealed. *)
Definition seal_and_send (e : Env) (addr : SocketAddr.t) (ty : MessageType.t) (payload : bytes)
    (session : SecureSession.t) (s : t) : t * bool :=
  let '(session, r) := SecureSession.encrypt session payload in
  let s := set_peer addr (Secure session) s in
  match r with
  | Ok (enc_nonce, ciphertext) => ((tcp_send e addr (encrypted ty enc_nonce ciphertext) s).1, true)
  | _ => (s, false)
  end.

(** The same for the session filed under [addr], if there is one. *)
Definition send_secure (e : Env) (addr : SocketAddr.t) (ty : MessageType.t) (payload : bytes) (s : t) : t * bool :=
  match peer_states s !! addr with
  | Some (Secure session) => seal_and_send e addr ty payload session s
  | _ => (s, false)
  end.

(** Connecting to a peer and sending it the first message: [ApiCommand::Connect],
    and every seed at startup. *)
Definition dial (e : Env) (addr : SocketAddr.t) (s : t) : t :=
  let '(tcp, r) := TcpTransport.connect (now e) addr (stream e) (tcp_transport s) in
  let s := set_tcp tcp s in
  match r with
  | Ok _ =>
      let '(handshake, r) := NoiseHandshake.create_message1 (random e) (NoiseHandshake.new_initiator (identity s)) in
      match r with
      | Ok msg1 =>
          let '(s, sent) := tcp_send e addr (Frame.new MessageType.Handshake Flags.empty 0 msg1) s in
          if sent then set_peer addr (InitiatorWaitMsg2 handshake) s else s
      | _ => s
      end
  | _ => s
  end.

(** *** Commands *)
Definition send_message (e : Env) (addr : SocketAddr.t) (message : bytes) (s : t) : t :=
  let '(s, sealed) := send_secure e addr MessageType.Data message s in
  if sealed then add_tx_bytes (blen message) s else s.

Definition ask_all (e : Env) (payload : bytes) (s : t) : t :=
  fold_left (λ s p, (send_secure e p.1 MessageType.FindNode payload s).1) (map_to_list (peer_states s)) s.

Definition connect_peer_id (e : Env) (target : PeerId.t) (s : t) : t :=
  match RoutingTable.get target (routing_table s) with
  | Some peer_info => push_command (ApiCommand.Connect (PeerInfo.addr peer_info)) s
  | None =>
      let s := ask_all e (FindNode.encode (FindNode.mk (PeerId.as_bytes target))) s in
      set_pending ({[target]} ∪ pending_dht_connects s) s
  end.

Definition on_command (e : Env) (c : ApiCommand.t) : handler := λ s,
  match c with
  | ApiCommand.Connect addr => (dial e addr s, Ok tt)
  | ApiCommand.ConnectPeerId peer_id_hex =>
      match hex_crate_decode peer_id_hex with
      | Some bytes =>
          if blen bytes =? 32 then (connect_peer_id e (PeerId.from_bytes bytes) s, Ok tt) else (s, Ok tt)
      | None => (s, Ok tt)
      end
  | ApiCommand.SendFile target file_path =>
      if bool_decide (is_Some (peer_states s !! target)) then
        on_transfers (TransferManager.offer_file (transfer_id e) (io_ok e) target file_path 1000) s
      else (s, Ok tt)
  | ApiCommand.SendMessage target message => (send_message e target message s, Ok tt)
  | ApiCommand.SendMessagePeerId target message =>
      match hex_crate_decode target with
      | Some bytes =>
          if negb (blen bytes =? 32) then (s, Panic)
          else
            match RoutingTable.get (PeerId.from_bytes bytes) (routing_table s) with
            | Some peer_info => (send_message e (PeerInfo.addr peer_info) message s, Ok tt)
            | None => (s, Ok tt)
            end
      | None => (s, Ok tt)
      end
  end.

(** *** Events of the transport *)
Definition on_connected (peer_addr : SocketAddr.t) (s : t) : t :=
  let s := publish (ApiEvent.PeerConnected peer_addr) s in
  match peer_states s !! peer_addr with
  | Some _ => s
  | None => set_peer peer_addr (ResponderWaitMsg1 (NoiseHandshake.new_responder (identity s))) s
  end.

Definition on_disconnected (peer_addr : SocketAddr.t) (reason : string) (s : t) : t :=
  drop_peer peer_addr (publish (ApiEvent.PeerDisconnected peer_addr reason) s).

(** The end of a handshake, for both sides: the session, whose first message
    announces our identifier. *)
Definition finish_handshake (e : Env) (peer_addr : SocketAddr.t) (handshake : NoiseHandshake.t) (s : t) : t :=
  match NoiseHandshake.into_session_keys handshake with
  | Ok keys =>
      match SecureSession.from_keys keys with
      | Ok session =>
          (seal_and_send e peer_addr MessageType.Ping (PeerId.as_bytes (Identity.peer_id (identity s))) session s).1
      | _ => s
      end
  | _ => s
  end.

Definition send_handshake (e : Env) (peer_addr : SocketAddr.t) (msg : bytes) (s : t) : t :=
  (tcp_send e peer_addr (Frame.new MessageType.Handshake Flags.empty 0 msg) s).1.

(** The peer's state is taken out and put back only when the step succeeds. *)
Definition on_handshake (e : Env) (peer_addr : SocketAddr.t) (payload : bytes) : handler := λ s,
  match peer_states s !! peer_addr with
  | None => (s, Ok tt)
  | Some state =>
      let s := drop_peer peer_addr s in
      match state with
      | InitiatorWaitMsg2 handshake =>
          match NoiseHandshake.process_message2_create_message3 payload handshake with
          | (handshake, Ok msg3) =>
              (finish_handshake e peer_addr handshake (send_handshake e peer_addr msg3 s), Ok tt)
          | (_, Err _) => (s, Ok tt)
          | (_, Panic) => (s, Panic)
          end
      | ResponderWaitMsg1 handshake =>
          match NoiseHandshake.process_message1_create_message2 (random e) payload handshake with
          | (handshake, Ok msg2) =>
              (set_peer peer_addr (ResponderWaitMsg3 handshake) (send_handshake e peer_addr msg2 s), Ok tt)
          | (_, Err _) => (s, Ok tt)
          | (_, Panic) => (s, Panic)
          end
      | ResponderWaitMsg3 handshake =>
          match NoiseHandshake.process_message3 payload handshake with
          | (handshake, Ok _) => (finish_handshake e peer_addr handshake s, Ok tt)
          | (_, Err _) => (s, Ok tt)
          | (_, Panic) => (s, Panic)
          end
      | Secure session => (set_peer peer_addr (Secure session) s, Ok tt)
      end
  end.

Definition on_credit_update (data : bytes) : handler :=
  if 20 <=? blen data then
    let? id := mtry (slice 0 16 data) in
    let? cred := mtry (slice 16 20 data) in
    on_transfers (TransferManager.handle_credit_update (TransferId.from_bytes id) (of_le cred))
  else mdone tt.

Definition on_ping (e : Env) (peer_addr : SocketAddr.t) (data : bytes) : handler :=
  if blen data =? 32 then
    table_insert e (PeerId.from_bytes data) peer_addr ;?
    mset (λ s, (send_secure e peer_addr MessageType.Pong (PeerId.as_bytes (Identity.peer_id (identity s))) s).1)
  else mdone tt.

Definition on_pong (e : Env) (peer_addr : SocketAddr.t) (data : bytes) : handler :=
  if blen data =? 32 then table_insert e (PeerId.from_bytes data) peer_addr else mdone tt.

(** The peers named in the answer to a FindNode request. *)
Definition known_peers (target : PeerId.t) (s : t) : list (bytes * SocketAddr.t) :=
  if bool_decide (target = Identity.peer_id (identity s)) then
    [(PeerId.as_bytes (Identity.peer_id (identity s)), tcp_addr s)]
  else
    map (λ p, (PeerId.as_bytes (PeerInfo.peer_id p), PeerInfo.addr p))
      (RoutingTable.find_closest target 20 (routing_table s)).

Definition on_find_node (e : Env) (peer_addr : SocketAddr.t) (req : FindNode.t) : handler :=
  mset (λ s,
    let target := PeerId.from_bytes (FindNode.target req) in
    (send_secure e peer_addr MessageType.FindNodeResp
       (FindNodeResp.encode (FindNodeResp.mk (known_peers target s))) s).1).

(** One peer of an answer. *)
Definition learn_peer (e : Env) (p : bytes * SocketAddr.t) : handler :=
  let id := PeerId.from_bytes p.1 in
  table_insert e id p.2 ;?
  mset (λ s,
    if bool_decide (id ∈ pending_dht_connects s) then
      push_command (ApiCommand.Connect p.2) (set_pending (pending_dht_connects s ∖ {[id]}) s)
    else s).

Fixpoint on_find_node_resp (e : Env) (peers : list (bytes * SocketAddr.t)) : handler :=
  match peers with
  | [] => mdone tt
  | p :: peers => learn_peer e p ;? on_find_node_resp e peers
  end.

(** The decrypted payload of a frame, by the frame's type. *)
Definition dispatch (e : Env) (peer_addr : SocketAddr.t) (ty : MessageType.t) (data : bytes) : handler :=
  match ty with
  | MessageType.FileOffer =>
      if_ok (FileOffer.decode data) (λ offer,
        mset (publish (ApiEvent.FileOfferReceived peer_addr (FileOffer.file_name offer) (FileOffer.file_size offer))) ;?
        on_transfers (TransferManager.handle_offer (prepared e) peer_addr offer))
  | MessageType.FileAccept =>
      if_ok (FileAccept.decode data) (λ accept, on_transfers (TransferManager.handle_accept accept))
  | MessageType.FileChunk =>
      if_ok (FileChunk.decode data) (λ chunk, on_transfers (TransferManager.handle_chunk chunk))
  | MessageType.FileChunkAck =>
      if_ok (FileChunkAck.decode data) (λ ack, on_transfers (TransferManager.handle_chunk_ack ack))
  | MessageType.CreditUpdate => on_credit_update data
  | MessageType.Data =>
      if_ok (from_utf8 tt data) (λ msg_str, mset (publish (ApiEvent.MessageReceived peer_addr msg_str)))
  | MessageType.Ping => on_ping e peer_addr data
  | MessageType.Pong => on_pong e peer_addr data
  | MessageType.FindNode => if_ok (FindNode.decode data) (on_find_node e peer_addr)
  | MessageType.FindNodeResp =>
      if_ok (FindNodeResp.decode data) (λ resp, on_find_node_resp e (FindNodeResp.peers resp))
  | _ => mdone tt
  end.

Definition on_frame (e : Env) (peer_addr : SocketAddr.t) (frame : Frame.t) : handler := λ s,
  let header := Frame.header frame in
  if bool_decide (FrameHeader.msg_type header = MessageType.Handshake) then
    on_handshake e peer_addr (Frame.payload frame) s
  else
    match peer_states s !! peer_addr with
    | Some (Secure session) =>
        if Flags.is_encrypted (FrameHeader.flags header) then
          let '(session, r) := SecureSession.decrypt session (FrameHeader.request_id header) (Frame.payload frame) in
          let s := set_peer peer_addr (Secure session) s in
          match r with
          | Ok data => dispatch e peer_addr (FrameHeader.msg_type header) data s
          | _ => (s, Ok tt)
          end
        else (s, Ok tt)
    | _ => (s, Ok tt)
    end.

Definition on_error (peer_addr : option SocketAddr.t) (s : t) : t :=
  match peer_addr with Some addr => drop_peer addr s | None => s end.

Definition on_event (e : Env) (ev : option TransportEvent.t) : handler := λ s,
  match ev with
  | Some (TransportEvent.Connected peer_addr) => (on_connected peer_addr s, Ok tt)
  | Some (TransportEvent.Disconnected peer_addr reason) => (on_disconnected peer_addr reason s, Ok tt)
  | Some (TransportEvent.FrameReceived peer_addr frame) => on_frame e peer_addr frame s
  | Some (TransportEvent.Error peer_addr _) => (on_error peer_addr s, Ok tt)
  | None => (s, Err Left)
  end.

(** *** Frames of the transfer manager *)
Definition on_transfer_frame (e : Env) (peer_addr : SocketAddr.t) (frame : Frame.t) (s : t) : t :=
  (send_secure e peer_addr (FrameHeader.msg_type (Frame.header frame)) (Frame.payload frame) s).1.

(** *** The loop *)
Inductive input : Type :=
| Shutdown
| Command (c : ApiCommand.t)
| Event (ev : option TransportEvent.t)
| TransferFrame (peer_addr : SocketAddr.t) (frame : Frame.t).

Definition turn (e : Env) (i : input) : handler := λ s,
  match i with
  | Shutdown => (s, Err Left)
  | Command c => on_command e c s
  | Event ev => on_event e ev s
  | TransferFrame a f => (on_transfer_frame e a f s, Ok tt)
  end.

Fixpoint run (inputs : list (Env * input)) : handler :=
  match inputs with
  | [] => mdone tt
  | (e, i) :: inputs => turn e i ;? run inputs
  end.

(** *** Startup *)
Definition load_identity `{ED : !Ed25519} (files : Identity.files) (key_file ed_random x_random : bytes) (written : bool)
    : Identity.files * result CryptoError Identity.t :=
  match files !! key_file with
  | Some _ => (files, Identity.load_from_file files key_file)
  | None =>
      let id := Identity.generate ed_random x_random in
      let '(files, r) := Identity.save_to_file id written files key_file in
      (files, (λ _, id) <$> r)
  end.

Definition new (now : Z) (identity : Identity.t) (tcp_addr : SocketAddr.t) (max_connections : nat)
    (downloads : bytes) (d : disk) : t :=
  mk identity tcp_addr
     (TcpTransport.bind tcp_addr (ConnectionPool.new max_connections ConnectionConfig.default))
     ∅ (RoutingTable.new now (Identity.peer_id identity)) (TransferManager.new downloads d) ∅ [] [] 0.

Definition bootstrap (seeds : list (Env * SocketAddr.t)) (s : t) : t :=
  fold_left (λ s p, dial p.1 p.2 s) seeds s.
End Ops.
End Node.
