(* ===== verification/NodeLaws.v ===== *)
(** What the node guarantees: an encrypted hop between two nodes is transparent,
    messages and requests arrive, the handshake of two nodes completes, and
    nothing that is not authenticated has any effect.

    [outbox] is the channel of a peer's writer task; by [tcp_delivery] what is put
    on it is what the other node's loop receives, sealed with its checksum. *)
From S2P Require Import Prelude Bytes CryptoTypes WireTypes FrameCodec Replay Session Wire TransferMsg DhtMsg.
From S2P Require Import PeerId Identity Noise Float64 PeerInfo Routing Transfer Connection Transport Node.

Local Open Scope Z_scope.
Local Open Scope method_scope.

(** ** Two sessions, one direction: [sa] seals what [sb] opens *)
Module SessionPair.
Section Pair.
Context `{AE : !Aead, AOK : !AeadOk}.
Import SecureSession.

Record half (sa sb : t) : Prop := {
  hf_key : send_cipher sa = recv_cipher sb;
  hf_len : blen (send_cipher sa) = 32;
  hf_nonce : 0 ≤ send_nonce sa;
  hf_window : ∃ H, ReplayWindow.refines H (replay_window sb) ∧
    ReplayWindow.max_nonce (replay_window sb) ≤ send_nonce sa ∧ ∀ n, n ∈ H → n < send_nonce sa
}.

Lemma decrypt_fields s n c :
  let s' := (decrypt s n c).1 in
  send_cipher s' = send_cipher s ∧ recv_cipher s' = recv_cipher s ∧ send_nonce s' = send_nonce s.
Proof.
  unfold decrypt, window_check. destruct (ReplayWindow.check_and_mark _ _) as [w []]; simpl; [|done].
  by destruct (aead_decrypt _ _ _ _).
Qed.

(** What [sa] seals next, [sb] opens, and they stay a pair. *)
Lemma seal_hop sa sb m :
  half sa sb → send_nonce sa ≤ MAX_NONCE → blen m ≤ AEAD_MAX →
  ∃ c sb', let sa' := (fetch_add_send_nonce sa).1 in
    encrypt sa m = (sa', Ok (send_nonce sa, c)) ∧ decrypt sb (send_nonce sa) c = (sb', Ok m) ∧
    half sa' sb' ∧ send_nonce sa' = send_nonce sa + 1 ∧
    blen c = blen m + TAG_SIZE ∧ (bytes_wf m → bytes_wf c).
Proof.
  intros [Hk Hl Hn (H & Hr & Hmax & Hlt)] Hb Hm.
  assert (is_u64 (send_nonce sa)) as Hu by (apply counter_u64; lia).
  assert (wrap 64 (send_nonce sa + 1) = send_nonce sa + 1) as Hw by (apply wrap_small, counter_u64; lia).
  destruct (encrypt_with_ad_ok sa m [] Hl Hb Hm) as (c & He & _ & Hc). cbn [fst snd] in Hc.
  assert (ReplayWindow.spec_step (ReplayWindow.max_nonce (replay_window sb)) H (send_nonce sa) =
    (Z.max (ReplayWindow.max_nonce (replay_window sb)) (send_nonce sa), {[send_nonce sa]} ∪ H, true)) as Hs.
  { unfold ReplayWindow.spec_step. rewrite decide_True; [done|]. unfold ReplayWindow.spec_accepts.
    destruct (decide (ReplayWindow.max_nonce (replay_window sb) < send_nonce sa)); [by left|]. right.
    unfold ReplayWindow.REPLAY_WINDOW_SIZE. split_and!; [lia..|]. intros Hin. specialize (Hlt _ Hin). lia. }
  pose proof Hc as Hd. apply aead_correct in Hd. rewrite Hk in Hd.
  destruct (decrypt_with_ad_spec H sb (send_nonce sa) c m [] _ _ _ Hr Hu Hd Hs) as (sb' & Hdec & Hrc & Hmx & Hr').
  exists c, sb'. split_and!; [done|done| |done|by apply aead_length in Hc|by eauto using aead_bytes].
  split; simpl; [congruence|done|by apply wrap_range|]. rewrite Hw.
  exists ({[send_nonce sa]} ∪ H). split_and!; [done|lia|].
  intros n [->%elem_of_singleton|Hin]%elem_of_union; [lia|]. specialize (Hlt n Hin). lia.
Qed.

(** Opening does not disturb the other direction, nor does sealing. *)
Lemma half_back sa sb n c : half sa sb → half (decrypt sa n c).1 sb.
Proof.
  intros [Hk Hl Hn Hw]. destruct (decrypt_fields sa n c) as (H1 & _ & H3).
  split; rewrite ?H1, ?H3; done.
Qed.

Lemma half_sealing sa sb : half sb sa → half sb (fetch_add_send_nonce sa).1.
Proof. by intros [Hk Hl Hn Hw]. Qed.

(** Sessions fresh from their keys. *)
Lemma half_fresh k1 k2 r1 r2 :
  blen k1 = 32 → half (mk k1 k2 0 0 ReplayWindow.new r1) (mk k2 k1 0 0 ReplayWindow.new r2).
Proof.
  intros Hk. split; simpl; try done. exists ∅. split_and!; [apply ReplayWindow.new_refines|done|set_solver].
Qed.
End Pair.
End SessionPair.

Module NodeLaws.
Import Node SessionPair.

(** The frames handed to the running writer task of a peer. *)
Definition outbox (a : SocketAddr.t) (s : t) : option (list Frame.t) :=
  i ← TcpTransport.peer_senders (tcp_transport s) !! a;
  c ← TcpTransport.conns (tcp_transport s) !! i;
  if Conn.writer c then Some (Conn.sent c) else None.

(** Two states that differ at most in the transport. *)
Definition same_but_tcp (s s' : t) : Prop := s' = set_tcp (tcp_transport s') s.

Lemma tcp_send_outbox e a f s l :
  outbox a s = Some l →
  ∃ tcp, tcp_send e a f s = (set_tcp tcp s, true) ∧ outbox a (set_tcp tcp s) = Some (l ++ [f]).
Proof.
  unfold outbox, tcp_send, TcpTransport.send_to. intros Ho.
  destruct (TcpTransport.peer_senders (tcp_transport s) !! a) as [i|] eqn:Hi; [|done]. simpl in Ho.
  unfold TcpTransport.channel_send.
  destruct (TcpTransport.conns (tcp_transport s) !! i) as [c|] eqn:Hc; [|done]. simpl in Ho |- *.
  unfold Conn.send. destruct (Conn.writer c) eqn:Hw; [|done]. injection Ho as <-. simpl.
  eexists. split; [done|]. simpl. rewrite Hi. simpl. rewrite lookup_alter_eq, Hc. simpl. done.
Qed.

Section Hop.
Context `{SH : !Sha256, XX : !X25519, AE : !Aead, AOK : !AeadOk, LG : !Log2, HX : !HexCrate, CRC : !Crc32c}.

(** [a] files [b] under [B], [b] files [a] under [A], and what [a] seals [b] opens. *)
Definition linked (a b : t) (A B : SocketAddr.t) : Prop :=
  ∃ sa sb, peer_states a !! B = Some (Secure sa) ∧ peer_states b !! A = Some (Secure sb) ∧ half sa sb.

(** The frames [a] can still seal for [B]. *)
Definition nonces_left (a : t) (B : SocketAddr.t) : Z :=
  match peer_states a !! B with
  | Some (Secure sa) => SecureSession.MAX_NONCE + 1 - SecureSession.send_nonce sa
  | _ => 0
  end.

(** One frame sealed for [B], as the session [sb] of the other side opens it. *)
Lemma send_secure_sealed e a B sa sb ty m l :
  peer_states a !! B = Some (Secure sa) → half sa sb → outbox B a = Some l →
  SecureSession.send_nonce sa ≤ SecureSession.MAX_NONCE → blen m ≤ AEAD_MAX →
  ∃ c sb' tcp,
    let n := SecureSession.send_nonce sa in let sa' := (SecureSession.fetch_add_send_nonce sa).1 in
    let a' := set_tcp tcp (set_peer B (Secure sa') a) in
    send_secure e B ty m a = (a', true) ∧ outbox B a' = Some (l ++ [encrypted ty n c]) ∧
    SecureSession.decrypt sb n c = (sb', Ok m) ∧ half sa' sb' ∧ (half sb sa → half sb' sa') ∧
    SecureSession.send_nonce sa' = n + 1 ∧ SecureSession.send_nonce sb' = SecureSession.send_nonce sb ∧
    (bytes_wf m → blen m + TAG_SIZE ≤ MAX_PAYLOAD_SIZE → FrameCodec.frame_wf (encrypted ty n c)).
Proof.
  intros Ha Hh Ho Hn Hm. destruct (seal_hop sa sb m Hh Hn Hm) as (c & sb' & He & Hd & Hh' & Hn' & Hlen & Hwf).
  set (sa' := (SecureSession.fetch_add_send_nonce sa).1) in *.
  destruct (tcp_send_outbox e B (encrypted ty (SecureSession.send_nonce sa) c) (set_peer B (Secure sa') a) l Ho)
    as (tcp & Hsend & Hout).
  exists c, sb', tcp. cbv zeta. fold sa'. split_and!; try done.
  - unfold send_secure, seal_and_send. by rewrite Ha, He, Hsend.
  - intros Hback. apply half_sealing. pose proof (half_back sb sa (SecureSession.send_nonce sa) c Hback) as Hbk. by rewrite Hd in Hbk.
  - pose proof (decrypt_fields sb (SecureSession.send_nonce sa) c) as (_ & _ & Hf). rewrite Hd in Hf. by simpl in Hf.
  - intros Hmw Hsz. destruct Hh as [_ _ Hn0 _]. split; simpl; try done; [|lia| |by apply Hwf].
    + apply wrap_small. unfold MAX_PAYLOAD_SIZE in Hsz. pose proof (blen_nonneg c). split; lia.
    + apply SecureSession.counter_u64. lia.
Qed.

(** A frame the session opens is dispatched. *)
Lemma on_frame_opened e A f b sb sb' m :
  FrameHeader.msg_type (Frame.header f) ≠ MessageType.Handshake → Flags.is_encrypted (FrameHeader.flags (Frame.header f)) = true →
  peer_states b !! A = Some (Secure sb) →
  SecureSession.decrypt sb (FrameHeader.request_id (Frame.header f)) (Frame.payload f) = (sb', Ok m) →
  on_frame e A f b = dispatch e A (FrameHeader.msg_type (Frame.header f)) m (set_peer A (Secure sb') b).
Proof. intros Hty Hfl Hb Hd. unfold on_frame. by rewrite bool_decide_eq_false_2, Hb, Hfl, Hd by done. Qed.

Lemma send_secure_linked e a b A B ty m l :
  linked a b A B → outbox B a = Some l → 0 < nonces_left a B → blen m ≤ AEAD_MAX →
  ∃ f q a', let b0 := set_peer A q b in
    send_secure e B ty m a = (a', true) ∧ outbox B a' = Some (l ++ [f]) ∧
    (ty ≠ MessageType.Handshake → ∀ e' s, peer_states s !! A = peer_states b !! A →
      on_frame e' A f s = dispatch e' A ty m (set_peer A q s)) ∧
    (∃ p tcp, a' = set_tcp tcp (set_peer B p a)) ∧
    linked a' b0 A B ∧ (linked b a B A → linked b0 a' B A) ∧
    nonces_left a' B = nonces_left a B - 1 ∧ nonces_left b0 A = nonces_left b A ∧
    FrameHeader.msg_type (Frame.header f) = ty ∧
    (bytes_wf m → blen m + TAG_SIZE ≤ MAX_PAYLOAD_SIZE → FrameCodec.frame_wf f).
Proof.
  intros (sa & sb & Ha & Hb & Hh) Ho Hn Hm. unfold nonces_left in Hn. rewrite Ha in Hn.
  destruct (send_secure_sealed e a B sa sb ty m l Ha Hh Ho ltac:(lia) Hm)
    as (c & sb' & tcp & Hs & Hout & Hd & Hh' & Hbk & Hn' & Hnb & Hwf).
  set (sa' := (SecureSession.fetch_add_send_nonce sa).1) in *. set (f := encrypted ty (SecureSession.send_nonce sa) c) in *.
  exists f, (Secure sb'), (set_tcp tcp (set_peer B (Secure sa') a)). cbv zeta.
  split_and!; try (by eauto).
  - intros Hty e' s Hst. apply (on_frame_opened e' A f s sb sb' m); [done..|by rewrite Hst|done].
  - exists sa', sb'. simpl. by rewrite !lookup_insert_eq.
  - intros (tb & ta & Htb & Hta & Hback). rewrite Hb in Htb. rewrite Ha in Hta. injection Htb as <-. injection Hta as <-.
    exists sb', sa'. simpl. rewrite !lookup_insert_eq. by split_and!; [| |apply Hbk].
  - unfold nonces_left. simpl. rewrite lookup_insert_eq, Ha, Hn'. lia.
  - unfold nonces_left. simpl. by rewrite lookup_insert_eq, Hb, Hnb.
Qed.

Lemma on_frame_sealed e A f b : on_frame e A (FrameCodec.sealed f) b = on_frame e A f b.
Proof. done. Qed.

(** C16: the encrypted hop is transparent. When [a] hands a payload to its session
    with [b], exactly one frame goes out, and [b]'s loop treats it as the bare
    dispatch of that payload by its type would, in a state of [b] that differs only
    in the session; the two nodes stay linked, for either direction, so the next
    frame goes the same way. *)
Theorem secure_hop (e e' : Env) (a b : t) (A B : SocketAddr.t) (ty : MessageType.t) (m : bytes) (l : list Frame.t) :
  linked a b A B → outbox B a = Some l → 0 < nonces_left a B → blen m ≤ AEAD_MAX → ty ≠ MessageType.Handshake →
  ∃ f b0,
    let a' := on_transfer_frame e B (Frame.new ty Flags.empty 0 m) a in
    outbox B a' = Some (l ++ [f]) ∧
    on_event e' (Some (TransportEvent.FrameReceived A (FrameCodec.sealed f))) b = dispatch e' A ty m b0 ∧
    (∃ p, b0 = set_peer A p b) ∧ linked a' b0 A B ∧ (linked b a B A → linked b0 a' B A).
Proof.
  intros Hl Ho Hn Hm Hty.
  destruct (send_secure_linked e a b A B ty m l Hl Ho Hn Hm) as (f & q & a' & Hs & Hout & Hd & _ & Hl' & Hbk & _).
  exists f, (set_peer A q b). unfold on_transfer_frame. simpl FrameHeader.msg_type. simpl Frame.payload. rewrite Hs. simpl fst.
  split_and!; [done| |by exists q|done|done]. simpl on_event. rewrite on_frame_sealed. by apply Hd.
Qed.

(** *** Messages *)
Definition arrives (e : Env) (A : SocketAddr.t) (f : Frame.t) : Env * input :=
  (e, Event (Some (TransportEvent.FrameReceived A (FrameCodec.sealed f)))).

Definition sendable (m : bytes) : Prop := utf8_valid m = true ∧ blen m ≤ AEAD_MAX.

(** Payloads whose frame the codec encodes. *)
Definition fits (m : bytes) : Prop := bytes_wf m ∧ blen m + TAG_SIZE ≤ MAX_PAYLOAD_SIZE.

Lemma message_hop e e' a b A B m l :
  linked a b A B → outbox B a = Some l → 0 < nonces_left a B → sendable m →
  ∃ f b', let a' := send_message e B m a in
    outbox B a' = Some (l ++ [f]) ∧ on_frame e' A f b = (b', Ok tt) ∧
    api_events b' = api_events b ++ [ApiEvent.MessageReceived A m] ∧
    linked a' b' A B ∧ (linked b a B A → linked b' a' B A) ∧
    nonces_left a' B = nonces_left a B - 1 ∧ nonces_left b' A = nonces_left b A ∧
    tx_bytes a' = wrap 64 (tx_bytes a + blen m) ∧
    tcp_transport b' = tcp_transport b ∧ api_events a' = api_events a ∧
    TcpLaws.forwarded f = true ∧ (fits m → FrameCodec.frame_wf f).
Proof.
  intros Hl Ho Hn [Hu Hm].
  destruct (send_secure_linked e a b A B MessageType.Data m l Hl Ho Hn Hm)
    as (f & p & a' & Hs & Hout & Hd & (p' & tcp & ->) & Hl' & Hbk & Hn' & Hnb & Hty & Hwf).
  exists f, (publish (ApiEvent.MessageReceived A m) (set_peer A p b)).
  unfold send_message. rewrite Hs. split_and!; try done.
  - rewrite Hd by done. unfold dispatch, if_ok, from_utf8. by rewrite Hu.
  - unfold TcpLaws.forwarded. by rewrite Hty.
  - intros [H1 H2]. by apply Hwf.
Qed.

(** Messages arrive. For any number of UTF-8 messages (as many as nonces are
    left), sending them on a secure session puts one frame each in the outbox, and
    the receiving loop turns the frames, in order, into exactly those messages for
    its API, without a panic; the sender's byte counter grows by their sizes. *)
Lemma messages_delivered (e e' : Env) (a b : t) (A B : SocketAddr.t) (ms : list bytes) (l : list Frame.t) :
  linked a b A B → outbox B a = Some l → blen ms ≤ nonces_left a B → Forall sendable ms →
  ∃ fs a' b',
    run (map (λ m, (e, Command (ApiCommand.SendMessage B m))) ms) a = (a', Ok tt) ∧
    outbox B a' = Some (l ++ fs) ∧
    run (map (arrives e' A) fs) b = (b', Ok tt) ∧
    api_events b' = api_events b ++ map (ApiEvent.MessageReceived A) ms ∧
    linked a' b' A B ∧ (linked b a B A → linked b' a' B A) ∧
    wrap 64 (tx_bytes a') = wrap 64 (tx_bytes a + blen (concat ms)) ∧
    nonces_left a' B = nonces_left a B - blen ms ∧ nonces_left b' A = nonces_left b A ∧
    tcp_transport b' = tcp_transport b ∧ api_events a' = api_events a ∧
    Forall (λ f, TcpLaws.forwarded f = true) fs ∧ (Forall fits ms → Forall FrameCodec.frame_wf fs).
Proof.
  revert a b l. induction ms as [|m ms IH]; intros a b l Hl Ho Hn Hms.
  - exists [], a, b. simpl. rewrite !app_nil_r. unfold blen. simpl. rewrite Z.add_0_r, Z.sub_0_r. by split_and!.
  - apply Forall_cons in Hms as [Hm Hms]. unfold blen in Hn. simpl in Hn.
    destruct (message_hop e e' a b A B m l Hl Ho ltac:(lia) Hm)
      as (f & b1 & Ho1 & Hf & Hev & Hl1 & Hbk & Hn1 & Hm1 & Htx & Htcp & Hea & Hfw & Hwf).
    destruct (IH (send_message e B m a) b1 (l ++ [f]) Hl1 Ho1)
      as (fs & a' & b' & Hr & Ho' & Hr' & Hev' & Hl' & Hbk' & Htx' & Hn' & Hm' & Htcp' & Hea' & Hfs & Hws).
    { rewrite Hn1. unfold blen. lia. }
    { done. }
    exists (f :: fs), a', b'. split_and!; [exact Hr|by rewrite Ho', <- app_assoc| | |done|by eauto| | |congruence|congruence|congruence|by constructor|].
    + cbn [map run]. unfold mthen at 1, arrives at 1. cbn [turn on_event]. by rewrite on_frame_sealed, Hf.
    + by rewrite Hev', Hev, <- app_assoc.
    + rewrite Htx', Htx, wrap_add_l. cbn [concat]. rewrite blen_app. f_equal. lia.
    + rewrite Hn', Hn1. unfold blen. simpl. lia.
    + intros [? ?]%Forall_cons. constructor; auto.
Qed.
End Hop.

(** ** The handshake of two nodes *)
Section Handshake.
Context `{SH : !Sha256, SOK : !Sha256Ok, XX : !X25519, XOK : !X25519Ok, ED : !Ed25519, AE : !Aead, AOK : !AeadOk,
          LG : !Log2, HX : !HexCrate, CRC : !Crc32c}.

Definition hs_frame (msg : bytes) : Frame.t := Frame.new MessageType.Handshake Flags.empty 0 msg.

(** The session both ends start with, after their first message. *)
Definition started (k1 k2 rs : bytes) : SecureSession.t :=
  (SecureSession.fetch_add_send_nonce (SecureSession.mk k1 k2 0 0 ReplayWindow.new rs)).1.

(** The heartbeat that announces an identifier. *)
Definition announces (f : Frame.t) : Prop :=
  FrameHeader.msg_type (Frame.header f) = MessageType.Ping ∧ FrameCodec.frame_wf f.

Lemma identity_id_wf id : Identity.wf id → PeerId.wf (Identity.peer_id id).
Proof. intros [_ _ ->]. split; [apply sha256_length|apply sha256_bytes]. Qed.

(** A session just made, its first message in the outbox. *)
Lemma finish_handshake_ok e a hs k1 k2 rs s l :
  NoiseHandshake.into_session_keys hs = Ok (SessionKeys.mk k1 k2 rs) → blen k1 = 32 → blen k2 = 32 →
  Identity.wf (identity s) → outbox a s = Some l →
  ∃ f tcp,
    finish_handshake e a hs s = set_tcp tcp (set_peer a (Secure (started k1 k2 rs)) s) ∧
    outbox a (set_tcp tcp (set_peer a (Secure (started k1 k2 rs)) s)) = Some (l ++ [f]) ∧ announces f.
Proof.
  intros Hk L1 L2 Hid%identity_id_wf Ho. destruct Hid as [Hl Hw]. unfold finish_handshake.
  rewrite Hk, NoiseHandshake.from_keys_ok by done. unfold seal_and_send. rewrite SecureSession.encrypt_no_ad.
  assert (blen (Identity.peer_id (identity s)) = 32) as Hl32 by (unfold blen; lia).
  destruct (SecureSession.encrypt_with_ad_ok (SecureSession.mk k1 k2 0 0 ReplayWindow.new rs)
    (Identity.peer_id (identity s)) []) as (c & He & _ & Hc); [done|done|by rewrite Hl32|].
  unfold PeerId.as_bytes. rewrite He. cbn [fst snd] in Hc.
  match goal with |- context [tcp_send e a ?f ?s'] => destruct (tcp_send_outbox e a f s' l Ho) as (tcp & Hs & Hout) end.
  simpl SecureSession.send_nonce in *. rewrite Hs. eexists _, tcp. split_and!; [done|exact Hout|]. split; [done|].
  pose proof (aead_length _ _ _ _ _ Hc) as Hcl. rewrite Hl32 in Hcl.
  split; simpl; rewrite ?Hcl; try done. by eapply aead_bytes.
Qed.

Lemma hs_frame_wf m : bytes_wf m ∧ blen m ≤ 96 → FrameCodec.frame_wf (hs_frame m).
Proof.
  intros [Hw Hl]. pose proof (blen_nonneg m). split; simpl; try done; [|unfold MAX_PAYLOAD_SIZE; lia].
  apply wrap_small. split; lia.
Qed.

(** *** Its steps *)
Lemma on_frame_handshake e a m s : on_frame e a (hs_frame m) s = on_handshake e a m s.
Proof. done. Qed.

Lemma set_drop_peer a p s : set_peer a p (drop_peer a s) = set_peer a p s.
Proof. unfold set_peer, drop_peer, set_peers. simpl. by rewrite insert_delete_eq. Qed.

Lemma on_connected_new a s :
  peer_states s !! a = None →
  on_connected a s =
    set_peer a (ResponderWaitMsg1 (NoiseHandshake.new_responder (identity s))) (publish (ApiEvent.PeerConnected a) s).
Proof. intros H. unfold on_connected. simpl. by rewrite H. Qed.

Lemma on_connected_known a s p :
  peer_states s !! a = Some p → on_connected a s = publish (ApiEvent.PeerConnected a) s.
Proof. intros H. unfold on_connected. simpl. by rewrite H. Qed.

Lemma responder_answers e a s hs hs' msg1 msg2 l :
  peer_states s !! a = Some (ResponderWaitMsg1 hs) →
  NoiseHandshake.process_message1_create_message2 (random e) msg1 hs = (hs', Ok msg2) → outbox a s = Some l →
  ∃ tcp, on_frame e a (hs_frame msg1) s = (set_tcp tcp (set_peer a (ResponderWaitMsg3 hs') s), Ok tt) ∧
    outbox a (set_tcp tcp (set_peer a (ResponderWaitMsg3 hs') s)) = Some (l ++ [hs_frame msg2]).
Proof.
  intros Hp Hm Ho. destruct (tcp_send_outbox e a (hs_frame msg2) (drop_peer a s) l Ho) as (tcp & Hs & Hout).
  exists tcp. split; [|exact Hout]. rewrite on_frame_handshake. unfold on_handshake. rewrite Hp, Hm.
  unfold send_handshake. fold (hs_frame msg2). rewrite Hs. cbn [fst].
  change (set_peer a (ResponderWaitMsg3 hs') (set_tcp tcp (drop_peer a s)))
    with (set_tcp tcp (set_peer a (ResponderWaitMsg3 hs') (drop_peer a s))). by rewrite set_drop_peer.
Qed.

Lemma initiator_finishes e a s hs hs' msg2 msg3 k1 k2 rs l :
  peer_states s !! a = Some (InitiatorWaitMsg2 hs) →
  NoiseHandshake.process_message2_create_message3 msg2 hs = (hs', Ok msg3) →
  NoiseHandshake.into_session_keys hs' = Ok (SessionKeys.mk k1 k2 rs) → blen k1 = 32 → blen k2 = 32 →
  Identity.wf (identity s) → outbox a s = Some l →
  ∃ f tcp, on_frame e a (hs_frame msg2) s = (set_tcp tcp (set_peer a (Secure (started k1 k2 rs)) s), Ok tt) ∧
    outbox a (set_tcp tcp (set_peer a (Secure (started k1 k2 rs)) s)) = Some (l ++ [hs_frame msg3; f]) ∧ announces f.
Proof.
  intros Hp Hm Hk L1 L2 Hid Ho.
  destruct (tcp_send_outbox e a (hs_frame msg3) (drop_peer a s) l Ho) as (tcp & Hs & Hout).
  destruct (finish_handshake_ok e a hs' k1 k2 rs (set_tcp tcp (drop_peer a s)) _ Hk L1 L2 Hid Hout) as (f & tcp' & Hf & Ho' & Hann).
  exists f, tcp'. rewrite on_frame_handshake. unfold on_handshake. rewrite Hp, Hm.
  unfold send_handshake. fold (hs_frame msg3). rewrite Hs. cbn [fst]. rewrite Hf.
  split_and!; [|rewrite <- app_assoc in Ho'; exact Ho'|done].
  change (set_tcp tcp' (set_peer a ?p (set_tcp tcp (drop_peer a s)))) with (set_tcp tcp' (set_peer a p (drop_peer a s))).
  by rewrite set_drop_peer.
Qed.

Lemma responder_finishes e a s hs hs' msg3 k1 k2 rs l :
  peer_states s !! a = Some (ResponderWaitMsg3 hs) →
  NoiseHandshake.process_message3 msg3 hs = (hs', Ok tt) →
  NoiseHandshake.into_session_keys hs' = Ok (SessionKeys.mk k1 k2 rs) → blen k1 = 32 → blen k2 = 32 →
  Identity.wf (identity s) → outbox a s = Some l →
  ∃ f tcp, on_frame e a (hs_frame msg3) s = (set_tcp tcp (set_peer a (Secure (started k1 k2 rs)) s), Ok tt) ∧
    outbox a (set_tcp tcp (set_peer a (Secure (started k1 k2 rs)) s)) = Some (l ++ [f]) ∧ announces f.
Proof.
  intros Hp Hm Hk L1 L2 Hid Ho.
  destruct (finish_handshake_ok e a hs' k1 k2 rs (drop_peer a s) _ Hk L1 L2 Hid Ho) as (f & tcp & Hf & Ho' & Hann).
  exists f, tcp. rewrite on_frame_handshake. unfold on_handshake. rewrite Hp, Hm, Hf.
  split_and!; [by rewrite set_drop_peer|exact Ho'|done].
Qed.

(** The session [a] holds for [B], and the static key of the peer behind it. *)
Definition secure_with (s : t) (a : SocketAddr.t) (rs : bytes) : Prop :=
  ∃ session, peer_states s !! a = Some (Secure session) ∧ SecureSession.remote_static session = rs.

Lemma half_started k1 k2 r1 r2 :
  blen k1 = 32 → blen k2 = 32 → half (started k1 k2 r1) (started k2 k1 r2).
Proof.
  intros H1 H2. apply half_sealing. split; simpl; try done. exists ∅.
  split_and!; [apply ReplayWindow.new_refines|done|set_solver].
Qed.

(** Both ends of a fresh session. *)
Lemma linked_started a b A B k1 k2 r1 r2 :
  blen k1 = 32 → blen k2 = 32 →
  peer_states a !! B = Some (Secure (started k1 k2 r1)) → peer_states b !! A = Some (Secure (started k2 k1 r2)) →
  linked a b A B ∧ linked b a B A.
Proof. intros H1 H2 Ha Hb. split; eexists _, _; split_and!; [done..| |done|done|]; by apply half_started. Qed.

Lemma dial_outbox e B s i1 msg1 :
  stream e = Ok tt →
  (ConnectionPool.len (TcpTransport.pool (tcp_transport s)) < ConnectionPool.max_connections (TcpTransport.pool (tcp_transport s)))%nat →
  NoiseHandshake.create_message1 (random e) (NoiseHandshake.new_initiator (identity s)) = (i1, Ok msg1) →
  ∃ tcp, dial e B s = set_peer B (InitiatorWaitMsg2 i1) (set_tcp tcp s) ∧
    outbox B (dial e B s) = Some [hs_frame msg1].
Proof.
  intros Hst Hroom Hm. unfold dial, TcpTransport.connect, ConnectionPool.insert. rewrite Hst.
  destruct (Nat.leb_spec (ConnectionPool.max_connections (TcpTransport.pool (tcp_transport s)))
    (ConnectionPool.len (TcpTransport.pool (tcp_transport s)))); [lia|].
  simpl identity. rewrite Hm.
  match goal with |- context [tcp_send e B ?f ?s'] => destruct (tcp_send_outbox e B f s' []) as (tcp & Hs & Hout) end.
  { unfold outbox. simpl. rewrite lookup_insert_eq. simpl. by rewrite lookup_insert_eq. }
  rewrite Hs. exists tcp. split; [done|]. exact Hout.
Qed.

(** Two nodes that can reach each other get a secure session. One dials, the
    other's transport reports the connection; when each side's frames are handed to
    the other's loop in order, both loops keep running and end in sessions linked
    in both directions, each holding the other's static key, with the heartbeat
    that announces their identifiers in the outboxes. *)
Lemma nodes_handshake (ea eb : Env) (a b : t) (A B : SocketAddr.t) (lb : list Frame.t) :
  Identity.wf (identity a) → Identity.wf (identity b) → stream ea = Ok tt →
  (ConnectionPool.len (TcpTransport.pool (tcp_transport a)) < ConnectionPool.max_connections (TcpTransport.pool (tcp_transport a)))%nat →
  peer_states b !! A = None → outbox A b = Some lb →
  ∃ f1 f2 f3 p1 p2 a1 b1 a2 b2,
    turn ea (Command (ApiCommand.Connect B)) a = (a1, Ok tt) ∧ outbox B a1 = Some [f1] ∧
    run [(eb, Event (Some (TransportEvent.Connected A))); arrives eb A f1] b = (b1, Ok tt) ∧ outbox A b1 = Some (lb ++ [f2]) ∧
    run [(ea, Event (Some (TransportEvent.Connected B))); arrives ea B f2] a1 = (a2, Ok tt) ∧ outbox B a2 = Some [f1; f3; p1] ∧
    run [arrives eb A f3] b1 = (b2, Ok tt) ∧ outbox A b2 = Some (lb ++ [f2; p2]) ∧
    linked a2 b2 A B ∧ linked b2 a2 B A ∧
    secure_with a2 B (Identity.x25519_public_key (identity b)) ∧
    secure_with b2 A (Identity.x25519_public_key (identity a)).
Proof.
  intros Wa Wb Hst Hroom Hb Hlb.
  destruct (NoiseHandshake.handshake_messages (random ea) (random eb) (identity a) (identity b) Wa Wb)
    as (i1 & r1 & i & r & msg1 & msg2 & msg3 & k1 & k2 & E1 & E2 & E3 & E4 & L1 & L2 & Ki & Kr & _).
  destruct (dial_outbox ea B a i1 msg1 Hst Hroom E1) as (tcp1 & Hdial & Ho1). rewrite Hdial in Ho1.
  pose proof (on_connected_new A b Hb) as Hcb.
  set (b0 := set_peer A _ (publish _ b)) in Hcb. set (a1 := set_peer B _ (set_tcp tcp1 a)) in *.
  destruct (responder_answers eb A b0 _ r1 msg1 msg2 lb (lookup_insert_eq _ _ _) E2 Hlb) as (tcp2 & Hf1 & Ho2).
  set (b1 := set_tcp tcp2 _) in *.
  pose proof (on_connected_known B a1 _ (lookup_insert_eq _ _ _)) as Hca. set (a1' := publish _ a1) in Hca.
  destruct (initiator_finishes ea B a1' i1 i msg2 msg3 k1 k2 _ _ (lookup_insert_eq _ _ _) E3 Ki L1 L2 Wa Ho1)
    as (p1 & tcp3 & Hf2 & Ho3 & _).
  destruct (responder_finishes eb A b1 r1 r msg3 k2 k1 _ _ (lookup_insert_eq _ _ _) E4 Kr L2 L1 Wb Ho2)
    as (p2 & tcp4 & Hf3 & Ho4 & _).
  rewrite <- app_assoc in Ho4.
  eexists _, _, _, p1, p2, a1, b1, _, _. split_and!.
  - simpl. by rewrite Hdial.
  - exact Ho1.
  - unfold run, mthen, arrives. cbn [turn on_event]. by rewrite Hcb, on_frame_sealed, Hf1.
  - exact Ho2.
  - unfold run, mthen, arrives. cbn [turn on_event]. by rewrite Hca, on_frame_sealed, Hf2.
  - exact Ho3.
  - unfold run, mthen, arrives. cbn [turn on_event]. by rewrite on_frame_sealed, Hf3.
  - exact Ho4.
  - by eapply (linked_started _ _ A B k1 k2); [..|apply lookup_insert_eq|apply lookup_insert_eq].
  - by eapply (linked_started _ _ A B k1 k2); [..|apply lookup_insert_eq|apply lookup_insert_eq].
  - eexists. split; [apply lookup_insert_eq|done].
  - eexists. split; [apply lookup_insert_eq|done].
Qed.

(** A node keeps its identity: whatever it started with, generated or read, the
    next start with the same key file yields the same identity, which is
    consistent, and leaves the file alone. *)
Lemma identity_stable `{EOK : !Ed25519Ok} (fs fs' : Identity.files) (key_file r1 r2 r3 r4 : bytes) (w w' : bool) (id : Identity.t) :
  length r1 = 32%nat → length r2 = 32%nat →
  load_identity fs key_file r1 r2 w = (fs', Ok id) →
  Identity.wf id ∧ load_identity fs' key_file r3 r4 w' = (fs', Ok id).
Proof.
  intros H1 H2. unfold load_identity at 1. destruct (fs !! key_file) as [data|] eqn:Hk.
  - intros [= <- Hl]. split; [by eapply Identity.identity_load_sound|].
    unfold load_identity. by rewrite Hk, Hl.
  - destruct w; simpl; intros [= <- <-].
    assert (Identity.wf (Identity.generate r1 r2)) as Hwf by (by apply Identity.generate_wf).
    split; [done|]. unfold load_identity. rewrite lookup_insert_eq. f_equal.
    by eapply Identity.identity_save_load.
Qed.
End Handshake.
End NodeLaws.
