(* ===== verification/Network.v ===== *)
(** Two nodes joined by a TCP connection: the loops of [Node], the writer and
    reader tasks of [Transport] and the codec between them, composed. A side is a
    node with what has been read and handled of its queues; bytes travel in
    whatever pieces the network cuts them into. *)
From S2P Require Import Prelude Bytes CryptoTypes WireTypes FrameCodec Replay Session Wire TransferMsg DhtMsg.
From S2P Require Import PeerId Identity Noise Float64 PeerInfo Routing Transfer Connection Transport Node NodeLaws.

Local Open Scope Z_scope.
Local Open Scope method_scope.

(** ** The loop only queues

    A turn of the loop adds frames to the channels of its connections and touches
    nothing else of the transport, unless it dials. *)
Module Queues.
Import Node.

(** The channel of a writer after more frames were sent on it. *)
Definition push (fs : list Frame.t) (c : Conn.t) : Conn.t :=
  Conn.mk (Conn.peer_addr c) (Conn.sent c ++ fs) (Conn.taken c) (Conn.writer c) (Conn.reader c) (Conn.out c).

Lemma push_nil c : push [] c = c.
Proof. destruct c. unfold push. simpl. by rewrite app_nil_r. Qed.

Lemma push_push fs gs c : push gs (push fs c) = push (fs ++ gs) c.
Proof. unfold push. simpl. by rewrite <- app_assoc. Qed.

(** The same connections filed, in a pool with as much room. *)
Record kept (s s' : TcpTransport.t) : Prop := {
  ke_senders : TcpTransport.peer_senders s' = TcpTransport.peer_senders s;
  ke_len : ConnectionPool.len (TcpTransport.pool s') = ConnectionPool.len (TcpTransport.pool s);
  ke_max : ConnectionPool.max_connections (TcpTransport.pool s') = ConnectionPool.max_connections (TcpTransport.pool s)
}.

#[export] Instance kept_preorder : PreOrder kept.
Proof. split; [by split|]. intros s1 s2 s3 [] []. split; congruence. Qed.

Lemma with_connection_kept a f s : kept s (TcpTransport.with_connection a f s).
Proof. split; [done| |done]. unfold ConnectionPool.len. simpl. by rewrite <- !size_dom, dom_alter_L. Qed.

Lemma on_conn_kept i f s : kept s (TcpTransport.on_conn i f s).
Proof. by split. Qed.

Lemma channel_send_kept i f s s' : TcpTransport.channel_send i f s = Some s' → kept s s'.
Proof. unfold TcpTransport.channel_send. intros H. by simplify_option_eq. Qed.

Record extends (s s' : TcpTransport.t) : Prop := {
  ex_events : TcpTransport.events s' = TcpTransport.events s;
  ex_kept : kept s s';
  ex_conns : ∀ i c, TcpTransport.conns s !! i = Some c → ∃ fs, TcpTransport.conns s' !! i = Some (push fs c)
}.

#[export] Instance extends_preorder : PreOrder extends.
Proof.
  split.
  - intros s. split; [done..|]. intros i c Hc. exists []. by rewrite push_nil.
  - intros s1 s2 s3 [E1 S1 C1] [E2 S2 C2]. split; [congruence|by etrans|]. intros i c Hc.
    destruct (C1 i c Hc) as (fs & H1). destruct (C2 i _ H1) as (gs & H2). exists (fs ++ gs). by rewrite <- push_push.
Qed.

Lemma channel_send_extends i f s s' : TcpTransport.channel_send i f s = Some s' → extends s s'.
Proof.
  intros H. split; [|by eapply channel_send_kept|]; apply TcpLaws.channel_send_frame in H as (He & _ & _ & _ & c & Hc & Hw & Hm); [done|].
  intros j d Hd. rewrite Hm.
  destruct (decide (i = j)) as [->|Hne].
  - rewrite Hc in Hd. injection Hd as ->. exists [f]. rewrite lookup_insert_eq. unfold push. by rewrite Hw.
  - exists []. by rewrite lookup_insert_ne, push_nil.
Qed.

Lemma with_connection_extends a f s : extends s (TcpTransport.with_connection a f s).
Proof. split; [done|apply with_connection_kept|]. intros i c Hc. exists []. by rewrite push_nil. Qed.

Definition same_tcp (s s' : t) : Prop := tcp_transport s' = tcp_transport s.

Definition queues (h : handler) : Prop := ∀ s, extends (tcp_transport s) (tcp_transport (h s).1).

Lemma queues_then (h k : handler) : queues h → queues k → queues (h ;? k).
Proof.
  intros Hh Hk s. unfold mthen. specialize (Hh s). destruct (h s) as [s' [|e|]]; simpl in *; [|done..].
  by etrans; [|apply Hk].
Qed.

Lemma queues_done : queues (mdone tt).
Proof. intros s. done. Qed.

Lemma queues_set (f : t → t) : (∀ s, extends (tcp_transport s) (tcp_transport (f s))) → queues (mset f).
Proof. intros Hf s. apply Hf. Qed.

Lemma queues_if_ok {E A} (r : result E A) (k : A → handler) : (∀ a, queues (k a)) → queues (if_ok r k).
Proof. intros Hk s. unfold if_ok. destruct r; try done. by apply Hk. Qed.

Lemma queues_try {A} (r : result Halt A) (k : A → handler) : (∀ a, queues (k a)) → queues (let? a := mtry r in k a).
Proof. intros Hk s. unfold mthen, mtry. destruct r; try done. by apply Hk. Qed.

Lemma queues_transfers {A} (f : TransferManager.t → TransferManager.t * outcome A) : queues (on_transfers f).
Proof. intros s. unfold on_transfers. by destruct (f _). Qed.

Create HintDb queues.
#[local] Hint Resolve queues_done queues_transfers : queues.

Section Queues.
Context `{SH : !Sha256, XX : !X25519, AE : !Aead, LG : !Log2, HX : !HexCrate}.

Lemma table_insert_queues e id a : queues (table_insert e id a).
Proof. intros s. unfold table_insert. by destruct (RoutingTable.insert _ _ _ _). Qed.

Lemma tcp_send_extends e a f s : extends (tcp_transport s) (tcp_transport (tcp_send e a f s).1).
Proof.
  unfold tcp_send, TcpTransport.send_to. destruct (TcpTransport.peer_senders _ !! a) as [i|]; simpl; [|done].
  destruct (TcpTransport.channel_send i f _) as [s'|] eqn:E; simpl; [|done].
  etrans; [by eapply channel_send_extends|apply with_connection_extends].
Qed.

Lemma seal_and_send_extends e a ty m x s : extends (tcp_transport s) (tcp_transport (seal_and_send e a ty m x s).1).
Proof.
  unfold seal_and_send. destruct (SecureSession.encrypt x m) as [x' [[n c]| |]]; simpl; [|done..].
  by etrans; [|apply tcp_send_extends].
Qed.

Lemma send_secure_extends e a ty m s : extends (tcp_transport s) (tcp_transport (send_secure e a ty m s).1).
Proof. unfold send_secure. repeat (case_match; try done). apply seal_and_send_extends. Qed.

Lemma send_message_extends e a m s : extends (tcp_transport s) (tcp_transport (send_message e a m s)).
Proof.
  unfold send_message. pose proof (send_secure_extends e a MessageType.Data m s) as H.
  by destruct (send_secure _ _ _ _ _) as [s' []].
Qed.

Lemma ask_all_extends e m s : extends (tcp_transport s) (tcp_transport (ask_all e m s)).
Proof.
  unfold ask_all. generalize (map_to_list (peer_states s)). intros l. revert s.
  induction l as [|p l IH]; intros s; [done|]. simpl. etrans; [apply send_secure_extends|apply IH].
Qed.

Lemma connect_peer_id_extends e id s : extends (tcp_transport s) (tcp_transport (connect_peer_id e id s)).
Proof. unfold connect_peer_id. case_match; [done|]. apply ask_all_extends. Qed.

Lemma send_handshake_extends e a m s : extends (tcp_transport s) (tcp_transport (send_handshake e a m s)).
Proof. apply tcp_send_extends. Qed.

Lemma finish_handshake_extends e a hs s : extends (tcp_transport s) (tcp_transport (finish_handshake e a hs s)).
Proof. unfold finish_handshake. repeat (case_match; try done). apply seal_and_send_extends. Qed.

#[local] Hint Resolve table_insert_queues tcp_send_extends send_secure_extends send_message_extends
  connect_peer_id_extends send_handshake_extends finish_handshake_extends : queues.

Lemma on_handshake_queues e a m : queues (on_handshake e a m).
Proof.
  intros s. unfold on_handshake. repeat case_match; simpl; try done.
  - etrans; [|apply finish_handshake_extends]. exact (send_handshake_extends e a _ (drop_peer a s)).
  - exact (send_handshake_extends e a _ (drop_peer a s)).
  - exact (finish_handshake_extends e a _ (drop_peer a s)).
Qed.

Lemma on_find_node_resp_queues e ps : queues (on_find_node_resp e ps).
Proof.
  induction ps as [|p ps IH]; simpl; [apply queues_done|]. apply queues_then; [|done].
  apply queues_then; [apply table_insert_queues|]. apply queues_set. intros s. by case_match.
Qed.

Lemma dispatch_queues e a ty data : queues (dispatch e a ty data).
Proof.
  unfold dispatch. destruct ty; auto with queues;
    try (solve [apply queues_if_ok; intros ?; repeat apply queues_then; first [apply queues_transfers | apply queues_set; intros; simpl; auto with queues; done]]).
  - unfold on_ping. case_match; [|apply queues_done]. apply queues_then; [apply table_insert_queues|]. apply queues_set. auto with queues.
  - unfold on_pong. case_match; [|apply queues_done]. apply table_insert_queues.
  - apply queues_if_ok. intros. apply on_find_node_resp_queues.
  - unfold on_credit_update. case_match; [|apply queues_done]. apply queues_try. intros. apply queues_try. auto with queues.
Qed.

Lemma on_frame_queues e a f : queues (on_frame e a f).
Proof.
  intros s. unfold on_frame. case_match; [apply on_handshake_queues|]. repeat (case_match; try done).
  match goal with |- context [dispatch ?e ?a ?ty ?d ?s'] => exact (dispatch_queues e a ty d s') end.
Qed.

Definition dials (i : input) : bool := match i with Command (ApiCommand.Connect _) => true | _ => false end.

Lemma turn_queues e i : dials i = false → queues (turn e i).
Proof.
  intros Hi s. destruct i as [|[a|hex|a path|a m|hex m]|[[a|a r|a f|[a|] er]|]|a f]; simpl; try done; auto with queues.
  - repeat (case_match; try done). simpl. auto with queues.
  - case_match; [|done]. apply queues_transfers.
  - repeat (case_match; try done). simpl. auto with queues.
  - unfold on_connected. by case_match.
  - apply on_frame_queues.
  - apply send_secure_extends.
Qed.

Lemma run_queues inputs : Forall (λ x, dials x.2 = false) inputs → queues (run inputs).
Proof.
  induction 1 as [|[e i] inputs Hi _ IH]; [apply queues_done|]. simpl. apply queues_then; [by apply turn_queues|done].
Qed.
End Queues.
End Queues.

(** ** A side of the connection *)
Module Net.
Import Node NodeLaws Queues.

Record side : Type := mk {
  node : Node.t;
  conn : nat;                                       (** the connection to the other side *)
  codec : FrameCodec.DecodeState * bytes;           (** of its reader, with the bytes not yet decoded *)
  consumed : nat;                                   (** bytes of the other side that were read *)
  seen : nat;                                       (** events of the transport handled by the loop *)
  relayed : nat                                     (** frames of the transfer manager handled by the loop *)
}.

Definition set_node (n : Node.t) (s : side) : side :=
  mk n (conn s) (codec s) (consumed s) (seen s) (relayed s).
Definition tcp (s : side) : TcpTransport.t := tcp_transport (node s).
Definition set_side_tcp (x : TcpTransport.t) (s : side) : side := set_node (set_tcp x (node s)) s.

(** A node that has handled what waited for it, before it has a connection to the
    other side, which will have the number of the next one. *)
Definition start (n : Node.t) : side :=
  mk n (TcpTransport.next (tcp_transport n)) (FrameCodec.Header, []) 0
     (length (TcpTransport.events (tcp_transport n))) (length (TransferManager.sent (transfer_manager n))).

Definition output (s : side) : bytes :=
  match TcpTransport.conns (tcp s) !! conn s with Some c => Conn.out c | None => [] end.

Section Ops.
Context `{SH : !Sha256, XX : !X25519, AE : !Aead, LG : !Log2, HX : !HexCrate, CRC : !Crc32c}.

(** Commands of the interface, handled by the loop. *)
Definition commanded (e : Env) (cs : list ApiCommand.t) : method side Halt unit := λ s,
  let '(n, r) := run (map (λ c, (e, Command c)) cs) (node s) in (set_node n s, r).

(** The accept loop takes the connection of a peer. *)
Definition accepts (now : Z) (peer : SocketAddr.t) (s : side) : side :=
  set_side_tcp (TcpTransport.accept now (Ok peer) (tcp s)) s.

(** The writer task writes every frame that waits in its channel. *)
Definition writes (now : Z) (s : side) : side :=
  let waiting :=
    match TcpTransport.conns (tcp s) !! conn s with
    | Some c => (length (Conn.sent c) - Conn.taken c)%nat
    | None => 0%nat
    end in
  set_side_tcp (Nat.iter waiting (TcpTransport.writer_turn now TcpTransport.Written (conn s)) (tcp s)) s.

(** The reader task reads what the other side has written since, in the pieces
    [cut] makes of it, and takes a turn for every frame, and one for an error. *)
Definition reads (now : Z) (cut : bytes → list bytes) (other s : side) : side :=
  let '(fs, st, buf, er) := FrameCodec.feed (codec s).1 (codec s).2 (cut (drop (consumed s) (output other))) in
  let x := TcpTransport.read_frames now (conn s) fs (tcp s) in
  let x := match er with
           | Some er => TcpTransport.reader_turn now (TcpTransport.Failed (Codec er)) (conn s) x
           | None => x
           end in
  mk (set_tcp x (node s)) (conn s) (st, buf) (length (output other)) (seen s) (relayed s).

(** The loop handles the events of the transport that wait for it. *)
Definition handles (e : Env) : method side Halt unit := λ s,
  let events := TcpTransport.events (tcp s) in
  let '(n, r) := run (map (λ ev, (e, Event (Some ev))) (drop (seen s) events)) (node s) in
  (mk n (conn s) (codec s) (consumed s) (length events) (relayed s), r).

(** The loop sends on the frames of the transfer manager that wait for it. *)
Definition relays (e : Env) : method side Halt unit := λ s,
  let frames := TransferManager.sent (transfer_manager (node s)) in
  let '(n, r) := run (map (λ p, (e, TransferFrame p.1 p.2)) (drop (relayed s) frames)) (node s) in
  (mk n (conn s) (codec s) (consumed s) (seen s) (length frames), r).

(** Everything queued on one side travels to the other, whose loop handles it. *)
Definition pass (now : Z) (cut : bytes → list bytes) (e : Env) (src dst : side) : side * side * result Halt unit :=
  let src := writes now src in
  let '(dst, x) := handles e (reads now cut src dst) in
  (src, dst, x).

(** *** Both sides: [(l, r)] *)
Definition on_left (m : method side Halt unit) : method (side * side) Halt unit := λ w,
  let '(l, x) := m w.1 in ((l, w.2), x).
Definition on_right (m : method side Halt unit) : method (side * side) Halt unit := λ w,
  let '(r, x) := m w.2 in ((w.1, r), x).
Definition to_right (now : Z) (cut : bytes → list bytes) (e : Env) : method (side * side) Halt unit := λ w,
  let '(l, r, x) := pass now cut e w.1 w.2 in ((l, r), x).
Definition to_left (now : Z) (cut : bytes → list bytes) (e : Env) : method (side * side) Halt unit := λ w,
  let '(r, l, x) := pass now cut e w.2 w.1 in ((l, r), x).

(** [l] dials [r], the connection is accepted, and both loops are told of it. *)
Definition calls (now : Z) (el er : Env) (A B : SocketAddr.t) : method (side * side) Halt unit :=
  on_left (commanded el [ApiCommand.Connect B]) ;?
  on_right (mset (accepts now A)) ;?
  on_left (handles el) ;? on_right (handles er).

(** The connection and the three messages of the handshake. *)
Definition connects (now : Z) (cut : bytes → list bytes) (el er : Env) (A B : SocketAddr.t) : method (side * side) Halt unit :=
  calls now el er A B ;? to_right now cut er ;? to_left now cut el ;? to_right now cut er.

(** One side sends the other some messages: the left one when the flag says so. *)
Definition says (now : Z) (cut : bytes → list bytes) (el er : Env) (A B : SocketAddr.t) (round : bool * list bytes)
    : method (side * side) Halt unit :=
  if round.1 then on_left (commanded el (map (ApiCommand.SendMessage B) round.2)) ;? to_right now cut er
  else on_right (commanded er (map (ApiCommand.SendMessage A) round.2)) ;? to_left now cut el.

Fixpoint converses (now : Z) (cut : bytes → list bytes) (el er : Env) (A B : SocketAddr.t) (rounds : list (bool * list bytes))
    : method (side * side) Halt unit :=
  match rounds with
  | [] => mdone tt
  | round :: rounds => says now cut el er A B round ;? converses now cut el er A B rounds
  end.
End Ops.
End Net.

(** ** What a crossing does *)
Module NetLaws.
Import Node NodeLaws Queues Net.

(** The channel once its writer has written everything. *)
Definition caught_up `{CRC : !Crc32c} (c : Conn.t) : Conn.t :=
  Conn.mk (Conn.peer_addr c) (Conn.sent c) (length (Conn.sent c)) true (Conn.reader c)
    (concat (FrameCodec.wire <$> Conn.sent c)).

(** The answers of the transport to the heartbeats among some frames. *)
Definition is_ping (f : Frame.t) : bool := bool_decide (FrameHeader.msg_type (Frame.header f) = MessageType.Ping).
Definition pongs (fs : list Frame.t) : list Frame.t :=
  (λ f, Frame.simple MessageType.Pong (FrameHeader.request_id (Frame.header f))) <$> List.filter is_ping fs.

Lemma pongs_sealed `{CRC : !Crc32c} fs : pongs (FrameCodec.sealed <$> fs) = pongs fs.
Proof.
  unfold pongs. induction fs as [|f fs IH]; [done|]. rewrite fmap_cons. cbn [List.filter].
  change (is_ping (FrameCodec.sealed f)) with (is_ping f). destruct (is_ping f); [|done]. cbn. by f_equal.
Qed.

Lemma pongs_wf fs : Forall FrameCodec.frame_wf fs → Forall FrameCodec.frame_wf (pongs fs).
Proof.
  unfold pongs. induction 1 as [|f fs Hf _ IH]; [done|]. cbn [List.filter]. destruct (is_ping f); [|done].
  cbn. constructor; [|done]. destruct Hf. by split.
Qed.

Lemma handle_frame_kept now a f x : kept x (TcpTransport.handle_frame now a f x).
Proof.
  unfold TcpTransport.handle_frame, TcpTransport.dispatch. set (x1 := TcpTransport.with_connection a _ x).
  assert (kept x x1) as H by apply with_connection_kept.
  destruct (FrameHeader.msg_type _); try (etrans; [exact H|by split]).
  - destruct (TcpTransport.peer_senders x1 !! a) as [j|]; [|done].
    destruct (TcpTransport.channel_send j _ x1) as [x2|] eqn:E; [|done]. simpl. etrans; [exact H|by eapply channel_send_kept].
  - etrans; [exact H|apply with_connection_kept].
Qed.

(** What a reader with a working channel back makes of some frames. *)
Lemma read_frames_port now j fs : ∀ x d,
  TcpTransport.conns x !! j = Some d → Conn.reader d = true → Conn.writer d = true →
  TcpTransport.peer_senders x !! Conn.peer_addr d = Some j →
  let x' := TcpTransport.read_frames now j fs x in
  TcpTransport.events x' = TcpTransport.events x ++
    (TransportEvent.FrameReceived (Conn.peer_addr d) <$> List.filter TcpLaws.forwarded fs) ∧
  kept x x' ∧ TcpTransport.conns x' !! j = Some (push (pongs fs) d).
Proof.
  induction fs as [|f fs IH]; intros x d Hd Hr Hw Hs; cbv zeta.
  - rewrite push_nil, app_nil_r. done.
  - change (TcpTransport.read_frames now j (f :: fs) x)
      with (TcpTransport.read_frames now j fs (TcpTransport.reader_turn now (TcpTransport.Item f) j x)).
    assert (TcpTransport.reader_turn now (TcpTransport.Item f) j x = TcpTransport.handle_frame now (Conn.peer_addr d) f x) as ->
      by (unfold TcpTransport.reader_turn; by rewrite Hd, Hr).
    set (x1 := TcpTransport.handle_frame now (Conn.peer_addr d) f x).
    assert (kept x x1) as Hs1 by apply handle_frame_kept.
    assert (TcpTransport.conns x1 !! j = Some (push (pongs [f]) d)) as Hd1.
    { unfold x1, TcpTransport.handle_frame, TcpTransport.dispatch, pongs. cbn [List.filter]. unfold is_ping.
      destruct (FrameHeader.msg_type (Frame.header f)) eqn:Ht; try (simpl; by rewrite push_nil).
      simpl. rewrite Hs. unfold TcpTransport.channel_send. simpl. rewrite Hd. simpl. unfold Conn.send. rewrite Hw. simpl.
      rewrite lookup_alter_eq, Hd. unfold push. by rewrite Hw. }
    destruct (IH x1 (push (pongs [f]) d) Hd1 Hr Hw ltac:(by rewrite (ke_senders _ _ Hs1))) as (E1 & E2 & E3).
    split_and!; [|by trans x1|].
    + rewrite E1. unfold x1. rewrite TcpLaws.handle_frame_events. cbn [List.filter]. rewrite <- app_assoc.
      by destruct (TcpLaws.forwarded f).
    + rewrite E3, push_push. unfold pongs. cbn [List.filter]. by destruct (is_ping f).
Qed.

Section Crossing.
Context `{CRC : !Crc32c} {CRCOK : Crc32cOk}.

Lemma tcp_set x s : tcp (set_side_tcp x s) = x.
Proof. done. Qed.

(** A working connection to [peer]. *)
Record port (s : side) (peer : SocketAddr.t) (c : Conn.t) : Prop := {
  po_sender : TcpTransport.peer_senders (tcp s) !! peer = Some (conn s);
  po_conn : TcpTransport.conns (tcp s) !! conn s = Some c;
  po_peer : Conn.peer_addr c = peer;
  po_writer : Conn.writer c = true;
  po_reader : Conn.reader c = true;
  po_channel : TcpLaws.channel_ok c;
  po_frames : Forall FrameCodec.frame_wf (Conn.sent c)
}.

(** [s] has read all that was written on the other side's [c]. *)
Record tuned (s : side) (c : Conn.t) : Prop := {
  tu_codec : codec s = (FrameCodec.Header, []);
  tu_consumed : consumed s = length (Conn.out c)
}.

Lemma port_outbox s peer c : port s peer c → outbox peer (node s) = Some (Conn.sent c).
Proof. intros [H1 H2 _ Hw _ _ _]. unfold outbox, tcp in *. rewrite H1. simpl. rewrite H2. simpl. by rewrite Hw. Qed.

Lemma writer_turn_rest now i x :
  TcpTransport.events (TcpTransport.writer_turn now TcpTransport.Written i x) = TcpTransport.events x ∧
  kept x (TcpTransport.writer_turn now TcpTransport.Written i x).
Proof.
  unfold TcpTransport.writer_turn. repeat (case_match; try done).
  split; [done|]. etrans; [apply on_conn_kept|apply with_connection_kept].
Qed.

Lemma writer_catches_up now i n : ∀ x c,
  TcpTransport.conns x !! i = Some c → TcpLaws.channel_ok c → Conn.writer c = true →
  Forall FrameCodec.frame_wf (Conn.sent c) → n = (length (Conn.sent c) - Conn.taken c)%nat →
  let x' := Nat.iter n (TcpTransport.writer_turn now TcpTransport.Written i) x in
  TcpTransport.events x' = TcpTransport.events x ∧ kept x x' ∧ TcpTransport.conns x' !! i = Some (caught_up c).
Proof.
  induction n as [|n IH]; intros x c Hc Hok Hw Hwf Hn x'.
  - split_and!; [done..|]. unfold x'. simpl. rewrite Hc. f_equal. destruct c, Hok as (Hl & _ & Ho). unfold caught_up. simpl in *.
    rewrite Ho, take_ge by (done || lia). rewrite Hw. f_equal. lia.
  - destruct (lookup_lt_is_Some_2 (Conn.sent c) (Conn.taken c)) as [f Hf]; [lia|].
    assert (FrameCodec.frame_wf f) as Hff by (eapply Forall_lookup_1; done).
    unfold x'. rewrite Nat.iter_succ_r. destruct (writer_turn_rest now i x) as [E S].
    destruct (IH _ _ (TcpLaws.writer_turn_written now i x c f Hc Hw Hf Hff)) as (H1 & H2 & H3); [|done|done|simpl; lia|].
    + by apply (TcpLaws.channel_ok_wrote f c (FrameCodec.wire f) true).
    + rewrite H1, H3. split_and!; [done|by etrans|done].
Qed.

Lemma caught_up_ok c : TcpLaws.channel_ok (caught_up c).
Proof. unfold TcpLaws.channel_ok. simpl. rewrite take_ge by lia. by split_and!. Qed.

Lemma writes_port now s peer c :
  port s peer c →
  ∃ x, writes now s = set_side_tcp x s ∧ port (set_side_tcp x s) peer (caught_up c) ∧
    TcpTransport.events x = TcpTransport.events (tcp s) ∧ kept (tcp s) x.
Proof.
  intros [H1 H2 H3 H4 H5 H6 H7]. unfold writes. rewrite H2.
  destruct (writer_catches_up now (conn s) _ (tcp s) c H2 H6 H4 H7 eq_refl) as (E1 & E2 & E3).
  eexists. split_and!; [done| |done|done]. split; rewrite ?tcp_set; [by rewrite (ke_senders _ _ E2)|done..| |done]. apply caught_up_ok.
Qed.

(** The frames that wait in a channel. *)
Definition waiting (c : Conn.t) : list Frame.t := drop (Conn.taken c) (Conn.sent c).

Lemma waiting_bytes c :
  TcpLaws.channel_ok c → Conn.writer c = true →
  drop (length (Conn.out c)) (Conn.out (caught_up c)) = concat (FrameCodec.wire <$> waiting c).
Proof.
  intros (_ & _ & Ho) Hw. simpl. rewrite (Ho Hw). unfold waiting.
  rewrite <- (take_drop (Conn.taken c) (Conn.sent c)) at 2. rewrite fmap_app, concat_app. by rewrite drop_app_length.
Qed.

(** Crossing: whatever waits on [l], cut in whatever pieces, is reported on [r];
    the heartbeats in it are answered. *)
Lemma crossing now cut l r B A c d :
  (∀ w, concat (cut w) = w) → port l B c → port r A d → tuned r c →
  ∃ x y, writes now l = set_side_tcp x l ∧ TcpTransport.events x = TcpTransport.events (tcp l) ∧
    let l' := set_side_tcp x l in let r' := reads now cut l' r in
    node r' = set_tcp y (node r) ∧ conn r' = conn r ∧ seen r' = seen r ∧ relayed r' = relayed r ∧
    TcpTransport.events y = TcpTransport.events (tcp r) ++
      (TransportEvent.FrameReceived A <$> (FrameCodec.sealed <$> List.filter TcpLaws.forwarded (waiting c))) ∧
    port l' B (caught_up c) ∧ port r' A (push (pongs (waiting c)) d) ∧ tuned r' (caught_up c) ∧
    kept (tcp l) x ∧ kept (tcp r) y.
Proof.
  intros Hcut Hl Hr [Hco Hcn]. destruct (writes_port now l B c Hl) as (x & Hx & Hl' & Hev & Hke).
  destruct Hl as [_ _ _ Hw _ Hok Hwf]. destruct Hr as [R1 R2 R3 R4 R5 R6 R7].
  set (l' := set_side_tcp x l) in *. pose proof (po_conn _ _ _ Hl') as Hc'.
  assert (output l' = Conn.out (caught_up c)) as Ho by (unfold output; by rewrite Hc').
  assert (Forall FrameCodec.frame_wf (waiting c)) as Hwait by (by apply Forall_drop).
  assert (FrameCodec.feed FrameCodec.Header [] (cut (drop (consumed r) (output l'))) =
    (FrameCodec.sealed <$> waiting c, FrameCodec.Header, [], None)) as Hfeed.
  { apply FrameCodec.feed_all; [done|]. by rewrite Hcut, Ho, Hcn, waiting_bytes. }
  destruct (read_frames_port now (conn r) (FrameCodec.sealed <$> waiting c) (tcp r) d R2 R5 R4 ltac:(by rewrite R3))
    as (E1 & E2 & E3).
  exists x. eexists. cbv zeta. fold l'. unfold reads. rewrite Hco. cbn [fst snd]. rewrite Hfeed.
  split_and!; [done|done|done|done|done|done|by rewrite E1, R3, TcpLaws.filter_sealed|done| | |done|done].
  - rewrite pongs_sealed in E3. split; cbn [conn];
      try change (tcp _) with (TcpTransport.read_frames now (conn r) (FrameCodec.sealed <$> waiting c) (tcp r));
      [by rewrite (ke_senders _ _ E2)|done|done|done|done| |].
    + destruct R6 as (P1 & P2 & P3). unfold TcpLaws.channel_ok. simpl.
      rewrite length_app, take_app_le by lia. split_and!; [lia|done|done].
    + apply Forall_app. split; [done|]. by apply pongs_wf.
  - split; simpl; [done|by rewrite Ho].
Qed.

(** *** Two sides joined, with the frames that wait in their channels *)
Record joined (l r : side) (A B : SocketAddr.t) (fs gs : list Frame.t) : Prop := {
  jo_ends : ∃ c d, port l B c ∧ port r A d ∧ tuned r c ∧ tuned l d ∧ waiting c = fs ∧ waiting d = gs;
  jo_left : seen l = length (TcpTransport.events (tcp l));
  jo_right : seen r = length (TcpTransport.events (tcp r))
}.

Lemma joined_sym l r A B fs gs : joined l r A B fs gs → joined r l B A gs fs.
Proof. intros [(c & d & H) Hl Hr]. split; [exists d, c; naive_solver|done..]. Qed.

(** A port after the loop has queued more frames. *)
Lemma port_queued s s' peer c fs :
  port s peer c → conn s' = conn s → extends (tcp s) (tcp s') → outbox peer (node s') = Some (Conn.sent c ++ fs) →
  Forall FrameCodec.frame_wf fs → port s' peer (push fs c).
Proof.
  intros [H1 H2 H3 H4 H5 H6 H7] Hc [_ [Hs _ _] Hx] Ho Hwf. destruct (Hx _ _ H2) as (gs & Hg). rewrite <- Hc in *.
  assert (gs = fs) as ->.
  { unfold outbox in Ho. fold (tcp s') in Ho. rewrite Hs, H1 in Ho. simpl in Ho. rewrite Hg in Ho. simpl in Ho.
    rewrite H4 in Ho. injection Ho as Ho. by apply app_inv_head in Ho. }
  split; [by rewrite Hs|done..| |by apply Forall_app].
  destruct H6 as (P1 & P2 & P3). unfold TcpLaws.channel_ok. simpl. rewrite length_app, take_app_le by lia.
  split_and!; [lia|done|done].
Qed.

Lemma waiting_push c fs : TcpLaws.channel_ok c → waiting (push fs c) = waiting c ++ fs.
Proof. intros (Hl & _). unfold waiting. simpl. by rewrite drop_app_le. Qed.

Lemma waiting_caught_up c : waiting (caught_up c) = [].
Proof. unfold waiting. simpl. by rewrite drop_all. Qed.

Lemma tuned_push s c fs : tuned s c → tuned s (push fs c).
Proof. by intros [H1 H2]. Qed.
End Crossing.

(** What the loop does with a batch of frames from [A], whatever the transport
    holds besides: it keeps running, queues [gs'] in answer, and [P] holds. *)
Section Loop.
Context `{SH : !Sha256, XX : !X25519, AE : !Aead, LG : !Log2, HX : !HexCrate, CRC : !Crc32c} {CRCOK : Crc32cOk}.

Definition answers (e : Env) (A : SocketAddr.t) (fs : list Frame.t) (n : Node.t) (P : Node.t → list Frame.t → Prop) : Prop :=
  ∀ y l0, outbox A (set_tcp y n) = Some l0 →
    ∃ n' gs, run (map (arrives e A) fs) (set_tcp y n) = (n', Ok tt) ∧ outbox A n' = Some (l0 ++ gs) ∧
      Forall FrameCodec.frame_wf gs ∧ P n' gs.

Lemma arrives_queues e A fs : queues (run (map (arrives e A) fs)).
Proof. apply run_queues, Forall_map, Forall_true. done. Qed.

Lemma pass_joined now cut e l r A B fs gs P :
  (∀ w, concat (cut w) = w) → joined l r A B fs gs → answers e A (List.filter TcpLaws.forwarded fs) (node r) P →
  ∃ l' r' gs' x, pass now cut e l r = (l', r', Ok tt) ∧ joined l' r' A B [] (gs ++ pongs fs ++ gs') ∧ P (node r') gs' ∧
    node l' = set_tcp x (node l) ∧ relayed l' = relayed l ∧ relayed r' = relayed r ∧
    kept (tcp l) (tcp l') ∧ kept (tcp r) (tcp r').
Proof.
  intros Hcut [(c & d & Hl & Hr & Hrc & Hld & <- & <-) Sl Sr] Hans.
  destruct (crossing now cut l r B A c d Hcut Hl Hr Hrc) as (x & y & Hw & Hex & Hn & Hc & Hse & Hre & Hev & Hl' & Hr' & Hrc' & Kx & Ky).
  set (l' := set_side_tcp x l) in *. set (r1 := reads now cut l' r) in *.
  destruct (Hans y (Conn.sent d ++ pongs (waiting c))) as (n' & gs' & Hrun & Hout & Hwf & HP).
  { pose proof (port_outbox _ _ _ Hr') as Ho. by rewrite Hn in Ho. }
  set (r' := mk n' (conn r1) (codec r1) (consumed r1) (length (TcpTransport.events (tcp r1))) (relayed r1)).
  assert (handles e r1 = (r', Ok tt)) as Hh.
  { unfold handles. unfold tcp at 1. rewrite Hn, Hse, Sr. cbn [tcp_transport set_tcp]. rewrite Hev, drop_app_length, <- !list_fmap_compose.
    change (((λ ev, (e, Event (Some ev))) ∘ TransportEvent.FrameReceived A) ∘ FrameCodec.sealed) with (arrives e A).
    change (arrives e A <$> ?x) with (map (arrives e A) x). by rewrite Hrun. }
  assert (extends (tcp r1) (tcp r')) as Hx.
  { pose proof (arrives_queues e A (List.filter TcpLaws.forwarded (waiting c)) (set_tcp y (node r))) as H.
    rewrite Hrun in H. unfold tcp. by rewrite Hn. }
  pose proof (port_queued r1 r' A _ gs' Hr' eq_refl Hx Hout Hwf) as Hr''. rewrite push_push in Hr''.
  exists l', r', gs', x. unfold pass. rewrite Hw. fold l' r1. rewrite Hh. split_and!; [done| |done|done|done|done|done|].
  2: { etrans; [exact Ky|]. replace y with (tcp r1) by (unfold tcp; by rewrite Hn). apply Hx. }
  split.
  - exists (caught_up c), (push (pongs (waiting c) ++ gs') d). split_and!; [done|done| | |apply waiting_caught_up|].
    + by destruct Hrc'.
    + apply tuned_push. by destruct Hld.
    + by rewrite waiting_push by apply Hr.
  - unfold l'. rewrite tcp_set, Hex. done.
  - by rewrite (ex_events _ _ Hx).
Qed.

(** A loop that stops on what arrives. *)
Lemma pass_stops now cut e l r A B fs gs h :
  (∀ w, concat (cut w) = w) → joined l r A B fs gs →
  (∀ y, (run (map (arrives e A) (List.filter TcpLaws.forwarded fs)) (set_tcp y (node r))).2 = Err h) →
  ∃ l' r', pass now cut e l r = (l', r', Err h).
Proof.
  intros Hcut [(c & d & Hl & Hr & Hrc & Hld & <- & <-) Sl Sr] Hstop.
  destruct (crossing now cut l r B A c d Hcut Hl Hr Hrc) as (x & y & Hw & Hex & Hn & Hc & Hse & Hre & Hev & _).
  unfold pass. rewrite Hw. unfold handles. unfold tcp at 1. rewrite Hn, Hse, Sr. cbn [tcp_transport set_tcp].
  rewrite Hev, drop_app_length, <- !list_fmap_compose.
  change (((λ ev, (e, Event (Some ev))) ∘ TransportEvent.FrameReceived A) ∘ FrameCodec.sealed) with (arrives e A).
  change (arrives e A <$> ?x) with (map (arrives e A) x). specialize (Hstop y).
  destruct (run _ (set_tcp y (node r))) as [n' z]. cbn [snd] in Hstop. subst z. eauto.
Qed.

(** Commands on one side, that do not dial. *)
Lemma joined_queued l l' r A B fs gs fs' l0 :
  joined l r A B fs gs → conn l' = conn l → codec l' = codec l → consumed l' = consumed l → seen l' = seen l →
  extends (tcp l) (tcp l') → outbox B (node l) = Some l0 → outbox B (node l') = Some (l0 ++ fs') →
  Forall FrameCodec.frame_wf fs' → joined l' r A B (fs ++ fs') gs.
Proof.
  intros [(c & d & Hl & Hr & Hrc & Hld & <- & <-) Sl Sr] Hc Hcd Hcn Hse Hx H0 Ho Hwf.
  rewrite (port_outbox _ _ _ Hl) in H0. injection H0 as <-.
  pose proof (port_queued l l' B c fs' Hl Hc Hx Ho Hwf) as Hl'. split.
  - exists (push fs' c), d. split_and!; [done|done|by apply tuned_push| |by rewrite waiting_push by apply Hl|done].
    destruct Hld. split; congruence.
  - by rewrite Hse, Sl, (ex_events _ _ Hx).
  - done.
Qed.
End Loop.
End NetLaws.
