(* ===== verification/EndToEnd.v ===== *)
(** From one node's interface to the other's, over TCP: two nodes connect and
    agree on a session, exchange messages and send a file, with every byte through
    the codec, however the network cuts the stream. *)
From S2P Require Import Prelude Bytes CryptoTypes WireTypes FrameCodec Replay Session Wire TransferMsg DhtMsg.
From S2P Require Import PeerId Identity Noise Float64 PeerInfo Routing Transfer Connection Transport Node NodeLaws Network.

Local Open Scope Z_scope.
Local Open Scope method_scope.

Module EndToEnd.
Import Node NodeLaws Queues Net NetLaws.

Section Setup.
Context `{SH : !Sha256, SOK : !Sha256Ok, XX : !X25519, XOK : !X25519Ok, ED : !Ed25519, AE : !Aead, AOK : !AeadOk,
          LG : !Log2, HX : !HexCrate, CRC : !Crc32c} {CRCOK : Crc32cOk}.

Definition room (n : Node.t) : Prop :=
  (ConnectionPool.len (TcpTransport.pool (tcp_transport n)) < ConnectionPool.max_connections (TcpTransport.pool (tcp_transport n)))%nat.

Lemma insert_room now a p :
  (ConnectionPool.len p < ConnectionPool.max_connections p)%nat → ∃ p', ConnectionPool.insert now a p = (p', Ok tt).
Proof. intros H. unfold ConnectionPool.insert. destruct (Nat.leb_spec (ConnectionPool.max_connections p) (ConnectionPool.len p)); [lia|]. eauto. Qed.

(** The connections filed and the pool after one more connection. *)
Record grown (peer : SocketAddr.t) (x0 x : TcpTransport.t) : Prop := {
  gr_senders : TcpTransport.peer_senders x = <[peer := TcpTransport.next x0]> (TcpTransport.peer_senders x0);
  gr_len : (ConnectionPool.len (TcpTransport.pool x) ≤ S (ConnectionPool.len (TcpTransport.pool x0)))%nat;
  gr_max : ConnectionPool.max_connections (TcpTransport.pool x) = ConnectionPool.max_connections (TcpTransport.pool x0)
}.

Lemma grown_kept peer x0 x x' : grown peer x0 x → kept x x' → grown peer x0 x'.
Proof. intros [G1 G2 G3] [K1 K2 K3]. split; congruence || lia. Qed.

Lemma insert_grows now a p p' :
  ConnectionPool.insert now a p = (p', Ok tt) →
  (ConnectionPool.len p' ≤ S (ConnectionPool.len p))%nat ∧ ConnectionPool.max_connections p' = ConnectionPool.max_connections p.
Proof.
  unfold ConnectionPool.insert, ConnectionPool.insert_entry. case_match; [done|]. intros [= <-].
  case_match eqn:E; [by split; [lia|]|]. split; [|done]. unfold ConnectionPool.len. simpl. by rewrite map_size_insert_None.
Qed.

Lemma establish_grows now peer x0 p :
  ConnectionPool.insert now peer (TcpTransport.pool x0) = (p, Ok tt) →
  grown peer x0 (TcpTransport.establish peer (TcpTransport.on_pool (λ _, p) x0)).
Proof.
  intros [Hl Hm]%insert_grows. split; [done| |done].
  pose proof (with_connection_kept peer ConnectionInfo.set_established (TcpTransport.on_pool (λ _, p) x0)) as [_ K _].
  simpl in K |- *. unfold ConnectionPool.len in *. simpl in *. lia.
Qed.

(** A connection just made. *)
Definition fresh_conn (x0 x : TcpTransport.t) (peer : SocketAddr.t) : Prop :=
  TcpTransport.events x = TcpTransport.events x0 ++ [TransportEvent.Connected peer] ∧
  TcpTransport.peer_senders x !! peer = Some (TcpTransport.next x0) ∧
  TcpTransport.conns x !! TcpTransport.next x0 = Some (Conn.start peer).

Lemma establish_fresh peer f x0 :
  fresh_conn x0 (TcpTransport.establish peer (TcpTransport.on_pool f x0)) peer.
Proof. unfold fresh_conn. simpl. by rewrite !lookup_insert_eq. Qed.

Lemma start_port n s peer :
  fresh_conn (tcp_transport n) (tcp s) peer → conn s = TcpTransport.next (tcp_transport n) → port s peer (Conn.start peer).
Proof. intros (_ & H2 & H3) Hc. split; rewrite ?Hc; done. Qed.

Lemma accepts_start now A n :
  room n → ∃ y, accepts now A (start n) = set_node (set_tcp y n) (start n) ∧ fresh_conn (tcp_transport n) y A ∧
    grown A (tcp_transport n) y.
Proof.
  intros Hr. destruct (insert_room now A _ Hr) as (p & Hp). unfold accepts, TcpTransport.accept.
  change (tcp (start n)) with (tcp_transport n). rewrite Hp. eexists. split_and!; [done|apply establish_fresh|].
  pose proof (establish_grows _ _ _ _ Hp) as H. unfold TcpTransport.on_pool in *. by rewrite Hp.
Qed.

Lemma dial_start e B n i1 msg1 :
  room n → stream e = Ok tt →
  NoiseHandshake.create_message1 (random e) (NoiseHandshake.new_initiator (identity n)) = (i1, Ok msg1) →
  ∃ x0 x, dial e B n = set_peer B (InitiatorWaitMsg2 i1) (set_tcp x n) ∧ fresh_conn (tcp_transport n) x0 B ∧
    extends x0 x ∧ outbox B (set_tcp x n) = Some [hs_frame msg1] ∧ grown B (tcp_transport n) x.
Proof.
  intros Hr Hst Hm. destruct (insert_room (now e) B _ Hr) as (p & Hp).
  unfold dial, TcpTransport.connect. rewrite Hst, Hp.
  set (x0 := TcpTransport.establish B _). pose proof (establish_fresh B (λ _, p) (tcp_transport n)) as Hf. fold x0 in Hf.
  assert (outbox B (set_tcp x0 n) = Some []) as Ho.
  { destruct Hf as (_ & H2 & H3). unfold outbox. simpl. simpl in H2, H3. by rewrite H2; simpl; rewrite H3. }
  destruct (tcp_send_outbox e B (hs_frame msg1) (set_tcp x0 n) [] Ho) as (x & Hs & Hout).
  pose proof (tcp_send_extends e B (hs_frame msg1) (set_tcp x0 n)) as Hx. rewrite Hs in Hx.
  exists x0, x. simpl identity. rewrite Hm. fold (hs_frame msg1). rewrite Hs. split_and!; [done..|].
  eapply grown_kept; [by eapply establish_grows|apply Hx].
Qed.

(** *** Up to the first message of the handshake *)
Lemma dialled now e e' A B a b i1 msg1 :
  room a → room b → stream e = Ok tt → peer_states b !! A = None →
  NoiseHandshake.create_message1 (random e) (NoiseHandshake.new_initiator (identity a)) = (i1, Ok msg1) →
  FrameCodec.frame_wf (hs_frame msg1) →
  ∃ l r x y,
    calls now e e' A B (start a, start b) = ((l, r), Ok tt) ∧
    joined l r A B [hs_frame msg1] [] ∧
    node l = publish (ApiEvent.PeerConnected B) (set_peer B (InitiatorWaitMsg2 i1) (set_tcp x a)) ∧
    node r = set_peer A (ResponderWaitMsg1 (NoiseHandshake.new_responder (identity b)))
               (publish (ApiEvent.PeerConnected A) (set_tcp y b)) ∧
    relayed l = relayed (start a) ∧ relayed r = relayed (start b) ∧
    grown B (tcp_transport a) (tcp l) ∧ grown A (tcp_transport b) (tcp r).
Proof.
  intros Ra Rb Hst Hb Hm Hwf.
  destruct (dial_start e B a i1 msg1 Ra Hst Hm) as (x0 & x & Hd & Hf & Hx & Ho & Gx).
  destruct (accepts_start now A b Rb) as (y & Hacc & Hfy & Gy).
  pose proof (ex_events _ _ Hx) as Hex. destruct Hf as (He & Hf). rewrite He in Hex.
  destruct (Hfy) as (Hey & _).
  set (a1 := set_peer B (InitiatorWaitMsg2 i1) (set_tcp x a)) in *.
  set (l1 := set_node a1 (start a)). set (r1 := set_node (set_tcp y b) (start b)) in *.
  pose proof (on_connected_known B a1 _ (lookup_insert_eq _ _ _)) as Hca.
  pose proof (on_connected_new A (set_tcp y b) Hb) as Hcb.
  set (a2 := publish _ a1) in *. set (b2 := set_peer A _ _) in Hcb.
  set (l2 := mk a2 (conn l1) (codec l1) (consumed l1) (length (TcpTransport.events x)) (relayed l1)).
  set (r2 := mk b2 (conn r1) (codec r1) (consumed r1) (length (TcpTransport.events y)) (relayed r1)).
  assert (handles e l1 = (l2, Ok tt)) as Hhl.
  { unfold handles. change (tcp l1) with x. rewrite Hex. change (seen l1) with (length (TcpTransport.events (tcp_transport a))).
    rewrite drop_app_length. simpl map. cbn [run]. unfold mthen. cbn [turn on_event node l1 set_node]. rewrite Hca.
    unfold mdone, l2. by rewrite Hex. }
  assert (handles e' r1 = (r2, Ok tt)) as Hhr.
  { unfold handles. change (tcp r1) with y. rewrite Hey. change (seen r1) with (length (TcpTransport.events (tcp_transport b))).
    rewrite drop_app_length. simpl map. cbn [run]. unfold mthen. cbn [turn on_event node r1 set_node]. rewrite Hcb.
    unfold mdone, r2. by rewrite Hey. }
  exists l2, r2, x, y. split_and!; [| |done|done|done|done|done|done].
  - unfold calls, mthen at 1, on_left at 1, commanded. cbn [map run fst snd]. unfold mthen at 1. cbn [turn on_command start node].
    rewrite Hd. fold a1. unfold mdone. unfold mthen at 1, on_right at 1, mset. cbn [fst snd]. rewrite Hacc. fold r1.
    unfold mthen, on_left, on_right. cbn [fst snd]. fold (start a). fold l1. rewrite Hhl. cbn [fst snd]. by rewrite Hhr.
  - split; [|done|done].
    assert (port l2 B (push [hs_frame msg1] (Conn.start B))) as Pl.
    { apply (port_queued (mk (set_tcp x0 a) (conn l1) (codec l1) (consumed l1) 0 0)); [|done|exact Hx|exact Ho|by constructor].
      by apply (start_port a). }
    assert (port r2 A (Conn.start A)) as Pr by (by apply (start_port b)).
    exists (push [hs_frame msg1] (Conn.start B)), (Conn.start A). by split_and!.
Qed.

Lemma to_right_pass now cut e l r l' r' :
  pass now cut e l r = (l', r', Ok tt) → to_right now cut e (l, r) = ((l', r'), Ok tt).
Proof. intros H. unfold to_right. cbn [fst snd]. by rewrite H. Qed.

Lemma to_left_pass now cut e l r l' r' :
  pass now cut e r l = (r', l', Ok tt) → to_left now cut e (l, r) = ((l', r'), Ok tt).
Proof. intros H. unfold to_left. cbn [fst snd]. by rewrite H. Qed.

Lemma run_one e A f s : run (map (arrives e A) [f]) s = on_frame e A f s.
Proof.
  change (run (map (arrives e A) [f]) s) with (mthen (on_frame e A f) (λ _, mdone tt) s).
  unfold mthen, mdone. by destruct (on_frame e A f s) as [s' [[]| |]].
Qed.

Lemma pongs_silent fs : Forall (λ f, TcpLaws.forwarded f = false) (pongs fs).
Proof. unfold pongs. by apply Forall_fmap, Forall_true. Qed.

(** *** The handshake *)
Record secured (l r : side) (a b : Node.t) (A B : SocketAddr.t) : Prop := {
  se_joined : ∃ gs, joined l r A B [] gs ∧ Forall (λ f, TcpLaws.forwarded f = false) gs;
  se_linked : linked (node l) (node r) A B;
  se_back : linked (node r) (node l) B A;
  se_left : ∃ x k, node l = set_tcp x (set_peer B (Secure k) (publish (ApiEvent.PeerConnected B) a)) ∧
    SecureSession.send_nonce k = 1 ∧ SecureSession.remote_static k = Identity.x25519_public_key (identity b);
  se_right : ∃ x k, node r = set_tcp x (set_peer A (Secure k) (publish (ApiEvent.PeerConnected A) b)) ∧
    SecureSession.send_nonce k = 1 ∧ SecureSession.remote_static k = Identity.x25519_public_key (identity a);
  se_relayed : relayed l = relayed (start a) ∧ relayed r = relayed (start b);
  se_grown : grown B (tcp_transport a) (tcp l) ∧ grown A (tcp_transport b) (tcp r)
}.

(** Updates of different fields commute: the transport outermost, then the peers. *)
Lemma tcp_tcp x y s : set_tcp x (set_tcp y s) = set_tcp x s. Proof. done. Qed.
Lemma peer_tcp a p x s : set_peer a p (set_tcp x s) = set_tcp x (set_peer a p s). Proof. done. Qed.
Lemma publish_tcp v x s : publish v (set_tcp x s) = set_tcp x (publish v s). Proof. done. Qed.
Lemma publish_peer v a p s : publish v (set_peer a p s) = set_peer a p (publish v s). Proof. done. Qed.
Lemma peer_peer a p q s : set_peer a p (set_peer a q s) = set_peer a p s.
Proof. unfold set_peer, set_peers. simpl. by rewrite insert_insert_eq. Qed.
Create Rewrite HintDb updates.
#[local] Hint Rewrite tcp_tcp peer_tcp publish_tcp publish_peer peer_peer : updates.

(** What a pass leaves behind, for the side that wrote and for the one that read. *)
Definition wrote_only (s s' : side) : Prop :=
  (∃ x, node s' = set_tcp x (node s)) ∧ relayed s' = relayed s ∧ kept (tcp s) (tcp s').
Definition read_as (s s' : side) (f : Node.t → Node.t) : Prop :=
  (∃ x, node s' = set_tcp x (f (node s))) ∧ relayed s' = relayed s ∧ kept (tcp s) (tcp s').

Lemma pass_message1 now cut e l r A B hs hs' msg1 msg2 :
  (∀ w, concat (cut w) = w) → joined l r A B [hs_frame msg1] [] →
  peer_states (node r) !! A = Some (ResponderWaitMsg1 hs) →
  NoiseHandshake.process_message1_create_message2 (random e) msg1 hs = (hs', Ok msg2) → FrameCodec.frame_wf (hs_frame msg2) →
  ∃ l' r', pass now cut e l r = (l', r', Ok tt) ∧ joined l' r' A B [] [hs_frame msg2] ∧ wrote_only l l' ∧
    read_as r r' (set_peer A (ResponderWaitMsg3 hs')).
Proof.
  intros Hcut J Hp Hm Hwf.
  destruct (pass_joined now cut e l r A B _ _
    (λ n gs, gs = [hs_frame msg2] ∧ ∃ y, n = set_tcp y (set_peer A (ResponderWaitMsg3 hs') (node r))) Hcut J)
    as (l' & r' & ? & x & P & J' & (-> & Nr) & Nl & Rl & Rr & Kl & Kr).
  { intros y l0 Ho. change (List.filter _ _) with [hs_frame msg1]. rewrite run_one.
    destruct (responder_answers e A (set_tcp y (node r)) hs hs' msg1 msg2 l0 Hp Hm Ho) as (tcp & Hf & Ho').
    rewrite Hf. eexists _, [hs_frame msg2]. split_and!; [done|exact Ho'|by constructor|done|by eexists]. }
  exists l', r'. split_and!; [done|exact J'|by split; [eexists|]|done].
Qed.

Lemma pass_message2 now cut e l r A B hs hs' msg2 msg3 k1 k2 rs :
  (∀ w, concat (cut w) = w) → joined l r A B [hs_frame msg2] [] →
  peer_states (node r) !! A = Some (InitiatorWaitMsg2 hs) → Identity.wf (identity (node r)) →
  NoiseHandshake.process_message2_create_message3 msg2 hs = (hs', Ok msg3) → FrameCodec.frame_wf (hs_frame msg3) →
  NoiseHandshake.into_session_keys hs' = Ok (SessionKeys.mk k1 k2 rs) → blen k1 = 32 → blen k2 = 32 →
  ∃ l' r' f, pass now cut e l r = (l', r', Ok tt) ∧ joined l' r' A B [] [hs_frame msg3; f] ∧ announces f ∧ wrote_only l l' ∧
    read_as r r' (set_peer A (Secure (started k1 k2 rs))).
Proof.
  intros Hcut J Hp Hid Hm Hwf Hk L1 L2.
  destruct (pass_joined now cut e l r A B _ _
    (λ n gs, ∃ f y, gs = [hs_frame msg3; f] ∧ announces f ∧ n = set_tcp y (set_peer A (Secure (started k1 k2 rs)) (node r))) Hcut J)
    as (l' & r' & ? & x & P & J' & (f & y & -> & Hf & Nr) & Nl & Rl & Rr & Kl & Kr).
  { intros y l0 Ho. change (List.filter _ _) with [hs_frame msg2]. rewrite run_one.
    destruct (initiator_finishes e A (set_tcp y (node r)) hs hs' msg2 msg3 k1 k2 rs l0 Hp Hm Hk L1 L2 Hid Ho) as (f & tcp & Hf & Ho' & Ha).
    rewrite Hf. eexists _, [hs_frame msg3; f]. split_and!; [done|exact Ho'| |by eexists _, _].
    constructor; [done|]. constructor; [apply Ha|done]. }
  exists l', r', f. split_and!; [done|exact J'|done|by split; [eexists|]|by split; [eexists|]].
Qed.

Lemma pass_message3 now cut e l r A B hs hs' msg3 f k1 k2 rs :
  (∀ w, concat (cut w) = w) → joined l r A B [hs_frame msg3; f] [] → announces f →
  peer_states (node r) !! A = Some (ResponderWaitMsg3 hs) → Identity.wf (identity (node r)) →
  NoiseHandshake.process_message3 msg3 hs = (hs', Ok tt) →
  NoiseHandshake.into_session_keys hs' = Ok (SessionKeys.mk k1 k2 rs) → blen k1 = 32 → blen k2 = 32 →
  ∃ l' r' gs, pass now cut e l r = (l', r', Ok tt) ∧ joined l' r' A B [] gs ∧
    Forall (λ f, TcpLaws.forwarded f = false) gs ∧ wrote_only l l' ∧
    read_as r r' (set_peer A (Secure (started k1 k2 rs))).
Proof.
  intros Hcut J [Hty Hf] Hp Hid Hm Hk L1 L2.
  destruct (pass_joined now cut e l r A B _ _
    (λ n gs, Forall (λ f, TcpLaws.forwarded f = false) gs ∧ ∃ y, n = set_tcp y (set_peer A (Secure (started k1 k2 rs)) (node r))) Hcut J)
    as (l' & r' & gs & x & P & J' & (Hgs & Nr) & Nl & Rl & Rr & Kl & Kr).
  { intros y l0 Ho. assert (List.filter TcpLaws.forwarded [hs_frame msg3; f] = [hs_frame msg3]) as ->.
    { cbn [List.filter]. unfold TcpLaws.forwarded at 2. by rewrite Hty. }
    rewrite run_one.
    destruct (responder_finishes e A (set_tcp y (node r)) hs hs' msg3 k1 k2 rs l0 Hp Hm Hk L1 L2 Hid Ho) as (f2 & tcp & Hf2 & Ho' & Ha).
    rewrite Hf2. eexists _, [f2]. split_and!; [done|exact Ho'|constructor; [apply Ha|done]| |by eexists].
    constructor; [|done]. destruct Ha as [Ha _]. unfold TcpLaws.forwarded. by rewrite Ha. }
  eexists l', r', _. split_and!; [done|exact J'| |by split; [eexists|]|done].
  cbn [app]. apply Forall_app. split; [apply pongs_silent|done].
Qed.

Lemma connects_secured now cut ea eb a b A B :
  (∀ w, concat (cut w) = w) → Identity.wf (identity a) → Identity.wf (identity b) → stream ea = Ok tt →
  room a → room b → peer_states b !! A = None →
  ∃ l r, connects now cut ea eb A B (start a, start b) = ((l, r), Ok tt) ∧ secured l r a b A B.
Proof.
  intros Hcut Wa Wb Hst Ra Rb Hb.
  destruct (NoiseHandshake.handshake_messages (random ea) (random eb) (identity a) (identity b) Wa Wb)
    as (i1 & h1 & i & h & msg1 & msg2 & msg3 & k1 & k2 & E1 & E2 & E3 & E4 & L1 & L2 & Ki & Kr & Hms).
  apply Forall_cons in Hms as [M1 [M2 [M3 _]%Forall_cons]%Forall_cons].
  destruct (dialled now ea eb A B a b i1 msg1 Ra Rb Hst Hb E1 (hs_frame_wf _ M1))
    as (l0 & r0 & x0 & y0 & Hc & J0 & Nl0 & Nr0 & Rl0 & Rr0 & Gl & Gr).
  destruct (pass_message1 now cut eb l0 r0 A B (NoiseHandshake.new_responder (identity b)) h1 msg1 msg2 Hcut J0)
    as (l1 & r1 & P1 & J1 & ((x1 & Nl1) & Rl1 & Kl1) & (y1 & Nr1) & Rr1 & Kr1).
  { rewrite Nr0. apply lookup_insert_eq. } { exact E2. } { by apply hs_frame_wf. }
  destruct (pass_message2 now cut ea r1 l1 B A i1 i msg2 msg3 k1 k2 (Identity.x25519_public_key (identity b)) Hcut (joined_sym _ _ _ _ _ _ J1))
    as (r2 & l2 & f & P2 & J2 & Hf & ((y2 & Nr2) & Rr2 & Kr2) & (x2 & Nl2) & Rl2 & Kl2); try done.
  { rewrite Nl1, Nl0. apply lookup_insert_eq. } { by rewrite Nl1, Nl0. } { by apply hs_frame_wf. }
  destruct (pass_message3 now cut eb l2 r2 A B h1 h msg3 f k2 k1 (Identity.x25519_public_key (identity a)) Hcut (joined_sym _ _ _ _ _ _ J2) Hf)
    as (l3 & r3 & gs & P3 & J3 & Hgs & ((x3 & Nl3) & Rl3 & Kl3) & (y3 & Nr3) & Rr3 & Kr3); try done.
  { rewrite Nr2, Nr1. apply lookup_insert_eq. } { by rewrite Nr2, Nr1, Nr0. }
  exists l3, r3. split.
  { unfold connects. erewrite mthen_ok by done. erewrite mthen_ok by (by apply to_right_pass).
    erewrite mthen_ok by (by apply to_left_pass). by apply to_right_pass. }
  destruct (linked_started (node l3) (node r3) A B k1 k2 (Identity.x25519_public_key (identity b)) (Identity.x25519_public_key (identity a)) L1 L2)
    as [K1 K2]; [rewrite Nl3, Nl2; apply lookup_insert_eq|rewrite Nr3; apply lookup_insert_eq|].
  split; [by eexists|done|done| | |split; congruence|split; (eapply grown_kept; [done|by repeat (etrans; [done|])])].
  - exists x3, (started k1 k2 (Identity.x25519_public_key (identity b))). split_and!; [|done|done].
    rewrite Nl3, Nl2, Nl1, Nl0. by autorewrite with updates.
  - exists y3, (started k2 k1 (Identity.x25519_public_key (identity a))). split_and!; [|done|done].
    rewrite Nr3, Nr2, Nr1, Nr0. by autorewrite with updates.
Qed.

(** *** Messages *)
Lemma outbox_tcp a s s' : tcp_transport s = tcp_transport s' → outbox a s = outbox a s'.
Proof. intros H. unfold outbox. by rewrite H. Qed.

Lemma filter_all {T} (p : T → bool) l : Forall (λ x, p x = true) l → List.filter p l = l.
Proof. induction 1 as [|x l Hx _ IH]; [done|]. simpl. by rewrite Hx, IH. Qed.

(** Two sides with a session and nothing left to read. *)
Record talking (l r : side) (A B : SocketAddr.t) : Prop := {
  ta_joined : ∃ fs gs, joined l r A B fs gs ∧ Forall (λ f, TcpLaws.forwarded f = false) (fs ++ gs);
  ta_linked : linked (node l) (node r) A B;
  ta_back : linked (node r) (node l) B A
}.

Lemma filter_none {T} (p : T → bool) l : Forall (λ x, p x = false) l → List.filter p l = [].
Proof. induction 1 as [|x l Hx _ IH]; [done|]. simpl. by rewrite Hx. Qed.

Lemma talking_sym l r A B : talking l r A B → talking r l B A.
Proof.
  intros [(fs & gs & J & H) K1 K2]. split; [|done..]. exists gs, fs. split; [by apply joined_sym|].
  apply Forall_app in H as [? ?]. by apply Forall_app.
Qed.

(** Messages and frames of the transfer manager only add to the channels. *)
Lemma inputs_queue {T} (g : T → Env * input) xs n n' :
  (∀ x, dials (g x).2 = false) → run (map g xs) n = (n', Ok tt) → extends (tcp_transport n) (tcp_transport n').
Proof.
  intros Hg Hr. pose proof (run_queues (map g xs) ltac:(apply Forall_map, Forall_true; exact Hg) n) as H. by rewrite Hr in H.
Qed.

(** What the sender queues, and what the receiver's loop makes of it. *)
Lemma messages_answers e e' l r A B ms l0 :
  linked (node l) (node r) A B → linked (node r) (node l) B A → outbox B (node l) = Some l0 →
  blen ms ≤ nonces_left (node l) B → Forall sendable ms →
  ∃ fs a', run (map (λ c, (e, Command c)) (map (ApiCommand.SendMessage B) ms)) (node l) = (a', Ok tt) ∧
    outbox B a' = Some (l0 ++ fs) ∧ api_events a' = api_events (node l) ∧
    nonces_left a' B = nonces_left (node l) B - blen ms ∧
    Forall (λ f, TcpLaws.forwarded f = true) fs ∧ (Forall fits ms → Forall FrameCodec.frame_wf fs) ∧
    answers e' A fs (node r) (λ n gs, gs = [] ∧ linked a' n A B ∧ linked n a' B A ∧
      api_events n = api_events (node r) ++ map (ApiEvent.MessageReceived A) ms ∧
      nonces_left n A = nonces_left (node r) A).
Proof.
  intros K1 K2 Ho Hn Hms. rewrite map_map.
  destruct (messages_delivered e e' (node l) (node r) A B ms l0 K1 Ho Hn Hms)
    as (fs & a' & b' & Hr & Ho' & _ & _ & _ & _ & _ & Hn' & _ & _ & Hea & Hfw & Hwf).
  exists fs, a'. split_and!; [done..|]. intros y l1 Hl1.
  destruct (messages_delivered e e' (node l) (set_tcp y (node r)) A B ms l0 K1 Ho Hn Hms)
    as (fs2 & a2 & b2 & Hr2 & Ho2 & Hrun & Hev & L1 & L2 & _ & _ & Hnb & Htcp & _).
  rewrite Hr in Hr2. injection Hr2 as <-. rewrite Ho' in Ho2. injection Ho2 as <-%app_inv_head.
  exists b2, []. rewrite app_nil_r. split_and!; [done| |done|done|done|by apply L2|done|done].
  by rewrite (outbox_tcp A b2 (set_tcp y (node r)) Htcp).
Qed.

(** Frames queued on one side of a conversation and handled by the other. *)
Lemma carried now cut e l l1 r A B fs l0 P :
  (∀ w, concat (cut w) = w) → talking l r A B →
  conn l1 = conn l → codec l1 = codec l → consumed l1 = consumed l → seen l1 = seen l → extends (tcp l) (tcp l1) →
  outbox B (node l) = Some l0 → outbox B (node l1) = Some (l0 ++ fs) →
  Forall FrameCodec.frame_wf fs → Forall (λ f, TcpLaws.forwarded f = true) fs →
  answers e A fs (node r) (λ n gs, gs = [] ∧ linked (node l1) n A B ∧ linked n (node l1) B A ∧ P n) →
  ∃ l' r' x, pass now cut e l1 r = (l', r', Ok tt) ∧ talking l' r' A B ∧ P (node r') ∧
    node l' = set_tcp x (node l1) ∧ relayed l' = relayed l1 ∧ relayed r' = relayed r.
Proof.
  intros Hcut [(fs0 & gs0 & J & Hsil) K1 K2] H1 H2 H3 H4 Hx Ho Ho' Hwf Hfw Hans. apply Forall_app in Hsil as [Hs1 Hs2].
  pose proof (joined_queued l l1 r A B fs0 gs0 fs l0 J H1 H2 H3 H4 Hx Ho Ho' Hwf) as J1.
  destruct (pass_joined now cut e l1 r A B (fs0 ++ fs) gs0 _ Hcut J1
    ltac:(rewrite List.filter_app, (filter_none _ fs0), (filter_all _ fs) by done; exact Hans))
    as (l' & r' & gs' & x & P' & J' & (-> & L1 & L2 & HP) & Nl & Rl & Rr & _).
  exists l', r', x. split_and!; [done| |done|done|done|done].
  split; [|by rewrite Nl..]. eexists _, _. split; [exact J'|]. cbn [app]. rewrite app_nil_r. apply Forall_app. split; [done|apply pongs_silent].
Qed.

Lemma talking_outbox l r A B : talking l r A B → ∃ l0, outbox B (node l) = Some l0.
Proof. intros [(fs & gs & [(c & d & Pl & _) _ _] & _) _ _]. eexists. by apply port_outbox. Qed.

Lemma tell now cut e e' l r A B ms :
  (∀ w, concat (cut w) = w) → talking l r A B → blen ms ≤ nonces_left (node l) B → Forall sendable ms → Forall fits ms →
  ∃ l1 l' r', commanded e (map (ApiCommand.SendMessage B) ms) l = (l1, Ok tt) ∧ pass now cut e' l1 r = (l', r', Ok tt) ∧
    talking l' r' A B ∧ api_events (node r') = api_events (node r) ++ map (ApiEvent.MessageReceived A) ms ∧
    api_events (node l') = api_events (node l) ∧
    nonces_left (node l') B = nonces_left (node l) B - blen ms ∧ nonces_left (node r') A = nonces_left (node r) A.
Proof.
  intros Hcut T Hn Hms Hfit. destruct (talking_outbox _ _ _ _ T) as (l0 & Ho).
  destruct (messages_answers e e' l r A B ms _ (ta_linked _ _ _ _ T) (ta_back _ _ _ _ T) Ho Hn Hms)
    as (fs & a' & Hr & Ho' & Hea & Hn' & Hfw & Hwf & Hans).
  destruct (carried now cut e' l (set_node a' l) r A B fs l0 _ Hcut T eq_refl eq_refl eq_refl eq_refl
    ltac:(rewrite map_map in Hr; by apply inputs_queue in Hr) Ho Ho' (Hwf Hfit) Hfw Hans) as (l' & r' & x & P & T' & [Hev Hnr] & Nl & _ & _).
  exists (set_node a' l), l', r'. split_and!; [by unfold commanded; rewrite Hr|done|done|done|by rewrite Nl|by rewrite Nl|done].
Qed.

Lemma secured_talking l r a b A B : secured l r a b A B → talking l r A B.
Proof. intros [(gs & J & H) K1 K2 _ _ _ _]. split; [|done..]. by exists [], gs. Qed.

Lemma secured_nonces l r a b A B :
  secured l r a b A B →
  nonces_left (node l) B = SecureSession.MAX_NONCE ∧ nonces_left (node r) A = SecureSession.MAX_NONCE.
Proof.
  intros [_ _ _ (x & k & -> & Hk & _) (y & k' & -> & Hk' & _) _ _]. unfold nonces_left. simpl.
  rewrite !lookup_insert_eq, Hk, Hk'. split; lia.
Qed.

(** The messages of a conversation that one side hears, for its interface. *)
Definition heard (left : bool) (peer : SocketAddr.t) (rounds : list (bool * list bytes)) : list ApiEvent.t :=
  concat (map (λ rd, if Bool.eqb rd.1 left then [] else map (ApiEvent.MessageReceived peer) rd.2) rounds).

Definition spoken (rounds : list (bool * list bytes)) : Z := blen (concat (map snd rounds)).

Definition speakable (rounds : list (bool * list bytes)) : Prop :=
  Forall (λ rd, Forall sendable rd.2 ∧ Forall fits rd.2) rounds.

Lemma conversation now cut el er A B rounds : ∀ l r,
  (∀ w, concat (cut w) = w) → talking l r A B → speakable rounds →
  spoken rounds ≤ nonces_left (node l) B → spoken rounds ≤ nonces_left (node r) A →
  ∃ l' r', converses now cut el er A B rounds (l, r) = ((l', r'), Ok tt) ∧ talking l' r' A B ∧
    api_events (node l') = api_events (node l) ++ heard true B rounds ∧
    api_events (node r') = api_events (node r) ++ heard false A rounds.
Proof.
  induction rounds as [|[left ms] rounds IH]; intros l r Hcut T Hsp Hl Hr.
  - exists l, r. by rewrite !app_nil_r.
  - apply Forall_cons in Hsp as [[Hs Hf] Hsp]. unfold spoken, heard in *. cbn [map concat fst snd] in *.
    rewrite blen_app in Hl, Hr. pose proof (blen_nonneg (concat (map snd rounds))). pose proof (blen_nonneg ms).
    destruct left; cbn [Bool.eqb].
    + destruct (tell now cut el er l r A B ms) as (l1 & l2 & r2 & C & P & T2 & Er & El & Nl & Nr); [done|done|lia|done|done|].
      destruct (IH l2 r2) as (l3 & r3 & H3 & T3 & El3 & Er3); [done|done|done|lia|lia|]. exists l3, r3. split_and!; [|done| |].
      * cbn [converses]. erewrite mthen_ok; [exact H3|]. unfold says. cbn [fst snd].
        erewrite mthen_ok; [by apply to_right_pass|]. unfold on_left. cbn [fst snd]. by rewrite C.
      * by rewrite El3, El.
      * by rewrite Er3, Er, <- app_assoc.
    + destruct (tell now cut er el r l B A ms) as (r1 & r2 & l2 & C & P & T2 & El & Er & Nr & Nl); [done|by apply talking_sym|lia|done|done|].
      destruct (IH l2 r2) as (l3 & r3 & H3 & T3 & El3 & Er3); [done|by apply talking_sym|done|lia|lia|]. exists l3, r3. split_and!; [|done| |].
      * cbn [converses]. erewrite mthen_ok; [exact H3|]. unfold says. cbn [fst snd].
        erewrite mthen_ok; [by apply to_left_pass|]. unfold on_right. cbn [fst snd]. by rewrite C.
      * by rewrite El3, El, <- app_assoc.
      * by rewrite Er3, Er.
Qed.

(** C5: two nodes get a secure session over TCP. Take any two nodes with room for a
    connection, the second not yet knowing the address the first calls from. When
    the first is told to connect, the second accepts, and what each writes reaches
    the other, in whatever pieces the network cuts it, both loops keep running and
    end in sessions that open what the other seals, in both directions, each
    holding the other's static key; no byte is left half decoded. *)
Theorem session_over_tcp (now : Z) (cut : bytes → list bytes) (ea eb : Env) (a b : Node.t) (A B : SocketAddr.t) :
  (∀ w, concat (cut w) = w) → Identity.wf (identity a) → Identity.wf (identity b) → stream ea = Ok tt →
  room a → room b → peer_states b !! A = None →
  ∃ l r, connects now cut ea eb A B (start a, start b) = ((l, r), Ok tt) ∧
    linked (node l) (node r) A B ∧ linked (node r) (node l) B A ∧
    secure_with (node l) B (Identity.x25519_public_key (identity b)) ∧
    secure_with (node r) A (Identity.x25519_public_key (identity a)) ∧
    codec l = (FrameCodec.Header, []) ∧ codec r = (FrameCodec.Header, []).
Proof.
  intros Hcut Wa Wb Hst Ra Rb Hb. destruct (connects_secured now cut ea eb a b A B Hcut Wa Wb Hst Ra Rb Hb) as (l & r & Hc & S).
  exists l, r. destruct S as [(gs & [(c & d & _ & _ & [Hr _] & [Hl _] & _) _ _] & _) K1 K2 (x & k & Hk & _ & Hs) (y & k' & Hk' & _ & Hs') _ _].
  split_and!; [done..| | |done|done].
  - exists k. rewrite Hk. by split; [apply lookup_insert_eq|].
  - exists k'. rewrite Hk'. by split; [apply lookup_insert_eq|].
Qed.

(** C6: a conversation arrives. After the handshake above, whatever messages the two
    sides send each other in turn (any number up to the nonces of a session, any
    UTF-8 text that fits a frame), each interface is told of the connection and then
    of exactly the messages of the other side, in order, however the streams are
    cut; and neither loop stops. *)
Theorem conversation_over_tcp (now : Z) (cut : bytes → list bytes) (ea eb : Env) (a b : Node.t) (A B : SocketAddr.t)
    (rounds : list (bool * list bytes)) :
  (∀ w, concat (cut w) = w) → Identity.wf (identity a) → Identity.wf (identity b) → stream ea = Ok tt →
  room a → room b → peer_states b !! A = None → speakable rounds → spoken rounds ≤ SecureSession.MAX_NONCE →
  ∃ l r, (connects now cut ea eb A B ;? converses now cut ea eb A B rounds) (start a, start b) = ((l, r), Ok tt) ∧
    api_events (node l) = api_events a ++ ApiEvent.PeerConnected B :: heard true B rounds ∧
    api_events (node r) = api_events b ++ ApiEvent.PeerConnected A :: heard false A rounds.
Proof.
  intros Hcut Wa Wb Hst Ra Rb Hb Hsp Hn. destruct (connects_secured now cut ea eb a b A B Hcut Wa Wb Hst Ra Rb Hb) as (l0 & r0 & Hc & S).
  destruct (secured_nonces _ _ _ _ _ _ S) as [N1 N2].
  destruct (conversation now cut ea eb A B rounds l0 r0 Hcut (secured_talking _ _ _ _ _ _ S) Hsp) as (l & r & H & _ & El & Er); [lia|lia|].
  exists l, r. split_and!; [by erewrite mthen_ok| |].
  - destruct S as [_ _ _ (x & k & Hk & _) _ _ _]. rewrite El, Hk. simpl. by rewrite <- app_assoc.
  - destruct S as [_ _ _ _ (x & k & Hk & _) _ _]. rewrite Er, Hk. simpl. by rewrite <- app_assoc.
Qed.
End Setup.
End EndToEnd.
