(* ===== verification/FileNodes.v ===== *)
(** A file sent from one node to another over TCP, from the command of the
    sender's interface to the receiver's disk: the frames of the transfer managers
    pass through the sessions, the writer and reader tasks and the codec. *)
From S2P Require Import Prelude Bytes CryptoTypes WireTypes FrameCodec Replay Session Wire TransferMsg DhtMsg.
From S2P Require Import PeerId Identity Noise Float64 PeerInfo Routing Transfer Connection Transport Node NodeLaws Network EndToEnd.

Local Open Scope Z_scope.
Local Open Scope method_scope.

Module FileNodes.
Import Node SessionPair NodeLaws Queues Net NetLaws EndToEnd TransferLaws.

(** ** The scenario *)
Section Scenario.
Context `{SH : !Sha256, XX : !X25519, AE : !Aead, LG : !Log2, HX : !HexCrate, CRC : !Crc32c}.

(** The left side is told to send a file; the offer, the answers to it and the
    chunks travel, each time all that waits. *)
Definition sends_file (now : Z) (cut : bytes → list bytes) (el er : Env) (B : SocketAddr.t) (path : bytes)
    : method (side * side) Halt unit :=
  on_left (commanded el [ApiCommand.SendFile B path]) ;?
  on_left (relays el) ;? to_right now cut er ;?
  on_right (relays er) ;? to_left now cut el ;?
  on_left (relays el) ;? to_right now cut er.

(** What the receiver sends back. *)
Definition acknowledges (now : Z) (cut : bytes → list bytes) (el er : Env) : method (side * side) Halt unit :=
  on_right (relays er) ;? to_left now cut el.
End Scenario.

(** ** Payloads through a session *)

(** The payloads [ps] as the session opens the frames [fs]. *)
Inductive opened `{AE : !Aead} : SecureSession.t → list Frame.t → list (MessageType.t * bytes) → SecureSession.t → Prop :=
| opened_nil s : opened s [] [] s
| opened_cons s s1 s' f fs p ps :
    FrameHeader.msg_type (Frame.header f) = p.1 → Flags.is_encrypted (FrameHeader.flags (Frame.header f)) = true →
    SecureSession.decrypt s (FrameHeader.request_id (Frame.header f)) (Frame.payload f) = (s1, Ok p.2) →
    opened s1 fs ps s' → opened s (f :: fs) (p :: ps) s'.

(** Payloads the loop hands on: of a type that is not the transport's or the
    handshake's, in a frame the codec encodes. *)
Record portable (p : MessageType.t * bytes) : Prop := {
  pt_handshake : p.1 ≠ MessageType.Handshake;
  pt_forwarded : TcpLaws.forwarded (TransferManager.frame_of p.1 []) = true;
  pt_fits : fits p.2
}.

Lemma fits_aead m : fits m → blen m ≤ AEAD_MAX.
Proof. intros [_ H]. unfold TAG_SIZE, MAX_PAYLOAD_SIZE, AEAD_MAX in *. lia. Qed.

Section Relay.
Context `{SH : !Sha256, XX : !X25519, AE : !Aead, AOK : !AeadOk, LG : !Log2, HX : !HexCrate, CRC : !Crc32c}.

Definition relayed_frame (e : Env) (p : SocketAddr.t * Frame.t) : Env * input := (e, TransferFrame p.1 p.2).

Lemma relays_sealed e B ps : ∀ a sa sb l,
  peer_states a !! B = Some (Secure sa) → half sa sb → outbox B a = Some l →
  blen ps ≤ SecureSession.MAX_NONCE + 1 - SecureSession.send_nonce sa → Forall portable ps →
  ∃ fs a' sa' sb',
    run (map (relayed_frame e) (map (outgoing B) ps)) a = (a', Ok tt) ∧
    outbox B a' = Some (l ++ fs) ∧ peer_states a' !! B = Some (Secure sa') ∧
    opened sb fs ps sb' ∧ half sa' sb' ∧ (half sb sa → half sb' sa') ∧
    SecureSession.send_nonce sa' = SecureSession.send_nonce sa + blen ps ∧
    SecureSession.send_nonce sb' = SecureSession.send_nonce sb ∧
    transfer_manager a' = transfer_manager a ∧ api_events a' = api_events a ∧
    Forall FrameCodec.frame_wf fs ∧ Forall (λ f, TcpLaws.forwarded f = true) fs.
Proof.
  induction ps as [|[ty m] ps IH]; intros a sa sb l Ha Hh Ho Hn Hps.
  - exists [], a, sa, sb. rewrite app_nil_r. unfold blen. simpl. rewrite Z.add_0_r. split_and!; try done. constructor.
  - apply Forall_cons in Hps as [[Hty Hfw Hfit] Hps]. pose proof (fits_aead _ Hfit). simpl in *.
    assert (blen ((ty, m) :: ps) = 1 + blen ps) as Hl by (unfold blen; simpl; lia). pose proof (blen_nonneg ps).
    destruct (send_secure_sealed e a B sa sb ty m l Ha Hh Ho ltac:(lia) ltac:(done))
      as (c & sb1 & tcp & Hs & Hout & Hd & Hh' & Hbk & Hn' & Hnb & Hwf).
    set (sa1 := (SecureSession.fetch_add_send_nonce sa).1) in *. set (a1 := set_tcp tcp _) in *.
    destruct (IH a1 sa1 sb1 _ (lookup_insert_eq _ _ _) Hh' Hout ltac:(lia) Hps)
      as (fs & a' & sa' & sb' & Hr & Ho' & Ha' & Hop & Hh2 & Hbk2 & Hn2 & Hnb2 & Htm & Hev & Hw & Hf).
    eexists (_ :: fs), a', sa', sb'.
    split_and!; [|by rewrite Ho', <- app_assoc|done| |done|by auto|lia|lia|by rewrite Htm|by rewrite Hev| |].
    + cbn [map run relayed_frame outgoing fst snd]. unfold mthen. cbn [turn]. unfold on_transfer_frame. simpl. by rewrite Hs.
    + by econstructor.
    + constructor; [|done]. by apply Hwf; apply Hfit.
    + by constructor.
Qed.

(** ** What the other loop makes of the payloads *)
Definition publishes (evs : list ApiEvent.t) (s : t) : t :=
  Node.mk (identity s) (tcp_addr s) (tcp_transport s) (peer_states s) (routing_table s) (transfer_manager s)
     (pending_dht_connects s) (commands s) (api_events s ++ evs) (tx_bytes s).

(** The loop hands the payload to the transfer manager and tells its interface [evs]. *)
Definition takes (e : Env) (A : SocketAddr.t) (m : TransferManager.t) (p : MessageType.t * bytes)
    (evs : list ApiEvent.t) (m' : TransferManager.t) : Prop :=
  ∀ s, transfer_manager s = m → dispatch e A p.1 p.2 s = (set_transfers m' (publishes evs s), Ok tt).

Inductive takes_all (e : Env) (A : SocketAddr.t)
    : TransferManager.t → list (MessageType.t * bytes) → list ApiEvent.t → TransferManager.t → Prop :=
| takes_nil m : takes_all e A m [] [] m
| takes_cons m m1 m' p ps evs evs' :
    takes e A m p evs m1 → takes_all e A m1 ps evs' m' → takes_all e A m (p :: ps) (evs ++ evs') m'.

Lemma run_arrives e A f fs s s' :
  on_frame e A f s = (s', Ok tt) → run (map (arrives e A) (f :: fs)) s = run (map (arrives e A) fs) s'.
Proof. intros H. cbn [map run]. unfold mthen at 1, arrives at 1. cbn [turn on_event]. by rewrite on_frame_sealed, H. Qed.

Lemma run_takes e A fs ps sb sb' : opened sb fs ps sb' → ∀ b m evs m',
  peer_states b !! A = Some (Secure sb) → Forall portable ps → transfer_manager b = m → takes_all e A m ps evs m' →
  ∃ b', run (map (arrives e A) fs) b = (b', Ok tt) ∧ peer_states b' !! A = Some (Secure sb') ∧
    transfer_manager b' = m' ∧ api_events b' = api_events b ++ evs ∧ tcp_transport b' = tcp_transport b.
Proof.
  induction 1 as [|s s1 s' f fs p ps Hty Hfl Hd Hop IH]; intros b m evs m' Hb Hps Hm Ht.
  - inversion Ht; subst. exists b. by rewrite app_nil_r.
  - inversion Ht as [|? m1 ? ? ? evs1 evs2 Ht1 Ht2]; subst. apply Forall_cons in Hps as [[Hhs _ _] Hps].
    pose proof (on_frame_opened e A f b s s1 p.2 ltac:(by rewrite Hty) Hfl Hb Hd) as Hf.
    rewrite Hty, (Ht1 (set_peer A (Secure s1) b) eq_refl) in Hf. set (b1 := set_transfers m1 _) in *.
    destruct (IH b1 m1 evs2 m' (lookup_insert_eq _ _ _) Hps eq_refl Ht2) as (b' & Hr & Hp & Htm & Hev & Htcp).
    exists b'. split_and!; [by rewrite (run_arrives _ _ _ _ _ _ Hf)|done|done|by rewrite Hev; simpl; rewrite <- app_assoc|by rewrite Htcp].
Qed.

(** A payload whose handler blocks stops the loop. *)
Lemma run_blocks e A fs ps sb sb' p b :
  opened sb fs (p :: ps) sb' → peer_states b !! A = Some (Secure sb) → p.1 ≠ MessageType.Handshake →
  (∀ s, transfer_manager s = transfer_manager b → (dispatch e A p.1 p.2 s).2 = Err Blocked) →
  (run (map (arrives e A) fs) b).2 = Err Blocked.
Proof.
  intros Hop Hb Hty Hbl. inversion Hop as [|? s1 ? f fs' ? ? Hf Hfl Hd _]; subst. cbn [map run].
  unfold mthen, arrives. cbn [turn on_event]. rewrite on_frame_sealed.
  rewrite (on_frame_opened e A f b sb s1 p.2), Hf by (done || by rewrite Hf).
  specialize (Hbl (set_peer A (Secure s1) b) eq_refl). destruct (dispatch _ _ _ _ _) as [s x]. simpl in Hbl. by subst.
Qed.
End Relay.

(** ** Through the connection *)
Section Through.
Context `{SH : !Sha256, SOK : !Sha256Ok, XX : !X25519, XOK : !X25519Ok, ED : !Ed25519, AE : !Aead, AOK : !AeadOk,
          LG : !Log2, HX : !HexCrate, CRC : !Crc32c} {CRCOK : Crc32cOk}.

(** [l1] is [l] with the payloads [ps] sealed and queued as [fs]; the session [sb]
    of the other side opens them and becomes [sb']. *)
Record sealed_out (l l1 r : side) (A B : SocketAddr.t) (ps : list (MessageType.t * bytes)) (fs : list Frame.t)
    (sb sb' : SecureSession.t) : Prop := {
  so_queued : ∃ l0, outbox B (node l) = Some l0 ∧ outbox B (node l1) = Some (l0 ++ fs);
  so_same : conn l1 = conn l ∧ codec l1 = codec l ∧ consumed l1 = consumed l ∧ seen l1 = seen l;
  so_extends : extends (tcp l) (tcp l1);
  so_wf : Forall FrameCodec.frame_wf fs;
  so_forwarded : Forall (λ f, TcpLaws.forwarded f = true) fs;
  so_session : peer_states (node r) !! A = Some (Secure sb);
  so_opened : opened sb fs ps sb';
  so_linked : ∀ n, peer_states n !! A = Some (Secure sb') →
    linked (node l1) n A B ∧ linked n (node l1) B A ∧ nonces_left n A = nonces_left (node r) A;
  so_nonces : nonces_left (node l1) B = nonces_left (node l) B - blen ps;
  so_transfers : transfer_manager (node l1) = transfer_manager (node l);
  so_events : api_events (node l1) = api_events (node l);
  so_relayed : relayed l1 = length (TransferManager.sent (transfer_manager (node l)))
}.

(** The frames of the transfer manager that wait, all for [B]. *)
Definition pending (l : side) (B : SocketAddr.t) (ps : list (MessageType.t * bytes)) : Prop :=
  drop (relayed l) (TransferManager.sent (transfer_manager (node l))) = map (outgoing B) ps.

Lemma relays_out e l r A B ps :
  talking l r A B → pending l B ps → blen ps ≤ nonces_left (node l) B → Forall portable ps →
  ∃ l1 fs sb sb', relays e l = (l1, Ok tt) ∧ sealed_out l l1 r A B ps fs sb sb'.
Proof.
  intros T Hp Hn Hps. destruct (talking_outbox _ _ _ _ T) as (l0 & Ho).
  destruct (ta_linked _ _ _ _ T) as (sa & sb & Ha & Hb & Hh). destruct (ta_back _ _ _ _ T) as (sb2 & sa2 & Hb2 & Ha2 & Hh2).
  rewrite Ha in Ha2. rewrite Hb in Hb2. injection Ha2 as <-. injection Hb2 as <-.
  unfold nonces_left in Hn. rewrite Ha in Hn.
  destruct (relays_sealed e B ps (node l) sa sb l0 Ha Hh Ho Hn Hps)
    as (fs & a' & sa' & sb' & Hr & Ho' & Ha' & Hop & Hh' & Hbk & Hn' & Hnb & Htm & Hev & Hw & Hf).
  pose proof (inputs_queue (relayed_frame e) _ _ _ ltac:(done) Hr) as Hx.
  eexists _, fs, sb, sb'. split; [unfold relays; rewrite Hp; unfold relayed_frame in Hr; rewrite Hr; done|].
  split; simpl; try done; [by exists l0| |].
  - intros n Hs. split_and!; [by exists sa', sb'|by exists sb', sa'; auto|]. unfold nonces_left. by rewrite Hs, Hb, Hnb.
  - unfold nonces_left. rewrite Ha', Ha, Hn'. lia.
Qed.

Lemma relay now cut e e' l r A B ps evs m' :
  (∀ w, concat (cut w) = w) → talking l r A B → pending l B ps → blen ps ≤ nonces_left (node l) B → Forall portable ps →
  takes_all e' A (transfer_manager (node r)) ps evs m' →
  ∃ l1 l' r', relays e l = (l1, Ok tt) ∧ pass now cut e' l1 r = (l', r', Ok tt) ∧ talking l' r' A B ∧
    transfer_manager (node l') = transfer_manager (node l) ∧ transfer_manager (node r') = m' ∧
    api_events (node l') = api_events (node l) ∧ api_events (node r') = api_events (node r) ++ evs ∧
    nonces_left (node l') B = nonces_left (node l) B - blen ps ∧ nonces_left (node r') A = nonces_left (node r) A ∧
    relayed l' = length (TransferManager.sent (transfer_manager (node l))) ∧ relayed r' = relayed r.
Proof.
  intros Hcut T Hp Hn Hps Ht. destruct (relays_out e l r A B ps T Hp Hn Hps) as (l1 & fs & sb & sb' & Hr & S).
  destruct (so_queued _ _ _ _ _ _ _ _ _ S) as (l0 & Ho & Ho'). destruct (so_same _ _ _ _ _ _ _ _ _ S) as (E1 & E2 & E3 & E4).
  destruct (carried now cut e' l l1 r A B fs l0 (λ n, transfer_manager n = m' ∧ api_events n = api_events (node r) ++ evs ∧
      nonces_left n A = nonces_left (node r) A) Hcut T E1 E2 E3 E4 (so_extends _ _ _ _ _ _ _ _ _ S) Ho Ho'
      (so_wf _ _ _ _ _ _ _ _ _ S) (so_forwarded _ _ _ _ _ _ _ _ _ S))
    as (l' & r' & x & P & T' & (Htm & Hev & Hnr) & Nl & Rl & Rr).
  - intros y k Hk. destruct (run_takes e' A fs ps sb sb' (so_opened _ _ _ _ _ _ _ _ _ S) (set_tcp y (node r)) _ evs m'
      (so_session _ _ _ _ _ _ _ _ _ S) Hps eq_refl Ht) as (b' & Hb & Hpb & Htm & Hev & Htcp).
    destruct (so_linked _ _ _ _ _ _ _ _ _ S b' Hpb) as (K1 & K2 & K3).
    exists b', []. rewrite app_nil_r. split_and!; try done. by rewrite (outbox_tcp A b' (set_tcp y (node r)) Htcp).
  - exists l1, l', r'. destruct S. rewrite Nl. split_and!; try done; congruence.
Qed.

Lemma relay_blocks now cut e e' l r A B p ps :
  (∀ w, concat (cut w) = w) → talking l r A B → pending l B (p :: ps) → blen (p :: ps) ≤ nonces_left (node l) B →
  Forall portable (p :: ps) →
  (∀ s, transfer_manager s = transfer_manager (node r) → (dispatch e' A p.1 p.2 s).2 = Err Blocked) →
  ∃ l1 l' r', relays e l = (l1, Ok tt) ∧ pass now cut e' l1 r = (l', r', Err Blocked).
Proof.
  intros Hcut T Hp Hn Hps Hbl. destruct (relays_out e l r A B _ T Hp Hn Hps) as (l1 & fs & sb & sb' & Hr & S).
  destruct T as [(fs0 & gs0 & J & Hsil) _ _]. apply Forall_app in Hsil as [Hs1 Hs2].
  destruct S as [(l0 & Ho & Ho') (E1 & E2 & E3 & E4) Hx Hwf Hfw Hss Hop _ _ _ _ _].
  pose proof (joined_queued l l1 r A B fs0 gs0 fs l0 J E1 E2 E3 E4 Hx Ho Ho' Hwf) as J1.
  destruct (pass_stops now cut e' l1 r A B (fs0 ++ fs) gs0 Blocked Hcut J1) as (l' & r' & P); [|by exists l1, l', r'].
  intros y. rewrite List.filter_app, (filter_none _ fs0), (filter_all _ fs) by done.
  apply Forall_cons in Hps as [[Hhs _ _] _]. by apply (run_blocks e' A fs ps sb sb' p (set_tcp y (node r))).
Qed.

(** ** The messages of a transfer *)
Ltac fits_tac := unfold fits; split;
  [repeat first [apply be_bytes_wf | apply le_bytes_wf | assumption | apply Forall_app; split]
  |rewrite ?blen_app, ?blen_be_bytes; unfold TAG_SIZE, MAX_PAYLOAD_SIZE, TransferId.as_bytes, TRANSFER_ID_LEN, FILE_HASH_LEN, MAX_FILE_NAME_LEN in *; try lia].

Lemma offer_fits m : FileOffer.wf m → fits (FileOffer.encode m).
Proof. intros [[? ?] (? & _ & ?) _ _ _ [? ?]]. unfold FileOffer.encode. fits_tac. Qed.

Lemma accept_fits m : FileAccept.wf m → blen (FileAccept.missing_bitmap m) ≤ 2 ^ 20 → fits (FileAccept.encode m).
Proof. intros [[? ?] [? _] _] ?. unfold FileAccept.encode. fits_tac. Qed.

Lemma chunk_fits m : FileChunk.wf m → blen (FileChunk.data m) ≤ 1000 → fits (FileChunk.encode m).
Proof. intros [[? ?] _ [? ?] ?] ?. unfold FileChunk.encode. fits_tac. Qed.

Lemma ack_fits m : FileChunkAck.wf m → fits (FileChunkAck.encode m).
Proof. intros [[? ?] _]. unfold FileChunkAck.encode. fits_tac. Qed.

Lemma complete_fits m : FileComplete.wf m → fits (FileComplete.encode m).
Proof. intros [[? ?] [? ?]]. unfold FileComplete.encode. fits_tac. Qed.

Lemma blen_le_bytes n z : blen (le_bytes n z) = Z.of_nat n.
Proof. unfold blen. by rewrite length_le_bytes. Qed.

Lemma credit_fits id n : TransferId.wf id → fits (TransferManager.credit_payload id n).
Proof. intros [? ?]. unfold TransferManager.credit_payload. fits_tac. rewrite blen_le_bytes. lia. Qed.

(** ** What the loops make of them *)
Lemma offer_decodes m : FileOffer.wf m → FileOffer.decode (FileOffer.encode m) = Ok m.
Proof. exact (@wire_roundtrip _ _ FileOffer_wire FileOffer_wire_ok m). Qed.
Lemma accept_decodes m : FileAccept.wf m → FileAccept.decode (FileAccept.encode m) = Ok m.
Proof. exact (@wire_roundtrip _ _ FileAccept_wire FileAccept_wire_ok m). Qed.
Lemma chunk_decodes m : FileChunk.wf m → FileChunk.decode (FileChunk.encode m) = Ok m.
Proof. exact (@wire_roundtrip _ _ FileChunk_wire FileChunk_wire_ok m). Qed.
Lemma ack_decodes m : FileChunkAck.wf m → FileChunkAck.decode (FileChunkAck.encode m) = Ok m.
Proof. exact (@wire_roundtrip _ _ FileChunkAck_wire FileChunkAck_wire_ok m). Qed.

Lemma takes_returns {T} e A m p (h : TransferManager.t → TransferManager.t * outcome T) m' r :
  (∀ s, dispatch e A p.1 p.2 s = on_transfers h s) → h m = (m', Returns r) → r ≠ Panic → takes e A m p [] m'.
Proof.
  intros Hd Hh Hr s <-. rewrite Hd. unfold on_transfers. rewrite Hh. unfold publishes. rewrite app_nil_r. by destruct r, s.
Qed.

Lemma takes_offer e A m offer m' :
  prepared e = Prepared → FileOffer.wf offer → TransferManager.handle_offer Prepared A offer m = (m', Returns (Ok tt)) →
  takes e A m (MessageType.FileOffer, FileOffer.encode offer)
    [ApiEvent.FileOfferReceived A (FileOffer.file_name offer) (FileOffer.file_size offer)] m'.
Proof.
  intros Hp Hwf Hh s <-. cbn [dispatch fst snd]. unfold if_ok. rewrite (offer_decodes offer Hwf).
  unfold mthen, mset, on_transfers. simpl transfer_manager. by rewrite Hp, Hh.
Qed.

Lemma takes_accept e A m accept m' :
  FileAccept.wf accept → TransferManager.handle_accept accept m = (m', Returns (Ok tt)) →
  takes e A m (MessageType.FileAccept, FileAccept.encode accept) [] m'.
Proof.
  intros Hwf Hh. apply (takes_returns _ _ _ _ (TransferManager.handle_accept accept) m' (Ok tt)); [|done|done].
  intros s. cbn [dispatch fst snd]. unfold if_ok. by rewrite (accept_decodes accept Hwf).
Qed.

Lemma takes_credit e A m id n m' :
  TransferId.wf id → is_u32 n → TransferManager.handle_credit_update id n m = (m', Returns (Ok tt)) →
  takes e A m (MessageType.CreditUpdate, TransferManager.credit_payload id n) [] m'.
Proof.
  intros [Hid _] Hn Hh. unfold TRANSFER_ID_LEN in Hid.
  apply (takes_returns _ _ _ _ (TransferManager.handle_credit_update id n) m' (Ok tt)); [|done|done].
  intros s. cbn [dispatch fst snd]. unfold on_credit_update, TransferManager.credit_payload, TransferId.as_bytes.
  set (cred := le_bytes 4 n). assert (blen cred = 4) as Hl by apply blen_le_bytes.
  assert (of_le cred = n) as Hof by (by apply of_le_le_bytes). clearbody cred.
  rewrite blen_app, Hid, Hl. change (20 <=? 16 + 4) with true. cbv iota.
  rewrite !slice_in by (rewrite ?blen_app; lia).
  unfold mthen, mtry. unfold blen in Hid. change (drop (Z.to_nat 0) ?x) with x. rewrite take_app_length', drop_app_length' by lia.
  rewrite take_ge by (unfold blen in Hl; lia). by rewrite Hof.
Qed.

Lemma takes_chunks e A cs : ∀ m, Forall FileChunk.wf cs → all_return cs m →
  takes_all e A m (map (λ c, (MessageType.FileChunk, FileChunk.encode c)) cs) [] (handle_chunks cs m).
Proof.
  induction cs as [|c cs IH]; intros m Hcs Hr; [constructor|]. apply Forall_cons in Hcs as [Hc Hcs]. destruct Hr as [Hr Hrs].
  destruct (TransferManager.handle_chunk c m) as [m1 o] eqn:Hh. cbn [fst snd] in Hr, Hrs. subst o.
  unfold handle_chunks. cbn [map fold_left]. rewrite Hh. change (@nil ApiEvent.t) with (@nil ApiEvent.t ++ []).
  econstructor; [|by apply IH]. eapply (takes_returns _ _ _ _ (TransferManager.handle_chunk c)); [|done|done].
  intros s. cbn [dispatch fst snd]. unfold if_ok. by rewrite (chunk_decodes c Hc).
Qed.

Lemma blocks_ack e A id i st m s0 :
  FileChunkAck.wf (FileChunkAck.mk id i st) → TransferManager.active_transfers m !! id = Some (Sending s0) →
  ∀ s, transfer_manager s = m →
    (dispatch e A MessageType.FileChunkAck (FileChunkAck.encode (FileChunkAck.mk id i st)) s).2 = Err Blocked.
Proof.
  intros Hwf Hs s Hm. cbn [dispatch]. unfold if_ok. rewrite ack_decodes by done. unfold on_transfers. rewrite Hm.
  pose proof (ack_blocks m (FileChunkAck.mk id i st) s0 Hs) as Hb. destruct (TransferManager.handle_chunk_ack _ m). cbn [snd] in Hb. by subst.
Qed.

(** ** A file, up to the first grant of credits *)
Section Sent.
Context (id path name f : bytes).
Context (Hid : TransferId.wf id) (Hname : Path.file_name path = Some name) (Hnw : bytes_wf name)
  (Hnu : utf8_valid name = true) (Hnl : blen name ≤ 255) (Hfw : bytes_wf f) (Hfl : blen f < 2 ^ 32).

Abbreviation cs := 1000 (only parsing).
Abbreviation n := (nchunks cs f) (only parsing).
Abbreviation granted := (Z.min 50 (nchunks cs f)) (only parsing).

Lemma small_addressable : addressable cs f.
Proof. split; lia. Qed.

(** Fewer than 5 million chunks, and up to 50 exactly for up to 50000 bytes. *)
Lemma small_chunks : 0 ≤ n < 5000000 ∧ (n ≤ 50 ↔ blen f ≤ 50000) ∧ (f ≠ [] ↔ 0 < n).
Proof.
  destruct (nchunks_spec cs f small_addressable) as [H H0].
  assert (f ≠ [] ↔ 0 < blen f) as Hne by (unfold blen; destruct f; simpl; split; (done || lia)).
  rewrite Hne. lia.
Qed.

Lemma accept_wf : FileAccept.wf (FileAccept.new id (TransferManager.all_missing n)).
Proof.
  pose proof small_chunks. pose proof (bitmap_len_bounds n ltac:(lia)).
  split; simpl; [done| |intros H2%negb_false_iff; by apply bool_decide_eq_true in H2].
  unfold TransferManager.all_missing, blen. rewrite length_replicate. split; [by apply Forall_replicate|split; lia].
Qed.

Definition offered : list (MessageType.t * bytes) := [(MessageType.FileOffer, FileOffer.encode (offer_for id name cs f))].
Definition accepted : list (MessageType.t * bytes) :=
  [(MessageType.FileAccept, FileAccept.encode (FileAccept.new id (TransferManager.all_missing n)));
   (MessageType.CreditUpdate, TransferManager.credit_payload id 50)].
Definition chunked : list (MessageType.t * bytes) :=
  map (λ c, (MessageType.FileChunk, FileChunk.encode c)) (map (file_chunk id cs f) (chunk_range 0 granted)).
Definition acknowledged : list (MessageType.t * bytes) := all_replies id n (chunk_range 0 granted).

Lemma offered_portable : Forall portable offered.
Proof. apply Forall_singleton. split; [done|done|]. apply offer_fits, sent_offer_wf; (done || apply small_addressable). Qed.

Lemma accepted_portable : Forall portable accepted.
Proof.
  pose proof small_chunks. pose proof (bitmap_len_bounds n ltac:(lia)).
  constructor; [|constructor; [|constructor]]; split; try done; [|by apply credit_fits].
  apply accept_fits; [apply accept_wf|]. simpl. unfold TransferManager.all_missing, blen. rewrite length_replicate. lia.
Qed.

Lemma chunks_wf : Forall FileChunk.wf (map (file_chunk id cs f) (chunk_range 0 granted)).
Proof.
  apply Forall_map, Forall_forall. intros i Hi%chunk_range_elem. apply file_chunk_wf; [done|apply small_addressable|done|lia].
Qed.

Lemma chunked_portable : Forall portable chunked.
Proof.
  unfold chunked. apply Forall_map. eapply Forall_impl; [|intros c Hc; exact Hc].
  apply Forall_map, Forall_forall. intros i Hi%chunk_range_elem. split; [done|done|]. apply chunk_fits.
  - apply file_chunk_wf; [done|apply small_addressable|done|lia].
  - simpl. unfold block, blen. rewrite length_take. lia.
Qed.

Lemma replies_portable i last : is_u32 i → Forall portable (replies id i last).
Proof.
  intros Hi. assert (fits (FileComplete.encode (FileComplete.mk id (replicate 32 0)))) as Hc.
  { apply complete_fits. split; [done|split; [done|by apply Forall_replicate]]. }
  unfold replies. apply Forall_app. split; [|destruct last; [apply Forall_singleton; split; [done|done|exact Hc]|constructor]].
  constructor; [|apply Forall_singleton]; (split; [done|done|]); [by apply ack_fits; split|by apply credit_fits].
Qed.

Lemma acknowledged_portable : Forall portable acknowledged.
Proof.
  unfold acknowledged. generalize n at 1. pose proof small_chunks as Hs.
  assert (Forall is_u32 (chunk_range 0 granted)) as H by (apply Forall_forall; intros i Hi%chunk_range_elem; split; lia).
  induction H as [|i l Hi _ IH]; intros k; [constructor|]. cbn [all_replies]. apply Forall_app. split; [by apply replies_portable|apply IH].
Qed.

Lemma acknowledged_length : blen acknowledged ≤ 150.
Proof.
  pose proof small_chunks as Hs. unfold acknowledged. pose proof (length_chunk_range 0 granted ltac:(lia)) as Hl.
  assert (∀ l k, blen (all_replies id k l) ≤ 3 * Z.of_nat (length l)) as H.
  { induction l as [|i l IH]; intros k; [done|]. cbn [all_replies]. rewrite blen_app. specialize (IH (k - 1)).
    assert (∀ b, blen (replies id i b) ≤ 3) as Hr by (by intros []). specialize (Hr (bool_decide (k = 1))). simpl length. lia. }
  specialize (H (chunk_range 0 granted) n). lia.
Qed.

Definition first_ack : MessageType.t * bytes :=
  (MessageType.FileChunkAck, FileChunkAck.encode (FileChunkAck.mk id 0 ChunkAckStatus.StatusOk)).

Lemma acknowledged_head : f ≠ [] → ∃ ps, acknowledged = first_ack :: ps.
Proof. pose proof small_chunks as (_ & _ & H). intros Hf%H. unfold acknowledged. rewrite chunk_range_S by lia. by eexists. Qed.

(** A side with nothing of its transfer manager left to relay. *)
Definition idle (s : side) : Prop := relayed s = length (TransferManager.sent (transfer_manager (node s))).

Lemma pending_sent s B ps m0 :
  relayed s = length (TransferManager.sent m0) →
  TransferManager.sent (transfer_manager (node s)) = TransferManager.sent m0 ++ map (outgoing B) ps → pending s B ps.
Proof. intros Hr Hs. unfold pending. by rewrite Hr, Hs, drop_app_length. Qed.

Lemma talking_transfers m l r A B : talking l r A B → talking (set_node (set_transfers m (node l)) l) r A B.
Proof.
  intros T. destruct (talking_outbox _ _ _ _ T) as (l0 & Ho). destruct T as [(fs & gs & J & H) K1 K2]. split; [|done..].
  exists fs, gs. split; [|done]. rewrite <- (app_nil_r fs).
  apply (joined_queued l (set_node (set_transfers m (node l)) l) r A B fs gs [] l0 J); try done. by rewrite app_nil_r.
Qed.

(** The command: the offer is filed and waits to be relayed. *)
Lemma send_file_offers e l r A B :
  talking l r A B → idle l → transfer_id e = id → io_ok e = true → TransferManager.fs (transfer_manager (node l)) !! path = Some f →
  ∃ l1, commanded e [ApiCommand.SendFile B path] l = (l1, Ok tt) ∧ talking l1 r A B ∧ pending l1 B offered ∧
    TransferManager.active_transfers (transfer_manager (node l1)) !! id = Some (Sending (fresh_sender B path cs f)) ∧
    TransferManager.fs (transfer_manager (node l1)) !! path = Some f ∧
    nonces_left (node l1) B = nonces_left (node l) B.
Proof.
  intros T Hidle He Hio Hf. destruct (ta_linked _ _ _ _ T) as (sa & _ & Ha & _).
  eexists (set_node (set_transfers _ (node l)) l). split_and!; [|by apply talking_transfers| | | |done].
  - unfold commanded. cbn [map run]. unfold mthen, mdone. cbn [turn on_command]. rewrite bool_decide_eq_true_2 by (rewrite Ha; eauto).
    unfold on_transfers. rewrite Hio, He, (offer_file_ok _ _ _ _ name _ f) by (done || apply small_addressable). done.
  - by eapply pending_sent; [exact Hidle|].
  - apply lookup_insert_eq.
  - exact Hf.
Qed.

(** The receiver's loop takes the offer, the sender's the answers. *)
Lemma takes_offered e A m :
  prepared e = Prepared →
  ∃ m', takes_all e A m offered [ApiEvent.FileOfferReceived A name (blen f)] m' ∧
    receiving m' id A cs f (Path.join (TransferManager.download_dir m) name) [] ∧
    TransferManager.sent m' = TransferManager.sent m ++ map (outgoing A) accepted.
Proof.
  intros Hp. pose proof (handle_offer_receiving m A (offer_for id name cs f) id cs f eq_refl) as Ho. cbv zeta in Ho.
  destruct (TransferManager.handle_offer Prepared A _ m) as [m' o] eqn:E. destruct Ho as (-> & Hr & Hs).
  exists m'. split_and!; [|done|done]. change [ApiEvent.FileOfferReceived A name (blen f)] with ([ApiEvent.FileOfferReceived A name (blen f)] ++ []).
  econstructor; [|constructor]. apply takes_offer; [done| |done]. apply sent_offer_wf; (done || apply small_addressable).
Qed.

Lemma takes_accepted e A m B :
  TransferManager.active_transfers m !! id = Some (Sending (fresh_sender B path cs f)) → TransferManager.fs m !! path = Some f →
  ∃ m' s', takes_all e A m accepted [] m' ∧ TransferManager.active_transfers m' !! id = Some (Sending s') ∧
    TransferManager.sent m' = TransferManager.sent m ++ map (outgoing B) chunked.
Proof.
  intros Hs Hf. pose proof small_chunks.
  pose proof (handle_accept_fresh m id B path cs f Hs) as Hacc. set (m1 := TransferManager.set_transfer _ _ m) in Hacc.
  destruct (first_grant m1 id B path cs f (lookup_insert_eq _ _ _) Hf small_addressable) as (s' & Hcr).
  eexists (TransferManager.mk (<[id := Sending s']> _) _ _ _), s'. split_and!; [|apply lookup_insert_eq|].
  - change (@nil ApiEvent.t) with (@nil ApiEvent.t ++ ([] ++ [])).
    econstructor; [apply takes_accept; [apply accept_wf|exact Hacc]|].
    econstructor; [apply takes_credit; [done|done|exact Hcr]|constructor].
  - simpl. unfold chunked. by rewrite !map_map.
Qed.

(** What becomes of the file with the chunks of the first grant: up to 50000 bytes it
    is complete, and the transfer closed unless the file is empty; beyond that 50
    chunks of it have arrived. *)
Definition arrived (m : TransferManager.t) (path' : bytes) : Prop :=
  if decide (blen f ≤ 50000) then
    TransferManager.fs m !! path' = Some f ∧ (TransferManager.active_transfers m !! id = None ↔ f ≠ [])
  else ∃ r, TransferManager.active_transfers m !! id = Some (Receiving r) ∧
    ReceivingState.received_chunks r = 50 ∧ 50 < ReceivingState.total_chunks r.

Lemma grant_returns m A path' :
  receiving m id A cs f path' [] → all_return (map (file_chunk id cs f) (chunk_range 0 granted)) m.
Proof.
  intros Hr. destruct small_chunks as (Hn & _). pose proof (length_chunk_range 0 granted ltac:(lia)).
  apply (receive_returns _ m id A cs f path' []); [apply small_addressable|done| |simpl; lia].
  intros i Hi%chunk_range_elem. lia.
Qed.

Lemma grant_received m A path' :
  receiving m id A cs f path' [] →
  let m' := handle_chunks (map (file_chunk id cs f) (chunk_range 0 granted)) m in
  arrived m' path' ∧ TransferManager.sent m' = TransferManager.sent m ++ map (outgoing A) acknowledged.
Proof.
  intros Hr. destruct small_chunks as (Hn & Hsmall & Hne). unfold arrived, acknowledged. case_decide as Hc.
  - rewrite Z.min_r by lia. split; [by apply (receive_ends (chunk_range 0 n) m id A)|].
    destruct (decide (f = [])) as [E|E].
    + rewrite chunk_range_0 by (destruct Hne; destruct (Z.le_gt_cases n 0); [done|exfalso; tauto]). simpl. by rewrite app_nil_r.
    + by destruct (receive_all (chunk_range 0 n) m id A cs f path' small_addressable E Hr ltac:(done)) as (_ & _ & D3).
  - pose proof (length_chunk_range 0 granted ltac:(lia)) as Hl.
    destruct (receive_some (chunk_range 0 granted) m id A cs f path' [] small_addressable Hr) as [D1 D2].
    + intros i Hi%chunk_range_elem. lia.
    + simpl. lia.
    + split; [|by rewrite Z.sub_0_r in D2]. destruct (rc_state _ _ _ _ _ _ _ D1) as (r & H1 & _ & _ & H2 & H3 & _).
      exists r. rewrite app_nil_r, length_rev in H3. split_and!; [done|lia|lia].
Qed.

(** The acknowledgements stop a sender that still files the transfer. *)
Lemma acknowledgement_blocks now cut ea eb l r A B s' :
  (∀ w, concat (cut w) = w) → talking l r A B → pending r A acknowledged → 150 ≤ nonces_left (node r) A →
  TransferManager.active_transfers (transfer_manager (node l)) !! id = Some (Sending s') → f ≠ [] →
  ∃ w, acknowledges now cut ea eb (l, r) = (w, Err Blocked).
Proof.
  intros Hcut T Hp Hn Hs Hne. destruct (acknowledged_head Hne) as (ps & Hh).
  pose proof acknowledged_length. pose proof acknowledged_portable as Hpa. rewrite Hh in *.
  destruct (relay_blocks now cut eb ea r l B A first_ack ps Hcut (talking_sym _ _ _ _ T) Hp) as (r1 & r2 & l2 & C1 & C2).
  - lia.
  - done.
  - cbn [first_ack fst snd]. by eapply blocks_ack.
  - exists (l2, r2). unfold acknowledges, on_right, to_left, mthen. cbn [fst snd]. rewrite C1. cbn [fst snd]. by rewrite C2.
Qed.

(** The sender's loop after the acknowledgements: blocked, unless there were none. *)
Definition answers (now : Z) (cut : bytes → list bytes) (ea eb : Env) (w : side * side) : Prop :=
  if decide (f = []) then
    ∃ w' x, acknowledges now cut ea eb w = (w', Ok tt) ∧
      TransferManager.active_transfers (transfer_manager (node w'.1)) !! id = Some (Sending x)
  else ∃ w', acknowledges now cut ea eb w = (w', Err Blocked).

(** There is nothing to acknowledge of an empty file. *)
Lemma acknowledgement_none now cut ea eb l r A B :
  (∀ w, concat (cut w) = w) → talking l r A B → pending r A acknowledged → 150 ≤ nonces_left (node r) A → f = [] →
  ∃ w, acknowledges now cut ea eb (l, r) = (w, Ok tt) ∧
    TransferManager.active_transfers (transfer_manager (node w.1)) = TransferManager.active_transfers (transfer_manager (node l)).
Proof.
  intros Hcut T Hp Hn Hf. assert (acknowledged = []) as E.
  { unfold acknowledged. rewrite chunk_range_0; [done|]. destruct small_chunks as (_ & _ & H). destruct H.
    destruct (Z.le_gt_cases n 0); [lia|tauto]. }
  rewrite E in Hp. destruct (relay now cut eb ea r l B A [] [] (transfer_manager (node l)) Hcut (talking_sym _ _ _ _ T) Hp)
    as (r1 & r2 & l2 & C1 & C2 & _ & _ & M & _); [unfold blen; simpl; lia|constructor|constructor|].
  exists (l2, r2). unfold acknowledges, on_right, to_left, mthen. cbn [fst snd]. rewrite C1. cbn [fst snd]. rewrite C2. by rewrite M.
Qed.

Lemma file_sent now cut ea eb l r A B :
  (∀ w, concat (cut w) = w) → talking l r A B → idle l → idle r →
  200 ≤ nonces_left (node l) B → 200 ≤ nonces_left (node r) A →
  transfer_id ea = id → io_ok ea = true → prepared eb = Prepared → TransferManager.fs (transfer_manager (node l)) !! path = Some f →
  ∃ l' r', sends_file now cut ea eb B path (l, r) = ((l', r'), Ok tt) ∧
    arrived (transfer_manager (node r')) (Path.join (TransferManager.download_dir (transfer_manager (node r))) name) ∧
    api_events (node r') = api_events (node r) ++ [ApiEvent.FileOfferReceived A name (blen f)] ∧
    answers now cut ea eb (l', r').
Proof.
  intros Hcut T Il Ir Nl Nr He Hio Hp Hf. pose proof small_chunks as Hn.
  destruct (send_file_offers ea l r A B T Il He Hio Hf) as (l1 & C1 & T1 & P1 & S1 & F1 & N1).
  destruct (takes_offered eb A (transfer_manager (node r)) Hp) as (mr1 & K1 & R1 & Z1).
  destruct (relay now cut ea eb l1 r A B _ _ _ Hcut T1 P1 ltac:(unfold blen; simpl; lia) offered_portable K1)
    as (l2 & l3 & r3 & C2 & C3 & T3 & Ml3 & Mr3 & _ & Er3 & Nl3 & Nr3 & Rl3 & Rr3).
  destruct (takes_accepted ea B (transfer_manager (node l3)) B ltac:(by rewrite Ml3) ltac:(by rewrite Ml3)) as (ms3 & s' & K2 & S3 & Z3).
  destruct (relay now cut eb ea r3 l3 B A accepted [] ms3 Hcut (talking_sym _ _ _ _ T3)) as
    (r4 & r5 & l5 & C4 & C5 & T5 & Mr5 & Ml5 & Er5 & _ & Nr5 & Nl5 & Rr5 & Rl5);
    [eapply pending_sent; [by rewrite Rr3, Ir|by rewrite Mr3]|unfold blen; simpl; lia|apply accepted_portable|done|].
  apply talking_sym in T5.
  pose proof (takes_chunks eb A _ mr1 chunks_wf (grant_returns mr1 A _ R1)) as K3.
  destruct (grant_received mr1 A _ R1) as [D1 D3]. set (mr6 := handle_chunks _ mr1) in *.
  assert (blen chunked ≤ 50) as Lc. { unfold chunked, blen. rewrite !length_map, length_chunk_range; lia. }
  assert (blen offered = 1 ∧ blen accepted = 2) as [Lo La] by done.
  destruct (relay now cut ea eb l5 r5 A B chunked [] mr6 Hcut T5) as
    (l6 & l7 & r7 & C6 & C7 & T7 & Ml7 & Mr7 & _ & Er7 & Nl7 & Nr7 & Rl7 & Rr7);
    [eapply pending_sent; [by rewrite Rl5, Rl3, <- Ml3|by rewrite Ml5, Z3]|lia|apply chunked_portable|by rewrite Mr5, Mr3|].
  exists l7, r7. split_and!.
  - unfold sends_file, on_left, on_right, to_right, to_left, mthen. cbn [fst snd].
    rewrite C1. cbn [fst snd]. rewrite C2. cbn [fst snd]. rewrite C3. cbn [fst snd]. rewrite C4. cbn [fst snd]. rewrite C5.
    cbn [fst snd]. rewrite C6. cbn [fst snd]. by rewrite C7.
  - by rewrite Mr7.
  - by rewrite Er7, Er5, Er3, !app_nil_r.
  - assert (pending r7 A acknowledged) as P7 by (eapply pending_sent; [by rewrite Rr7, Rr5|]; by rewrite Mr7, D3, Mr3).
    assert (TransferManager.active_transfers (transfer_manager (node l7)) !! id = Some (Sending s')) as S7 by by rewrite Ml7, Ml5.
    unfold answers. case_decide as Hfe; [|by eapply (acknowledgement_blocks _ _ _ _ _ _ A B s' Hcut T7); [|lia|..]].
    destruct (acknowledgement_none now cut ea eb l7 r7 A B Hcut T7 P7 ltac:(lia) Hfe) as (w & Hw & E).
    exists w, s'. by rewrite E.
Qed.
End Sent.

(** C7: a file crosses, and its acknowledgement stops the sender. Take two nodes as
    in [session_over_tcp]; once they are connected the first is told to send a file
    below 4 GiB, with a UTF-8 name of at most 255 bytes. When each loop relays what
    its transfer manager sends before it reads on, and what is written reaches the
    other side, in whatever pieces, the second node's interface is told of the
    offer; a file of at most 50000 bytes then is on its disk under that name in the
    download directory, and the transfer is closed, unless the file is empty: then
    it stays open on both sides, as there is nothing to acknowledge. Of a larger file
    50 chunks have arrived and the transfer is open. When the first node then reads
    the acknowledgements of a file that is not empty, its loop blocks for good,
    holding the lock it asks for, so that no larger file is ever completed. *)
Theorem file_over_tcp (now : Z) (cut : bytes → list bytes) (ea eb : Env) (a b : Node.t) (A B : SocketAddr.t) (path name f : bytes) :
  (∀ w, concat (cut w) = w) → Identity.wf (identity a) → Identity.wf (identity b) → stream ea = Ok tt →
  room a → room b → peer_states b !! A = None →
  TransferId.wf (transfer_id ea) → io_ok ea = true → prepared eb = Prepared →
  TransferManager.fs (transfer_manager a) !! path = Some f → Path.file_name path = Some name →
  bytes_wf name → utf8_valid name = true → blen name ≤ 255 → bytes_wf f → blen f < 2 ^ 32 →
  ∃ l r, (connects now cut ea eb A B ;? sends_file now cut ea eb B path) (start a, start b) = ((l, r), Ok tt) ∧
    api_events (node r) = api_events b ++ [ApiEvent.PeerConnected A; ApiEvent.FileOfferReceived A name (blen f)] ∧
    arrived (transfer_id ea) f (transfer_manager (node r)) (Path.join (TransferManager.download_dir (transfer_manager b)) name) ∧
    answers (transfer_id ea) f now cut ea eb (l, r).
Proof.
  intros Hcut Wa Wb Hst Ra Rb Hb Hid Hio Hp Hf Hname Hnw Hnu Hnl Hfw Hfl.
  destruct (connects_secured now cut ea eb a b A B Hcut Wa Wb Hst Ra Rb Hb) as (l0 & r0 & Hc & S).
  destruct (secured_nonces _ _ _ _ _ _ S) as [N1 N2]. pose proof (secured_talking _ _ _ _ _ _ S) as T.
  destruct S as [_ _ _ (x & k & Nl & _) (y & k' & Nr & _) [Rl Rr]].
  destruct (file_sent (transfer_id ea) path name f Hid Hname Hnw Hnu Hnl Hfw Hfl now cut ea eb l0 r0 A B Hcut T)
    as (l & r & H & Hd & Hev & Hbl); try done.
  - unfold idle. by rewrite Rl, Nl.
  - unfold idle. by rewrite Rr, Nr.
  - by rewrite N1.
  - by rewrite N2.
  - by rewrite Nl.
  - exists l, r. split_and!; [by erewrite mthen_ok| |by rewrite Nr in Hd|done].
    rewrite Hev, Nr. simpl. by rewrite <- app_assoc.
Qed.
End Through.
End FileNodes.
