(* ===== verification/NodeLookup.v ===== *)
(** Finding a peer by its identifier: a request to all secure peers, the answer of
    one that knows it, and the connection to the peer that follows; three nodes,
    over TCP. *)
From S2P Require Import Prelude Bytes CryptoTypes WireTypes FrameCodec Replay Session Wire TransferMsg DhtMsg.
From S2P Require Import PeerId Identity Noise Float64 PeerInfo Routing Transfer Connection Transport Node NodeLaws Network EndToEnd.

Local Open Scope Z_scope.
Local Open Scope method_scope.

Module NodeLookup.
Import Node NodeLaws Queues Net NetLaws EndToEnd.

(** The parts of the node a request does not touch. *)
Record asking (s s' : t) : Prop := {
  as_identity : identity s' = identity s;
  as_table : routing_table s' = routing_table s;
  as_pending : pending_dht_connects s' = pending_dht_connects s;
  as_commands : commands s' = commands s;
  as_senders : TcpTransport.peer_senders (tcp_transport s') = TcpTransport.peer_senders (tcp_transport s)
}.

#[export] Instance asking_preorder : PreOrder asking.
Proof. split; [by split|]. intros s1 s2 s3 [] []. split; congruence. Qed.

(** Every channel belongs to one peer (an invariant of the transport). *)
Definition senders_distinct (s : t) : Prop :=
  ∀ x y i, TcpTransport.peer_senders (tcp_transport s) !! x = Some i →
    TcpTransport.peer_senders (tcp_transport s) !! y = Some i → x = y.

Section Lookup.
Context `{SH : !Sha256, SOK : !Sha256Ok, XX : !X25519, XOK : !X25519Ok, ED : !Ed25519, AE : !Aead, AOK : !AeadOk,
          LG : !Log2, HX : !HexCrate, CRC : !Crc32c} {CRCOK : Crc32cOk}.

Lemma tcp_send_senders e a f s :
  TcpTransport.peer_senders (tcp_transport (tcp_send e a f s).1) = TcpTransport.peer_senders (tcp_transport s).
Proof.
  unfold tcp_send. pose proof (TcpLife.q_senders _ _ (TcpLife.send_to_quiet (now e) a f (tcp_transport s))) as H.
  by destruct (TcpTransport.send_to _ _ _ _).
Qed.

Lemma tcp_send_other e p b f s :
  p ≠ b → senders_distinct s → outbox b (tcp_send e p f s).1 = outbox b s.
Proof.
  intros Hne Hd. unfold outbox. rewrite tcp_send_senders.
  destruct (TcpTransport.peer_senders (tcp_transport s) !! b) as [i|] eqn:Hb; [|done]. simpl.
  unfold tcp_send, TcpTransport.send_to.
  destruct (TcpTransport.peer_senders (tcp_transport s) !! p) as [j|] eqn:Hp; [|done].
  destruct (TcpTransport.channel_send j f (tcp_transport s)) as [tcp|] eqn:E; [|done].
  apply TcpLaws.channel_send_frame in E as (_ & _ & _ & _ & c & _ & _ & Hm). simpl. rewrite Hm.
  rewrite lookup_insert_ne; [done|]. intros ->. apply Hne. by eapply Hd.
Qed.

Lemma send_secure_asking e a ty m s : asking s (send_secure e a ty m s).1.
Proof.
  unfold send_secure. destruct (peer_states s !! a) as [[| | |session]|]; try done.
  unfold seal_and_send. destruct (SecureSession.encrypt session m) as [session' [[n c]| |]]; [|by split..].
  pose proof (tcp_send_senders e a (encrypted ty n c) (set_peer a (Secure session') s)) as H.
  unfold tcp_send in *. destruct (TcpTransport.send_to _ _ _ _). by split.
Qed.

(** A request to another peer does not disturb the channel and the session of [b]. *)
Lemma send_secure_other e p b ty m s :
  p ≠ b → senders_distinct s →
  let s' := (send_secure e p ty m s).1 in outbox b s' = outbox b s ∧ peer_states s' !! b = peer_states s !! b.
Proof.
  intros Hne Hd. unfold send_secure. destruct (peer_states s !! p) as [[| | |session]|]; try done.
  unfold seal_and_send. destruct (SecureSession.encrypt session m) as [session' [[n c]| |]]; simpl.
  - split.
    + by rewrite tcp_send_other.
    + unfold tcp_send. destruct (TcpTransport.send_to _ _ _ _). simpl. by rewrite lookup_insert_ne.
  - by rewrite lookup_insert_ne.
  - by rewrite lookup_insert_ne.
Qed.

Definition ask (e : Env) (m : bytes) (s : t) (p : SocketAddr.t * PeerState) : t :=
  (send_secure e p.1 MessageType.FindNode m s).1.

Lemma ask_others e m b l s :
  b ∉ l.*1 → senders_distinct s →
  let s' := fold_left (ask e m) l s in
  outbox b s' = outbox b s ∧ peer_states s' !! b = peer_states s !! b ∧ asking s s'.
Proof.
  revert s. induction l as [|p l IH]; intros s Hb Hd; [done|]. rewrite fmap_cons, not_elem_of_cons in Hb.
  destruct Hb as [Hne Hb]. cbn [fold_left].
  destruct (send_secure_other e p.1 b MessageType.FindNode m s) as [H1 H2]; [done..|].
  pose proof (send_secure_asking e p.1 MessageType.FindNode m s) as Ha.
  destruct (IH (ask e m s p) Hb) as (H3 & H4 & H5).
  { intros x y i. unfold ask. rewrite (as_senders _ _ Ha). apply Hd. }
  split_and!; [by rewrite H3|by rewrite H4|]. by transitivity (ask e m s p).
Qed.

(** The request reaches a linked peer. *)
Lemma ask_all_linked e a b A B m l :
  linked a b A B → linked b a B A → outbox B a = Some l → 0 < nonces_left a B → blen m ≤ AEAD_MAX → senders_distinct a →
  ∃ f q, let a' := ask_all e m a in let b0 := set_peer A q b in
    outbox B a' = Some (l ++ [f]) ∧
    (∀ e' s, peer_states s !! A = peer_states b !! A → on_frame e' A f s = dispatch e' A MessageType.FindNode m (set_peer A q s)) ∧
    linked a' b0 A B ∧ linked b0 a' B A ∧ nonces_left b0 A = nonces_left b A ∧ asking a a' ∧
    TcpLaws.forwarded f = true ∧ (fits m → FrameCodec.frame_wf f).
Proof.
  intros Hl Hback Ho Hn Hm Hd. pose proof Hl as (sa & sb & Hsa & _).
  assert ((B, Secure sa) ∈ map_to_list (peer_states a)) as (l1 & l2 & Hs)%list_elem_of_split
    by (by apply elem_of_map_to_list).
  pose proof (NoDup_fst_map_to_list (peer_states a)) as Hnd. rewrite Hs, fmap_app, fmap_cons in Hnd.
  apply NoDup_app in Hnd as (_ & H1 & Hnd). apply NoDup_cons in Hnd as [H2 _]. simpl in H1, H2.
  assert (B ∉ l1.*1) as HB by (intros HB; destruct (H1 B HB); constructor).
  unfold ask_all. rewrite Hs. fold (ask e m). rewrite fold_left_app. cbn [fold_left].
  destruct (ask_others e m B l1 a HB Hd) as (O1 & P1 & A1). set (a1 := fold_left (ask e m) l1 a) in *.
  assert (senders_distinct a1) as Hd1 by (intros x y i; rewrite (as_senders _ _ A1); apply Hd).
  assert (linked a1 b A B ∧ linked b a1 B A ∧ nonces_left a1 B = nonces_left a B) as (L1 & L2 & L3).
  { unfold linked, nonces_left. by rewrite !P1. }
  destruct (send_secure_linked e a1 b A B MessageType.FindNode m l L1 ltac:(by rewrite O1) ltac:(by rewrite L3) Hm)
    as (f & q & a2 & Hsend & Hout & Hdis & _ & Hfw & Hbk & _ & Hnb & Hty & Hwf).
  assert (ask e m a1 (B, Secure sa) = a2) as -> by (unfold ask; simpl; by rewrite Hsend).
  assert (asking a1 a2) as A2 by (pose proof (send_secure_asking e B MessageType.FindNode m a1) as H; by rewrite Hsend in H).
  destruct (ask_others e m B l2 a2 H2) as (O3 & P3 & A3).
  { intros x y i. rewrite (as_senders _ _ A2). apply Hd1. }
  exists f, q. split_and!; [by rewrite O3|intros; by apply Hdis| | |done| | |].
  - unfold linked in *. by rewrite P3.
  - specialize (Hbk L2). unfold linked in *. by rewrite P3.
  - transitivity a1; [done|]. by transitivity a2.
  - unfold TcpLaws.forwarded. by rewrite Hty.
  - intros [H3 H4]. by apply Hwf.
Qed.

(** *** Answers *)
Lemma learn_peer_spec e id a s :
  RoutingLaws.wf (routing_table s) → PeerId.wf id →
  ∃ s', learn_peer e (id, a) s = (s', Ok tt) ∧ RoutingLaws.wf (routing_table s') ∧
    pending_dht_connects s' = pending_dht_connects s ∖ {[id]} ∧
    commands s' = commands s ++ (if bool_decide (id ∈ pending_dht_connects s) then [ApiCommand.Connect a] else []).
Proof.
  intros Hw Hid. unfold learn_peer, table_insert, mthen. unfold PeerId.from_bytes. cbn [fst snd].
  destruct (RoutingTable.insert _ _ _ _) as [rt r] eqn:E.
  destruct (RoutingLaws.insert_refines_map _ _ _ _ _ _ Hw Hid E) as (Hw' & _ & Hs).
  assert (is_panic r = false) as -> by (by inversion Hs; subst).
  unfold mset. eexists. split; [done|]. simpl. case_bool_decide as Hin; simpl; split_and!; try done.
  - set_solver.
  - by rewrite app_nil_r.
Qed.

Lemma learn_grows e ps s :
  RoutingLaws.wf (routing_table s) → Forall FindNodeResp.peer_wf ps →
  ∃ s', on_find_node_resp e ps s = (s', Ok tt) ∧ RoutingLaws.wf (routing_table s') ∧
    pending_dht_connects s' ⊆ pending_dht_connects s ∧ commands s `prefix_of` commands s'.
Proof.
  intros Hw Hps. revert s Hw. induction Hps as [|[id a] ps (Hl & Hb & _) _ IH]; intros s Hw; [by exists s|].
  destruct (learn_peer_spec e id a s Hw) as (s1 & Hs1 & Hw1 & Hp1 & Hc1).
  { split; [unfold blen in *; simpl in *; lia|done]. }
  destruct (IH s1 Hw1) as (s2 & Hs2 & Hw2 & Hp2 & Hc2).
  exists s2. cbn [on_find_node_resp]. rewrite (mthen_ok _ _ _ _ _ Hs1). split_and!; [done|done|set_solver|].
  rewrite Hc1 in Hc2. by etransitivity; [apply prefix_app_r|].
Qed.

Lemma learn_found e ps s id a :
  RoutingLaws.wf (routing_table s) → Forall FindNodeResp.peer_wf ps → (id, a) ∈ ps → NoDup ps.*1 →
  id ∈ pending_dht_connects s →
  ∃ s', on_find_node_resp e ps s = (s', Ok tt) ∧ ApiCommand.Connect a ∈ commands s' ∧ id ∉ pending_dht_connects s'.
Proof.
  intros Hw Hps Hin Hnd Hpend. revert s Hw Hpend.
  induction Hps as [|[id1 a1] ps (Hl & Hb & _) Hps IH]; intros s Hw Hpend; [by apply elem_of_nil in Hin|].
  rewrite fmap_cons in Hnd. apply NoDup_cons in Hnd as [Hn1 Hnd].
  destruct (learn_peer_spec e id1 a1 s Hw) as (s1 & Hs1 & Hw1 & Hp1 & Hc1).
  { split; [unfold blen in *; simpl in *; lia|done]. }
  cbn [on_find_node_resp]. rewrite (mthen_ok _ _ _ _ _ Hs1).
  apply elem_of_cons in Hin as [Heq|Hin].
  - injection Heq as -> ->. destruct (learn_grows e ps s1 Hw1 Hps) as (s2 & Hs2 & _ & Hp2 & [k Hk]).
    exists s2. split_and!; [done| |set_solver]. rewrite Hk, Hc1, bool_decide_eq_true_2 by done.
    apply elem_of_app. left. apply elem_of_app. right. constructor.
  - destruct (IH Hin Hnd s1 Hw1) as (s2 & Hs2 & Hc2 & Hp2); [|by exists s2].
    rewrite Hp1. apply elem_of_difference. split; [done|]. intros ->%elem_of_singleton. apply Hn1, list_elem_of_fmap.
    by exists (id1, a).
Qed.

(** Requests and answers fit a frame. *)
Lemma request_fits target : PeerId.wf target → fits (FindNode.encode (FindNode.mk (PeerId.as_bytes target))).
Proof.
  intros [Hl Hw]. unfold FindNode.encode, PeerId.as_bytes. cbn [FindNode.target]. split.
  - apply Forall_app. split; [apply be_bytes_wf|done].
  - rewrite blen_app, blen_be_bytes. unfold blen, TAG_SIZE, MAX_PAYLOAD_SIZE. rewrite Hl. lia.
Qed.

Lemma encode_peer_fits p :
  FindNodeResp.peer_wf p → bytes_wf (FindNodeResp.encode_peer p) ∧ blen (FindNodeResp.encode_peer p) ≤ 51.
Proof.
  destruct p as [id a]. intros (Hid & Hw & Ha & _). simpl fst in *. simpl snd in *.
  unfold FindNodeResp.encode_peer, Dht.write_socket_addr.
  destruct a as [ip p|ip p f sc]; destruct Ha as (Hip & Hb & _); rewrite !blen_app, !blen_be_bytes;
    (split; [|lia]); rewrite !Forall_app; split_and!; try done; apply be_bytes_wf.
Qed.

Lemma resp_fits ps : Forall FindNodeResp.peer_wf ps → fits (FindNodeResp.encode (FindNodeResp.mk ps)).
Proof.
  intros Hps. unfold FindNodeResp.encode. cbn [FindNodeResp.peers].
  set (n := Z.to_nat (Z.min (blen ps) 255)). assert (Z.of_nat n ≤ 255) as Hn by lia. clearbody n.
  assert (bytes_wf (concat (map FindNodeResp.encode_peer (take n ps))) ∧
    blen (concat (map FindNodeResp.encode_peer (take n ps))) ≤ 51 * Z.of_nat n) as [Hw Hl].
  { clear Hn. revert n. induction Hps as [|p ps Hp _ IH]; intros [|n]; try (split; [constructor|unfold blen; simpl; lia]).
    cbn [take map concat]. rewrite blen_app. destruct (IH n), (encode_peer_fits p Hp).
    split; [by apply Forall_app|lia]. }
  split.
  - rewrite !Forall_app. split_and!; [apply be_bytes_wf..|done].
  - rewrite !blen_app, !blen_be_bytes. unfold TAG_SIZE, MAX_PAYLOAD_SIZE. lia.
Qed.

Lemma fits_sealable m : fits m → blen m ≤ AEAD_MAX.
Proof. intros [_ H]. unfold TAG_SIZE, MAX_PAYLOAD_SIZE, AEAD_MAX in *. lia. Qed.

Lemma known_peers_nodup target s :
  RoutingLaws.wf (routing_table s) → PeerId.wf target → NoDup (known_peers target s).*1.
Proof.
  intros Hw Ht. unfold known_peers. case_bool_decide; [by apply NoDup_singleton|].
  destruct (RoutingLaws.find_closest_spec target 20 _ Hw Ht) as (_ & Hnd & _).
  by rewrite <- list_fmap_compose.
Qed.

(** The loop on a request, and on an answer. *)
Lemma dispatch_request e A target s :
  PeerId.wf target →
  dispatch e A MessageType.FindNode (FindNode.encode (FindNode.mk (PeerId.as_bytes target))) s =
    ((send_secure e A MessageType.FindNodeResp (FindNodeResp.encode (FindNodeResp.mk (known_peers target s))) s).1, Ok tt).
Proof.
  intros [Hl Hw]. unfold dispatch, if_ok.
  assert (FindNode.decode (FindNode.encode (FindNode.mk (PeerId.as_bytes target))) = Ok (FindNode.mk target)) as ->; [|done].
  refine (@wire_roundtrip _ FindNode.t _ _ (FindNode.mk target) _). split; [unfold blen; simpl; lia|done].
Qed.

Lemma dispatch_answer e B ps s :
  Forall FindNodeResp.peer_wf ps → blen ps ≤ 255 →
  dispatch e B MessageType.FindNodeResp (FindNodeResp.encode (FindNodeResp.mk ps)) s = on_find_node_resp e ps s.
Proof.
  intros Hps Hl. unfold dispatch, if_ok.
  assert (FindNodeResp.decode (FindNodeResp.encode (FindNodeResp.mk ps)) = Ok (FindNodeResp.mk ps)) as ->; [|done].
  by refine (@wire_roundtrip _ FindNodeResp.t _ _ (FindNodeResp.mk ps) _).
Qed.

Lemma known_peers_short target s :
  RoutingLaws.wf (routing_table s) → PeerId.wf target → blen (known_peers target s) ≤ 255.
Proof.
  intros Hw Ht. unfold known_peers. case_bool_decide; [done|]. unfold blen. rewrite length_map.
  destruct (RoutingLaws.find_closest_spec target 20 _ Hw Ht) as (Hl & _). rewrite Hl. lia.
Qed.

Lemma known_peers_find target s p :
  RoutingLaws.wf (routing_table s) → PeerId.wf target → target ≠ Identity.peer_id (identity s) →
  p ∈ RoutingTable.active_peers (routing_table s) → PeerInfo.peer_id p = target →
  (target, PeerInfo.addr p) ∈ known_peers target s.
Proof.
  intros Hw Ht Hself Hp <-. unfold known_peers. rewrite bool_decide_eq_false_2 by done. apply list_elem_of_fmap. exists p.
  split; [done|]. apply RoutingLaws.find_closest_self; [done..|lia].
Qed.

(** An answer changes the table, the pending identifiers and the commands. *)
Lemma learn_frame e ps : ∀ s s', on_find_node_resp e ps s = (s', Ok tt) →
  identity s' = identity s ∧ peer_states s' = peer_states s ∧ tcp_transport s' = tcp_transport s.
Proof.
  induction ps as [|p ps IH]; intros s s' H; [by injection H as <-|]. cbn [on_find_node_resp] in H.
  unfold mthen at 1 in H. destruct (learn_peer e p s) as [s1 [[]| |]] eqn:E; [|done..].
  apply IH in H as (-> & -> & ->). unfold learn_peer, mthen, table_insert in E.
  destruct (RoutingTable.insert _ _ _ _) as [rt r]. destruct (is_panic r); [done|]. unfold mset in E.
  injection E as <-. by case_bool_decide.
Qed.

(** The transport of a node never files two peers under one connection. *)
Lemma inv_distinct (x : TcpTransport.t) a b i :
  TcpLife.inv x → TcpTransport.peer_senders x !! a = Some i → TcpTransport.peer_senders x !! b = Some i → a = b.
Proof. intros H [Ha _]%(TcpLife.inv_senders _ H) [Hb _]%(TcpLife.inv_senders _ H). congruence. Qed.

Lemma grown_distinct x0 peer s :
  TcpLife.inv x0 → grown peer x0 (tcp_transport s) → senders_distinct s.
Proof.
  intros H [Hs _ _] x y i. rewrite Hs.
  assert (∀ z, TcpTransport.peer_senders x0 !! z ≠ Some (TcpTransport.next x0)) as Hnew.
  { intros z [Hz _]%(TcpLife.inv_senders _ H). pose proof (TcpLife.inv_next _ H _ (mk_is_Some _ _ Hz)). lia. }
  intros [[<- <-]|[Hx Hi]]%lookup_insert_Some [[<- Hj]|[Hy Hj]]%lookup_insert_Some; [done|by apply Hnew in Hj| |].
  - subst. by apply Hnew in Hi.
  - by eapply inv_distinct.
Qed.

(** *** Over TCP: [l] asks for an identifier, [r] answers *)
Definition introduces (now : Z) (cut : bytes → list bytes) (el er : Env) (hex : bytes) : method (side * side) Halt unit :=
  on_left (commanded el [ApiCommand.ConnectPeerId hex]) ;? to_right now cut er ;? to_left now cut el.

(** A frame from [B] that carries an answer for [l]. *)
Definition answer_for (l r : side) (A B : SocketAddr.t) (ps : list (bytes * SocketAddr.t)) (q : PeerState) (g : Frame.t) : Prop :=
  TcpLaws.forwarded g = true ∧
  (∀ e s, peer_states s !! B = peer_states (node l) !! B →
    on_frame e B g s = dispatch e B MessageType.FindNodeResp (FindNodeResp.encode (FindNodeResp.mk ps)) (set_peer B q s)) ∧
  linked (set_peer B q (node l)) (node r) A B ∧ linked (node r) (set_peer B q (node l)) B A.

Lemma request now cut ea eb l r A B hex target :
  (∀ w, concat (cut w) = w) → talking l r A B → senders_distinct (node l) →
  0 < nonces_left (node l) B → 0 < nonces_left (node r) A → hex_crate_decode hex = Some target → PeerId.wf target →
  RoutingTable.get target (routing_table (node l)) = None → Forall FindNodeResp.peer_wf (known_peers target (node r)) →
  ∃ l1 l2 r2 gs g q,
    commanded ea [ApiCommand.ConnectPeerId hex] l = (l1, Ok tt) ∧ pass now cut eb l1 r = (l2, r2, Ok tt) ∧
    joined l2 r2 A B [] (gs ++ [g]) ∧ Forall (λ f, TcpLaws.forwarded f = false) gs ∧
    answer_for l2 r2 A B (known_peers target (node r)) q g ∧
    identity (node l2) = identity (node l) ∧ routing_table (node l2) = routing_table (node l) ∧
    target ∈ pending_dht_connects (node l2) ∧ kept (tcp l) (tcp l2).
Proof.
  intros Hcut T Hd Nl Nr Hhex Ht Hget Hkp. pose proof (request_fits _ Ht) as Hm. set (m := FindNode.encode _) in Hm.
  destruct (talking_outbox _ _ _ _ T) as (l0 & Ho). destruct T as [(fs0 & gs0 & J & Hsil) L1 L2]. apply Forall_app in Hsil as [Hs1 Hs2].
  destruct (ask_all_linked ea (node l) (node r) A B m l0 L1 L2 Ho Nl (fits_sealable _ Hm) Hd)
    as (f & q0 & O1 & Hf & La & Lb & Nb & Ask & Hfw & Hwf).
  set (a1 := set_pending ({[target]} ∪ pending_dht_connects (ask_all ea m (node l))) (ask_all ea m (node l))).
  assert (connect_peer_id ea target (node l) = a1) as Hc by (unfold connect_peer_id; by rewrite Hget).
  assert (extends (tcp l) (tcp_transport a1)) as Hx by (rewrite <- Hc; apply connect_peer_id_extends).
  assert (commanded ea [ApiCommand.ConnectPeerId hex] l = (set_node a1 l, Ok tt)) as Hcmd.
  { unfold commanded. cbn [map run]. unfold mthen. cbn [turn on_command]. rewrite Hhex.
    assert (blen target = 32) as -> by (destruct Ht; unfold blen; lia). by unfold PeerId.from_bytes; simpl; rewrite Hc. }
  pose proof (joined_queued l (set_node a1 l) r A B fs0 gs0 [f] l0 J eq_refl eq_refl eq_refl eq_refl Hx Ho O1
    ltac:(constructor; [by apply Hwf|done])) as J1.
  destruct (pass_joined now cut eb (set_node a1 l) r A B (fs0 ++ [f]) gs0
    (λ n gs, ∃ g q, gs = [g] ∧ ∀ s, peer_states (node s) = peer_states a1 → ∀ r', node r' = n →
      answer_for s r' A B (known_peers target (node r)) q g) Hcut J1)
    as (l2 & r2 & gs & x & P & J2 & (g & q & -> & Hans) & Nl2 & _ & _ & Kl & _).
  { intros y k Hk. rewrite List.filter_app, (filter_none _ fs0), (filter_all _ [f]) by (done || by constructor). cbn [app].
    rewrite run_one, Hf by done. unfold m. rewrite dispatch_request by done.
    change (known_peers target (set_peer A q0 (set_tcp y (node r)))) with (known_peers target (node r)).
    destruct (send_secure_linked eb (set_peer A q0 (set_tcp y (node r))) a1 B A MessageType.FindNodeResp
      (FindNodeResp.encode (FindNodeResp.mk (known_peers target (node r)))) k Lb Hk) as (g & q & b1 & Hsend & O2 & Hg & _ & K1 & K2 & _ & _ & Hty & Hgw).
    { unfold nonces_left in *. simpl in *. by rewrite Nb. } { by apply fits_sealable, resp_fits. }
    rewrite Hsend. exists b1, [g]. split_and!; [done|exact O2| |].
    - constructor; [|done]. destruct (resp_fits _ Hkp). by apply Hgw.
    - exists g, q. split; [done|]. intros s Hs r' <-. split_and!.
      + unfold TcpLaws.forwarded. by rewrite Hty.
      + intros e s' Hs'. apply Hg; [done|]. by rewrite Hs', Hs.
      + specialize (K2 La). unfold linked in *. simpl in *. by rewrite Hs.
      + unfold linked in *. simpl in *. by rewrite Hs. }
  eexists _, l2, r2, (gs0 ++ pongs (fs0 ++ [f])), g, q.
  split_and!; [done|exact P|by rewrite <- app_assoc|apply Forall_app; split; [done|apply pongs_silent]| | | | |].
  - apply Hans; [by rewrite Nl2|done].
  - rewrite Nl2. by destruct Ask.
  - rewrite Nl2. by destruct Ask.
  - rewrite Nl2. simpl. set_solver.
  - etrans; [apply Hx|exact Kl].
Qed.

Lemma answered now cut ea l r A B ps q gs g id C :
  (∀ w, concat (cut w) = w) → joined l r A B [] (gs ++ [g]) → Forall (λ f, TcpLaws.forwarded f = false) gs →
  answer_for l r A B ps q g → Forall FindNodeResp.peer_wf ps → blen ps ≤ 255 → NoDup ps.*1 → (id, C) ∈ ps →
  RoutingLaws.wf (routing_table (node l)) → id ∈ pending_dht_connects (node l) →
  ∃ l' r', pass now cut ea r l = (r', l', Ok tt) ∧ talking l' r' A B ∧
    ApiCommand.Connect C ∈ commands (node l') ∧ (id ∉ pending_dht_connects (node l')) ∧
    identity (node l') = identity (node l) ∧ kept (tcp l) (tcp l').
Proof.
  intros Hcut J Hsil (Hfw & Hg & K1 & K2) Hps Hlen Hnd Hin Hw Hpend.
  destruct (pass_joined now cut ea r l B A (gs ++ [g]) []
    (λ n gs, gs = [] ∧ ApiCommand.Connect C ∈ commands n ∧ (id ∉ pending_dht_connects n) ∧ identity n = identity (node l) ∧
      peer_states n = peer_states (set_peer B q (node l))) Hcut (joined_sym _ _ _ _ _ _ J))
    as (r' & l' & gs' & x & P & J' & (-> & Hc & Hp & Hid & Hst) & Nr & _ & _ & _ & Kl).
  { intros y k Hk. rewrite List.filter_app, (filter_none _ gs), (filter_all _ [g]) by (done || by constructor). cbn [app].
    rewrite run_one, Hg, dispatch_answer by done.
    destruct (learn_found ea ps (set_peer B q (set_tcp y (node l))) id C Hw Hps Hin Hnd Hpend) as (n & Hn & Hc & Hp).
    destruct (learn_frame _ _ _ _ Hn) as (Hid & Hst & Htcp).
    exists n, []. rewrite app_nil_r. split_and!; try done. by rewrite (outbox_tcp B n _ Htcp). }
  exists l', r'. split_and!; [done| |done..]. split.
  - rewrite app_nil_r in J'. eexists _, _. split; [by apply joined_sym|]. rewrite app_nil_r. apply pongs_silent.
  - unfold linked in *. by rewrite Hst, Nr.
  - unfold linked in *. by rewrite Hst, Nr.
Qed.

(** The whole exchange between two sides that talk. *)
Lemma introduced now cut ea eb l r A B hex target p :
  (∀ w, concat (cut w) = w) → talking l r A B → senders_distinct (node l) →
  0 < nonces_left (node l) B → 0 < nonces_left (node r) A → hex_crate_decode hex = Some target → PeerId.wf target →
  RoutingLaws.wf (routing_table (node l)) → RoutingTable.get target (routing_table (node l)) = None →
  RoutingLaws.wf (routing_table (node r)) → target ≠ Identity.peer_id (identity (node r)) →
  p ∈ RoutingTable.active_peers (routing_table (node r)) → PeerInfo.peer_id p = target →
  Forall FindNodeResp.peer_wf (known_peers target (node r)) →
  ∃ l' r', introduces now cut ea eb hex (l, r) = ((l', r'), Ok tt) ∧ talking l' r' A B ∧
    ApiCommand.Connect (PeerInfo.addr p) ∈ commands (node l') ∧ (target ∉ pending_dht_connects (node l')) ∧
    identity (node l') = identity (node l) ∧ kept (tcp l) (tcp l').
Proof.
  intros Hcut T Hd Nl Nr Hhex Ht Wa Hget Wb Hself Hp Hpid Hkp.
  destruct (request now cut ea eb l r A B hex target Hcut T Hd Nl Nr Hhex Ht Hget Hkp)
    as (l1 & l2 & r2 & gs & g & q & Hc & P2 & J2 & Hsil & Hans & Hid2 & Htab & Hpend & K2).
  destruct (answered now cut ea l2 r2 A B _ q gs g target (PeerInfo.addr p) Hcut J2 Hsil Hans Hkp)
    as (l3 & r3 & P3 & T3 & Hcon & Hdone & Hid3 & K3).
  { by apply known_peers_short. } { by apply known_peers_nodup. } { by apply known_peers_find. } { by rewrite Htab. } { done. }
  exists l3, r3. split_and!; [|done|done|done|congruence|by trans (tcp l2)].
  unfold introduces. erewrite mthen_ok; [|unfold on_left; cbn [fst snd]; by rewrite Hc].
  erewrite mthen_ok; [|by apply to_right_pass]. by apply to_left_pass.
Qed.

(** Nodes that can take part: an identity, and connections in order. *)
Definition ready (n : Node.t) (calls : nat) : Prop :=
  Identity.wf (identity n) ∧ TcpLife.inv (tcp_transport n) ∧
  (ConnectionPool.len (TcpTransport.pool (tcp_transport n)) + calls ≤
   ConnectionPool.max_connections (TcpTransport.pool (tcp_transport n)))%nat.

(** C8: a node reaches a peer it does not know through one that does. Take three
    nodes [a], [b] and [c], and a peer in [b]'s table, usable, under the address of
    [c]. [a] dials [b], over TCP; told to connect to the peer's identifier, which is
    not in its table, [a] asks; [b] answers with its closest peers, of which this is
    one; [a] then has the command to dial that address, and no longer waits for
    the identifier. When it does dial, [a] and [c] end in sessions that open what the
    other seals, each holding the other's static key, and [a] and [b] still have
    theirs. Whether [c] has the identifier asked for plays no part. *)
Theorem introduction_over_tcp (now : Z) (cut : bytes → list bytes) (ea eb ea' ec : Env) (a b c : Node.t)
    (A B A' : SocketAddr.t) (hex target : bytes) (p : PeerInfo.t) :
  (∀ w, concat (cut w) = w) → ready a 2 → ready b 1 → ready c 1 → stream ea = Ok tt → stream ea' = Ok tt →
  peer_states b !! A = None → peer_states c !! A' = None → PeerInfo.addr p ≠ B →
  hex_crate_decode hex = Some target → PeerId.wf target →
  RoutingLaws.wf (routing_table a) → RoutingTable.get target (routing_table a) = None →
  RoutingLaws.wf (routing_table b) → target ≠ Identity.peer_id (identity b) →
  p ∈ RoutingTable.active_peers (routing_table b) → PeerInfo.peer_id p = target →
  Forall FindNodeResp.peer_wf (known_peers target b) →
  ∃ l r l' s,
    (connects now cut ea eb A B ;? introduces now cut ea eb hex) (start a, start b) = ((l, r), Ok tt) ∧
    ApiCommand.Connect (PeerInfo.addr p) ∈ commands (node l) ∧ (target ∉ pending_dht_connects (node l)) ∧
    connects now cut ea' ec A' (PeerInfo.addr p) (start (node l), start c) = ((l', s), Ok tt) ∧
    linked (node l') (node s) A' (PeerInfo.addr p) ∧ linked (node s) (node l') (PeerInfo.addr p) A' ∧
    secure_with (node l') (PeerInfo.addr p) (Identity.x25519_public_key (identity c)) ∧
    secure_with (node s) A' (Identity.x25519_public_key (identity a)) ∧
    linked (node l') (node r) A B ∧ linked (node r) (node l') B A.
Proof.
  intros Hcut (Ia & Ta & Ra) (Ib & Tb & Rb) (Ic & Tc & Rc) Hst Hst' Hb Hc HCB Hhex Ht Wa Hget Wb Hself Hp Hpid Hkp.
  destruct (connects_secured now cut ea eb a b A B Hcut Ia Ib Hst) as (l & r & Hcon & S); [unfold room; lia..|done|].
  destruct (secured_nonces _ _ _ _ _ _ S) as [N1 N2]. pose proof (secured_talking _ _ _ _ _ _ S) as T.
  destruct S as [_ _ _ (x & k & Hl & _) (y & k' & Hr & _) _ [Gl Gr]].
  destruct (introduced now cut ea eb l r A B hex target p Hcut T) as (l1 & r1 & Hint & T1 & Hcmd & Hpend & Hid & K);
    try (rewrite ?N1, ?N2, ?Hl, ?Hr; done).
  { by eapply grown_distinct, Gl. }
  assert (Identity.wf (identity (node l1)) ∧ Identity.x25519_public_key (identity (node l1)) = Identity.x25519_public_key (identity a))
    as [I1 Ek] by (by rewrite Hid, Hl).
  destruct (connects_secured now cut ea' ec (node l1) c A' (PeerInfo.addr p) Hcut I1 Ic Hst') as (l2 & s & Hcon2 & S2);
    [|unfold room; lia|done|].
  { destruct (grown_kept _ _ _ _ Gl K) as [_ G2 G3]. unfold room. unfold tcp in *. lia. }
  exists l1, r1, l2, s. destruct T1 as [_ L1 L2].
  destruct S2 as [_ M1 M2 (x2 & k2 & H2 & _ & E2) (y2 & k3 & H3 & _ & E3) _ _].
  split_and!; [by erewrite mthen_ok|done|done|done|done|done| | | |].
  - exists k2. rewrite H2. by split; [apply lookup_insert_eq|].
  - exists k3. rewrite H3, E3. by split; [apply lookup_insert_eq|].
  - unfold linked in *. rewrite H2. simpl. by rewrite lookup_insert_ne.
  - unfold linked in *. rewrite H2. simpl. by rewrite lookup_insert_ne.
Qed.
End Lookup.
End NodeLookup.
