(* ===== verification/NodeSafety.v ===== *)
(** What cannot happen to a node: nothing it sends goes out in clear, nothing that
    is not authenticated has an effect, its routing table stays consistent, and the
    event loop stops only in the cases named. The runs considered interleave the
    turns of the loop with the tasks of the transport in any way. *)
From S2P Require Import Prelude Bytes CryptoTypes WireTypes FrameCodec Replay Session Wire TransferMsg DhtMsg.
From S2P Require Import PeerId Identity Noise Float64 PeerInfo Routing Transfer Connection Transport Node NodeLaws.

Local Open Scope Z_scope.
Local Open Scope method_scope.

Module NodeSafety.
Import Node.

(** Bytes from the wire are bytes. *)
Definition input_wf (i : input) : Prop :=
  match i with
  | Event (Some (TransportEvent.FrameReceived _ f)) => bytes_wf (Frame.payload f)
  | _ => True
  end.

(** *** Where frames and keys come from *)
Section Provenance.
Context `{SH : !Sha256, XX : !X25519, AE : !Aead}.
Variable id : Identity.t.

(** The handshakes of a node with the identity [id], by the message they sent last. *)
Definition dialled (hs : NoiseHandshake.t) (msg1 : bytes) : Prop :=
  ∃ r, NoiseHandshake.create_message1 r (NoiseHandshake.new_initiator id) = (hs, Ok msg1).

Definition answered (hs : NoiseHandshake.t) (msg2 : bytes) : Prop :=
  ∃ r msg1, NoiseHandshake.process_message1_create_message2 r msg1 (NoiseHandshake.new_responder id) = (hs, Ok msg2).

Definition confirmed (hs : NoiseHandshake.t) (msg3 : bytes) : Prop :=
  ∃ hs0 msg1 msg2, dialled hs0 msg1 ∧ NoiseHandshake.process_message2_create_message3 msg2 hs0 = (hs, Ok msg3).

Definition concluded (hs : NoiseHandshake.t) : Prop :=
  ∃ hs0 msg2 msg3, answered hs0 msg2 ∧ NoiseHandshake.process_message3 msg3 hs0 = (hs, Ok tt).

(** The sending key of a session that such a handshake ended in. *)
Definition session_key (k : bytes) : Prop :=
  ∃ hs keys x, ((∃ msg3, confirmed hs msg3) ∨ concluded hs) ∧
    NoiseHandshake.into_session_keys hs = Ok keys ∧ SecureSession.from_keys keys = Ok x ∧ SecureSession.send_cipher x = k.

(** Frames fit for the wire: a message that a handshake of the node produced; a frame
    whose payload is the seal of some message, under the sending key of one of the
    node's sessions and the nonce in its header; or the transport's own answer to a
    heartbeat, which has no payload. *)
Inductive covered : Frame.t → Prop :=
| covered_handshake hs msg :
    dialled hs msg ∨ answered hs msg ∨ confirmed hs msg → covered (Frame.new MessageType.Handshake Flags.empty 0 msg)
| covered_sealed ty k n m c :
    session_key k → aead_encrypt k (SecureSession.build_nonce n) [] m = Some c → covered (encrypted ty n c)
| covered_pong rid : covered (Frame.simple MessageType.Pong rid).

(** What is filed of a peer is a handshake of the node, or a session one led to. *)
Definition peer_ok (p : PeerState) : Prop :=
  match p with
  | InitiatorWaitMsg2 hs => ∃ msg1, dialled hs msg1
  | ResponderWaitMsg1 hs => hs = NoiseHandshake.new_responder id
  | ResponderWaitMsg3 hs => ∃ msg2, answered hs msg2
  | Secure x => session_key (SecureSession.send_cipher x)
  end.

Record inv (s : t) : Prop := {
  inv_identity : identity s = id;
  inv_table : RoutingLaws.wf (routing_table s);
  inv_sent : TcpSent.all_sent covered (tcp_transport s);
  inv_peers : map_Forall (λ _, peer_ok) (peer_states s)
}.

Definition keeps (h : handler) : Prop := ∀ s, inv s → inv (h s).1.

Lemma keeps_done : keeps (mdone tt).
Proof. intros s Hs. exact Hs. Qed.

Lemma keeps_try {A} (r : result Halt A) (k : A → handler) :
  (∀ a, keeps (k a)) → keeps (let? a := mtry r in k a).
Proof. intros Hk s Hs. unfold mthen, mtry. destruct r; try done. by apply Hk. Qed.

Lemma keeps_then (h k : handler) : keeps h → keeps k → keeps (h ;? k).
Proof.
  intros Hh Hk s Hs. unfold mthen. specialize (Hh s Hs). destruct (h s) as [s' [|e|]]; simpl in *; [|done..].
  by apply Hk.
Qed.

Lemma keeps_set (f : t → t) : (∀ s, inv s → inv (f s)) → keeps (mset f).
Proof. intros Hf s Hs. by apply Hf. Qed.

Lemma keeps_if_ok {E A} (r : result E A) (k : A → handler) : (∀ a, r = Ok a → keeps (k a)) → keeps (if_ok r k).
Proof. intros Hk s Hs. unfold if_ok. destruct r; try done. by apply Hk. Qed.

Lemma keeps_transfers {A} (f : TransferManager.t → TransferManager.t * outcome A) : keeps (on_transfers f).
Proof. intros s []. unfold on_transfers. destruct (f _). by split. Qed.

Lemma set_peer_inv a p s : peer_ok p → inv s → inv (set_peer a p s).
Proof. intros Hp []. split; try done. by apply map_Forall_insert_2. Qed.

Lemma drop_peer_inv a s : inv s → inv (drop_peer a s).
Proof. intros []. split; try done. by apply map_Forall_delete. Qed.

Lemma publish_inv e s : inv s → inv (publish e s).
Proof. by intros []. Qed.
End Provenance.

Create HintDb keeps.
#[local] Hint Resolve keeps_done keeps_transfers set_peer_inv drop_peer_inv publish_inv : keeps.

Section Safety.
Context `{SH : !Sha256, SOK : !Sha256Ok, XX : !X25519, AE : !Aead, AOK : !AeadOk, LG : !Log2, HX : !HexCrate, CRC : !Crc32c}.
Variable id : Identity.t.

Lemma tcp_send_inv e a f s : covered id f → inv id s → inv id (tcp_send e a f s).1.
Proof.
  intros Hf []. unfold tcp_send. pose proof (TcpSent.send_to_sent (covered id) (now e) a f (tcp_transport s) Hf) as H.
  destruct (TcpTransport.send_to _ _ _ _). split; auto.
Qed.

(** What [encrypt] answers is a seal under the session's key. *)
Lemma encrypt_seals x m x' n c :
  SecureSession.encrypt x m = (x', Ok (n, c)) →
  aead_encrypt (SecureSession.send_cipher x) (SecureSession.build_nonce n) [] m = Some c.
Proof.
  unfold SecureSession.encrypt. simpl. destruct (_ <? _); [done|]. destruct (aead_encrypt _ _ _ _) eqn:E; [|done].
  intros [= _ <- <-]. done.
Qed.

Lemma encrypt_key x m : SecureSession.send_cipher (SecureSession.encrypt x m).1 = SecureSession.send_cipher x.
Proof. unfold SecureSession.encrypt. simpl. by repeat case_match. Qed.

Lemma seal_and_send_inv e a ty m x s :
  session_key id (SecureSession.send_cipher x) → inv id s → inv id (seal_and_send e a ty m x s).1.
Proof.
  intros Hx Hs. unfold seal_and_send. pose proof (encrypt_key x m) as Hk.
  destruct (SecureSession.encrypt x m) as [x' r] eqn:E. simpl in Hk.
  assert (peer_ok id (Secure x')) as Hx' by (simpl; by rewrite Hk).
  destruct r as [[n c]| |]; simpl; [|by apply set_peer_inv..].
  apply tcp_send_inv; [|by apply set_peer_inv]. exact (covered_sealed id ty _ n m c Hx (encrypt_seals _ _ _ _ _ E)).
Qed.

Lemma send_secure_inv e a ty m s : inv id s → inv id (send_secure e a ty m s).1.
Proof.
  intros Hs. unfold send_secure. destruct (peer_states s !! a) as [[hs|hs|hs|x]|] eqn:Hx; try done.
  apply seal_and_send_inv; [|done]. exact (inv_peers _ _ Hs _ _ Hx).
Qed.

Lemma send_message_inv e a m s : inv id s → inv id (send_message e a m s).
Proof.
  intros Hs. unfold send_message. pose proof (send_secure_inv e a MessageType.Data m s Hs) as H.
  destruct (send_secure _ _ _ _ _) as [s' []]; [|done]. by destruct H.
Qed.

Lemma dial_inv e a s : inv id s → inv id (dial e a s).
Proof.
  intros Hs. unfold dial.
  pose proof (TcpSent.connect_sent (covered id) (now e) a (stream e) _ (inv_sent _ _ Hs)) as Hc.
  destruct (TcpTransport.connect _ _ _ _) as [tcp r]. simpl in Hc.
  assert (inv id (set_tcp tcp s)) as Ht by (destruct Hs; by split).
  destruct r; [|done..]. destruct (NoiseHandshake.create_message1 _ _) as [hs [msg1| |]] eqn:E; [|done..].
  assert (dialled id hs msg1) as Hd by (exists (random e); by rewrite <- (inv_identity _ _ Ht)).
  pose proof (tcp_send_inv e a _ (set_tcp tcp s) (covered_handshake id hs msg1 (or_introl Hd)) Ht) as H.
  destruct (tcp_send _ _ _ _) as [s' []]; [|done]. apply set_peer_inv; [|done]. by exists msg1.
Qed.

Lemma send_handshake_inv e a hs msg s :
  dialled id hs msg ∨ answered id hs msg ∨ confirmed id hs msg → inv id s → inv id (send_handshake e a msg s).
Proof. intros Hm Hs. apply tcp_send_inv; [by eapply covered_handshake|done]. Qed.

Lemma finish_handshake_inv e a hs s :
  (∃ msg3, confirmed id hs msg3) ∨ concluded id hs → inv id s → inv id (finish_handshake e a hs s).
Proof.
  intros Hh Hs. unfold finish_handshake. destruct (NoiseHandshake.into_session_keys hs) as [keys| |] eqn:Ek; try done.
  destruct (SecureSession.from_keys keys) as [x| |] eqn:Ex; try done.
  apply seal_and_send_inv; [|done]. by exists hs, keys, x.
Qed.

#[local] Hint Resolve send_secure_inv send_message_inv dial_inv : keeps.

Lemma ask_all_inv e m s : inv id s → inv id (ask_all e m s).
Proof.
  unfold ask_all. generalize (map_to_list (peer_states s)). intros l. revert s.
  induction l as [|p l IH]; intros s Hs; [done|]. simpl. auto with keeps.
Qed.

Lemma connect_peer_id_inv e target s : inv id s → inv id (connect_peer_id e target s).
Proof.
  intros Hs. unfold connect_peer_id. case_match; [by destruct Hs|].
  by destruct (ask_all_inv e (FindNode.encode (FindNode.mk (PeerId.as_bytes target))) s Hs).
Qed.
#[local] Hint Resolve connect_peer_id_inv : keeps.

Lemma on_command_keeps e c : keeps id (on_command e c).
Proof.
  intros s Hs. destruct c as [a|hex|a path|a m|hex m]; simpl; [by auto with keeps| | |by auto with keeps|].
  - destruct (hex_crate_decode hex); [|done]. case_match; simpl; auto with keeps.
  - case_match; [|done]. by apply keeps_transfers.
  - destruct (hex_crate_decode hex); [|done]. case_match; [done|]. case_match; simpl; auto with keeps.
Qed.

Lemma table_insert_keeps e peer a : PeerId.wf peer → keeps id (table_insert e peer a).
Proof.
  intros Hid s []. unfold table_insert. destruct (RoutingTable.insert _ _ _ _) as [rt r] eqn:E.
  edestruct RoutingLaws.insert_refines_map as (Hw & _); [done|exact Hid|exact E|]. by split.
Qed.

Lemma on_handshake_keeps e a m : keeps id (on_handshake e a m).
Proof.
  intros s Hs. unfold on_handshake. destruct (peer_states s !! a) as [p|] eqn:Hp; [|done].
  pose proof (inv_peers _ _ Hs _ _ Hp) as Hok. apply (drop_peer_inv id a) in Hs.
  destruct p as [hs|hs|hs|x]; simpl in Hok.
  - destruct Hok as [msg1 Hd]. destruct (NoiseHandshake.process_message2_create_message3 m hs) as [hs' [msg3| |]] eqn:E; try done.
    assert (confirmed id hs' msg3) by by exists hs, msg1, m.
    apply finish_handshake_inv; [by eauto|]. eapply send_handshake_inv; eauto.
  - subst hs. destruct (NoiseHandshake.process_message1_create_message2 _ m _) as [hs' [msg2| |]] eqn:E; try done.
    assert (answered id hs' msg2) by by exists (random e), m.
    apply set_peer_inv; [by exists msg2|]. eapply send_handshake_inv; eauto.
  - destruct Hok as [msg2 Ha]. destruct (NoiseHandshake.process_message3 m hs) as [hs' [[]| |]] eqn:E; try done.
    apply finish_handshake_inv; [|done]. right. by exists hs, msg2, m.
  - by apply set_peer_inv.
Qed.

Lemma on_find_node_resp_keeps e ps : Forall FindNodeResp.peer_wf ps → keeps id (on_find_node_resp e ps).
Proof.
  induction 1 as [|[peer a] ps (Hl & Hw & _) _ IH]; simpl; [apply keeps_done|].
  apply keeps_then; [|done]. apply keeps_then; [apply table_insert_keeps; split; [unfold PeerId.from_bytes, blen in *; simpl in *; lia|done]|].
  apply keeps_set. intros s []. by case_match.
Qed.

Lemma peer_id_data data : bytes_wf data → (blen data =? 32) = true → PeerId.wf (PeerId.from_bytes data).
Proof. intros Hd Hl%Z.eqb_eq. split; [unfold PeerId.from_bytes, blen in *; lia|done]. Qed.

Lemma dispatch_keeps e a ty data : bytes_wf data → keeps id (dispatch e a ty data).
Proof.
  intros Hd. unfold dispatch. destruct ty; auto with keeps;
    try (solve [apply keeps_if_ok; intros ? Hr; repeat apply keeps_then; first [apply keeps_transfers | apply keeps_set; intros; auto with keeps]]).
  - unfold on_ping. destruct (blen data =? 32) eqn:E; [|apply keeps_done].
    apply keeps_then; [by apply table_insert_keeps, peer_id_data|]. apply keeps_set. auto with keeps.
  - unfold on_pong. destruct (blen data =? 32) eqn:E; [|apply keeps_done]. by apply table_insert_keeps, peer_id_data.
  - apply keeps_if_ok. intros resp Hr. apply on_find_node_resp_keeps.
    by destruct (@wire_sound DhtError.t FindNodeResp.t FindNodeResp_wire FindNodeResp_wire_ok data resp Hd Hr).
  - unfold on_credit_update. case_match; [|apply keeps_done]. apply keeps_try. intros. apply keeps_try. auto with keeps.
Qed.

(** A frame that opens under the session of its sender. *)
Definition opened (s : t) (a : SocketAddr.t) (f : Frame.t) (data : bytes) (session' : SecureSession.t) : Prop :=
  Flags.is_encrypted (FrameHeader.flags (Frame.header f)) = true ∧
  ∃ session, peer_states s !! a = Some (Secure session) ∧
    SecureSession.decrypt session (FrameHeader.request_id (Frame.header f)) (Frame.payload f) = (session', Ok data).

Lemma decrypt_bytes session n c session' data :
  bytes_wf c → SecureSession.decrypt session n c = (session', Ok data) → bytes_wf data.
Proof.
  unfold SecureSession.decrypt. intros Hc H. destruct (SecureSession.window_check _ _) as [s' []]; simpl in H; [|done].
  destruct (aead_decrypt _ _ _ _) eqn:E; [|done]. injection H as _ <-. by eapply aead_open_bytes.
Qed.

(** How a frame is handled, case by case. *)
Lemma on_frame_cases e a f s :
  (FrameHeader.msg_type (Frame.header f) = MessageType.Handshake ∧ on_frame e a f s = on_handshake e a (Frame.payload f) s) ∨
  (∃ data session', opened s a f data session' ∧
     on_frame e a f s = dispatch e a (FrameHeader.msg_type (Frame.header f)) data (set_peer a (Secure session') s)) ∨
  on_frame e a f s = (s, Ok tt) ∨
  (∃ session, peer_states s !! a = Some (Secure session) ∧
     is_ok (SecureSession.decrypt session (FrameHeader.request_id (Frame.header f)) (Frame.payload f)).2 = false ∧
     on_frame e a f s =
       (set_peer a (Secure (SecureSession.decrypt session (FrameHeader.request_id (Frame.header f)) (Frame.payload f)).1) s, Ok tt)).
Proof.
  unfold on_frame. case_bool_decide as Hh; [by left|right].
  destruct (peer_states s !! a) as [[hs|hs|hs|session]|] eqn:Hp; [by eauto..| |by eauto].
  destruct (Flags.is_encrypted _) eqn:He; [|by eauto].
  destruct (SecureSession.decrypt _ _ _) as [session' [data| |]] eqn:Hd.
  - left. exists data, session'. split; [|done]. split; [done|]. eauto.
  - right. right. exists session. by rewrite Hd.
  - right. right. exists session. by rewrite Hd.
Qed.

(** Opening a frame leaves the sending key alone. *)
Lemma decrypt_peer_ok x n c : peer_ok id (Secure x) → peer_ok id (Secure (SecureSession.decrypt x n c).1).
Proof. simpl. by destruct (SessionPair.decrypt_fields x n c) as (-> & _). Qed.

Lemma on_frame_keeps e a f : bytes_wf (Frame.payload f) → keeps id (on_frame e a f).
Proof.
  intros Hf s Hs.
  destruct (on_frame_cases e a f s) as [[_ ->]|[(data & session' & Ho & ->)|[->|(session & Hx & _ & ->)]]].
  - by apply on_handshake_keeps.
  - destruct Ho as (_ & session & Hx & Hd). apply dispatch_keeps; [by eapply decrypt_bytes|]. apply set_peer_inv; [|done].
    pose proof (decrypt_peer_ok session (FrameHeader.request_id (Frame.header f)) (Frame.payload f)) as H.
    rewrite Hd in H. apply H. exact (inv_peers _ _ Hs _ _ Hx).
  - done.
  - apply set_peer_inv; [|done]. apply decrypt_peer_ok. exact (inv_peers _ _ Hs _ _ Hx).
Qed.

Lemma turn_keeps e i : input_wf i → keeps id (turn e i).
Proof.
  intros Hi s Hs. destruct i as [|c|ev|a f]; simpl; [done|by apply on_command_keeps| |by apply send_secure_inv].
  destruct ev as [[a|a r|a f|[a|] er]|]; simpl; auto with keeps.
  - unfold on_connected. case_match; [by auto with keeps|]. apply set_peer_inv; [|by auto with keeps].
    simpl. by rewrite (inv_identity _ _ Hs).
  - unfold on_disconnected. auto with keeps.
  - by apply on_frame_keeps.
Qed.

(** The node with the tasks of its transport. *)
Inductive sys_step : t → t → Prop :=
| SysTurn e i s : input_wf i → sys_step s (turn e i s).1
| SysAccept now r s : sys_step s (set_tcp (TcpTransport.accept now r (tcp_transport s)) s)
| SysWrite now w i s : sys_step s (set_tcp (TcpTransport.writer_turn now w i (tcp_transport s)) s)
| SysWriterExit i s : sys_step s (set_tcp (TcpTransport.writer_exit i (tcp_transport s)) s)
| SysRead now item i s : sys_step s (set_tcp (TcpTransport.reader_turn now item i (tcp_transport s)) s).

Lemma sys_step_inv s s' : inv id s → sys_step s s' → inv id s'.
Proof.
  intros Hs Hst. destruct Hst as [e i s Hi|now r s|now w i s|i s|now item i s]; [by apply turn_keeps|..];
    destruct Hs; split; try done; simpl.
  - by apply TcpSent.accept_sent.
  - by apply TcpSent.writer_turn_sent.
  - by apply TcpSent.writer_exit_sent.
  - apply TcpSent.reader_turn_sent; [|done]. intros rid. constructor.
Qed.

Lemma reachable_inv `{ED : !Ed25519} start a max dir d s :
  Identity.wf id → rtc sys_step (new start id a max dir d) s → inv id s.
Proof.
  intros Hid Hr. assert (inv id (new start id a max dir d)) as H0.
  { split; [done| |apply TcpSent.bind_sent|apply map_Forall_empty]. apply RoutingLaws.new_wf. destruct Hid as [_ _ ->]. simpl.
    split; [apply sha256_length|apply sha256_bytes]. }
  induction Hr as [|s1 s2 s3 Hst Hr IH]; [done|]. apply IH. by eapply sys_step_inv.
Qed.

(** C10: a node sends nothing in clear. Whatever commands, connections and frames a
    node gets, in whatever order its loop and its transport tasks run, every frame
    ever queued for a peer is a message that a handshake of the node produced, a
    frame whose payload is the seal of a message under the sending key of a session
    that one of its handshakes ended in, with the nonce the header carries, or the
    empty answer to a heartbeat; and its routing table stays consistent. *)
Theorem nothing_in_clear `{ED : !Ed25519} (start : Z) (a : SocketAddr.t) (max : nat) (dir : bytes)
    (d : disk) (s : t) (i : nat) (c : Conn.t) :
  Identity.wf id → rtc sys_step (new start id a max dir d) s →
  TcpTransport.conns (tcp_transport s) !! i = Some c →
  Forall (covered id) (Conn.sent c) ∧ RoutingLaws.wf (routing_table s).
Proof.
  intros Hid Hr Hc. destruct (reachable_inv start a max dir d s Hid Hr) as [_ H1 H2 _]. split; [by eapply H2|done].
Qed.

(** *** What stops the loop *)
Definition calm (h : handler) : Prop := ∀ s, inv id s → (h s).2 = Ok tt.

Lemma calm_then (h k : handler) : keeps id h → calm h → calm k → calm (h ;? k).
Proof.
  intros Kh Hh Hk s Hs. unfold mthen. specialize (Kh s Hs). specialize (Hh s Hs).
  destruct (h s) as [s' r]; simpl in *. subst r. by apply Hk.
Qed.

Lemma calm_if_ok {E A} (r : result E A) (k : A → handler) :
  r ≠ Panic → (∀ a, r = Ok a → calm (k a)) → calm (if_ok r k).
Proof. intros Hr Hk s Hs. unfold if_ok. destruct r; try done. by apply Hk. Qed.

Lemma calm_set f : calm (mset f).
Proof. intros s _. done. Qed.

Lemma calm_done : calm (mdone tt).
Proof. intros s _. done. Qed.

(** Some file was cut below a mapping of it that a transfer holds. *)
Definition mapping (st : TransferState) : Mmap.t :=
  match st with Sending x => SendingState.file_map x | Receiving r => ReceivingState.file_map r end.
Definition truncated (m : TransferManager.t) : Prop :=
  ∃ tid st, TransferManager.active_transfers m !! tid = Some st ∧
    blen (Mmap.file (mapping st) (TransferManager.fs m)) < Mmap.len (mapping st).

(** Calls of the transfer manager that return. *)
Definition harmless {A} (f : TransferManager.t → TransferManager.t * outcome A) : Prop :=
  ∀ m, ∃ m' r, f m = (m', Returns r) ∧ r ≠ Panic.

Lemma calm_transfers {A} (f : TransferManager.t → TransferManager.t * outcome A) : harmless f → calm (on_transfers f).
Proof. intros Hf s _. unfold on_transfers. destruct (Hf (transfer_manager s)) as (m' & r & -> & Hr). by destruct r. Qed.

Ltac harmless_tac := intros m; repeat case_match; (eexists _, _; split; [reflexivity|done]).

Lemma offer_file_harmless tid ok a path cs : harmless (TransferManager.offer_file tid ok a path cs).
Proof. unfold TransferManager.offer_file. harmless_tac. Qed.

Lemma handle_offer_harmless io a offer : harmless (TransferManager.handle_offer io a offer).
Proof. unfold TransferManager.handle_offer. harmless_tac. Qed.

Lemma handle_accept_harmless accept : harmless (TransferManager.handle_accept accept).
Proof. unfold TransferManager.handle_accept. harmless_tac. Qed.

#[local] Hint Resolve offer_file_harmless handle_offer_harmless handle_accept_harmless
  calm_transfers calm_set calm_done : keeps.

Lemma table_insert_calm e peer a : PeerId.wf peer → calm (table_insert e peer a).
Proof.
  intros Hid s [_ H1 _ _]. unfold table_insert. destruct (RoutingTable.insert _ _ _ _) as [rt r] eqn:E.
  destruct (RoutingLaws.insert_refines_map _ _ _ _ _ _ H1 Hid E) as (_ & _ & Hs). by inversion Hs; subst.
Qed.

Lemma on_find_node_resp_calm e ps : Forall FindNodeResp.peer_wf ps → calm (on_find_node_resp e ps).
Proof.
  induction 1 as [|[peer a] ps (Hl & Hw & _) _ IH]; simpl; [apply calm_done|].
  assert (PeerId.wf (PeerId.from_bytes peer)) as Hid
    by (split; [unfold PeerId.from_bytes, blen in *; simpl in *; lia|done]).
  assert (keeps id (learn_peer e (peer, a))) as Hk.
  { apply keeps_then; [by apply table_insert_keeps|]. apply keeps_set. intros s []. by case_match. }
  apply calm_then; [done| |done]. apply calm_then; [by apply table_insert_keeps|by apply table_insert_calm|apply calm_set].
Qed.

Lemma dispatch_calm e a ty data :
  bytes_wf data → ty ≠ MessageType.CreditUpdate → ty ≠ MessageType.FileChunkAck → ty ≠ MessageType.FileChunk →
  calm (dispatch e a ty data).
Proof.
  intros Hd Hc Ha Hf. unfold dispatch. destruct ty; try done; auto with keeps.
  - unfold on_ping. destruct (blen data =? 32) eqn:E; [|apply calm_done].
    apply calm_then; [by apply table_insert_keeps, peer_id_data|by apply table_insert_calm, peer_id_data|apply calm_set].
  - unfold on_pong. destruct (blen data =? 32) eqn:E; [|apply calm_done]. by apply table_insert_calm, peer_id_data.
  - apply calm_if_ok; [exact (@wire_safe _ FindNode.t _ _ data)|]. intros. apply calm_set.
  - apply calm_if_ok; [exact (@wire_safe _ FindNodeResp.t _ _ data)|]. intros resp Hr. apply on_find_node_resp_calm.
    by destruct (@wire_sound DhtError.t FindNodeResp.t FindNodeResp_wire FindNodeResp_wire_ok data resp Hd Hr).
  - apply calm_if_ok; [apply from_utf8_not_Panic|]. intros. apply calm_set.
  - apply calm_if_ok; [exact (@wire_safe _ FileOffer.t _ _ data)|]. intros.
    apply calm_then; [apply keeps_set; auto with keeps|apply calm_set|auto with keeps].
  - apply calm_if_ok; [exact (@wire_safe _ FileAccept.t _ _ data)|]. auto with keeps.
Qed.

(** A chunk, or cutting one, faults only where a file was truncated. *)
Lemma handle_chunk_ends chunk m :
  (∃ r, (TransferManager.handle_chunk chunk m).2 = Returns r ∧ r ≠ Panic) ∨
  ((TransferManager.handle_chunk chunk m).2 = Killed ∧ truncated m).
Proof.
  unfold TransferManager.handle_chunk.
  destruct (TransferManager.active_transfers m !! _) as [[x|r]|] eqn:Hr; [left; by eexists| |left; by eexists].
  case_match; [left; by eexists|]. destruct (Z.leb_spec (wrap 32 (FileChunk.chunk_index chunk * ReceivingState.chunk_size r)
    + blen (FileChunk.data chunk)) (Mmap.len (ReceivingState.file_map r))) as [Hl|]; [|left; by eexists].
  destruct (Mmap.accessible _ _ _ _) eqn:Hacc; cbn [negb].
  - left. case_match; by eexists.
  - right. split; [done|]. exists (FileChunk.transfer_id chunk), (Receiving r). split; [done|]. by eapply Mmap.fault_cut.
Qed.

Lemma pump_loop_ends fuel tid d x :
  (∃ r, (TransferManager.pump_loop fuel tid d x).2 = Returns r) ∨
  ((TransferManager.pump_loop fuel tid d x).2 = Killed ∧
   blen (Mmap.file (SendingState.file_map x) d) < Mmap.len (SendingState.file_map x)).
Proof.
  revert x. induction fuel as [|fuel IH]; intros x; simpl; [left; by eexists|].
  case_match; [|left; by eexists]. case_match; [|apply (IH (TransferManager.advance 0 x))].
  unfold TransferManager.cut_chunk. destruct (slice _ _ _); [|left; by eexists..].
  destruct (Mmap.accessible _ _ _ _) eqn:Hacc.
  - specialize (IH (TransferManager.advance 1 x)). by destruct (TransferManager.pump_loop fuel _ _ _) as [[x' cs] o].
  - right. split; [done|]. eapply Mmap.fault_cut; [exact Hacc|]. lia.
Qed.

Lemma credit_update_ends tid n m :
  (∃ r, (TransferManager.handle_credit_update tid n m).2 = Returns r) ∨
  ((TransferManager.handle_credit_update tid n m).2 = Killed ∧ truncated m).
Proof.
  unfold TransferManager.handle_credit_update, TransferManager.pump_send.
  destruct (TransferManager.active_transfers m !! tid) as [[x|r]|] eqn:Hx; [|rewrite Hx; left; by eexists..].
  cbn [TransferManager.active_transfers TransferManager.set_transfer]. rewrite lookup_insert_eq.
  match goal with |- context [TransferManager.pump_loop ?f ?i ?d ?y] => pose proof (pump_loop_ends f i d y) as H end.
  destruct (TransferManager.pump_loop _ _ _ _) as [[x' cs] o]. destruct H as [[r Hr]|[Hr Ht]]; [left; by exists r|right].
  split; [exact Hr|]. by exists tid, (Sending x).
Qed.

(** The inputs on which the loop stops, and how. *)
Inductive stops (s : t) : input → result Halt unit → Prop :=
| stops_shutdown : stops s Shutdown (Err Left)
| stops_closed : stops s (Event None) (Err Left)
| stops_peer_id target message bs :
    hex_crate_decode target = Some bs → blen bs ≠ 32 →
    stops s (Command (ApiCommand.SendMessagePeerId target message)) Panic
| stops_message3 a f hs :
    FrameHeader.msg_type (Frame.header f) = MessageType.Handshake → peer_states s !! a = Some (ResponderWaitMsg3 hs) →
    stops s (Event (Some (TransportEvent.FrameReceived a f))) Panic
| stops_credits a f data session' :
    FrameHeader.msg_type (Frame.header f) = MessageType.CreditUpdate → opened s a f data session' →
    stops s (Event (Some (TransportEvent.FrameReceived a f))) Panic
| stops_ack a f data session' :
    FrameHeader.msg_type (Frame.header f) = MessageType.FileChunkAck → opened s a f data session' →
    stops s (Event (Some (TransportEvent.FrameReceived a f))) (Err Blocked)
| stops_fault a f data session' :
    FrameHeader.msg_type (Frame.header f) ∈ [MessageType.FileChunk; MessageType.CreditUpdate] →
    opened s a f data session' → truncated (transfer_manager s) →
    stops s (Event (Some (TransportEvent.FrameReceived a f))) (Err Fault).

Lemma on_command_halts e c s : (on_command e c s).2 = Ok tt ∨ stops s (Command c) (on_command e c s).2.
Proof.
  destruct c as [a|hex|a path|a m|hex m]; simpl; [by left| | |by left|].
  - left. by repeat case_match.
  - left. case_match; [|done]. unfold on_transfers.
    destruct (offer_file_harmless (transfer_id e) (io_ok e) a path 1000 (transfer_manager s)) as (m & r & -> & Hr).
    by destruct r.
  - destruct (hex_crate_decode hex) as [bs|] eqn:Hd; [|by left].
    destruct (Z.eqb_spec (blen bs) 32); simpl; [left; by case_match|]. right. by eapply stops_peer_id.
Qed.

Lemma on_handshake_halts e a m s :
  (on_handshake e a m s).2 = Ok tt ∨
  ((on_handshake e a m s).2 = Panic ∧ ∃ hs, peer_states s !! a = Some (ResponderWaitMsg3 hs)).
Proof.
  unfold on_handshake. destruct (peer_states s !! a) as [[hs|hs|hs|session]|]; [| | |by left..].
  - left. pose proof (NoiseHandshake.message2_not_Panic m hs) as H.
    by destruct (NoiseHandshake.process_message2_create_message3 m hs) as [? []].
  - left. pose proof (NoiseHandshake.message1_not_Panic (random e) m hs) as H.
    by destruct (NoiseHandshake.process_message1_create_message2 _ m hs) as [? []].
  - destruct (NoiseHandshake.process_message3 m hs) as [? []]; [by left|by left|]. right. eauto.
Qed.

Lemma dispatch_credits_halts e a data s :
  let r := (dispatch e a MessageType.CreditUpdate data s).2 in
  r = Ok tt ∨ r = Panic ∨ (r = Err Fault ∧ truncated (transfer_manager s)).
Proof.
  simpl. unfold on_credit_update. case_match; [|by left]. unfold mthen at 1, mtry at 1.
  destruct (slice 0 16 data) as [tid|e1|] eqn:E1; [|unfold slice in E1; repeat case_match; discriminate|by right; left].
  unfold mthen, mtry. destruct (slice 16 20 data) as [cred|e1|] eqn:E2; [|unfold slice in E2; repeat case_match; discriminate|by right; left].
  unfold on_transfers. pose proof (credit_update_ends (TransferId.from_bytes tid) (of_le cred) (transfer_manager s)) as Hu.
  destruct (TransferManager.handle_credit_update _ _ _) as [m o]. simpl in *. destruct Hu as [[r ->]|[-> Hu]]; [|by right; right].
  destruct r; auto.
Qed.

Lemma dispatch_chunk_halts e a data s :
  let r := (dispatch e a MessageType.FileChunk data s).2 in
  r = Ok tt ∨ (r = Err Fault ∧ truncated (transfer_manager s)).
Proof.
  simpl. unfold if_ok. pose proof (@wire_safe _ FileChunk.t _ _ data) as Hs. simpl in Hs.
  destruct (FileChunk.decode data) as [chunk|er|]; [|by left|done]. unfold on_transfers.
  pose proof (handle_chunk_ends chunk (transfer_manager s)) as H.
  destruct (TransferManager.handle_chunk _ _) as [m o]. simpl in *. destruct H as [(r & -> & Hr)|[-> H]]; [|by right].
  by destruct r; [left..|].
Qed.

Lemma dispatch_ack_halts e a data s :
  (dispatch e a MessageType.FileChunkAck data s).2 = Ok tt ∨ (dispatch e a MessageType.FileChunkAck data s).2 = Err Blocked.
Proof.
  simpl. unfold if_ok. pose proof (@wire_safe _ FileChunkAck.t _ _ data) as Hs. simpl in Hs.
  destruct (FileChunkAck.decode data) as [ack|er|]; [|by left|done].
  unfold on_transfers, TransferManager.handle_chunk_ack, TransferManager.pump_send.
  repeat case_match; simplify_eq; auto.
Qed.

Lemma opened_peer_ok s a f data x : inv id s → opened s a f data x → peer_ok id (Secure x).
Proof.
  intros Hs (_ & y & Hy & Hd). apply (f_equal fst) in Hd. simpl in Hd. subst x.
  apply decrypt_peer_ok. exact (inv_peers _ _ Hs _ _ Hy).
Qed.

Lemma on_frame_halts e a f s :
  inv id s → bytes_wf (Frame.payload f) →
  (on_frame e a f s).2 = Ok tt ∨ stops s (Event (Some (TransportEvent.FrameReceived a f))) (on_frame e a f s).2.
Proof.
  intros Hs Hf. destruct (on_frame_cases e a f s) as [[Hh ->]|[(data & session' & Ho & ->)|[->|(session & _ & _ & ->)]]];
    [| |by left..].
  - destruct (on_handshake_halts e a (Frame.payload f) s) as [H|[H (hs & Hhs)]]; [by left|right].
    rewrite H. by eapply stops_message3.
  - assert (bytes_wf data) as Hd by (destruct Ho as (_ & session & _ & Hd); by eapply decrypt_bytes).
    destruct (decide (FrameHeader.msg_type (Frame.header f) = MessageType.CreditUpdate)) as [Hc|Hc].
    { rewrite Hc. destruct (dispatch_credits_halts e a data (set_peer a (Secure session') s)) as [H|[H|[H Ht]]]; [by left|right..]; rewrite H.
      - by eapply stops_credits.
      - eapply stops_fault; [rewrite Hc; set_solver|done|done]. }
    destruct (decide (FrameHeader.msg_type (Frame.header f) = MessageType.FileChunkAck)) as [Ha|Ha].
    { rewrite Ha. destruct (dispatch_ack_halts e a data (set_peer a (Secure session') s)) as [H|H]; [by left|right].
      rewrite H. by eapply stops_ack. }
    destruct (decide (FrameHeader.msg_type (Frame.header f) = MessageType.FileChunk)) as [Hk|Hk].
    { rewrite Hk. destruct (dispatch_chunk_halts e a data (set_peer a (Secure session') s)) as [H|[H Ht]]; [by left|right].
      rewrite H. eapply stops_fault; [rewrite Hk; set_solver|done|done]. }
    left. apply dispatch_calm; [done..|]. apply set_peer_inv; [|done]. by eapply opened_peer_ok.
Qed.

(** C17: what can stop a node. In every reachable state, and on every input, the
    loop goes on, except that it leaves on shutdown or when the transport is gone,
    panics on a message for a peer identifier that is not 32 bytes, on the third
    message of a handshake or on a credit update of an authenticated peer, waits for
    ever on a chunk acknowledgement of an authenticated peer, and is killed by a
    fault on a chunk or a credit update of an authenticated peer when the file of
    some transfer was cut after it was mapped. *)
Theorem loop_survives `{ED : !Ed25519} (start : Z) (a : SocketAddr.t) (max : nat) (dir : bytes)
    (d : disk) (s : t) (e : Env) (i : input) :
  Identity.wf id → rtc sys_step (new start id a max dir d) s → input_wf i →
  (turn e i s).2 = Ok tt ∨ stops s i (turn e i s).2.
Proof.
  intros Hid Hr Hi. pose proof (reachable_inv start a max dir d s Hid Hr) as Hs.
  destruct i as [|c|ev|b f]; simpl; [right; constructor|apply on_command_halts| |by left].
  destruct ev as [[b|b r|b f|[b|] er]|]; simpl; [by left|by left| |by left|by left|right; constructor].
  by apply on_frame_halts.
Qed.

(** *** Frames that are not authenticated *)
Definition handshaking (s : t) (a : SocketAddr.t) : bool :=
  match peer_states s !! a with
  | Some (Secure _) | None => false
  | Some _ => true
  end.

(** The session with another replay window. *)
Definition with_window (w : ReplayWindow.t) (x : SecureSession.t) : SecureSession.t :=
  SecureSession.mk (SecureSession.send_cipher x) (SecureSession.recv_cipher x) (SecureSession.send_nonce x)
    (SecureSession.recv_nonce_max x) w (SecureSession.remote_static x).

(** At most the replay window of the session with [a] differs. *)
Definition only_window (a : SocketAddr.t) (s s' : t) : Prop :=
  s' = set_peers (peer_states s') s ∧
  (∀ b, b ≠ a → peer_states s' !! b = peer_states s !! b) ∧
  match peer_states s !! a with
  | Some (Secure x) => ∃ w, peer_states s' !! a = Some (Secure (with_window w x))
  | p => peer_states s' !! a = p
  end.

Lemma decrypt_fails_window x n c :
  is_ok (SecureSession.decrypt x n c).2 = false → ∃ w, (SecureSession.decrypt x n c).1 = with_window w x.
Proof.
  unfold SecureSession.decrypt, SecureSession.window_check. destruct (ReplayWindow.check_and_mark _ _) as [w []]; simpl; [|by eauto].
  destruct (aead_decrypt _ _ _ _); [done|]. eauto.
Qed.

Lemma only_window_refl a s : only_window a s s.
Proof.
  split_and!; [by destruct s|done|]. destruct (peer_states s !! a) as [[| | |x]|]; try done.
  exists (SecureSession.replay_window x). by destruct x.
Qed.

(** C19: only authenticated frames count. A frame that does not open under the
    session of its sender, and a handshake message of a peer that is not in a
    handshake, leaves the node as it was, up to the bits of the replay window of that
    session (its keys, its counters and the peer's key stay): no routing entry, transfer, message, command or outgoing frame comes of it, and
    the loop keeps running. *)
Theorem unauthenticated_inert (e : Env) (a : SocketAddr.t) (f : Frame.t) (s : t) :
  (∀ data session', ¬ opened s a f data session') →
  (FrameHeader.msg_type (Frame.header f) = MessageType.Handshake → handshaking s a = false) →
  ∃ s', on_event e (Some (TransportEvent.FrameReceived a f)) s = (s', Ok tt) ∧ only_window a s s'.
Proof.
  intros Ho Hh. simpl.
  destruct (on_frame_cases e a f s) as [[Ht ->]|[(data & session' & H & _)|[->|(x & Hx & Hf & ->)]]].
  - specialize (Hh Ht). unfold handshaking in Hh. unfold on_handshake.
    destruct (peer_states s !! a) as [[hs|hs|hs|x]|] eqn:Hp; try done; eexists; (split; [done|]).
    + replace (set_peer a (Secure x) (drop_peer a s)) with s; [apply only_window_refl|].
      unfold set_peer, drop_peer, set_peers. simpl. rewrite insert_delete_eq, insert_id by done. by destruct s.
    + apply only_window_refl.
  - by destruct (Ho data session').
  - eexists. split; [done|]. apply only_window_refl.
  - eexists. split; [done|]. unfold only_window. rewrite Hx. simpl. split_and!; [done| |].
    + intros b Hb. by rewrite lookup_insert_ne.
    + destruct (decrypt_fails_window x _ _ Hf) as [w ->]. exists w. by rewrite lookup_insert_eq.
Qed.
End Safety.
End NodeSafety.
