(* ===== verification/Authentic.v ===== *)
(** Messages are authentic: against a network that delivers, drops, repeats,
    reorders and makes up frames as it likes, everything a node tells its interface
    of a peer was sealed by that peer under the key of their session, and no two
    messages come from one sealing. *)
From S2P Require Import Prelude Bytes CryptoTypes WireTypes FrameCodec Replay Session Wire TransferMsg DhtMsg.
From S2P Require Import PeerId Identity Noise Float64 PeerInfo Routing Transfer Connection Transport Node NodeLaws NodeSafety.

Local Open Scope Z_scope.
Local Open Scope method_scope.

Module Authentic.
Import Node.

(** The messages of [A] the interface was told of. *)
Definition message_of (A : SocketAddr.t) (ev : ApiEvent.t) : option bytes :=
  match ev with
  | ApiEvent.MessageReceived a m => if decide (a = A) then Some m else None
  | _ => None
  end.
Definition messages_from (A : SocketAddr.t) (s : t) : list bytes := omap (message_of A) (api_events s).

(** The session with [A], while there is one, opens what was sealed under [k], and
    its window refuses the nonces in [H]; no handshake with [A] is under way. *)
Definition holds (A : SocketAddr.t) (k : bytes) (H : gset Z) (s : t) : Prop :=
  match peer_states s !! A with
  | None => True
  | Some (Secure x) => SecureSession.recv_cipher x = k ∧ ReplayWindow.refines H (SecureSession.replay_window x)
  | Some _ => False
  end.

(** Inputs that do not start another session with [A]. *)
Definition same_session (A : SocketAddr.t) (i : input) : Prop :=
  match i with
  | Command (ApiCommand.Connect a) => a ≠ A
  | Event (Some (TransportEvent.Connected a)) => a ≠ A
  | _ => True
  end.

(** [sealed] lists what the peer sealed under [k], by nonce: a frame from [A] that
    opens under [k] is one of those. This is all that is assumed of the network. *)
Definition genuine `{AE : !Aead} (A : SocketAddr.t) (k : bytes) (sealed : gmap Z bytes) (i : input) : Prop :=
  match i with
  | Event (Some (TransportEvent.FrameReceived a f)) =>
      let n := FrameHeader.request_id (Frame.header f) in
      is_u64 n ∧
      (a = A → ∀ m, aead_decrypt k (SecureSession.build_nonce n) [] (Frame.payload f) = Some m → sealed !! n = Some m)
  | _ => True
  end.

(** From [s] to [s'] the interface heard the messages of [new], each sealed under
    its nonce; none of the nonces was used before and all are used now. *)
Record hears (A : SocketAddr.t) (sealed : gmap Z bytes) (H H' : gset Z) (s s' : t) (new : list (Z * bytes)) : Prop := {
  he_messages : messages_from A s' = messages_from A s ++ new.*2;
  he_sealed : ∀ n m, (n, m) ∈ new → sealed !! n = Some m;
  he_fresh : NoDup new.*1 ∧ ∀ n, n ∈ new.*1 → n ∉ H;
  he_used : H ⊆ H' ∧ ∀ n, n ∈ new.*1 → n ∈ H'
}.

Lemma hears_nothing A sealed H H' s s' :
  messages_from A s' = messages_from A s → H ⊆ H' → hears A sealed H H' s s' [].
Proof.
  intros Hm HH. split; [by rewrite Hm, app_nil_r|by intros n m ?%elem_of_nil|split; [constructor|]|split; [done|]];
    by intros n ?%elem_of_nil.
Qed.

Lemma hears_trans A sealed H1 H2 H3 s1 s2 s3 new new' :
  hears A sealed H1 H2 s1 s2 new → hears A sealed H2 H3 s2 s3 new' → hears A sealed H1 H3 s1 s3 (new ++ new').
Proof.
  intros [M1 S1 [N1 F1] [U1 V1]] [M2 S2 [N2 F2] [U2 V2]]. split.
  - by rewrite M2, M1, fmap_app, app_assoc.
  - intros n m [?|?]%elem_of_app; eauto.
  - rewrite fmap_app, NoDup_app. split_and!; [done| |done|].
    + intros n Hn Hn'. by apply (F2 n Hn'), V1.
    + intros n [?|Hn]%elem_of_app; [by apply F1|]. intros HH. by apply (F2 n Hn), U1.
  - split; [set_solver|]. rewrite fmap_app. intros n [?|?]%elem_of_app; [by apply U2, V1|by apply V2].
Qed.

(** ** Handlers that neither tell of a message of [A] nor change what opens *)
Definition quiet (A : SocketAddr.t) (h : handler) : Prop :=
  ∀ s k H, holds A k H s → holds A k H (h s).1 ∧ messages_from A (h s).1 = messages_from A s.

Definition quietly (A : SocketAddr.t) (f : t → t) : Prop :=
  ∀ s k H, holds A k H s → holds A k H (f s) ∧ messages_from A (f s) = messages_from A s.

Lemma quietly_comp A f g : quietly A f → quietly A g → quietly A (λ s, g (f s)).
Proof. intros Hf Hg s k H Hs. destruct (Hf s k H Hs) as [H1 H2]. destruct (Hg _ k H H1) as [H3 H4]. split; congruence. Qed.

(** A function that leaves the peers and the events alone. *)
Lemma quietly_same A f :
  (∀ s, peer_states (f s) = peer_states s ∧ api_events (f s) = api_events s) → quietly A f.
Proof. intros Hf s k H Hs. destruct (Hf s) as [H1 H2]. unfold holds, messages_from in *. by rewrite H1, H2. Qed.

Lemma quiet_done A : quiet A (mdone tt).
Proof. by intros s k H Hs. Qed.

Lemma quiet_set A f : quietly A f → quiet A (mset f).
Proof. intros Hf s k H Hs. by apply Hf. Qed.

Lemma quiet_then A (h g : handler) : quiet A h → quiet A g → quiet A (h ;? g).
Proof.
  intros Hh Hg s k H Hs. unfold mthen. destruct (Hh s k H Hs) as [H1 H2]. destruct (h s) as [s' [|e|]]; simpl in *; [|done..].
  destruct (Hg s' k H H1) as [H3 H4]. split; congruence.
Qed.

Lemma quiet_if_ok A {E T} (r : result E T) (g : T → handler) : (∀ a, quiet A (g a)) → quiet A (if_ok r g).
Proof. intros Hg s k H Hs. unfold if_ok. destruct r; [by apply Hg|done..]. Qed.

Lemma quiet_try A {T} (r : result Halt T) (g : T → handler) : (∀ a, quiet A (g a)) → quiet A (let? a := mtry r in g a).
Proof. intros Hg s k H Hs. unfold mthen, mtry. destruct r; [by apply Hg|done..]. Qed.

Lemma quiet_transfers A {T} (f : TransferManager.t → TransferManager.t * outcome T) : quiet A (on_transfers f).
Proof. intros s k H Hs. unfold on_transfers. by destruct (f _). Qed.

Lemma quietly_publish A ev : message_of A ev = None → quietly A (publish ev).
Proof. intros He s k H Hs. split; [done|]. unfold messages_from. simpl. by rewrite omap_app; simpl; rewrite He, app_nil_r. Qed.

Lemma quietly_other A a p : a ≠ A → quietly A (set_peer a p).
Proof. intros Hne s k H Hs. split; [|done]. unfold holds in *. simpl. by rewrite lookup_insert_ne by done. Qed.

Lemma quietly_drop A a : quietly A (drop_peer a).
Proof.
  intros s k H Hs. split; [|done]. unfold holds in *. simpl. destruct (decide (a = A)) as [->|Hne].
  - by rewrite lookup_delete_eq.
  - by rewrite lookup_delete_ne by done.
Qed.

(** Filing the session of [A] again, with another counter. *)
Lemma quietly_session A k H s x x' :
  holds A k H s → peer_states s !! A = Some (Secure x) → SecureSession.recv_cipher x' = SecureSession.recv_cipher x →
  SecureSession.replay_window x' = SecureSession.replay_window x → holds A k H (set_peer A (Secure x') s).
Proof. unfold holds. simpl. intros Hs Hx H1 H2. rewrite lookup_insert_eq, H1, H2. by rewrite Hx in Hs. Qed.

Create HintDb quiet.
#[local] Hint Resolve quiet_done quiet_transfers quietly_drop : quiet.

Section Authentic.
Context `{SH : !Sha256, XX : !X25519, AE : !Aead, AOK : !AeadOk, LG : !Log2, HX : !HexCrate, CRC : !Crc32c}.
Context (A : SocketAddr.t).

Lemma tcp_send_quiet e a f : quietly A (λ s, (tcp_send e a f s).1).
Proof. apply quietly_same. intros s. unfold tcp_send. by destruct (TcpTransport.send_to _ _ _ _). Qed.

Lemma encrypt_receives x m :
  let x' := (SecureSession.encrypt x m).1 in
  SecureSession.recv_cipher x' = SecureSession.recv_cipher x ∧ SecureSession.replay_window x' = SecureSession.replay_window x.
Proof.
  unfold SecureSession.encrypt. simpl. destruct (_ <? _); [done|]. by destruct (aead_encrypt _ _ _ _).
Qed.

Lemma send_secure_quiet e a ty m : quietly A (λ s, (send_secure e a ty m s).1).
Proof.
  intros s k H Hs. unfold send_secure. destruct (peer_states s !! a) as [[| | |x]|] eqn:Hx; [done..| |done].
  unfold seal_and_send. destruct (encrypt_receives x m) as [E1 E2].
  destruct (SecureSession.encrypt x m) as [x' r]. cbn [fst] in E1, E2.
  assert (holds A k H (set_peer a (Secure x') s) ∧ messages_from A (set_peer a (Secure x') s) = messages_from A s) as [H1 H2].
  { destruct (decide (a = A)) as [->|Hne]; [split; [by eapply quietly_session|done]|by apply quietly_other]. }
  destruct r as [[n c]| |]; [|done..]. destruct (tcp_send_quiet e a (encrypted ty n c) _ k H H1) as [H3 H4]. split; [exact H3|exact (eq_trans H4 H2)].
Qed.

Lemma send_message_quiet e a m : quietly A (send_message e a m).
Proof.
  intros s k H Hs. unfold send_message. pose proof (send_secure_quiet e a MessageType.Data m s k H Hs) as H1. cbv beta in H1.
  destruct (send_secure _ _ _ _ _) as [s' []]; exact H1.
Qed.

Lemma ask_all_quiet e m : quietly A (ask_all e m).
Proof.
  intros s k H Hs. unfold ask_all. generalize (map_to_list (peer_states s)). intros l. revert s Hs.
  induction l as [|p l IH]; intros s Hs; [done|]. simpl. destruct (send_secure_quiet e p.1 MessageType.FindNode m s k H Hs) as [H1 H2].
  destruct (IH _ H1) as [H3 H4]. split; [exact H3|exact (eq_trans H4 H2)].
Qed.

Lemma connect_peer_id_quiet e id : quietly A (connect_peer_id e id).
Proof. intros s k H Hs. unfold connect_peer_id. case_match; [done|]. exact (ask_all_quiet e _ s k H Hs). Qed.

Lemma table_insert_quiet e id a : quiet A (table_insert e id a).
Proof. intros s k H Hs. unfold table_insert. by destruct (RoutingTable.insert _ _ _ _). Qed.

Lemma dial_quiet e a : a ≠ A → quietly A (dial e a).
Proof.
  intros Hne s k H Hs. unfold dial. destruct (TcpTransport.connect _ _ _ _) as [tcp [[]| |]]; [|done..].
  destruct (NoiseHandshake.create_message1 _ _) as [hs [msg| |]]; [|done..].
  pose proof (tcp_send_quiet e a (Frame.new MessageType.Handshake Flags.empty 0 msg) (set_tcp tcp s) k H Hs) as H1. cbv beta in H1.
  destruct (tcp_send _ _ _ _) as [s' []]; [|done]. destruct H1 as [H1 H2].
  destruct (quietly_other A a (InitiatorWaitMsg2 hs) Hne s' k H H1) as [H3 H4]. split; [exact H3|exact (eq_trans H4 H2)].
Qed.

Lemma finish_handshake_quiet e a hs : a ≠ A → quietly A (finish_handshake e a hs).
Proof.
  intros Hne s k H Hs. unfold finish_handshake. destruct (NoiseHandshake.into_session_keys hs) as [keys| |]; [|done..].
  destruct (SecureSession.from_keys keys) as [x| |]; [|done..].
  unfold seal_and_send. destruct (SecureSession.encrypt x _) as [x' r].
  destruct (quietly_other A a (Secure x') Hne s k H Hs) as [H1 H2].
  destruct r as [[n c]| |]; [|done..]. destruct (tcp_send_quiet e a (encrypted MessageType.Ping n c) _ k H H1) as [H3 H4].
  split; [exact H3|exact (eq_trans H4 H2)].
Qed.

#[local] Hint Resolve send_secure_quiet send_message_quiet connect_peer_id_quiet table_insert_quiet dial_quiet : quiet.

(** A message of the handshake: for another peer, or for one that is in none. *)
Lemma on_handshake_quiet e a m : quiet A (on_handshake e a m).
Proof.
  intros s k H Hs. unfold on_handshake. destruct (peer_states s !! a) as [p|] eqn:Hp; [|done].
  destruct (decide (a = A)) as [->|Hne].
  - unfold holds in Hs. rewrite Hp in Hs. destruct p as [| | |x]; [done..|]. split; [|done].
    unfold holds. simpl. by rewrite lookup_insert_eq.
  - pose proof (quietly_drop A a s k H Hs) as Hd.
    assert (∀ msg, holds A k H (send_handshake e a msg (drop_peer a s)) ∧
      messages_from A (send_handshake e a msg (drop_peer a s)) = messages_from A s) as Hsend.
    { intros msg. destruct (tcp_send_quiet e a (Frame.new MessageType.Handshake Flags.empty 0 msg) _ k H (proj1 Hd)) as [H1 H2].
      split; [exact H1|]. etrans; [exact H2|apply Hd]. }
    destruct p as [hs|hs|hs|x].
    + destruct (NoiseHandshake.process_message2_create_message3 m hs) as [hs' [msg| |]]; [|done..].
      destruct (Hsend msg) as [H1 H2]. destruct (finish_handshake_quiet e a hs' Hne _ k H H1) as [H3 H4]. split; [done|by etrans].
    + destruct (NoiseHandshake.process_message1_create_message2 _ m hs) as [hs' [msg| |]]; [|done..].
      destruct (Hsend msg) as [H1 H2]. destruct (quietly_other A a (ResponderWaitMsg3 hs') Hne _ k H H1) as [H3 H4]. split; [done|by etrans].
    + destruct (NoiseHandshake.process_message3 m hs) as [hs' [[]| |]]; [|done..].
      destruct (finish_handshake_quiet e a hs' Hne _ k H (proj1 Hd)) as [H3 H4]. split; [done|]. etrans; [exact H4|apply Hd].
    + destruct (quietly_other A a (Secure x) Hne _ k H (proj1 Hd)) as [H3 H4]. split; [done|]. etrans; [exact H4|apply Hd].
Qed.

Lemma on_find_node_resp_quiet e ps : quiet A (on_find_node_resp e ps).
Proof.
  induction ps as [|p ps IH]; simpl; [apply quiet_done|]. apply quiet_then; [|done].
  apply quiet_then; [apply table_insert_quiet|]. apply quiet_set, quietly_same. intros s. by case_match.
Qed.

(** What a payload of [a] does, a message of [A] apart. *)
Lemma dispatch_quiet e a ty data : (a = A → ty ≠ MessageType.Data) → quiet A (dispatch e a ty data).
Proof.
  intros Hd. unfold dispatch. destruct ty; auto with quiet; try (apply quiet_if_ok; intros ?; auto with quiet).
  - unfold on_ping. case_match; [|apply quiet_done]. apply quiet_then; [apply table_insert_quiet|].
    apply quiet_set. intros s k ? Hs. by apply send_secure_quiet.
  - unfold on_pong. case_match; auto with quiet.
  - apply quiet_set. intros s k ? Hs. by apply send_secure_quiet.
  - apply on_find_node_resp_quiet.
  - apply quiet_set, quietly_publish. simpl. rewrite decide_False; [done|]. intros ->. by apply Hd.
  - unfold on_credit_update. case_match; [|apply quiet_done]. apply quiet_try. intros. apply quiet_try. intros. apply quiet_transfers.
  - apply quiet_then; [|apply quiet_transfers]. by apply quiet_set, quietly_publish.
Qed.

(** ** What opens *)
Lemma decrypt_window H x n c :
  ReplayWindow.refines H (SecureSession.replay_window x) → is_u64 n →
  ∃ H', let '(x', r) := SecureSession.decrypt x n c in
    H ⊆ H' ∧ SecureSession.recv_cipher x' = SecureSession.recv_cipher x ∧
    ReplayWindow.refines H' (SecureSession.replay_window x') ∧
    ∀ m, r = Ok m →
      (n ∉ H) ∧ n ∈ H' ∧ aead_decrypt (SecureSession.recv_cipher x) (SecureSession.build_nonce n) [] c = Some m.
Proof.
  intros Hr Hn.
  destruct (ReplayWindow.spec_step (ReplayWindow.max_nonce (SecureSession.replay_window x)) H n) as [[mx H'] ok] eqn:Hs.
  destruct (ReplayWindow.check_and_mark_refines _ _ _ _ _ _ Hr Hn Hs) as (w' & Hw & _ & Hr'). exists H'.
  unfold SecureSession.decrypt, SecureSession.window_check. rewrite Hw. unfold ReplayWindow.spec_step in Hs.
  case_decide as Ha; simplify_eq; simpl; [|by split_and!].
  assert (n ∉ H) by (destruct Ha as [Ha|(_ & _ & Ha)]; [intros Hin; pose proof (ReplayWindow.rf_below _ _ Hr _ Hin); lia|done]).
  destruct (aead_decrypt _ _ _ _) eqn:Hd; (split_and!; [set_solver|done|done|]); intros m' Hm; simplify_eq.
  split_and!; [done|set_solver|done].
Qed.

Lemma message_hears sealed H H' s n m :
  n ∉ H → n ∈ H' → H ⊆ H' → sealed !! n = Some m → hears A sealed H H' s (publish (ApiEvent.MessageReceived A m) s) [(n, m)].
Proof.
  intros Hn Hn' HH Hs. split.
  - unfold messages_from. simpl. rewrite omap_app. simpl. by rewrite decide_True.
  - by intros ? ? [= -> ->]%list_elem_of_singleton.
  - split; [apply NoDup_singleton|]. by intros ? ->%list_elem_of_singleton.
  - split; [done|]. by intros ? ->%list_elem_of_singleton.
Qed.

(** What the state of [s] says of its messages does not depend on its peers. *)
Lemma hears_from sealed H H' s s0 s' new :
  messages_from A s0 = messages_from A s → hears A sealed H H' s0 s' new → hears A sealed H H' s s' new.
Proof. intros Hm [M S F U]. split; [by rewrite M, Hm|done..]. Qed.

Lemma on_frame_hears e f s k H sealed :
  holds A k H s → genuine A k sealed (Event (Some (TransportEvent.FrameReceived A f))) →
  ∃ H' new, holds A k H' (on_frame e A f s).1 ∧ hears A sealed H H' s (on_frame e A f s).1 new.
Proof.
  intros Hs [Hn Hg]. specialize (Hg eq_refl). unfold on_frame.
  assert (∃ H' new, holds A k H' s ∧ hears A sealed H H' s s new) as Hnone by (exists H, []; split; [done|by apply hears_nothing]).
  case_bool_decide as Hty.
  { destruct (on_handshake_quiet e A (Frame.payload f) s k H Hs) as [H1 H2]. exists H, []. split; [done|by apply hears_nothing]. }
  destruct (peer_states s !! A) as [[| | |x]|] eqn:Hx; try exact Hnone.
  destruct (Flags.is_encrypted _); [|exact Hnone]. unfold holds in Hs. rewrite Hx in Hs. destruct Hs as [Hk Hr].
  destruct (decrypt_window H x _ (Frame.payload f) Hr Hn) as (H' & Hd). destruct (SecureSession.decrypt x _ _) as [x' r].
  destruct Hd as (HH & Hk' & Hr' & Hok). set (s1 := set_peer A (Secure x') s).
  assert (holds A k H' s1) as H1 by (unfold holds; simpl; rewrite lookup_insert_eq, Hk'; done).
  assert (∃ H2 new, holds A k H2 s1 ∧ hears A sealed H H2 s s1 new) as Hskip by (exists H', []; split; [done|by apply hears_nothing]).
  destruct r as [m| |]; [|exact Hskip..]. destruct (Hok m eq_refl) as (F1 & F2 & F3). rewrite Hk in F3.
  destruct (decide (FrameHeader.msg_type (Frame.header f) = MessageType.Data)) as [->|Hnd].
  - cbn [dispatch]. unfold if_ok, from_utf8. destruct (utf8_valid m); [|exact Hskip].
    eexists H', [(FrameHeader.request_id (Frame.header f), m)]. split; [exact H1|].
    eapply (hears_from _ _ _ s s1); [done|]. apply message_hears; auto.
  - destruct (dispatch_quiet e A _ m (λ _, Hnd) s1 k H' H1) as [H2 H3]. exists H', []. split; [done|by apply hears_nothing].
Qed.

Lemma on_frame_quiet e a f : a ≠ A → quiet A (on_frame e a f).
Proof.
  intros Hne s k H Hs. unfold on_frame. case_bool_decide as Hty; [by apply on_handshake_quiet|].
  destruct (peer_states s !! a) as [[| | |x]|]; try done. destruct (Flags.is_encrypted _); [|done].
  destruct (SecureSession.decrypt x _ _) as [x' r]. destruct (quietly_other A a (Secure x') Hne s k H Hs) as [H1 H2].
  destruct r as [m| |]; [|done..].
  destruct (dispatch_quiet e a (FrameHeader.msg_type (Frame.header f)) m (λ E, False_ind _ (Hne E)) _ k H H1) as [H3 H4].
  split; [exact H3|exact (eq_trans H4 H2)].
Qed.

Lemma turn_quiet e i :
  same_session A i → (∀ f, i ≠ Event (Some (TransportEvent.FrameReceived A f))) → quiet A (turn e i).
Proof.
  intros Hi Hf s k H Hs. destruct i as [|[a|hex|a path|a m|hex m]|[[a|a r|a f|[a|] er]|]|a f]; simpl in *; try done.
  - by apply dial_quiet.
  - repeat (case_match; try done). by apply connect_peer_id_quiet.
  - case_match; [|done]. by apply quiet_transfers.
  - by apply send_message_quiet.
  - repeat (case_match; try done). by apply send_message_quiet.
  - unfold on_connected. destruct (quietly_publish A (ApiEvent.PeerConnected a) eq_refl s k H Hs) as [H1 H2].
    case_match; [done|]. destruct (quietly_other A a (ResponderWaitMsg1 (NoiseHandshake.new_responder (identity s))) Hi _ k H H1) as [H3 H4].
    split; [exact H3|exact (eq_trans H4 H2)].
  - by apply (quietly_comp A _ _ (quietly_publish A (ApiEvent.PeerDisconnected a r) eq_refl) (quietly_drop A a)).
  - apply on_frame_quiet; [|done]. intros ->. by eapply Hf.
  - by apply quietly_drop.
  - by apply send_secure_quiet.
Qed.

Lemma turn_hears e i s k H sealed :
  holds A k H s → same_session A i → genuine A k sealed i →
  ∃ H' new, holds A k H' (turn e i s).1 ∧ hears A sealed H H' s (turn e i s).1 new.
Proof.
  intros Hs Hi Hg.
  assert ((∃ f, i = Event (Some (TransportEvent.FrameReceived A f))) ∨ ∀ f, i ≠ Event (Some (TransportEvent.FrameReceived A f)))
    as [(f & ->)|Hf].
  { destruct i as [| |[[| |a f|]|]|]; try (right; done). destruct (decide (a = A)) as [->|]; [eauto|]. right. congruence. }
  - by apply on_frame_hears.
  - destruct (turn_quiet e i Hi Hf s k H Hs) as [H1 H2]. exists H, []. split; [done|by apply hears_nothing].
Qed.

Lemma run_hears k sealed inputs : ∀ s H,
  holds A k H s → Forall (λ x, same_session A x.2 ∧ genuine A k sealed x.2) inputs →
  ∃ H' new, holds A k H' (run inputs s).1 ∧ hears A sealed H H' s (run inputs s).1 new.
Proof.
  induction inputs as [|[e i] inputs IH]; intros s H Hs Hin.
  - exists H, []. split; [done|]. by apply hears_nothing.
  - apply Forall_cons in Hin as [[Hi Hg] Hin]. destruct (turn_hears e i s k H sealed Hs Hi Hg) as (H1 & new & Hs1 & Hh).
    cbn [run]. unfold mthen. destruct (turn e i s) as [s1 [[]| |]]; [|by exists H1, new..]. cbn [fst] in Hs1, Hh.
    destruct (IH s1 H1 Hs1 Hin) as (H2 & new' & Hs2 & Hh'). exists H2, (new ++ new'). split; [done|by eapply hears_trans].
Qed.
End Authentic.

(** Messages are authentic, and none is delivered twice. Let a node hold a
    session with [A], and let anything happen to it: commands, events of other
    peers, and frames from [A] that the network drops, repeats, reorders, delays or
    makes up, as long as no other session with [A] is started. If the frames that
    open under the session's key are among those the peer sealed (by nonce, [sealed]),
    then the messages of [A] the interface is told of, until the loop ends or not,
    are payloads the peer sealed, under nonces that are all different and that the
    session had not accepted before. *)
Lemma messages_authentic `{SH : !Sha256, XX : !X25519, AE : !Aead, AOK : !AeadOk, LG : !Log2, HX : !HexCrate, CRC : !Crc32c}
    (A : SocketAddr.t) (b : Node.t) (x : SecureSession.t) (H : gset Z) (sealed : gmap Z bytes) (inputs : list (Env * input)) :
  peer_states b !! A = Some (Secure x) → ReplayWindow.refines H (SecureSession.replay_window x) →
  Forall (λ i, same_session A i.2 ∧ genuine A (SecureSession.recv_cipher x) sealed i.2) inputs →
  ∃ new : list (Z * bytes),
    messages_from A (run inputs b).1 = messages_from A b ++ new.*2 ∧
    NoDup new.*1 ∧ (∀ n m, (n, m) ∈ new → sealed !! n = Some m ∧ n ∉ H).
Proof.
  intros Hx Hr Hin. assert (holds A (SecureSession.recv_cipher x) H b) as Hs by (unfold holds; by rewrite Hx).
  destruct (run_hears A _ sealed inputs b H Hs Hin) as (H' & new & _ & [M S [N F] _]).
  exists new. split_and!; [done|done|]. intros n m Hnm. split; [by apply S|]. apply F, list_elem_of_fmap. by exists (n, m).
Qed.
End Authentic.
