(* ===== verification/Agreement.v ===== *)
(** Two nodes and a hostile network agree: what one node's loop puts on the channel
    of a peer is sealed under nonces that only grow, whatever the loop is given, so
    every message the peer's interface is told of answers to one frame of its own. *)
From S2P Require Import Prelude Bytes CryptoTypes WireTypes FrameCodec Replay Session Wire TransferMsg DhtMsg.
From S2P Require Import PeerId Identity Noise Float64 PeerInfo Routing Transfer Connection Transport Node NodeLaws Network Authentic.

Local Open Scope Z_scope.
Local Open Scope method_scope.

Module Agreement.
Import Node SessionPair NodeLaws Queues Authentic.

(** [f] carries [m], sealed under [k] and the nonce in its header. *)
Definition carries `{AE : !Aead} (k : bytes) (f : Frame.t) (m : bytes) : Prop :=
  aead_encrypt k (SecureSession.build_nonce (FrameHeader.request_id (Frame.header f))) [] m = Some (Frame.payload f).

(** Frames sealed under growing nonces, from [n] up to [n'], which is not used. *)
Inductive chain `{AE : !Aead} (k : bytes) : Z → Z → list Frame.t → Prop :=
| chain_nil n n' : n ≤ n' → chain k n n' []
| chain_cons n n' f fs m :
    n ≤ FrameHeader.request_id (Frame.header f) → carries k f m →
    chain k (FrameHeader.request_id (Frame.header f) + 1) n' fs → chain k n n' (f :: fs).

Lemma chain_le `{AE : !Aead} k n n' fs : chain k n n' fs → n ≤ n'.
Proof. induction 1; lia. Qed.

Lemma chain_weaken `{AE : !Aead} k n0 n n' fs : n0 ≤ n → chain k n n' fs → chain k n0 n' fs.
Proof. intros Hn H. destruct H; [constructor; lia|econstructor; [|done|done]; lia]. Qed.

Lemma chain_app `{AE : !Aead} k n n1 n2 fs gs : chain k n n1 fs → chain k n1 n2 gs → chain k n n2 (fs ++ gs).
Proof. induction 1; intros Hg; simpl; [by eapply chain_weaken|econstructor; eauto]. Qed.

(** Its frames have different nonces. *)
Lemma chain_nonces `{AE : !Aead} k n n' fs :
  chain k n n' fs →
  NoDup ((λ f, FrameHeader.request_id (Frame.header f)) <$> fs) ∧
  ∀ f, f ∈ fs → n ≤ FrameHeader.request_id (Frame.header f) < n' ∧ ∃ m, carries k f m.
Proof.
  induction 1 as [|n n' f fs m Hn Hc Hch [IH1 IH2]]; [split; [constructor|by intros f ?%elem_of_nil]|]. pose proof (chain_le _ _ _ _ Hch). split.
  - rewrite fmap_cons. constructor; [|done]. intros (g & Hg & Hin)%list_elem_of_fmap. apply IH2 in Hin as [? _]. lia.
  - intros g [->|Hin]%elem_of_cons; [split; [lia|by eexists]|]. apply IH2 in Hin as [? ?]. split; [lia|done].
Qed.

Section Agreement.
Context `{SH : !Sha256, XX : !X25519, AE : !Aead, AOK : !AeadOk, LG : !Log2, HX : !HexCrate, CRC : !Crc32c}.
Context (B : SocketAddr.t) (k : bytes).

(** Every channel filed under an address is that address's. *)
Definition filed (x : TcpTransport.t) : Prop :=
  ∀ a i, TcpTransport.peer_senders x !! a = Some i → ∃ c, TcpTransport.conns x !! i = Some c ∧ Conn.peer_addr c = a.

(** The session with [B], while there is one, seals under [k], next with [n]. *)
Definition sess (n : Z) (s : t) : Prop :=
  filed (tcp_transport s) ∧
  match peer_states s !! B with
  | None => True
  | Some (Secure x) => SecureSession.send_cipher x = k ∧ SecureSession.send_nonce x = n
  | Some _ => False
  end.

(** Up to [c] sealings for [B]: what goes on its channel is a chain. *)
Definition seals (c : Z) (f : t → t) : Prop :=
  ∀ s n l, sess n s → 0 ≤ n → n + c < 2 ^ 64 → outbox B s = Some l →
    ∃ n' fs, sess n' (f s) ∧ n ≤ n' ≤ n + c ∧ outbox B (f s) = Some (l ++ fs) ∧ chain k n n' fs.

Lemma seals_comp c d f g : 0 ≤ c → 0 ≤ d → seals c f → seals d g → seals (c + d) (λ s, g (f s)).
Proof.
  intros Hc Hd Hf Hg s n l Hs Hn Hb Ho. destruct (Hf s n l) as (n1 & fs & S1 & N1 & O1 & C1); [done|done|lia|done|].
  destruct (Hg (f s) n1 (l ++ fs)) as (n2 & gs & S2 & N2 & O2 & C2); [done|lia|lia|done|].
  exists n2, (fs ++ gs). split_and!; [done|lia|lia|by rewrite app_assoc|by eapply chain_app].
Qed.

Lemma seals_more c d f : c ≤ d → seals c f → seals d f.
Proof.
  intros Hd Hf s n l Hs Hn Hb Ho. destruct (Hf s n l) as (n1 & fs & S1 & N1 & O1 & C1); [done|done|lia|done|].
  exists n1, fs. split_and!; [done|lia|lia|done|done].
Qed.

(** A function that leaves the transport and the session with [B] alone, or drops it. *)
Lemma seals_none f :
  (∀ s, tcp_transport (f s) = tcp_transport s) →
  (∀ s, peer_states (f s) !! B = peer_states s !! B ∨ peer_states (f s) !! B = None) → seals 0 f.
Proof.
  intros Ht Hp s n l [Hf Hs] Hn Hb Ho. exists n, []. rewrite app_nil_r. split_and!; [|lia|lia| |by constructor].
  - split; [by rewrite Ht|]. destruct (Hp s) as [->| ->]; [exact Hs|done].
  - unfold outbox. by rewrite Ht.
Qed.

(** Nothing happens. *)
Lemma seals_idle s n l : sess n s → 0 ≤ n → n + 1 < 2 ^ 64 → outbox B s = Some l →
  ∃ n' fs, sess n' s ∧ n ≤ n' ≤ n + 1 ∧ outbox B s = Some (l ++ fs) ∧ chain k n n' fs.
Proof. intros Hs Hn Hb Ho. exists n, []. rewrite app_nil_r. split_and!; [done|lia|lia|done|by constructor]. Qed.

Lemma seals_same f : (∀ s, tcp_transport (f s) = tcp_transport s) → (∀ s, peer_states (f s) = peer_states s) → seals 0 f.
Proof. intros H1 H2. apply seals_none; [done|]. intros s. left. by rewrite H2. Qed.

(** Sending to someone else. *)
Lemma tcp_send_elsewhere e a f : a ≠ B → seals 0 (λ s, (tcp_send e a f s).1).
Proof.
  intros Hne s n l [Hf Hs] Hn Hb Ho. exists n, []. rewrite app_nil_r.
  unfold tcp_send, TcpTransport.send_to. destruct (TcpTransport.peer_senders (tcp_transport s) !! a) as [i|] eqn:Ea; simpl;
    [|by split_and!; [split|lia|lia|exact Ho|constructor]].
  destruct (TcpTransport.channel_send i f (tcp_transport s)) as [x|] eqn:E; simpl; [|by split_and!; [split|lia|lia|exact Ho|constructor]].
  apply TcpLaws.channel_send_frame in E as (_ & _ & Hps & _ & c & Hc & Hw & Hm).
  destruct (Hf a i Ea) as (c' & Hc' & Hadr). rewrite Hc in Hc'. injection Hc' as <-.
  assert (∀ j d, TcpTransport.conns (tcp_transport s) !! j = Some d → ∃ d', TcpTransport.conns x !! j = Some d' ∧ Conn.peer_addr d' = Conn.peer_addr d) as Hx.
  { intros j d Hd. rewrite Hm. destruct (decide (i = j)) as [<-|]; [rewrite lookup_insert_eq|rewrite lookup_insert_ne by done; by eauto].
    rewrite Hc in Hd. injection Hd as <-. by eauto. }
  split_and!; [|lia|lia| |by constructor].
  - split; [|done]. intros b j. simpl. rewrite Hps. intros Hbj. destruct (Hf b j Hbj) as (d & Hd & Hda).
    destruct (Hx j d Hd) as (d' & ? & ?). exists d'. split; [done|congruence].
  - unfold outbox in *. simpl. rewrite Hps. destruct (TcpTransport.peer_senders (tcp_transport s) !! B) as [j|] eqn:Ej; [|done]. simpl in *.
    rewrite Hm. rewrite lookup_insert_ne; [done|]. intros ->. destruct (Hf B j Ej) as (d & Hd & Hda). congruence.
Qed.

Lemma outbox_sent e f s l :
  filed (tcp_transport s) → outbox B s = Some l →
  filed (tcp_transport (tcp_send e B f s).1) ∧ outbox B (tcp_send e B f s).1 = Some (l ++ [f]) ∧
  peer_states (tcp_send e B f s).1 = peer_states s.
Proof.
  intros Hf Ho. pose proof (tcp_send_extends e B f s) as [_ [Hps _ _] Hx]. destruct (tcp_send_outbox e B f s l Ho) as (x & E & Ho').
  rewrite E in *. cbn [fst] in *. split_and!; [|done|done]. intros a i. rewrite Hps. intros Hi.
  destruct (Hf a i Hi) as (c & Hc & Ha). destruct (Hx i c Hc) as (gs & Hg). by exists (push gs c).
Qed.

(** *** Sealing *)
Lemma encrypt_cases x m :
  let '(x', r) := SecureSession.encrypt x m in
  SecureSession.send_cipher x' = SecureSession.send_cipher x ∧
  SecureSession.send_nonce x' = wrap 64 (SecureSession.send_nonce x + 1) ∧
  ∀ n c, r = Ok (n, c) →
    n = SecureSession.send_nonce x ∧ aead_encrypt (SecureSession.send_cipher x) (SecureSession.build_nonce n) [] m = Some c.
Proof.
  unfold SecureSession.encrypt. simpl. destruct (_ <? _); [by split_and!|].
  destruct (aead_encrypt _ _ _ _) as [c|] eqn:E; split_and!; try done. by intros n c' [= <- <-].
Qed.

Lemma set_peer_other a p : a ≠ B → seals 0 (set_peer a p).
Proof. intros Hne. apply seals_none; [done|]. intros s. left. simpl. by rewrite lookup_insert_ne. Qed.

Lemma drop_peer_seals a : seals 0 (drop_peer a).
Proof.
  apply seals_none; [done|]. intros s. simpl. destruct (decide (a = B)) as [->|]; [right; apply lookup_delete_eq|left].
  by rewrite lookup_delete_ne.
Qed.

Lemma seal_and_send_other e a ty m x : a ≠ B → seals 0 (λ s, (seal_and_send e a ty m x s).1).
Proof.
  intros Hne s n l Hs Hn Hb Ho. unfold seal_and_send. destruct (SecureSession.encrypt x m) as [x' r].
  destruct r as [[n0 c]| |]; [|by apply (set_peer_other a (Secure x') Hne s n l)..].
  apply (seals_comp 0 0 (set_peer a (Secure x')) (λ s, (tcp_send e a (encrypted ty n0 c) s).1)); try done; [by apply set_peer_other|by apply tcp_send_elsewhere].
Qed.

Lemma send_secure_elsewhere e a ty m : a ≠ B → seals 0 (λ s, (send_secure e a ty m s).1).
Proof.
  intros Hne s n l Hs Hn Hb Ho. unfold send_secure.
  destruct (peer_states s !! a) as [[| | |x]|]; [..|by apply (seal_and_send_other e a ty m x Hne s n l)|];
    (exists n, []; rewrite app_nil_r; split_and!; [done|lia|lia|done|by constructor]).
Qed.

Lemma send_secure_seals e a ty m : seals 1 (λ s, (send_secure e a ty m s).1).
Proof.
  intros s n l Hs Hn Hb Ho. unfold send_secure. destruct (decide (a = B)) as [->|Hne].
  - destruct Hs as [Hf Hs]. destruct (peer_states s !! B) as [[| | |x]|] eqn:Hx; [done..| |].
    2: { exists n, []. rewrite app_nil_r. split_and!; [split; [done|]; simpl; by rewrite Hx|lia|lia|done|by constructor]. }
    destruct Hs as [Hk Hn0]. unfold seal_and_send. pose proof (encrypt_cases x m) as He.
    destruct (SecureSession.encrypt x m) as [x' r]. destruct He as (E1 & E2 & E3). rewrite Hn0 in *.
    rewrite wrap_small in E2 by (split; lia).
    destruct r as [[n0 c]| |].
    + destruct (E3 n0 c eq_refl) as [-> Hc]. rewrite Hk in Hc.
      destruct (outbox_sent e (encrypted ty n c) (set_peer B (Secure x') s) l Hf Ho) as (F1 & F2 & F3).
      exists (n + 1), [encrypted ty n c]. split_and!; [|lia|lia|done|].
      * split; [done|]. cbn [fst]. rewrite F3. simpl. rewrite lookup_insert_eq. split; congruence.
      * econstructor; [simpl; lia|exact Hc|]. constructor. simpl. lia.
    + exists (n + 1), []. rewrite app_nil_r. split_and!; [|lia|lia|exact Ho|constructor; lia].
      split; [done|]. simpl. rewrite lookup_insert_eq. split; congruence.
    + exists (n + 1), []. rewrite app_nil_r. split_and!; [|lia|lia|exact Ho|constructor; lia].
      split; [done|]. simpl. rewrite lookup_insert_eq. split; congruence.
  - assert (seals 1 (λ s, (send_secure e a ty m s).1)) as H by (apply (seals_more 0); [lia|by apply send_secure_elsewhere]).
    by apply (H s n l).
Qed.

Lemma send_message_seals e a m : seals 1 (send_message e a m).
Proof.
  intros s n l Hs Hn Hb Ho. destruct (send_secure_seals e a MessageType.Data m s n l Hs Hn Hb Ho) as (n' & fs & H1 & H2 & H3 & H4).
  exists n', fs. cbv beta in H1, H3. unfold send_message. destruct (send_secure _ _ _ _ _) as [s' []]; split_and!; (exact H1 || exact H3 || done || lia).
Qed.

(** A request to everyone: one sealing for [B]. *)
Lemma ask_fold_seals e m (ps : list (SocketAddr.t * PeerState)) :
  NoDup ps.*1 → seals (if decide (B ∈ ps.*1) then 1 else 0) (λ s, fold_left (λ s p, (send_secure e p.1 MessageType.FindNode m s).1) ps s).
Proof.
  induction ps as [|[a q] ps IH]; intros Hnd; [by apply seals_same|]. rewrite fmap_cons in Hnd |- *. apply NoDup_cons in Hnd as [Hnin Hnd].
  specialize (IH Hnd). cbn [fst] in *. cbn [fold_left fst]. destruct (decide (a = B)) as [->|Hne].
  - rewrite decide_True by set_solver. rewrite decide_False in IH by done.
    apply (seals_comp 1 0 (λ s, (send_secure e B MessageType.FindNode m s).1)); [lia|lia|apply send_secure_seals|exact IH].
  - assert ((if decide (B ∈ a :: ps.*1) then 1 else 0) = 0 + (if decide (B ∈ ps.*1) then 1 else 0)) as ->.
    { destruct (decide (B ∈ ps.*1)); [rewrite decide_True by set_solver|rewrite decide_False by set_solver]; done. }
    apply (seals_comp 0 _ (λ s, (send_secure e a MessageType.FindNode m s).1)); [lia|by case_decide|by apply send_secure_elsewhere|exact IH].
Qed.

Lemma ask_all_seals e m : seals 1 (ask_all e m).
Proof.
  intros s n l Hs Hn Hb Ho. unfold ask_all.
  pose proof (ask_fold_seals e m (map_to_list (peer_states s)) (NoDup_fst_map_to_list _)) as H.
  eapply seals_more in H; [by apply (H s n l)|]. case_decide; lia.
Qed.

(** *** Handlers *)
Definition hseals (c : Z) (h : handler) : Prop := seals c (λ s, (h s).1).

Lemma hseals_then c d (h g : handler) : 0 ≤ c → 0 ≤ d → hseals c h → hseals d g → hseals (c + d) (h ;? g).
Proof.
  intros Hc Hd Hh Hg s n l Hs Hn Hb Ho. destruct (Hh s n l) as (n1 & fs & S1 & N1 & O1 & C1); [done|done|lia|done|].
  cbv beta in *. unfold mthen. destruct (h s) as [s1 [u| |]]; cbn [fst] in *;
    [|exists n1, fs; split_and!; [done|lia|lia|done|done]..].
  destruct (Hg s1 n1 (l ++ fs)) as (n2 & gs & S2 & N2 & O2 & C2); [done|lia|lia|done|].
  exists n2, (fs ++ gs). split_and!; [done|lia|lia|by rewrite app_assoc|by eapply chain_app].
Qed.

Lemma hseals_set c f : seals c f → hseals c (mset f).
Proof. done. Qed.
Lemma hseals_done : hseals 0 (mdone tt).
Proof. by apply seals_same. Qed.
Lemma hseals_transfers {T} (f : TransferManager.t → TransferManager.t * outcome T) : hseals 0 (on_transfers f).
Proof. by apply seals_same; intros s; unfold on_transfers; destruct (f _). Qed.
Lemma hseals_if_ok {E T} c (r : result E T) (g : T → handler) : 0 ≤ c → (∀ a, hseals c (g a)) → hseals c (if_ok r g).
Proof.
  intros Hc Hg. unfold if_ok. destruct r as [a| |]; [apply Hg|..]; by apply (seals_more 0); [|apply seals_same].
Qed.
Lemma hseals_try {T} c (r : result Halt T) (g : T → handler) : 0 ≤ c → (∀ a, hseals c (g a)) → hseals c (let? a := mtry r in g a).
Proof.
  intros Hc Hg. unfold mthen, mtry. destruct r as [a| |]; [apply Hg|..]; by apply (seals_more 0); [|apply seals_same].
Qed.
Lemma table_insert_seals e id a : hseals 0 (table_insert e id a).
Proof. by apply seals_same; intros s; unfold table_insert; destruct (RoutingTable.insert _ _ _ _). Qed.
Lemma publish_seals ev : seals 0 (publish ev).
Proof. by apply seals_same. Qed.

Lemma connect_peer_id_seals e id : seals 1 (connect_peer_id e id).
Proof.
  intros s n l Hs Hn Hb Ho. unfold connect_peer_id. destruct (RoutingTable.get id (routing_table s)) as [p|].
  - exists n, []. rewrite app_nil_r. split_and!; [done|lia|lia|done|by constructor].
  - destruct (ask_all_seals e (FindNode.encode (FindNode.mk (PeerId.as_bytes id))) s n l Hs Hn Hb Ho) as (n' & fs & H1 & H2 & H3 & H4).
    by exists n', fs.
Qed.

Lemma finish_handshake_seals e a hs : a ≠ B → seals 0 (finish_handshake e a hs).
Proof.
  intros Hne s n l Hs Hn Hb Ho. unfold finish_handshake.
  destruct (NoiseHandshake.into_session_keys hs) as [keys| |]; [destruct (SecureSession.from_keys keys) as [x| |]|..];
    try (exists n, []; rewrite app_nil_r; split_and!; [done|lia|lia|done|by constructor]).
  by apply (seal_and_send_other e a MessageType.Ping _ x Hne s n l).
Qed.

Lemma on_handshake_seals e a m : hseals 0 (on_handshake e a m).
Proof.
  destruct (decide (a = B)) as [->|Hne].
  - intros s n l [Hf Hs] Hn Hb Ho. exists n, []. rewrite app_nil_r. cbv beta. unfold on_handshake.
    destruct (peer_states s !! B) as [[| | |x]|] eqn:Hx; [done..| |]; simpl.
    + split_and!; [|lia|lia|exact Ho|by constructor]. split; [done|]. simpl. by rewrite lookup_insert_eq.
    + split_and!; [|lia|lia|exact Ho|by constructor]. split; [done|]. by rewrite Hx.
  - assert (∀ p msg, seals 0 (λ s, set_peer a p (send_handshake e a msg (drop_peer a s)))) as Hsend.
    { intros p msg. apply (seals_comp 0 0 (λ s, send_handshake e a msg (drop_peer a s))); [done|done| |by apply set_peer_other].
      apply (seals_comp 0 0 (drop_peer a)); [done|done|apply drop_peer_seals|by apply tcp_send_elsewhere]. }
    intros s n l Hs Hn Hb Ho. cbv beta. unfold on_handshake. destruct (peer_states s !! a) as [[hs|hs|hs|x]|].
    + destruct (NoiseHandshake.process_message2_create_message3 m hs) as [hs' [msg| |]]; [|by apply (drop_peer_seals a s n l)..].
      refine (seals_comp 0 0 (λ s, send_handshake e a msg (drop_peer a s)) (finish_handshake e a hs') _ _ _ _ s n l Hs Hn Hb Ho); try done;
        [|by apply finish_handshake_seals].
      apply (seals_comp 0 0 (drop_peer a)); [done|done|apply drop_peer_seals|by apply tcp_send_elsewhere].
    + destruct (NoiseHandshake.process_message1_create_message2 _ m hs) as [hs' [msg| |]]; [|by apply (drop_peer_seals a s n l)..].
      by apply (Hsend (ResponderWaitMsg3 hs') msg s n l).
    + destruct (NoiseHandshake.process_message3 m hs) as [hs' [[]| |]]; [|by apply (drop_peer_seals a s n l)..].
      refine (seals_comp 0 0 (drop_peer a) (finish_handshake e a hs') _ _ _ _ s n l Hs Hn Hb Ho); try done;
        [apply drop_peer_seals|by apply finish_handshake_seals].
    + refine (seals_comp 0 0 (drop_peer a) (set_peer a (Secure x)) _ _ _ _ s n l Hs Hn Hb Ho); try done;
        [apply drop_peer_seals|by apply set_peer_other].
    + exists n, []. rewrite app_nil_r. split_and!; [done|lia|lia|done|by constructor].
Qed.

Lemma on_find_node_resp_seals e ps : hseals 0 (on_find_node_resp e ps).
Proof.
  induction ps as [|p ps IH]; [apply hseals_done|]. simpl. apply (hseals_then 0 0); try done.
  apply (hseals_then 0 0); try done; [apply table_insert_seals|]. apply seals_same; intros s; simpl; by case_match.
Qed.

Lemma dispatch_seals e a ty data : hseals 1 (dispatch e a ty data).
Proof.
  unfold dispatch. destruct ty; try (apply (seals_more 0); [lia|apply hseals_done]);
    try (apply hseals_if_ok; [lia|]; intros x); try (by apply (seals_more 0); [lia|apply hseals_transfers]).
  - unfold on_ping. destruct (blen data =? 32); [|apply (seals_more 0); [lia|apply hseals_done]].
    apply (hseals_then 0 1); [lia|lia|apply table_insert_seals|]. apply hseals_set. intros s n l Hs Hn Hb Ho. by apply send_secure_seals.
  - apply (seals_more 0); [lia|]. unfold on_pong. destruct (blen data =? 32); [apply table_insert_seals|apply hseals_done].
  - apply hseals_set. intros s n l Hs Hn Hb Ho. by apply send_secure_seals.
  - apply (seals_more 0); [lia|apply on_find_node_resp_seals].
  - apply (seals_more 0); [lia|apply hseals_set, publish_seals].
  - apply (seals_more 0); [lia|]. unfold on_credit_update. destruct (20 <=? blen data); [|apply hseals_done].
    apply hseals_try; [lia|]. intros. apply hseals_try; [lia|]. intros. apply hseals_transfers.
  - apply (seals_more 0); [lia|]. apply (hseals_then 0 0); [lia|lia|apply hseals_set, publish_seals|apply hseals_transfers].
Qed.

Lemma decrypt_sends x n c :
  let x' := (SecureSession.decrypt x n c).1 in
  SecureSession.send_cipher x' = SecureSession.send_cipher x ∧ SecureSession.send_nonce x' = SecureSession.send_nonce x.
Proof. by destruct (decrypt_fields x n c) as (H1 & _ & H2). Qed.

Lemma on_frame_seals e a f : hseals 1 (on_frame e a f).
Proof.
  intros s n l Hs Hn Hb Ho. cbv beta. unfold on_frame. case_bool_decide.
  { by apply (seals_more 0 1 _ ltac:(lia) (on_handshake_seals e a (Frame.payload f)) s n l). }
  destruct (peer_states s !! a) as [[| | |x]|] eqn:Hx; try by apply seals_idle.
  destruct (Flags.is_encrypted _); [|by apply seals_idle].
  pose proof (decrypt_sends x (FrameHeader.request_id (Frame.header f)) (Frame.payload f)) as Hd.
  destruct (SecureSession.decrypt x _ _) as [x' r]. cbn [fst] in Hd.
  assert (sess n (set_peer a (Secure x') s)) as Hs'.
  { destruct Hs as [Hf Hs]. split; [done|]. simpl. destruct (decide (a = B)) as [->|]; [|by rewrite lookup_insert_ne].
    rewrite lookup_insert_eq. rewrite Hx in Hs. destruct Hd, Hs. split; congruence. }
  destruct r as [m| |]; [|by apply seals_idle..]. by apply (dispatch_seals e a _ m _ n l).
Qed.

(** A turn that opens no connection. *)
Lemma turn_seals e i : same_session B i → dials i = false → hseals 1 (turn e i).
Proof.
  intros Hi Hd. destruct i as [|[a|hex|a path|a m|hex m]|[[a|a r|a f|[a|] er]|]|a f]; try discriminate Hd;
    try (by apply (seals_more 0); [lia|by apply seals_same]).
  - intros s n l Hs Hn Hb Ho. cbv beta. simpl. destruct (hex_crate_decode hex) as [bs|]; [|by apply seals_idle].
    destruct (blen bs =? 32); [|by apply seals_idle]. by apply (connect_peer_id_seals e _ s n l).
  - intros s n l Hs Hn Hb Ho. cbv beta. simpl. case_bool_decide; [|by apply seals_idle].
    by apply (seals_more 0 1 _ ltac:(lia) (hseals_transfers (TransferManager.offer_file (transfer_id e) (io_ok e) a path 1000)) s n l).
  - intros s n l Hs Hn Hb Ho. by apply (send_message_seals e a m s n l).
  - intros s n l Hs Hn Hb Ho. cbv beta. simpl. destruct (hex_crate_decode hex) as [bs|]; [|by apply seals_idle].
    destruct (blen bs =? 32); [|by apply seals_idle]. simpl.
    destruct (RoutingTable.get _ _); [|by apply seals_idle]. by apply (send_message_seals e _ m s n l).
  - apply (seals_more 0); [lia|]. apply seals_none; intros s; simpl; unfold on_connected; case_match; try done; [by left|].
    left. simpl. simpl in Hi. by rewrite lookup_insert_ne.
  - apply (seals_more 0); [lia|]. apply (seals_comp 0 0 (publish (ApiEvent.PeerDisconnected a r)) (drop_peer a)); try done; [apply publish_seals|apply drop_peer_seals].
  - apply on_frame_seals.
  - apply (seals_more 0); [lia|]. apply (drop_peer_seals a).
  - intros s n l Hs Hn Hb Ho. by apply (send_secure_seals e a _ _ s n l).
Qed.

Lemma run_seals inputs :
  Forall (λ x, same_session B x.2 ∧ dials x.2 = false) inputs → hseals (Z.of_nat (length inputs)) (run inputs).
Proof.
  induction 1 as [|[e i] inputs [Hi Hd] _ IH]; [apply hseals_done|]. cbn [run length].
  replace (Z.of_nat (S (length inputs))) with (1 + Z.of_nat (length inputs)) by lia.
  apply hseals_then; [lia|lia|by apply turn_seals|done].
Qed.
End Agreement.

(** ** Both ends *)
Section Ends.
Context `{SH : !Sha256, XX : !X25519, AE : !Aead, AOK : !AeadOk, LG : !Log2, HX : !HexCrate, CRC : !Crc32c}.

Definition nonce_of (f : Frame.t) : Z := FrameHeader.request_id (Frame.header f).

(** The network, as an input of the loop: a frame from [A] that opens under [k] is,
    in nonce and ciphertext, one of [fs]. Everything else is the network's choice,
    the type of the frame included. *)
Definition unforged (A : SocketAddr.t) (k : bytes) (fs : list Frame.t) (i : input) : Prop :=
  match i with
  | Event (Some (TransportEvent.FrameReceived a f)) =>
      is_u64 (nonce_of f) ∧
      (a = A → is_Some (aead_decrypt k (SecureSession.build_nonce (nonce_of f)) [] (Frame.payload f)) →
       ∃ g, g ∈ fs ∧ nonce_of g = nonce_of f ∧ Frame.payload g = Frame.payload f)
  | _ => True
  end.

(** What the frames of a chain carry, by nonce. *)
Definition contents (k : bytes) (fs : list Frame.t) : gmap Z bytes :=
  list_to_map ((λ g, (nonce_of g, default [] (aead_decrypt k (SecureSession.build_nonce (nonce_of g)) [] (Frame.payload g)))) <$> fs).

Lemma contents_lookup k n0 n1 fs n m :
  chain k n0 n1 fs → contents k fs !! n = Some m ↔ ∃ g, g ∈ fs ∧ nonce_of g = n ∧ carries k g m.
Proof.
  intros [Hnd Hc]%chain_nonces. unfold contents.
  assert (∀ g m, g ∈ fs → carries k g m → aead_decrypt k (SecureSession.build_nonce (nonce_of g)) [] (Frame.payload g) = Some m) as Hd
    by (intros g m' _ Hg; by apply aead_correct).
  rewrite <- elem_of_list_to_map by (rewrite <- list_fmap_compose; exact Hnd). rewrite list_elem_of_fmap. split.
  - intros (g & [= -> ->] & Hg). exists g. split_and!; [done|done|]. destruct (Hc g Hg) as [_ (m & Hm)]. by rewrite (Hd g m Hg Hm).
  - intros (g & Hg & <- & Hm). exists g. split; [|done]. by rewrite (Hd g m Hg Hm).
Qed.

Lemma unforged_genuine A k n0 n1 fs i : chain k n0 n1 fs → unforged A k fs i → genuine A k (contents k fs) i.
Proof.
  intros Hch. destruct i as [|c|[[| |a f|]|]|]; try done. intros [Hu Hf]. split; [done|]. intros Ha m Hm.
  destruct (Hf Ha (ex_intro _ m Hm)) as (g & Hg & Hn & Hp). apply (contents_lookup k n0 n1 fs _ _ Hch). exists g.
  split_and!; [done|done|]. destruct (chain_nonces _ _ _ _ Hch) as [_ Hc]. destruct (Hc g Hg) as [_ (m' & Hm')].
  apply aead_correct in Hm' as Hd. fold (nonce_of g) in Hd. rewrite Hn, Hp in Hd. unfold nonce_of in Hd. rewrite Hm in Hd. by injection Hd as <-.
Qed.

(** C9: the two ends of a session agree, whatever the network does. Let [a] seal for
    [b] under the key [b] opens with. [a]'s loop may be given anything that opens no
    connection, and it has put the frames [fs] on the channel to [b]; [b]'s loop may
    be given anything that starts no other session with [a], and the network may
    drop, repeat, reorder, delay, alter and make up frames, except that a ciphertext
    opens only if [a] made it, under its nonce. Then the nonces of [fs] are all
    different, and each message of [a] that [b]'s interface is told of is what one
    frame of [fs] carries, no two messages answering to one frame. *)
Theorem messages_agree (A B : SocketAddr.t) (a b : Node.t) (x y : SecureSession.t) (H : gset Z)
    (inputs_a inputs_b : list (Env * input)) (l fs : list Frame.t) :
  peer_states a !! B = Some (Secure x) → peer_states b !! A = Some (Secure y) →
  SecureSession.send_cipher x = SecureSession.recv_cipher y → ReplayWindow.refines H (SecureSession.replay_window y) →
  filed (tcp_transport a) → outbox B a = Some l →
  0 ≤ SecureSession.send_nonce x → SecureSession.send_nonce x + blen inputs_a < 2 ^ 64 →
  Forall (λ i, same_session B i.2 ∧ dials i.2 = false) inputs_a → outbox B (run inputs_a a).1 = Some (l ++ fs) →
  Forall (λ i, same_session A i.2 ∧ unforged A (SecureSession.recv_cipher y) fs i.2) inputs_b →
  NoDup (nonce_of <$> fs) ∧
  ∃ new : list (Z * bytes),
    messages_from A (run inputs_b b).1 = messages_from A b ++ new.*2 ∧ NoDup new.*1 ∧
    ∀ n m, (n, m) ∈ new → ∃ g, g ∈ fs ∧ nonce_of g = n ∧ carries (SecureSession.recv_cipher y) g m.
Proof.
  intros Hx Hy Hk Hr Hf Ho Hn Hb Ha Hout Hin. set (k := SecureSession.recv_cipher y) in *.
  destruct (run_seals B k inputs_a Ha a (SecureSession.send_nonce x) l) as (n' & fs' & _ & _ & O & C);
    [by split; [|rewrite Hx]|done|unfold blen in Hb; lia|done|].
  cbv beta in O. rewrite Hout in O. injection O as <-%app_inv_head. split; [apply (chain_nonces _ _ _ _ C)|].
  destruct (run_hears A k (contents k fs) inputs_b b H) as (H' & new & _ & [M S [N _] _]).
  - unfold holds. by rewrite Hy.
  - eapply Forall_impl; [exact Hin|]. intros i [H1 H2]. split; [done|by eapply unforged_genuine].
  - exists new. split_and!; [done|done|]. intros n m Hnm%S. by apply (contents_lookup k _ _ fs n m C).
Qed.
End Ends.
End Agreement.
