(* ===== verification/NodeRuns.v ===== *)
(** Concrete runs of two and three nodes, with the toy primitives: an instance of every
    theorem about nodes, and the runs behind the faults found. *)
From S2P Require Import Prelude Bytes CryptoTypes WireTypes FrameCodec Replay Session Wire TransferMsg DhtMsg.
From S2P Require Import PeerId Identity Noise Float64 PeerInfo Routing Transfer Connection Transport Node NodeLaws Network EndToEnd.
From S2P Require Import FileNodes NodeLookup NodeSafety Authentic Agreement.

Local Open Scope Z_scope.

Module NodeWitness.
Import ToyAead ToyCrypto Crc32cBitwise NoiseWitness ToyLog2 ConnectionWitness Node NodeLaws NodeLookup NodeSafety.

#[local] Instance toy_hex : HexCrate :=
  { hex_crate_decode := λ s, match hex_decode s with Ok b => Some b | _ => None end;
    hex_crate_encode := hex_encode }.

Definition env : Env := mkEnv 7 ra (Ok tt) (replicate 16 1) true Prepared.
Definition env' : Env := mkEnv 8 rb (Ok tt) (replicate 16 2) true Prepared.

(** [a] listens on port 1 and is known to [b] by it; [b] listens on port 2. *)
Definition a : t := new 0 alice (addr 1) 8 [100] ∅.
Definition b : t :=
  let s := new 0 bob (addr 2) 8 [100] ∅ in set_tcp (TcpTransport.accept 3 (Ok (addr 1)) (tcp_transport s)) s.

Lemma alice_wf : Identity.wf alice. Proof. by apply Identity.generate_wf. Qed.
Lemma bob_wf : Identity.wf bob. Proof. by apply Identity.generate_wf. Qed.

Lemma nodes_handshake_witness :
  ∃ a2 b2, linked a2 b2 (addr 1) (addr 2) ∧ linked b2 a2 (addr 2) (addr 1) ∧
    secure_with a2 (addr 2) (Identity.x25519_public_key bob).
Proof.
  destruct (nodes_handshake env env' a b (addr 1) (addr 2) []) as
    (f1 & f2 & f3 & p1 & p2 & a1 & b1 & a2 & b2 & _ & _ & _ & _ & _ & _ & _ & _ & L1 & L2 & S1 & _).
  - exact alice_wf.
  - exact bob_wf.
  - reflexivity.
  - vm_compute. lia.
  - reflexivity.
  - vm_compute. reflexivity.
  - exists a2, b2. split_and!; [exact L1|exact L2|exact S1].
Defined.

(** The two nodes with their channels and a fresh pair of sessions. *)
Definition ka : bytes := replicate 32 66.
Definition kb : bytes := replicate 32 132.
Definition sa : SecureSession.t := SecureSession.mk ka kb 0 0 ReplayWindow.new [].
Definition sb : SecureSession.t := SecureSession.mk kb ka 0 0 ReplayWindow.new [].
Definition a_sec : t :=
  set_peer (addr 2) (Secure sa) (set_tcp (TcpTransport.connect 3 (addr 2) (Ok tt) (tcp_transport a)).1 a).
Definition b_sec : t := set_peer (addr 1) (Secure sb) b.

Lemma linked_ab : linked a_sec b_sec (addr 1) (addr 2).
Proof. exists sa, sb. split_and!; [reflexivity..|]. by apply SessionPair.half_fresh. Qed.

Lemma linked_ba : linked b_sec a_sec (addr 2) (addr 1).
Proof. exists sb, sa. split_and!; [reflexivity..|]. by apply SessionPair.half_fresh. Qed.

Lemma outbox_a : outbox (addr 2) a_sec = Some []. Proof. vm_compute. reflexivity. Qed.
Lemma outbox_b : outbox (addr 1) b_sec = Some []. Proof. vm_compute. reflexivity. Qed.

Definition hello : bytes := [104; 105].

Lemma secure_hop_witness :
  ∃ f b0, outbox (addr 2) (on_transfer_frame env (addr 2) (Frame.new MessageType.Data Flags.empty 0 hello) a_sec) = Some [f] ∧
    on_event env' (Some (TransportEvent.FrameReceived (addr 1) (FrameCodec.sealed f))) b_sec =
      dispatch env' (addr 1) MessageType.Data hello b0.
Proof.
  destruct (secure_hop env env' a_sec b_sec (addr 1) (addr 2) MessageType.Data hello []) as (f & b0 & H1 & H2 & _);
    [exact linked_ab|exact outbox_a|by vm_compute|by vm_compute|done|]. exists f, b0. split; [exact H1|exact H2].
Defined.

Lemma messages_delivered_witness :
  ∃ fs b', run (map (arrives env' (addr 1)) fs) b_sec = (b', Ok tt) ∧
    api_events b' = [ApiEvent.MessageReceived (addr 1) hello; ApiEvent.MessageReceived (addr 1) [33]].
Proof.
  destruct (messages_delivered env env' a_sec b_sec (addr 1) (addr 2) [hello; [33]] []) as (fs & a' & b' & _ & _ & Hr & He & _).
  - exact linked_ab.
  - exact outbox_a.
  - by vm_compute.
  - repeat constructor; by vm_compute.
  - exists fs, b'. split; [exact Hr|exact He].
Defined.

(** *** Safety *)
Definition calling : t := (turn env (Command (ApiCommand.Connect (addr 2))) a).1.

Lemma calling_reachable : rtc sys_step (new 0 alice (addr 1) 8 [100] ∅) calling.
Proof. apply rtc_once. exact (SysTurn env (Command (ApiCommand.Connect (addr 2))) a I). Qed.

(** [b] answers the call, [a] finishes the handshake and sends a message. *)
Definition called : t := (turn env' (Event (Some (TransportEvent.Connected (addr 1)))) b).1.
Definition last_frame (x : SocketAddr.t) (s : t) : Frame.t := List.last (default [] (outbox x s)) (Frame.simple MessageType.Ping 0).
Definition answer : Frame.t :=
  last_frame (addr 1) (turn env' (Event (Some (TransportEvent.FrameReceived (addr 1) (last_frame (addr 2) calling)))) called).1.
Definition secured : t := (turn env (Event (Some (TransportEvent.FrameReceived (addr 2) answer))) calling).1.
Definition spoken : t := (turn env (Command (ApiCommand.SendMessage (addr 2) hello)) secured).1.

Lemma spoken_reachable : rtc sys_step (new 0 alice (addr 1) 8 [100] ∅) spoken.
Proof.
  etrans; [exact calling_reachable|]. eapply rtc_l; [|apply rtc_once].
  - apply (SysTurn env (Event (Some (TransportEvent.FrameReceived (addr 2) answer)))). simpl. decide_now.
  - exact (SysTurn env (Command (ApiCommand.SendMessage (addr 2) hello)) secured I).
Qed.

(** Two handshake messages, the announcement and the message, both sealed. *)
Lemma nothing_in_clear_witness :
  ∃ c f, TcpTransport.conns (tcp_transport spoken) !! 0%nat = Some c ∧
    (FrameHeader.msg_type ∘ Frame.header) <$> Conn.sent c =
      [MessageType.Handshake; MessageType.Handshake; MessageType.Ping; MessageType.Data] ∧
    Conn.sent c !! 3%nat = Some f ∧ covered alice f ∧ Frame.payload f ≠ hello.
Proof.
  assert (∃ c f, TcpTransport.conns (tcp_transport spoken) !! 0%nat = Some c ∧
    (FrameHeader.msg_type ∘ Frame.header) <$> Conn.sent c =
      [MessageType.Handshake; MessageType.Handshake; MessageType.Ping; MessageType.Data] ∧
    Conn.sent c !! 3%nat = Some f ∧ Frame.payload f ≠ hello) as (c & f & Hc & Ht & Hf & Hp)
    by (vm_compute; do 2 eexists; split_and!; [reflexivity..|discriminate]).
  exists c, f. split_and!; [exact Hc|exact Ht|exact Hf| |exact Hp].
  apply (proj1 (Forall_lookup _ _) (proj1 (nothing_in_clear alice 0 (addr 1) 8 [100] ∅ spoken 0 c alice_wf spoken_reachable Hc)) _ _ Hf).
Defined.

(** A message for an identifier of one byte. *)
Definition short_id : input := Command (ApiCommand.SendMessagePeerId [97; 98] hello).

Lemma loop_survives_witness : stops calling short_id Panic.
Proof.
  assert ((turn env short_id calling).2 = Panic) as E by (vm_compute; reflexivity).
  destruct (loop_survives alice 0 (addr 1) 8 [100] ∅ calling env short_id alice_wf calling_reachable I) as [H|H];
    rewrite E in H; [discriminate H|exact H].
Defined.

(** A made-up frame, said to be sealed. *)
Definition forged : Frame.t := encrypted MessageType.Data 9 (replicate 20 1).

Lemma unauthenticated_inert_witness :
  ∃ s', on_event env (Some (TransportEvent.FrameReceived (addr 2) forged)) a_sec = (s', Ok tt) ∧ only_window (addr 2) a_sec s' ∧
    s' ≠ a_sec.
Proof.
  destruct (unauthenticated_inert env (addr 2) forged a_sec) as (s' & H & Hw).
  - intros data x (_ & y & Hy & Hd). vm_compute in Hy. injection Hy as <-. vm_compute in Hd. discriminate Hd.
  - discriminate.
  - exists s'. split_and!; [exact H|exact Hw|]. intros ->.
    apply (f_equal (λ r, match peer_states r.1 !! addr 2 with
      | Some (Secure x) => ReplayWindow.max_nonce (SecureSession.replay_window x) | _ => 0 end)) in H.
    vm_compute in H. discriminate H.
Defined.

(** *** Over TCP, one byte at a time *)
Definition bytewise (w : bytes) : list bytes := map (λ x, [x]) w.
Lemma bytewise_cut w : concat (bytewise w) = w.
Proof. induction w as [|x w IH]; [done|]. simpl. by rewrite <- IH at 2. Qed.

Definition path : bytes := [47; 102; 46; 116].      (* /f.t *)
Definition file : bytes := map Z.of_nat (seq 0 200) ++ replicate 2000 7.
Definition a_disk : t := new 0 alice (addr 1) 8 [100] {[path := file]}.
Definition b_alone : t := new 0 bob (addr 2) 8 [100] ∅.

Lemma room_a : EndToEnd.room a_disk. Proof. vm_compute. lia. Qed.
Lemma room_b : EndToEnd.room b_alone. Proof. vm_compute. lia. Qed.

Lemma session_over_tcp_witness :
  ∃ l r, Net.connects 5 bytewise env env' (addr 1) (addr 2) (Net.start a_disk, Net.start b_alone) = ((l, r), Ok tt) ∧
    linked (Net.node l) (Net.node r) (addr 1) (addr 2) ∧
    secure_with (Net.node r) (addr 1) (Identity.x25519_public_key alice).
Proof.
  destruct (EndToEnd.session_over_tcp 5 bytewise env env' a_disk b_alone (addr 1) (addr 2))
    as (l & r & Hc & L & _ & _ & S & _).
  - exact bytewise_cut.
  - exact alice_wf.
  - exact bob_wf.
  - reflexivity.
  - exact room_a.
  - exact room_b.
  - reflexivity.
  - exists l, r. split_and!; [exact Hc|exact L|exact S].
Defined.

Definition chat : list (bool * list bytes) := [(true, [hello; [33]]); (false, [[111; 107]]); (true, [[]])].

Lemma conversation_over_tcp_witness :
  ∃ l r, mthen (Net.connects 5 bytewise env env' (addr 1) (addr 2)) (λ _, Net.converses 5 bytewise env env' (addr 1) (addr 2) chat)
      (Net.start a_disk, Net.start b_alone) = ((l, r), Ok tt) ∧
    api_events (Net.node l) = [ApiEvent.PeerConnected (addr 2); ApiEvent.MessageReceived (addr 2) [111; 107]] ∧
    api_events (Net.node r) = [ApiEvent.PeerConnected (addr 1); ApiEvent.MessageReceived (addr 1) hello;
      ApiEvent.MessageReceived (addr 1) [33]; ApiEvent.MessageReceived (addr 1) []].
Proof.
  destruct (EndToEnd.conversation_over_tcp 5 bytewise env env' a_disk b_alone (addr 1) (addr 2) chat)
    as (l & r & Hc & El & Er).
  - exact bytewise_cut.
  - exact alice_wf.
  - exact bob_wf.
  - reflexivity.
  - exact room_a.
  - exact room_b.
  - reflexivity.
  - repeat constructor; by vm_compute.
  - by vm_compute.
  - exists l, r. split_and!; [exact Hc|exact El|exact Er].
Defined.

(** [b] knows a third peer, at the address of a node with another identity. *)
Definition third : PeerId.t := 1 :: replicate 31 9.
Definition info : PeerInfo.t := PeerInfo.new 4 third (addr 30).
Definition b_knows : t :=
  set_table (RoutingTable.insert 4 third (addr 30) (RoutingTable.new 0 (Identity.peer_id bob))).1 b_alone.
Definition carol : Identity.t := Identity.generate (replicate 32 21) (replicate 32 22).
Definition c_alone : t := new 0 carol (addr 30) 8 [100] ∅.
Definition env_c : Env := mkEnv 9 (replicate 32 77) (Ok tt) (replicate 16 3) true Prepared.

Lemma third_wf : PeerId.wf third. Proof. split; [reflexivity|decide_now]. Qed.
Lemma bob_id_wf : PeerId.wf (Identity.peer_id bob). Proof. split; [reflexivity|decide_now]. Qed.

Lemma b_table_wf : RoutingLaws.wf (routing_table b_knows).
Proof.
  destruct (RoutingTable.insert 4 third (addr 30) (RoutingTable.new 0 (Identity.peer_id bob))) as [rt r] eqn:E.
  destruct (RoutingLaws.insert_refines_map _ _ _ _ _ _ (RoutingLaws.new_wf 0 _ bob_id_wf) third_wf E) as (Hw & _).
  unfold b_knows. rewrite E. exact Hw.
Qed.

Lemma new_ready id la dir d calls :
  Identity.wf id → (calls ≤ 8)%nat → ready (new 0 id la 8 dir d) calls.
Proof. intros H Hc. split_and!; [exact H|apply TcpLife.bind_inv|exact Hc]. Qed.

Lemma introduction_over_tcp_witness :
  ∃ l r l' s,
    mthen (Net.connects 5 bytewise env env' (addr 1) (addr 2)) (λ _, introduces 5 bytewise env env' (hex_encode third))
      (Net.start a_disk, Net.start b_knows) = ((l, r), Ok tt) ∧
    ApiCommand.Connect (addr 30) ∈ commands (Net.node l) ∧
    Net.connects 5 bytewise env env_c (addr 1) (addr 30) (Net.start (Net.node l), Net.start c_alone) = ((l', s), Ok tt) ∧
    secure_with (Net.node l') (addr 30) (Identity.x25519_public_key carol) ∧ Identity.peer_id carol ≠ third.
Proof.
  destruct (introduction_over_tcp 5 bytewise env env' env env_c a_disk b_knows c_alone (addr 1) (addr 2) (addr 1)
    (hex_encode third) third info) as (l & r & l' & s & H1 & H2 & _ & H3 & _ & _ & H4 & _).
  - exact bytewise_cut.
  - apply new_ready; [exact alice_wf|lia].
  - exact (new_ready bob (addr 2) [100] ∅ 1 bob_wf ltac:(lia)).
  - apply new_ready; [by apply Identity.generate_wf|lia].
  - reflexivity.
  - reflexivity.
  - reflexivity.
  - reflexivity.
  - discriminate.
  - vm_compute. reflexivity.
  - exact third_wf.
  - apply RoutingLaws.new_wf. split; [reflexivity|decide_now].
  - vm_compute. reflexivity.
  - exact b_table_wf.
  - by vm_compute.
  - assert (RoutingTable.active_peers (RoutingTable.insert 4 third (addr 30) (RoutingTable.new 0 (Identity.peer_id bob))).1 = [info]) as E
      by (vm_compute; reflexivity). unfold b_knows. cbn [routing_table set_table]. rewrite E. constructor.
  - reflexivity.
  - assert (known_peers third b_knows = [(third, addr 30)]) as -> by (vm_compute; reflexivity).
    constructor; [|constructor]. split_and!; [reflexivity|decide_now|split_and!; [reflexivity|decide_now|decide_now]|reflexivity].
  - exists l, r, l', s. split_and!; [exact H1|exact H2|exact H3|exact H4|by vm_compute].
Defined.

Lemma file_over_tcp_witness :
  ∃ r, TransferManager.fs (transfer_manager (Net.node r)) !! [100; 47; 102; 46; 116] = Some file ∧
    api_events (Net.node r) = [ApiEvent.PeerConnected (addr 1); ApiEvent.FileOfferReceived (addr 1) [102; 46; 116] 2200].
Proof.
  destruct (FileNodes.file_over_tcp 5 bytewise env env' a_disk b_alone (addr 1) (addr 2) path [102; 46; 116] file)
    as (l & r & _ & He & Hd & _).
  - exact bytewise_cut.
  - exact alice_wf.
  - exact bob_wf.
  - reflexivity.
  - exact room_a.
  - exact room_b.
  - reflexivity.
  - split; [reflexivity|decide_now].
  - reflexivity.
  - reflexivity.
  - vm_compute. reflexivity.
  - vm_compute. reflexivity.
  - decide_now.
  - reflexivity.
  - by vm_compute.
  - decide_now.
  - by vm_compute.
  - unfold FileNodes.arrived in Hd. rewrite decide_True in Hd by (vm_compute; discriminate).
    exists r. split; [exact (proj1 Hd)|exact He].
Defined.

(** *** Against the network *)

(** The frames [a_sec] has queued for [b_sec] after sending two messages. *)
Definition queued : list Frame.t :=
  default [] (outbox (addr 2) (send_message env (addr 2) [33] (send_message env (addr 2) hello a_sec))).
(** They arrive out of order and twice, with a made-up frame between them. *)
Definition attack : list (Env * input) :=
  map (arrives env' (addr 1)) (rev queued ++ [forged] ++ queued).

(** Each message is told once, in the order of arrival. *)
Example attack_delivers : Authentic.messages_from (addr 1) (run attack b_sec).1 = [[33]; hello].
Proof. vm_compute. reflexivity. Qed.

Definition telling : list (Env * input) :=
  [(env, Command (ApiCommand.SendMessage (addr 2) hello)); (env, Command (ApiCommand.SendMessage (addr 2) [33]))].

Lemma filed_a : Agreement.filed (tcp_transport a_sec).
Proof.
  intros x i. change (TcpTransport.peer_senders (tcp_transport a_sec)) with (<[addr 2 := 0%nat]> (∅ : gmap SocketAddr.t nat)).
  intros [[<- <-]|[_ Hx]]%lookup_insert_Some; [|by rewrite lookup_empty in Hx]. vm_compute. eexists. by split.
Qed.

(** A frame of [a] that arrives, whenever and however often. *)
Lemma arrives_unforged f :
  f ∈ queued → is_u64 (Agreement.nonce_of f) →
  Authentic.same_session (addr 1) (arrives env' (addr 1) f).2 ∧ Agreement.unforged (addr 1) ka queued (arrives env' (addr 1) f).2.
Proof. intros Hf Hu. split; [done|]. split; [exact Hu|]. intros _ _. by exists f. Qed.

Lemma queued_u64 : Forall (λ f, is_u64 (Agreement.nonce_of f)) queued.
Proof.
  assert (Agreement.nonce_of <$> queued = [0; 1]) as E by (vm_compute; reflexivity).
  apply (proj1 (Forall_fmap Agreement.nonce_of is_u64 queued)). rewrite E. repeat constructor; lia.
Qed.

Lemma attack_unforged : Forall (λ i, Authentic.same_session (addr 1) i.2 ∧ Agreement.unforged (addr 1) ka queued i.2) attack.
Proof.
  pose proof queued_u64 as Hu. rewrite Forall_forall in Hu.
  unfold attack. apply Forall_map. rewrite !Forall_app. split_and!.
  - apply Forall_rev, Forall_forall. intros f Hf. apply arrives_unforged; auto.
  - apply Forall_singleton. split; [done|]. split; [done|]. intros _ [m Hm]. vm_compute in Hm. discriminate Hm.
  - apply Forall_forall. intros f Hf. apply arrives_unforged; auto.
Qed.

Lemma messages_agree_witness :
  NoDup (Agreement.nonce_of <$> queued) ∧
  ∃ new : list (Z * bytes), Authentic.messages_from (addr 1) (run attack b_sec).1 = new.*2 ∧ NoDup new.*1 ∧
    ∀ n m, (n, m) ∈ new → ∃ g, g ∈ queued ∧ Agreement.nonce_of g = n ∧ Agreement.carries ka g m.
Proof.
  apply (Agreement.messages_agree (addr 1) (addr 2) a_sec b_sec sa sb ∅ telling attack [] queued).
  - reflexivity.
  - reflexivity.
  - reflexivity.
  - apply ReplayWindow.new_refines.
  - exact filed_a.
  - exact outbox_a.
  - by vm_compute.
  - by vm_compute.
  - repeat constructor.
  - vm_compute. reflexivity.
  - exact attack_unforged.
Defined.

(** *** Faults *)

(** The type of a frame is not covered by its seal: a payload sealed as a request
    for an identifier, its type changed on the way, is shown as a message. *)
Example retyped_frame_accepted :
  let out := default [] (outbox (addr 2) (send_secure env (addr 2) MessageType.FindNode (replicate 32 65) a_sec).1) in
  let retype f := Frame.mk (FrameHeader.mk (FrameHeader.magic (Frame.header f)) (FrameHeader.version (Frame.header f)) MessageType.Data
    (FrameHeader.flags (Frame.header f)) (FrameHeader.payload_len (Frame.header f)) (FrameHeader.request_id (Frame.header f))
    (FrameHeader.checksum (Frame.header f))) (Frame.payload f) in
  api_events (run (map (arrives env' (addr 1)) (map retype out)) b_sec).1 = [ApiEvent.MessageReceived (addr 1) (replicate 32 65)].
Proof. vm_compute. reflexivity. Qed.


(** The announcement of our identifier after a handshake has the type of a
    heartbeat: the transport at the other end answers it and does not report it. *)
Example announcement_swallowed :
  let f := encrypted MessageType.Ping 0 (replicate 48 5) in
  TcpTransport.events (TcpTransport.reader_turn 9 (TcpTransport.Item f) 0 (tcp_transport b)) =
  TcpTransport.events (tcp_transport b).
Proof. vm_compute. reflexivity. Qed.

(** A node asked for its own identifier answers with the address it listens on. *)
Example own_address_answered :
  known_peers (Identity.peer_id bob) (mk bob (SocketAddr.V4 [0; 0; 0; 0] 9741) (tcp_transport b) ∅ (routing_table b)
    (transfer_manager b) ∅ [] [] 0) = [(Identity.peer_id bob, SocketAddr.V4 [0; 0; 0; 0] 9741)].
Proof. vm_compute. reflexivity. Qed.

(** The acknowledgement of a chunk by a secure peer, while the transfer is under
    way, stops the sender's loop for good. *)
Definition tid : TransferId.t := replicate 16 1.
Definition sending : TransferState :=
  Sending (SendingState.mk (addr 2) (Mmap.mk [102] 3) [255] 0 1000 1 1).
Definition a_sending : t :=
  set_transfers (TransferManager.set_transfer tid sending (transfer_manager a_sec)) a_sec.

Example ack_stops_sender :
  (dispatch env (addr 2) MessageType.FileChunkAck
     (FileChunkAck.encode (FileChunkAck.mk tid 0 ChunkAckStatus.StatusOk)) a_sending).2 = Err Blocked.
Proof. vm_compute. reflexivity. Qed.

(** The end of a transfer is not looked at by the sender, which keeps its state. *)
Example complete_ignored :
  let s := (dispatch env (addr 2) MessageType.FileComplete (FileComplete.encode (FileComplete.mk tid (replicate 32 0))) a_sending).1 in
  TransferManager.active_transfers (transfer_manager s) = TransferManager.active_transfers (transfer_manager a_sending).
Proof. reflexivity. Qed.
End NodeWitness.
