(* ===== verification/Telemetry.v ===== *)
(** ceky-telemetry (metrics.rs, logger.rs and app.rs) and the task of node.rs that
    refreshes the metrics every second. The keyboard, the clock and the terminal
    are arguments of the display's loop; what it draws is in [Ui], which neither
    changes the display nor panics; texts are byte strings. *)
From S2P Require Import Prelude Bytes TransferMsg DhtMsg Transfer Connection Node.

Local Open Scope Z_scope.

Module TransferProgress.
Record t : Set := mk {
  transfer_id : bytes; file_name : bytes; total_chunks : Z; completed_chunks : Z; is_sending : bool
}.
End TransferProgress.

Module GlobalMetrics.
Record t : Set := mk {
  tx_bytes : Z; rx_bytes : Z; tx_rate : Z; rx_rate : Z; active_tcp_connections : Z;
  dht_active_peers : Z; dht_total_peers : Z; transfers : list TransferProgress.t
}.
Definition new : t := mk 0 0 0 0 0 0 0 [].

(** [tx_bytes.fetch_add(n)], of the node's messages *)
Definition add_tx (n : Z) (m : t) : t :=
  mk (wrap 64 (tx_bytes m + n)) (rx_bytes m) (tx_rate m) (rx_rate m) (active_tcp_connections m)
     (dht_active_peers m) (dht_total_peers m) (transfers m).
End GlobalMetrics.

(** [a.saturating_sub(b)] on [usize] *)
Definition saturating_sub (a b : Z) : Z := Z.max 0 (a - b).

Module Updater.
Import GlobalMetrics.
Section Tick.
Context `{HX : !HexCrate}.

Definition progress (x : TransferId.t * bytes * Z * Z * bool) : TransferProgress.t :=
  let '(id, name, total, completed, is_sending) := x in
  TransferProgress.mk (hex_crate_encode (TransferId.as_bytes id)) name total completed is_sending.

(** One tick of the interval; the lock of the transfers is not poisoned. *)
Definition tick (p : ConnectionPool.t) (tm : TransferManager.t) (m : t) : t :=
  let p_stats := ConnectionPool.stats p in
  let sent := wrap 64 (PoolStats.total_bytes_sent p_stats) in
  let recv := wrap 64 (PoolStats.total_bytes_recv p_stats) in
  let prev_tx := tx_bytes m in
  let prev_rx := rx_bytes m in
  mk sent recv (saturating_sub sent prev_tx) (saturating_sub recv prev_rx) (Z.of_nat (PoolStats.active p_stats))
     (dht_active_peers m) (dht_total_peers m) (map progress (TransferManager.snapshot_transfers tm)).
End Tick.
End Updater.

(** ** logger.rs *)
Module LogMessage.
Record t : Set := mk { timestamp : bytes; level : bytes; target : bytes; message : bytes }.
End LogMessage.

Module StringVisitor.
Definition quote : Z := 34.

(** ["message"] *)
Definition message_field : bytes := [109; 101; 115; 115; 97; 103; 101].

(** [record_debug]: [text] is the value in its debug format. The text of the
    message loses a pair of quotes around it; the slice panics when they are the
    same one. The other fields are appended as [" name=value"]. *)
Definition record_debug (name text message : bytes) : result unit bytes :=
  if bytes_eqb name message_field then
    if bool_decide (head text = Some quote) && bool_decide (last text = Some quote)
    then slice 1 (blen text - 1) text
    else Ok text
  else Ok (message ++ [32] ++ name ++ [61] ++ text).

(** [event.record(&mut visitor)] and what [on_event] sends. *)
Fixpoint record (fields : list (bytes * bytes)) (message : bytes) : result unit bytes :=
  match fields with
  | [] => Ok message
  | (name, text) :: fields => message ← record_debug name text message; record fields message
  end.

Definition on_event (timestamp level target : bytes) (fields : list (bytes * bytes)) (sent : list LogMessage.t)
    : result unit (list LogMessage.t) :=
  message ← record fields [];
  mret (sent ++ [LogMessage.mk timestamp level target message]).
End StringVisitor.

(** ** app.rs *)
Module TuiApp.
Record t : Set := mk { logs : list LogMessage.t; tx_history : list Z; rx_history : list Z }.

Definition new : t := mk [] (replicate 100 0) (replicate 100 0).

(** [v.remove(0)] panics on an empty vector. *)
Definition remove0 {A} (v : list A) : result unit (list A) :=
  match v with [] => Panic | _ :: v => Ok v end.

(** The loop that fetches the messages waiting on the channel. *)
Fixpoint fetch (waiting logs : list LogMessage.t) : result unit (list LogMessage.t) :=
  match waiting with
  | [] => Ok logs
  | log :: waiting =>
      let logs := logs ++ [log] in
      logs ← (if (100 <? length logs)%nat then remove0 logs else Ok logs);
      fetch waiting logs
  end.

Definition on_tick (waiting : list LogMessage.t) (m : GlobalMetrics.t) (app : t) : result unit t :=
  logs ← fetch waiting (logs app);
  tx ← remove0 (tx_history app);
  rx ← remove0 (rx_history app);
  mret (mk logs (tx ++ [GlobalMetrics.tx_rate m]) (rx ++ [GlobalMetrics.rx_rate m])).

Fixpoint ticks (ts : list (list LogMessage.t * GlobalMetrics.t)) (app : t) : result unit t :=
  match ts with
  | [] => Ok app
  | (waiting, m) :: ts => app ← on_tick waiting m app; ticks ts app
  end.
End TuiApp.

(** ** The loop of app.rs *)
Module Tui.
(** [Event::Key] with a character, and whether Control is held; any other event. *)
Inductive event : Set := Char (c : Z) (control : bool) | Other.

Inductive polled : Set :=
| PollFailed                             (** [event::poll] *)
| Quiet                                  (** nothing within the timeout *)
| ReadFailed                             (** [event::read] *)
| Read (e : event).

(** ['q'], ['Q'], or ['c'] with Control *)
Definition quits (e : event) : bool :=
  match e with
  | Char c control => (c =? 113) || (c =? 81) || ((c =? 99) && control)
  | Other => false
  end.

(** What one turn of the loop meets: whether drawing succeeds, the events, whether
    a tick is due and what it finds, whether the token was cancelled elsewhere. *)
Record turn : Set := mkTurn {
  drawn : bool; input : polled; due : bool;
  waiting : list LogMessage.t; metrics : GlobalMetrics.t; cancelled : bool
}.

(** How the loop is left: through its end, or through [?]. *)
Inductive outcome : Set :=
| Goes_on (app : TuiApp.t)
| Leaves (app : TuiApp.t)
| Fails.

Definition loop_turn (t : turn) (app : TuiApp.t) (token : bool) : bool * result unit outcome :=
  let token := token || cancelled t in
  let rest :=
    app ← (if due t then TuiApp.on_tick (waiting t) (metrics t) app else Ok app);
    mret (if token then Leaves app else Goes_on app) in
  if negb (drawn t) then (token, Ok Fails)
  else
    match input t with
    | PollFailed | ReadFailed => (token, Ok Fails)
    | Read e => if quits e then (true, Ok (Leaves app)) else (token, rest)
    | Quiet => (token, rest)
    end.

Fixpoint loop (ts : list turn) (app : TuiApp.t) (token : bool) : bool * result unit outcome :=
  match ts with
  | [] => (token, Ok (Goes_on app))
  | t :: ts =>
      match loop_turn t app token with
      | (token, Ok (Goes_on app)) => loop ts app token
      | r => r
      end
  end.

(** The terminal, with the shutdown token. *)
Record terminal : Set := mkTerm { raw : bool; alternate : bool; token : bool }.

(** Which calls on the terminal succeed. *)
Record calls : Set := mkCalls {
  enable_raw : bool; enter : bool; new_terminal : bool; disable_raw : bool; leave : bool; show : bool
}.

(** [None] while the loop runs. *)
Definition run_tui (c : calls) (ts : list turn) (tm : terminal) : terminal * option (result unit unit) :=
  if negb (enable_raw c) then (tm, Some (Err tt))
  else if negb (enter c) then (mkTerm true (alternate tm) (token tm), Some (Err tt))
  else if negb (new_terminal c) then (mkTerm true true (token tm), Some (Err tt))
  else
    match loop ts TuiApp.new (token tm) with
    | (tok, Ok (Goes_on _)) => (mkTerm true true tok, None)
    | (tok, Ok (Leaves _)) =>
        if negb (disable_raw c) then (mkTerm true true tok, Some (Err tt))
        else if negb (leave c) then (mkTerm false true tok, Some (Err tt))
        else if negb (show c) then (mkTerm false false tok, Some (Err tt))
        else (mkTerm false false tok, Some (Ok tt))
    | (tok, Ok Fails) => (mkTerm true true tok, Some (Err tt))
    | (tok, _) => (mkTerm true true tok, Some Panic)
    end.
End Tui.

Module TelemetryLaws.
Import TuiApp.

Definition last_n {A} (n : nat) (l : list A) : list A := drop (length l - n) l.

Lemma last_n_app {A} n (l : list A) x : (0 < n)%nat → last_n n (l ++ [x]) = last_n n (last_n n l ++ [x]).
Proof.
  intros Hn. unfold last_n. rewrite !length_app, length_drop. cbn [length].
  destruct (Nat.le_gt_cases (S (length l)) n).
  - replace (length l - n)%nat with 0%nat by lia. rewrite drop_0. f_equal. lia.
  - rewrite (drop_app_le l) by lia. rewrite (drop_app_le (drop _ l)) by (rewrite length_drop; lia).
    rewrite drop_drop. f_equal. f_equal. lia.
Qed.

Lemma length_last_n {A} n (l : list A) : length (last_n n l) = Nat.min n (length l).
Proof. unfold last_n. rewrite length_drop. lia. Qed.

Lemma last_n_id {A} n (l : list A) : (length l ≤ n)%nat → last_n n l = l.
Proof. intros. unfold last_n. by replace (length l - n)%nat with 0%nat by lia. Qed.

(** Pushing and dropping the oldest keeps the last [n]. *)
Lemma push_drop {A} n (l : list A) x :
  (0 < n)%nat → length l = n → remove0 l = Ok (drop 1 l) ∧ drop 1 l ++ [x] = last_n n (l ++ [x]).
Proof.
  intros Hn Hl. destruct l as [|y l]; [simpl in Hl; lia|]. split; [done|].
  unfold last_n. rewrite length_app, Hl. cbn [length]. by replace (n + 1 - n)%nat with 1%nat by lia.
Qed.

Lemma fetch_spec waiting : ∀ logs, (length logs ≤ 100)%nat → fetch waiting logs = Ok (last_n 100 (logs ++ waiting)).
Proof.
  induction waiting as [|log waiting IH]; intros logs Hl.
  - rewrite app_nil_r, last_n_id by done. done.
  - cbn [fetch]. replace (logs ++ log :: waiting) with ((logs ++ [log]) ++ waiting) by (by rewrite <- app_assoc).
    assert (length (logs ++ [log]) = S (length logs)) as Hlen by (rewrite length_app; simpl; lia).
    destruct (Nat.ltb_spec 100 (length (logs ++ [log]))) as [Hgt|Hle].
    + destruct (logs ++ [log]) as [|y l'] eqn:E; [simpl in Hgt; lia|]. simpl in Hlen, Hgt |- *.
      rewrite IH by lia. f_equal. unfold last_n. cbn [app length]. rewrite !length_app.
      replace (S (length l' + length waiting) - 100)%nat with (S (length l' + length waiting - 100)) by lia. done.
    + simpl. by rewrite IH by lia.
Qed.

(** What the display should hold after some ticks. *)
Definition expected (ts : list (list LogMessage.t * GlobalMetrics.t)) : t :=
  mk (last_n 100 (concat (map fst ts)))
     (last_n 100 (replicate 100 0 ++ map (λ x, GlobalMetrics.tx_rate x.2) ts))
     (last_n 100 (replicate 100 0 ++ map (λ x, GlobalMetrics.rx_rate x.2) ts)).

Lemma last_n_push {A} (l k : list A) x :
  (100 ≤ length l)%nat → remove0 (last_n 100 (l ++ k)) = Ok (drop 1 (last_n 100 (l ++ k))) ∧
  drop 1 (last_n 100 (l ++ k)) ++ [x] = last_n 100 (l ++ k ++ [x]).
Proof.
  intros Hl. assert (length (last_n 100 (l ++ k)) = 100%nat) as Hlen by (rewrite length_last_n, length_app; lia).
  destruct (push_drop 100 (last_n 100 (l ++ k)) x) as [H1 H2]; [lia|done|]. split; [done|].
  rewrite H2, app_assoc. by rewrite <- last_n_app by lia.
Qed.

Lemma on_tick_expected ts waiting m :
  on_tick waiting m (expected ts) = Ok (expected (ts ++ [(waiting, m)])).
Proof.
  unfold on_tick. cbn [logs expected tx_history rx_history].
  rewrite fetch_spec by (rewrite length_last_n; lia).
  unfold expected. rewrite !map_app. cbn [map fst snd]. rewrite concat_app. cbn [concat]. rewrite app_nil_r.
  destruct (last_n_push (replicate 100 0) (map (λ x, GlobalMetrics.tx_rate x.2) ts) (GlobalMetrics.tx_rate m)) as [-> E1]; [done|].
  destruct (last_n_push (replicate 100 0) (map (λ x, GlobalMetrics.rx_rate x.2) ts) (GlobalMetrics.rx_rate m)) as [-> E2]; [done|].
  cbn [mbind result_bind]. rewrite E1, E2. unfold mret, result_ret. do 2 f_equal.
  generalize (concat (map fst ts)). intros l. clear.
  induction waiting as [|w waiting IH] using rev_ind; [by rewrite !app_nil_r, (last_n_id 100 (last_n 100 l)) by (rewrite length_last_n; lia)|].
  rewrite !app_assoc. rewrite (last_n_app 100 (l ++ waiting)), <- IH by lia. by rewrite <- last_n_app by lia.
Qed.

(** The display is bounded and current. After any number of ticks, whatever
    was logged between them, no vector was ever empty when its head was removed, and
    the display holds exactly the last 100 messages, in order, and the last 100
    readings of each rate, the readings before the start counting as zero. *)
Lemma display_current (ts : list (list LogMessage.t * GlobalMetrics.t)) :
  ticks ts new = Ok (expected ts) ∧ (length (logs (expected ts)) ≤ 100)%nat ∧
  length (tx_history (expected ts)) = 100%nat ∧ length (rx_history (expected ts)) = 100%nat.
Proof.
  split_and!; [|cbn [logs expected]; rewrite length_last_n; lia|
    cbn [tx_history rx_history expected]; rewrite length_last_n, length_app, length_replicate; lia..].
  assert (∀ us vs, ticks us (expected vs) = Ok (expected (vs ++ us))) as H; [|exact (H ts [])].
  induction us as [|[w m] us IH]; intros vs; [by rewrite app_nil_r|].
  cbn [ticks]. rewrite on_tick_expected. cbn [mbind result_bind]. by rewrite IH, <- app_assoc.
Qed.

(** A turn of the loop from any display the ticks can produce. *)
Lemma tui_turn_ok t ts tok :
  ∃ tok' o, Tui.loop_turn t (expected ts) tok = (tok', Ok o) ∧
    match o with
    | Tui.Goes_on app => tok' = false ∧ ∃ ts', app = expected ts'
    | Tui.Leaves app => tok' = true
    | Tui.Fails => Tui.drawn t = false ∨ Tui.input t = Tui.PollFailed ∨ Tui.input t = Tui.ReadFailed
    end.
Proof.
  unfold Tui.loop_turn. destruct (Tui.drawn t); cbn [negb]; [|by eexists _, _; split; [reflexivity|left]].
  assert (∃ o, (app ← (if Tui.due t then on_tick (Tui.waiting t) (Tui.metrics t) (expected ts) else Ok (expected ts));
     mret (if tok || Tui.cancelled t then Tui.Leaves app else Tui.Goes_on app)) = Ok o ∧
     match o with
     | Tui.Goes_on app => tok || Tui.cancelled t = false ∧ ∃ ts', app = expected ts'
     | Tui.Leaves app => tok || Tui.cancelled t = true
     | Tui.Fails => False
     end) as (o & Ho & Hc).
  { destruct (Tui.due t); [rewrite on_tick_expected|]; cbn [mbind result_bind];
      (destruct (tok || _); eexists; [done|by split; [reflexivity|split; [done|eexists]]]). }
  destruct (Tui.input t) as [| | |e].
  - eexists _, _. split; [done|]. by right; left.
  - rewrite Ho. exists (tok || Tui.cancelled t), o. split; [done|]. by destruct o.
  - eexists _, _. split; [done|]. by right; right.
  - destruct (Tui.quits e); [by eexists _, _|]. rewrite Ho. exists (tok || Tui.cancelled t), o. split; [done|].
    by destruct o.
Qed.

(** The display never panics, and its loop leaves only when the token is cancelled
    or the terminal fails. *)
Lemma tui_loop_ok us : ∀ ts tok, ∃ tok' o, Tui.loop us (expected ts) tok = (tok', Ok o) ∧
  match o with
  | Tui.Leaves _ => tok' = true
  | Tui.Fails => Exists (λ t, Tui.drawn t = false ∨ Tui.input t = Tui.PollFailed ∨ Tui.input t = Tui.ReadFailed) us
  | Tui.Goes_on _ => us = [] ∨ tok' = false
  end.
Proof.
  induction us as [|t us IH]; intros ts tok; [by eexists _, _; split; [reflexivity|left]|]. cbn [Tui.loop].
  destruct (tui_turn_ok t ts tok) as (tok' & o & -> & Ho). destruct o as [app|app|].
  - destruct Ho as [-> (ts' & ->)]. destruct us as [|u us]; [by eexists _, _; split; [reflexivity|right]|].
    destruct (IH ts' false) as (tok2 & o & -> & H). eexists _, _. split; [done|].
    destruct o; [destruct H; [done|by right]|done|by right].
  - by eexists _, _.
  - eexists _, _. split; [done|by left].
Qed.

(** Leaving the display in order restores the terminal and has stopped the node. *)
Lemma tui_restores c us tm tm' :
  Tui.run_tui c us tm = (tm', Some (Ok tt)) → tm' = Tui.mkTerm false false true.
Proof.
  unfold Tui.run_tui. do 3 (destruct (negb _); [done|]).
  destruct (tui_loop_ok us [] (Tui.token tm)) as (tok' & o & E & Ho). change (expected []) with new in E. rewrite E.
  destruct o; [done| |done]. do 3 (destruct (negb _); [done|]). by intros [= <-]; subst.
Qed.

(** A failure of drawing or of reading the keyboard leaves the terminal in raw
    mode, on its alternate screen, with the node running. *)
Example failed_draw_keeps_raw :
  Tui.run_tui (Tui.mkCalls true true true true true true) [Tui.mkTurn false Tui.Quiet false [] GlobalMetrics.new false]
    (Tui.mkTerm false false false) = (Tui.mkTerm true true false, Some (Err tt)).
Proof. reflexivity. Qed.

(** The logger survives every message but a lone quote. *)
Lemma record_debug_panics name text message :
  StringVisitor.record_debug name text message = Panic ↔ name = StringVisitor.message_field ∧ text = [StringVisitor.quote].
Proof.
  unfold StringVisitor.record_debug. destruct (bytes_eqb name _) eqn:En.
  - apply bytes_eqb_spec in En as ->. case_bool_decide as Hh; simpl; [|naive_solver].
    case_bool_decide as Hl; [|naive_solver].
    destruct text as [|c [|c' text]]; [done| |].
    + simpl in Hh. injection Hh as ->. split; [done|by vm_compute].
    + rewrite slice_in by (unfold blen; simpl; lia). naive_solver.
  - split; [done|]. intros [-> _]. rewrite (proj2 (bytes_eqb_spec _ _) eq_refl) in En. done.
Qed.

Section Rates.
Context `{HX : !HexCrate}.
Import GlobalMetrics.

(** What happens to the metrics: ticks of the updater and messages sent. *)
Inductive event : Type :=
| Tick (p : ConnectionPool.t) (tm : TransferManager.t)
| Sent (n : Z).

Definition apply (m : t) (e : event) : t :=
  match e with Tick p tm => Updater.tick p tm m | Sent n => add_tx n m end.

(** The counters of the routing table stay zero. *)
Lemma dht_counters_unused es m :
  dht_active_peers (fold_left apply es m) = dht_active_peers m ∧ dht_total_peers (fold_left apply es m) = dht_total_peers m.
Proof. revert m. induction es as [|e es IH]; intros m; [done|]. cbn [fold_left]. destruct (IH (apply m e)) as [-> ->]. by destruct e. Qed.

(** The bytes of a message are added to a counter the next tick overwrites, and
    only lower the rate it reports. *)
Lemma message_lowers_rate p tm n m :
  0 ≤ n → is_u64 (tx_bytes m + n) →
  tx_bytes (Updater.tick p tm (add_tx n m)) = tx_bytes (Updater.tick p tm m) ∧
  tx_rate (Updater.tick p tm (add_tx n m)) = Z.max 0 (wrap 64 (PoolStats.total_bytes_sent (ConnectionPool.stats p)) - tx_bytes m - n).
Proof. intros Hn Hu. split; [done|]. simpl. unfold saturating_sub. rewrite wrap_small with (z := tx_bytes m + n) by done. lia. Qed.
End Rates.
End TelemetryLaws.
