(* ===== verification/Ui.v ===== *)
(** ceky-telemetry, ui.rs: what the display draws. A frame collects the widgets
    rendered into it, each with its area; how ratatui divides an area and paints a
    widget is not part of the workspace. *)
From Stdlib Require Import String.
From S2P Require Import Prelude Bytes TransferMsg DhtMsg Transfer Connection Node Display Telemetry.

Local Open Scope Z_scope.

(** ** The part of ratatui the code uses *)
Module Rect.
Record t : Set := mk { x : Z; y : Z; width : Z; height : Z }.     (** [u16] each *)
End Rect.

Inductive Direction : Set := Horizontal | Vertical.
Inductive Constraint : Set := Length (n : Z) | Min (n : Z) | Percentage (n : Z).
Inductive Color : Set := Cyan | Green | Yellow | Magenta | LightBlue | Red | White | DarkGray.

(** [Span::raw] has no colour; [Span::styled] has the one of its style. *)
Record Span : Set := mkSpan { content : bytes; fg : option Color }.
Abbreviation Line := (list Span).
Definition raw (s : bytes) : Span := mkSpan s None.
Definition styled (s : bytes) (c : Color) : Span := mkSpan s (Some c).

(** The widgets, in a bordered block with a title. *)
Inductive Widget : Set :=
| Paragraph (title : bytes) (text : list Line) (style : option Color)
| Sparkline (title : bytes) (data : list Z) (style : option Color)
| List (title : bytes) (items : list Line) (style : option Color).

(** [Layout::default().direction(d).constraints(cs).split(area)] *)
Class Ratatui : Type := split : Direction → list Constraint → Rect.t → list Rect.t.

(** One area per constraint. *)
Class RatatuiOk `{RT : !Ratatui} : Prop := split_length : ∀ d cs area, length (split d cs area) = length cs.

(** The widgets rendered so far. *)
Abbreviation frame := (list (Rect.t * Widget)).
Definition render_widget (w : Widget) (area : Rect.t) (f : frame) : frame := f ++ [(area, w)].

(** [chunks[i]] panics out of range. *)
Definition chunk (chunks : list Rect.t) (i : nat) : result unit Rect.t :=
  match chunks !! i with Some area => Ok area | None => Panic end.

Module Ui.
Import GlobalMetrics.

(** In [u32], as the code computes it. *)
Definition percent (p : TransferProgress.t) : Z :=
  if TransferProgress.total_chunks p =? 0 then 0
  else wrap 32 (TransferProgress.completed_chunks p * 100) / TransferProgress.total_chunks p.

(** The line of a transfer. *)
Definition transfer_line (t : TransferProgress.t) : bytes :=
  lit "[" ++ lit (if TransferProgress.is_sending t then "Tx" else "Rx")%string ++ lit "] " ++
  TransferProgress.file_name t ++ lit " - " ++ to_text (percent t) ++ lit "% (" ++
  to_text (TransferProgress.completed_chunks t) ++ lit "/" ++ to_text (TransferProgress.total_chunks t) ++ lit ")".

Definition level_color (level : bytes) : Color :=
  if bytes_eqb level (lit "ERROR") then Red
  else if bytes_eqb level (lit "WARN") then Yellow
  else if bytes_eqb level (lit "INFO") then White
  else if bytes_eqb level (lit "DEBUG") then DarkGray
  else White.

(** The newest messages that fit; the height is a [u16], and [height - 2] wraps. *)
Definition shown (height : Z) (logs : list LogMessage.t) : list LogMessage.t :=
  take (Z.to_nat (wrap 64 (height - 2))) (rev logs).

Definition log_line (l : LogMessage.t) : Line :=
  [ styled (LogMessage.timestamp l ++ lit " ") DarkGray;
    styled (lit "[" ++ LogMessage.level l ++ lit "] ") (level_color (LogMessage.level l));
    raw (LogMessage.message l) ].

Section Draw.
Context `{RT : !Ratatui}.

Definition draw_top_network (m : t) (app : TuiApp.t) (area : Rect.t) (f : frame) : result unit frame :=
  let chunks := split Horizontal [Percentage 30; Percentage 35; Percentage 35] area in
  let conn_text :=
    [ [raw (lit "Active TCP: " ++ to_text (active_tcp_connections m))];
      [raw (lit "Active UDP: " ++ to_text 0)] ] in
  a0 ← chunk chunks 0;
  let f := render_widget (Paragraph (lit "Connections") conn_text (Some Cyan)) a0 f in
  let tx_title := lit "TX Rate: " ++ to_text (tx_rate m) ++ lit " B/s" in
  a1 ← chunk chunks 1;
  let f := render_widget (Sparkline tx_title (TuiApp.tx_history app) (Some Green)) a1 f in
  let rx_title := lit "RX Rate: " ++ to_text (rx_rate m) ++ lit " B/s" in
  a2 ← chunk chunks 2;
  mret (render_widget (Sparkline rx_title (TuiApp.rx_history app) (Some Yellow)) a2 f).

Definition draw_middle_dht (m : t) (area : Rect.t) (f : frame) : frame :=
  let text :=
    [ [raw (lit "Routing Table: " ++ to_text (dht_active_peers m) ++ lit " active / " ++
            to_text (dht_total_peers m) ++ lit " total peers")];
      [raw (lit "SuperNode Status: Not Promoted")] ] in
  render_widget (Paragraph (lit "Kademlia DHT Topolojisi") text (Some Magenta)) area f.

(** The height is the one of the whole area, not of the list's. *)
Definition draw_bottom_transfers_logs (m : t) (app : TuiApp.t) (area : Rect.t) (f : frame) : result unit frame :=
  let chunks := split Horizontal [Percentage 50; Percentage 50] area in
  let transfer_list := map (λ t, [raw (transfer_line t)]) (transfers m) in
  a0 ← chunk chunks 0;
  let f := render_widget (List (lit "Active Transfers") transfer_list (Some LightBlue)) a0 f in
  let logs := map log_line (shown (Rect.height area) (TuiApp.logs app)) in
  a1 ← chunk chunks 1;
  mret (render_widget (List (lit "Event Logs") logs None) a1 f).

Definition draw (area : Rect.t) (m : t) (app : TuiApp.t) : result unit frame :=
  let chunks := split Vertical [Length 7; Length 5; Min 10] area in
  a0 ← chunk chunks 0;
  f ← draw_top_network m app a0 [];
  a1 ← chunk chunks 1;
  let f := draw_middle_dht m a1 f in
  a2 ← chunk chunks 2;
  draw_bottom_transfers_logs m app a2 f.
End Draw.
End Ui.

Module UiLaws.
Import TelemetryLaws.

(** The figure is a percentage while it does not overflow, which it does above
    42,949,672 chunks. *)
Lemma percent_correct p :
  0 ≤ TransferProgress.completed_chunks p ≤ TransferProgress.total_chunks p →
  TransferProgress.completed_chunks p ≤ 42949672 → 0 ≤ Ui.percent p ≤ 100.
Proof.
  intros Hc Hm. unfold Ui.percent. destruct (Z.eqb_spec (TransferProgress.total_chunks p) 0); [lia|].
  rewrite wrap_small by (unfold is_uint; lia). split; [apply Z.div_pos; lia|]. apply Z.div_le_upper_bound; lia.
Qed.

Example percent_overflows : Ui.percent (TransferProgress.mk [] [] 50000000 50000000 true) = 14.
Proof. vm_compute. reflexivity. Qed.

(** The messages shown are the newest, newest first; below two lines of height the
    subtraction wraps and all of them are. *)
Lemma shown_newest height logs :
  0 ≤ height < 2 ^ 16 → blen logs ≤ 100 →
  Ui.shown height logs = take (if height <? 2 then 100 else Z.to_nat (height - 2)) (rev logs).
Proof.
  intros Hh Hl. unfold Ui.shown, blen in *. destruct (Z.ltb_spec height 2).
  - assert (wrap 64 (height - 2) = height - 2 + 2 ^ 64) as -> by (symmetry; apply (Z.mod_unique _ _ (-1)); lia).
    rewrite !take_ge by (rewrite length_rev; lia). done.
  - rewrite wrap_small by (split; lia). done.
Qed.

Section Screen.
Context `{RT : !Ratatui, ROK : !RatatuiOk}.

(** Every area that is asked for exists. *)
Lemma chunk_ok d cs area i : (i < length cs)%nat → ∃ a, chunk (split d cs area) i = Ok a ∧ split d cs area !! i = Some a.
Proof.
  intros Hi. unfold chunk. destruct (lookup_lt_is_Some_2 (split d cs area) i) as [a Ha]; [by rewrite split_length|].
  exists a. by rewrite Ha.
Qed.

(** The screen is current. After any ticks of the display, and whatever the metrics
    are, drawing succeeds with six widgets: the last hundred readings of both rates
    under the rates of the moment, a line for each transfer, and the newest of the
    last hundred messages, newest first, as many as the height of the lower third
    allows. *)
Lemma screen_current area m ts :
  ∃ f bottom, Ui.draw area m (expected ts) = Ok f ∧ split Vertical [Length 7; Length 5; Min 10] area !! 2%nat = Some bottom ∧
    length f = 6%nat ∧
    Sparkline (lit "TX Rate: " ++ to_text (GlobalMetrics.tx_rate m) ++ lit " B/s")
      (last_n 100 (replicate 100 0 ++ map (λ x, GlobalMetrics.tx_rate x.2) ts)) (Some Green) ∈ f.*2 ∧
    Sparkline (lit "RX Rate: " ++ to_text (GlobalMetrics.rx_rate m) ++ lit " B/s")
      (last_n 100 (replicate 100 0 ++ map (λ x, GlobalMetrics.rx_rate x.2) ts)) (Some Yellow) ∈ f.*2 ∧
    List (lit "Active Transfers") (map (λ t, [raw (Ui.transfer_line t)]) (GlobalMetrics.transfers m)) (Some LightBlue) ∈ f.*2 ∧
    (0 ≤ Rect.height bottom < 2 ^ 16 →
     List (lit "Event Logs") (map Ui.log_line
       (take (if Rect.height bottom <? 2 then 100 else Z.to_nat (Rect.height bottom - 2)) (rev (last_n 100 (concat (map fst ts))))))
       None ∈ f.*2).
Proof.
  destruct (chunk_ok Vertical [Length 7; Length 5; Min 10] area 0) as (a0 & E0 & _); [simpl; lia|].
  destruct (chunk_ok Vertical [Length 7; Length 5; Min 10] area 1) as (a1 & E1 & _); [simpl; lia|].
  destruct (chunk_ok Vertical [Length 7; Length 5; Min 10] area 2) as (a2 & E2 & L2); [simpl; lia|].
  destruct (chunk_ok Horizontal [Percentage 30; Percentage 35; Percentage 35] a0 0) as (b0 & F0 & _); [simpl; lia|].
  destruct (chunk_ok Horizontal [Percentage 30; Percentage 35; Percentage 35] a0 1) as (b1 & F1 & _); [simpl; lia|].
  destruct (chunk_ok Horizontal [Percentage 30; Percentage 35; Percentage 35] a0 2) as (b2 & F2 & _); [simpl; lia|].
  destruct (chunk_ok Horizontal [Percentage 50; Percentage 50] a2 0) as (c0 & G0 & _); [simpl; lia|].
  destruct (chunk_ok Horizontal [Percentage 50; Percentage 50] a2 1) as (c1 & G1 & _); [simpl; lia|].
  unfold Ui.draw, Ui.draw_top_network, Ui.draw_bottom_transfers_logs, mbind, result_bind, mret, result_ret.
  rewrite E0, E1, E2, F0, F1, F2, G0, G1. eexists _, a2. split_and!; [reflexivity|done|done|..].
  4: intros Hh; rewrite shown_newest; [|done|cbn [TuiApp.logs expected]; unfold blen; rewrite length_last_n; lia].
  all: unfold render_widget, Ui.draw_middle_dht; cbn [app fmap list_fmap snd expected TuiApp.tx_history TuiApp.rx_history TuiApp.logs];
    repeat first [apply elem_of_cons; left; reflexivity | apply elem_of_cons; right].
Qed.
End Screen.
End UiLaws.

(** A division of every area into copies of it, and one screen drawn with it. *)
Module UiWitness.
#[local] Instance toy_split : Ratatui := λ _ cs area, replicate (length cs) area.
#[local] Instance toy_split_ok : RatatuiOk.
Proof. intros d cs area. apply length_replicate. Qed.

Definition upload : TransferProgress.t := TransferProgress.mk [] (lit "a.txt") 4 1 true.
Definition now_metrics : GlobalMetrics.t := GlobalMetrics.mk 0 0 512 0 2 0 0 [upload].
Definition logged : LogMessage.t := LogMessage.mk (lit "12:00:00") (lit "WARN") (lit "node") (lit "hello").

Example upload_line : Ui.transfer_line upload = lit "[Tx] a.txt - 25% (1/4)".
Proof. vm_compute. reflexivity. Qed.

Example drawn_logs :
  ∃ f, Ui.draw (Rect.mk 0 0 80 24) now_metrics (TuiApp.mk [logged] [] []) = Ok f ∧
    last f = Some (Rect.mk 0 0 80 24, List (lit "Event Logs")
      [[styled (lit "12:00:00 ") DarkGray; styled (lit "[WARN] ") Yellow; raw (lit "hello")]] None).
Proof. eexists. split; vm_compute; reflexivity. Qed.
End UiWitness.
