(* ===== verification/Config.v ===== *)
(** ceky-node: config.rs, the resolution of main.rs, and api.rs.

    The configuration has three layers: command line, file, built-in values. The
    crate toml is the parameter [TomlCrate]; what the file system answers, and what
    the text of an address parses to, are arguments. Paths and strings are byte
    strings. *)
From S2P Require Import Prelude Bytes DhtMsg PeerId CryptoTypes Identity Transfer Connection Node Telemetry.

Local Open Scope Z_scope.

Module NetworkConfig.
Record t : Set := mk {
  tcp_addr : option SocketAddr.t; udp_addr : option SocketAddr.t;
  max_connections : option Z; skip_nat : option bool
}.
Definition default : t := mk None None None None.
End NetworkConfig.

Module BootstrapSeeds.
Record t : Set := mk { seeds : option (list SocketAddr.t) }.
Definition default : t := mk None.
End BootstrapSeeds.

Module NodeInfoConfig.
Record t : Set := mk { key_file : option bytes; log_level : option bytes }.
Definition default : t := mk None None.
End NodeInfoConfig.

Module ApiConfig.
Record t : Set := mk { port : option Z; key : option bytes }.
Definition default : t := mk None None.
End ApiConfig.

Module ConfigFile.
Record t : Set := mk {
  network : option NetworkConfig.t; bootstrap : option BootstrapSeeds.t;
  node : option NodeInfoConfig.t; api : option ApiConfig.t
}.
Definition default : t := mk None None None None.
End ConfigFile.

(** [toml::from_str] *)
Class TomlCrate : Type := { toml_parse : bytes → option ConfigFile.t }.

(** What is found at the path of the configuration file. *)
Inductive on_disk : Set :=
| Missing              (** [path.exists()] is false *)
| NoCanonicalPath      (** [canonicalize] fails *)
| NotAFile
| Unreadable
| Content (text : bytes).

(** [ConfigFile::load_from_file] *)
Definition load_from_file `{TM : !TomlCrate} (path : on_disk) : result unit ConfigFile.t :=
  match path with
  | Missing => Ok ConfigFile.default
  | NoCanonicalPath => Err tt
  | NotAFile => Ok ConfigFile.default
  | Unreadable => Err tt
  | Content text => ok_or (toml_parse text) tt
  end.

(** ["0.0.0.0:9741"] and the like *)
Definition any_addr (port : Z) : SocketAddr.t := SocketAddr.V4 [0; 0; 0; 0] port.
(** ["identity.key"] and ["info"] *)
Definition identity_key : bytes := [105; 100; 101; 110; 116; 105; 116; 121; 46; 107; 101; 121].
Definition info_level : bytes := [105; 110; 102; 111].

(** The command line ([Cli] of main.rs, without the path of the file). *)
Module Cli.
Record t : Set := mk {
  tcp_addr : option SocketAddr.t; udp_addr : option SocketAddr.t; key_file : option bytes;
  seeds : option (list SocketAddr.t); max_connections : option Z; log_level : option bytes;
  skip_nat : bool; api_port : option Z; api_key : option bytes; daemon : bool
}.
End Cli.

(** [a.or(b)] *)
Definition or_else {A} (x y : option A) : option A := match x with Some _ => x | None => y end.

Module ResolvedConfig.
Record t : Set := mk {
  tcp_addr : SocketAddr.t; udp_addr : SocketAddr.t; key_file : bytes; seeds : list SocketAddr.t;
  max_connections : Z; log_level : bytes; skip_nat : bool; api_port : Z; api_key : option bytes; daemon : bool
}.

Definition merge (cli : Cli.t) (file : ConfigFile.t) : t :=
  let network := default NetworkConfig.default (ConfigFile.network file) in
  let bootstrap := default BootstrapSeeds.default (ConfigFile.bootstrap file) in
  let node := default NodeInfoConfig.default (ConfigFile.node file) in
  let api := default ApiConfig.default (ConfigFile.api file) in
  let tcp_addr := default (any_addr 9741) (or_else (Cli.tcp_addr cli) (NetworkConfig.tcp_addr network)) in
  let udp_addr := default (any_addr 9742) (or_else (Cli.udp_addr cli) (NetworkConfig.udp_addr network)) in
  let key_file := default identity_key (or_else (Cli.key_file cli) (NodeInfoConfig.key_file node)) in
  let seeds := default [] (or_else (Cli.seeds cli) (BootstrapSeeds.seeds bootstrap)) in
  let max_connections := default 1024 (or_else (Cli.max_connections cli) (NetworkConfig.max_connections network)) in
  let log_level := default info_level (or_else (Cli.log_level cli) (NodeInfoConfig.log_level node)) in
  let skip_nat := if Cli.skip_nat cli then true else default false (NetworkConfig.skip_nat network) in
  let api_port := default 9743 (or_else (Cli.api_port cli) (ApiConfig.port api)) in
  let api_key := or_else (Cli.api_key cli) (ApiConfig.key api) in
  mk tcp_addr udp_addr key_file seeds max_connections log_level skip_nat api_port api_key (Cli.daemon cli).
End ResolvedConfig.

(** The configuration [main] starts the node with. *)
Definition resolve `{TM : !TomlCrate} (cli : Cli.t) (path : on_disk) : ResolvedConfig.t :=
  let config_file := match load_from_file path with Ok file => file | _ => ConfigFile.default end in
  ResolvedConfig.merge cli config_file.

(** ** api.rs *)
Module Api.
(** The state the handlers share, without its channels; the identity by its
    identifier. *)
Module ApiState.
Record t : Set := mk {
  metrics : GlobalMetrics.t; peer_id : PeerId.t; tcp_addr : SocketAddr.t; udp_addr : SocketAddr.t;
  api_key : option bytes
}.
End ApiState.

(** The bodies of the answers. The texts of the two addresses are the addresses. *)
Module StatusResponse.
Record t : Set := mk {
  peer_id : bytes; tcp_addr : SocketAddr.t; udp_addr : SocketAddr.t;
  active_connections : Z; dht_active_peers : Z; dht_total_peers : Z
}.
End StatusResponse.

Module MetricsResponse.
Record t : Set := mk { tx_bytes : Z; rx_bytes : Z; tx_rate : Z; rx_rate : Z; transfers : list TransferProgress.t }.
End MetricsResponse.

Definition get_status (state : ApiState.t) : StatusResponse.t :=
  let m := ApiState.metrics state in
  StatusResponse.mk (PeerId.to_string (ApiState.peer_id state)) (ApiState.tcp_addr state) (ApiState.udp_addr state)
    (GlobalMetrics.active_tcp_connections m) (GlobalMetrics.dht_active_peers m) (GlobalMetrics.dht_total_peers m).

(** [poisoned]: reading the lock of the transfers fails. *)
Definition get_metrics (poisoned : bool) (state : ApiState.t) : MetricsResponse.t :=
  let m := ApiState.metrics state in
  let transfers := if poisoned then [] else GlobalMetrics.transfers m in
  MetricsResponse.mk (GlobalMetrics.tx_bytes m) (GlobalMetrics.rx_bytes m) (GlobalMetrics.tx_rate m) (GlobalMetrics.rx_rate m)
    transfers.

Inductive StatusCode : Set := ACCEPTED | BAD_REQUEST | UNAUTHORIZED.

(** A bare status, a body with 200, the switch to the event stream, or an answer of
    the library axum itself. *)
Inductive response : Set :=
| Code (c : StatusCode)
| Status (body : StatusResponse.t)
| Metrics (body : MetricsResponse.t)
| Upgrade
| Axum (status : Z).

(** The status line of an answer. *)
Definition status_of (r : response) : Z :=
  match r with
  | Code ACCEPTED => 202
  | Code BAD_REQUEST => 400
  | Code UNAUTHORIZED => 401
  | Status _ | Metrics _ => 200
  | Upgrade => 101
  | Axum status => status
  end.

(** The value of the Authorization header: not there, not visible ASCII, or text. *)
Inductive auth_header : Set := NoHeader | NotText | Text (s : bytes).

(** ["Bearer "] *)
Definition bearer : bytes := [66; 101; 97; 114; 101; 114; 32].

Definition authorized (api_key : option bytes) (h : auth_header) : bool :=
  match api_key with
  | Some expected_key =>
      match h with
      | NoHeader => false
      | NotText => bytes_eqb [] (bearer ++ expected_key)
      | Text s => bytes_eqb s (bearer ++ expected_key)
      end
  | None => true
  end.

(** What an extractor of axum ([Json], [WebSocketUpgrade]) makes of a request: the
    argument of the handler, or a rejection (a body that is not JSON, of the wrong
    type or shape, headers that ask for no upgrade), which axum answers by itself. *)
Inductive extracted (A : Type) : Type := Given (a : A) | Rejected (status : Z).
Arguments Given {A} a.
Arguments Rejected {A} status.

(** The requests by their route; [Given (Some a)] is a body whose address parses to
    [a], [Given None] one whose address does not parse. A request for no route, or
    with another method, is answered by axum. *)
Inductive request : Type :=
| GetStatus
| GetMetrics (poisoned : bool)
| ConnectPeer (body : extracted (option SocketAddr.t))
| SendFileTo (body : extracted (option SocketAddr.t * bytes))
| WsEvents (upgrade : extracted unit)
| Unrouted (status : Z).

(** [command_tx]: the commands sent to the event loop. *)
Definition connect_peer (parsed : option SocketAddr.t) (commands : list ApiCommand.t) : list ApiCommand.t * StatusCode :=
  match parsed with
  | Some addr => (commands ++ [ApiCommand.Connect addr], ACCEPTED)
  | None => (commands, BAD_REQUEST)
  end.

Definition send_file (parsed : option SocketAddr.t) (file_path : bytes) (commands : list ApiCommand.t)
    : list ApiCommand.t * StatusCode :=
  match parsed with
  | Some addr => (commands ++ [ApiCommand.SendFile addr file_path], ACCEPTED)
  | None => (commands, BAD_REQUEST)
  end.

Definition route (state : ApiState.t) (req : request) (commands : list ApiCommand.t) : list ApiCommand.t * response :=
  match req with
  | GetStatus => (commands, Status (get_status state))
  | GetMetrics poisoned => (commands, Metrics (get_metrics poisoned state))
  | WsEvents (Given _) => (commands, Upgrade)
  | ConnectPeer (Given parsed) => prod_map id Code (connect_peer parsed commands)
  | SendFileTo (Given (parsed, file_path)) => prod_map id Code (send_file parsed file_path commands)
  | WsEvents (Rejected status) | ConnectPeer (Rejected status) | SendFileTo (Rejected status) | Unrouted status =>
      (commands, Axum status)
  end.

(** The router behind its middleware, which a request passes before anything is
    extracted from it, also one for no route. *)
Definition handle (state : ApiState.t) (h : auth_header) (req : request) (commands : list ApiCommand.t)
    : list ApiCommand.t * response :=
  if authorized (ApiState.api_key state) h then route state req commands else (commands, Code UNAUTHORIZED).

(** *** The event stream *)
(** What [rx.recv()] yields: an event, or an error because the receiver fell
    behind or the channel was closed. *)
Inductive received : Set := Item (e : ApiEvent.t) | Lagged | Closed.

(** The welcome holds the displayed identifier. *)
Inductive message : Set := Welcome (peer_id : bytes) | Forward (e : ApiEvent.t).

(** The loop; [sent] says for each event whether the socket took it. *)
Fixpoint forward (rs : list (received * bool)) : list message :=
  match rs with
  | (Item e, true) :: rs => Forward e :: forward rs
  | (Item e, false) :: _ => []
  | _ => []
  end.

Definition handle_socket (peer_id : PeerId.t) (welcomed : bool) (rs : list (received * bool)) : list message :=
  if welcomed then Welcome (PeerId.to_string peer_id) :: forward rs else [].
End Api.

(** The state [start_node] gives the interface. *)
Definition api_state (metrics : GlobalMetrics.t) (identity : Identity.t) (config : ResolvedConfig.t) : Api.ApiState.t :=
  Api.ApiState.mk metrics (Identity.peer_id identity) (ResolvedConfig.tcp_addr config) (ResolvedConfig.udp_addr config)
    (ResolvedConfig.api_key config).

(** ** The layers, as a reference *)
Module ConfigLaws.

(** A layer says something or nothing about each setting. *)
Record layer : Set := mkLayer {
  l_tcp : option SocketAddr.t; l_udp : option SocketAddr.t; l_key_file : option bytes;
  l_seeds : option (list SocketAddr.t); l_max : option Z; l_log : option bytes; l_skip : option bool;
  l_port : option Z; l_api_key : option bytes
}.

Definition silent : layer := mkLayer None None None None None None None None None.

(** The upper layer wins where it speaks. *)
Definition over (u l : layer) : layer :=
  mkLayer (or_else (l_tcp u) (l_tcp l)) (or_else (l_udp u) (l_udp l)) (or_else (l_key_file u) (l_key_file l))
    (or_else (l_seeds u) (l_seeds l)) (or_else (l_max u) (l_max l)) (or_else (l_log u) (l_log l))
    (or_else (l_skip u) (l_skip l)) (or_else (l_port u) (l_port l)) (or_else (l_api_key u) (l_api_key l)).

Definition of_cli (c : Cli.t) : layer :=
  mkLayer (Cli.tcp_addr c) (Cli.udp_addr c) (Cli.key_file c) (Cli.seeds c) (Cli.max_connections c) (Cli.log_level c)
    (if Cli.skip_nat c then Some true else None) (Cli.api_port c) (Cli.api_key c).

Definition of_network (n : NetworkConfig.t) : layer :=
  mkLayer (NetworkConfig.tcp_addr n) (NetworkConfig.udp_addr n) None None (NetworkConfig.max_connections n) None
    (NetworkConfig.skip_nat n) None None.
Definition of_bootstrap (b : BootstrapSeeds.t) : layer :=
  mkLayer None None None (BootstrapSeeds.seeds b) None None None None None.
Definition of_node (n : NodeInfoConfig.t) : layer :=
  mkLayer None None (NodeInfoConfig.key_file n) None None (NodeInfoConfig.log_level n) None None None.
Definition of_api (a : ApiConfig.t) : layer :=
  mkLayer None None None None None None None (ApiConfig.port a) (ApiConfig.key a).

Definition section {A} (f : A → layer) (o : option A) : layer := match o with Some x => f x | None => silent end.

(** The sections of the file speak of different settings. *)
Definition of_file (f : ConfigFile.t) : layer :=
  over (section of_network (ConfigFile.network f))
    (over (section of_bootstrap (ConfigFile.bootstrap f))
       (over (section of_node (ConfigFile.node f)) (section of_api (ConfigFile.api f)))).

Definition built_in : layer :=
  mkLayer (Some (any_addr 9741)) (Some (any_addr 9742)) (Some identity_key) (Some []) (Some 1024) (Some info_level)
    (Some false) (Some 9743) None.

(** What a stack of layers, uppermost first, settles. *)
Definition settle (ls : list layer) : layer := foldr over silent ls.

Lemma or_else_assoc {A} (x y z : option A) : or_else (or_else x y) z = or_else x (or_else y z).
Proof. by destruct x. Qed.

#[export] Instance over_assoc : Assoc (=) over.
Proof. intros x y z. unfold over. simpl. f_equal; by rewrite or_else_assoc. Qed.
#[export] Instance over_left_id : LeftId (=) silent over.
Proof. by intros []. Qed.
#[export] Instance over_right_id : RightId (=) silent over.
Proof.
  intros [x1 x2 x3 x4 x5 x6 x7 x8 x9]. unfold over. simpl.
  by destruct x1, x2, x3, x4, x5, x6, x7, x8, x9.
Qed.

Lemma or_else_None {A} (x : option A) : or_else x None = x.
Proof. by destruct x. Qed.

Lemma or_else_default {A} (x y : option A) (d : A) : or_else x (or_else y (or_else (Some d) None)) = Some (default d (or_else x y)).
Proof. by destruct x, y. Qed.

(** The file's layer, setting by setting. *)
Lemma of_file_eq f :
  let network := default NetworkConfig.default (ConfigFile.network f) in
  let node := default NodeInfoConfig.default (ConfigFile.node f) in
  let api := default ApiConfig.default (ConfigFile.api f) in
  of_file f =
  mkLayer (NetworkConfig.tcp_addr network) (NetworkConfig.udp_addr network) (NodeInfoConfig.key_file node)
    (BootstrapSeeds.seeds (default BootstrapSeeds.default (ConfigFile.bootstrap f))) (NetworkConfig.max_connections network)
    (NodeInfoConfig.log_level node) (NetworkConfig.skip_nat network) (ApiConfig.port api) (ApiConfig.key api).
Proof.
  destruct f as [n b i a]. unfold of_file, over. simpl.
  f_equal; destruct n, b, i, a; simpl; by rewrite ?or_else_None.
Qed.

(** A resolved configuration holds what a layer says. *)
Definition holds (l : layer) (r : ResolvedConfig.t) : Prop :=
  l_tcp l = Some (ResolvedConfig.tcp_addr r) ∧ l_udp l = Some (ResolvedConfig.udp_addr r) ∧
  l_key_file l = Some (ResolvedConfig.key_file r) ∧ l_seeds l = Some (ResolvedConfig.seeds r) ∧
  l_max l = Some (ResolvedConfig.max_connections r) ∧ l_log l = Some (ResolvedConfig.log_level r) ∧
  l_skip l = Some (ResolvedConfig.skip_nat r) ∧ l_port l = Some (ResolvedConfig.api_port r) ∧
  l_api_key l = ResolvedConfig.api_key r.

Lemma merge_settles cli f :
  holds (settle [of_cli cli; of_file f; built_in]) (ResolvedConfig.merge cli f) ∧
  ResolvedConfig.daemon (ResolvedConfig.merge cli f) = Cli.daemon cli.
Proof.
  split; [|done]. unfold settle. cbn [foldr]. rewrite of_file_eq. unfold holds, over, ResolvedConfig.merge.
  cbn -[or_else default]. split_and!; try apply or_else_default.
  - by destruct (Cli.skip_nat cli), (NetworkConfig.skip_nat _).
  - by rewrite !or_else_None.
Qed.

Section Config.
Context `{TM : !TomlCrate}.

(** The layer of a configuration file: nothing, when there is none or it cannot be
    used. *)
Definition file_layer (path : on_disk) : layer :=
  match path with
  | Content text => match toml_parse text with Some f => of_file f | None => silent end
  | _ => silent
  end.

(** C31: the configuration is what the layers say. Whatever the command line and the
    file hold, every setting the node starts with is the command line's, or else the
    file's, or else the built-in one; a file that is missing, unreadable or not
    valid counts as silent; and the daemon flag is the command line's alone. *)
Theorem resolve_layers (cli : Cli.t) (path : on_disk) :
  holds (settle [of_cli cli; file_layer path; built_in]) (resolve cli path) ∧
  ResolvedConfig.daemon (resolve cli path) = Cli.daemon cli.
Proof.
  unfold resolve, load_from_file, file_layer.
  destruct path as [| | | |text]; try exact (merge_settles cli ConfigFile.default).
  destruct (toml_parse text) as [f|]; [exact (merge_settles cli f)|exact (merge_settles cli ConfigFile.default)].
Qed.

(** A file that does not parse takes the key of the interface with it. *)
Lemma broken_config_opens_api cli text m id h req commands :
  toml_parse text = None → Cli.api_key cli = None →
  let state := api_state m id (resolve cli (Content text)) in
  Api.handle state h req commands = Api.route state req commands.
Proof. intros Ht Hk. unfold resolve, load_from_file. rewrite Ht. unfold Api.handle. simpl. by rewrite Hk. Qed.
End Config.

(** The command a request asks for, if it asks for one. *)
Definition asked (req : Api.request) : list ApiCommand.t :=
  match req with
  | Api.ConnectPeer (Api.Given (Some a)) => [ApiCommand.Connect a]
  | Api.SendFileTo (Api.Given (Some a, path)) => [ApiCommand.SendFile a path]
  | _ => []
  end.

(** The request has an address that does not parse, or axum rejects it with 400. *)
Definition at_fault (req : Api.request) : Prop :=
  match req with
  | Api.ConnectPeer (Api.Given None) | Api.SendFileTo (Api.Given (None, _)) => True
  | Api.ConnectPeer (Api.Rejected st) | Api.SendFileTo (Api.Rejected st) | Api.WsEvents (Api.Rejected st) | Api.Unrouted st => st = 400
  | _ => False
  end.

(** No key is configured, or the header is exactly the key as a bearer token. *)
Definition admitted (state : Api.ApiState.t) (h : Api.auth_header) : Prop :=
  ∀ key, Api.ApiState.api_key state = Some key → h = Api.Text (Api.bearer ++ key).

Lemma authorized_admitted state h : Api.authorized (Api.ApiState.api_key state) h = true ↔ admitted state h.
Proof.
  unfold Api.authorized, admitted. destruct (Api.ApiState.api_key state) as [key|]; [|done]. split.
  - intros Hh k [= <-]. destruct h as [| |s]; [done|by apply bytes_eqb_spec in Hh|]. by apply bytes_eqb_spec in Hh as ->.
  - intros Hh. rewrite (Hh key eq_refl). by apply bytes_eqb_spec.
Qed.

(** C32: the interface obeys, and answers, only who has the key. When a key is
    configured, a request whose Authorization header is not exactly the key as a
    bearer token is answered 401, whatever it asks for, and sends no command. When
    the header is, or no key is configured, a request sends exactly the command it
    asks for, if it asks for one, and is then answered 202; it is answered 400
    exactly when its address does not parse or axum rejects it with 400. *)
Theorem api_guarded (state : Api.ApiState.t) (h : Api.auth_header) (req : Api.request) (commands : list ApiCommand.t) :
  (¬ admitted state h → Api.handle state h req commands = (commands, Api.Code Api.UNAUTHORIZED)) ∧
  (admitted state h → ∃ r, Api.handle state h req commands = (commands ++ asked req, r) ∧
     r ≠ Api.Code Api.UNAUTHORIZED ∧ (asked req ≠ [] → r = Api.Code Api.ACCEPTED) ∧
     (Api.status_of r = 400 ↔ at_fault req)).
Proof.
  unfold Api.handle. rewrite <- authorized_admitted. destruct (Api.authorized _ h); (split; intros Ha; try done). clear Ha.
  exists (Api.route state req commands).2.
  destruct req as [|p|[[]|]|[[[] path]|]|[]|st]; simpl; rewrite ?app_nil_r; split_and!; done.
Qed.

Section Reports.
Context `{HX : !HexCrate}.

(** What the interface reports after a tick of the updater: the pool and the
    transfers as they were then, and no figure of the routing table. *)
Lemma reports_current p tm es id cfg :
  let state := api_state (Updater.tick p tm (fold_left TelemetryLaws.apply es GlobalMetrics.new)) id cfg in
  let stats := ConnectionPool.stats p in
  Api.StatusResponse.active_connections (Api.get_status state) = Z.of_nat (PoolStats.active stats) ∧
  Api.StatusResponse.dht_total_peers (Api.get_status state) = 0 ∧
  Api.MetricsResponse.tx_bytes (Api.get_metrics false state) = wrap 64 (PoolStats.total_bytes_sent stats) ∧
  Api.MetricsResponse.transfers (Api.get_metrics false state) = map Updater.progress (TransferManager.snapshot_transfers tm).
Proof. split_and!; try done. by apply TelemetryLaws.dht_counters_unused. Qed.
End Reports.

(** The identifier the interface reports cannot be used: it does not parse as one,
    and different identifiers are reported alike. *)
Lemma reported_id_unusable m id cfg :
  PeerId.wf (Identity.peer_id id) →
  PeerId.from_str (Api.StatusResponse.peer_id (Api.get_status (api_state m id cfg))) = Err InvalidPeerId.
Proof. intros [Hl _]. by apply displayed_not_parsed. Qed.

Example reported_alike : ∃ p q, PeerId.wf p ∧ PeerId.wf q ∧ p ≠ q ∧ PeerId.to_string p = PeerId.to_string q.
Proof.
  exists (replicate 32 0), (<[10%nat := 1]> (replicate 32 0)).
  split_and!; [split; [done|]|split; [done|]|done|done]; apply Forall_forall; vm_compute; set_solver by lia.
Qed.

(** The event stream stops for good when the client falls behind. *)
Lemma lagging_client_cut_off id rs rs' :
  Forall (λ r, r.2 = true ∧ ∃ e, r.1 = Api.Item e) rs →
  Api.handle_socket id true (rs ++ (Api.Lagged, true) :: rs') = Api.handle_socket id true rs.
Proof.
  intros H. unfold Api.handle_socket. f_equal. induction H as [|[r b] rs [Hb (e & He)] _ IH]; [done|].
  simpl in *. subst. by rewrite IH.
Qed.
End ConfigLaws.

Module ConfigWitness.
Import ConfigLaws.

Definition state : Api.ApiState.t :=
  Api.ApiState.mk GlobalMetrics.new (replicate 32 7) (any_addr 9741) (any_addr 9742) (Some [115]).

Definition open_state : Api.ApiState.t :=
  Api.ApiState.mk GlobalMetrics.new (replicate 32 7) (any_addr 9741) (any_addr 9742) None.

(** A request without the key, and one that needs none. *)
Lemma api_guarded_witness :
  Api.handle state Api.NoHeader (Api.ConnectPeer (Api.Given (Some (any_addr 1)))) [] = ([], Api.Code Api.UNAUTHORIZED) ∧
  ∃ r, Api.handle open_state Api.NoHeader (Api.ConnectPeer (Api.Given (Some (any_addr 1)))) [] = ([ApiCommand.Connect (any_addr 1)], r) ∧
    r = Api.Code Api.ACCEPTED.
Proof.
  split.
  - apply (api_guarded state Api.NoHeader). intros H. discriminate (H [115] eq_refl).
  - destruct (api_guarded open_state Api.NoHeader (Api.ConnectPeer (Api.Given (Some (any_addr 1)))) []) as [_ H].
    destruct H as (r & Hr & _ & Ha & _); [by intros key [=]|]. exists r. split; [exact Hr|apply Ha; discriminate].
Defined.
End ConfigWitness.
