(* ===== verification/Process.v ===== *)
(** The process: [main] and the tasks [start_node] spawns.

    [start_node] makes the parts of the node, spawns the task that refreshes the
    metrics, the display (or, for a daemon, the task that drains the log), the
    interface and the event loop, and returns a handle with the shutdown token; [main] then
    waits for an interrupt, cancels the token and drops the runtime. Dropping the
    runtime drops every task at one of its awaits and waits for the rest: a display
    that has not returned, a task that never awaits. Until a task is dropped its
    worker may still poll it, whatever the token says: the event loop may take other
    branches than the one for shutdown. A panic in any of them aborts the process
    (panic = "abort" in the release profile), and so does a fault in a mapped file.
    An action is what one of them does next; a run is any sequence of actions.
    [tokio::signal::ctrl_c] is taken to install its handler. *)
From S2P Require Import Prelude Bytes CryptoTypes WireTypes FrameCodec DhtMsg PeerId Identity Noise Float64 PeerInfo Routing.
From S2P Require Import Transfer Connection Transport Node.
From S2P Require Import Telemetry Config.

Local Open Scope Z_scope.

Module Process.

Inductive main_state : Set := Waiting | Dropping | Exited | Aborted.

(** A spawned task: one that blocks in a call, [Stuck], never reaches an await. *)
Inductive task : Set := Live | Ended | Stuck.

(** The display on its blocking thread, or the task that drains the log with the
    blocking [recv] of crossbeam; [main] keeps the sender. *)
Inductive front : Set := Display (app : TuiApp.t) | Closed | Draining.

Record t : Type := mk {
  main : main_state;
  token : bool;                         (** the shutdown token is cancelled *)
  event_loop : task; updater : task; api : task;
  transport : task;                     (** the accept, writer and reader tasks, while any is left *)
  display : front;
  node : Node.t;
  metrics : GlobalMetrics.t             (** [tx_bytes] is the node's *)
}.

Definition set_main (x : main_state) (s : t) : t :=
  mk x (token s) (event_loop s) (updater s) (api s) (transport s) (display s) (node s) (metrics s).
Definition cancel (s : t) : t :=
  mk (main s) true (event_loop s) (updater s) (api s) (transport s) (display s) (node s) (metrics s).
Definition set_loop (x : task) (n : Node.t) (s : t) : t :=
  mk (main s) (token s) x (updater s) (api s) (transport s) (display s) n (metrics s).
Definition set_updater (x : task) (s : t) : t :=
  mk (main s) (token s) (event_loop s) x (api s) (transport s) (display s) (node s) (metrics s).
Definition set_api (x : task) (s : t) : t :=
  mk (main s) (token s) (event_loop s) (updater s) x (transport s) (display s) (node s) (metrics s).
Definition set_transport (x : task) (s : t) : t :=
  mk (main s) (token s) (event_loop s) (updater s) (api s) x (display s) (node s) (metrics s).
Definition set_display (x : front) (s : t) : t :=
  mk (main s) (token s) (event_loop s) (updater s) (api s) (transport s) x (node s) (metrics s).

(** The counter of sent bytes is shared by the event loop and the updater. *)
Definition set_tx_bytes (n : Z) (s : Node.t) : Node.t :=
  Node.mk (Node.identity s) (Node.tcp_addr s) (Node.tcp_transport s) (Node.peer_states s) (Node.routing_table s)
    (Node.transfer_manager s) (Node.pending_dht_connects s) (Node.commands s) (Node.api_events s) n.
Definition shared_metrics (s : t) : GlobalMetrics.t :=
  let m := metrics s in
  GlobalMetrics.mk (Node.tx_bytes (node s)) (GlobalMetrics.rx_bytes m) (GlobalMetrics.tx_rate m) (GlobalMetrics.rx_rate m)
    (GlobalMetrics.active_tcp_connections m) (GlobalMetrics.dht_active_peers m) (GlobalMetrics.dht_total_peers m)
    (GlobalMetrics.transfers m).

(** The tasks of the transport, of which there is one or two per connection. *)
Inductive transport_action : Type :=
| Accept (now : Z) (peer : result unit SocketAddr.t)
| Write (now : Z) (w : TcpTransport.write_outcome) (i : nat)
| WriterExit (i : nat)
| Read (now : Z) (item : TcpTransport.next_item) (i : nat).

Inductive action : Type :=
| Interrupt                              (** [ctrl_c().await] returns *)
| LoopTurn (e : Node.Env) (i : Node.input)
| Io (a : transport_action)
| Tick | UpdaterEnds
| ApiEnds (failed : bool)
| DisplayTurn (u : Tui.turn)
| DropLoop | DropUpdater | DropApi       (** the runtime drops a task at its await *)
| DropTransport                          (** ... and the last of the transport's tasks *)
| Exit.

Section Ops.
Context `{SH : !Sha256, XX : !X25519, ED : !Ed25519, AE : !Aead, LG : !Log2, HX : !HexCrate, CRC : !Crc32c}.

Definition transport_turn (a : transport_action) (x : TcpTransport.t) : TcpTransport.t :=
  match a with
  | Accept now peer => TcpTransport.accept now peer x
  | Write now w i => TcpTransport.writer_turn now w i x
  | WriterExit i => TcpTransport.writer_exit i x
  | Read now item i => TcpTransport.reader_turn now item i x
  end.

Definition is_live (x : task) : bool := match x with Live => true | _ => false end.
Definition is_stuck (x : task) : bool := match x with Stuck => true | _ => false end.
Definition is_waiting (s : t) : bool := match main s with Waiting => true | _ => false end.
Definition is_dropping (s : t) : bool := match main s with Dropping => true | _ => false end.
(** The process runs: tasks are polled also while the runtime is being dropped. *)
Definition is_up (s : t) : bool := is_waiting s || is_dropping s.

(** What the event loop becomes of a turn. *)
Definition after_turn (r : result Halt unit) : task :=
  match r with
  | Ok _ => Live
  | Err Blocked => Stuck
  | Err Left | Err Fault | Panic => Ended
  end.

(** Whether the turn takes the process down. *)
Definition fatal (r : result Halt unit) : bool := match r with Panic | Err Fault => true | _ => false end.

(** [None] when the action is not possible. *)
Definition act (a : action) (s : t) : option t :=
  match a with
  | Interrupt => if is_waiting s then Some (set_main Dropping (cancel s)) else None
  | LoopTurn e i =>
      if is_up s && is_live (event_loop s) && (match i with Node.Shutdown => token s | _ => true end) then
        let '(n, r) := Node.turn e i (node s) in
        let s := set_loop (after_turn r) n s in
        Some (if fatal r then set_main Aborted s else s)
      else None
  | Io a =>
      if is_up s && is_live (transport s) then
        Some (set_loop (event_loop s) (Node.set_tcp (transport_turn a (Node.tcp_transport (node s))) (node s)) s)
      else None
  | Tick =>
      if is_up s && is_live (updater s) then
        let m := Updater.tick (TcpTransport.pool (Node.tcp_transport (node s))) (Node.transfer_manager (node s)) (shared_metrics s) in
        Some (mk (main s) (token s) (event_loop s) (updater s) (api s) (transport s) (display s)
                (set_tx_bytes (GlobalMetrics.tx_bytes m) (node s)) m)
      else None
  | UpdaterEnds => if is_up s && is_live (updater s) && token s then Some (set_updater Ended s) else None
  | ApiEnds failed => if is_up s && is_live (api s) && (failed || token s) then Some (set_api Ended s) else None
  | DisplayTurn u =>
      match display s with
      | Display app =>
          if is_up s then
            let u := Tui.mkTurn (Tui.drawn u) (Tui.input u) (Tui.due u) (Tui.waiting u) (shared_metrics s) false in
            let '(tok, r) := Tui.loop_turn u app (token s) in
            let s := if tok then cancel s else s in
            let s := set_display (match r with Ok (Tui.Goes_on app) => Display app | _ => Closed end) s in
            Some (if is_panic r then set_main Aborted s else s)
          else None
      | _ => None
      end
  | DropLoop => if is_dropping s && is_live (event_loop s) then Some (set_loop Ended (node s) s) else None
  | DropUpdater => if is_dropping s && is_live (updater s) then Some (set_updater Ended s) else None
  | DropApi => if is_dropping s && is_live (api s) then Some (set_api Ended s) else None
  | DropTransport => if is_dropping s && is_live (transport s) then Some (set_transport Ended s) else None
  | Exit =>
      match display s with
      | Closed =>
          if is_dropping s && negb (is_live (event_loop s) || is_stuck (event_loop s))
             && negb (is_live (updater s) || is_stuck (updater s)) && negb (is_live (api s) || is_stuck (api s))
             && negb (is_live (transport s) || is_stuck (transport s))
          then Some (set_main Exited s) else None
      | _ => None
      end
  end.

Definition step (s s' : t) : Prop := ∃ a, act a s = Some s'.

(** ** Startup *)

(** What [start_node] meets: the key files and whether the new one is written, the
    randomness, whether the sockets can be bound and the display set up, and what each seed answers. *)
Record startup : Type := mkStartup {
  files : Identity.files; written : bool; ed_random : bytes; x_random : bytes;
  tcp_bound : bool; udp_bound : bool; terminal_ready : bool; disk : Transfer.disk; started_at : Z; seed_env : SocketAddr.t → Node.Env
}.

Inductive failure : Set := BadIdentity (e : CryptoError) | TcpBind | UdpBind.

(** ["downloads"] *)
Definition downloads : bytes := [100; 111; 119; 110; 108; 111; 97; 100; 115].

(** The detection of the NAT type only logs what it finds. *)
Definition start_node (config : ResolvedConfig.t) (u : startup) : Identity.files * result failure t :=
  let '(fs, r) := Node.load_identity (files u) (ResolvedConfig.key_file config) (ed_random u) (x_random u) (written u) in
  (fs,
   match r with
   | Ok id =>
       if negb (tcp_bound u) then Err TcpBind
       else if negb (udp_bound u) then Err UdpBind
       else
         let n := Node.new (started_at u) id (ResolvedConfig.tcp_addr config) (Z.to_nat (ResolvedConfig.max_connections config))
                    downloads (disk u) in
         let n := Node.bootstrap (map (λ a, (seed_env u a, a)) (ResolvedConfig.seeds config)) n in
         let d := if ResolvedConfig.daemon config then Draining else if terminal_ready u then Display TuiApp.new else Closed in
         Ok (mk Waiting false Live Live Live Live d n GlobalMetrics.new)
   | Err e => Err (BadIdentity e)
   | Panic => Panic
   end).

(** [main]: the configuration, then the node. *)
Definition launch `{TM : !TomlCrate} (cli : Cli.t) (path : on_disk) (u : startup) : Identity.files * result failure t :=
  start_node (resolve cli path) u.
End Ops.
End Process.

(** ** How the process ends *)
Module ProcessLaws.
Import Process.
Section Laws.
Context `{SH : !Sha256, XX : !X25519, ED : !Ed25519, AE : !Aead, LG : !Log2, HX : !HexCrate, CRC : !Crc32c, TM : !TomlCrate}.

(** The states of a process from its start on. *)
Definition reachable (s : t) : Prop :=
  ∃ cli path u fs s0, launch cli path u = (fs, Ok s0) ∧ rtc step s0 s.

(** The process waits for ever: a daemon, whose log drain never lets go of its
    thread, or one whose event loop is blocked. *)
Definition hangs (s : t) : Prop := display s = Draining ∨ event_loop s = Stuck.

Record inv (s : t) : Prop := {
  inv_token : main s = Dropping → token s = true;
  inv_display : ∀ app, display s = Display app → ∃ ts, app = TelemetryLaws.expected ts;
  inv_exit : main s = Exited → ¬ hangs s;
  inv_never_stuck : updater s ≠ Stuck ∧ api s ≠ Stuck ∧ transport s ≠ Stuck
}.

Lemma launch_inv cli path u fs s : launch cli path u = (fs, Ok s) → inv s.
Proof.
  unfold launch, start_node. destruct (Node.load_identity _ _ _ _ _) as [fs' [id| |]]; [|done..].
  destruct (tcp_bound u); [|done]. destruct (udp_bound u); [|done]. intros [= <- <-]. split; try done.
  intros app. cbn [display]. destruct (Cli.daemon cli); [done|]. destruct (terminal_ready u); [|done].
  intros [= <-]. by exists [].
Qed.

(** The display's turn: it goes on with what the ticks produce, and only while the
    token is not cancelled. *)
Lemma display_turn u ts tok tok' r :
  Tui.loop_turn u (TelemetryLaws.expected ts) tok = (tok', r) → Tui.cancelled u = false →
  is_panic r = false ∧ (tok = true → tok' = true) ∧
  ∀ app, r = Ok (Tui.Goes_on app) → tok' = false ∧ ∃ ts', app = TelemetryLaws.expected ts'.
Proof.
  intros H Hc. destruct (TelemetryLaws.tui_turn_ok u ts tok) as (tok2 & o & H2 & Ho). rewrite H in H2. injection H2 as -> ->.
  split_and!; [done| |].
  - intros ->. unfold Tui.loop_turn in H. destruct (Tui.drawn u); cbn [negb] in H; [|by injection H].
    destruct (Tui.input u) as [| | |ev]; [by injection H..|]. by destruct (Tui.quits ev); injection H.
  - intros app [= ->]. exact Ho.
Qed.

Ltac act_cases := repeat match goal with
  | H : (if ?c then _ else _) = Some _ |- _ => destruct c eqn:?; [|discriminate H]
  | H : Some _ = Some _ |- _ => injection H as <-
  | H : _ && _ = true |- _ => apply andb_prop in H as [? ?]
  end.

Lemma is_live_eq x : is_live x = true → x = Live.
Proof. by destruct x. Qed.
Lemma is_dropping_eq s : is_dropping s = true → main s = Dropping.
Proof. unfold is_dropping. by destruct (main s). Qed.
Lemma is_up_eq s : is_up s = true → main s = Waiting ∨ main s = Dropping.
Proof. unfold is_up, is_waiting, is_dropping. destruct (main s); simpl; auto; done. Qed.

(** A turn of the display, from any state the process reaches. *)
Lemma display_step u s s' :
  inv s → act (DisplayTurn u) s = Some s' →
  ∃ app d, display s = Display app ∧ is_up s = true ∧
    (s' = set_display d s ∨ s' = set_display d (cancel s)) ∧ (token s = true → d = Closed) ∧
    (d = Closed ∨ ∃ ts, d = Display (TelemetryLaws.expected ts)).
Proof.
  intros [_ Hd _ _] H. cbn [act] in H. destruct (display s) as [app| |] eqn:Ed; [|done..].
  destruct (is_up s) eqn:Hup; [|done].
  destruct (Hd app eq_refl) as (ts & ->). destruct (Tui.loop_turn _ _ (token s)) as [tok r] eqn:El.
  destruct (display_turn _ ts (token s) tok r El eq_refl) as (Hnp & Htok & Hgo).
  set (d := match r with Ok (Tui.Goes_on app) => Display app | _ => Closed end) in *.
  exists (TelemetryLaws.expected ts), d. rewrite Hnp in H. injection H as <-.
  assert (d = Closed ∨ tok = false ∧ ∃ ts', d = Display (TelemetryLaws.expected ts')) as Hdd.
  { unfold d. destruct r as [[app|app|]|e|]; try by left. right. destruct (Hgo app eq_refl) as [-> (ts' & ->)]. eauto. }
  split_and!; [done|done|destruct tok; auto| |naive_solver].
  intros Ht. specialize (Htok Ht). destruct Hdd as [|[? _]]; congruence.
Qed.

Lemma step_inv s s' : inv s → step s s' → inv s'.
Proof.
  intros Hs [a Ha]. destruct a as [|e i|a| | |f|u| | | | |]; cbn [act] in Ha.
  7: { destruct (display_step u s s' Hs Ha) as (app & d & Ed & Hup%is_up_eq & Hs' & _ & Hd). destruct Hs as [H1 H2 H3 H4].
       destruct Hs' as [->| ->]; (split; simpl; [auto|intros app' ->; destruct Hd as [|(ts & [= ->])]; [done|eauto]|
         by destruct Hup as [-> | ->]|done]). }
  all: pose proof Hs as [H1 H2 H3 (H4 & H5 & H6)]; act_cases.
  all: repeat match goal with
    | H : is_up _ = true |- _ => apply is_up_eq in H
    | H : is_dropping _ = true |- _ => apply is_dropping_eq in H
    end.
  - by split; simpl.
  - destruct (Node.turn e i (node s)) as [n r]. injection Ha as <-.
    destruct (fatal r); (split; simpl; try done); by destruct H as [-> | ->].
  - split; simpl; try done; by destruct H as [-> | ->].
  - split; simpl; try done; by destruct H as [-> | ->].
  - split; simpl; try done; by destruct H as [-> | ->].
  - split; simpl; try done; by destruct H as [-> | ->].
  - split; simpl; try done; by rewrite H.
  - split; simpl; try done; by rewrite H.
  - split; simpl; try done; by rewrite H.
  - split; simpl; try done; by rewrite H.
  - destruct (display s) eqn:Ed; try done. act_cases. split; simpl; [done|by rewrite Ed| |done].
    intros _ [HE|HE]; cbn in HE; [congruence|]. by rewrite HE in *.
Qed.

Lemma process_inv s : reachable s → inv s.
Proof.
  intros (cli & path & u & fs & s0 & Hl & Hr). pose proof (launch_inv _ _ _ _ _ Hl) as H0. clear Hl.
  induction Hr as [|s1 s2 s3 Hst _ IH]; [done|]. by eapply IH, step_inv.
Qed.

(** ** While the runtime is dropped *)

(** The actions by which the process comes to its end: those of the runtime that is
    being dropped, and the display's, which looks at the token. *)
Definition ends (a : action) : bool :=
  match a with
  | DropLoop | DropUpdater | DropApi | DropTransport | DisplayTurn _ | Exit => true
  | _ => false
  end.

Definition live (x : task) : nat := if is_live x then 1 else 0.
Definition left_to_do (s : t) : nat :=
  (match main s with Exited | Aborted => 0 | _ => 1 end) + live (event_loop s) + live (updater s) + live (api s) +
  live (transport s) + (match display s with Display _ => 1 | _ => 0 end).

(** The interrupt has been taken, whatever came of it. *)
Definition interrupted (s : t) : Prop := main s ≠ Waiting.

Lemma live_after r : (live (after_turn r) ≤ 1)%nat.
Proof. unfold live. case_match; lia. Qed.

(** No action takes the process further from its end, those of [ends] bring it
    nearer, and none frees what hangs. *)
Lemma dropping_step a s s' :
  inv s → interrupted s → act a s = Some s' →
  interrupted s' ∧ (left_to_do s' + (if ends a then 1 else 0) ≤ left_to_do s)%nat ∧ (hangs s → hangs s').
Proof.
  intros Hs Hm Ha. unfold left_to_do, hangs, interrupted in *. destruct a as [|e i|a| | |f|u| | | | |]; cbn [ends].
  7: { destruct (display_step u s s' Hs Ha) as (app & d & Ed & Hup%is_up_eq & Hs' & Htok & _).
       destruct Hup as [?|Hd]; [done|]. rewrite Htok in Hs' by (by apply (inv_token s Hs)).
       destruct Hs' as [->| ->]; simpl; rewrite Hd, Ed; (split_and!; [done|lia|naive_solver]). }
  all: cbn [act] in Ha; act_cases; repeat match goal with
    | H : is_live _ = true |- _ => apply is_live_eq in H
    | H : is_dropping _ = true |- _ => apply is_dropping_eq in H
    | H : is_up _ = true |- _ => apply is_up_eq in H as [?|H]; [done|]
    end.
  - unfold is_waiting in *. by destruct (main s).
  - destruct (Node.turn e i (node s)) as [n r]. injection Ha as <-. pose proof (live_after r).
    destruct (fatal r); simpl; rewrite ?H, H1; (split_and!; [done|unfold live at 5; simpl; lia|naive_solver]).
  - simpl. split_and!; [done|lia|done].
  - simpl. split_and!; [done|lia|done].
  - simpl. rewrite H1. split_and!; [done|unfold live; simpl; lia|done].
  - simpl. rewrite H1. split_and!; [done|unfold live; simpl; lia|done].
  - simpl. rewrite H0. split_and!; [done|unfold live; simpl; lia|naive_solver].
  - simpl. rewrite H0. split_and!; [done|unfold live; simpl; lia|done].
  - simpl. rewrite H0. split_and!; [done|unfold live; simpl; lia|done].
  - simpl. rewrite H0. split_and!; [done|unfold live; simpl; lia|done].
  - destruct (display s) eqn:Ed; try done. act_cases. apply is_dropping_eq in H. simpl. rewrite Ed, H. split_and!; [done|lia|done].
Qed.

Lemma exited_final s s' : main s = Exited ∨ main s = Aborted → ¬ step s s'.
Proof.
  intros Hm [a Ha]. destruct a; cbn [act] in Ha; unfold is_up, is_waiting, is_dropping in Ha; destruct Hm as [Hm|Hm]; rewrite Hm in Ha;
    try discriminate Ha; by destruct (display s).
Qed.

(** A panic of the event loop is the end of the whole process. *)
Lemma panic_aborts e i s s' :
  (Node.turn e i (node s)).2 = Panic → act (LoopTurn e i) s = Some s' → main s' = Aborted ∧ ∀ s'', ¬ step s' s''.
Proof.
  intros Hp H. cbn [act] in H. destruct (_ && _); [|done]. destruct (Node.turn e i (node s)) as [n r]. simpl in Hp. subst r.
  injection H as <-. split; [done|]. intros s''. apply exited_final. by right.
Qed.


(** ** Runs *)









(** Quitting the display stops the node but not the process: with the token
    cancelled and every task ended, only an interrupt goes on. *)
Lemma quit_waits s s' :
  main s = Waiting → event_loop s = Ended → updater s = Ended → api s = Ended → display s = Closed →
  step s s' → main s' = Waiting ∨ s' = set_main Dropping (cancel s).
Proof.
  intros Hm H1 H2 H3 H4 [a Ha]. destruct a; cbn [act] in Ha; unfold is_up, is_waiting, is_dropping in Ha;
    rewrite Hm, ?H1, ?H2, ?H3, ?H4 in Ha; cbn in Ha; try (destruct (is_live (transport s)); [|done]); simplify_eq/=; auto.
Qed.
End Laws.
End ProcessLaws.

Module ProcessWitness.
Import Process ProcessLaws ToyAead ToyCrypto ToyLog2 Crc32cBitwise.

#[local] Instance raw_hex : HexCrate := { hex_crate_decode := Some; hex_crate_encode := λ b, b }.
#[local] Instance no_toml : TomlCrate := { toml_parse := λ _, None }.

Definition cli (daemon : bool) : Cli.t := Cli.mk None None None None None None true None None daemon.
Definition boot : startup :=
  mkStartup ∅ true (replicate 32 1) (replicate 32 2) true true true ∅ 0
    (λ _, Node.mkEnv 0 [] (Err tt) [] true Prepared).
Definition running (daemon : bool) : t :=
  match (launch (cli daemon) Missing boot).2 with
  | Ok s => s
  | _ => mk Exited true Ended Ended Ended Ended Closed (Node.new 0 (Identity.generate [] []) (any_addr 0) 0 [] ∅) GlobalMetrics.new
  end.

Lemma launched daemon : ∃ fs, launch (cli daemon) Missing boot = (fs, Ok (running daemon)).
Proof. destruct daemon; eexists; reflexivity. Qed.

Lemma interrupted_reachable daemon : reachable (set_main Dropping (cancel (running daemon))).
Proof.
  destruct (launched daemon) as (fs & Hl). exists (cli daemon), Missing, boot, fs, (running daemon). split; [exact Hl|].
  apply rtc_once. exists Interrupt. by destruct daemon.
Qed.

Definition env : Node.Env := Node.mkEnv 1 [] (Err tt) [] true Prepared.






(** A message for an identifier of the wrong length, sent through the interface. *)
Example short_id_aborts :
  ∃ s', act (LoopTurn env (Node.Command (ApiCommand.SendMessagePeerId [1; 2] [104; 105]))) (running false) = Some s' ∧ main s' = Aborted.
Proof. eexists. by split. Qed.

(** A daemon never exits, however long one waits after the interrupt. *)
Lemma daemon_never_exits s' :
  rtc step (set_main Dropping (cancel (running true))) s' → main s' ≠ Exited.
Proof.
  intros Hr. assert (∀ s, rtc step s s' → inv s → interrupted s → hangs s → main s' ≠ Exited) as H.
  { clear Hr. induction 1 as [s|s s1 s' Hst _ IH]; intros Hs Hi Hh; [intros He; by apply (inv_exit s Hs He)|].
    pose proof Hst as [a Ha]. destruct (dropping_step a s s1 Hs Hi Ha) as (J1 & _ & J2). apply IH; [by eapply step_inv|done|auto]. }
  apply (H _ Hr); [exact (process_inv _ (interrupted_reachable true))|done|by left].
Qed.
End ProcessWitness.
