(* ===== verification/Chaos.v ===== *)
(** ceky-transport/src/chaos.rs: the fault injection that the feature "chaos" puts
    between the transports and their sockets. The outcomes of the random draws and
    of the inner socket are arguments; the probabilities only choose the draws. *)
From S2P Require Import Prelude Bytes DhtMsg.

Local Open Scope Z_scope.

Inductive poll (A : Type) : Type :=
| Ready (r : result unit A)
| Pending.
Arguments Ready {A} r.
Arguments Pending {A}.

(** One set of draws: [gen_bool] for each fault, and the byte to damage, counted
    from the first one just read. *)
Record draws : Set := mkDraws { drops : bool; delays : bool; corrupts : bool; idx : nat }.

Module ChaosStream.
(** [data[i] ^= 0xFF] *)
Definition flip (i : nat) (data : bytes) : bytes := alter (Z.lxor 0xFF) i data.

(** [poll_read]: what is in the buffer afterwards, and the answer. The inner stream
    answers with the bytes it appended. *)
Definition poll_read (d : draws) (inner : poll bytes) (filled : bytes) : bytes * poll unit :=
  if drops d then (filled, Ready (Ok tt))
  else if delays d then (filled, Pending)
  else
    match inner with
    | Ready (Ok data) =>
        if (0 <? length data)%nat && corrupts d
        then (flip (length filled + idx d) (filled ++ data), Ready (Ok tt))
        else (filled ++ data, Ready (Ok tt))
    | Ready (Err _) => (filled, Ready (Err tt))
    | Ready Panic => (filled, Ready Panic)
    | Pending => (filled, Pending)
    end.

Definition poll_write (d : draws) (inner : poll Z) : poll Z :=
  if drops d then Ready (Err tt) else if delays d then Pending else inner.
End ChaosStream.

Module ChaosSocket.
(** [recv_from]: the results of the inner socket, each with its draw, until one is
    kept; [None] while all that arrived was dropped. *)
Fixpoint recv_from (arrivals : list (result unit (bytes * SocketAddr.t) * bool)) : option (result unit (bytes * SocketAddr.t)) :=
  match arrivals with
  | [] => None
  | (res, drop) :: arrivals => if is_ok res && drop then recv_from arrivals else Some res
  end.

(** [send_to]: the answer, and whether the datagram went out. *)
Definition send_to (drop : bool) (buf : bytes) (inner : bytes → result unit Z) : result unit Z * bool :=
  if drop then (Ok (blen buf), false) else (inner buf, true).
End ChaosSocket.

Module ChaosLaws.
(** A read through the fault injection keeps what was in the buffer and adds either
    nothing or what the inner stream read, with at most one byte inverted. *)
Lemma chaos_read_damage d inner filled filled' r :
  ChaosStream.poll_read d inner filled = (filled', r) →
  ∃ got, filled' = filled ++ got ∧
    (got = [] ∨ ∃ data, inner = Ready (Ok data) ∧ length got = length data ∧
       ∀ i, got !! i = data !! i ∨ (i = idx d ∧ got !! i = Z.lxor 0xFF <$> data !! i)).
Proof.
  unfold ChaosStream.poll_read. intros H.
  destruct (drops d); [injection H as <- _; exists []; rewrite app_nil_r; auto|].
  destruct (delays d); [injection H as <- _; exists []; rewrite app_nil_r; auto|].
  destruct inner as [[data|[]|]|]; [|injection H as <- _; exists []; rewrite app_nil_r; by auto..].
  destruct ((0 <? length data)%nat && corrupts d); injection H as <- _.
  - exists (ChaosStream.flip (idx d) data). unfold ChaosStream.flip. split.
    + by rewrite alter_app_r.
    + right. exists data. split_and!; [done|by rewrite length_alter|]. intros i.
      destruct (decide (i = idx d)) as [->|Hne]; [right|left].
      * by rewrite list_lookup_alter_eq.
      * by rewrite list_lookup_alter_ne.
  - exists data. split; [done|]. right. exists data. auto.
Qed.

(** A kept datagram is one that arrived, in order. *)
Lemma chaos_recv_arrived arrivals r : ChaosSocket.recv_from arrivals = Some r → ∃ b, (r, b) ∈ arrivals.
Proof.
  induction arrivals as [|[res b] arrivals IH]; [done|]. simpl. destruct (is_ok res && b).
  - intros H. destruct (IH H) as [b' Hb]. exists b'. by constructor.
  - intros [= ->]. exists b. constructor.
Qed.
End ChaosLaws.
